(* ===== verification/_CoqProject ===== *)
-Q . S2P
Prelude.v
Sha256.v
Es.v
Hash.v
Chain.v
Anchor.v
Timestamp.v
Effect.v
Store.v
Sql.v
Sqlite.v
SqliteCorrect.v
SqliteTheorems.v
HexUuid.v
SqliteClaims.v
Runtime.v
RuntimeCorrect.v
RuntimeSqlite.v
Counter.v
RuntimeClaims.v
Definitions.v
FeedPorts.v
Feed.v
FeedConfig.v
FeedContract.v
FeedCorrect.v
SqliteFeed.v
SqliteFeedCorrect.v
FeedSqlite.v
SqliteLeases.v
FeedHealthy.v
FeedClaims.v
FeedOpsClaims.v
SqliteAnchors.v
Delivery.v
DeliveryCorrect.v
DeliverySqlite.v
Projection.v
RunnerCorrect.v
BufferedMarker.v
Reaction.v
ReactionClaims.v
PgServer.v
PgStore.v
PgServerCorrect.v
PgFence.v
PgLog.v
PgAppend.v
PgRuntime.v
PgFeed.v
PgFeedCorrect.v
PgClaims.v
PgDrain.v
PgAnchors.v
Eventfeed.v
EventfeedCorrect.v
EventfeedSqlite.v
EsVerify.v
Migrate.v
PgOpen.v
SqliteOpen.v
Cmdsvc.v
CommandHandler.v
CounterConnect.v
GoText.v
Generator.v
GeneratorCorrect.v
Catalogue.v
Generated.v
GeneratedClaims.v
DecidedAt.v
Printer.v
PrinterCorrect.v
PrinterClaims.v
Conformance.v
ConformanceLaws.v
ConformanceLeases.v
ConformanceSqlite.v
ConformancePg.v
ConformanceClaims.v
