(* ===== verification/Prelude.v ===== *)
(** * es-lite: a verification development

    es-lite is an event-sourcing library: aggregates append events to per-stream
    logs with optimistic concurrency, every row is linked into a hash chain, and
    the log is delivered to subscribers through a leased feed, a poller or a
    projector engine.  This library models its core packages in Rocq, one
    definition per Go function, and proves the properties the packages promise.

    ** How the program is put together, and which file models what

    - [Prelude]: results ([result], Go's value-or-error returns), tactics, hint
      databases, lemmas on lists, integers and byte strings shared by all files.
    - [Effect]: the state-and-error monad of effectful Go code.  [Sql]: database
      calls and transactions over a world that has a database and a tick; every
      statement may fail ([fault]), the clock and the id generator are read from
      the environment [Env].
    - [Sha256] (crypto/sha256), [Es] (src/es: stream ids, actors, constraint
      operations, error values with errors.Is and errors.As, envelopes, append
      parameters), [Hash] (src/es/hash.go), [Chain] (src/es/verify.go),
      [Anchor] (src/es/anchor.go).
    - [Store]: the interface src/es/store.go as a class of operations with the
      laws a client may rely on, stated against an abstract log.
    - [Timestamp], [Sqlite] (src/sqlite/store.go), [SqliteCorrect],
      [SqliteTheorems], [HexUuid], [SqliteClaims]: the SQLite store over its
      tables, its log invariant, and the refinement of the abstract log.
    - [SqliteAnchors] (src/sqlite/anchor.go): anchors over the same tables.
    - [Runtime] (src/aggregate/runtime.go), [RuntimeCorrect], [RuntimeSqlite],
      [RuntimeClaims]: load, decide, append, retry, proved against [Store] and a
      contract for the services around it, then instantiated with SQLite and a
      concurrent writer.  [Counter]: the example aggregate.
    - [Definitions] (src/projection/definition.go), [FeedPorts]
      (src/feed/ports.go, src/feed/errors.go), [Feed], [FeedConfig]
      (src/feed/server.go): the feed server over records of port operations;
      [FeedContract]: what the ports promise, for any store (a log may be read
      [prompt]ly, as SQLite's is, or only behind a fence, as PostgreSQL's);
      [FeedCorrect]: the subscribe loop against that contract.
    - [SqliteFeed] (src/sqlite/feed.go), [SqliteFeedCorrect], [SqliteLeases],
      [FeedSqlite], [FeedHealthy], [FeedClaims], [FeedOpsClaims]: the SQLite
      adapters discharge the contract, and the assembled feed's properties.
    - [Delivery] (src/delivery), [DeliveryCorrect], [DeliverySqlite]: the poller,
      the relay and the wake-up signal; the poller over SQLite.
    - [Projection] (src/projection: replay.go, runner.go, reconnecting.go),
      [RunnerCorrect], [BufferedMarker] (buffered_marker.go): the projector
      engine, its markers and feeds.
    - [Reaction] (src/reaction/reaction.go, src/upcast/registry.go),
      [ReactionClaims]: the executor of the commands a reaction issues.
    - [PgServer]: a PostgreSQL server as far as the store depends on it
      (transaction ids, snapshots, the position sequence, rows of uncommitted
      transactions, unique indexes) with the moves of other sessions;
      [PgServerCorrect]: what those moves preserve.  [PgStore]
      (src/postgres/wsstore.go, store.go): the workspace store as a session's
      statements; [PgFence]: the transaction-horizon fence; [PgLog],
      [PgAppend]: the log invariant and Append; [PgRuntime]: the store
      discharges [Store], so the runtime's theorem holds over it.  [PgFeed]
      (src/postgres/feed.go), [PgFeedCorrect]: the feed adapters discharge
      [FeedContract].  [PgClaims]: the properties.  [PgDrain]
      (src/postgres/drain.go): the relay's claiming drain.  [PgAnchors]
      (src/postgres/anchor.go).  [PgOpen]: options, pools and the es-migrate
      command (src/postgres/store.go, src/cmd/es-migrate/main.go).
    - [Eventfeed] (src/eventfeed/eventfeed.go), [EventfeedCorrect],
      [EventfeedSqlite]: the consumer that turns a feed server into a projection
      feed, its ack loop beside the stream; proved against the class
      [CursorLaws], which SQLite's adapters discharge.
    - [EsVerify] (src/cmd/es-verify/main.go): the audit command over any backend.
    - [Migrate] (src/migrate/migrate.go and both stores' Migrate): migration
      files and concurrent migrators.
    - [SqliteOpen] (src/sqlite/store.go): opening, borrowing and closing a
      database handle, and the pragmas asked for.
    - [Cmdsvc] (src/cmdsvc/cmdsvc.go): the command service's error mapping.
      [CommandHandler] (src/cmd/protoc-gen-es-lite/service.go and the counter's
      generated handlers): what an emitted RPC does.  [CounterConnect]
      (counter_service.connect.go): the client, the HTTP routes and the
      unimplemented service.
    - [GoText]: fmt's %q with a reader for it, and the texts of
      src/feed/errors.go.
    - The code generator (src/cmd/protoc-gen-es-lite): [Generator] is the front
      end over descriptors, [GeneratorCorrect] what a successful run has
      checked, [Catalogue] the documentation page, [Printer] the Go text
      printed, [PrinterCorrect] an executor for the printed switches,
      [PrinterClaims] the descriptors of the repository's protos and the theorem
      about printed switches.  [Generated], [GeneratedClaims]: what the printed
      codecs, projectors and reactions do, for the counter, and the example read
      models (src/examples/projection/doc.go).  [DecidedAt] (src/es/decided_at.go): the
      stamp of a command's decision time beside the generated accessor.
    - [Conformance] (src/feedtest/conformance.go): the conformance suite as a
      program over any feed ports; [ConformanceLaws], [ConformanceLeases]: its
      checkpoint and lease tests proved from the ports' laws;
      [ConformanceSqlite], [ConformancePg]: the two fixtures, and the laws
      discharged by the two backends; [ConformanceClaims]: the verdicts.

    ** How Go is represented

    Structs are records, sentinel errors an enumeration, wrapped errors a type
    with errors.Is and errors.As as functions.  Unsigned integers are [N] and
    signed ones [Z], wrapped at their width where the code can reach it ([i64],
    [u64]); times are nanoseconds since the epoch; byte slices are lists of
    bytes, with [option] where nil and empty differ.  Interfaces are classes or
    records of operations, and the theorems of a client are proved from laws
    stated beside them.  Concurrency is interleaving: other processes' appends
    and lease calls, and the lease renewer's ticks, run between the calls of the
    code under study, in any order the schedule gives; a context's cancellation
    and a timer are answers of the environment.  Code from outside the
    repository is a parameter: the uuid library is the class [UuidLib] (with
    [HexUuid] as an instance), the SQL driver's failures are [fault], codecs and
    deciders are arguments of the runtime, connect-go and protobuf are
    [ConnectLib], reading and parsing a JSON file are arguments of es-verify.

    The PostgreSQL model is one session among others.  Between any two of its
    statements the other sessions make any moves the server allows: begin,
    take a transaction id, draw a position, insert, commit, abort, claim rows
    for publication under locks and mark them published.  Each statement reads its own snapshot (READ COMMITTED) and sees
    the rows its row-level-security setting selects.  A statement that would
    have to wait for another transaction's row fails instead (as a statement
    timeout makes it); a commit may succeed while its answer is lost
    ([lost_ack]).  The fence is the one of a workspace handle.  The ack loop of
    the event feed takes its steps at the port calls and timers of the stream,
    as a script says, each of its acknowledgements in two steps; the migrators
    are processes that run statement by statement.

    Loops that Go bounds by data recurse on that data.  The others carry fuel:
    the subscribe, poller, relay, replay and feed loops return [None] when it
    ends, which stands for a call that has not returned, and theorems about what
    such a loop has done so far hold for every amount.  [drain_terminates] and
    [feed_catches_up] give an amount that is enough: one iteration more than
    there are undelivered events.  VerifyStreamWith is run with as much fuel as
    the stream has rows ([verify_paging] shows it is enough); retry loops recurse
    on the retries left.  The consumer's retry loop marks the attempt stuck when
    its fuel ends, which stands for a handler that still refuses the event;
    [audit_sqlite_clean] gives the fuel that is enough for an audit (more than
    the log has events) and [migrate_returns] for a migrator.  The suite's polls
    are bounded by their deadlines: a wait for an expiring lease takes at most
    1001 polls of five milliseconds in its five seconds, and an end-to-end
    subscription is run for 500 rounds of its ten-millisecond poll, the five
    seconds its context allows.

    ** What is proved

    - The store: an append either changes nothing or extends the abstract log as
      es.Store promises; on a healthy database version, event ids and claims
      decide which; reads return what was written; claims are exclusive;
      timestamps round-trip and sort as text.
    - Tamper evidence: streams of every reachable database verify; two histories
      that verify strictly with one head agree, unless two byte strings hashed
      in them collide (SHA-256 is computed, [colliding] names the strings: no
      theorem assumes collision freedom, none rests on the bare existence of a
      collision); anchors at or below the head survive growth and, in the same
      sense, catch rewrites; verification is independent of the page size on
      contiguous streams, and stops early at a hole that ends the first page.
    - The runtime: a load is the fold of the stream at one instant, with or
      without snapshots; a handled command was decided on exactly the state its
      events extend; assertions and decision times are checked as documented,
      up to one overflow.  A reaction's commands are worked off in order.
    - The feed: a subscription has sent exactly the consumed events from its
      cursor on, in order and without a gap, whatever is interleaved; a healthy
      one catches up and keeps running; leases exclude; acknowledgements are
      fenced while no other process acts between the holder check and the save,
      and monotone always; skips are audited, resets redefine, drift fails
      closed, status is exact, servers are well configured by construction.
    - Delivery and projections: a drain loses nothing and ends; the projector
      engine turns at-least-once delivery into exactly-once processing, an event
      being processed once more for each of its marker writes that failed; the buffering marker loses no position.
    - PostgreSQL: an append keeps the log invariant and means what it returned
      between other sessions' statements; pages are final although positions
      commit out of order, so a subscription never skips; handled commands lose
      no update; beside other relays the drain marks only what was published, and
      its 0 means that what is not marked is locked by another relay; anchors of settled positions are permanent, and those of the log
      head are not.
    - The consumer: every event the cursor passes was accepted by the handler,
      over attempts, refusals, ticks and lost leases.
    - The commands: the exit status of an audit is its verdict, up to a read
      error after a broken stream; migrations are applied once and in order by
      any number of migrators; a conflict's detail reaches the client.
    - The command service: a request that was answered was validated, let through
      under the server's idea of the caller and decided on the current state; a
      stale request's detail reports the version it asserted and the state at a
      later instant.
      A generated command is decided on server time.
    - The code generator: a run without an error prints only names that resolve,
      once each within a handler; the printed switches decide as the models of
      the generated code do.  The counter's generated view, rebuilt from the log, is the live
      one.
    - The conformance suite: any checkpoint and lease store that keeps the port
      laws passes the sections for them, and the adapters of both backends do in
      every healthy environment.  (One run of the whole suite is evaluated per
      backend; SQLite fails one test of the cross-workspace section, which its
      fixture leaves out.)

    ** What is not modelled

    SQL text, the drivers and the row-level-security policies are represented by
    what each statement does.  Of the generator, protogen's part is a parameter:
    the descriptors it builds, the aliases it chooses, the import block and the
    formatting it adds; names in descriptors are ASCII.  The protobuf message
    code (the .pb.go files protoc-gen-go wrote) is a parameter of what uses it.
    The Go test suites are not modelled, and src/es/doc.go and
    src/examples/upcast/doc.go hold comments only. *)
From Stdlib Require Export Ascii String Strings.Byte NArith ZArith Lia.
From stdpp Require Export base list gmap strings option vector sorting relations.

(** ** Result values: Go's [(T, error)] returns.

    A Go call returns either a value or a non-nil error; [result] keeps the
    two apart.  The error type is a parameter so that each layer can use its
    own error values. *)

Inductive result (E A : Type) : Type :=
| Ok (a : A)
| Err (e : E).
Arguments Ok {E A} _.
Arguments Err {E A} _.

Definition result_bind {E A B} (r : result E A) (k : A -> result E B) : result E B :=
  match r with
  | Ok a => k a
  | Err e => Err e
  end.

Definition is_ok {E A} (r : result E A) : bool :=
  match r with Ok _ => true | Err _ => false end.

Declare Scope go_scope.
Delimit Scope go_scope with go.

Notation "'let?' x := r 'in' k" := (result_bind r (fun x => k))
  (at level 10, x pattern, r at level 100, k at level 200) : go_scope.
Notation "'guard?' b 'else' e 'in' k" := (if (b : bool) then k else Err e)
  (at level 10, b at level 100, e at level 100, k at level 200) : go_scope.

Open Scope go_scope.

(** ** Development tactics and hint databases *)

Create HintDb eslite.
Create HintDb feed.
Create HintDb pg.

(** Case analysis on every [match]/[if] scrutinee that blocks a computation
    in a hypothesis, keeping the equations. *)
Ltac case_hyp H :=
  match type of H with
  | context [ match ?x with _ => _ end ] =>
      first [ is_var x; destruct x | let E := fresh "E" in destruct x eqn:E ]
  end.

Ltac case_goal :=
  match goal with
  | |- context [ match ?x with _ => _ end ] =>
      first [ is_var x; destruct x | let E := fresh "E" in destruct x eqn:E ]
  end.

(** Reduce a monadic computation that is known to have succeeded (or failed)
    to the equations of its steps. *)
Ltac run_result H :=
  repeat (cbn [result_bind] in H; case_hyp H; try discriminate H);
  cbn [result_bind] in H; simplify_eq H.

Lemma result_bind_Ok {E A B} (r : result E A) (k : A -> result E B) b :
  result_bind r k = Ok b <-> exists a, r = Ok a /\ k a = Ok b.
Proof.
  destruct r as [a|e]; simpl; split; intros H; [eauto| | |].
  - destruct H as (a' & [= <-] & H); exact H.
  - discriminate.
  - destruct H as (a' & [=] & _).
Qed.

Lemma result_bind_Err {E A B} (r : result E A) (k : A -> result E B) e :
  result_bind r k = Err e <-> r = Err e \/ exists a, r = Ok a /\ k a = Err e.
Proof.
  destruct r as [a|e']; simpl; split; intros H.
  - right; eauto.
  - destruct H as [H|(a' & [= <-] & H)]; [discriminate|exact H].
  - left; congruence.
  - destruct H as [H|(a' & [=] & _)]; congruence.
Qed.

(** Mapping a fallible function over a list, stopping at the first error:
    the shape of every Go [for range] loop that returns on error. *)
Fixpoint result_map {E A B} (f : A -> result E B) (l : list A) : result E (list B) :=
  match l with
  | [] => Ok []
  | x :: l' =>
      let? y := f x in
      let? ys := result_map f l' in
      Ok (y :: ys)
  end.

Lemma result_map_Ok {E A B} (f : A -> result E B) l ys :
  result_map f l = Ok ys <-> Forall2 (fun x y => f x = Ok y) l ys.
Proof.
  revert ys; induction l as [|x l IH]; intros ys; simpl.
  - split; [intros [= <-]; constructor | inversion 1; reflexivity].
  - rewrite result_bind_Ok; split.
    + intros (y & Hy & H). apply result_bind_Ok in H as (ys' & Hys & [= <-]).
      constructor; [done|]. by apply IH.
    + inversion 1 as [|? y ? ys' Hy Hys]; subst. exists y; split; [done|].
      apply result_bind_Ok. exists ys'. by rewrite IH.
Qed.

Lemma result_map_total {E A B} (f : A -> result E B) (g : A -> B) l :
  (forall x, x ∈ l -> f x = Ok (g x)) -> result_map f l = Ok (map g l).
Proof.
  intros H. apply result_map_Ok. induction l as [|x l IH]; simpl; constructor.
  - apply H; set_solver.
  - apply IH. intros y Hy; apply H; set_solver.
Qed.

(** ** Machine integers *)

Definition u64_mod : N := 18446744073709551616.
Definition max_int64 : N := 9223372036854775807.
Definition u32_mod : N := 4294967296.
Definition i64_mod : Z := 18446744073709551616.
Definition i64_max : Z := 9223372036854775807.

(** Unsigned wrap-around of Go's [uint64] and [uint32] arithmetic. *)
Definition u64 (x : N) : N := (x mod u64_mod)%N.
Definition u32 (x : N) : N := (x mod u32_mod)%N.

(** [uint64(z)] for a signed [z]: two's complement. *)
Definition u64_of_Z (z : Z) : N := Z.to_N (z mod i64_mod)%Z.

(** Signed wrap-around of Go's [int64] arithmetic. *)
Definition i64 (z : Z) : Z :=
  ((z + 9223372036854775808) mod i64_mod - 9223372036854775808)%Z.

Lemma u64_small x : (x < u64_mod)%N -> u64 x = x.
Proof. intros; unfold u64; by apply N.mod_small. Qed.

Lemma i64_small z : (- 9223372036854775808 <= z <= i64_max)%Z -> i64 z = z.
Proof.
  intros [H1 H2]; unfold i64, i64_mod, i64_max in *.
  rewrite Z.mod_small by lia. lia.
Qed.

(** ** Bytes, strings and the big-endian encodings of [encoding/binary] *)

#[global] Instance byte_eq_decision : EqDecision byte := Byte.byte_eq_dec.

(** A Go string is its sequence of bytes. *)
Definition bytes_of (s : string) : list byte := list_byte_of_string s.

Definition byte_of_N (x : N) : byte :=
  match Byte.of_N (x mod 256)%N with Some b => b | None => Byte.x00 end.

(** [be k x]: the [k] low-order bytes of [x], most significant first. *)
Fixpoint be (k : nat) (x : N) : list byte :=
  match k with
  | O => []
  | S k' => be k' (x / 256)%N ++ [byte_of_N x]
  end.

Definition AppendUint32 (b : list byte) (x : N) : list byte := b ++ be 4 x.
Definition AppendUint64 (b : list byte) (x : N) : list byte := b ++ be 8 x.

(** Reading the bytes back, the reference meaning of an encoding. *)
Definition be_value (l : list byte) : N :=
  foldl (fun acc b => acc * 256 + Byte.to_N b)%N 0%N l.

Lemma bytes_of_inj s1 s2 : bytes_of s1 = bytes_of s2 -> s1 = s2.
Proof.
  unfold bytes_of; intros H%(f_equal string_of_list_byte).
  by rewrite !string_of_list_byte_of_string in H.
Qed.

#[global] Instance bytes_of_Inj : Inj (=) (=) bytes_of.
Proof. intros s1 s2; apply bytes_of_inj. Qed.

Lemma to_N_byte_of_N x : Byte.to_N (byte_of_N x) = (x mod 256)%N.
Proof.
  unfold byte_of_N. destruct (Byte.of_N (x mod 256)) as [b|] eqn:E.
  - by apply Byte.to_of_N in E.
  - apply Byte.of_N_None_iff in E.
    pose proof (N.mod_lt x 256). lia.
Qed.

Lemma length_be k x : length (be k x) = k.
Proof. revert x; induction k as [|k IH]; intros x; simpl; [done|]. rewrite length_app, IH; simpl; lia. Qed.

Lemma be_value_be k x : be_value (be k x) = (x mod 256 ^ N.of_nat k)%N.
Proof.
  revert x; induction k as [|k IH]; intros x.
  - simpl. by rewrite N.mod_1_r.
  - unfold be_value in *. simpl be. rewrite foldl_app, IH. simpl.
    rewrite to_N_byte_of_N, Nat2N.inj_succ, N.pow_succ_r'.
    rewrite (N.mul_comm 256), N.mul_comm.
    pose proof (N.Div0.mod_mul_r x 256 (256 ^ N.of_nat k)) as Hm.
    rewrite (N.mul_comm (256 ^ _) 256). rewrite Hm. lia.
Qed.

Lemma be_inj k x y :
  (x < 256 ^ N.of_nat k)%N -> (y < 256 ^ N.of_nat k)%N -> be k x = be k y -> x = y.
Proof.
  intros Hx Hy H%(f_equal be_value). rewrite !be_value_be in H.
  by rewrite !N.mod_small in H.
Qed.

Lemma be_inj_u64 x y : (x < u64_mod)%N -> (y < u64_mod)%N -> be 8 x = be 8 y -> x = y.
Proof. apply (be_inj 8). Qed.

Lemma be_inj_u32 x y : (x < u32_mod)%N -> (y < u32_mod)%N -> be 4 x = be 4 y -> x = y.
Proof. apply (be_inj 4). Qed.

Lemma app_inj_len {A} (l1 l2 k1 k2 : list A) :
  length l1 = length l2 -> l1 ++ k1 = l2 ++ k2 -> l1 = l2 /\ k1 = k2.
Proof. intros Hl H. by apply app_inj_1 in H. Qed.

(** ** Contiguous numbering of a list by a key *)

Fixpoint numbered {A} (f : A -> N) (k : N) (l : list A) : Prop :=
  match l with
  | [] => True
  | x :: l' => f x = k /\ numbered f (k + 1)%N l'
  end.

Lemma numbered_app {A} (f : A -> N) k l1 l2 :
  numbered f k (l1 ++ l2) <-> numbered f k l1 /\ numbered f (k + N.of_nat (length l1))%N l2.
Proof.
  revert k; induction l1 as [|x l1 IH]; intros k; simpl.
  - rewrite N.add_0_r. tauto.
  - rewrite IH. replace (k + 1 + N.of_nat (length l1))%N with (k + N.of_nat (S (length l1)))%N by lia. tauto.
Qed.

Lemma numbered_lookup {A} (f : A -> N) k l i x :
  numbered f k l -> l !! i = Some x -> f x = (k + N.of_nat i)%N.
Proof.
  revert k i; induction l as [|y l IH]; intros k [|i]; simpl; try done.
  - intros [<- _] [= ->]. lia.
  - intros [_ H] Hi. rewrite (IH _ _ H Hi). lia.
Qed.

Lemma numbered_elem {A} (f : A -> N) k l x :
  numbered f k l -> x ∈ l -> (k <= f x < k + N.of_nat (length l))%N.
Proof.
  intros H [i Hi]%list_elem_of_lookup. rewrite (numbered_lookup _ _ _ _ _ H Hi).
  apply lookup_lt_Some in Hi. lia.
Qed.

Lemma numbered_drop {A} (f : A -> N) k l i :
  numbered f k l -> numbered f (k + N.of_nat i)%N (drop i l).
Proof.
  revert k i; induction l as [|y l IH]; intros k [|i]; simpl; try done.
  - rewrite N.add_0_r. done.
  - intros [_ H]. replace (k + N.of_nat (S i))%N with (k + 1 + N.of_nat i)%N by lia. by apply IH.
Qed.

Lemma numbered_last {A} (f : A -> N) k l x :
  numbered f k l -> last l = Some x -> (f x + 1 = k + N.of_nat (length l))%N.
Proof.
  intros H Hx. rewrite last_lookup in Hx.
  pose proof (lookup_lt_Some _ _ _ Hx).
  rewrite (numbered_lookup _ _ _ _ _ H Hx). lia.
Qed.

Lemma numbered_inj {A} (f : A -> N) k l x y :
  numbered f k l -> x ∈ l -> y ∈ l -> f x = f y -> x = y.
Proof.
  intros H [i Hi]%list_elem_of_lookup [j Hj]%list_elem_of_lookup E.
  rewrite (numbered_lookup _ _ _ _ _ H Hi), (numbered_lookup _ _ _ _ _ H Hj) in E.
  replace j with i in Hj by lia. congruence.
Qed.

(** Filtering all or nothing. *)
Lemma filter_true {A} (P : A -> Prop) `{!forall x, Decision (P x)} (l : list A) :
  (forall x, x ∈ l -> P x) -> filter P l = l.
Proof.
  induction l as [|x l IH]; intros Hl; [done|]. rewrite filter_cons_True by (apply Hl; set_solver).
  f_equal. apply IH. set_solver.
Qed.

Lemma filter_false {A} (P : A -> Prop) `{!forall x, Decision (P x)} (l : list A) :
  (forall x, x ∈ l -> ~ P x) -> filter P l = [].
Proof.
  induction l as [|x l IH]; intros Hl; [done|]. rewrite filter_cons_False by (apply Hl; set_solver).
  apply IH. set_solver.
Qed.

(** A key range of a numbered list is a segment of it. *)
Lemma filter_numbered {A} (f : A -> N) (P : A -> Prop) `{!forall x, Decision (P x)} k (l : list A) i n :
  numbered f k l ->
  (forall x, x ∈ l -> P x <-> k + N.of_nat i <= f x < k + N.of_nat (i + n))%N ->
  filter P l = take n (drop i l).
Proof.
  revert k i n; induction l as [|x l IH]; intros k i n Hn HP.
  - by rewrite drop_nil, take_nil.
  - destruct Hn as [Hx Hn].
    assert (forall y, y ∈ l -> (k < f y)%N) as Hgt.
    { intros y Hy. pose proof (numbered_elem _ _ _ _ Hn Hy). lia. }
    destruct i as [|i].
    + destruct n as [|n]; simpl.
      * apply filter_false. intros y Hy HPy. apply HP in HPy; [lia|done].
      * rewrite filter_cons_True by (apply HP; [by constructor|lia]). f_equal.
        rewrite <- (drop_0 l) at 2. apply (IH (k + 1)%N 0 n Hn).
        intros y Hy. rewrite HP by (by constructor). specialize (Hgt y Hy). lia.
    + rewrite filter_cons_False by (intros HPx; apply HP in HPx; [lia|by constructor]).
      simpl. apply (IH (k + 1)%N i n Hn). intros y Hy. rewrite HP by (by constructor). lia.
Qed.

(** ** encoding/hex, and a reader that inverts it (skipping dashes) *)

Definition hex_digit (n : N) : ascii :=
  Ascii.ascii_of_N (if (n <? 10)%N then 48 + n else 87 + n)%N.

Definition hex_value (c : ascii) : N :=
  let n := Ascii.N_of_ascii c in (if n <? 58 then n - 48 else n - 87)%N.

Definition hex_byte (b : byte) (r : string) : string :=
  let n := Byte.to_N b in String (hex_digit (n / 16)) (String (hex_digit (n mod 16)) r).

Fixpoint hex_bytes (l : list byte) (r : string) : string :=
  match l with
  | [] => r
  | b :: l' => hex_byte b (hex_bytes l' r)
  end.

(** The reader. *)
Fixpoint from_hex (s : string) : list byte :=
  match s with
  | String "-" s' => from_hex s'
  | String a (String b s') => byte_of_N (16 * hex_value a + hex_value b) :: from_hex s'
  | _ => []
  end.

Lemma from_hex_byte b r : from_hex (hex_byte b r) = b :: from_hex r.
Proof. by destruct b. Qed.

Lemma from_hex_bytes l r : from_hex (hex_bytes l r) = l ++ from_hex r.
Proof. induction l as [|b l IH]; [done|]. cbn [hex_bytes]. by rewrite from_hex_byte, IH. Qed.

(** hex.EncodeToString. *)
Definition EncodeToString (l : list byte) : string := hex_bytes l EmptyString.

Lemma EncodeToString_inj l1 l2 : EncodeToString l1 = EncodeToString l2 -> l1 = l2.
Proof.
  intros H%(f_equal from_hex). unfold EncodeToString in H. by rewrite !from_hex_bytes, !app_nil_r in H.
Qed.
