(* ===== verification/Sha256.v ===== *)
(** * SHA-256, the part of Go's [crypto/sha256] the program uses

    [Sum256] is the executable FIPS 180-4 function over byte lists, so that
    the golden vectors the repository pins (es/hash_test.go) are checked by
    evaluation.  Nothing below assumes the function to be collision free.  That
    some two messages share a digest is a fact (there are more messages than
    digests), so a theorem that rests on collision resistance names the
    messages: it concludes, or two of the byte strings the program hashed in
    that very run collide ([collide], [colliding], both decided by
    evaluation). *)
From S2P Require Import Prelude.

Local Open Scope N_scope.

Definition add32 (x y : N) : N := (x + y) mod u32_mod.
Definition rotr (n x : N) : N :=
  N.lor (N.shiftr x n) ((N.shiftl x (32 - n)) mod u32_mod).
Definition not32 (x : N) : N := N.lxor x (u32_mod - 1).

Definition ch (x y z : N) : N := N.lxor (N.land x y) (N.land (not32 x) z).
Definition maj (x y z : N) : N :=
  N.lxor (N.lxor (N.land x y) (N.land x z)) (N.land y z).
Definition bsig0 (x : N) : N := N.lxor (N.lxor (rotr 2 x) (rotr 13 x)) (rotr 22 x).
Definition bsig1 (x : N) : N := N.lxor (N.lxor (rotr 6 x) (rotr 11 x)) (rotr 25 x).
Definition ssig0 (x : N) : N := N.lxor (N.lxor (rotr 7 x) (rotr 18 x)) (N.shiftr x 3).
Definition ssig1 (x : N) : N := N.lxor (N.lxor (rotr 17 x) (rotr 19 x)) (N.shiftr x 10).

(** The round constants, eight 32-bit words per row. *)
Definition row_words (x : N) : list N :=
  map (fun i => N.land (N.shiftr x (32 * i)) 0xffffffff) [7; 6; 5; 4; 3; 2; 1; 0].

Definition K256 : list N := Eval vm_compute in concat (map row_words
  [0x428a2f9871374491b5c0fbcfe9b5dba53956c25b59f111f1923f82a4ab1c5ed5;
   0xd807aa9812835b01243185be550c7dc372be5d7480deb1fe9bdc06a7c19bf174;
   0xe49b69c1efbe47860fc19dc6240ca1cc2de92c6f4a7484aa5cb0a9dc76f988da;
   0x983e5152a831c66db00327c8bf597fc7c6e00bf3d5a7914706ca635114292967;
   0x27b70a852e1b21384d2c6dfc53380d13650a7354766a0abb81c2c92e92722c85;
   0xa2bfe8a1a81a664bc24b8b70c76c51a3d192e819d6990624f40e3585106aa070;
   0x19a4c1161e376c082748774c34b0bcb5391c0cb34ed8aa4a5b9cca4f682e6ff3;
   0x748f82ee78a5636f84c878148cc7020890befffaa4506cebbef9a3f7c67178f2]).

Record digest := Digest { dA : N; dB : N; dC : N; dD : N; dE : N; dF : N; dG : N; dH : N }.

Definition digest0 : digest :=
  Digest 0x6a09e667 0xbb67ae85 0x3c6ef372 0xa54ff53a 0x510e527f 0x9b05688c 0x1f83d9ab 0x5be0cd19.

(** Message padding: 0x80, zeros up to 56 modulo 64, the bit length as a
    big-endian 64-bit integer. *)
Definition pad (m : list byte) : list byte :=
  let n := N.of_nat (length m) in
  let z := (119 - n mod 64) mod 64 in
  m ++ Byte.x80 :: replicate (N.to_nat z) Byte.x00 ++ be 8 (8 * n).

Fixpoint chunks {A} (fuel k : nat) (l : list A) : list (list A) :=
  match fuel, l with
  | O, _ | _, [] => []
  | S fuel', _ => take k l :: chunks fuel' k (drop k l)
  end.

(** The message schedule, newest word first. *)
Fixpoint schedule (t : nat) (w : list N) : list N :=
  match t with
  | O => w
  | S t' =>
      let at_ i := nth i w 0 in
      schedule t'
        (add32 (add32 (ssig1 (at_ 1%nat)) (at_ 6%nat)) (add32 (ssig0 (at_ 14%nat)) (at_ 15%nat)) :: w)
  end.

Definition round (d : digest) (kw : N * N) : digest :=
  let t1 := add32 (add32 (add32 (dH d) (bsig1 (dE d))) (ch (dE d) (dF d) (dG d))) (add32 kw.1 kw.2) in
  let t2 := add32 (bsig0 (dA d)) (maj (dA d) (dB d) (dC d)) in
  Digest (add32 t1 t2) (dA d) (dB d) (dC d) (add32 (dD d) t1) (dE d) (dF d) (dG d).

Definition add_digest (x y : digest) : digest :=
  Digest (add32 (dA x) (dA y)) (add32 (dB x) (dB y)) (add32 (dC x) (dC y)) (add32 (dD x) (dD y))
         (add32 (dE x) (dE y)) (add32 (dF x) (dF y)) (add32 (dG x) (dG y)) (add32 (dH x) (dH y)).

Definition block (d : digest) (b : list byte) : digest :=
  let w16 := map be_value (chunks 16 4 b) in
  let w := rev (schedule 48 (rev w16)) in
  add_digest d (foldl round d (combine K256 w)).

Definition digest_bytes (d : digest) : list byte :=
  be 4 (dA d) ++ be 4 (dB d) ++ be 4 (dC d) ++ be 4 (dD d) ++
  be 4 (dE d) ++ be 4 (dF d) ++ be 4 (dG d) ++ be 4 (dH d).

Definition Sum256 (m : list byte) : list byte :=
  let p := pad m in
  digest_bytes (foldl block digest0 (chunks (length p) 64 p)).

(** The digest is 32 bytes, Go's [[32]byte]. *)
Lemma length_Sum256 m : length (Sum256 m) = 32%nat.
Proof. unfold Sum256, digest_bytes. by rewrite !length_app, !length_be. Qed.

(** These two messages are distinct and have one digest. *)
Definition collide (m1 m2 : list byte) : bool :=
  negb (bool_decide (m1 = m2)) && bool_decide (Sum256 m1 = Sum256 m2).

(** A message of the first list collides with one of the second. *)
Definition colliding (ms1 ms2 : list (list byte)) : bool :=
  existsb (fun m1 => existsb (collide m1) ms2) ms1.

Lemma collide_spec m1 m2 : collide m1 m2 = true <-> m1 <> m2 /\ Sum256 m1 = Sum256 m2.
Proof.
  unfold collide. rewrite andb_true_iff, negb_true_iff, bool_decide_eq_true, bool_decide_eq_false.
  done.
Qed.

Lemma collide_sym m1 m2 : collide m1 m2 = collide m2 m1.
Proof. apply eq_true_iff_eq. rewrite !collide_spec. split; intros [? ?]; auto. Qed.

Lemma collide_refl m : collide m m = false.
Proof. apply not_true_iff_false. rewrite collide_spec. tauto. Qed.

Lemma colliding_spec ms1 ms2 :
  colliding ms1 ms2 = true <-> exists m1 m2, m1 ∈ ms1 /\ m2 ∈ ms2 /\ collide m1 m2 = true.
Proof.
  unfold colliding. rewrite existsb_exists. split.
  - intros (m1 & H1 & (m2 & H2 & Hc)%existsb_exists).
    exists m1, m2. by rewrite !list_elem_of_In.
  - intros (m1 & m2 & H1%list_elem_of_In & H2%list_elem_of_In & Hc).
    exists m1. split; [done|]. apply existsb_exists. by exists m2.
Qed.

Lemma colliding_mono ms1 ms2 ms1' ms2' :
  ms1 ⊆ ms1' -> ms2 ⊆ ms2' -> colliding ms1 ms2 = true -> colliding ms1' ms2' = true.
Proof. rewrite !colliding_spec. intros H1 H2 (m1 & m2 & Hm1 & Hm2 & Hc). exists m1, m2. auto. Qed.

Lemma Sum256_inj_or_collision m1 m2 :
  Sum256 m1 = Sum256 m2 -> m1 = m2 \/ collide m1 m2 = true.
Proof.
  intros H. destruct (decide (m1 = m2)) as [->|Hne]; [by left|].
  right. by apply collide_spec.
Qed.

(** FIPS 180-4 test vectors: the empty message and a two-block message. *)
Example Sum256_empty :
  be_value (Sum256 []) = 0xe3b0c44298fc1c149afbf4c8996fb92427ae41e4649b934ca495991b7852b855.
Proof. vm_compute. reflexivity. Qed.

Example Sum256_two_blocks :
  be_value (Sum256 (bytes_of "abcdbcdecdefdefgefghfghighijhijkijkljklmklmnlmnomnopnopq"%string))
  = 0x248d6a61d20638b8e5c026930c3e6039a33ce45964ff2167f6ecedd419db06c1.
Proof. vm_compute. reflexivity. Qed.

#[global] Opaque Sum256.
