(* ===== verification/Es.v ===== *)
(** * The es package's data: identities, errors, envelopes, append parameters

    Models src/es/streamid.go, actor.go, constraint.go, errors.go, envelope.go,
    store.go (the parameter and result structs), meta.go, codec.go and the
    error values of src/feed/errors.go, which travel through the same [error]
    interface.

    Conventions: Go strings are byte strings ([string]); [uint64]/[uint32]
    values are [N], with [u64]/[u32] written where the source's arithmetic can
    wrap; [time.Time] is the number of nanoseconds since the Unix epoch; a
    [[]byte] that the source compares with nil is an [option (list byte)]. *)
From S2P Require Import Prelude.

(** ** Time (Go's time package, what the program uses of it) *)

Definition time : Type := Z.

(** The zero [time.Time], 0001-01-01T00:00:00Z. *)
Definition zero_time : time := (-62135596800000000000)%Z.

Definition IsZero (t : time) : bool := (t =? zero_time)%Z.

Definition Microsecond : Z := 1000.
Definition Millisecond : Z := 1000000.
Definition Second : Z := 1000000000.
Definition Minute : Z := 60000000000.

(** [t.Truncate(d)]: down to a multiple of [d] since the zero time. *)
Definition Truncate (t : time) (d : Z) : time :=
  (t - (t - zero_time) mod d)%Z.

(** [t.UnixMicro()]. *)
Definition UnixMicro (t : time) : Z := i64 (t / 1000)%Z.

Definition min_duration : Z := (-9223372036854775808)%Z.
Definition max_duration : Z := 9223372036854775807%Z.

(** time.Time.Sub saturates at the ends of time.Duration. *)
Definition Sub (t u : time) : Z :=
  let d := (t - u)%Z in
  if (min_duration <=? d)%Z && (d <=? max_duration)%Z then d
  else if (t <? u)%Z then min_duration else max_duration.

(** ** Identifiers *)

(** google/uuid's [[16]byte] array type. *)
Definition UUID : Type := vec byte 16.
Definition uuid_Nil : UUID := vreplicate 16 Byte.x00.

Record StreamID := MkStreamID { sid_Type : string; sid_ID : string }.

#[global] Instance StreamID_eq_dec : EqDecision StreamID.
Proof. solve_decision. Defined.

Record Actor := MkActor { act_Type : string; act_ID : string }.

#[global] Instance Actor_eq_dec : EqDecision Actor.
Proof. solve_decision. Defined.

(** ** Errors *)

(** The sentinel errors: es/errors.go, feed/errors.go, the contexts' own, and
    the few package-level values other packages compare against. *)
Inductive sentinel :=
| ErrConflict | ErrStreamNotFound | ErrConstraintViolated | ErrInvalidStreamID
| ErrVersionOutOfRange | ErrInvalidConstraint | ErrTerminal | ErrDecidedAtMismatch
| ErrDecidedAtSkew | ErrDecidedAtMissing | ErrChainBroken | ErrAnchorMismatch
| ErrUnknownEventType | ErrPayloadTooLarge
| ErrInvalidRequest | ErrLeaseHeld | ErrLeaseLost | ErrDefinitionChanged
| errLeaseExpired | errNilFeed | ErrRelayRoleMissing
| Canceled | DeadlineExceeded.

#[global] Instance sentinel_eq_dec : EqDecision sentinel.
Proof. solve_decision. Defined.

(** feed.Lease, here because LeaseHeldError carries one. *)
Record Lease := MkLease { ls_Owner : string; ls_Consumer : string; ls_ExpiresAt : time }.

#[global] Instance Lease_eq_dec : EqDecision Lease.
Proof. solve_decision. Defined.

(** Error values.  [ErrorsNew] stands for values no caller compares against
    (errors.New in place, opaque driver errors); [SqliteError] and [PgError]
    are the two drivers' coded errors; [ConnectError] is a *connect.Error with
    its details (protobuf Any values) around its cause; [Errorf c e] is
    [fmt.Errorf("c...: %w", e)]; [Join] is errors.Join of two errors. *)
Inductive error :=
| Sentinel (s : sentinel)
| ErrorsNew (msg : string)
| DecidedAtSkewError (DecidedAt ServerTime : time) (MaxSkew : Z)
| ConflictError (sid : StreamID) (Expected Current : N)
| LeaseHeldError (Key : string) (lease : Lease) (Held : bool)
| LeaseLostError (Key Owner : string) (cause : error)
| EventTooLargeError (Position : N) (TypeURL : string) (Size Limit : Z)
| DefinitionChangedError (Projection StoredHash RequestHash : string)
| SqliteError (code : Z)
| PgError (sqlstate : string)
| ConnectError (code : N) (details : list (string * list byte)) (e : error)
| Errorf (ctx : string) (e : error)
| Join (e1 e2 : error).

#[global] Instance error_eq_dec : EqDecision error.
Proof. solve_decision. Defined.

(** errors.Is against a sentinel: the Unwrap/Is chain of each value. *)
Fixpoint Is (e : error) (s : sentinel) : bool :=
  match e with
  | Sentinel s' => bool_decide (s' = s)
  | ErrorsNew _ => false
  | DecidedAtSkewError _ _ _ => bool_decide (s = ErrDecidedAtSkew)
  | ConflictError _ _ _ => bool_decide (s = ErrConflict)
  | LeaseHeldError _ _ _ => bool_decide (s = ErrLeaseHeld)
  | LeaseLostError _ _ c => bool_decide (s = ErrLeaseLost) || Is c s
  | EventTooLargeError _ _ _ _ => false
  | DefinitionChangedError _ _ _ => bool_decide (s = ErrDefinitionChanged)
  | SqliteError _ | PgError _ => false
  | ConnectError _ _ e' => Is e' s
  | Errorf _ e' => Is e' s
  | Join e1 e2 => Is e1 s || Is e2 s
  end.

(** errors.As with a *es.ConflictError target. *)
Fixpoint AsConflict (e : error) : option (StreamID * N * N) :=
  match e with
  | ConflictError sid x c => Some (sid, x, c)
  | ConnectError _ _ e' => AsConflict e'
  | Errorf _ e' => AsConflict e'
  | LeaseLostError _ _ e' => AsConflict e'
  | Join e1 e2 => match AsConflict e1 with Some r => Some r | None => AsConflict e2 end
  | _ => None
  end.

(** errors.As with a *feed.EventTooLargeError target. *)
Fixpoint AsTooLarge (e : error) : option error :=
  match e with
  | EventTooLargeError _ _ _ _ => Some e
  | ConnectError _ _ e' => AsTooLarge e'
  | Errorf _ e' => AsTooLarge e'
  | LeaseLostError _ _ e' => AsTooLarge e'
  | Join e1 e2 => match AsTooLarge e1 with Some r => Some r | None => AsTooLarge e2 end
  | _ => None
  end.

(** errors.AsType with the SQLite driver's error type: its result code. *)
Fixpoint AsSqlite (e : error) : option Z :=
  match e with
  | SqliteError c => Some c
  | ConnectError _ _ e' => AsSqlite e'
  | Errorf _ e' => AsSqlite e'
  | LeaseLostError _ _ e' => AsSqlite e'
  | Join e1 e2 => match AsSqlite e1 with Some r => Some r | None => AsSqlite e2 end
  | _ => None
  end.

(** Go's [(T, error)] return in this program. *)
Abbreviation res := (result error).

(** ** Stream identities (streamid.go) *)

Definition canonicalSep : Ascii.ascii := ":"%char.

Definition in_range (lo hi c : Ascii.ascii) : bool :=
  (Ascii.N_of_ascii lo <=? Ascii.N_of_ascii c)%N && (Ascii.N_of_ascii c <=? Ascii.N_of_ascii hi)%N.

Definition slug_first (c : Ascii.ascii) : bool :=
  in_range "a" "z" c || in_range "0" "9" c.

Definition slug_char (c : Ascii.ascii) : bool :=
  slug_first c || bool_decide (c = "_"%char) || bool_decide (c = "-"%char).

Fixpoint str_all (p : Ascii.ascii -> bool) (s : string) : bool :=
  match s with
  | EmptyString => true
  | String c s' => p c && str_all p s'
  end.

(** [slugRe.MatchString]: ^[a-z0-9][a-z0-9_-]{0,127}$ *)
Definition slugRe (s : string) : bool :=
  match s with
  | EmptyString => false
  | String c s' => slug_first c && str_all slug_char s' && (String.length s' <=? 127)%nat
  end.

Definition Validate (s : StreamID) : res unit :=
  if negb (slugRe (sid_Type s)) || negb (slugRe (sid_ID s))
  then Err (Sentinel ErrInvalidStreamID)
  else Ok tt.

Definition NewStreamID (typ id : string) : res StreamID :=
  let sid := MkStreamID typ id in
  let? _ := Validate sid in
  Ok sid.

Definition Canonical (s : StreamID) : string :=
  (sid_Type s ++ String canonicalSep EmptyString ++ sid_ID s)%string.

(** strings.IndexByte; None is Go's -1. *)
Fixpoint IndexByte (s : string) (c : Ascii.ascii) : option nat :=
  match s with
  | EmptyString => None
  | String c' s' => if bool_decide (c' = c) then Some O else S <$> IndexByte s' c
  end.

(** Slicing: [s[:i]] and [s[i:]]. *)
Fixpoint str_take (i : nat) (s : string) : string :=
  match i, s with
  | S i', String c s' => String c (str_take i' s')
  | _, _ => EmptyString
  end.

Fixpoint str_drop (i : nat) (s : string) : string :=
  match i, s with
  | O, _ => s
  | S i', String _ s' => str_drop i' s'
  | S _, EmptyString => EmptyString
  end.

Definition ParseCanonical (canonical : string) : res StreamID :=
  match IndexByte canonical canonicalSep with
  | None => Err (Sentinel ErrInvalidStreamID)
  | Some i =>
      if (i <=? 0)%nat || (i =? String.length canonical - 1)%nat
      then Err (Sentinel ErrInvalidStreamID)
      else NewStreamID (str_take i canonical) (str_drop (i + 1) canonical)
  end.

(** ** Actors (actor.go) *)

Definition Principal (a : Actor) : string :=
  if bool_decide (act_Type a = EmptyString) && bool_decide (act_ID a = EmptyString)
  then EmptyString
  else (act_Type a ++ String ":"%char EmptyString ++ act_ID a)%string.

Definition Actor_IsZero (a : Actor) : bool :=
  bool_decide (act_Type a = EmptyString) && bool_decide (act_ID a = EmptyString).

(** ** Uniqueness constraints (constraint.go) *)

(** ConstraintOpKind is a uint8: values other than the two constants exist
    and are rejected by Validate. *)
Definition ClaimOp : N := 0.
Definition ReleaseOp : N := 1.

Record ConstraintOp := MkConstraintOp { op_Op : N; op_Scope : string; op_Value : string }.

#[global] Instance ConstraintOp_eq_dec : EqDecision ConstraintOp.
Proof. solve_decision. Defined.

Definition Claim (scope value : string) : ConstraintOp := MkConstraintOp ClaimOp scope value.
Definition Release (scope value : string) : ConstraintOp := MkConstraintOp ReleaseOp scope value.

Definition ConstraintOp_Validate (o : ConstraintOp) : res unit :=
  if negb (op_Op o =? ClaimOp)%N && negb (op_Op o =? ReleaseOp)%N
  then Err (Errorf "unknown op" (Sentinel ErrInvalidConstraint))
  else if bool_decide (op_Scope o = EmptyString)
  then Err (Errorf "empty scope" (Sentinel ErrInvalidConstraint))
  else Ok tt.

(** ** Envelopes, append parameters and results (envelope.go, store.go) *)

Record Envelope := MkEnvelope {
  EventID : UUID;
  env_StreamID : StreamID;
  Version : N;
  GlobalPosition : N;
  Workspace : string;
  TypeURL : string;
  SchemaVersion : N;
  OccurredAt : time;
  RecordedAt : time;
  CorrelationID : UUID;
  CausationID : UUID;
  CommandID : UUID;
  env_Actor : Actor;
  Payload : list byte;
  PrevHash : option (list byte);
  Hash : option (list byte)
}.

#[global] Instance Envelope_eq_dec : EqDecision Envelope.
Proof. solve_decision. Defined.

Record EventData := MkEventData {
  ed_EventID : UUID;
  ed_TypeURL : string;
  ed_SchemaVersion : N;
  ed_Payload : list byte
}.

Record AppendParams := MkAppendParams {
  ap_StreamID : StreamID;
  ap_ExpectedVersion : N;
  ap_Events : list EventData;
  ap_Constraints : list ConstraintOp;
  ap_CommandID : UUID;
  ap_CorrelationID : UUID;
  ap_CausationID : UUID;
  ap_Actor : Actor;
  ap_OccurredAt : time
}.

Record AppendResult := MkAppendResult {
  ar_FromVersion : N;
  ar_ToVersion : N;
  ar_Envelopes : list Envelope
}.

(** Command metadata (meta.go) and the codec's wire form (codec.go). *)
Record Meta := MkMeta {
  m_CommandID : UUID;
  m_CorrelationID : UUID;
  m_CausationID : UUID;
  m_Actor : Actor;
  m_OccurredAt : time
}.

Record EncodedEvent := MkEncodedEvent {
  ee_TypeURL : string;
  ee_SchemaVersion : N;
  ee_Payload : list byte
}.

(** ** Theorems: stream identities *)

(** stdpp blocks the reduction of [String.append]; these are its equations. *)
Lemma str_app_nil (b : string) : (EmptyString ++ b)%string = b.
Proof. reflexivity. Qed.

Lemma str_app_cons x (a b : string) : (String x a ++ b)%string = String x (a ++ b)%string.
Proof. reflexivity. Qed.

Ltac str_simp := simpl; rewrite ?str_app_cons, ?str_app_nil; simpl.

Lemma str_take_app a b : str_take (String.length a) (a ++ b)%string = a.
Proof. induction a as [|c a IH]; str_simp; [by destruct b|]. by rewrite IH. Qed.

Lemma str_drop_app a b n : str_drop (String.length a + n) (a ++ b)%string = str_drop n b.
Proof. induction a as [|c a IH]; str_simp; [done|]. apply IH. Qed.

Lemma str_length_app a b : String.length (a ++ b)%string = String.length a + String.length b.
Proof. induction a as [|c a IH]; str_simp; [done|]. by rewrite IH. Qed.

Lemma IndexByte_None_app a b c :
  str_all (fun x => negb (bool_decide (x = c))) a = true ->
  IndexByte (a ++ b)%string c = (fun i => String.length a + i) <$> IndexByte b c.
Proof.
  induction a as [|x a IH]; str_simp.
  - intros _. by destruct (IndexByte b c).
  - rewrite andb_true_iff. intros [Hx Ha]. rewrite (IH Ha).
    destruct (bool_decide (x = c)); [done|]. by destruct (IndexByte b c).
Qed.

(** The split position of a string at a byte: what IndexByte returns. *)
Lemma IndexByte_Some s c i :
  IndexByte s c = Some i ->
  s = (str_take i s ++ String c (str_drop (S i) s))%string
  /\ String.length (str_take i s) = i.
Proof.
  revert i; induction s as [|x s IH]; intros i; simpl; [done|].
  case_bool_decide as Hx; [intros [= <-]; subst; str_simp; done|].
  destruct (IndexByte s c) as [j|]; simpl; intros [= <-].
  destruct (IH j eq_refl) as [Hs Hl]. split.
  - change (String x s = String x (str_take j s ++ String c (str_drop (S j) s))%string). by f_equal.
  - simpl. by rewrite Hl.
Qed.

Lemma slug_char_not_sep x : slug_char x = true -> x <> canonicalSep.
Proof. intros H ->. vm_compute in H. discriminate. Qed.

Lemma str_all_impl (p q : ascii -> bool) s :
  (forall x, p x = true -> q x = true) -> str_all p s = true -> str_all q s = true.
Proof.
  intros Hpq. induction s as [|x s IH]; simpl; [done|].
  rewrite !andb_true_iff. intuition auto.
Qed.

Lemma slug_no_sep s : slugRe s = true ->
  str_all (fun x => negb (bool_decide (x = canonicalSep))) s = true.
Proof.
  destruct s as [|x s]; simpl; [done|].
  rewrite !andb_true_iff. intros [[Hx Hs] _]. split.
  - rewrite negb_true_iff, bool_decide_eq_false. apply slug_char_not_sep.
    unfold slug_char. by rewrite Hx.
  - eapply str_all_impl, Hs. intros y Hy.
    rewrite negb_true_iff, bool_decide_eq_false. by apply slug_char_not_sep.
Qed.

Lemma slug_nonempty s : slugRe s = true -> 0 < String.length s.
Proof. destruct s; simpl; [done|lia]. Qed.

Lemma Validate_Ok s : Validate s = Ok tt <-> slugRe (sid_Type s) = true /\ slugRe (sid_ID s) = true.
Proof. unfold Validate. destruct (slugRe (sid_Type s)), (slugRe (sid_ID s)); simpl; intuition congruence. Qed.

Lemma Validate_cases s : Validate s = Ok tt \/ Validate s = Err (Sentinel ErrInvalidStreamID).
Proof. unfold Validate. case_goal; auto. Qed.

Lemma Parse_Canonical sid : Validate sid = Ok tt -> ParseCanonical (Canonical sid) = Ok sid.
Proof.
  intros Hv. pose proof Hv as [Ht Hi]%Validate_Ok. destruct sid as [t i]; simpl in *.
  unfold ParseCanonical, Canonical; str_simp.
  rewrite (IndexByte_None_app _ _ _ (slug_no_sep _ Ht)); simpl.
  pose proof (slug_nonempty _ Ht). pose proof (slug_nonempty _ Hi).
  rewrite str_length_app; simpl.
  replace (String.length t + 0 <=? 0) with false by (symmetry; apply Nat.leb_gt; lia).
  replace (String.length t + 0 =? _) with false by (symmetry; apply Nat.eqb_neq; lia).
  simpl. rewrite Nat.add_0_r, str_take_app, str_drop_app; simpl.
  unfold NewStreamID. by rewrite Hv.
Qed.

Lemma Parse_sound s sid :
  ParseCanonical s = Ok sid -> Validate sid = Ok tt /\ Canonical sid = s.
Proof.
  unfold ParseCanonical. destruct (IndexByte s canonicalSep) as [i|] eqn:Hi; [|done].
  case_goal; [done|]. unfold NewStreamID. intros H.
  destruct (Validate_cases (MkStreamID (str_take i s) (str_drop (i + 1) s))) as [Hv|Hv];
    rewrite Hv in H; simplify_eq/=. split; [done|].
  apply IndexByte_Some in Hi as [Hs _]. unfold Canonical; str_simp.
  rewrite Nat.add_1_r. by rewrite <- Hs.
Qed.

(** Distinct valid identities have distinct storage forms. *)
Lemma Canonical_inj s1 s2 :
  Validate s1 = Ok tt -> Validate s2 = Ok tt -> Canonical s1 = Canonical s2 -> s1 = s2.
Proof.
  intros H1%Parse_Canonical H2%Parse_Canonical E. rewrite E in H1. congruence.
Qed.

(** The storage form of stream ids is a faithful encoding.  ParseCanonical
    accepts exactly the canonical renderings of valid ids, and returns the id
    that was rendered: parsing inverts Canonical, and never accepts a string
    that no valid id renders to. *)
Theorem parse_canonical_iff s sid :
  ParseCanonical s = Ok sid <-> Validate sid = Ok tt /\ Canonical sid = s.
Proof.
  split; [apply Parse_sound|]. intros [Hv <-]. by apply Parse_Canonical.
Qed.
