(* ===== verification/Hash.v ===== *)
(** * The tamper-evident hash chain's canonical encoding (src/es/hash.go)

    [CanonicalEnvelope] is the byte layout ADR 0029 pins; [EnvelopeHash] and
    [UnchainedHeadHash] hash it.  The theorems show that the layout loses
    nothing it claims to cover: equal encodings have equal fields, and the two
    domains never overlap. *)
From S2P Require Import Prelude Sha256 Es.

(** ** Definitions *)

Definition HashSize : nat := 32.

Definition envelopeDomain : string := "es-lite.envelope.v1".
Definition unchainedHeadDomain : string := "es-lite.unchained-head.v1".

Definition ZeroHash : list byte := replicate HashSize Byte.x00.

Definition TruncateMicros (t : time) : time := Truncate t Microsecond.

Definition unixMicros (t : time) : Z :=
  if IsZero t then 0%Z else UnixMicro t.

Definition appendString (b : list byte) (s : string) : list byte :=
  AppendUint32 b (u32 (N.of_nat (String.length s))) ++ bytes_of s.

Definition appendBytes (b p : list byte) : list byte :=
  AppendUint32 b (u32 (N.of_nat (length p))) ++ p.

Definition appendUUID (b : list byte) (id : UUID) : list byte := b ++ vec_to_list id.

(** [h] is nil ([None]) or a byte slice. *)
Definition appendFixedHash (b : list byte) (h : option (list byte)) : list byte :=
  match h with
  | Some h' => if (length h' =? HashSize)%nat then b ++ h' else b ++ ZeroHash
  | None => b ++ ZeroHash
  end.

Definition CanonicalEnvelope (e : Envelope) : list byte :=
  let b := [] in
  let b := appendString b envelopeDomain in
  let b := appendString b (Workspace e) in
  let b := appendString b (Canonical (env_StreamID e)) in
  let b := AppendUint64 b (Version e) in
  let b := appendUUID b (EventID e) in
  let b := appendString b (TypeURL e) in
  let b := AppendUint32 b (SchemaVersion e) in
  let b := AppendUint64 b (u64_of_Z (unixMicros (OccurredAt e))) in
  let b := AppendUint64 b (u64_of_Z (unixMicros (RecordedAt e))) in
  let b := appendUUID b (CorrelationID e) in
  let b := appendUUID b (CausationID e) in
  let b := appendUUID b (CommandID e) in
  let b := appendString b (act_Type (env_Actor e)) in
  let b := appendString b (act_ID (env_Actor e)) in
  let b := appendBytes b (Payload e) in
  let b := appendFixedHash b (PrevHash e) in
  b.

Definition EnvelopeHash (e : Envelope) : list byte := Sum256 (CanonicalEnvelope e).

Definition UnchainedHeadHash (sid : StreamID) (headVersion : N) : list byte :=
  let b := [] in
  let b := appendString b unchainedHeadDomain in
  let b := appendString b (Canonical sid) in
  let b := AppendUint64 b headVersion in
  Sum256 b.

(** ** What the encoding covers

    Everything but GlobalPosition and the stored Hash; timestamps to the
    microsecond, and a prev_hash that is not 32 bytes long as zeros. *)

Definition attested (e : Envelope) :=
  (Workspace e, env_StreamID e, Version e, EventID e, TypeURL e, SchemaVersion e,
   (unixMicros (OccurredAt e), unixMicros (RecordedAt e)),
   (CorrelationID e, CausationID e, CommandID e), env_Actor e, Payload e,
   appendFixedHash [] (PrevHash e)).

(** The ranges the Go types impose, plus the one real limit of the format: a
    variable-length field fits its 32-bit length prefix. *)
Definition fits32 (n : nat) : Prop := (N.of_nat n < u32_mod)%N.

Definition i64_range (z : Z) : Prop := (- 9223372036854775808 <= z <= i64_max)%Z.

Record envelope_wf (e : Envelope) : Prop := {
  wf_ws : fits32 (String.length (Workspace e));
  wf_sid : Validate (env_StreamID e) = Ok tt;
  wf_version : (Version e < u64_mod)%N;
  wf_url : fits32 (String.length (TypeURL e));
  wf_schema : (SchemaVersion e < u32_mod)%N;
  wf_atype : fits32 (String.length (act_Type (env_Actor e)));
  wf_aid : fits32 (String.length (act_ID (env_Actor e)));
  wf_payload : fits32 (length (Payload e))
}.

(** ** Lemmas: every field is self-delimiting *)

Lemma length_bytes_of s : length (bytes_of s) = String.length s.
Proof. unfold bytes_of. induction s as [|c s IH]; simpl; [done|]. by rewrite <- IH. Qed.

Lemma i64_in_range z : i64_range (i64 z).
Proof.
  unfold i64_range, i64, i64_mod, i64_max.
  pose proof (Z.mod_pos_bound (z + 9223372036854775808) 18446744073709551616). lia.
Qed.

Lemma unixMicros_range t : i64_range (unixMicros t).
Proof. unfold unixMicros. case_goal; [unfold i64_range, i64_max; lia|apply i64_in_range]. Qed.

Lemma u64_of_Z_lt z : (u64_of_Z z < u64_mod)%N.
Proof.
  unfold u64_of_Z, u64_mod, i64_mod.
  pose proof (Z.mod_pos_bound z 18446744073709551616). lia.
Qed.

Lemma u64_of_Z_inj x y : i64_range x -> i64_range y -> u64_of_Z x = u64_of_Z y -> x = y.
Proof.
  unfold i64_range, u64_of_Z, i64_max, i64_mod. intros Hx Hy H.
  assert (x mod 18446744073709551616 = y mod 18446744073709551616)%Z as E.
  { pose proof (Z.mod_pos_bound x 18446744073709551616).
    pose proof (Z.mod_pos_bound y 18446744073709551616). lia. }
  pose proof (Z.div_mod x 18446744073709551616). pose proof (Z.div_mod y 18446744073709551616). nia.
Qed.

(** One length-prefixed field in front of a continuation. *)
Definition field (p k : list byte) : list byte := be 4 (u32 (N.of_nat (length p))) ++ p ++ k.

Lemma appendString_field b s k : appendString b s ++ k = b ++ field (bytes_of s) k.
Proof. unfold appendString, AppendUint32, field. by rewrite length_bytes_of, <- !app_assoc. Qed.

Lemma appendBytes_field b p k : appendBytes b p ++ k = b ++ field p k.
Proof. unfold appendBytes, AppendUint32, field. by rewrite <- !app_assoc. Qed.

Lemma appendFixedHash_app b h : appendFixedHash b h = b ++ appendFixedHash [] h.
Proof. unfold appendFixedHash. repeat case_goal; by rewrite ?app_nil_l. Qed.

Lemma field_inj p1 p2 k1 k2 :
  fits32 (length p1) -> fits32 (length p2) ->
  field p1 k1 = field p2 k2 -> p1 = p2 /\ k1 = k2.
Proof.
  unfold field, fits32, u32. intros H1 H2 E.
  apply app_inj_len in E as [Hl E]; [|by rewrite !length_be].
  rewrite !N.mod_small in Hl by done.
  apply be_inj_u32 in Hl; [|done..]. apply Nat2N.inj in Hl.
  by apply app_inj_len in E.
Qed.

Lemma field_string_inj s1 s2 k1 k2 :
  fits32 (String.length s1) -> fits32 (String.length s2) ->
  field (bytes_of s1) k1 = field (bytes_of s2) k2 -> s1 = s2 /\ k1 = k2.
Proof.
  intros H1 H2 E. apply field_inj in E as [E ->]; [|by rewrite length_bytes_of..].
  by apply bytes_of_inj in E.
Qed.

Lemma be8_inj x1 x2 k1 k2 :
  (x1 < u64_mod)%N -> (x2 < u64_mod)%N -> be 8 x1 ++ k1 = be 8 x2 ++ k2 -> x1 = x2 /\ k1 = k2.
Proof.
  intros H1 H2 E. apply app_inj_len in E as [E ->]; [|by rewrite !length_be].
  split; [by apply be_inj_u64|done].
Qed.

Lemma be4_inj x1 x2 k1 k2 :
  (x1 < u32_mod)%N -> (x2 < u32_mod)%N -> be 4 x1 ++ k1 = be 4 x2 ++ k2 -> x1 = x2 /\ k1 = k2.
Proof.
  intros H1 H2 E. apply app_inj_len in E as [E ->]; [|by rewrite !length_be].
  split; [by apply be_inj_u32|done].
Qed.

Lemma micros_inj t1 t2 k1 k2 :
  be 8 (u64_of_Z (unixMicros t1)) ++ k1 = be 8 (u64_of_Z (unixMicros t2)) ++ k2 ->
  unixMicros t1 = unixMicros t2 /\ k1 = k2.
Proof.
  intros E. apply be8_inj in E as [E ->]; [|apply u64_of_Z_lt..].
  split; [|done]. apply u64_of_Z_inj; auto using unixMicros_range.
Qed.

Lemma uuid_inj (u1 u2 : UUID) k1 k2 :
  vec_to_list u1 ++ k1 = vec_to_list u2 ++ k2 -> u1 = u2 /\ k1 = k2.
Proof.
  intros E. apply app_inj_len in E as [E ->]; [|by rewrite !length_vec_to_list].
  split; [by apply vec_to_list_inj2|done].
Qed.

Lemma Canonical_length sid : Validate sid = Ok tt -> (String.length (Canonical sid) <= 257)%nat.
Proof.
  intros [Ht Hi]%Validate_Ok. destruct sid as [t i]; simpl in *. unfold Canonical.
  rewrite !str_length_app; simpl.
  assert (forall s, slugRe s = true -> (String.length s <= 128)%nat) as Hl.
  { intros [|c s]; simpl; [lia|]. rewrite !andb_true_iff, Nat.leb_le. lia. }
  pose proof (Hl _ Ht). pose proof (Hl _ Hi). lia.
Qed.

Lemma Canonical_fits sid : Validate sid = Ok tt -> fits32 (String.length (Canonical sid)).
Proof. intros H%Canonical_length. unfold fits32, u32_mod. lia. Qed.

(** The encoding as one nest of self-delimiting fields. *)
Lemma CanonicalEnvelope_fields e :
  CanonicalEnvelope e =
  field (bytes_of envelopeDomain) (field (bytes_of (Workspace e))
   (field (bytes_of (Canonical (env_StreamID e))) (be 8 (Version e) ++ vec_to_list (EventID e) ++
   field (bytes_of (TypeURL e)) (be 4 (SchemaVersion e) ++
   be 8 (u64_of_Z (unixMicros (OccurredAt e))) ++ be 8 (u64_of_Z (unixMicros (RecordedAt e))) ++
   vec_to_list (CorrelationID e) ++ vec_to_list (CausationID e) ++ vec_to_list (CommandID e) ++
   field (bytes_of (act_Type (env_Actor e))) (field (bytes_of (act_ID (env_Actor e)))
   (field (Payload e) (appendFixedHash [] (PrevHash e)))))))).
Proof.
  unfold CanonicalEnvelope. cbv zeta.
  rewrite appendFixedHash_app, appendBytes_field, !appendString_field.
  unfold appendUUID, AppendUint64, AppendUint32.
  rewrite <- !app_assoc, appendString_field, <- !app_assoc, !appendString_field. done.
Qed.

Lemma CanonicalEnvelope_inj e1 e2 :
  envelope_wf e1 -> envelope_wf e2 ->
  CanonicalEnvelope e1 = CanonicalEnvelope e2 -> attested e1 = attested e2.
Proof.
  intros [] [] E. rewrite !CanonicalEnvelope_fields in E.
  apply field_string_inj in E as [_ E]; [|by vm_compute..].
  apply field_string_inj in E as [Hws E]; [|done..].
  apply field_string_inj in E as [Hsid E]; [|by apply Canonical_fits..].
  apply Canonical_inj in Hsid; [|done..].
  apply be8_inj in E as [Hv E]; [|done..].
  apply uuid_inj in E as [Hid E].
  apply field_string_inj in E as [Hu E]; [|done..].
  apply be4_inj in E as [Hs E]; [|done..].
  apply micros_inj in E as [Ho E]. apply micros_inj in E as [Hr E].
  apply uuid_inj in E as [Hc1 E]. apply uuid_inj in E as [Hc2 E]. apply uuid_inj in E as [Hc3 E].
  apply field_string_inj in E as [Ha1 E]; [|done..].
  apply field_string_inj in E as [Ha2 E]; [|done..].
  apply field_inj in E as [Hp Hh]; [|done..].
  unfold attested. destruct (env_Actor e1), (env_Actor e2); simpl in *. congruence.
Qed.

Lemma length_EnvelopeHash e : length (EnvelopeHash e) = HashSize.
Proof. apply length_Sum256. Qed.

Lemma length_UnchainedHeadHash sid v : length (UnchainedHeadHash sid v) = HashSize.
Proof. apply length_Sum256. Qed.

Lemma length_ZeroHash : length ZeroHash = HashSize.
Proof. reflexivity. Qed.

#[export] Hint Resolve length_EnvelopeHash length_UnchainedHeadHash length_ZeroHash : eslite.

Lemma EnvelopeHash_inj e1 e2 :
  envelope_wf e1 -> envelope_wf e2 ->
  EnvelopeHash e1 = EnvelopeHash e2 ->
  attested e1 = attested e2 \/ collide (CanonicalEnvelope e1) (CanonicalEnvelope e2) = true.
Proof.
  intros H1 H2 E%Sum256_inj_or_collision. destruct E as [E|E]; [|by right].
  left. by apply CanonicalEnvelope_inj.
Qed.

(** What an unchained head's stand-in hash is taken over. *)
Definition unchained_head_bytes (sid : StreamID) (v : N) : list byte :=
  field (bytes_of unchainedHeadDomain) (field (bytes_of (Canonical sid)) (be 8 v)).

Lemma UnchainedHeadHash_fields sid v :
  UnchainedHeadHash sid v = Sum256 (unchained_head_bytes sid v).
Proof.
  unfold UnchainedHeadHash, AppendUint64. cbv zeta.
  rewrite !appendString_field. done.
Qed.

Lemma UnchainedHeadHash_inj s1 s2 v1 v2 :
  Validate s1 = Ok tt -> Validate s2 = Ok tt -> (v1 < u64_mod)%N -> (v2 < u64_mod)%N ->
  UnchainedHeadHash s1 v1 = UnchainedHeadHash s2 v2 ->
  (s1 = s2 /\ v1 = v2) \/ collide (unchained_head_bytes s1 v1) (unchained_head_bytes s2 v2) = true.
Proof.
  intros Hs1 Hs2 Hv1 Hv2. rewrite !UnchainedHeadHash_fields.
  intros [E|E]%Sum256_inj_or_collision; [|by right]. left.
  apply field_string_inj in E as [_ E]; [|by vm_compute..].
  apply field_string_inj in E as [Hs E]; [|by apply Canonical_fits..].
  split; [by apply Canonical_inj|by apply be_inj_u64].
Qed.

(** An envelope and an unchained head share a hash only when their own byte
    strings collide. *)
Lemma hash_domains_disjoint e sid v :
  EnvelopeHash e = UnchainedHeadHash sid v ->
  collide (CanonicalEnvelope e) (unchained_head_bytes sid v) = true.
Proof.
  unfold EnvelopeHash. rewrite UnchainedHeadHash_fields.
  intros [E|E]%Sum256_inj_or_collision; [|done].
  rewrite CanonicalEnvelope_fields in E. unfold unchained_head_bytes in E.
  apply field_string_inj in E as [E _]; [|by vm_compute..]. discriminate E.
Qed.

(** ** The repository's golden vectors (src/es/hash_test.go) *)

Definition uuid_of_N (n : N) : UUID := list_to_vec (be 16 n).

Definition goldenV1 : Envelope := {|
  EventID := uuid_of_N 0x0192f3a0000070008000000000000001;
  env_StreamID := MkStreamID "counter" "main";
  Version := 1; GlobalPosition := 0; Workspace := "";
  TypeURL := "counter.v1.Initialized"; SchemaVersion := 1;
  OccurredAt := 1772532000123456000%Z; RecordedAt := 1772532001654321000%Z;
  CorrelationID := uuid_of_N 0x0192f3a00000700080000000000000c0;
  CausationID := uuid_Nil;
  CommandID := uuid_of_N 0x0192f3a00000700080000000000000c1;
  env_Actor := MkActor "user" "alice";
  Payload := [Byte.x08; Byte.x05; Byte.x10; Byte.x64];
  PrevHash := Some ZeroHash; Hash := None |}.

Definition goldenV2 : Envelope := {|
  EventID := uuid_of_N 0x0192f3a0000070008000000000000002;
  env_StreamID := MkStreamID "counter" "main";
  Version := 2; GlobalPosition := 0; Workspace := "";
  TypeURL := "counter.v1.Incremented"; SchemaVersion := 2;
  OccurredAt := 1772532002000000000%Z; RecordedAt := 1772532002000001000%Z;
  CorrelationID := uuid_of_N 0x0192f3a00000700080000000000000c0;
  CausationID := uuid_Nil;
  CommandID := uuid_of_N 0x0192f3a00000700080000000000000c1;
  env_Actor := MkActor "user" "alice";
  Payload := [Byte.x08; Byte.x0a];
  PrevHash := Some (EnvelopeHash goldenV1); Hash := None |}.

Definition goldenWS : Envelope := {|
  EventID := uuid_of_N 0x0192f3a0000070008000000000000001;
  env_StreamID := MkStreamID "counter" "main";
  Version := 1; GlobalPosition := 0; Workspace := "ws_a";
  TypeURL := "counter.v1.Initialized"; SchemaVersion := 1;
  OccurredAt := zero_time; RecordedAt := zero_time;
  CorrelationID := uuid_Nil; CausationID := uuid_Nil; CommandID := uuid_Nil;
  env_Actor := MkActor "" "";
  Payload := [];
  PrevHash := Some ZeroHash; Hash := None |}.

(** The model reproduces the golden vectors the repository pins for
    external auditors: the three envelope hashes (the second chained to the
    first, the third with a workspace, empty fields and zero timestamps), the
    unchained head hash and the 218-byte length of the first encoding. *)
Theorem golden_vectors :
  length (CanonicalEnvelope goldenV1) = 218%nat
  /\ be_value (EnvelopeHash goldenV1) = 0xbef51179d91145c58b6d8a9984e67667570a70550cc7f8ec2644918bdfb2310c%N
  /\ be_value (EnvelopeHash goldenV2) = 0x9bfcdff651e5d56dca6bda50f294a4c2f7b56fd1296a73d7428107d7ff2b539b%N
  /\ be_value (EnvelopeHash goldenWS) = 0x57e2901d2e5cd1bef47267971a47dbaf7043b85cbf42fdb0e1792b9a9b27f3f8%N
  /\ be_value (UnchainedHeadHash (MkStreamID "counter" "main") 7)
     = 0x17d28c6596c090407641f11ce7c3e902d16ca979d422522862a423ab4337a7f9%N.
Proof. vm_compute. repeat split. Qed.

(** The envelope hash binds every field the encoding covers.  Two
    well-formed envelopes with the same hash agree on workspace, stream,
    version, event id, type, schema version, both timestamps (to the
    microsecond), the three causality ids, actor, payload and previous hash,
    or the canonical encodings of these two envelopes are themselves two
    distinct byte strings with one SHA-256 digest. *)
Theorem envelope_hash_binding e1 e2 :
  envelope_wf e1 -> envelope_wf e2 ->
  EnvelopeHash e1 = EnvelopeHash e2 ->
  attested e1 = attested e2 \/ collide (CanonicalEnvelope e1) (CanonicalEnvelope e2) = true.
Proof. apply EnvelopeHash_inj. Qed.

Lemma goldenV1_wf : envelope_wf goldenV1.
Proof. split; by vm_compute. Qed.

(** The hash ignores the global position, so a re-positioned row satisfies the
    theorem's hypotheses with equal hashes. *)
Definition goldenV1_moved : Envelope := {|
  EventID := EventID goldenV1; env_StreamID := env_StreamID goldenV1;
  Version := 1; GlobalPosition := 99; Workspace := "";
  TypeURL := TypeURL goldenV1; SchemaVersion := 1;
  OccurredAt := OccurredAt goldenV1; RecordedAt := (RecordedAt goldenV1 + 500)%Z;
  CorrelationID := CorrelationID goldenV1; CausationID := uuid_Nil;
  CommandID := CommandID goldenV1; env_Actor := env_Actor goldenV1;
  Payload := Payload goldenV1; PrevHash := None; Hash := None |}.

Lemma envelope_hash_binding_witness :
  EnvelopeHash goldenV1 = EnvelopeHash goldenV1_moved
  /\ collide (CanonicalEnvelope goldenV1) (CanonicalEnvelope goldenV1_moved) = false
  /\ attested goldenV1 = attested goldenV1_moved.
Proof.
  assert (EnvelopeHash goldenV1 = EnvelopeHash goldenV1_moved) as E by (by vm_compute).
  assert (collide (CanonicalEnvelope goldenV1) (CanonicalEnvelope goldenV1_moved) = false) as Hc
    by (by vm_compute).
  split; [exact E|split; [exact Hc|]].
  destruct (envelope_hash_binding goldenV1 goldenV1_moved) as [H|H];
    [apply goldenV1_wf|split; by vm_compute|exact E|exact H|by rewrite Hc in H].
Defined.
