(* ===== verification/Chain.v ===== *)
(** * Hash-chain verification (src/es/verify.go)

    The incremental [ChainChecker] and the paged driver [VerifyStreamWith],
    over any store's [ReadStream].  Theorems: what an intact verdict proves
    (tamper evidence up to SHA-256 collisions), that paging does not change
    the verdict on a contiguous stream, that the loop terminates, and the
    exact circumstances in which a missing row ends verification early. *)
From S2P Require Import Prelude Sha256 Es Hash.

(** ** Definitions *)

Record ChainReport := MkChainReport {
  rep_StreamID : StreamID;
  rep_ChainedFrom : N;
  rep_Head : N;
  rep_HeadHash : option (list byte);
  rep_BrokenAt : N;
  rep_Err : option error
}.

Definition Intact (r : ChainReport) : bool :=
  (rep_BrokenAt r =? 0)%N && bool_decide (rep_Err r = None).

Record VerifyOptions := MkVerifyOptions {
  vo_ChainedSince : time;
  vo_Strict : bool;
  vo_Page : Z
}.

(** [cc_last = None] is the Go struct's [started == false]. *)
Record ChainChecker := MkChainChecker {
  cc_ChainedSince : time;
  cc_sid : StreamID;
  cc_last : option Envelope;
  cc_rep : ChainReport
}.

Definition NewChainChecker (sid : StreamID) : ChainChecker :=
  MkChainChecker zero_time sid None (MkChainReport sid 0 0 None 0 None).

Definition is_nil (h : option (list byte)) : bool :=
  match h with None => true | Some _ => false end.

(** Go's [len] of a possibly nil slice. *)
Definition slice_len (h : option (list byte)) : nat :=
  match h with None => 0%nat | Some l => length l end.

(** bytes.Equal: a nil slice equals an empty one. *)
Definition bytes_Equal (a b : option (list byte)) : bool :=
  bool_decide (default [] a = default [] b).

(** The prev_hash the envelope must carry, when it can be known. *)
Definition want_prev (c : ChainChecker) (e : Envelope) : option (list byte) :=
  match cc_last c with
  | None => if (Version e =? 1)%N then Some ZeroHash else None
  | Some last =>
      match Hash last with
      | None => Some (UnchainedHeadHash (cc_sid c) (Version last))
      | Some h => Some h
      end
  end.

Definition check (c : ChainChecker) (e : Envelope) : res unit :=
  if bool_decide (env_StreamID e <> cc_sid c) then Err (ErrorsNew "envelope belongs to stream") else
  match
    match cc_last c with
    | Some last => if negb (Version e =? u64 (Version last + 1))%N
                   then Some (ErrorsNew "version not contiguous") else None
    | None => if (Version e =? 0)%N then Some (ErrorsNew "version 0") else None
    end
  with
  | Some err => Err err
  | None =>
    if is_nil (Hash e) then
      if negb (is_nil (PrevHash e)) then Err (ErrorsNew "prev_hash set on an unhashed row")
      else if match cc_last c with Some last => negb (is_nil (Hash last)) | None => false end
      then Err (ErrorsNew "unhashed row after a chained one")
      else if negb (IsZero (cc_ChainedSince c)) && (cc_ChainedSince c <? RecordedAt e)%Z
      then Err (ErrorsNew "unhashed row recorded after the chain started")
      else Ok tt
    else if negb (slice_len (Hash e) =? HashSize)%nat then Err (ErrorsNew "hash size")
    else if negb (slice_len (PrevHash e) =? HashSize)%nat then Err (ErrorsNew "prev_hash size")
    else if match want_prev c e with
            | Some want => negb (bytes_Equal (PrevHash e) (Some want))
            | None => false
            end
    then Err (ErrorsNew "prev_hash does not link to the previous version")
    else if negb (bytes_Equal (Some (EnvelopeHash e)) (Hash e))
    then Err (ErrorsNew "stored hash does not match the recomputed hash")
    else Ok tt
  end.

Definition Next (c : ChainChecker) (e : Envelope) : ChainChecker * option error :=
  match rep_Err (cc_rep c) with
  | Some err => (c, Some err)
  | None =>
      match check c e with
      | Err _ =>
          let err := Errorf "stream: version" (Sentinel ErrChainBroken) in
          let r := cc_rep c in
          (MkChainChecker (cc_ChainedSince c) (cc_sid c) (cc_last c)
             (MkChainReport (rep_StreamID r) (rep_ChainedFrom r) (rep_Head r) (rep_HeadHash r)
                (Version e) (Some err)), Some err)
      | Ok _ =>
          let r := cc_rep c in
          let from := if negb (is_nil (Hash e)) && (rep_ChainedFrom r =? 0)%N
                      then Version e else rep_ChainedFrom r in
          (MkChainChecker (cc_ChainedSince c) (cc_sid c) (Some e)
             (MkChainReport (rep_StreamID r) from (Version e) (Hash e)
                (rep_BrokenAt r) (rep_Err r)), None)
      end
  end.

Definition Report (c : ChainChecker) : ChainReport := cc_rep c.

(** The inner [for _, e := range envs] loop. *)
Fixpoint Next_all (c : ChainChecker) (envs : list Envelope) : ChainChecker * option error :=
  match envs with
  | [] => (c, None)
  | e :: envs' =>
      match Next c e with
      | (c', Some err) => (c', Some err)
      | (c', None) => Next_all c' envs'
      end
  end.

Section Verify.
(** store.ReadStream of the store being verified. *)
Variable ReadStream : StreamID -> N -> N -> res (list Envelope).

(** The paged read loop; [None] is out of fuel. *)
Fixpoint verify_loop (fuel : nat) (sid : StreamID) (page : nat) (from : N) (c : ChainChecker)
  : option (ChainChecker * option error) :=
  match fuel with
  | O => None
  | S fuel' =>
      let rd := ReadStream sid from (u64 (from + N.of_nat page)) in
      match rd with
      | Err err => if Is err ErrStreamNotFound then Some (c, None) else Some (c, Some err)
      | Ok envs =>
          match Next_all c envs with
          | (c', Some err) => Some (c', Some err)
          | (c', None) =>
              if (length envs <? page)%nat then Some (c', None)
              else verify_loop fuel' sid page (default 0%N (Version <$> last envs)) c'
          end
      end
  end.

Definition verify_page (opts : VerifyOptions) : nat :=
  if (vo_Page opts <=? 0)%Z then 500%nat else Z.to_nat (vo_Page opts).

(** The report the function returns together with its error. *)
Definition VerifyStreamWith (fuel : nat) (sid : StreamID) (opts : VerifyOptions)
  : option (ChainReport * option error) :=
  match Validate sid with
  | Err err => Some (MkChainReport sid 0 0 None 0 None, Some err)
  | Ok _ =>
      let c0 := NewChainChecker sid in
      let c := MkChainChecker (vo_ChainedSince opts) (cc_sid c0) (cc_last c0) (cc_rep c0) in
      match verify_loop fuel sid (verify_page opts) 0 c with
      | None => None
      | Some (c', Some err) => Some (Report c', Some err)
      | Some (c', None) =>
          let rep := Report c' in
          if vo_Strict opts && (0 <? rep_Head rep)%N && negb (rep_ChainedFrom rep =? 1)%N
          then
            let err := Errorf "strict mode requires 1" (Sentinel ErrChainBroken) in
            Some (MkChainReport (rep_StreamID rep) (rep_ChainedFrom rep) (rep_Head rep)
                    (rep_HeadHash rep) 1 (Some err), Some err)
          else Some (rep, None)
      end
  end.

Definition VerifyStream (fuel : nat) (sid : StreamID) : option (ChainReport * option error) :=
  VerifyStreamWith fuel sid (MkVerifyOptions zero_time false 0).
End Verify.

(** ** Reference definitions *)

(** The checker's verdict on a whole row list as a property: every row passes
    [check] against its predecessor. *)
Fixpoint chain_ok (since : time) (sid : StreamID) (prev : option Envelope) (rows : list Envelope) : Prop :=
  match rows with
  | [] => True
  | e :: rows' =>
      check (MkChainChecker since sid prev (MkChainReport sid 0 0 None 0 None)) e = Ok tt
      /\ chain_ok since sid (Some e) rows'
  end.

(** A store that serves [rows] for [sid]: es.Store's ReadStream contract, the
    versions in the half-open range, ascending, 0 meaning no upper bound.  The
    bounds are those a database integer can carry. *)
Definition in_version_range (from to : N) (e : Envelope) : bool :=
  (from <? Version e)%N && ((to =? 0)%N || (Version e <=? to)%N).

Definition serves (ReadStream : StreamID -> N -> N -> res (list Envelope))
    (sid : StreamID) (rows : list Envelope) : Prop :=
  forall from to, (from <= max_int64)%N -> (to <= max_int64)%N ->
    ReadStream sid from to = Ok (filter (in_version_range from to) rows).

(** The checker after accepting one row. *)
Definition accept (c : ChainChecker) (e : Envelope) : ChainChecker :=
  let r := cc_rep c in
  MkChainChecker (cc_ChainedSince c) (cc_sid c) (Some e)
    (MkChainReport (rep_StreamID r)
       (if negb (is_nil (Hash e)) && (rep_ChainedFrom r =? 0)%N then Version e else rep_ChainedFrom r)
       (Version e) (Hash e) (rep_BrokenAt r) (rep_Err r)).

(** ** Lemmas *)

Lemma check_ext c c' e :
  cc_ChainedSince c = cc_ChainedSince c' -> cc_sid c = cc_sid c' -> cc_last c = cc_last c' ->
  check c e = check c' e.
Proof. unfold check, want_prev. intros -> -> ->. done. Qed.

Lemma Next_None c e c' :
  Next c e = (c', None) ->
  rep_Err (cc_rep c) = None /\ check c e = Ok tt /\ c' = accept c e.
Proof.
  unfold Next, accept. destruct (rep_Err (cc_rep c)) eqn:E; [done|].
  destruct (check c e) as [[]|]; [|done]. by intros [= <-].
Qed.

Lemma Next_Ok c e :
  rep_Err (cc_rep c) = None -> check c e = Ok tt -> Next c e = (accept c e, None).
Proof. unfold Next, accept. by intros -> ->. Qed.

Lemma Next_all_app c r1 r2 :
  Next_all c (r1 ++ r2) =
  match Next_all c r1 with
  | (c', Some err) => (c', Some err)
  | (c', None) => Next_all c' r2
  end.
Proof.
  revert c; induction r1 as [|e r1 IH]; intros c; simpl; [done|].
  destruct (Next c e) as [c' [err|]]; [done|]. apply IH.
Qed.

Lemma accept_all_fields c rows :
  cc_ChainedSince (foldl accept c rows) = cc_ChainedSince c
  /\ cc_sid (foldl accept c rows) = cc_sid c
  /\ rep_StreamID (cc_rep (foldl accept c rows)) = rep_StreamID (cc_rep c)
  /\ rep_Err (cc_rep (foldl accept c rows)) = rep_Err (cc_rep c)
  /\ rep_BrokenAt (cc_rep (foldl accept c rows)) = rep_BrokenAt (cc_rep c).
Proof.
  revert c; induction rows as [|e rows IH]; intros c; simpl; [done|].
  destruct (IH (accept c e)) as (-> & -> & -> & -> & ->). done.
Qed.

Lemma Next_all_iff c rows c' :
  rep_Err (cc_rep c) = None ->
  Next_all c rows = (c', None) <->
  chain_ok (cc_ChainedSince c) (cc_sid c) (cc_last c) rows /\ c' = foldl accept c rows.
Proof.
  revert c; induction rows as [|e rows IH]; intros c Herr; simpl.
  - split; [intros [= <-]; done|intros [_ ->]; done].
  - rewrite (check_ext _ c) by done. split.
    + destruct (Next c e) as [c1 [err|]] eqn:HN; [done|]. intros H.
      apply Next_None in HN as (_ & Hc & ->). apply IH in H; [|done]. tauto.
    + intros [[Hc Hok] ->]. rewrite (Next_Ok _ _ Herr Hc). by apply IH.
Qed.

(** Folding [accept]: the report describes the last row read. *)
Lemma accept_all_last c rows e :
  last rows = Some e ->
  rep_Head (cc_rep (foldl accept c rows)) = Version e
  /\ rep_HeadHash (cc_rep (foldl accept c rows)) = Hash e
  /\ cc_last (foldl accept c rows) = Some e.
Proof.
  destruct rows as [|x rows _] using rev_ind; [done|].
  rewrite last_snoc, foldl_app. intros [= ->]. done.
Qed.

(** ** The paged loop *)

Section Paging.
Context (RS : StreamID -> N -> N -> res (list Envelope)) (sid : StreamID) (rows : list Envelope).
Context (page : nat).
Hypothesis Hserves : serves RS sid rows.
Hypothesis Hnum : numbered Version 1%N rows.
Hypothesis Hpage : (0 < page)%nat.
Hypothesis Hnowrap : (N.of_nat (length rows + page) <= max_int64)%N.

Lemma read_page i : (i <= length rows)%nat ->
  RS sid (N.of_nat i) (u64 (N.of_nat i + N.of_nat page)) = Ok (take page (drop i rows)).
Proof.
  intros Hi. rewrite u64_small, Hserves by (unfold max_int64, u64_mod in *; lia). f_equal.
  apply (filter_numbered Version _ 1%N); [done|]. intros e _.
  unfold in_version_range. rewrite Is_true_true, !andb_true_iff, orb_true_iff.
  rewrite N.ltb_lt, N.leb_le, N.eqb_eq. lia.
Qed.

Lemma verify_loop_pages fuel i c :
  (i <= length rows)%nat -> (length rows - i < fuel)%nat ->
  verify_loop RS fuel sid page (N.of_nat i) c = Some (Next_all c (drop i rows)).
Proof.
  revert i c; induction fuel as [|fuel IH]; intros i c Hi Hf; [lia|].
  simpl. rewrite read_page by done.
  replace (Next_all c (drop i rows))
    with (Next_all c (take page (drop i rows) ++ drop page (drop i rows))) by (by rewrite take_drop).
  rewrite Next_all_app.
  destruct (Next_all c (take page (drop i rows))) as [c' [err|]]; [done|].
  rewrite length_take, length_drop. destruct (Nat.ltb_spec (page `min` (length rows - i)) page) as [Hlt|Hge].
  - rewrite (drop_ge (drop i rows)); [done|]. rewrite length_drop. lia.
  - rewrite drop_drop.
    assert (last (take page (drop i rows)) = rows !! (i + page - 1)%nat) as ->.
    { rewrite last_lookup, length_take, length_drop, lookup_take_lt, lookup_drop by lia. f_equal. lia. }
    destruct (rows !! (i + page - 1)%nat) as [e|] eqn:He.
    + simpl. rewrite (numbered_lookup _ _ _ _ _ Hnum He).
      replace (1 + N.of_nat (i + page - 1))%N with (N.of_nat (i + page)) by lia.
      apply IH; lia.
    + apply lookup_ge_None in He. lia.
Qed.
End Paging.

(** Verification without paging: the reference the loop is compared with. *)
Definition verdict (sid : StreamID) (opts : VerifyOptions) (rows : list Envelope)
  : ChainReport * option error :=
  match Next_all (MkChainChecker (vo_ChainedSince opts) sid None (MkChainReport sid 0 0 None 0 None)) rows with
  | (c, Some err) => (Report c, Some err)
  | (c, None) =>
      let rep := Report c in
      if vo_Strict opts && (0 <? rep_Head rep)%N && negb (rep_ChainedFrom rep =? 1)%N
      then
        let err := Errorf "strict mode requires 1" (Sentinel ErrChainBroken) in
        (MkChainReport (rep_StreamID rep) (rep_ChainedFrom rep) (rep_Head rep)
           (rep_HeadHash rep) 1 (Some err), Some err)
      else (rep, None)
  end.

Lemma verify_page_pos opts : (0 < verify_page opts)%nat.
Proof. unfold verify_page. case_goal; [lia|]. apply Z.leb_gt in E. lia. Qed.

Lemma VerifyStreamWith_verdict RS sid opts rows fuel :
  Validate sid = Ok tt -> serves RS sid rows -> numbered Version 1%N rows ->
  (N.of_nat (length rows + verify_page opts) <= max_int64)%N -> (length rows < fuel)%nat ->
  VerifyStreamWith RS fuel sid opts = Some (verdict sid opts rows).
Proof.
  intros Hv Hs Hn Hw Hf. unfold VerifyStreamWith, verdict. rewrite Hv. simpl.
  pose proof (verify_loop_pages RS sid rows (verify_page opts) Hs Hn (verify_page_pos opts) Hw
    fuel 0 (MkChainChecker (vo_ChainedSince opts) sid None (MkChainReport sid 0 0 None 0 None))) as HL.
  rewrite drop_0 in HL. change (N.of_nat 0) with 0%N in HL. rewrite HL by lia.
  destruct (Next_all _ rows) as [c [err|]]; [done|]. by case_goal.
Qed.

(** What a passing row is. *)
Lemma check_hashed c e h :
  check c e = Ok tt -> Hash e = Some h ->
  h = EnvelopeHash e
  /\ (exists p, PrevHash e = Some p /\ length p = HashSize
        /\ forall w, want_prev c e = Some w -> p = w).
Proof.
  unfold check. intros H Hh. rewrite Hh in H. cbn [is_nil] in H.
  case_hyp H; [done|]. case_hyp H; [done|].
  repeat (case_hyp H; [done|]). clear H.
  repeat match goal with E : negb _ = false |- _ => apply negb_false_iff in E end.
  unfold bytes_Equal in *. simpl in *. split; [by rewrite bool_decide_eq_true in *|].
  destruct (PrevHash e) as [p|] eqn:Hp; [|done]. exists p. split; [done|]. split.
  { by apply Nat.eqb_eq. }
  intros w Hw. rewrite Hw in *.
  match goal with E : negb (bool_decide (default [] (Some p) = _)) = false |- _ =>
    apply negb_false_iff, bool_decide_eq_true in E; exact E end.
Qed.

Lemma check_unhashed c e :
  check c e = Ok tt -> Hash e = None ->
  forall l, cc_last c = Some l -> Hash l = None.
Proof.
  unfold check. intros H Hh l Hl. rewrite Hh, Hl in H. cbn [is_nil] in H.
  destruct (Hash l); [|done]. repeat (case_hyp H; try done).
Qed.

Lemma chain_ok_app since sid p r1 r2 :
  chain_ok since sid p (r1 ++ r2) <->
  chain_ok since sid p r1 /\ chain_ok since sid (match last r1 with Some e => Some e | None => p end) r2.
Proof.
  revert p; induction r1 as [|e r1 IH]; intros p; simpl; [tauto|].
  rewrite IH. destruct r1 as [|e' r1]; simpl; [tauto|]. rewrite last_cons.
  destruct (last r1); tauto.
Qed.

Definition chained (e : Envelope) : bool := negb (is_nil (Hash e)).

Lemma not_chained e : Hash e = None -> ~ chained e.
Proof. unfold chained. intros ->. simpl. tauto. Qed.

Lemma unchained_prefix since sid rows e :
  chain_ok since sid None (rows ++ [e]) -> Hash e = None -> filter chained (rows ++ [e]) = [].
Proof.
  revert e; induction rows as [|x rows IH] using rev_ind; intros e Hok He.
  - simpl. apply filter_false. intros y ->%list_elem_of_singleton. by apply not_chained.
  - rewrite filter_app, (IH x).
    + rewrite filter_cons_False; [done|]. by apply not_chained.
    + apply chain_ok_app in Hok. tauto.
    + apply chain_ok_app in Hok as [_ [Hc _]]. rewrite last_snoc in Hc.
      by apply (check_unhashed _ _ Hc He).
Qed.

(** The version a numbered prefix ends at. *)
Lemma numbered_snoc_version rows e :
  numbered Version 1%N (rows ++ [e]) -> Version e = (1 + N.of_nat (length rows))%N.
Proof. rewrite numbered_app. simpl. tauto. Qed.

(** The byte string that was hashed for a row: its canonical encoding, or for
    a row without a hash the stand-in its successor links to. *)
Definition hash_input (sid : StreamID) (e : Envelope) : list byte :=
  if chained e then CanonicalEnvelope e else unchained_head_bytes sid (Version e).

Definition hash_inputs (sid : StreamID) (rows : list Envelope) : list (list byte) :=
  map (hash_input sid) rows.

Lemma hash_inputs_mono sid rows rows' : rows ⊆ rows' -> hash_inputs sid rows ⊆ hash_inputs sid rows'.
Proof. intros H m (e & -> & He)%list_elem_of_fmap. by apply list_elem_of_fmap_2, H. Qed.

Lemma hash_input_chained sid e h : Hash e = Some h -> hash_input sid e = CanonicalEnvelope e.
Proof. unfold hash_input, chained. by intros ->. Qed.

Lemma hash_input_unchained sid e :
  Hash e = None -> hash_input sid e = unchained_head_bytes sid (Version e).
Proof. unfold hash_input, chained. by intros ->. Qed.

Lemma colliding_rows sid rows1 rows2 e1 e2 :
  e1 ∈ rows1 -> e2 ∈ rows2 -> collide (hash_input sid e1) (hash_input sid e2) = true ->
  colliding (hash_inputs sid rows1) (hash_inputs sid rows2) = true.
Proof.
  intros H1 H2 Hc. apply colliding_spec. exists (hash_input sid e1), (hash_input sid e2).
  split; [|split; [|done]]; by apply list_elem_of_fmap_2.
Qed.

Lemma colliding_prefix sid r1 r2 t1 t2 :
  colliding (hash_inputs sid r1) (hash_inputs sid r2) = true ->
  colliding (hash_inputs sid (r1 ++ t1)) (hash_inputs sid (r2 ++ t2)) = true.
Proof. apply colliding_mono; apply hash_inputs_mono; set_solver. Qed.

Lemma filter_incl {A} (P : A -> bool) (l : list A) : filter P l ⊆ l.
Proof. intros x [_ Hx]%list_elem_of_filter. done. Qed.

Lemma elem_of_snoc {A} (r : list A) e : e ∈ r ++ [e].
Proof. apply elem_of_app. right. by left. Qed.

Lemma elem_of_snoc2 {A} (r : list A) f e : f ∈ (r ++ [f]) ++ [e].
Proof. apply elem_of_app. left. apply elem_of_snoc. Qed.

(** Two passing rows with one hash attest the same fields and link to the same
    predecessor hash. *)
Lemma same_hash_step c1 c2 e1 e2 h :
  check c1 e1 = Ok tt -> check c2 e2 = Ok tt -> envelope_wf e1 -> envelope_wf e2 ->
  Hash e1 = Some h -> Hash e2 = Some h ->
  (attested e1 = attested e2
   /\ forall w1 w2, want_prev c1 e1 = Some w1 -> want_prev c2 e2 = Some w2 -> w1 = w2)
  \/ collide (CanonicalEnvelope e1) (CanonicalEnvelope e2) = true.
Proof.
  intros Hc1 Hc2 Hw1 Hw2 He1 He2.
  destruct (check_hashed _ _ _ Hc1 He1) as (Hh1 & p1 & HP1 & HL1 & HK1).
  destruct (check_hashed _ _ _ Hc2 He2) as (Hh2 & p2 & HP2 & HL2 & HK2).
  destruct (EnvelopeHash_inj e1 e2) as [HA|HC]; [done|done|congruence| |by right].
  left. split; [done|]. intros w1 w2 <-%HK1 <-%HK2.
  unfold attested in HA. rewrite HP1, HP2 in HA. simpl in HA. rewrite HL1, HL2 in HA.
  simpl in HA. congruence.
Qed.

Lemma filter_chained_snoc r e :
  chained e = true -> filter chained (r ++ [e]) = filter chained r ++ [e].
Proof. intros H. by rewrite filter_app, filter_cons_True by (by rewrite H). Qed.

Lemma chain_heads_agree since1 since2 sid r1 r2 e1 e2 h :
  chain_ok since1 sid None (r1 ++ [e1]) -> chain_ok since2 sid None (r2 ++ [e2]) ->
  numbered Version 1%N (r1 ++ [e1]) -> numbered Version 1%N (r2 ++ [e2]) ->
  Forall envelope_wf (r1 ++ [e1]) -> Forall envelope_wf (r2 ++ [e2]) ->
  Hash e1 = Some h -> Hash e2 = Some h ->
  (length r1 = length r2
   /\ map attested (filter chained (r1 ++ [e1])) = map attested (filter chained (r2 ++ [e2])))
  \/ colliding (hash_inputs sid (r1 ++ [e1])) (hash_inputs sid (r2 ++ [e2])) = true.
Proof.
  revert r2 e1 e2 h; induction r1 as [|f1 r1 IH] using rev_ind;
    intros r2 e1 e2 h Hok1 Hok2 Hn1 Hn2 Hw1 Hw2 He1 He2;
    apply chain_ok_app in Hok1 as [Hp1 [Hc1 _]]; apply chain_ok_app in Hok2 as [Hp2 [Hc2 _]];
    pose proof (numbered_snoc_version _ _ Hn1) as Hv1; pose proof (numbered_snoc_version _ _ Hn2) as Hv2;
    apply numbered_app in Hn1 as [Hn1 _]; apply numbered_app in Hn2 as [Hn2 _];
    apply Forall_app in Hw1 as [Hw1 [Hwe1 _]%Forall_cons]; apply Forall_app in Hw2 as [Hw2 [Hwe2 _]%Forall_cons];
    (destruct (same_hash_step _ _ _ _ _ Hc1 Hc2 Hwe1 Hwe2 He1 He2) as [[HA HK]|HC];
      [|right; apply (colliding_rows _ _ _ e1 e2); [apply elem_of_snoc..|];
        by rewrite (hash_input_chained _ _ _ He1), (hash_input_chained _ _ _ He2)]);
    assert (Version e1 = Version e2) as HV by (unfold attested in HA; congruence);
    rewrite (filter_chained_snoc r2 e2) by (unfold chained; by rewrite He2);
    rewrite (filter_chained_snoc _ e1) by (unfold chained; by rewrite He1);
    rewrite !map_app; cbn [map]; rewrite HA.
  - destruct r2; [by left|simpl in *; lia].
  - destruct r2 as [|f2 r2 _] using rev_ind; [rewrite length_app in *; simpl in *; lia|].
    rewrite !last_snoc in HK. unfold want_prev in HK. simpl in HK.
    pose proof Hp1 as [_ [Hcf1 _]]%chain_ok_app. pose proof Hp2 as [_ [Hcf2 _]]%chain_ok_app.
    destruct (Hash f1) as [h1|] eqn:Hf1, (Hash f2) as [h2|] eqn:Hf2; specialize (HK _ _ eq_refl eq_refl).
    + subst h2. destruct (IH r2 f1 f2 h1) as [[Hl ->]|HC]; auto; [left|right; by apply colliding_prefix].
      rewrite !length_app, Hl. done.
    + right. apply (colliding_rows _ _ _ f1 f2); [apply elem_of_snoc2..|].
      rewrite (hash_input_chained _ _ _ Hf1), (hash_input_unchained _ _ Hf2).
      apply (check_hashed _ _ _ Hcf1) in Hf1 as [Hf1 _]. subst. by apply hash_domains_disjoint.
    + right. apply (colliding_rows _ _ _ f1 f2); [apply elem_of_snoc2..|].
      rewrite (hash_input_unchained _ _ Hf1), (hash_input_chained _ _ _ Hf2), collide_sym.
      apply (check_hashed _ _ _ Hcf2) in Hf2 as [Hf2 _]. subst. by apply hash_domains_disjoint.
    + left. rewrite (unchained_prefix _ _ _ _ Hp1 Hf1), (unchained_prefix _ _ _ _ Hp2 Hf2).
      split; [lia|done].
Qed.

(** ** What a completed verification has read *)

Definition between (from to : N) (e : Envelope) : bool :=
  (from <? Version e)%N && (Version e <=? to)%N.

Definition ascending (rows : list Envelope) : Prop :=
  StronglySorted (fun a b => Version a < Version b)%N rows.

Lemma between_spec from to e : between from to e <-> (from < Version e <= to)%N.
Proof. unfold between. rewrite Is_true_true, andb_true_iff, N.ltb_lt, N.leb_le. done. Qed.

Lemma range_split rows a b c :
  ascending rows -> (a <= b <= c)%N ->
  filter (between a c) rows = filter (between a b) rows ++ filter (between b c) rows.
Proof.
  intros Hs Hab. induction Hs as [|x rows Hs IH Hx]; [done|].
  rewrite Forall_forall in Hx. rewrite !filter_cons.
  repeat case_decide; rewrite !between_spec in *; try lia; rewrite ?IH; try done.
  rewrite (filter_false (between a b) rows); [done|].
  intros y Hy%Hx. rewrite between_spec. lia.
Qed.

Lemma ascending_filter from to rows : ascending rows -> ascending (filter (between from to) rows).
Proof.
  induction 1 as [|x rows Hs IH Hx]; [constructor|]. rewrite filter_cons. case_decide; [|done].
  constructor; [done|]. rewrite Forall_forall in *. intros y [_ Hy]%list_elem_of_filter. auto.
Qed.

Lemma ascending_last rows l x :
  ascending rows -> last rows = Some l -> x ∈ rows -> (Version x <= Version l)%N.
Proof.
  destruct rows as [|y rows _] using rev_ind; [done|]. rewrite last_snoc. intros Hs [= ->].
  intros [Hx|Hx%list_elem_of_singleton]%elem_of_app; [|subst; lia].
  assert (Version x < Version l)%N; [|lia].
  apply (StronglySorted_app_1_elem_of _ _ _ _ _ Hs Hx). by constructor.
Qed.

(** The rows up to the last one read are exactly the rows read. *)
Lemma range_to_last rows from to l :
  ascending rows -> last (filter (between from to) rows) = Some l ->
  filter (between from to) rows = filter (between from (Version l)) rows.
Proof.
  intros Hs Hl.
  assert (from < Version l <= to)%N as Hb.
  { assert (l ∈ filter (between from to) rows) as [Hb _]%list_elem_of_filter
      by (by apply last_Some_elem_of). by apply between_spec. }
  rewrite (range_split rows from (Version l) to) by (done || lia).
  rewrite (filter_false (between (Version l) to) rows); [by rewrite app_nil_r|].
  intros x Hx [Hlt Hle]%between_spec.
  assert (Version x <= Version l)%N; [|lia].
  apply (ascending_last _ _ _ (ascending_filter from to _ Hs) Hl).
  apply list_elem_of_filter. rewrite between_spec. split; [lia|done].
Qed.

Section Reads.
Context (RS : StreamID -> N -> N -> res (list Envelope)) (sid : StreamID) (rows : list Envelope).
Context (page : nat).
Hypothesis Hserves : serves RS sid rows.
Hypothesis Hasc : ascending rows.
Hypothesis Hpage : (0 < page)%nat.
Hypothesis Hnowrap : forall e, e ∈ rows -> (Version e + N.of_nat page <= max_int64)%N.

Lemma serves_between from to :
  (0 < to)%N -> (from <= to)%N -> (to <= max_int64)%N ->
  RS sid from to = Ok (filter (between from to) rows).
Proof.
  intros Hto Hft Hm. rewrite Hserves by lia. f_equal. apply list_filter_iff. intros e.
  unfold in_version_range, between. destruct (N.eqb_spec to 0); [lia|]. done.
Qed.

Lemma verify_loop_reads fuel from c c' :
  (from + N.of_nat page <= max_int64)%N -> rep_Err (cc_rep c) = None ->
  verify_loop RS fuel sid page from c = Some (c', None) ->
  exists to, (from <= to)%N
    /\ chain_ok (cc_ChainedSince c) (cc_sid c) (cc_last c) (filter (between from to) rows)
    /\ c' = foldl accept c (filter (between from to) rows).
Proof.
  revert from c; induction fuel as [|fuel IH]; intros from c Hw Hne; [done|]. simpl.
  rewrite u64_small, serves_between by (unfold max_int64, u64_mod in *; lia).
  set (seg := filter (between from (from + N.of_nat page)) rows).
  destruct (Next_all c seg) as [c1 [err|]] eqn:HN; [done|].
  apply Next_all_iff in HN as [Hok ->]; [|done]. destruct (Nat.ltb_spec (length seg) page) as [Hs|Hs].
  - intros [= <-]. exists (from + N.of_nat page)%N. split; [lia|done].
  - destruct (last seg) as [l|] eqn:Hl; [|apply last_None in Hl; rewrite Hl in Hs; simpl in Hs; lia].
    assert (seg = filter (between from (Version l)) rows) as Hseg by (by apply range_to_last).
    assert (l ∈ seg) as [Hb Hin]%list_elem_of_filter by (by apply last_Some_elem_of).
    apply between_spec in Hb. simpl. intros HL.
    pose proof (accept_all_last c seg l Hl) as (_ & _ & Hlast).
    pose proof (accept_all_fields c seg) as (Hsince & Hsid & _ & He & _).
    destruct (IH _ _ (Hnowrap _ Hin) (eq_trans He Hne) HL) as (to & Hto & Hok2 & ->).
    exists to. split; [lia|]. rewrite (range_split rows from (Version l) to) by (done || lia).
    rewrite <- Hseg, chain_ok_app, foldl_app, Hl. rewrite Hsince, Hsid, Hlast in Hok2. done.
Qed.
End Reads.

(** The verifier's initial checker. *)
Definition fresh (sid : StreamID) (since : time) : ChainChecker :=
  MkChainChecker since sid None (MkChainReport sid 0 0 None 0 None).

(** A successful verification has accepted exactly the rows up to [rep_Head],
    and its report is the fold of those rows. *)
Lemma VerifyStreamWith_reads RS sid opts rows fuel rep :
  serves RS sid rows -> ascending rows ->
  (forall e, e ∈ rows -> Version e + N.of_nat (verify_page opts) <= max_int64)%N ->
  (N.of_nat (verify_page opts) <= max_int64)%N ->
  VerifyStreamWith RS fuel sid opts = Some (rep, None) ->
  let read := filter (between 0 (rep_Head rep)) rows in
  chain_ok (vo_ChainedSince opts) sid None read
  /\ rep = cc_rep (foldl accept (fresh sid (vo_ChainedSince opts)) read)
  /\ (vo_Strict opts = true -> rep_Head rep = 0%N \/ rep_ChainedFrom rep = 1%N).
Proof.
  intros Hs Ha Hw Hp. unfold VerifyStreamWith. destruct (Validate sid); [|done]. simpl.
  fold (fresh sid (vo_ChainedSince opts)).
  destruct (verify_loop _ _ _ _ _ _) as [[c' [err|]]|] eqn:HL; try done.
  apply (verify_loop_reads RS sid rows _ Hs Ha (verify_page_pos opts) Hw) in HL
    as (to & _ & Hok & ->); [|lia|done].
  set (seg := filter (between 0 to) rows) in *. unfold Report.
  case_goal; [done|]. intros [= <-].
  assert (filter (between 0 (rep_Head (cc_rep (foldl accept (fresh sid (vo_ChainedSince opts)) seg)))) rows = seg) as ->.
  { destruct (last seg) as [l|] eqn:Hl.
    - pose proof (accept_all_last (fresh sid (vo_ChainedSince opts)) seg l Hl) as (-> & _).
      symmetry. by apply range_to_last.
    - apply last_None in Hl. rewrite Hl. simpl. apply filter_false.
      intros x _ Hx%between_spec. lia. }
  split; [done|]. split; [done|]. intros Hstrict. rewrite Hstrict in E. simpl in E.
  apply andb_false_iff in E as [E|E]; [left; apply N.ltb_ge in E; lia|right].
  by apply negb_false_iff, N.eqb_eq in E.
Qed.

(** ** Strict mode: every row is attested *)

Lemma check_version c e :
  check c e = Ok tt ->
  match cc_last c with Some l => Version e = u64 (Version l + 1) | None => Version e <> 0%N end.
Proof.
  unfold check. destruct (cc_last c) as [l|]; intros H; (case_hyp H; [done|]).
  - destruct (N.eqb_spec (Version e) (u64 (Version l + 1))); [done|by simpl in H].
  - destruct (N.eqb_spec (Version e) 0); done.
Qed.

Lemma chain_ok_numbered since sid rows p :
  chain_ok since sid (Some p) rows -> (forall e, e ∈ p :: rows -> Version e + 1 < u64_mod)%N ->
  numbered Version (Version p + 1) rows.
Proof.
  revert p; induction rows as [|e rows IH]; intros p; simpl; [done|]. intros [Hc Hok] Hb.
  apply check_version in Hc. simpl in Hc. rewrite u64_small in Hc by (apply Hb; by constructor).
  split; [done|]. rewrite <- Hc. apply IH; [done|]. intros x Hx. apply Hb. by constructor.
Qed.

(** [rep_ChainedFrom] is 0 or the version of a hashed row. *)
Lemma ChainedFrom_witness c rows :
  let from := rep_ChainedFrom (cc_rep (foldl accept c rows)) in
  from = rep_ChainedFrom (cc_rep c) \/ exists e, e ∈ rows /\ chained e /\ Version e = from.
Proof.
  revert c; induction rows as [|e rows IH]; intros c; simpl; [by left|].
  destruct (IH (accept c e)) as [->|(x & Hx & Hcx & Hv)].
  - simpl. destruct (is_nil (Hash e)) eqn:En; simpl; [by left|].
    destruct (N.eqb_spec (rep_ChainedFrom (cc_rep c)) 0) as [E0|]; [|by left].
    right. exists e. split; [by constructor|]. unfold chained. by rewrite En.
  - right. exists x. split; [by constructor|done].
Qed.

Lemma strict_numbered since sid rows :
  chain_ok since sid None rows -> (forall e, e ∈ rows -> Version e + 1 < u64_mod)%N ->
  rep_ChainedFrom (cc_rep (foldl accept (fresh sid since) rows)) = 1%N ->
  numbered Version 1 rows /\ filter chained rows = rows.
Proof.
  intros Hok Hb Hf. destruct rows as [|e rows]; [done|].
  destruct (ChainedFrom_witness (fresh sid since) (e :: rows)) as [H|(x & Hx & Hcx & Hv)];
    [rewrite Hf in H; done|rewrite Hf in Hv].
  pose proof Hok as [Hc Hok']. pose proof (check_version _ _ Hc) as H0. simpl in H0.
  pose proof (chain_ok_numbered _ _ _ _ Hok' Hb) as Hn.
  assert (x = e) as ->.
  { apply elem_of_cons in Hx as [Hx|Hx]; [done|]. apply (numbered_elem _ _ _ _ Hn) in Hx. lia. }
  split; [simpl; rewrite Hv in *; done|].
  apply filter_true. intros y Hy. apply list_elem_of_split in Hy as (l1 & l2 & Heq).
  destruct (Hash y) as [h|] eqn:Hh; [unfold chained; by rewrite Hh|]. exfalso.
  replace (l1 ++ y :: l2) with ((l1 ++ [y]) ++ l2) in Heq by (by rewrite <- app_assoc).
  rewrite Heq in Hok. apply chain_ok_app in Hok as [Hok _].
  pose proof (unchained_prefix _ _ _ _ Hok Hh) as Hnil.
  assert (e ∈ filter chained (l1 ++ [y])) as He; [|rewrite Hnil in He; by apply not_elem_of_nil in He].
  apply list_elem_of_filter. split; [done|].
  destruct l1; simpl in *; injection Heq as -> _; by constructor.
Qed.

(** What strict verification with head hash [h] has read. *)
Lemma strict_read RS sid opts rows fuel rep h :
  serves RS sid rows -> ascending rows -> Forall envelope_wf rows ->
  (forall e, e ∈ rows -> Version e + N.of_nat (verify_page opts) <= max_int64)%N ->
  (N.of_nat (verify_page opts) <= max_int64)%N -> vo_Strict opts = true ->
  VerifyStreamWith RS fuel sid opts = Some (rep, None) -> rep_HeadHash rep = Some h ->
  exists r e, filter (between 0 (rep_Head rep)) rows = r ++ [e]
    /\ chain_ok (vo_ChainedSince opts) sid None (r ++ [e]) /\ numbered Version 1 (r ++ [e])
    /\ filter chained (r ++ [e]) = r ++ [e] /\ Forall envelope_wf (r ++ [e])
    /\ Hash e = Some h /\ rep_Head rep = Version e.
Proof.
  intros Hs Ha Hwf Hw Hp HS HV Hh.
  destruct (VerifyStreamWith_reads _ _ _ _ _ _ Hs Ha Hw Hp HV) as (Hok & Hrep & Hstrict).
  pose proof (verify_page_pos opts) as Hpos.
  assert (forall e, e ∈ filter (between 0 (rep_Head rep)) rows -> Version e + 1 < u64_mod)%N as Hb.
  { intros e [_ He%Hw]%list_elem_of_filter. unfold max_int64, u64_mod in *. lia. }
  assert (Forall envelope_wf (filter (between 0 (rep_Head rep)) rows)) as Hwf'.
  { rewrite Forall_forall in *. intros e [_ He]%list_elem_of_filter. auto. }
  revert Hok Hrep Hb Hwf'. generalize (filter (between 0 (rep_Head rep)) rows). intros read Hok Hrep Hb Hwf'.
  destruct read as [|e r _] using rev_ind; [subst rep; done|]. exists r, e.
  destruct (accept_all_last (fresh sid (vo_ChainedSince opts)) (r ++ [e]) e) as (HH & HHash & _);
    [apply last_snoc|]. rewrite <- Hrep in HH, HHash.
  assert (rep_ChainedFrom rep = 1%N) as HC.
  { destruct (Hstrict HS) as [H0|]; [|done]. exfalso. rewrite HH in H0.
    apply chain_ok_app in Hok as [Hpre [Hc _]]. pose proof (check_version _ _ Hc) as Hv. simpl in Hv.
    destruct (last r) as [l|] eqn:Hl; [|done]. rewrite u64_small in Hv; [lia|].
    apply Hb, elem_of_app. left. by apply last_Some_elem_of. }
  rewrite Hrep in HC. destruct (strict_numbered _ _ _ Hok Hb HC) as [Hn Hc]. rewrite Hh in HHash. done.
Qed.

(** ** Sealed rows: written by a store that hashes every row *)

Definition sealed (e : Envelope) : Prop := Hash e = Some (EnvelopeHash e).

Lemma hash_inputs_sealed sid rows : Forall sealed rows -> hash_inputs sid rows = map CanonicalEnvelope rows.
Proof.
  induction 1 as [|e rows He _ IH]; [done|]. cbn [hash_inputs map]. unfold hash_inputs in IH.
  by rewrite IH, (hash_input_chained _ _ _ He).
Qed.

(** A sealed row that links to its predecessor passes. *)
Lemma check_sealed c e p :
  env_StreamID e = cc_sid c ->
  match cc_last c with Some l => Version e = u64 (Version l + 1) | None => Version e <> 0%N end ->
  sealed e -> PrevHash e = Some p -> length p = HashSize ->
  (forall w, want_prev c e = Some w -> p = w) -> check c e = Ok tt.
Proof.
  intros Hs Hv Hh Hp Hl Hw. unfold check. rewrite bool_decide_eq_false_2 by tauto.
  replace (match cc_last c with
    | Some last => if negb (Version e =? u64 (Version last + 1))%N then Some (ErrorsNew "version not contiguous") else None
    | None => if (Version e =? 0)%N then Some (ErrorsNew "version 0") else None end) with (@None error).
  2:{ destruct (cc_last c); [by rewrite Hv, N.eqb_refl|]. by rewrite (proj2 (N.eqb_neq _ _) Hv). }
  rewrite Hh, Hp. cbn [is_nil slice_len]. unfold EnvelopeHash at 1. rewrite length_Sum256, Hl. cbn [Nat.eqb negb HashSize].
  unfold bytes_Equal. cbn [default].
  destruct (want_prev c e) as [w|]; [rewrite (Hw w eq_refl)|]; by rewrite !bool_decide_eq_true_2.
Qed.

(** Rows that pass unconditionally pass with any ChainedSince, when sealed. *)
Lemma chain_ok_since since sid p rows :
  Forall sealed rows -> chain_ok zero_time sid p rows -> chain_ok since sid p rows.
Proof.
  intros Hs; revert p; induction Hs as [|e rows He Hs IH]; intros p; simpl; [done|]. intros [Hc Hok].
  split; [|by apply IH]. unfold check, want_prev in *. cbn [cc_last cc_sid cc_ChainedSince] in *.
  rewrite He in *. exact Hc.
Qed.

Lemma ChainedFrom_first since sid e rows :
  chained e -> Version e = 1%N ->
  rep_ChainedFrom (cc_rep (foldl accept (fresh sid since) (e :: rows))) = 1%N.
Proof.
  intros Hc Hv. simpl. set (c := accept _ e).
  assert (rep_ChainedFrom (cc_rep c) = 1%N) as H1.
  { subst c. simpl. unfold chained in Hc. destruct (is_nil (Hash e)); [done|]. simpl. done. }
  clearbody c. revert c H1. induction rows as [|x rows IH]; intros c H1; simpl; [done|].
  apply IH. simpl. rewrite H1. simpl. by rewrite andb_false_r.
Qed.

Lemma verdict_sealed sid opts rows :
  chain_ok zero_time sid None rows -> Forall sealed rows -> numbered Version 1%N rows ->
  exists rep, verdict sid opts rows = (rep, None) /\ Intact rep = true
    /\ rep_Head rep = N.of_nat (length rows)
    /\ rep_HeadHash rep = (EnvelopeHash <$> last rows).
Proof.
  intros Hok Hs Hn. unfold verdict. fold (fresh sid (vo_ChainedSince opts)).
  assert (Next_all (fresh sid (vo_ChainedSince opts)) rows
    = (foldl accept (fresh sid (vo_ChainedSince opts)) rows, None)) as ->.
  { apply Next_all_iff; [done|]. split; [|done]. by apply chain_ok_since. }
  unfold Report. set (rep := cc_rep _).
  assert (Intact rep = true) as HI.
  { destruct (accept_all_fields (fresh sid (vo_ChainedSince opts)) rows) as (_ & _ & _ & HE & HB).
    unfold Intact. subst rep. rewrite HE, HB. done. }
  assert (rep_Head rep = N.of_nat (length rows) /\ rep_HeadHash rep = (EnvelopeHash <$> last rows)) as [HH HHash].
  { destruct (last rows) as [e|] eqn:Hl.
    - destruct (accept_all_last (fresh sid (vo_ChainedSince opts)) rows e Hl) as (H1 & H2 & _). subst rep.
      rewrite H1, H2. pose proof (numbered_last _ _ _ _ Hn Hl).
      rewrite Forall_forall in Hs. split; [lia|]. apply Hs. by apply last_Some_elem_of.
    - apply last_None in Hl. subst rep. by rewrite Hl. }
  assert (vo_Strict opts && (0 <? rep_Head rep)%N && negb (rep_ChainedFrom rep =? 1)%N = false) as ->.
  { destruct rows as [|e rows]; [subst rep; simpl; by rewrite andb_false_r|]. subst rep.
    destruct Hn as [He _]. apply Forall_cons in Hs as [Hse _].
    rewrite ChainedFrom_first; [by rewrite andb_false_r| |done]. unfold chained. by rewrite Hse. }
  exists rep. done.
Qed.

(** ** Properties *)

(** Sample rows: the repository's golden stream, sealed, and a third event. *)
Definition seal (e : Envelope) : Envelope := {|
  EventID := EventID e; env_StreamID := env_StreamID e; Version := Version e;
  GlobalPosition := GlobalPosition e; Workspace := Workspace e; TypeURL := TypeURL e;
  SchemaVersion := SchemaVersion e; OccurredAt := OccurredAt e; RecordedAt := RecordedAt e;
  CorrelationID := CorrelationID e; CausationID := CausationID e; CommandID := CommandID e;
  env_Actor := env_Actor e; Payload := Payload e; PrevHash := PrevHash e;
  Hash := Some (EnvelopeHash e) |}.

Definition goldenV3 : Envelope := {|
  EventID := EventID goldenV2; env_StreamID := env_StreamID goldenV2; Version := 3;
  GlobalPosition := 3; Workspace := ""; TypeURL := TypeURL goldenV2; SchemaVersion := 1;
  OccurredAt := zero_time; RecordedAt := zero_time; CorrelationID := uuid_Nil;
  CausationID := uuid_Nil; CommandID := uuid_Nil; env_Actor := MkActor "" "";
  Payload := []; PrevHash := Some (EnvelopeHash goldenV2); Hash := None |}.

Definition golden_stream : list Envelope := map seal [goldenV1; goldenV2; goldenV3].

Definition serve (rows : list Envelope) (sid : StreamID) (from to : N) : res (list Envelope) :=
  Ok (filter (in_version_range from to) rows).

Definition golden_sid : StreamID := MkStreamID "counter" "main".

Definition strict_page (p : Z) : VerifyOptions := MkVerifyOptions zero_time true p.

Lemma golden_stream_wf : Forall envelope_wf golden_stream.
Proof. repeat constructor; by vm_compute. Qed.

Lemma golden_stream_ascending : ascending golden_stream.
Proof. repeat constructor; by vm_compute. Qed.

Lemma sealed_seal e : sealed (seal e).
Proof. reflexivity. Qed.

Lemma golden_chain : chain_ok zero_time golden_sid None golden_stream.
Proof.
  split; [|split; [|split; [|exact I]]].
  - apply (check_sealed _ _ ZeroHash); [reflexivity|discriminate|apply sealed_seal|reflexivity|reflexivity|].
    intros w Hw. by injection Hw.
  - apply (check_sealed _ _ (EnvelopeHash goldenV1)); [reflexivity|reflexivity|apply sealed_seal|reflexivity|apply length_Sum256|].
    intros w Hw. injection Hw. exact id.
  - apply (check_sealed _ _ (EnvelopeHash goldenV2)); [reflexivity|reflexivity|apply sealed_seal|reflexivity|apply length_Sum256|].
    intros w Hw. injection Hw. exact id.
Qed.

Lemma golden_sealed : Forall sealed golden_stream.
Proof. repeat apply Forall_cons_2; auto using sealed_seal. Qed.

Lemma golden_numbered : numbered Version 1%N golden_stream.
Proof. by vm_compute. Qed.

(** What the verifier reports on the golden stream. *)
Lemma golden_report p :
  (p <= 1000)%Z ->
  exists rep, VerifyStreamWith (serve golden_stream) 4 golden_sid (strict_page p) = Some (rep, None)
    /\ rep_HeadHash rep = Some (EnvelopeHash (seal goldenV3)).
Proof.
  intros Hp. destruct (verdict_sealed golden_sid (strict_page p) golden_stream golden_chain golden_sealed golden_numbered)
    as (rep & HV & _ & _ & HH).
  exists rep. split; [|exact HH]. rewrite <- HV. apply VerifyStreamWith_verdict.
  - by vm_compute.
  - intros from to _ _. reflexivity.
  - exact golden_numbered.
  - change (length golden_stream) with 3%nat. unfold verify_page, max_int64. simpl. case_goal; lia.
  - change (length golden_stream) with 3%nat. lia.
Qed.

Lemma golden_stream_bounded k e :
  (k < 1000)%N -> e ∈ golden_stream -> (Version e + k <= max_int64)%N.
Proof.
  intros Hk He. assert (Version e <= 3)%N; [|unfold max_int64; lia].
  unfold golden_stream in He. simpl in He.
  repeat (apply elem_of_cons in He as [->|He]; [vm_compute; congruence|]). by apply not_elem_of_nil in He.
Qed.

(** Paging is transparent and the loop terminates: over any store that serves a
    stream whose versions are 1..n, VerifyStreamWith returns, for every page
    size, exactly the verdict of checking the whole stream in one pass, with
    fuel beyond the number of rows. *)
Theorem verify_paging RS sid opts rows fuel :
  Validate sid = Ok tt -> serves RS sid rows -> numbered Version 1%N rows ->
  (N.of_nat (length rows + verify_page opts) <= max_int64)%N -> (length rows < fuel)%nat ->
  VerifyStreamWith RS fuel sid opts = Some (verdict sid opts rows).
Proof. apply VerifyStreamWith_verdict. Qed.

Lemma verify_paging_witness :
  VerifyStreamWith (serve golden_stream) 4 golden_sid (strict_page 1)
  = Some (verdict golden_sid (strict_page 1) golden_stream).
Proof.
  apply (verify_paging (serve golden_stream) golden_sid (strict_page 1) golden_stream 4);
    [by vm_compute|by intros ??|by vm_compute|by vm_compute|simpl; lia].
Defined.

(** C15: Tamper evidence end to end: when strict verification of two copies of a stream
    (each any rows in ascending version order, with possible gaps and edits)
    both succeed and report the same head hash, then the rows up to the head
    agree in number, order and every attested field, or one of the encodings
    hashed for the first copy and one of those hashed for the second are
    themselves two distinct byte strings with one SHA-256 digest. *)
Theorem strict_tamper_evidence RS1 RS2 sid opts1 opts2 rows1 rows2 fuel1 fuel2 rep1 rep2 h :
  serves RS1 sid rows1 -> serves RS2 sid rows2 -> ascending rows1 -> ascending rows2 ->
  Forall envelope_wf rows1 -> Forall envelope_wf rows2 ->
  (forall e, e ∈ rows1 -> Version e + N.of_nat (verify_page opts1) <= max_int64)%N ->
  (forall e, e ∈ rows2 -> Version e + N.of_nat (verify_page opts2) <= max_int64)%N ->
  (N.of_nat (verify_page opts1) <= max_int64)%N -> (N.of_nat (verify_page opts2) <= max_int64)%N ->
  vo_Strict opts1 = true -> vo_Strict opts2 = true ->
  VerifyStreamWith RS1 fuel1 sid opts1 = Some (rep1, None) ->
  VerifyStreamWith RS2 fuel2 sid opts2 = Some (rep2, None) ->
  rep_HeadHash rep1 = Some h -> rep_HeadHash rep2 = Some h ->
  (rep_Head rep1 = rep_Head rep2
   /\ map attested (filter (between 0 (rep_Head rep1)) rows1)
      = map attested (filter (between 0 (rep_Head rep2)) rows2))
  \/ colliding (hash_inputs sid (filter (between 0 (rep_Head rep1)) rows1))
       (hash_inputs sid (filter (between 0 (rep_Head rep2)) rows2)) = true.
Proof.
  intros Hs1 Hs2 Ha1 Ha2 Hw1 Hw2 Hb1 Hb2 Hp1 Hp2 HS1 HS2 HV1 HV2 HH1 HH2.
  destruct (strict_read RS1 sid opts1 rows1 fuel1 rep1 h) as (r1 & e1 & -> & Hok1 & Hn1 & Hc1 & Hwf1 & He1 & Hv1); try done.
  destruct (strict_read RS2 sid opts2 rows2 fuel2 rep2 h) as (r2 & e2 & -> & Hok2 & Hn2 & Hc2 & Hwf2 & He2 & Hv2); try done.
  destruct (chain_heads_agree _ _ _ _ _ _ _ _ Hok1 Hok2 Hn1 Hn2 Hwf1 Hwf2 He1 He2) as [[HL HM]|]; [left|by right].
  rewrite Hc1, Hc2 in HM. apply numbered_snoc_version in Hn1, Hn2. split; [lia|done].
Qed.

(** No two encodings hashed for the golden stream collide. *)
Lemma golden_no_collision u1 u2 :
  colliding (hash_inputs golden_sid (filter (between 0 u1) golden_stream))
    (hash_inputs golden_sid (filter (between 0 u2) golden_stream)) = false.
Proof.
  apply not_true_iff_false. intros H.
  assert (colliding (hash_inputs golden_sid golden_stream) (hash_inputs golden_sid golden_stream) = false) as Hno
    by (by vm_compute).
  rewrite (colliding_mono _ _ _ _ (hash_inputs_mono _ _ _ (filter_incl _ _))
    (hash_inputs_mono _ _ _ (filter_incl _ _)) H) in Hno. discriminate Hno.
Qed.

Lemma strict_tamper_evidence_witness :
  exists rep1 rep2,
    VerifyStreamWith (serve golden_stream) 4 golden_sid (strict_page 1) = Some (rep1, None)
    /\ VerifyStreamWith (serve golden_stream) 4 golden_sid (strict_page 500) = Some (rep2, None)
    /\ rep_Head rep1 = rep_Head rep2
    /\ map attested (filter (between 0 (rep_Head rep1)) golden_stream)
       = map attested (filter (between 0 (rep_Head rep2)) golden_stream).
Proof.
  destruct (golden_report 1) as (rep1 & H1 & HH1); [done|].
  destruct (golden_report 500) as (rep2 & H2 & HH2); [done|].
  exists rep1, rep2. split; [exact H1|]. split; [exact H2|].
  destruct (strict_tamper_evidence (serve golden_stream) (serve golden_stream) golden_sid
    (strict_page 1) (strict_page 500) golden_stream golden_stream 4 4 rep1 rep2 (EnvelopeHash (seal goldenV3))
    ltac:(by intros ????) ltac:(by intros ????) golden_stream_ascending golden_stream_ascending
    golden_stream_wf golden_stream_wf
    ltac:(intros e; apply golden_stream_bounded; by vm_compute) ltac:(intros e; apply golden_stream_bounded; by vm_compute)
    ltac:(by vm_compute) ltac:(by vm_compute) eq_refl eq_refl H1 H2 HH1 HH2) as [HL|HC]; [exact HL|].
  rewrite golden_no_collision in HC. discriminate HC.
Defined.

(** The verifier's blind spot: a stream whose only missing row is the last of
    the first page (its version is the page size) ends verification there.
    Whatever rows follow the hole, edited or not, the result is the verdict on
    the rows before it, so a lenient verification of a gapped stream can
    report an intact chain with the head before the hole. *)
Lemma page_boundary_gap_unseen RS sid opts pre post fuel :
  Validate sid = Ok tt -> serves RS sid (pre ++ post) -> numbered Version 1%N pre ->
  length pre = (verify_page opts - 1)%nat ->
  (forall e, e ∈ post -> N.of_nat (verify_page opts) < Version e)%N ->
  (N.of_nat (verify_page opts) <= max_int64)%N -> (0 < fuel)%nat ->
  VerifyStreamWith RS fuel sid opts = Some (verdict sid opts pre).
Proof.
  intros Hv Hs Hn Hl Hpost Hw Hf. pose proof (verify_page_pos opts) as Hpos.
  unfold VerifyStreamWith, verdict. rewrite Hv. destruct fuel as [|fuel]; [lia|]. simpl.
  rewrite u64_small, Hs by (unfold max_int64, u64_mod in *; lia).
  assert (filter (in_version_range 0 (0 + N.of_nat (verify_page opts))) (pre ++ post) = pre) as ->.
  { rewrite filter_app, filter_true, filter_false, app_nil_r; [done|..].
    - intros e He%Hpost. unfold in_version_range.
      rewrite Is_true_true, andb_true_iff, orb_true_iff, N.ltb_lt, N.leb_le, N.eqb_eq. lia.
    - intros e He%(numbered_elem _ _ _ _ Hn). unfold in_version_range.
      rewrite Is_true_true, andb_true_iff, orb_true_iff, N.ltb_lt, N.leb_le, N.eqb_eq. lia. }
  destruct (Next_all _ pre) as [c [err|]]; [done|].
  destruct (Nat.ltb_spec (length pre) (verify_page opts)); [|lia]. by case_goal.
Qed.
