(* ===== verification/Anchor.v ===== *)
(** * Anchor roots (src/es/anchor.go)

    The flat SHA-256 root over every stream's head.  The theorem shows that it
    is a function of the set of heads (the order a query returns them in does
    not matter) and binds every head's workspace, stream, version and hash. *)
From S2P Require Import Prelude Sha256 Es Hash.

(** ** Definitions *)

Record StreamHead := MkStreamHead {
  sh_Workspace : string;
  sh_StreamID : StreamID;
  sh_Version : N;
  sh_Hash : option (list byte)
}.

Record Anchor := MkAnchor {
  an_ID : string;
  an_CreatedAt : time;
  an_UptoGlobalPosition : N;
  an_StreamCount : N;
  an_RootHash : list byte
}.

Record StreamRef := MkStreamRef { sr_Workspace : string; sr_StreamID : StreamID }.

Definition anchorDomain : string := "es-lite.anchor.v1".

(** The comparison function AnchorRoot sorts with. *)
Definition head_less (a b : StreamHead) : bool :=
  if negb (bool_decide (sh_Workspace a = sh_Workspace b))
  then String.ltb (sh_Workspace a) (sh_Workspace b)
  else String.ltb (Canonical (sh_StreamID a)) (Canonical (sh_StreamID b)).

(** The order sort.Slice establishes: no element is less than an earlier one. *)
Definition head_le (a b : StreamHead) : Prop := head_less b a = false.

#[global] Instance head_le_dec : RelDecision head_le.
Proof. intros a b. unfold head_le. solve_decision. Defined.

Definition sort_heads (heads : list StreamHead) : list StreamHead := merge_sort head_le heads.

(** The 32 bytes that stand for a head. *)
Definition head_hash (h : StreamHead) : list byte :=
  match sh_Hash h with
  | Some x => if (length x =? HashSize)%nat then x else UnchainedHeadHash (sh_StreamID h) (sh_Version h)
  | None => UnchainedHeadHash (sh_StreamID h) (sh_Version h)
  end.

Definition append_head (b : list byte) (h : StreamHead) : list byte :=
  let b := appendString b (sh_Workspace h) in
  let b := appendString b (Canonical (sh_StreamID h)) in
  let b := AppendUint64 b (sh_Version h) in
  b ++ head_hash h.

Definition anchor_bytes (heads : list StreamHead) : list byte :=
  let sorted := sort_heads heads in
  let b := appendString [] anchorDomain in
  let b := AppendUint64 b (u64 (N.of_nat (length sorted))) in
  foldl append_head b sorted.

Definition AnchorRoot (heads : list StreamHead) : list byte := Sum256 (anchor_bytes heads).

(** ** What a root binds *)

Definition head_key (h : StreamHead) : string * StreamID := (sh_Workspace h, sh_StreamID h).
Definition head_binding (h : StreamHead) : string * StreamID * N * list byte :=
  (sh_Workspace h, sh_StreamID h, sh_Version h, head_hash h).

Record head_wf (h : StreamHead) : Prop := {
  hw_ws : fits32 (String.length (sh_Workspace h));
  hw_sid : Validate (sh_StreamID h) = Ok tt;
  hw_version : (sh_Version h < u64_mod)%N
}.

(** The same order on keys. *)
Definition key_le (a b : string * StreamID) : Prop :=
  if bool_decide (a.1 = b.1) then String.le (Canonical a.2) (Canonical b.2) else String.le a.1 b.1.

(** ** Lemmas *)

Lemma ltb_leb a b : String.ltb a b = negb (String.leb b a).
Proof.
  unfold String.ltb, String.leb. rewrite (String.compare_antisym b a).
  by destruct (String.compare a b).
Qed.

Lemma head_le_key a b : head_le a b <-> key_le (head_key a) (head_key b).
Proof.
  unfold head_le, head_less, key_le, String.le, head_key; simpl.
  do 2 case_bool_decide; simpl; try congruence; rewrite ltb_leb, negb_false_iff, Is_true_true; done.
Qed.

#[global] Instance key_le_trans : Transitive key_le.
Proof.
  intros [a1 a2] [b1 b2] [c1 c2]. unfold key_le; simpl.
  case_bool_decide as Hab; case_bool_decide as Hbc; case_bool_decide as Hac; subst; try done; intros Hx Hy.
  - by etrans.
  - exfalso. by apply Hbc, (anti_symm String.le).
  - by etrans.
Qed.

#[global] Instance key_le_total : Total key_le.
Proof.
  intros [a1 a2] [b1 b2]. unfold key_le; simpl. repeat case_bool_decide; subst; try done; apply (total String.le).
Qed.

#[global] Instance head_le_trans : Transitive head_le.
Proof. intros a b c. rewrite !head_le_key. apply transitivity. Qed.

#[global] Instance head_le_total : Total head_le.
Proof. intros a b. rewrite !head_le_key. apply (total key_le). Qed.

Lemma key_le_antisym a b :
  Validate a.2 = Ok tt -> Validate b.2 = Ok tt -> key_le a b -> key_le b a -> a = b.
Proof.
  destruct a as [a1 a2], b as [b1 b2]. unfold key_le; simpl. intros Ha Hb.
  case_bool_decide as Hab; case_bool_decide as Hba; subst; try done; intros Hx Hy.
  - f_equal. apply Canonical_inj; try done. by apply (anti_symm String.le).
  - exfalso. by apply Hab, (anti_symm String.le).
Qed.

Lemma sort_heads_perm heads : sort_heads heads ≡ₚ heads.
Proof. apply merge_sort_Permutation. Qed.

Lemma sort_heads_sorted heads : StronglySorted head_le (sort_heads heads).
Proof. apply StronglySorted_merge_sort; apply _. Qed.

Lemma head_hash_length h : length (head_hash h) = HashSize.
Proof.
  unfold head_hash. repeat case_goal; [by apply Nat.eqb_eq|apply length_Sum256..].
Qed.

(** A head's encoding in front of a continuation. *)
Definition head_field (h : StreamHead) (k : list byte) : list byte :=
  field (bytes_of (sh_Workspace h)) (field (bytes_of (Canonical (sh_StreamID h)))
    (be 8 (sh_Version h) ++ head_hash h ++ k)).

Lemma append_head_field b h k : append_head b h ++ k = b ++ head_field h k.
Proof.
  unfold append_head, head_field, AppendUint64.
  rewrite <- !app_assoc, !appendString_field. done.
Qed.

Lemma foldl_append_head b hs k :
  foldl append_head b hs ++ k = b ++ foldr head_field k hs.
Proof.
  revert b; induction hs as [|h hs IH]; intros b; simpl; [done|].
  by rewrite IH, append_head_field.
Qed.

Lemma anchor_bytes_fields heads :
  anchor_bytes heads =
  field (bytes_of anchorDomain) (be 8 (u64 (N.of_nat (length heads))) ++ foldr head_field [] (sort_heads heads)).
Proof.
  unfold anchor_bytes. rewrite <- (app_nil_r (foldl _ _ _)), foldl_append_head.
  unfold AppendUint64. by rewrite <- app_assoc, appendString_field, (Permutation_length (sort_heads_perm heads)).
Qed.

Lemma head_field_inj h1 h2 k1 k2 :
  head_wf h1 -> head_wf h2 -> head_field h1 k1 = head_field h2 k2 ->
  head_binding h1 = head_binding h2 /\ k1 = k2.
Proof.
  intros [] [] E. unfold head_field in E.
  apply field_string_inj in E as [Hws E]; [|done..].
  apply field_string_inj in E as [Hsid E]; [|by apply Canonical_fits..].
  apply Canonical_inj in Hsid; [|done..]. apply be8_inj in E as [Hv E]; [|done..].
  apply app_inj_len in E as [Hh ->]; [|by rewrite !head_hash_length].
  split; [|done]. unfold head_binding. congruence.
Qed.

Lemma head_fields_inj hs1 hs2 :
  Forall head_wf hs1 -> Forall head_wf hs2 ->
  length hs1 = length hs2 -> foldr head_field [] hs1 = foldr head_field [] hs2 ->
  map head_binding hs1 = map head_binding hs2.
Proof.
  intros H1; revert hs2; induction H1 as [|h1 hs1 Hh1 H1 IH]; intros [|h2 hs2] H2 Hl E; simpl in *; try done.
  apply Forall_cons in H2 as [Hh2 H2]. apply head_field_inj in E as [Hb E]; [|done..].
  rewrite Hb. f_equal. apply IH; auto.
Qed.

(** The encoding depends on the heads only through what they bind. *)
Lemma head_fields_binding hs1 hs2 k :
  map head_binding hs1 = map head_binding hs2 -> foldr head_field k hs1 = foldr head_field k hs2.
Proof.
  revert hs2; induction hs1 as [|h1 hs1 IH]; intros [|h2 hs2] E; simpl in *; try done.
  unfold head_binding at 1 3 in E. injection E as Hws Hs Hv Hh E. rewrite (IH _ E).
  unfold head_field. by rewrite Hws, Hs, Hv, Hh.
Qed.

Definition binding_key (b : string * StreamID * N * list byte) : string * StreamID := b.1.1.

Lemma sorted_bindings hs :
  StronglySorted head_le hs ->
  StronglySorted (fun a b => key_le (binding_key a) (binding_key b)) (map head_binding hs).
Proof.
  induction 1 as [|h hs Hs IH Hh]; simpl; constructor; [done|].
  rewrite Forall_map. eapply Forall_impl; [exact Hh|]. intros x. by rewrite head_le_key.
Qed.

Lemma bindings_sort_unique hs1 hs2 :
  Forall head_wf hs1 -> NoDup (map head_key hs1) ->
  map head_binding hs1 ≡ₚ map head_binding hs2 ->
  map head_binding (sort_heads hs1) = map head_binding (sort_heads hs2).
Proof.
  intros Hw Hnd HP.
  apply (StronglySorted_unique_strong (fun a b => key_le (binding_key a) (binding_key b))).
  - intros b1 b2 H1 H2 Hle1 Hle2.
    apply list_elem_of_fmap in H1 as (h1 & -> & H1), H2 as (h2 & -> & H2).
    rewrite (sort_heads_perm hs1) in H1.
    assert (head_binding h2 ∈ map head_binding hs1) as (h3 & Hb & H3)%list_elem_of_fmap.
    { rewrite HP, <- (sort_heads_perm hs2). by apply list_elem_of_fmap_2. }
    rewrite Hb in *. f_equal. rewrite Forall_forall in Hw.
    assert (head_key h1 = head_key h3) as Hk
      by (apply key_le_antisym; [apply Hw, H1|apply Hw, H3|done|done]).
    apply list_elem_of_lookup in H1 as [i Hi], H3 as [j Hj].
    assert (i = j) as ->; [|congruence].
    apply (NoDup_lookup _ _ _ (head_key h1) Hnd); rewrite list_lookup_fmap.
    + by rewrite Hi.
    + rewrite Hj. simpl. by rewrite Hk.
  - by apply sorted_bindings, sort_heads_sorted.
  - by apply sorted_bindings, sort_heads_sorted.
  - change (head_binding <$> sort_heads hs1 ≡ₚ head_binding <$> sort_heads hs2). by rewrite !sort_heads_perm.
Qed.

(** The encoding does not depend on the order the heads are listed in. *)
Lemma anchor_bytes_perm heads1 heads2 :
  Forall head_wf heads1 -> NoDup (map head_key heads1) ->
  map head_binding heads1 ≡ₚ map head_binding heads2 -> anchor_bytes heads1 = anchor_bytes heads2.
Proof.
  intros Hw Hnd HP. rewrite !anchor_bytes_fields.
  rewrite (head_fields_binding (sort_heads heads1) (sort_heads heads2)) by (by apply bindings_sort_unique).
  apply Permutation_length in HP. rewrite !length_map in HP. by rewrite HP.
Qed.

(** The root as a fingerprint of the bindings, both ways. *)
Lemma AnchorRoot_binds heads1 heads2 :
  Forall head_wf heads1 -> Forall head_wf heads2 ->
  NoDup (map head_key heads1) ->
  (N.of_nat (length heads1) < u64_mod)%N -> (N.of_nat (length heads2) < u64_mod)%N ->
  (map head_binding heads1 ≡ₚ map head_binding heads2 -> AnchorRoot heads1 = AnchorRoot heads2)
  /\ (AnchorRoot heads1 = AnchorRoot heads2 ->
      map head_binding heads1 ≡ₚ map head_binding heads2
      \/ collide (anchor_bytes heads1) (anchor_bytes heads2) = true).
Proof.
  intros Hw1 Hw2 Hnd Hl1 Hl2. unfold AnchorRoot. split.
  - intros HP. by rewrite (anchor_bytes_perm heads1 heads2).
  - intros [E|E]%Sum256_inj_or_collision; [left|by right]. rewrite !anchor_bytes_fields in E.
    apply field_inj in E as [_ E]; [|by vm_compute..].
    rewrite !u64_small in E by done. apply be8_inj in E as [El E]; [|done..].
    apply head_fields_inj in E.
    + rewrite <- (sort_heads_perm heads1), <- (sort_heads_perm heads2).
      change (head_binding <$> sort_heads heads1 ≡ₚ head_binding <$> sort_heads heads2).
      change (head_binding <$> sort_heads heads1 = head_binding <$> sort_heads heads2) in E. by rewrite E.
    + by rewrite sort_heads_perm.
    + by rewrite sort_heads_perm.
    + rewrite !sort_heads_perm. lia.
Qed.

(** ** Property *)

(** An anchor root is a faithful fingerprint of the set of stream heads.
    For two head lists with one head per (workspace, stream): the same
    bindings (workspace, stream, version, 32-byte hash) in any order give the
    same root, and the same root means the same bindings up to order, or the
    two encodings hashed for the roots are distinct byte strings with one
    SHA-256 digest. *)
Theorem anchor_root_binds heads1 heads2 :
  Forall head_wf heads1 -> Forall head_wf heads2 ->
  NoDup (map head_key heads1) ->
  (N.of_nat (length heads1) < u64_mod)%N -> (N.of_nat (length heads2) < u64_mod)%N ->
  (map head_binding heads1 ≡ₚ map head_binding heads2 -> AnchorRoot heads1 = AnchorRoot heads2)
  /\ (AnchorRoot heads1 = AnchorRoot heads2 ->
      map head_binding heads1 ≡ₚ map head_binding heads2
      \/ collide (anchor_bytes heads1) (anchor_bytes heads2) = true).
Proof. apply AnchorRoot_binds. Qed.

Lemma anchor_root_binds_witness :
  let h1 := MkStreamHead "" (MkStreamID "user" "a") 3 None in
  let h2 := MkStreamHead "" (MkStreamID "user" "b") 1 (Some ZeroHash) in
  AnchorRoot [h1; h2] = AnchorRoot [h2; h1].
Proof.
  set (h1 := MkStreamHead "" (MkStreamID "user" "a") 3 None).
  set (h2 := MkStreamHead "" (MkStreamID "user" "b") 1 (Some ZeroHash)).
  apply (anchor_root_binds [h1; h2] [h2; h1]).
  - repeat constructor; by vm_compute.
  - repeat constructor; by vm_compute.
  - refine (bool_decide_eq_true_1 (NoDup _) _). by vm_compute.
  - by vm_compute.
  - by vm_compute.
  - apply Permutation_swap.
Defined.
