(* ===== verification/Timestamp.v ===== *)
(** * Timestamp columns (src/sqlite/store.go: tsLayout, formatTS, parseTS)

    The SQLite backend stores instants as text in a fixed-width UTC layout and
    compares them as strings.  Go's [Time.Format] and [time.Parse] are modelled
    for the layouts the program uses ("2006-01-02T15:04:05.000000000Z" and the
    millisecond variant [ChainedSince] reads).  The theorems: formatting and
    parsing are inverse, and string order is time order, for the years 0..9999
    the layout has room for. *)
From S2P Require Import Prelude Es.

Open Scope Z_scope.

(** ** The proleptic Gregorian calendar, as package time computes it *)

Definition isLeap (y : Z) : bool :=
  (y mod 4 =? 0) && (negb (y mod 100 =? 0) || (y mod 400 =? 0)).

(** daysBefore[m] counts the days of a year before month m begins. *)
Definition daysBefore (leap : bool) (m : Z) : Z :=
  nth (Z.to_nat (m - 1)) [0; 31; 59; 90; 120; 151; 181; 212; 243; 273; 304; 334; 365] 0
  + (if leap && (2 <? m) then 1 else 0).

Definition daysIn (leap : bool) (m : Z) : Z := daysBefore leap (m + 1) - daysBefore leap m.

(** Days from 0001-01-01 to the first day of year [y]. *)
Definition days_before_year (y : Z) : Z :=
  let p := y - 1 in 365 * p + p / 4 - p / 100 + p / 400.

(** 0001-01-01 to 1970-01-01. *)
Definition unix_days : Z := 719162.

Definition days_of (y m d : Z) : Z :=
  days_before_year y + daysBefore (isLeap y) m + (d - 1) - unix_days.

(** The year and day of the year of a day number counted from 0001-01-01:
    400-year cycles, then centuries, 4-year cycles and years, the last of each
    group cut off at its leap day. *)
Definition year_yday (days : Z) : Z * Z :=
  let n400 := days / 146097 in
  let d := days mod 146097 in
  let n100 := Z.min 3 (d / 36524) in
  let d := d - 36524 * n100 in
  let n4 := d / 1461 in
  let d := d - 1461 * n4 in
  let n := Z.min 3 (d / 365) in
  (400 * n400 + 100 * n100 + 4 * n4 + n + 1, d - 365 * n).

(** Month and day: estimate month on assumption that every month has 31 days. *)
Definition month_day (leap : bool) (yday : Z) : Z * Z :=
  let m := yday / 31 + 1 in
  if daysBefore leap (m + 1) <=? yday then (m + 1, yday - daysBefore leap (m + 1) + 1)
  else (m, yday - daysBefore leap m + 1).

Definition civil (days : Z) : Z * Z * Z :=
  let '(y, yday) := year_yday (days + unix_days) in
  let '(m, d) := month_day (isLeap y) yday in
  (y, m, d).

(** ** Formatting *)

Definition digit (d : Z) : Ascii.ascii := Ascii.ascii_of_N (Z.to_N (48 + d)).

(** The [k] low decimal digits of [x], most significant first. *)
Fixpoint pad (k : nat) (x : Z) : string :=
  match k with
  | O => EmptyString
  | S k' => String (digit (x / 10 ^ Z.of_nat k' mod 10)) (pad k' x)
  end.

(** The printed width: at least [w], more when the number needs it. *)
Fixpoint print_width (fuel w : nat) (x : Z) : nat :=
  match fuel with
  | O => w
  | S fuel' => if x <? 10 ^ Z.of_nat w then w else print_width fuel' (S w) x
  end.

(** appendInt of package time: sign, then zero-padded decimal. *)
Definition appendInt (x : Z) (width : nat) : string :=
  if x <? 0 then String "-" (pad (print_width 20 width (- x)) (- x)) else pad (print_width 20 width x) x.

Definition day_ns : Z := 86400 * Second.

Definition formatTS (t : time) : string :=
  let '(y, m, d) := civil (t / day_ns) in
  let ns := t mod day_ns in
  let s := ns / Second in
  (appendInt y 4 ++ "-" ++ appendInt m 2 ++ "-" ++ appendInt d 2 ++ "T" ++
   appendInt (s / 3600) 2 ++ ":" ++ appendInt (s / 60 mod 60) 2 ++ ":" ++ appendInt (s mod 60) 2 ++
   "." ++ pad 9 (ns mod Second) ++ "Z")%string.

(** ** Parsing *)

Definition digit_value (c : Ascii.ascii) : option Z :=
  if in_range "0" "9" c then Some (Z.of_N (Ascii.N_of_ascii c) - 48) else None.

Definition errBad : error := ErrorsNew "parsing time: bad value".
Definition errRange (what : string) : error := ErrorsNew ("parsing time: " ++ what ++ " out of range")%string.

(** leadingInt of a string that must be all digits. *)
Fixpoint digits_value (acc : Z) (s : string) : res Z :=
  match s with
  | EmptyString => Ok acc
  | String c s' =>
      match digit_value c with
      | Some d => digits_value (acc * 10 + d) s'
      | None => Err errBad
      end
  end.

(** atoi of package time: an optional sign, then digits. *)
Definition atoi (s : string) : res Z :=
  match s with
  | String "-" s' => let? x := digits_value 0 s' in Ok (- x)
  | String "+" s' => digits_value 0 s'
  | _ => digits_value 0 s
  end.

Definition skip (c : Ascii.ascii) (s : string) : res string :=
  match s with
  | String c' s' => if bool_decide (c' = c) then Ok s' else Err errBad
  | EmptyString => Err errBad
  end.

(** getnum: two digits; one digit too when not [fixed]. *)
Definition getnum (s : string) (fixed : bool) : res (Z * string) :=
  match s with
  | EmptyString => Err errBad
  | String c1 s1 =>
      match digit_value c1 with
      | None => Err errBad
      | Some d1 =>
          match s1 with
          | EmptyString => if fixed then Err errBad else Ok (d1, s1)
          | String c2 s2 =>
              match digit_value c2 with
              | Some d2 => Ok (d1 * 10 + d2, s2)
              | None => if fixed then Err errBad else Ok (d1, s1)
              end
          end
      end
  end.

Definition parse_year (s : string) : res (Z * string) :=
  if (String.length s <? 4)%nat then Err errBad else
  match s with
  | String c _ =>
      match digit_value c with
      | None => Err errBad
      | Some _ => let? y := atoi (str_take 4 s) in Ok (y, str_drop 4 s)
      end
  | EmptyString => Err errBad
  end.

(** parseNanoseconds over a point and [k] digits. *)
Definition parse_fraction (k : nat) (s : string) : res (Z * string) :=
  if (String.length s <? S k)%nat then Err errBad else
  match s with
  | String c s' =>
      if negb (bool_decide (c = "."%char) || bool_decide (c = ","%char)) then Err errBad else
      let? ns := atoi (str_take k s') in
      if ns <? 0 then Err (errRange "fractional second")
      else Ok (ns * 10 ^ (9 - Z.of_nat k), str_drop k s')
  | EmptyString => Err errBad
  end.

(** time.Parse with the layout "2006-01-02T15:04:05." followed by [k] zeros
    and a literal Z. *)
Definition parse_layout (k : nat) (value : string) : res time :=
  let? (year, value) := parse_year value in
  let? value := skip "-" value in
  let? (month, value) := getnum value true in
  if (month <=? 0) || (12 <? month) then Err (errRange "month") else
  let? value := skip "-" value in
  let? (day, value) := getnum value true in
  let? value := skip "T" value in
  let? (hour, value) := getnum value false in
  if (hour <? 0) || (24 <=? hour) then Err (errRange "hour") else
  let? value := skip ":" value in
  let? (min, value) := getnum value true in
  if (min <? 0) || (60 <=? min) then Err (errRange "minute") else
  let? value := skip ":" value in
  let? (sec, value) := getnum value true in
  if (sec <? 0) || (60 <=? sec) then Err (errRange "second") else
  let? (nsec, value) := parse_fraction k value in
  let? value := skip "Z" value in
  if negb (bool_decide (value = EmptyString)) then Err (ErrorsNew "parsing time: extra text") else
  if (day <? 1) || (daysIn (isLeap year) month <? day) then Err (errRange "day") else
  Ok (days_of year month day * day_ns + (hour * 3600 + min * 60 + sec) * Second + nsec).

Definition parseTS (s : string) : res time := parse_layout 9 s.

(** ** The calendar is a bijection that keeps order *)

Lemma year_parts a b c n :
  0 <= b <= 3 -> 0 <= c <= 24 -> 0 <= n <= 3 ->
  let p := 400 * a + 100 * b + 4 * c + n in
  p / 4 = 100 * a + 25 * b + c /\ p / 100 = 4 * a + b /\ p / 400 = a.
Proof.
  intros Hb Hc Hn p. subst p. repeat split; symmetry.
  - apply Z.div_unique with (r := n); lia.
  - apply Z.div_unique with (r := 4 * c + n); lia.
  - apply Z.div_unique with (r := 100 * b + 4 * c + n); lia.
Qed.

Lemma isLeap_parts a b c n :
  0 <= b <= 3 -> 0 <= c <= 24 -> 0 <= n <= 3 ->
  isLeap (400 * a + 100 * b + 4 * c + n + 1) = (n =? 3) && ((c <? 24) || (b =? 3)).
Proof.
  intros Hb Hc Hn. unfold isLeap.
  set (y := 400 * a + 100 * b + 4 * c + n + 1).
  destruct (Z.eqb_spec n 3) as [->|Hn3]; simpl.
  - assert (y mod 4 = 0) as -> by (subst y; symmetry; apply Z.mod_unique with (q := 100 * a + 25 * b + c + 1); lia).
    destruct (Z.ltb_spec c 24) as [Hc24|Hc24]; simpl.
    + assert (y mod 100 = 4 * c + 4) as -> by (subst y; symmetry; apply Z.mod_unique with (q := 4 * a + b); lia).
      destruct (Z.eqb_spec (4 * c + 4) 0); [lia|done].
    + assert (c = 24) as -> by lia.
      assert (y mod 100 = 0) as -> by (subst y; symmetry; apply Z.mod_unique with (q := 4 * a + b + 1); lia).
      simpl. destruct (Z.eqb_spec b 3) as [->|Hb3].
      * assert (y mod 400 = 0) as -> by (subst y; symmetry; apply Z.mod_unique with (q := a + 1); lia). done.
      * assert (y mod 400 = 100 * b + 100) as -> by (subst y; symmetry; apply Z.mod_unique with (q := a); lia).
        apply Z.eqb_neq. lia.
  - assert (y mod 4 = n + 1) as -> by (subst y; symmetry; apply Z.mod_unique with (q := 100 * a + 25 * b + c); lia).
    destruct (Z.eqb_spec (n + 1) 0); [lia|done].
Qed.

Lemma year_yday_spec days y yd :
  year_yday days = (y, yd) ->
  days = days_before_year y + yd /\ 0 <= yd < 365 + (if isLeap y then 1 else 0).
Proof.
  unfold year_yday. cbv zeta.
  pose proof (Z.div_mod days 146097). pose proof (Z.mod_pos_bound days 146097).
  set (a := days / 146097) in *. set (d1 := days mod 146097) in *.
  pose proof (Z.div_mod d1 36524). pose proof (Z.mod_pos_bound d1 36524).
  set (b := Z.min 3 (d1 / 36524)) in *. set (d2 := d1 - 36524 * b) in *.
  assert (0 <= b <= 3 /\ 0 <= d2 <= 36524 /\ (b < 3 -> d2 < 36524)) as (Hb & Hd2 & Hd2') by lia.
  pose proof (Z.div_mod d2 1461). pose proof (Z.mod_pos_bound d2 1461).
  set (c := d2 / 1461) in *. set (d3 := d2 - 1461 * c) in *.
  assert (0 <= c <= 24 /\ 0 <= d3 < 1461) as (Hc & Hd3) by lia.
  pose proof (Z.div_mod d3 365). pose proof (Z.mod_pos_bound d3 365).
  set (n := Z.min 3 (d3 / 365)) in *.
  assert (0 <= n <= 3) as Hn by lia.
  intros [= <- <-]. rewrite isLeap_parts by done. unfold days_before_year.
  replace (400 * a + 100 * b + 4 * c + n + 1 - 1) with (400 * a + 100 * b + 4 * c + n) by lia.
  destruct (year_parts a b c n Hb Hc Hn) as (-> & -> & ->).
  split; [lia|]. destruct (Z.eqb_spec n 3), (Z.ltb_spec c 24), (Z.eqb_spec b 3); simpl; lia.
Qed.

Lemma days_before_year_next y :
  days_before_year (y + 1) = days_before_year y + 365 + (if isLeap y then 1 else 0).
Proof.
  set (p := y - 1). set (a := p / 400).
  assert (exists b c n, p = 400 * a + 100 * b + 4 * c + n /\ 0 <= b <= 3 /\ 0 <= c <= 24 /\ 0 <= n <= 3)
    as (b & c & n & Hp & Hb & Hc & Hn).
  { pose proof (Z.div_mod p 400). pose proof (Z.mod_pos_bound p 400). fold a in H.
    set (r := p mod 400) in *.
    pose proof (Z.div_mod r 100). pose proof (Z.mod_pos_bound r 100).
    pose proof (Z.div_mod (r mod 100) 4). pose proof (Z.mod_pos_bound (r mod 100) 4).
    exists (r / 100), (r mod 100 / 4), ((r mod 100) mod 4). lia. }
  replace y with (400 * a + 100 * b + 4 * c + n + 1) by lia.
  rewrite isLeap_parts by done. unfold days_before_year.
  replace (400 * a + 100 * b + 4 * c + n + 1 - 1) with (400 * a + 100 * b + 4 * c + n) by lia.
  replace (400 * a + 100 * b + 4 * c + n + 1 + 1 - 1) with (400 * a + 100 * b + 4 * c + n + 1) by lia.
  destruct (year_parts a b c n Hb Hc Hn) as (-> & -> & ->).
  destruct (Z.eqb_spec n 3) as [->|]; [|destruct (year_parts a b c (n + 1)) as (E1 & E2 & E3); try lia;
    rewrite Z.add_assoc in *; rewrite E1, E2, E3; simpl; lia].
  destruct (Z.ltb_spec c 24); [destruct (year_parts a b (c + 1) 0) as (E1 & E2 & E3); try lia;
    replace (400 * a + 100 * b + 4 * (c + 1) + 0) with (400 * a + 100 * b + 4 * c + 3 + 1) in * by lia;
    rewrite E1, E2, E3; simpl; lia|].
  assert (c = 24) as -> by lia. destruct (Z.eqb_spec b 3) as [->|].
  - destruct (year_parts (a + 1) 0 0 0) as (E1 & E2 & E3); try lia.
    replace (400 * (a + 1) + 100 * 0 + 4 * 0 + 0) with (400 * a + 100 * 3 + 4 * 24 + 3 + 1) in * by lia.
    rewrite E1, E2, E3. simpl. lia.
  - destruct (year_parts a (b + 1) 0 0) as (E1 & E2 & E3); try lia.
    replace (400 * a + 100 * (b + 1) + 4 * 0 + 0) with (400 * a + 100 * b + 4 * 24 + 3 + 1) in * by lia.
    rewrite E1, E2, E3. simpl. lia.
Qed.

(** A bounded statement over integers, checked by enumeration. *)
Lemma forall_below (n : nat) (P : Z -> bool) :
  forallb (fun i => P (Z.of_nat i)) (seq 0 n) = true -> forall x, 0 <= x < Z.of_nat n -> P x = true.
Proof.
  rewrite forallb_forall. intros H x Hx. specialize (H (Z.to_nat x)).
  rewrite Z2Nat.id in H by lia. apply H, in_seq. lia.
Qed.

Lemma month_day_spec leap yd m d :
  0 <= yd < 365 + (if leap : bool then 1 else 0) -> month_day leap yd = (m, d) ->
  1 <= m <= 12 /\ 1 <= d <= daysIn leap m /\ daysBefore leap m + (d - 1) = yd.
Proof.
  intros Hyd E.
  pose (P := fun yd => let '(m, d) := month_day leap yd in
    (365 + (if leap then 1 else 0) <=? yd) ||
    ((1 <=? m) && (m <=? 12) && (1 <=? d) && (d <=? daysIn leap m) && (daysBefore leap m + (d - 1) =? yd))).
  assert (P yd = true) as HP by (apply (forall_below 366 P); [by destruct leap; vm_compute|destruct leap; lia]).
  unfold P in HP. rewrite E in HP. apply orb_true_iff in HP as [HP|HP]; [lia|].
  rewrite !andb_true_iff, !Z.leb_le, Z.eqb_eq in HP. lia.
Qed.

Lemma daysBefore_mono leap m m' :
  1 <= m -> m <= m' -> m' <= 13 -> daysBefore leap m <= daysBefore leap m'.
Proof.
  intros Hm Hmm Hm'.
  pose (P := fun m => forallb (fun k => daysBefore leap m <=? daysBefore leap (Z.min 13 (m + Z.of_nat k))) (seq 0 13)).
  assert (P m = true) as HP.
  { destruct (Z.eqb_spec m 0); [lia|].
    pose proof (forall_below 14 (fun m => (m =? 0) || P m)) as HF. simpl in HF.
    specialize (HF ltac:(by destruct leap; vm_compute) m ltac:(lia)).
    apply orb_true_iff in HF as [HF%Z.eqb_eq|HF]; [lia|done]. }
  unfold P in HP. rewrite forallb_forall in HP. specialize (HP (Z.to_nat (m' - m))).
  rewrite in_seq, Z.leb_le, Z2Nat.id, Z.min_r in HP by lia.
  replace (m + (m' - m)) with m' in HP by lia. apply HP. lia.
Qed.

Lemma daysBefore_13 leap : daysBefore leap 13 = 365 + (if leap : bool then 1 else 0).
Proof. by destruct leap. Qed.

Lemma daysBefore_1 leap : daysBefore leap 1 = 0.
Proof. by destruct leap. Qed.

Definition valid_date (y m d : Z) : Prop := 1 <= m <= 12 /\ 1 <= d <= daysIn (isLeap y) m.

Lemma civil_spec days y m d :
  civil days = (y, m, d) -> days_of y m d = days /\ valid_date y m d.
Proof.
  unfold civil. destruct (year_yday (days + unix_days)) as [y' yd] eqn:Ey.
  destruct (month_day (isLeap y') yd) as [m' d'] eqn:Em. intros [= -> -> ->].
  apply year_yday_spec in Ey as [Hd Hyd]. apply month_day_spec in Em as (Hm & Hdd & Hb); [|done].
  unfold days_of, valid_date. split; [lia|done].
Qed.

Lemma days_before_year_mono y1 y2 : y1 <= y2 -> days_before_year y1 <= days_before_year y2.
Proof.
  intros H. replace y2 with (y1 + Z.of_nat (Z.to_nat (y2 - y1))) by lia.
  induction (Z.to_nat (y2 - y1)) as [|k IH]; [by rewrite Z.add_0_r|].
  rewrite Nat2Z.inj_succ. replace (y1 + Z.succ (Z.of_nat k)) with (y1 + Z.of_nat k + 1) by lia.
  rewrite days_before_year_next. case_goal; lia.
Qed.

Lemma day_in_month y m d :
  valid_date y m d -> daysBefore (isLeap y) m <= daysBefore (isLeap y) m + (d - 1) < daysBefore (isLeap y) (m + 1).
Proof. unfold valid_date, daysIn. lia. Qed.

(** An earlier calendar date is an earlier day. *)
Lemma days_of_year_mono y1 m1 d1 y2 m2 d2 :
  valid_date y1 m1 d1 -> valid_date y2 m2 d2 -> y1 < y2 -> days_of y1 m1 d1 < days_of y2 m2 d2.
Proof.
  intros H1 H2 Hy. pose proof (day_in_month _ _ _ H1) as B1. pose proof (day_in_month _ _ _ H2) as B2.
  destruct H1 as [Hm1 _], H2 as [Hm2 _].
  pose proof (daysBefore_mono (isLeap y1) (m1 + 1) 13). rewrite daysBefore_13 in *.
  pose proof (daysBefore_mono (isLeap y2) 1 m2). rewrite daysBefore_1 in *.
  pose proof (days_before_year_mono (y1 + 1) y2). rewrite days_before_year_next in *.
  unfold days_of. lia.
Qed.

Lemma days_of_month_mono y m1 d1 m2 d2 :
  valid_date y m1 d1 -> valid_date y m2 d2 -> m1 < m2 -> days_of y m1 d1 < days_of y m2 d2.
Proof.
  intros H1 H2 Hm. pose proof (day_in_month _ _ _ H1) as B1. pose proof (day_in_month _ _ _ H2) as B2.
  destruct H1 as [Hm1 _], H2 as [Hm2 _].
  pose proof (daysBefore_mono (isLeap y) (m1 + 1) m2). unfold days_of. lia.
Qed.

(** ** String order of zero-padded fields *)

Definition cmp_then (c k : comparison) : comparison := match c with Eq => k | _ => c end.

Lemma cmp_then_assoc a b c : cmp_then (cmp_then a b) c = cmp_then a (cmp_then b c).
Proof. by destruct a. Qed.

Lemma compare_split k x y :
  0 < k -> (x ?= y) = cmp_then (x / k ?= y / k) (x mod k ?= y mod k).
Proof.
  intros Hk. pose proof (Z.div_mod x k). pose proof (Z.div_mod y k).
  pose proof (Z.mod_pos_bound x k). pose proof (Z.mod_pos_bound y k).
  destruct (Z.compare_spec (x / k) (y / k)) as [E|E|E]; simpl.
  - destruct (Z.compare_spec (x mod k) (y mod k)) as [F|F|F]; rewrite E in *;
      [apply Z.compare_eq_iff|apply Z.compare_lt_iff|apply Z.compare_gt_iff]; lia.
  - apply Z.compare_lt_iff. nia.
  - apply Z.compare_gt_iff. nia.
Qed.

Lemma str_compare_app a1 a2 b1 b2 :
  String.length a1 = String.length a2 ->
  String.compare (a1 ++ b1)%string (a2 ++ b2)%string = cmp_then (String.compare a1 a2) (String.compare b1 b2).
Proof.
  revert a2; induction a1 as [|c1 a1 IH]; intros [|c2 a2]; simpl; try done.
  intros [= Hl]. change ((String c1 a1 ++ b1)%string) with (String c1 (a1 ++ b1)).
  destruct (Ascii.compare c1 c2); [by apply IH|done..].
Qed.

Lemma length_pad k x : String.length (pad k x) = k.
Proof. induction k; simpl; [done|by f_equal]. Qed.

Lemma N_of_digit d : 0 <= d <= 9 -> Ascii.N_of_ascii (digit d) = Z.to_N (48 + d).
Proof. intros H. unfold digit. apply Ascii.N_ascii_embedding. lia. Qed.

Lemma digit_compare a b : 0 <= a <= 9 -> 0 <= b <= 9 -> Ascii.compare (digit a) (digit b) = (a ?= b).
Proof.
  intros Ha Hb. unfold Ascii.compare. rewrite !N_of_digit by done.
  rewrite Z2N.inj_compare by lia. destruct (Z.compare_spec a b); simpl;
    [apply Z.compare_eq_iff|apply Z.compare_lt_iff|apply Z.compare_gt_iff]; lia.
Qed.

Lemma pad_compare_mod k x y :
  String.compare (pad k x) (pad k y) = (x mod 10 ^ Z.of_nat k ?= y mod 10 ^ Z.of_nat k).
Proof.
  induction k as [|k IH]; simpl pad; [by rewrite !Z.mod_1_r|].
  pose proof (Z.mod_pos_bound (x / 10 ^ Z.of_nat k) 10). pose proof (Z.mod_pos_bound (y / 10 ^ Z.of_nat k) 10).
  assert (0 < 10 ^ Z.of_nat k) as Hp by (apply Z.pow_pos_nonneg; lia).
  rewrite (compare_split (10 ^ Z.of_nat k)) by done.
  assert (forall z, z mod 10 ^ Z.of_nat (S k) = z mod 10 ^ Z.of_nat k + 10 ^ Z.of_nat k * ((z / 10 ^ Z.of_nat k) mod 10)) as Hm.
  { intros z. rewrite Nat2Z.inj_succ, Z.pow_succ_r, (Z.mul_comm 10) by lia. apply Z.rem_mul_r; lia. }
  assert (forall z, z mod 10 ^ Z.of_nat (S k) / 10 ^ Z.of_nat k = (z / 10 ^ Z.of_nat k) mod 10) as Hq.
  { intros z. rewrite Hm, Z.mul_comm, Z.div_add by lia. rewrite Z.mod_div by lia. lia. }
  assert (forall z, (z mod 10 ^ Z.of_nat (S k)) mod 10 ^ Z.of_nat k = z mod 10 ^ Z.of_nat k) as Hr.
  { intros z. rewrite Hm, Z.mul_comm, Z.mod_add, Z.mod_mod by lia. done. }
  rewrite !Hq, !Hr, <- IH. simpl. rewrite digit_compare by lia.
  by destruct (_ mod 10 ?= _).
Qed.

Lemma pad_compare k x y :
  0 <= x < 10 ^ Z.of_nat k -> 0 <= y < 10 ^ Z.of_nat k -> String.compare (pad k x) (pad k y) = (x ?= y).
Proof. intros Hx Hy. rewrite pad_compare_mod, !Z.mod_small by lia. done. Qed.

Lemma appendInt_pad x w : 0 <= x < 10 ^ Z.of_nat w -> appendInt x w = pad w x.
Proof.
  intros Hx. unfold appendInt. destruct (Z.ltb_spec x 0); [lia|]. simpl.
  destruct (Z.ltb_spec x (10 ^ Z.of_nat w)); [done|lia].
Qed.

(** One fixed-width field and its separator. *)
Lemma field_compare k x y sep r1 r2 :
  0 <= x < 10 ^ Z.of_nat k -> 0 <= y < 10 ^ Z.of_nat k ->
  String.compare (appendInt x k ++ String sep r1)%string (appendInt y k ++ String sep r2)%string
  = cmp_then (x ?= y) (String.compare r1 r2).
Proof.
  intros Hx Hy. rewrite !appendInt_pad, str_compare_app, pad_compare by (done || by rewrite !length_pad).
  simpl. assert (Ascii.compare sep sep = Eq) as -> by (unfold Ascii.compare; by rewrite N.compare_refl). done.
Qed.

(** ** Instants the layout represents: years 0 to 9999 *)

Definition in_layout (t : time) : Prop :=
  days_of 0 1 1 * day_ns <= t < days_of 10000 1 1 * day_ns.

Record fields := MkFields { f_y : Z; f_m : Z; f_d : Z; f_h : Z; f_min : Z; f_s : Z; f_ns : Z }.

Definition fields_of (t : time) : fields :=
  let '(y, m, d) := civil (t / day_ns) in
  let s := t mod day_ns / Second in
  MkFields y m d (s / 3600) (s / 60 mod 60) (s mod 60) (t mod day_ns mod Second).

Definition render (f : fields) : string :=
  (appendInt (f_y f) 4 ++ String "-" (appendInt (f_m f) 2 ++ String "-" (appendInt (f_d f) 2 ++ String "T"
   (appendInt (f_h f) 2 ++ String ":" (appendInt (f_min f) 2 ++ String ":" (appendInt (f_s f) 2 ++ String "."
   (pad 9 (f_ns f) ++ String "Z" EmptyString)))))))%string.

Record fields_ok (f : fields) : Prop := {
  ok_y : 0 <= f_y f < 10 ^ 4;
  ok_date : valid_date (f_y f) (f_m f) (f_d f);
  ok_d : 0 <= f_d f < 10 ^ 2;
  ok_h : 0 <= f_h f < 24;
  ok_min : 0 <= f_min f < 60;
  ok_s : 0 <= f_s f < 60;
  ok_ns : 0 <= f_ns f < 10 ^ 9
}.

Definition instant (f : fields) : time :=
  days_of (f_y f) (f_m f) (f_d f) * day_ns + (f_h f * 3600 + f_min f * 60 + f_s f) * Second + f_ns f.

Lemma formatTS_render t : formatTS t = render (fields_of t).
Proof. unfold formatTS, render, fields_of. destruct (civil (t / day_ns)) as [[y m] d]. reflexivity. Qed.

Lemma daysIn_le leap m : 1 <= m <= 12 -> daysIn leap m <= 31.
Proof.
  intros Hm. pose proof (forall_below 13 (fun m => (m =? 0) || (daysIn leap m <=? 31))) as HF.
  specialize (HF ltac:(by destruct leap; vm_compute) m ltac:(lia)).
  apply orb_true_iff in HF as [HF%Z.eqb_eq|HF%Z.leb_le]; lia.
Qed.

Lemma clock_bounds t :
  0 <= t mod day_ns / Second < 86400 /\ 0 <= t mod day_ns mod Second < Second.
Proof.
  pose proof (Z.mod_pos_bound t day_ns ltac:(done)). pose proof (Z.mod_pos_bound (t mod day_ns) Second ltac:(done)).
  split; [|done]. split; [apply Z.div_pos; [lia|done]|]. apply Z.div_lt_upper_bound; [done|].
  unfold day_ns, Second in *. lia.
Qed.

Lemma fields_of_ok t : in_layout t -> fields_ok (fields_of t).
Proof.
  intros [Hlo Hhi]. unfold fields_of. destruct (civil (t / day_ns)) as [[y m] d] eqn:E.
  apply civil_spec in E as [Hd Hv].
  assert (days_of 0 1 1 <= t / day_ns < days_of 10000 1 1) as Hdays
    by (split; [apply Z.div_le_lower_bound|apply Z.div_lt_upper_bound]; rewrite ?(Z.mul_comm day_ns); done).
  rewrite <- Hd in Hdays.
  assert (valid_date 0 1 1 /\ valid_date 10000 1 1) as [V0 V1] by (unfold valid_date; vm_compute; intuition congruence).
  assert (0 <= y < 10 ^ 4) as Hy.
  { split; [destruct (Z.ltb_spec y 0) as [Hy|]; [|done]; pose proof (days_of_year_mono _ _ _ _ _ _ Hv V0 Hy); lia|].
    destruct (Z.ltb_spec y 10000) as [|Hy]; [done|].
    destruct (Z.eqb_spec y 10000) as [->|Hne]; [|assert (10000 < y) as Hlt by lia;
      pose proof (days_of_year_mono _ _ _ _ _ _ V1 Hv Hlt); lia].
    pose proof (day_in_month _ _ _ Hv) as B. destruct Hv as [Hm _].
    pose proof (daysBefore_mono (isLeap 10000) 1 m). rewrite daysBefore_1 in *.
    unfold days_of in Hdays. rewrite !daysBefore_1 in Hdays. lia. }
  destruct (clock_bounds t) as [Hs Hns]. pose proof Hv as [Hm Hdd]. pose proof (daysIn_le (isLeap y) m Hm).
  split; simpl; try done; try lia.
  - split; [apply Z.div_pos; lia|]. apply Z.div_lt_upper_bound; lia.
  - apply Z.mod_pos_bound. lia.
  - apply Z.mod_pos_bound. lia.
Qed.

Lemma clock_split s : s / 3600 * 3600 + s / 60 mod 60 * 60 + s mod 60 = s.
Proof.
  pose proof (Z.div_mod s 60 ltac:(done)) as H1. pose proof (Z.div_mod (s / 60) 60 ltac:(done)) as H2.
  rewrite Z.div_div in H2 by done. change (60 * 60) with 3600 in H2. lia.
Qed.

Lemma instant_fields_of t : instant (fields_of t) = t.
Proof.
  unfold instant, fields_of. destruct (civil (t / day_ns)) as [[y m] d] eqn:E.
  apply civil_spec in E as [Hd _]. simpl. rewrite Hd.
  set (s := t mod day_ns / Second).
  assert (s / 3600 * 3600 + s / 60 mod 60 * 60 + s mod 60 = s) as ->.
  { apply clock_split. }
  pose proof (Z.div_mod t day_ns ltac:(done)). pose proof (Z.div_mod (t mod day_ns) Second ltac:(done)).
  fold s in H0. lia.
Qed.

(** ** Order *)

Lemma render_compare f g :
  fields_ok f -> fields_ok g ->
  String.compare (render f) (render g) =
  cmp_then (f_y f ?= f_y g) (cmp_then (f_m f ?= f_m g) (cmp_then (f_d f ?= f_d g)
   (cmp_then (f_h f ?= f_h g) (cmp_then (f_min f ?= f_min g) (cmp_then (f_s f ?= f_s g) (f_ns f ?= f_ns g)))))).
Proof.
  intros [Fy [Fm _] Fd Fh Fi Fs Fn] [Gy [Gm _] Gd Gh Gi Gs Gn]. unfold render.
  rewrite !field_compare by (change (10 ^ Z.of_nat 2) with 100; change (10 ^ Z.of_nat 4) with (10 ^ 4); lia).
  rewrite str_compare_app, pad_compare by (done || by rewrite !length_pad).
  assert (String.compare "Z" "Z" = Eq) as -> by done. by destruct (f_ns f ?= f_ns g).
Qed.

Lemma days_of_compare y1 m1 d1 y2 m2 d2 :
  valid_date y1 m1 d1 -> valid_date y2 m2 d2 ->
  (days_of y1 m1 d1 ?= days_of y2 m2 d2) = cmp_then (y1 ?= y2) (cmp_then (m1 ?= m2) (d1 ?= d2)).
Proof.
  intros V1 V2. destruct (Z.compare_spec y1 y2) as [->|Hy|Hy]; simpl.
  - destruct (Z.compare_spec m1 m2) as [->|Hm|Hm]; simpl.
    + unfold days_of. destruct (Z.compare_spec d1 d2);
        [apply Z.compare_eq_iff|apply Z.compare_lt_iff|apply Z.compare_gt_iff]; lia.
    + by apply Z.compare_lt_iff, days_of_month_mono.
    + by apply Z.compare_gt_iff, days_of_month_mono.
  - by apply Z.compare_lt_iff, days_of_year_mono.
  - by apply Z.compare_gt_iff, days_of_year_mono.
Qed.

Lemma formatTS_compare t1 t2 :
  in_layout t1 -> in_layout t2 -> String.compare (formatTS t1) (formatTS t2) = (t1 ?= t2).
Proof.
  intros H1 H2. rewrite !formatTS_render, render_compare by (by apply fields_of_ok).
  apply fields_of_ok in H1 as [_ V1 _ _ _ _ _], H2 as [_ V2 _ _ _ _ _]. unfold fields_of in *.
  rewrite (compare_split day_ns t1 t2) by done.
  destruct (civil (t1 / day_ns)) as [[y1 m1] d1] eqn:E1, (civil (t2 / day_ns)) as [[y2 m2] d2] eqn:E2.
  apply civil_spec in E1 as [<- _], E2 as [<- _]. simpl in *.
  rewrite days_of_compare, !cmp_then_assoc by done. do 3 f_equal.
  rewrite (compare_split Second (t1 mod day_ns) (t2 mod day_ns)) by done.
  set (s1 := t1 mod day_ns / Second). set (s2 := t2 mod day_ns / Second).
  rewrite (compare_split 60 s1 s2), !cmp_then_assoc by done.
  rewrite (compare_split 60 (s1 / 60) (s2 / 60)), !cmp_then_assoc by done.
  rewrite !Z.div_div by done. done.
Qed.

(** ** Parsing what was formatted *)

Lemma digit_cases d : 0 <= d <= 9 -> d ∈ [0; 1; 2; 3; 4; 5; 6; 7; 8; 9].
Proof. intros H. rewrite !elem_of_cons. lia. Qed.

Lemma digit_value_digit d : 0 <= d <= 9 -> digit_value (digit d) = Some d.
Proof.
  intros H%digit_cases. repeat (apply elem_of_cons in H as [->|H]; [reflexivity|]). by apply not_elem_of_nil in H.
Qed.

Lemma atoi_digits d s : 0 <= d <= 9 -> atoi (String (digit d) s) = digits_value 0 (String (digit d) s).
Proof.
  intros H%digit_cases. repeat (apply elem_of_cons in H as [->|H]; [reflexivity|]). by apply not_elem_of_nil in H.
Qed.

Lemma mod10_digit z : 0 <= z mod 10 <= 9.
Proof. pose proof (Z.mod_pos_bound z 10). lia. Qed.

Lemma digits_value_pad k x acc :
  0 <= x -> digits_value acc (pad k x) = Ok (acc * 10 ^ Z.of_nat k + x mod 10 ^ Z.of_nat k).
Proof.
  intros Hx. revert acc; induction k as [|k IH]; intros acc; simpl pad; simpl digits_value.
  - rewrite Z.mod_1_r, Z.mul_1_r, Z.add_0_r. done.
  - rewrite digit_value_digit, IH by apply mod10_digit. f_equal.
    rewrite Nat2Z.inj_succ, Z.pow_succ_r by lia.
    rewrite (Z.mul_comm 10 (10 ^ Z.of_nat k)), Z.rem_mul_r by lia. ring.
Qed.

Lemma atoi_pad k x :
  (0 < k)%nat -> 0 <= x < 10 ^ Z.of_nat k -> atoi (pad k x) = Ok x.
Proof.
  intros Hk Hx. destruct k as [|k]; [lia|]. simpl pad. rewrite atoi_digits by apply mod10_digit.
  change (String _ (pad k x)) with (pad (S k) x). rewrite digits_value_pad, Z.mod_small by lia. f_equal.
Qed.

Lemma str_take_pad k x r : str_take k (pad k x ++ r)%string = pad k x.
Proof. rewrite <- (length_pad k x) at 1. apply str_take_app. Qed.

Lemma str_drop_pad k x r : str_drop k (pad k x ++ r)%string = r.
Proof.
  rewrite <- (length_pad k x) at 1. rewrite <- (Nat.add_0_r (String.length _)), str_drop_app. by destruct r.
Qed.

Lemma skip_here c r : skip c (String c r) = Ok r.
Proof. unfold skip. by rewrite bool_decide_eq_true_2. Qed.

Lemma getnum_pad x r fixed : 0 <= x < 100 -> getnum (pad 2 x ++ r)%string fixed = Ok (x, r).
Proof.
  intros Hx.
  change (getnum (String (digit (x / 10 mod 10)) (String (digit (x / 1 mod 10)) r)) fixed = Ok (x, r)).
  simpl. rewrite !digit_value_digit by apply mod10_digit. do 2 f_equal.
  rewrite Z.div_1_r, (Z.mod_small (x / 10)).
  - pose proof (Z.div_mod x 10). lia.
  - split; [apply Z.div_pos; lia|apply Z.div_lt_upper_bound; lia].
Qed.

Lemma parse_year_pad x r : 0 <= x < 10 ^ 4 -> parse_year (pad 4 x ++ r)%string = Ok (x, r).
Proof.
  intros Hx. unfold parse_year. rewrite str_length_app, length_pad. simpl Nat.ltb. cbn iota.
  change (pad 4 x ++ r)%string
    with (String (digit (x / 10 ^ 3 mod 10)) (pad 3 x ++ r)%string) at 1. cbn iota beta.
  rewrite digit_value_digit by apply mod10_digit.
  rewrite (str_take_pad 4), (str_drop_pad 4), atoi_pad by (simpl; lia). done.
Qed.

Lemma parse_fraction_pad k x r :
  (0 < k)%nat -> 0 <= x < 10 ^ Z.of_nat k ->
  parse_fraction k (String "." (pad k x ++ r)) = Ok (x * 10 ^ (9 - Z.of_nat k), r).
Proof.
  intros Hk Hx. unfold parse_fraction.
  assert ((String.length (String "." (pad k x ++ r)) <? S k)%nat = false) as ->.
  { apply Nat.ltb_ge. simpl. rewrite str_length_app, length_pad. lia. }
  simpl. rewrite str_take_pad, str_drop_pad, atoi_pad by done. simpl.
  destruct (Z.ltb_spec x 0); [lia|done].
Qed.

Lemma out_of_range_false lo hi x : lo <= x < hi -> (x <? lo) || (hi <=? x) = false.
Proof. intros H. apply orb_false_iff. rewrite Z.ltb_ge, Z.leb_gt. lia. Qed.

Lemma parseTS_render f : fields_ok f -> parseTS (render f) = Ok (instant f).
Proof.
  intros [Fy [Fm FD] Fd Fh Fi Fs Fn]. unfold parseTS, parse_layout, render.
  rewrite !appendInt_pad by (change (10 ^ Z.of_nat 2) with 100; change (10 ^ Z.of_nat 4) with (10 ^ 4); lia).
  rewrite parse_year_pad by lia. cbn [result_bind]. rewrite skip_here. cbn [result_bind].
  rewrite getnum_pad by lia. cbn [result_bind].
  replace ((f_m f <=? 0) || (12 <? f_m f)) with false by (symmetry; apply orb_false_iff; rewrite Z.leb_gt, Z.ltb_ge; lia).
  do 4 (rewrite ?out_of_range_false by lia; rewrite skip_here; cbn [result_bind];
        rewrite getnum_pad by lia; cbn [result_bind]).
  rewrite out_of_range_false, parse_fraction_pad by (lia || done). cbn [result_bind].
  rewrite skip_here. cbn [result_bind]. rewrite bool_decide_eq_true_2 by done. simpl negb. cbn iota.
  replace ((f_d f <? 1) || (daysIn (isLeap (f_y f)) (f_m f) <? f_d f)) with false
    by (symmetry; apply orb_false_iff; rewrite !Z.ltb_ge; lia).
  unfold instant. change (10 ^ (9 - Z.of_nat 9)) with 1. by rewrite Z.mul_1_r.
Qed.

Lemma parseTS_formatTS t : in_layout t -> parseTS (formatTS t) = Ok t.
Proof.
  intros H. rewrite formatTS_render, parseTS_render by (by apply fields_of_ok). by rewrite instant_fields_of.
Qed.

Lemma formatTS_leb t1 t2 :
  in_layout t1 -> in_layout t2 -> String.leb (formatTS t1) (formatTS t2) = (t1 <=? t2).
Proof. intros H1 H2. unfold String.leb, Z.leb. by rewrite formatTS_compare. Qed.

(** ** Properties *)

(** C24: timestamp columns lose nothing and sort: for every instant in the years 0
    to 9999, parsing the formatted column returns exactly the instant (to the
    nanosecond), and comparing two formatted columns as strings gives the
    chronological order, the fact the recorded_at <= ? query relies on. *)
Theorem timestamp_columns t1 t2 :
  in_layout t1 -> in_layout t2 ->
  parseTS (formatTS t1) = Ok t1
  /\ String.compare (formatTS t1) (formatTS t2) = (t1 ?= t2).
Proof. intros H1 H2. split; [by apply parseTS_formatTS|by apply formatTS_compare]. Qed.

(** 2026-03-03T10:00:02.000001Z and one nanosecond earlier, across a trailing
    zero that a trimmed layout would have mis-sorted. *)
Lemma timestamp_columns_witness :
  formatTS 1772532002000001000 = "2026-03-03T10:00:02.000001000Z"
  /\ parseTS "2026-03-03T10:00:02.000001000Z" = Ok 1772532002000001000
  /\ String.compare (formatTS 1772532002000001000) (formatTS 1772532002000000999) = Gt.
Proof.
  destruct (timestamp_columns 1772532002000001000 1772532002000000999) as [HP HC];
    [split; by vm_compute|split; by vm_compute|].
  split; [by vm_compute|]. split; [|exact HC].
  change "2026-03-03T10:00:02.000001000Z"%string with (formatTS 1772532002000001000). exact HP.
Defined.
