(* ===== verification/Effect.v ===== *)
(** * A state-and-error monad

    The effectful Go code of the repository is straight-line code that threads
    a world (a database, a set of connected services) and returns early on a
    non-nil error.  [SM W A] is such a computation over the world [W]. *)
From S2P Require Import Prelude Es.

Section Monad.
Context {W : Type}.

Definition SM (A : Type) : Type := W -> res A * W.

Definition ret {A} (a : A) : SM A := fun w => (Ok a, w).
Definition throw {A} (e : error) : SM A := fun w => (Err e, w).
Definition lift {A} (r : res A) : SM A := fun w => (r, w).

Definition bind {A B} (m : SM A) (k : A -> SM B) : SM B := fun w =>
  match m w with
  | (Ok a, w') => k a w'
  | (Err e, w') => (Err e, w')
  end.

(** [if err := m; err != nil { return f(err) }]. *)
Definition catch {A} (m : SM A) (h : error -> SM A) : SM A := fun w =>
  match m w with
  | (Ok a, w') => (Ok a, w')
  | (Err e, w') => h e w'
  end.

(** [r, err := m], both results kept for the code that follows. *)
Definition attempt {A} (m : SM A) : SM (res A) := fun w =>
  let '(r, w') := m w in (Ok r, w').

(** [for _, x := range l { if err := f(x); err != nil { return err } }]. *)
Fixpoint forM {A} (f : A -> SM unit) (l : list A) : SM unit :=
  match l with
  | [] => ret tt
  | x :: l' => bind (f x) (fun _ => forM f l')
  end.

Lemma bind_Ok {A B} (m : SM A) (k : A -> SM B) w b w' :
  bind m k w = (Ok b, w') <-> exists a w1, m w = (Ok a, w1) /\ k a w1 = (Ok b, w').
Proof.
  unfold bind. destruct (m w) as [[a|e] w1]; split; try done.
  - eauto.
  - intros (? & ? & [= <- <-] & ?). done.
  - intros (? & ? & ? & ?). done.
Qed.

Lemma bind_Err {A B} (m : SM A) (k : A -> SM B) w e w' :
  bind m k w = (Err e, w') <->
  m w = (Err e, w') \/ exists a w1, m w = (Ok a, w1) /\ k a w1 = (Err e, w').
Proof.
  unfold bind. destruct (m w) as [[a|e'] w1]; split.
  - intros Hk. right. eauto.
  - intros [?|(? & ? & [= <- <-] & ?)]; done.
  - intros [= -> ->]. by left.
  - intros [[= -> ->]|(? & ? & ? & ?)]; done.
Qed.

Lemma catch_Ok {A} (m : SM A) (f : error -> error) w a w' :
  catch m (fun e => throw (f e)) w = (Ok a, w') <-> m w = (Ok a, w').
Proof. unfold catch, throw. destruct (m w) as [[b|e] w1]; split; congruence. Qed.

Lemma catch_Err {A} (m : SM A) (f : error -> error) w e' w' :
  catch m (fun e => throw (f e)) w = (Err e', w') <-> exists e, m w = (Err e, w') /\ e' = f e.
Proof.
  unfold catch, throw. destruct (m w) as [[b|e] w1]; split; try done.
  - intros (? & ? & ?). done.
  - intros [= <- <-]. eauto.
  - intros (? & [= -> ->] & ->). done.
Qed.

(** The two-way error mapping of the insert statements. *)
Lemma catch_if_Ok {A} (m : SM A) (b : error -> bool) (f g : error -> error) w a w' :
  catch m (fun e => if b e then throw (f e) else throw (g e)) w = (Ok a, w') -> m w = (Ok a, w').
Proof. unfold catch, throw. destruct (m w) as [[x|e] w1]; [done|]. by destruct (b e). Qed.

Lemma attempt_Ok {A} (m : SM A) w r w' : attempt m w = (Ok r, w') -> m w = (r, w').
Proof. unfold attempt. destruct (m w). congruence. Qed.
End Monad.
Arguments SM : clear implicits.

Notation "'let!' x := m 'in' k" := (bind m (fun x => k))
  (at level 10, x pattern, m at level 100, k at level 200) : go_scope.
Notation "m 'wrap' c" := (catch m (fun e => throw (Errorf c e)))
  (at level 60, c at level 9) : go_scope.

(** Split a successful monadic run into the runs of its steps. *)
Ltac run_ok H :=
  match type of H with
  | bind _ _ _ = (Ok _, _) =>
      let a := fresh "a" in let w := fresh "w" in let Hm := fresh "Hm" in
      apply bind_Ok in H as (a & w & Hm & H); cbv beta in H; run_ok Hm; run_ok H
  | catch _ (fun e => throw _) _ = (Ok _, _) => apply catch_Ok in H; run_ok H
  | catch _ (fun e => if _ then throw _ else throw _) _ = (Ok _, _) => apply catch_if_Ok in H; run_ok H
  | _ => idtac
  end.
