(* ===== verification/Store.v ===== *)
(** * The es.Store interface (src/es/store.go)

    Operations as a class, and the contract clients are proved against.  The
    contract is stated for a store shared with other writers: each call takes
    effect at one point between its start and its return, and any number of
    other appends may happen before and after that point. *)
From S2P Require Import Prelude Es Hash Chain Timestamp Effect.

(** The events of one stream, in log order. *)
Definition stream_of (sid : StreamID) (envs : list Envelope) : list Envelope :=
  filter (fun e => env_StreamID e = sid) envs.

Lemma stream_of_app sid l1 l2 : stream_of sid (l1 ++ l2) = stream_of sid l1 ++ stream_of sid l2.
Proof. apply filter_app. Qed.

Lemma stream_of_own sid news : Forall (fun e => env_StreamID e = sid) news -> stream_of sid news = news.
Proof. intros Hf. apply filter_true. by rewrite <- Forall_forall. Qed.

Lemma stream_of_prefix sid l1 l2 : l1 `prefix_of` l2 -> stream_of sid l1 `prefix_of` stream_of sid l2.
Proof. intros [k ->]. rewrite stream_of_app. by apply prefix_app_r. Qed.

(** A stream that has not grown has not changed. *)
Lemma prefix_same_length {A} (l1 l2 : list A) : l1 `prefix_of` l2 -> length l1 = length l2 -> l1 = l2.
Proof.
  intros [k ->]. rewrite length_app. intros Hl. destruct k; [by rewrite app_nil_r|simpl in Hl; lia].
Qed.

(** What the codec sees of an event. *)
Definition wire (e : Envelope) : EncodedEvent := MkEncodedEvent (TypeURL e) (SchemaVersion e) (Payload e).
Definition wire_data (ev : EventData) : EncodedEvent :=
  MkEncodedEvent (ed_TypeURL ev) (ed_SchemaVersion ev) (ed_Payload ev).

Class StoreOps (W : Type) := {
  st_Append : AppendParams -> SM W AppendResult;
  st_ReadStream : StreamID -> N -> N -> SM W (list Envelope);
  st_ReadStreamAsOf : StreamID -> time -> SM W (list Envelope)
}.

(** A committed batch, relative to the log it was appended to. *)
Record batch (p : AppendParams) (L : list Envelope) (r : AppendResult) : Prop := {
  bt_valid : Validate (ap_StreamID p) = Ok tt;
  bt_expected : ap_ExpectedVersion p = N.of_nat (length (stream_of (ap_StreamID p) L));
  bt_from : ar_FromVersion r = ap_ExpectedVersion p;
  bt_to : ar_ToVersion r = (ap_ExpectedVersion p + N.of_nat (length (ap_Events p)))%N;
  bt_sid : Forall (fun e => env_StreamID e = ap_StreamID p) (ar_Envelopes r);
  bt_wire : map wire (ar_Envelopes r) = map wire_data (ap_Events p)
}.

(** A domain time an append can carry: unset, or representable. *)
Definition occurred_ok (t : time) : Prop := t = zero_time \/ in_layout t.

(** [rep w L]: in world [w] the committed log is [L]. *)
Class StoreLaws (W : Type) `{StoreOps W} (rep : W -> list Envelope -> Prop) := {
  sl_versions : forall w L sid, rep w L -> numbered Version 1%N (stream_of sid L);
  sl_append : forall w L p r w', rep w L -> occurred_ok (ap_OccurredAt p) -> st_Append p w = (r, w') ->
    exists L1 L', L `prefix_of` L1 /\ rep w' L'
      /\ match r with
         | Ok a => batch p L1 a /\ (L1 ++ ar_Envelopes a) `prefix_of` L'
         | Err _ => L1 `prefix_of` L'
         end;
  sl_read : forall w L sid from to r w', rep w L -> st_ReadStream sid from to w = (r, w') ->
    exists L1 L', L `prefix_of` L1 /\ L1 `prefix_of` L' /\ rep w' L'
      /\ match r with
         | Ok l => Validate sid = Ok tt /\ l = filter (in_version_range from to) (stream_of sid L1)
         | Err e => Is e ErrStreamNotFound = true -> Validate sid = Ok tt /\ stream_of sid L1 = []
         end;
  sl_asof : forall w L sid t r w', rep w L -> in_layout t -> st_ReadStreamAsOf sid t w = (r, w') ->
    exists L1 L', L `prefix_of` L1 /\ L1 `prefix_of` L' /\ rep w' L'
      /\ match r with
         | Ok l => l = filter (fun e => RecordedAt e <= t)%Z (stream_of sid L1)
                   /\ exists k, l = take k (stream_of sid L1)
         | Err e => Is e ErrStreamNotFound = true -> Validate sid = Ok tt /\ stream_of sid L1 = []
         end
}.
