(* ===== verification/Sql.v ===== *)
(** * Effects: database calls, transactions, clock and id generation

    The SQLite backend is straight-line Go over database/sql.  Its effects are
    a state-and-error monad [M]: every database call may fail with an error
    chosen by the environment (a cancelled context, a full disk, a lost
    connection), every clock read and id draw asks the environment, and a
    transaction keeps its effects only if it commits.  The store holds one
    connection (db.SetMaxOpenConns(1)), so a transaction runs without
    interference.  A failed COMMIT keeps nothing. *)
From S2P Require Import Prelude Es Effect.

(** What the program cannot control. *)
Class Env := {
  fault : nat -> option error;   (** the n-th database call's failure, if any *)
  clock : nat -> time;           (** time.Now() *)
  fresh_id : nat -> UUID         (** uuid.NewV7() / uuid.New() *)
}.

Record world (D : Type) := MkWorld { w_db : D; w_tick : nat }.
Arguments MkWorld {D} _ _.
Arguments w_db {D} _.
Arguments w_tick {D} _.

Abbreviation M D := (SM (world D)).

Section Monad.
Context {D : Type} `{Env}.

Definition tick (w : world D) : world D := MkWorld (w_db w) (S (w_tick w)).

(** One statement against the database. *)
Definition exec {A} (f : D -> res (A * D)) : M D A := fun w =>
  match fault (w_tick w) with
  | Some e => (Err e, tick w)
  | None =>
      match f (w_db w) with
      | Err e => (Err e, tick w)
      | Ok (a, db') => (Ok a, MkWorld db' (S (w_tick w)))
      end
  end.

Definition query {A} (f : D -> res A) : M D A :=
  exec (fun db => let? a := f db in Ok (a, db)).

Definition Now : M D time := fun w => (Ok (clock (w_tick w)), tick w).
Definition newV7 : M D UUID := fun w => (Ok (fresh_id (w_tick w)), tick w).

(** BeginTx, the body with its deferred Rollback, Commit. *)
Definition transaction {A} (begin_ctx commit_ctx : string) (body : M D A) : M D A := fun w =>
  match query (fun _ => Ok tt) w with
  | (Err e, w1) => (Err (Errorf begin_ctx e), w1)
  | (Ok _, w1) =>
      match body w1 with
      | (Err e, w2) => (Err e, MkWorld (w_db w1) (w_tick w2))
      | (Ok a, w2) =>
          match query (fun _ => Ok tt) w2 with
          | (Err e, w3) => (Err (Errorf commit_ctx e), MkWorld (w_db w1) (w_tick w3))
          | (Ok _, w3) => (Ok a, w3)
          end
      end
  end.

End Monad.
(** ** Reasoning about computations *)

Section MonadLemmas.
Context {D : Type} `{Env}.

(** A computation that never changes the database. *)
Definition pure_db {A} (m : M D A) : Prop := forall w, w_db (m w).2 = w_db w.

Lemma pure_ret {A} (a : A) : pure_db (ret a).
Proof. by intros w. Qed.
Lemma pure_throw {A} e : pure_db (throw (A:=A) e).
Proof. by intros w. Qed.
Lemma pure_lift {A} (r : res A) : pure_db (lift r).
Proof. by intros w. Qed.
Lemma pure_Now : pure_db Now.
Proof. by intros w. Qed.
Lemma pure_newV7 : pure_db newV7.
Proof. by intros w. Qed.
Lemma pure_query {A} (f : D -> res A) : pure_db (query f).
Proof.
  intros w. unfold query, exec. destruct (fault _); [done|]. by destruct (f (w_db w)).
Qed.
Lemma pure_bind {A B} (m : M D A) (k : A -> M D B) :
  pure_db m -> (forall a, pure_db (k a)) -> pure_db (bind m k).
Proof.
  intros Hm Hk w. unfold bind. specialize (Hm w). destruct (m w) as [[a|e] w1]; simpl in *; [|done].
  by rewrite Hk.
Qed.
Lemma pure_catch {A} (m : M D A) h : pure_db m -> (forall e, pure_db (h e)) -> pure_db (catch m h).
Proof.
  intros Hm Hh w. unfold catch. specialize (Hm w). destruct (m w) as [[a|e] w1]; simpl in *; [done|].
  by rewrite Hh.
Qed.
Lemma pure_forM {A} (f : A -> M D unit) l : (forall x, pure_db (f x)) -> pure_db (forM f l).
Proof. intros Hf. induction l; simpl; [apply pure_ret|apply pure_bind; auto]. Qed.

(** A transaction that does not return a value leaves no trace. *)
Lemma transaction_Err {A} c1 c2 (body : M D A) w e w' :
  transaction c1 c2 body w = (Err e, w') -> w_db w' = w_db w.
Proof.
  unfold transaction, query, exec. destruct (fault (w_tick w)); [by intros [= <- <-]|]. simpl.
  destruct (body _) as [[a|e1] w2]; [|by intros [= <- <-]].
  destruct (fault (w_tick w2)); [by intros [= <- <-]|done].
Qed.

(** A computation whose failures leave the database as it was. *)
Definition err_keeps {A} (m : M D A) : Prop := forall w e w', m w = (Err e, w') -> w_db w' = w_db w.

Lemma err_keeps_pure {A} (m : M D A) : pure_db m -> err_keeps m.
Proof. intros Hm w e w' E. specialize (Hm w). by rewrite E in Hm. Qed.

Lemma err_keeps_transaction {A} c1 c2 (body : M D A) : err_keeps (transaction c1 c2 body).
Proof. intros w e w'. apply transaction_Err. Qed.

Lemma err_keeps_exec {A} (f : D -> res (A * D)) : err_keeps (exec f).
Proof.
  intros w e w'. unfold exec. destruct (fault _); [by intros [= <- <-]|].
  destruct (f _) as [[]|]; [done|by intros [= <- <-]].
Qed.

Lemma err_keeps_bind {A B} (m : M D A) (k : A -> M D B) :
  pure_db m -> (forall a, err_keeps (k a)) -> err_keeps (bind m k).
Proof.
  intros Hm Hk w e w' [E|(a & w1 & E1 & E2)]%bind_Err; specialize (Hm w).
  - by rewrite E in Hm.
  - rewrite E1 in Hm. simpl in Hm. rewrite <- Hm. by eapply Hk.
Qed.

Lemma err_keeps_wrap {A} (m : M D A) ctx : err_keeps m -> err_keeps (m wrap ctx).
Proof. intros Hm w e w' (e' & E & _)%catch_Err. by eapply Hm. Qed.

(** Environment queries only move forward. *)
Definition tick_mono {A} (m : M D A) : Prop := forall w, (w_tick w <= w_tick (m w).2)%nat.

Lemma tick_ret {A} (a : A) : tick_mono (ret a).
Proof. by intros w. Qed.
Lemma tick_throw {A} e : tick_mono (throw (A:=A) e).
Proof. by intros w. Qed.
Lemma tick_lift {A} (r : res A) : tick_mono (lift r).
Proof. by intros w. Qed.
Lemma tick_Now : tick_mono Now.
Proof. intros w. simpl. lia. Qed.
Lemma tick_newV7 : tick_mono newV7.
Proof. intros w. simpl. lia. Qed.
Lemma tick_exec {A} (f : D -> res (A * D)) : tick_mono (exec f).
Proof.
  intros w. unfold exec. destruct (fault _); simpl; [lia|]. destruct (f _) as [[]|]; simpl; lia.
Qed.
Lemma tick_bind {A B} (m : M D A) (k : A -> M D B) :
  tick_mono m -> (forall a, tick_mono (k a)) -> tick_mono (bind m k).
Proof.
  intros Hm Hk w. unfold bind. specialize (Hm w). destruct (m w) as [[a|e] w1]; simpl in *; [|done].
  specialize (Hk a w1). lia.
Qed.
Lemma tick_catch {A} (m : M D A) h : tick_mono m -> (forall e, tick_mono (h e)) -> tick_mono (catch m h).
Proof.
  intros Hm Hh w. unfold catch. specialize (Hm w). destruct (m w) as [[a|e] w1]; simpl in *; [done|].
  specialize (Hh e w1). lia.
Qed.
Lemma tick_forM {A} (f : A -> M D unit) l : (forall x, tick_mono (f x)) -> tick_mono (forM f l).
Proof. intros Hf. induction l; simpl; [apply tick_ret|apply tick_bind; auto]. Qed.
Lemma tick_transaction {A} c1 c2 (body : M D A) : tick_mono body -> tick_mono (transaction c1 c2 body).
Proof.
  intros Hb w. unfold transaction. pose proof (tick_exec (fun db => Ok (tt, db)) w) as H1.
  change (exec (fun db => Ok (tt, db)) w) with (query (fun _ => Ok tt) w) in H1.
  destruct (query (fun _ => Ok tt) w) as [[[]|e] w1]; simpl in *; [|done].
  specialize (Hb w1). destruct (body w1) as [[a|e] w2]; simpl in *; [|lia].
  pose proof (tick_exec (fun db => Ok (tt, db)) w2) as H2.
  change (exec (fun db => Ok (tt, db)) w2) with (query (fun _ => Ok tt) w2) in H2.
  destruct (query (fun _ => Ok tt) w2) as [[[]|e] w3]; simpl in *; lia.
Qed.

(** A committed transaction is its body, between two calls. *)
Lemma transaction_Ok {A} c1 c2 (body : M D A) w a w' :
  transaction c1 c2 body w = (Ok a, w') ->
  exists w2, body (tick w) = (Ok a, w2) /\ w_db w' = w_db w2 /\ w_tick w' = S (w_tick w2).
Proof.
  unfold transaction, query, exec. destruct (fault (w_tick w)); [done|]. simpl.
  fold (tick w). destruct (body (tick w)) as [[b|e1] w2]; [|done].
  destruct (fault (w_tick w2)); [done|]. intros [= -> <-]. eauto.
Qed.

Lemma exec_Ok {A} (f : D -> res (A * D)) w a w' :
  exec f w = (Ok a, w') -> f (w_db w) = Ok (a, w_db w').
Proof.
  unfold exec. destruct (fault _); [done|]. destruct (f _) as [[b db']|]; [|done]. by intros [= -> <-].
Qed.

Lemma query_Ok {A} (f : D -> res A) w a w' :
  query f w = (Ok a, w') -> f (w_db w) = Ok a /\ w_db w' = w_db w.
Proof.
  intros Hq%exec_Ok. destruct (f (w_db w)) as [b|]; simpl in Hq; [|done]. by injection Hq as -> ->.
Qed.
End MonadLemmas.

#[export] Hint Resolve pure_ret pure_throw pure_lift pure_Now pure_newV7 pure_query : eslite.
#[export] Hint Resolve tick_ret tick_throw tick_lift tick_Now tick_newV7 tick_exec tick_transaction : eslite.
#[export] Hint Extern 1 (tick_mono (bind _ _)) => (apply tick_bind; [|intros]) : eslite.
#[export] Hint Extern 1 (tick_mono (catch _ _)) => (apply tick_catch; [|intros]) : eslite.
#[export] Hint Extern 1 (tick_mono (forM _ _)) => (apply tick_forM; intros) : eslite.
#[export] Hint Extern 1 (tick_mono (query _)) => (apply tick_exec) : eslite.
#[export] Hint Extern 2 (tick_mono (match _ with _ => _ end)) => case_goal : eslite.
#[export] Hint Resolve err_keeps_transaction err_keeps_exec err_keeps_wrap : eslite.
#[export] Hint Extern 2 (err_keeps (match _ with _ => _ end)) => case_goal : eslite.
#[export] Hint Extern 2 (err_keeps _) => (apply err_keeps_pure) : eslite.
#[export] Hint Extern 1 (err_keeps (bind _ _)) => (apply err_keeps_bind; [|intros]) : eslite.
#[export] Hint Extern 1 (pure_db (if _ then _ else _)) => case_goal : eslite.
#[export] Hint Extern 1 (pure_db (bind _ _)) => (apply pure_bind; [|intros]) : eslite.
#[export] Hint Extern 1 (pure_db (catch _ _)) => (apply pure_catch; [|intros]) : eslite.
#[export] Hint Extern 1 (pure_db (forM _ _)) => (apply pure_forM; intros) : eslite.
#[export] Hint Extern 2 (pure_db (match _ with _ => _ end)) => case_goal : eslite.

(** ** A part of the database that a computation never changes *)

Section Keeps.
Context {D X : Type} `{Env}.
Variable f : D -> X.

Definition keeps {A} (m : M D A) : Prop := forall w, f (w_db (m w).2) = f (w_db w).

Lemma keeps_pure {A} (m : M D A) : pure_db m -> keeps m.
Proof. intros Hm w. by rewrite Hm. Qed.
Lemma keeps_bind {A B} (m : M D A) (k : A -> M D B) : keeps m -> (forall a, keeps (k a)) -> keeps (bind m k).
Proof.
  intros Hm Hk w. unfold bind. specialize (Hm w). destruct (m w) as [[a|e] w1]; simpl in *; [|done]. by rewrite Hk.
Qed.
Lemma keeps_catch {A} (m : M D A) h : keeps m -> (forall e, keeps (h e)) -> keeps (catch m h).
Proof.
  intros Hm Hh w. unfold catch. specialize (Hm w). destruct (m w) as [[a|e] w1]; simpl in *; [done|]. by rewrite Hh.
Qed.
Lemma keeps_forM {A} (g : A -> M D unit) l : (forall x, keeps (g x)) -> keeps (forM g l).
Proof. intros Hg. induction l; simpl; [by intros w|by apply keeps_bind]. Qed.
Lemma keeps_exec {A} (g : D -> res (A * D)) : (forall db a db', g db = Ok (a, db') -> f db' = f db) -> keeps (exec g).
Proof.
  intros Hg w. unfold exec. destruct (fault _); [done|]. destruct (g (w_db w)) as [[a db']|e] eqn:E; [|done].
  simpl. by eapply Hg.
Qed.
Lemma keeps_transaction {A} c1 c2 (body : M D A) : keeps body -> keeps (transaction c1 c2 body).
Proof.
  intros Hb w. destruct (transaction c1 c2 body w) as [[a|e] w'] eqn:E; simpl.
  - apply transaction_Ok in E as (w2 & E & -> & _). specialize (Hb (tick w)). by rewrite E in Hb.
  - by rewrite (transaction_Err _ _ _ _ _ _ E).
Qed.
Lemma keeps_run {A} (m : M D A) w r w' : keeps m -> m w = (r, w') -> f (w_db w') = f (w_db w).
Proof. intros Hm E. specialize (Hm w). by rewrite E in Hm. Qed.
End Keeps.

#[export] Hint Resolve keeps_transaction : eslite.
#[export] Hint Extern 3 (keeps _ (ret _)) => (apply keeps_pure, pure_ret) : eslite.
#[export] Hint Extern 3 (keeps _ (throw _)) => (apply keeps_pure, pure_throw) : eslite.
#[export] Hint Extern 3 (keeps _ (lift _)) => (apply keeps_pure, pure_lift) : eslite.
#[export] Hint Extern 3 (keeps _ Now) => (apply keeps_pure, pure_Now) : eslite.
#[export] Hint Extern 3 (keeps _ newV7) => (apply keeps_pure, pure_newV7) : eslite.
#[export] Hint Extern 3 (keeps _ (query _)) => (apply keeps_pure, pure_query) : eslite.
#[export] Hint Extern 1 (keeps _ (bind _ _)) => (apply keeps_bind; [|intros]) : eslite.
#[export] Hint Extern 1 (keeps _ (catch _ _)) => (apply keeps_catch; [|intros]) : eslite.
#[export] Hint Extern 1 (keeps _ (forM _ _)) => (apply keeps_forM; intros) : eslite.
#[export] Hint Extern 2 (keeps _ (match _ with _ => _ end)) => case_goal : eslite.
#[export] Hint Extern 3 (keeps _ (exec _)) =>
  (apply keeps_exec; intros ? ? ? ?; repeat case_match; simplify_eq/=; done) : eslite.
