(* ===== verification/Sqlite.v ===== *)
(** * The SQLite event store (src/sqlite/store.go)

    The tables of src/sqlite/migrations as row lists and maps, with the
    uniqueness rules the schema declares; one definition per method of the
    store.  Columns keep their stored types: ids, timestamps and stream ids are
    text, so a read goes through the same parsers as the code. *)
From S2P Require Import Prelude Sha256 Es Hash Chain Anchor Timestamp Effect Sql.

(** ** The uuid package, as far as the store relies on it *)

(** github.com/google/uuid is not part of this repository.  Parse returns the
    id it read so far together with its error; the one documented fact used is
    that it reads back what String writes. *)
Class UuidLib := {
  uuid_String : UUID -> string;
  uuid_Parse : string -> UUID * option error;
  uuid_Parse_String : forall u, uuid_Parse (uuid_String u) = (u, None)
}.

(** ** Schema *)

Record EventRow := MkEventRow {
  r_global_position : N;
  r_event_id : string;
  r_stream_type : string;
  r_stream_id : string;
  r_version : N;
  r_type_url : string;
  r_schema_version : N;
  r_occurred_at : string;
  r_recorded_at : string;
  r_correlation_id : string;
  r_causation_id : string;
  r_command_id : string;
  r_actor_type : string;
  r_actor_id : string;
  r_actor_principal : string;
  r_payload : list byte;
  r_prev_hash : option (list byte);
  r_hash : option (list byte)
}.

Record AnchorRow := MkAnchorRow {
  ar_anchor_id : string;
  ar_created_at : string;
  ar_upto_global_position : N;
  ar_stream_count : N;
  ar_root_hash : list byte
}.

Record FeedCheckpointRow := MkFeedCheckpointRow {
  fc_position : N;
  fc_updated_at : string;
  fc_definition_hash : string
}.

Record LeaseRow := MkLeaseRow {
  lr_owner : string;
  lr_consumer : string;
  lr_expires_at_ns : Z
}.

Record DeadLetterRow := MkDeadLetterRow {
  dl_type_url : string;
  dl_size_bytes : Z;
  dl_reason : string;
  dl_actor : string;
  dl_created_at : string
}.

(** The database: tables by name; [d_sequence] is sqlite_sequence's row for
    the AUTOINCREMENT key of events. *)
Record DB := MkDB {
  d_events : list EventRow;
  d_sequence : N;
  d_unique_claims : gmap (string * string) string;
  d_checkpoints : gmap string (N * string);
  d_anchors : list AnchorRow;
  d_feed_checkpoints : gmap (string * string * string) FeedCheckpointRow;
  d_feed_leases : gmap string LeaseRow;
  d_feed_dead_letters : gmap (string * string * string * N) DeadLetterRow;
  d_schema_migrations : gmap Z string
}.

Definition empty_db : DB := MkDB [] 0 ∅ ∅ [] ∅ ∅ ∅ ∅.

Definition set_events (evs : list EventRow) (seq : N) (db : DB) : DB :=
  MkDB evs seq (d_unique_claims db) (d_checkpoints db) (d_anchors db)
    (d_feed_checkpoints db) (d_feed_leases db) (d_feed_dead_letters db) (d_schema_migrations db).

Definition set_claims (c : gmap (string * string) string) (db : DB) : DB :=
  MkDB (d_events db) (d_sequence db) c (d_checkpoints db) (d_anchors db)
    (d_feed_checkpoints db) (d_feed_leases db) (d_feed_dead_letters db) (d_schema_migrations db).

Definition set_checkpoints (c : gmap string (N * string)) (db : DB) : DB :=
  MkDB (d_events db) (d_sequence db) (d_unique_claims db) c (d_anchors db)
    (d_feed_checkpoints db) (d_feed_leases db) (d_feed_dead_letters db) (d_schema_migrations db).

(** ** SQLite and its driver *)

(** database/sql refuses a uint64 parameter with the high bit set. *)
Definition bind_uint64 (v : N) : res N :=
  if (v <=? max_int64)%N then Ok v
  else Err (ErrorsNew "uint64 values with high bit set are not supported").

Definition SQLITE_FULL : Z := 13.
Definition SQLITE_CONSTRAINT : Z := 19.
Definition SQLITE_CONSTRAINT_PRIMARYKEY : Z := 1555.
Definition SQLITE_CONSTRAINT_UNIQUE : Z := 2067.

Definition isConstraintViolation (err : error) : bool :=
  match AsSqlite err with
  | Some code => (code =? SQLITE_CONSTRAINT)%Z || (code =? SQLITE_CONSTRAINT_UNIQUE)%Z
                 || (code =? SQLITE_CONSTRAINT_PRIMARYKEY)%Z
  | None => false
  end.

(** ORDER BY an integer column. *)
Definition key_order {A} (key : A -> N) (a b : A) : Prop := (key a <= key b)%N.

#[global] Instance key_order_dec {A} (key : A -> N) : RelDecision (key_order key).
Proof. intros a b. unfold key_order. apply _. Defined.

Definition order_by {A} (key : A -> N) (rows : list A) : list A := merge_sort (key_order key) rows.

(** INSERT INTO events: the two UNIQUE constraints, then the next AUTOINCREMENT
    key (the rowid after the largest ever used). *)
Definition insert_event (row : N -> EventRow) (db : DB) : res (N * DB) :=
  let r0 := row 0%N in
  let? _ := bind_uint64 (r_version r0) in
  if existsb (fun r => bool_decide (r_stream_id r = r_stream_id r0) && (r_version r =? r_version r0)%N) (d_events db)
     || existsb (fun r => bool_decide (r_event_id r = r_event_id r0)) (d_events db)
  then Err (SqliteError SQLITE_CONSTRAINT_UNIQUE)
  else if (max_int64 <=? d_sequence db)%N then Err (SqliteError SQLITE_FULL)
  else let gp := (d_sequence db + 1)%N in
       Ok (gp, set_events (d_events db ++ [row gp]) gp db).

(** ** Configuration *)

Inductive Option := WithoutAutoMigrate | WithMaxPayloadBytes (n : Z).

Definition defaultMaxPayloadBytes : Z := Z.shiftl 8 20.

Record openConfig := MkOpenConfig { oc_autoMigrate : bool; oc_maxPayloadBytes : Z }.

Definition apply_option (c : openConfig) (o : Option) : openConfig :=
  match o with
  | WithoutAutoMigrate => MkOpenConfig false (oc_maxPayloadBytes c)
  | WithMaxPayloadBytes n => MkOpenConfig (oc_autoMigrate c) n
  end.

Definition newOpenConfig (opts : list Option) : openConfig :=
  let c := foldl apply_option (MkOpenConfig true defaultMaxPayloadBytes) opts in
  if (oc_maxPayloadBytes c =? 0)%Z then MkOpenConfig (oc_autoMigrate c) defaultMaxPayloadBytes else c.

(** ** Operations *)

Section Store.
Context `{UuidLib} `{Env}.

(** The store's effective payload cap; negative means none. *)
Variable maxPayloadBytes : Z.

(** sqlite.parse of a text id column whose error is reported. *)
Definition parse_uuid (ctx s : string) : res UUID :=
  match uuid_Parse s with
  | (_, Some err) => Err (Errorf ctx err)
  | (u, None) => Ok u
  end.

Definition scanEnvelope (r : EventRow) : res Envelope :=
  let? eventID := parse_uuid "parse event_id" (r_event_id r) in
  let? sid := match ParseCanonical (r_stream_id r) with
              | Ok sid => Ok sid | Err e => Err (Errorf "parse stream_id" e) end in
  let? occurred := match parseTS (r_occurred_at r) with
                   | Ok t => Ok t | Err e => Err (Errorf "parse occurred_at" e) end in
  let? recorded := match parseTS (r_recorded_at r) with
                   | Ok t => Ok t | Err e => Err (Errorf "parse recorded_at" e) end in
  Ok {| EventID := eventID; env_StreamID := sid; Version := r_version r;
        GlobalPosition := r_global_position r; Workspace := EmptyString;
        TypeURL := r_type_url r; SchemaVersion := r_schema_version r;
        OccurredAt := occurred; RecordedAt := recorded;
        CorrelationID := (uuid_Parse (r_correlation_id r)).1;
        CausationID := (uuid_Parse (r_causation_id r)).1;
        CommandID := (uuid_Parse (r_command_id r)).1;
        env_Actor := MkActor (r_actor_type r) (r_actor_id r);
        Payload := r_payload r; PrevHash := r_prev_hash r; Hash := r_hash r |}.

(** A SELECT of envelope columns and the scan loop over its rows. *)
Definition queryEnvelopes (q : DB -> list EventRow) : M DB (list Envelope) :=
  query (fun db => result_map scanEnvelope (q db)).

(** *** Append *)

Fixpoint validate_ops (ops : list ConstraintOp) : res unit :=
  match ops with
  | [] => Ok tt
  | op :: ops' => let? _ := ConstraintOp_Validate op in validate_ops ops'
  end.

Fixpoint check_payloads (evs : list EventData) : res unit :=
  match evs with
  | [] => Ok tt
  | ev :: evs' =>
      if (0 <? maxPayloadBytes)%Z && (maxPayloadBytes <? Z.of_nat (length (ed_Payload ev)))%Z
      then Err (Errorf "payload exceeds cap" (Sentinel ErrPayloadTooLarge))
      else check_payloads evs'
  end.

Definition stream_rows (sid : string) (db : DB) : list EventRow :=
  filter (fun r => r_stream_id r = sid) (d_events db).

(** SELECT version, hash ... ORDER BY version DESC LIMIT 1. *)
Definition readHead (sid : StreamID) : M DB (N * list byte) :=
  let! row := query (fun db => Ok (last (order_by r_version (stream_rows (Canonical sid) db))))
              wrap "read stream head" in
  match row with
  | None => ret (0%N, ZeroHash)
  | Some r =>
      match r_hash r with
      | Some h => if (length h =? HashSize)%nat then ret (r_version r, h)
                  else ret (r_version r, UnchainedHeadHash sid (r_version r))
      | None => ret (r_version r, UnchainedHeadHash sid (r_version r))
      end
  end.

(** The columns the INSERT binds for an envelope. *)
Definition event_row (e : Envelope) (gp : N) : EventRow := {|
  r_global_position := gp;
  r_event_id := uuid_String (EventID e);
  r_stream_type := sid_Type (env_StreamID e);
  r_stream_id := Canonical (env_StreamID e);
  r_version := Version e;
  r_type_url := TypeURL e;
  r_schema_version := SchemaVersion e;
  r_occurred_at := formatTS (OccurredAt e);
  r_recorded_at := formatTS (RecordedAt e);
  r_correlation_id := uuid_String (CorrelationID e);
  r_causation_id := uuid_String (CausationID e);
  r_command_id := uuid_String (CommandID e);
  r_actor_type := act_Type (env_Actor e);
  r_actor_id := act_ID (env_Actor e);
  r_actor_principal := Principal (env_Actor e);
  r_payload := Payload e;
  r_prev_hash := PrevHash e;
  r_hash := Hash e |}.

Definition new_envelope (p : AppendParams) (ev : EventData) (eventID : UUID) (version : N)
    (occurred recorded : time) (prev : list byte) : Envelope := {|
  EventID := eventID; env_StreamID := ap_StreamID p; Version := version;
  GlobalPosition := 0; Workspace := EmptyString;
  TypeURL := ed_TypeURL ev; SchemaVersion := ed_SchemaVersion ev;
  OccurredAt := occurred; RecordedAt := recorded;
  CorrelationID := ap_CorrelationID p; CausationID := ap_CausationID p; CommandID := ap_CommandID p;
  env_Actor := ap_Actor p; Payload := ed_Payload ev;
  PrevHash := Some prev; Hash := None |}.

Definition with_hash (e : Envelope) (h : list byte) : Envelope := {|
  EventID := EventID e; env_StreamID := env_StreamID e; Version := Version e;
  GlobalPosition := GlobalPosition e; Workspace := Workspace e; TypeURL := TypeURL e;
  SchemaVersion := SchemaVersion e; OccurredAt := OccurredAt e; RecordedAt := RecordedAt e;
  CorrelationID := CorrelationID e; CausationID := CausationID e; CommandID := CommandID e;
  env_Actor := env_Actor e; Payload := Payload e; PrevHash := PrevHash e; Hash := Some h |}.

Definition with_position (e : Envelope) (gp : N) : Envelope := {|
  EventID := EventID e; env_StreamID := env_StreamID e; Version := Version e;
  GlobalPosition := gp; Workspace := Workspace e; TypeURL := TypeURL e;
  SchemaVersion := SchemaVersion e; OccurredAt := OccurredAt e; RecordedAt := RecordedAt e;
  CorrelationID := CorrelationID e; CausationID := CausationID e; CommandID := CommandID e;
  env_Actor := env_Actor e; Payload := Payload e; PrevHash := PrevHash e; Hash := Hash e |}.

(** The insert loop; [i] is the loop index, [prev] the running chain head. *)
Fixpoint append_events (p : AppendParams) (occurred recorded : time) (i : N) (prev : list byte)
    (evs : list EventData) : M DB (list Envelope) :=
  match evs with
  | [] => ret []
  | ev :: evs' =>
      let version := u64 (ap_ExpectedVersion p + i + 1) in
      let! eventID := if bool_decide (ed_EventID ev = uuid_Nil) then newV7 else ret (ed_EventID ev) in
      let env := new_envelope p ev eventID version occurred recorded prev in
      let hash := EnvelopeHash env in
      let env := with_hash env hash in
      let! gp := catch (exec (insert_event (event_row env)))
                   (fun err => if isConstraintViolation err
                               then throw (Errorf "version taken" (Sentinel ErrConflict))
                               else throw (Errorf "insert event" err)) in
      let! envs := append_events p occurred recorded (i + 1) hash evs' in
      ret (with_position env gp :: envs)
  end.

(** DELETE FROM unique_claims WHERE scope, value_key and stream_id match. *)
Definition delete_claim (sid : string) (op : ConstraintOp) (db : DB) : res (unit * DB) :=
  let k := (op_Scope op, op_Value op) in
  if bool_decide (d_unique_claims db !! k = Some sid)
  then Ok (tt, set_claims (delete k (d_unique_claims db)) db) else Ok (tt, db).

(** INSERT INTO unique_claims under PRIMARY KEY (scope, value_key). *)
Definition insert_claim (sid : string) (op : ConstraintOp) (db : DB) : res (unit * DB) :=
  let k := (op_Scope op, op_Value op) in
  match d_unique_claims db !! k with
  | Some _ => Err (SqliteError SQLITE_CONSTRAINT_PRIMARYKEY)
  | None => Ok (tt, set_claims (<[k := sid]> (d_unique_claims db)) db)
  end.

Definition applyClaims (streamID : string) (ops : list ConstraintOp) : M DB unit :=
  let! _ := forM (fun op =>
      if negb (op_Op op =? ReleaseOp)%N then ret tt else
      exec (delete_claim streamID op) wrap "release claim") ops in
  forM (fun op =>
      if negb (op_Op op =? ClaimOp)%N then ret tt else
      catch (exec (insert_claim streamID op))
        (fun err => if isConstraintViolation err
                    then throw (Errorf "claim" (Sentinel ErrConstraintViolated))
                    else throw (Errorf "claim" err))) ops.

Definition Append (p : AppendParams) : M DB AppendResult :=
  let! _ := lift (Validate (ap_StreamID p)) in
  let! _ := lift (validate_ops (ap_Constraints p)) in
  let! _ := lift (check_payloads (ap_Events p)) in
  let! occurred := if IsZero (ap_OccurredAt p) then Now else ret (ap_OccurredAt p) in
  let occurred := TruncateMicros occurred in
  transaction "begin" "commit" (
    let! (current, prev) := readHead (ap_StreamID p) in
    if negb (current =? ap_ExpectedVersion p)%N
    then throw (Errorf "expected version" (Sentinel ErrConflict)) else
    let! now := Now in
    let recorded := TruncateMicros now in
    let! envs := append_events p occurred recorded 0 prev (ap_Events p) in
    let! _ := applyClaims (Canonical (ap_StreamID p)) (ap_Constraints p) in
    ret (MkAppendResult (ap_ExpectedVersion p)
           (u64 (ap_ExpectedVersion p + N.of_nat (length (ap_Events p)))) envs)).

(** *** Reads *)

Definition ReadStream (sid : StreamID) (fromVersion toVersion : N) : M DB (list Envelope) :=
  let! _ := lift (Validate sid) in
  let! _ := lift (bind_uint64 fromVersion) in
  let! _ := lift (if (0 <? toVersion)%N then bind_uint64 toVersion else Ok 0%N) in
  queryEnvelopes (fun db =>
    order_by r_version (filter (fun r => r_stream_id r = Canonical sid /\ (fromVersion < r_version r)%N
                                         /\ ((0 < toVersion)%N -> (r_version r <= toVersion)%N)) (d_events db))).

(** recorded_at <= ? is a comparison of text columns. *)
Definition ReadStreamAsOf (sid : StreamID) (asOf : time) : M DB (list Envelope) :=
  let! _ := lift (Validate sid) in
  queryEnvelopes (fun db =>
    order_by r_version (filter (fun r => r_stream_id r = Canonical sid
                                         /\ String.leb (r_recorded_at r) (formatTS asOf) = true) (d_events db))).

Definition ReadAll (fromPosition : N) (limit : Z) : M DB (list Envelope) :=
  let limit := if (limit <=? 0)%Z then 100%Z else limit in
  let! _ := lift (bind_uint64 fromPosition) in
  queryEnvelopes (fun db =>
    take (Z.to_nat limit) (order_by r_global_position
      (filter (fun r => (fromPosition < r_global_position r)%N) (d_events db)))).

Definition LookupClaim (scope value : string) : M DB (string * bool) :=
  let! row := query (fun db => Ok (d_unique_claims db !! (scope, value))) in
  match row with
  | None => ret (EmptyString, false)
  | Some streamID => ret (streamID, true)
  end.

(** SELECT COALESCE(MAX(version), 0). *)
Definition CurrentStreamVersion (sid : StreamID) : M DB N :=
  let! _ := lift (Validate sid) in
  query (fun db => Ok (foldr (fun r m => N.max (r_version r) m) 0%N (stream_rows (Canonical sid) db))).

Definition LoadCheckpoint (subscriber : string) : M DB N :=
  let! row := query (fun db => Ok (d_checkpoints db !! subscriber)) in
  match row with
  | None => ret 0%N
  | Some (pos, _) => ret pos
  end.

Definition SaveCheckpoint (subscriber : string) (position : N) : M DB unit :=
  let! now := Now in
  let! _ := lift (bind_uint64 position) in
  exec (fun db => Ok (tt, set_checkpoints (<[subscriber := (position, formatTS now)]> (d_checkpoints db)) db)).
End Store.
