(* ===== verification/SqliteCorrect.v ===== *)
(** * The SQLite store keeps its log invariant

    The invariant [log_inv] relates the events table to the list of envelopes
    it stands for: rows are the stored forms of the envelopes, positions are
    1..n without a gap, each stream's versions are 1..k, event ids are unique
    and each stream's hash chain verifies.  Theorems: Append preserves it and
    does exactly what es.Store promises, every failure leaves the database as
    it was, reads return the envelopes that were appended, claims are
    exclusive. *)
From S2P Require Import Prelude Sha256 Es Hash Chain Anchor Timestamp Effect Store Sql Sqlite.

(** ** Sorting already sorted rows *)

#[global] Instance key_order_trans {A} (key : A -> N) : Transitive (key_order key).
Proof. intros a b c. unfold key_order. lia. Qed.

#[global] Instance key_order_total {A} (key : A -> N) : Total (key_order key).
Proof. intros a b. unfold key_order. lia. Qed.

Lemma order_by_perm {A} (key : A -> N) l : order_by key l ≡ₚ l.
Proof. apply merge_sort_Permutation. Qed.

Lemma sorted_weaken {A} (R S : A -> A -> Prop) l :
  (forall x y, R x y -> S x y) -> StronglySorted R l -> StronglySorted S l.
Proof.
  intros HRS. induction 1 as [|x l Hs IH Hx]; constructor; [done|]. eapply Forall_impl; [exact Hx|]. auto.
Qed.

Lemma order_by_sorted {A} (key : A -> N) l :
  StronglySorted (fun a b => key a < key b)%N l -> order_by key l = l.
Proof.
  intros Hs. apply (StronglySorted_unique_strong (key_order key)).
  - intros a b Ha Hb Hab Hba. rewrite (order_by_perm key l) in Ha. unfold key_order in *.
    assert (key a = key b) as E by lia. clear Hab Hba. revert Ha Hb.
    induction Hs as [|x l Hs IH Hx]; [by intros ?%not_elem_of_nil|].
    rewrite Forall_forall in Hx. rewrite !elem_of_cons. intros [->|Ha] [->|Hb]; auto.
    + specialize (Hx _ Hb). lia.
    + specialize (Hx _ Ha). lia.
  - apply StronglySorted_merge_sort; apply _.
  - eapply sorted_weaken; [|exact Hs]. unfold key_order. intros a b. lia.
  - apply order_by_perm.
Qed.

Lemma numbered_sorted {A} (key : A -> N) k l :
  numbered key k l -> StronglySorted (fun a b => key a < key b)%N l.
Proof.
  revert k; induction l as [|x l IH]; intros k; simpl; [constructor|]. intros [Hx Hl].
  constructor; [by eapply IH|]. apply Forall_forall. intros y Hy.
  apply (numbered_elem _ _ _ _ Hl) in Hy. lia.
Qed.

Lemma sorted_filter {A} (R : A -> A -> Prop) (P : A -> Prop) `{!forall x, Decision (P x)} l :
  StronglySorted R l -> StronglySorted R (filter P l).
Proof.
  induction 1 as [|x l Hs IH Hx]; [constructor|]. rewrite filter_cons. case_decide; [|done].
  constructor; [done|]. rewrite Forall_forall in *. intros y [_ Hy]%list_elem_of_filter. auto.
Qed.

Lemma sorted_map {A B} (R : A -> A -> Prop) (S : B -> B -> Prop) (f : A -> B) l :
  (forall x y, R x y -> S (f x) (f y)) -> StronglySorted R l -> StronglySorted S (map f l).
Proof.
  intros Hf. induction 1 as [|x l Hs IH Hx]; simpl; constructor; [done|].
  rewrite Forall_map. eapply Forall_impl; [exact Hx|]. auto.
Qed.

Lemma filter_map_comm {A B} (f : A -> B) (P : B -> Prop) (Q : A -> Prop)
    `{!forall x, Decision (P x)} `{!forall x, Decision (Q x)} l :
  (forall x, x ∈ l -> P (f x) <-> Q x) -> filter P (map f l) = map f (filter Q l).
Proof.
  induction l as [|x l IH]; intros HPQ; [done|]. simpl. rewrite !filter_cons.
  assert (P (f x) <-> Q x) as Hx by (apply HPQ; by constructor).
  rewrite IH by (intros y Hy; apply HPQ; by constructor).
  repeat case_decide; tauto.
Qed.

(** ** The invariant *)

Section Invariant.
Context `{UuidLib}.

Definition stored (e : Envelope) : EventRow := event_row e (GlobalPosition e).

Record stored_wf (e : Envelope) : Prop := {
  sw_sid : Validate (env_StreamID e) = Ok tt;
  sw_ws : Workspace e = EmptyString;
  sw_version : (Version e <= max_int64)%N;
  sw_occurred : in_layout (OccurredAt e);
  sw_recorded : in_layout (RecordedAt e)
}.

Record log_inv (db : DB) (envs : list Envelope) : Prop := {
  li_rows : d_events db = map stored envs;
  li_seq : d_sequence db = N.of_nat (length envs);
  li_positions : numbered GlobalPosition 1%N envs;
  li_versions : forall sid, numbered Version 1%N (stream_of sid envs);
  li_ids : NoDup (map EventID envs);
  li_wf : Forall stored_wf envs;
  li_chain : forall sid, chain_ok zero_time sid None (stream_of sid envs)
}.

Lemma log_inv_empty : log_inv empty_db [].
Proof. split; try done; constructor. Qed.

(** Only the events table and its sequence matter. *)
Lemma log_inv_ext db db' envs :
  d_events db' = d_events db -> d_sequence db' = d_sequence db -> log_inv db envs -> log_inv db' envs.
Proof. intros E1 E2 []. split; try done; congruence. Qed.

Lemma uuid_String_inj u1 u2 : uuid_String u1 = uuid_String u2 -> u1 = u2.
Proof.
  intros E. pose proof (uuid_Parse_String u1) as H1. rewrite E, uuid_Parse_String in H1. congruence.
Qed.

(** Scanning a stored row gives the envelope back. *)
Lemma scanEnvelope_stored e : stored_wf e -> scanEnvelope (stored e) = Ok e.
Proof.
  intros []. unfold scanEnvelope, stored, event_row, parse_uuid. simpl.
  rewrite !uuid_Parse_String. simpl. rewrite Parse_Canonical by done. simpl.
  rewrite !parseTS_formatTS by done. simpl. destruct e as [? ? ? ? ws]. simpl in *. subst ws.
  by destruct env_Actor.
Qed.

Lemma scan_stored envs : Forall stored_wf envs -> result_map scanEnvelope (map stored envs) = Ok envs.
Proof.
  intros Hw. apply result_map_Ok. induction Hw; simpl; constructor; [by apply scanEnvelope_stored|done].
Qed.

Lemma stream_rows_stored db envs sid :
  log_inv db envs -> Validate sid = Ok tt ->
  stream_rows (Canonical sid) db = map stored (stream_of sid envs).
Proof.
  intros Hi Hv. unfold stream_rows, stream_of. rewrite (li_rows _ _ Hi).
  apply filter_map_comm. intros e He. simpl. split; [|by intros ->].
  pose proof (li_wf _ _ Hi) as Hw. rewrite Forall_forall in Hw. apply Canonical_inj; [by apply Hw|done].
Qed.

Lemma stream_of_sorted db envs sid :
  log_inv db envs -> StronglySorted (fun a b => r_version a < r_version b)%N (map stored (stream_of sid envs)).
Proof.
  intros Hi. eapply sorted_map; [|eapply numbered_sorted, (li_versions _ _ Hi sid)]. done.
Qed.

(** The last row of a stream carries its length as version. *)
Lemma stream_last db envs sid e :
  log_inv db envs -> last (stream_of sid envs) = Some e ->
  env_StreamID e = sid /\ stored_wf e /\ Version e = N.of_nat (length (stream_of sid envs)).
Proof.
  intros Hi Hl. pose proof (last_Some_elem_of _ _ Hl) as He. apply list_elem_of_filter in He as [Hs He].
  split; [done|]. pose proof (li_wf _ _ Hi) as Hw. rewrite Forall_forall in Hw. split; [by apply Hw|].
  pose proof (numbered_last _ _ _ _ (li_versions _ _ Hi sid) Hl). lia.
Qed.

Lemma stream_length_bound db envs sid :
  log_inv db envs -> (N.of_nat (length (stream_of sid envs)) <= max_int64)%N.
Proof.
  intros Hi. destruct (last (stream_of sid envs)) as [e|] eqn:Hl.
  - destruct (stream_last _ _ _ _ Hi Hl) as (_ & [] & <-). done.
  - apply last_None in Hl. rewrite Hl. done.
Qed.

(** The hash the next event of a stream chains to. *)
Definition next_prev (sid : StreamID) (envs : list Envelope) : list byte :=
  match last (stream_of sid envs) with
  | None => ZeroHash
  | Some e => match Hash e with Some h => h | None => UnchainedHeadHash sid (Version e) end
  end.

(** A stored hash is 32 bytes. *)
Lemma chain_hash_length since sid rows e h :
  chain_ok since sid None rows -> e ∈ rows -> Hash e = Some h -> length h = HashSize.
Proof.
  intros Hok (l1 & l2 & ->)%list_elem_of_split Hh.
  apply chain_ok_app in Hok as [_ [Hc _]]. apply (check_hashed _ _ _ Hc) in Hh as [-> _].
  apply length_Sum256.
Qed.

Lemma readHead_spec `{Env} db envs sid w cur prev w' :
  log_inv db envs -> Validate sid = Ok tt -> w_db w = db ->
  readHead sid w = (Ok (cur, prev), w') ->
  w_db w' = db /\ cur = N.of_nat (length (stream_of sid envs)) /\ prev = next_prev sid envs.
Proof.
  intros Hi Hv Hdb HR. unfold readHead in HR. run_ok HR. apply query_Ok in Hm as [[= Ha] Hw].
  rewrite Hdb, (stream_rows_stored _ _ _ Hi Hv) in Ha.
  rewrite order_by_sorted in Ha by (by eapply stream_of_sorted).
  rewrite fmap_last in Ha. unfold next_prev. rewrite <- Ha in HR.
  destruct (last (stream_of sid envs)) as [e|] eqn:Hl; simpl in HR.
  - destruct (stream_last _ _ _ _ Hi Hl) as (_ & _ & Hver).
    pose proof (last_Some_elem_of _ _ Hl) as He.
    destruct (Hash e) as [h|] eqn:Hh.
    + rewrite (chain_hash_length _ _ _ _ _ (li_chain _ _ Hi sid) He Hh), Nat.eqb_refl in HR.
      unfold ret in HR. simplify_eq. by rewrite Hver.
    + unfold ret in HR. simplify_eq. by rewrite Hver.
  - unfold ret in HR. simplify_eq. apply last_None in Hl. by rewrite Hl.
Qed.
End Invariant.

(** ** Inserting one event *)

Section Insert.
Context `{UuidLib}.

Lemma insert_event_Ok row db gp db' :
  insert_event row db = Ok (gp, db') ->
  gp = (d_sequence db + 1)%N /\ db' = set_events (d_events db ++ [row gp]) gp db
  /\ (r_version (row 0%N) <= max_int64)%N
  /\ (forall r, r ∈ d_events db -> r_event_id r <> r_event_id (row 0%N)).
Proof.
  unfold insert_event, bind_uint64. destruct (N.leb_spec (r_version (row 0%N)) max_int64) as [Hv|]; [|done].
  simpl. destruct (existsb _ _ || existsb _ _) eqn:Hu; [done|]. case_goal; [done|]. intros [= <- <-].
  split; [done|]. split; [done|]. split; [done|]. intros r Hr Hid.
  apply orb_false_iff in Hu as [_ Hu]. apply not_true_iff_false in Hu. apply Hu.
  apply existsb_exists. exists r. split; [by apply list_elem_of_In|]. by apply bool_decide_eq_true_2.
Qed.

(** The hash the next event of a line of envelopes chains to. *)
Definition line_prev (sid : StreamID) (l : list Envelope) : list byte :=
  match last l with
  | None => ZeroHash
  | Some e => match Hash e with Some h => h | None => UnchainedHeadHash sid (Version e) end
  end.

(** A new envelope passes the chain check against its line. *)
Lemma check_next l e :
  chain_ok zero_time (env_StreamID e) None l -> numbered Version 1%N l -> (N.of_nat (length l) <= max_int64)%N ->
  Version e = (N.of_nat (length l) + 1)%N ->
  PrevHash e = Some (line_prev (env_StreamID e) l) -> Hash e = Some (EnvelopeHash e) ->
  check (MkChainChecker zero_time (env_StreamID e) (last l) (MkChainReport (env_StreamID e) 0 0 None 0 None)) e = Ok tt.
Proof.
  intros HC HN HB HV HP HH. apply (check_sealed _ _ (line_prev (env_StreamID e) l)); try done; cbn [cc_last].
  - destruct (last l) as [x|] eqn:Hl.
    + pose proof (numbered_last _ _ _ _ HN Hl). rewrite u64_small by (unfold max_int64, u64_mod in *; lia). lia.
    + apply last_None in Hl. subst l. simpl in HV. lia.
  - unfold line_prev. destruct (last l) as [x|] eqn:Hl; [|reflexivity].
    destruct (Hash x) as [h|] eqn:Hh; [|apply length_Sum256].
    eapply chain_hash_length; [exact HC|by apply last_Some_elem_of|done].
  - intros x. unfold want_prev, line_prev. cbn [cc_last cc_sid].
    destruct (last l) as [y|]; [by destruct (Hash y); intros [= <-]|]. case_goal; [by intros [= <-]|done].
Qed.

Lemma check_new db envs e :
  log_inv db envs ->
  Version e = (N.of_nat (length (stream_of (env_StreamID e) envs)) + 1)%N ->
  PrevHash e = Some (next_prev (env_StreamID e) envs) -> Hash e = Some (EnvelopeHash e) ->
  check (MkChainChecker zero_time (env_StreamID e) (last (stream_of (env_StreamID e) envs))
           (MkChainReport (env_StreamID e) 0 0 None 0 None)) e = Ok tt.
Proof.
  intros Hi HV HP HH. apply check_next; try done; [apply (li_chain _ _ Hi)|apply (li_versions _ _ Hi)|].
  by eapply stream_length_bound.
Qed.

Lemma stream_of_snoc sid envs e :
  stream_of sid (envs ++ [e]) = stream_of sid envs ++ (if bool_decide (env_StreamID e = sid) then [e] else []).
Proof.
  rewrite stream_of_app. f_equal. unfold stream_of. rewrite filter_cons.
  case_decide; [by rewrite bool_decide_eq_true_2|by rewrite bool_decide_eq_false_2].
Qed.

Lemma log_inv_snoc db envs e db' :
  log_inv db envs -> stored_wf e ->
  GlobalPosition e = (N.of_nat (length envs) + 1)%N ->
  Version e = (N.of_nat (length (stream_of (env_StreamID e) envs)) + 1)%N ->
  PrevHash e = Some (next_prev (env_StreamID e) envs) -> Hash e = Some (EnvelopeHash e) ->
  EventID e ∉ map EventID envs ->
  db' = set_events (d_events db ++ [stored e]) (GlobalPosition e) db ->
  log_inv db' (envs ++ [e]).
Proof.
  intros Hi Hw HG HV HP HH Hid ->. split; simpl.
  - rewrite (li_rows _ _ Hi), map_app. done.
  - rewrite length_app. simpl. lia.
  - apply numbered_app. split; [apply (li_positions _ _ Hi)|]. simpl. split; [lia|done].
  - intros sid. rewrite stream_of_snoc. case_bool_decide as Hs; [|rewrite app_nil_r; apply (li_versions _ _ Hi)].
    subst sid. apply numbered_app. split; [apply (li_versions _ _ Hi)|]. simpl. split; [lia|done].
  - rewrite map_app. apply NoDup_app. split; [apply (li_ids _ _ Hi)|]. split; [|apply NoDup_singleton].
    intros x Hx ->%list_elem_of_singleton. done.
  - apply Forall_app. split; [apply (li_wf _ _ Hi)|by constructor].
  - intros sid. rewrite stream_of_snoc. case_bool_decide as Hs; [|rewrite app_nil_r; apply (li_chain _ _ Hi)].
    subst sid. apply chain_ok_app. split; [apply (li_chain _ _ Hi)|]. split; [|done].
    destruct (last _) eqn:Hl; rewrite <- Hl; by eapply check_new.
Qed.

(** What an inserted envelope carries: the fields of its EventData and of the
    command, the two timestamps and its stream position. *)
Record carries (p : AppendParams) (occurred recorded : time) (ev : EventData) (e : Envelope) : Prop := {
  ca_sid : env_StreamID e = ap_StreamID p;
  ca_id : ed_EventID ev <> uuid_Nil -> EventID e = ed_EventID ev;
  ca_url : TypeURL e = ed_TypeURL ev;
  ca_schema : SchemaVersion e = ed_SchemaVersion ev;
  ca_payload : Payload e = ed_Payload ev;
  ca_occurred : OccurredAt e = occurred;
  ca_recorded : RecordedAt e = recorded;
  ca_corr : CorrelationID e = ap_CorrelationID p;
  ca_caus : CausationID e = ap_CausationID p;
  ca_cmd : CommandID e = ap_CommandID p;
  ca_actor : env_Actor e = ap_Actor p;
  ca_hash : Hash e = Some (EnvelopeHash e)
}.

Lemma stored_ids db envs : log_inv db envs -> forall id,
  (forall r, r ∈ d_events db -> r_event_id r <> uuid_String id) -> id ∉ map EventID envs.
Proof.
  intros Hi id Hr (e & -> & He)%list_elem_of_fmap. apply (Hr (stored e)); [|done].
  rewrite (li_rows _ _ Hi). by apply list_elem_of_fmap_2.
Qed.

Lemma next_prev_snoc sid envs e h :
  env_StreamID e = sid -> Hash e = Some h -> next_prev sid (envs ++ [e]) = h.
Proof.
  intros Hs Hh. unfold next_prev. rewrite stream_of_snoc, bool_decide_eq_true_2 by done.
  by rewrite last_snoc, Hh.
Qed.

(** The envelope the loop builds for one event. *)
Definition built (p : AppendParams) (ev : EventData) (id : UUID) (version : N) (o r : time) (prev : list byte)
  : Envelope :=
  let env := new_envelope p ev id version o r prev in with_hash env (EnvelopeHash env).

Lemma insert_built_inv p ev id version o r prev db envs gp db' :
  Validate (ap_StreamID p) = Ok tt -> in_layout o -> in_layout r -> log_inv db envs ->
  version = (N.of_nat (length (stream_of (ap_StreamID p) envs)) + 1)%N ->
  prev = next_prev (ap_StreamID p) envs ->
  insert_event (event_row (built p ev id version o r prev)) db = Ok (gp, db') ->
  log_inv db' (envs ++ [with_position (built p ev id version o r prev) gp])
  /\ db' = set_events (d_events db') (d_sequence db') db.
Proof.
  intros Hv Ho Hr Hi Hver -> (Hgp & Hdb & Hmax & Huniq)%insert_event_Ok. split; [|by rewrite Hdb].
  eapply (log_inv_snoc db envs); try done.
  - simpl. rewrite Hgp, (li_seq _ _ Hi). done.
  - simpl. by eapply stored_ids.
Qed.

Lemma next_version p i envs db :
  log_inv db envs -> (ap_ExpectedVersion p + i)%N = N.of_nat (length (stream_of (ap_StreamID p) envs)) ->
  u64 (ap_ExpectedVersion p + i + 1) = (N.of_nat (length (stream_of (ap_StreamID p) envs)) + 1)%N.
Proof.
  intros Hi Hlen. pose proof (stream_length_bound _ _ (ap_StreamID p) Hi) as HB.
  rewrite u64_small by (unfold max_int64, u64_mod in *; lia). lia.
Qed.

(** The loop's premises hold again after one event. *)
Lemma loop_step p i envs e :
  env_StreamID e = ap_StreamID p ->
  (ap_ExpectedVersion p + i)%N = N.of_nat (length (stream_of (ap_StreamID p) envs)) ->
  (ap_ExpectedVersion p + (i + 1) = N.of_nat (length (stream_of (ap_StreamID p) (envs ++ [e]))))%N.
Proof.
  intros Hs Hlen. rewrite stream_of_snoc, bool_decide_eq_true_2, length_app by done. simpl. lia.
Qed.

Lemma append_events_spec `{Env} p occurred recorded evs : forall i prev w envs news w',
  Validate (ap_StreamID p) = Ok tt -> in_layout occurred -> in_layout recorded ->
  log_inv (w_db w) envs ->
  (ap_ExpectedVersion p + i)%N = N.of_nat (length (stream_of (ap_StreamID p) envs)) ->
  prev = next_prev (ap_StreamID p) envs ->
  append_events p occurred recorded i prev evs w = (Ok news, w') ->
  log_inv (w_db w') (envs ++ news)
  /\ Forall2 (carries p occurred recorded) evs news
  /\ w_db w' = set_events (d_events (w_db w')) (d_sequence (w_db w')) (w_db w).
Proof.
  induction evs as [|ev evs IH]; intros i prev w envs news w' Hv Ho Hr Hi Hlen Hprev HA; simpl in HA.
  { unfold ret in HA. simplify_eq. rewrite app_nil_r. split; [done|]. split; [constructor|].
    by destruct (w_db w'). }
  run_ok HA. unfold ret in HA. injection HA as <- <-.
  assert (w_db w0 = w_db w) as Hw0 by (unfold newV7, ret in Hm; case_bool_decide; by simplify_eq/=).
  assert (ed_EventID ev <> uuid_Nil -> a = ed_EventID ev) as Hid
    by (unfold newV7, ret in Hm; case_bool_decide; by simplify_eq/=).
  apply exec_Ok in Hm0. rewrite Hw0 in Hm0.
  change (with_hash _ _) with (built p ev a (u64 (ap_ExpectedVersion p + i + 1)) occurred recorded prev) in *.
  set (e := with_position _ a0).
  destruct (insert_built_inv _ _ _ _ _ _ _ _ _ _ _ Hv Ho Hr Hi (next_version _ _ _ _ Hi Hlen) Hprev Hm0) as [Hi1 Hdb].
  destruct (IH _ _ w1 _ a1 w2 Hv Ho Hr Hi1 (loop_step p i envs e eq_refl Hlen)
    (eq_sym (next_prev_snoc _ envs e _ eq_refl eq_refl)) Hm1) as (HI & HF & HD).
  rewrite <- app_assoc in HI. split; [done|]. split; [constructor; [split; done|done]|].
  rewrite HD, Hdb. done.
Qed.

(** With a new id and room for the version, the insert succeeds. *)
Lemma insert_built_run p ev id version o r prev db envs :
  Validate (ap_StreamID p) = Ok tt -> log_inv db envs ->
  version = (N.of_nat (length (stream_of (ap_StreamID p) envs)) + 1)%N -> (version <= max_int64)%N ->
  (N.of_nat (length envs) < max_int64)%N -> id ∉ map EventID envs ->
  exists gp db', insert_event (event_row (built p ev id version o r prev)) db = Ok (gp, db').
Proof.
  intros Hv Hi Hver Hmax Hlen Hid. unfold insert_event, bind_uint64. simpl.
  rewrite (proj2 (N.leb_le _ _) Hmax). simpl.
  replace (existsb _ _ || existsb _ _) with false.
  - destruct (N.leb_spec max_int64 (d_sequence db)) as [Hs|]; [rewrite (li_seq _ _ Hi) in Hs; lia|]. eauto.
  - symmetry. apply orb_false_iff.
    split; apply not_true_iff_false; rewrite existsb_exists; intros (row & Hrow%list_elem_of_In & HP);
      rewrite (li_rows _ _ Hi) in Hrow; apply list_elem_of_fmap in Hrow as (x & -> & Hx); simpl in HP.
    + apply andb_true_iff in HP as [HS%bool_decide_eq_true HV%N.eqb_eq].
      pose proof (li_wf _ _ Hi) as Hw. rewrite Forall_forall in Hw.
      apply Canonical_inj in HS; [|by apply Hw|done].
      assert (x ∈ stream_of (ap_StreamID p) envs) as Hxs by (by apply list_elem_of_filter).
      apply (numbered_elem _ _ _ _ (li_versions _ _ Hi _)) in Hxs. lia.
    + apply bool_decide_eq_true in HP. apply uuid_String_inj in HP. apply Hid. rewrite <- HP.
      by apply list_elem_of_fmap_2.
Qed.

(** A taken id fails the insert. *)
Lemma insert_built_taken p ev id version o r prev db envs :
  log_inv db envs -> (version <= max_int64)%N -> id ∈ map EventID envs ->
  insert_event (event_row (built p ev id version o r prev)) db = Err (SqliteError SQLITE_CONSTRAINT_UNIQUE).
Proof.
  intros Hi Hmax (x & -> & Hx)%list_elem_of_fmap. unfold insert_event, bind_uint64. simpl.
  rewrite (proj2 (N.leb_le _ _) Hmax). simpl.
  rewrite (proj2 (orb_true_iff _ _)); [done|right]. apply existsb_exists. exists (stored x).
  split; [|by apply bool_decide_eq_true]. apply list_elem_of_In. rewrite (li_rows _ _ Hi). by apply list_elem_of_fmap_2.
Qed.

Section Ids.
Context `{Env}.

(** The event ids the caller supplied (a zero id asks Append for a new one). *)
Definition own_ids (evs : list EventData) : list UUID :=
  filter (fun id => id <> uuid_Nil) (map ed_EventID evs).

(** They are distinct, and none is already in the log. *)
Definition ids_clear (evs : list EventData) (envs : list Envelope) : bool :=
  bool_decide (NoDup (own_ids evs) /\ Forall (fun id => id ∉ map EventID envs) (own_ids evs)).

(** The ids the generator returns at [n] steps from [t] on are distinct and
    unused: what uuid.NewV7 documents. *)
Definition ids_fresh (t n : nat) (known : list UUID) : Prop :=
  NoDup (map fresh_id (seq t n)) /\ Forall (fun id => id ∉ known) (map fresh_id (seq t n)).

Lemma ids_fresh_next t n known :
  ids_fresh t (S n) known -> (fresh_id t ∉ known) /\ ids_fresh (S t) n ([fresh_id t] ++ known).
Proof.
  unfold ids_fresh. cbn [seq map]. rewrite NoDup_cons, Forall_cons. intros ([Hin Hnd] & Hk & Hks).
  split; [done|]. split; [done|]. rewrite Forall_forall in *. intros id Hid.
  rewrite not_elem_of_app, list_elem_of_singleton. split; [by intros ->|auto].
Qed.

Lemma ids_fresh_less t n known : ids_fresh t (S n) known -> ids_fresh t n known.
Proof.
  unfold ids_fresh. rewrite seq_S, map_app. intros [(Hnd & _)%NoDup_app [Hf _]%Forall_app]. done.
Qed.

Lemma ids_fresh_from k t n m known :
  (k + n <= m)%nat -> ids_fresh t m known -> ids_fresh (t + k) n known.
Proof.
  intros Hm. unfold ids_fresh. replace m with (k + n + (m - (k + n)))%nat by lia.
  rewrite !seq_app, !map_app. intros [(Hnd & _)%NoDup_app [Hf _]%Forall_app].
  apply NoDup_app in Hnd as (_ & _ & Hnd). by apply Forall_app in Hf as [_ Hf].
Qed.

Lemma ids_fresh_mono t n known known' : known' ⊆ known -> ids_fresh t n known -> ids_fresh t n known'.
Proof.
  intros Hk [Hnd Hf]. split; [done|]. eapply Forall_impl; [exact Hf|]. intros id Hid Hin. by apply Hid, Hk.
Qed.

Lemma own_ids_nil ev evs : ed_EventID ev = uuid_Nil -> own_ids (ev :: evs) = own_ids evs.
Proof. intros Hn. unfold own_ids. cbn [map]. by rewrite filter_cons_False by auto. Qed.

Lemma own_ids_cons ev evs : ed_EventID ev <> uuid_Nil -> own_ids (ev :: evs) = ed_EventID ev :: own_ids evs.
Proof. intros Hn. unfold own_ids. cbn [map]. by rewrite filter_cons_True by auto. Qed.

(** Adding an event whose id is none of the caller's changes nothing. *)
Lemma ids_clear_other evs envs e :
  EventID e ∉ own_ids evs -> ids_clear evs (envs ++ [e]) = ids_clear evs envs.
Proof.
  intros Hin. unfold ids_clear. apply bool_decide_ext. rewrite !Forall_forall, map_app.
  split; intros [Hnd Hf]; (split; [done|]); intros id Hid; specialize (Hf id Hid); rewrite not_elem_of_app in *.
  - tauto.
  - split; [done|]. intros ->%list_elem_of_singleton. done.
Qed.

(** Adding the caller's next id leaves the remaining ones to check. *)
Lemma ids_clear_own ev evs envs e :
  ed_EventID ev <> uuid_Nil -> EventID e = ed_EventID ev -> ed_EventID ev ∉ map EventID envs ->
  ids_clear evs (envs ++ [e]) = ids_clear (ev :: evs) envs.
Proof.
  intros Hn He Hin. unfold ids_clear. apply bool_decide_ext.
  rewrite (own_ids_cons _ _ Hn), NoDup_cons, Forall_cons, !Forall_forall, map_app. cbn [map]. rewrite He.
  split; [intros [Hnd Hf]|intros ([Hni Hnd] & _ & Hf)]; split_and!; try done.
  - intros Hi. specialize (Hf _ Hi). rewrite not_elem_of_app, list_elem_of_singleton in Hf. tauto.
  - intros id Hid. specialize (Hf id Hid). rewrite not_elem_of_app in Hf. tauto.
  - intros id Hid. specialize (Hf id Hid). rewrite elem_of_app, list_elem_of_singleton. intros [Hx|Hx]; [done|by subst].
Qed.

Lemma ids_clear_taken ev evs envs :
  ed_EventID ev <> uuid_Nil -> ed_EventID ev ∈ map EventID envs -> ids_clear (ev :: evs) envs = false.
Proof.
  intros Hn Hin. apply bool_decide_eq_false. rewrite (own_ids_cons _ _ Hn), Forall_cons. tauto.
Qed.
End Ids.

(** How the insert loop ends: with the new envelopes, or in a conflict. *)
Definition loop_outcome (ok : bool) (r : res (list Envelope) * world DB) : Prop :=
  if ok then exists news w', r = (Ok news, w') else exists e w', r = (Err e, w') /\ Is e ErrConflict = true.

Lemma loop_outcome_bind b (m : M DB (list Envelope)) (f : list Envelope -> list Envelope) w :
  loop_outcome b (m w) -> loop_outcome b (bind m (fun l => ret (f l)) w).
Proof.
  unfold loop_outcome, bind, ret.
  destruct b; [intros (news & w' & ->); eauto|intros (e & w' & -> & He); eauto].
Qed.

Section Loop.
Context `{Env}.
Hypothesis Hnf : forall n, fault n = None.
Variables (p : AppendParams) (occurred recorded : time).
Hypothesis Hv : Validate (ap_StreamID p) = Ok tt.
Hypothesis Ho : in_layout occurred.
Hypothesis Hr : in_layout recorded.

(** The loop body once the event id is known. *)
Definition insert_rest (i : N) (prev : list byte) (ev : EventData) (evs : list EventData) (id : UUID) : M DB (list Envelope) :=
  let env := built p ev id (u64 (ap_ExpectedVersion p + i + 1)) occurred recorded prev in
  let! gp := catch (exec (insert_event (event_row env)))
               (fun err => if isConstraintViolation err
                           then throw (Errorf "version taken" (Sentinel ErrConflict))
                           else throw (Errorf "insert event" err)) in
  let! envs := append_events p occurred recorded (i + 1)
    (EnvelopeHash (new_envelope p ev id (u64 (ap_ExpectedVersion p + i + 1)) occurred recorded prev)) evs in
  ret (with_position env gp :: envs).

(** The loop's premises at index [i] with [evs] to go. *)
Record loop_at (i : N) (prev : list byte) (evs : list EventData) (w : world DB) (envs : list Envelope) : Prop := {
  la_inv : log_inv (w_db w) envs;
  la_index : (ap_ExpectedVersion p + i)%N = N.of_nat (length (stream_of (ap_StreamID p) envs));
  la_prev : prev = next_prev (ap_StreamID p) envs;
  la_fresh : ids_fresh (w_tick w) (2 * length evs) (own_ids evs ++ map EventID envs);
  la_room : (N.of_nat (length envs + length evs) <= max_int64)%N
}.

Lemma insert_rest_run i prev ev evs id w t envs b :
  (forall i prev w envs, loop_at i prev evs w envs ->
     loop_outcome (ids_clear evs envs) (append_events p occurred recorded i prev evs w)) ->
  loop_at i prev (ev :: evs) w envs -> id ∉ map EventID envs ->
  (forall e, EventID e = id -> ids_fresh (S t) (2 * length evs) (own_ids evs ++ map EventID (envs ++ [e]))
     /\ ids_clear evs (envs ++ [e]) = b) ->
  loop_outcome b (insert_rest i prev ev evs id (MkWorld (w_db w) t)).
Proof.
  intros IH [Hi Hlen Hprev _ Hmax] Hid Hb. cbn [length] in Hmax.
  pose proof (next_version _ _ _ _ Hi Hlen) as Hver.
  assert (length (stream_of (ap_StreamID p) envs) <= length envs)%nat as Hsub by apply length_filter.
  destruct (insert_built_run p ev id _ occurred recorded prev _ _ Hv Hi Hver) as (gp & db' & Hins); [lia..|done|].
  destruct (insert_built_inv _ _ _ _ _ _ _ _ _ _ _ Hv Ho Hr Hi Hver Hprev Hins) as [Hi1 _].
  unfold insert_rest. cbv zeta. unfold bind at 1, catch, exec. rewrite Hnf. cbn [w_db w_tick]. rewrite Hins.
  set (e := with_position _ gp) in *. destruct (Hb e eq_refl) as [Hf <-]. apply loop_outcome_bind, IH.
  split; [done|by apply loop_step|symmetry; by apply next_prev_snoc|done|rewrite length_app; simpl; lia].
Qed.

(** On a healthy database the loop succeeds when the caller's ids are
    distinct and new, and otherwise ends in a conflict. *)
Lemma append_events_run evs : forall i prev w envs,
  loop_at i prev evs w envs -> loop_outcome (ids_clear evs envs) (append_events p occurred recorded i prev evs w).
Proof.
  induction evs as [|ev evs IH]; intros i prev w envs Hat; [by exists [], w|].
  pose proof (la_fresh _ _ _ _ _ Hat) as Hfr.
  replace (2 * length (ev :: evs))%nat with (S (S (2 * length evs))) in Hfr by (simpl; lia).
  destruct (ids_fresh_next _ _ _ Hfr) as [Hnin Hfr1]. pose proof (ids_fresh_less _ _ _ Hfr1) as Hfr2.
  apply ids_fresh_next in Hfr1 as [_ Hfr1].
  change (append_events p occurred recorded i prev (ev :: evs))
    with (bind (if bool_decide (ed_EventID ev = uuid_Nil) then newV7 else ret (ed_EventID ev)) (insert_rest i prev ev evs)).
  case_bool_decide as Hnil; unfold bind.
  - rewrite (own_ids_nil _ _ Hnil), not_elem_of_app in Hnin. destruct Hnin as [Hno Hne].
    apply (insert_rest_run i prev ev evs _ w (S (w_tick w)) envs _ IH Hat Hne).
    intros e He. split.
    + eapply ids_fresh_mono; [|exact Hfr1]. rewrite (own_ids_nil _ _ Hnil), map_app. cbn [map]. rewrite He.
      intros id. rewrite !elem_of_app. tauto.
    + rewrite ids_clear_other by (by rewrite He). unfold ids_clear. by rewrite (own_ids_nil _ _ Hnil).
  - unfold ret. destruct w as [db t]. destruct (decide (ed_EventID ev ∈ map EventID envs)) as [Hin|Hne].
    + rewrite (ids_clear_taken _ _ _ Hnil Hin). unfold insert_rest. cbv zeta. unfold bind at 1, catch, exec. rewrite Hnf.
      rewrite (insert_built_taken _ _ _ _ _ _ _ _ envs (la_inv _ _ _ _ _ Hat)) by
        (try done; rewrite (next_version _ _ _ _ (la_inv _ _ _ _ _ Hat) (la_index _ _ _ _ _ Hat));
         pose proof (la_room _ _ _ _ _ Hat); pose proof (length_filter (fun e => env_StreamID e = ap_StreamID p) envs);
         unfold stream_of; simpl in *; lia).
      eexists _, _. split; [reflexivity|by vm_compute].
    + apply (insert_rest_run i prev ev evs _ (MkWorld db t) t envs _ IH Hat Hne).
      intros e He. split; [|by apply ids_clear_own].
      eapply ids_fresh_mono; [|exact Hfr2]. rewrite (own_ids_cons _ _ Hnil), map_app. cbn [map]. rewrite He.
      intros id. rewrite !elem_of_app, !list_elem_of_singleton, elem_of_cons. tauto.
Qed.
End Loop.
End Insert.

(** ** Claims *)

Abbreviation claim_map := (gmap (string * string) string).

Definition op_key (op : ConstraintOp) : string * string := (op_Scope op, op_Value op).

(** What the two passes of applyClaims do to the index. *)
Fixpoint release_all (sid : string) (ops : list ConstraintOp) (m : claim_map) : claim_map :=
  match ops with
  | [] => m
  | op :: ops' =>
      release_all sid ops'
        (if (op_Op op =? ReleaseOp)%N && bool_decide (m !! op_key op = Some sid) then delete (op_key op) m else m)
  end.

Fixpoint claim_all (sid : string) (ops : list ConstraintOp) (m : claim_map) : option claim_map :=
  match ops with
  | [] => Some m
  | op :: ops' =>
      if (op_Op op =? ClaimOp)%N then
        match m !! op_key op with
        | Some _ => None
        | None => claim_all sid ops' (<[op_key op := sid]> m)
        end
      else claim_all sid ops' m
  end.

Section Claims.
Context `{Env}.

Lemma release_loop sid ops w w' :
  forM (fun op => if negb (op_Op op =? ReleaseOp)%N then ret tt else
      exec (delete_claim sid op) wrap "release claim") ops w = (Ok tt, w') ->
  w_db w' = set_claims (release_all sid ops (d_unique_claims (w_db w))) (w_db w).
Proof.
  revert w; induction ops as [|op ops IH]; intros w; cbn [forM release_all].
  { unfold ret. intros [= <-]. by destruct (w_db w). }
  intros HR. apply bind_Ok in HR as ([] & w1 & Hop & HR). apply IH in HR. rewrite HR. clear HR IH.
  destruct (op_Op op =? ReleaseOp)%N; cbn [negb andb] in *.
  - apply catch_Ok, exec_Ok in Hop. unfold delete_claim in Hop. fold (op_key op) in Hop.
    case_bool_decide; simplify_eq/=; by rewrite <- Hop.
  - unfold ret in Hop. by simplify_eq.
Qed.

Lemma claim_loop sid ops w w' :
  forM (fun op => if negb (op_Op op =? ClaimOp)%N then ret tt else
      catch (exec (insert_claim sid op))
        (fun err => if isConstraintViolation err
                    then throw (Errorf "claim" (Sentinel ErrConstraintViolated))
                    else throw (Errorf "claim" err))) ops w = (Ok tt, w') ->
  exists m, claim_all sid ops (d_unique_claims (w_db w)) = Some m /\ w_db w' = set_claims m (w_db w).
Proof.
  revert w; induction ops as [|op ops IH]; intros w; cbn [forM claim_all].
  { unfold ret. intros [= <-]. exists (d_unique_claims (w_db w)). by destruct (w_db w). }
  intros HR. apply bind_Ok in HR as ([] & w1 & Hop & HR). apply IH in HR as (m & Hm & HR). rewrite HR. clear HR IH.
  destruct (op_Op op =? ClaimOp)%N; cbn [negb] in *.
  - apply catch_if_Ok, exec_Ok in Hop. unfold insert_claim in Hop. fold (op_key op) in Hop.
    destruct (d_unique_claims (w_db w) !! op_key op); [done|].
    injection Hop as Hop. rewrite <- Hop in Hm |- *. exists m. split; [done|by destruct (w_db w)].
  - unfold ret in Hop. simplify_eq. by exists m.
Qed.

Lemma applyClaims_spec sid ops w w' :
  applyClaims sid ops w = (Ok tt, w') ->
  exists m, claim_all sid ops (release_all sid ops (d_unique_claims (w_db w))) = Some m
    /\ w_db w' = set_claims m (w_db w).
Proof.
  unfold applyClaims. intros HR. apply bind_Ok in HR as ([] & w1 & HR & HC).
  apply release_loop in HR. apply claim_loop in HC as (m & Hm & HC).
  rewrite HR in Hm, HC. exists m. split; [exact Hm|]. rewrite HC. by destruct (w_db w).
Qed.
End Claims.

Lemma release_all_other sid ops m k o :
  o <> sid -> m !! k = Some o -> release_all sid ops m !! k = Some o.
Proof.
  intros Ho. revert m; induction ops as [|op ops IH]; intros m Hm; simpl; [done|]. apply IH.
  case_match eqn:E; [|done]. apply andb_true_iff in E as [_ E%bool_decide_eq_true].
  destruct (decide (op_key op = k)) as [<-|]; [congruence|by rewrite lookup_delete_ne].
Qed.

Lemma release_all_subseteq sid ops m k o :
  release_all sid ops m !! k = Some o -> m !! k = Some o.
Proof.
  revert m; induction ops as [|op ops IH]; intros m; simpl; [done|]. intros Hm%IH.
  case_match; [|done]. by apply lookup_delete_Some in Hm as [_ Hm].
Qed.

Lemma claim_all_keeps sid ops m m' k o :
  claim_all sid ops m = Some m' -> m !! k = Some o -> m' !! k = Some o.
Proof.
  revert m; induction ops as [|op ops IH]; intros m; simpl; [by intros [= ->]|].
  repeat case_match; intros Hc Hm; simplify_eq; eapply IH; eauto.
  rewrite lookup_insert_ne; [done|congruence].
Qed.

Lemma claim_all_claims sid ops m m' op :
  claim_all sid ops m = Some m' -> op ∈ ops -> op_Op op = ClaimOp -> m' !! op_key op = Some sid.
Proof.
  revert m; induction ops as [|x ops IH]; intros m; simpl; [by intros _ ?%not_elem_of_nil|].
  intros Hc [->|Hop]%elem_of_cons Hk.
  - rewrite Hk in Hc. simpl in Hc. case_match; [done|].
    eapply claim_all_keeps; [exact Hc|]. apply lookup_insert_eq.
  - repeat case_match; simplify_eq; eauto.
Qed.

Lemma claim_all_new sid ops m m' k o :
  claim_all sid ops m = Some m' -> m' !! k = Some o -> m !! k = Some o \/ o = sid.
Proof.
  revert m; induction ops as [|op ops IH]; intros m; simpl; [intros [= ->]; by left|].
  repeat case_match; intros Hc Hm; simplify_eq; [|by eapply IH].
  destruct (IH _ Hc Hm) as [Hi|]; [|by right].
  apply lookup_insert_Some in Hi as [[_ <-]|[_ Hi]]; [by right|by left].
Qed.

(** ** Append *)

Lemma TruncateMicros_in_layout t : in_layout t -> in_layout (TruncateMicros t).
Proof.
  unfold in_layout, TruncateMicros, Truncate, Microsecond.
  assert (days_of 0 1 1 * day_ns = -62167219200000000000)%Z as -> by (by vm_compute).
  intros [Hlo Hhi]. unfold zero_time.
  pose proof (Z.div_mod (t - -62135596800000000000) 1000 ltac:(done)).
  pose proof (Z.mod_pos_bound (t - -62135596800000000000) 1000 ltac:(done)). lia.
Qed.

Lemma TruncateMicros_mono a b : (a <= b)%Z -> (TruncateMicros a <= TruncateMicros b)%Z.
Proof.
  intros Hab. unfold TruncateMicros, Truncate, Microsecond.
  pose proof (Z.div_mod (a - zero_time) 1000 ltac:(done)). pose proof (Z.div_mod (b - zero_time) 1000 ltac:(done)).
  pose proof (Z.div_le_mono (a - zero_time) (b - zero_time) 1000 ltac:(done) ltac:(lia)). lia.
Qed.

(** The instants the environment supplies fit the timestamp columns. *)
Definition clock_ok `{Env} : Prop := forall n, in_layout (clock n).

(** The domain time an append records: the caller's, or [now] when the caller
    left it zero, to the microsecond. *)
Definition occurred_of (p : AppendParams) (now : time) : time :=
  TruncateMicros (if IsZero (ap_OccurredAt p) then now else ap_OccurredAt p).

(** What a committed append is, in terms of the log before and after, the
    domain time and the commit time it recorded. *)
Record appended (p : AppendParams) (envs : list Envelope) (claims claims' : claim_map)
    (occurred recorded : time) (r : AppendResult) : Prop := {
  ad_valid : Validate (ap_StreamID p) = Ok tt;
  ad_expected : ap_ExpectedVersion p = N.of_nat (length (stream_of (ap_StreamID p) envs));
  ad_from : ar_FromVersion r = ap_ExpectedVersion p;
  ad_to : ar_ToVersion r = (ap_ExpectedVersion p + N.of_nat (length (ap_Events p)))%N;
  ad_carries : Forall2 (carries p occurred recorded) (ap_Events p) (ar_Envelopes r);
  ad_claims : claim_all (Canonical (ap_StreamID p)) (ap_Constraints p)
                (release_all (Canonical (ap_StreamID p)) (ap_Constraints p) claims) = Some claims'
}.

Section Append.
Context `{UuidLib} `{Env}.

Lemma Append_Err cap p w e w' : Append cap p w = (Err e, w') -> w_db w' = w_db w.
Proof.
  revert w e w'. change (err_keeps (Append cap p)). unfold Append. eauto 10 with eslite.
Qed.

Lemma carries_sid p o r evs news :
  Forall2 (carries p o r) evs news -> Forall (fun e => env_StreamID e = ap_StreamID p) news.
Proof. induction 1; constructor; [by eapply ca_sid|done]. Qed.

Lemma tick_readHead sid : tick_mono (readHead sid).
Proof. unfold readHead. eauto 10 with eslite. Qed.

Lemma tick_append_events p o r evs i prev : tick_mono (append_events p o r i prev evs).
Proof. revert i prev; induction evs; intros i prev; simpl; eauto 20 with eslite. Qed.

Lemma tick_applyClaims sid ops : tick_mono (applyClaims sid ops).
Proof. unfold applyClaims. eauto 20 with eslite. Qed.

Lemma tick_Append cap p : tick_mono (Append cap p).
Proof. unfold Append. eauto 20 using tick_readHead, tick_append_events, tick_applyClaims with eslite. Qed.

Lemma Append_Ok cap p w r w' envs :
  log_inv (w_db w) envs -> clock_ok -> occurred_ok (ap_OccurredAt p) ->
  Append cap p w = (Ok r, w') ->
  log_inv (w_db w') (envs ++ ar_Envelopes r)
  /\ (exists n, (w_tick w <= n < w_tick w')%nat
        /\ appended p envs (d_unique_claims (w_db w)) (d_unique_claims (w_db w'))
             (occurred_of p (clock (w_tick w))) (TruncateMicros (clock n)) r)
  /\ w_db w' = set_claims (d_unique_claims (w_db w'))
                 (set_events (d_events (w_db w')) (d_sequence (w_db w')) (w_db w)).
Proof.
  intros Hi Hclk Hocc HA. unfold Append in HA.
  apply bind_Ok in HA as ([] & w1 & HV & HA). unfold lift in HV. injection HV as HV <-.
  apply bind_Ok in HA as ([] & w1 & Hops & HA). unfold lift in Hops. injection Hops as Hops <-.
  apply bind_Ok in HA as ([] & w1 & Hpay & HA). unfold lift in Hpay. injection Hpay as Hpay <-.
  apply bind_Ok in HA as (occurred & w1 & HO & HA).
  assert (w_db w1 = w_db w /\ (w_tick w <= w_tick w1)%nat /\ in_layout occurred
    /\ TruncateMicros occurred = occurred_of p (clock (w_tick w))) as (Hw1 & Ht1 & Hol & Hoc).
  { unfold occurred_of. destruct (IsZero (ap_OccurredAt p)) eqn:Hz; unfold Now, ret in HO; simplify_eq/=.
    - split; [done|]. split; [lia|]. split; [apply Hclk|done].
    - split; [done|]. split; [lia|]. split; [|done]. destruct Hocc as [Hz0|]; [|done].
      unfold IsZero in Hz. rewrite Hz0, Z.eqb_refl in Hz. done. }
  apply transaction_Ok in HA as (w5 & HA & Hw' & Ht').
  apply bind_Ok in HA as ([cur prev] & w2 & HR & HA).
  assert (w_db (tick w1) = w_db w) as Hw1' by done.
  destruct (readHead_spec _ _ _ _ _ _ _ Hi HV Hw1' HR) as (Hw2 & Hcur & Hprev).
  cbv beta iota in HA. destruct (N.eqb_spec cur (ap_ExpectedVersion p)) as [Hexp|]; [|done]. simpl in HA.
  apply bind_Ok in HA as (now & w3 & HN & HA). unfold Now in HN. injection HN as Hnow <-.
  apply bind_Ok in HA as (news & w4 & HE & HA).
  assert (log_inv (w_db (tick w2)) envs) as Hi2 by (simpl; by rewrite Hw2).
  destruct (append_events_spec p _ _ _ 0%N _ _ envs _ _ HV (TruncateMicros_in_layout _ Hol)
    (TruncateMicros_in_layout now ltac:(rewrite <- Hnow; apply Hclk)) Hi2 ltac:(lia) Hprev HE) as (Hi4 & HF & HD).
  apply bind_Ok in HA as ([] & w6 & HC & HA). unfold ret in HA. injection HA as <- <-. simpl.
  pose proof HC as HC0. apply applyClaims_spec in HC as (m & Hm & HD6). rewrite Hw', HD6.
  simpl in HD. rewrite Hw2 in HD.
  assert (d_unique_claims (w_db w4) = d_unique_claims (w_db w)) as Hcl by (by rewrite HD).
  split; [by eapply log_inv_ext; [..|exact Hi4]|]. split; [|by rewrite HD].
  exists (w_tick w2). split.
  { pose proof (tick_readHead (ap_StreamID p) (tick w1)) as T1. rewrite HR in T1. simpl in T1.
    pose proof (tick_append_events p (TruncateMicros occurred) (TruncateMicros now) (ap_Events p) 0 prev (tick w2)) as T2.
    rewrite HE in T2. simpl in T2.
    pose proof (tick_applyClaims (Canonical (ap_StreamID p)) (ap_Constraints p) w4) as T3. rewrite HC0 in T3.
    simpl in T3. lia. }
  split; simpl; try done.
  - congruence.
  - pose proof (stream_length_bound _ _ (ap_StreamID p) Hi4) as HB.
    rewrite stream_of_app, (stream_of_own _ news (carries_sid _ _ _ _ _ HF)), length_app in HB.
    rewrite <- (Forall2_length _ _ _ HF) in HB. rewrite u64_small; [done|]. unfold max_int64, u64_mod in *. lia.
  - by rewrite <- Hoc, Hnow.
  - rewrite <- Hcl. done.
Qed.
End Append.
