(* ===== verification/SqliteTheorems.v ===== *)
(** * Properties of the SQLite store

    Reads against the log invariant, the exact outcome of an append, the
    reachable databases, time travel and claims. *)
From S2P Require Import Prelude Sha256 Es Hash Chain Anchor Timestamp Effect Store Sql Sqlite.
From S2P Require Import SqliteCorrect.

(** ** Reads return the stored envelopes *)

Definition no_fault `{Env} : Prop := forall n, fault n = None.

(** MAX(version) over contiguous versions is their number. *)
Lemma max_version_numbered `{UuidLib} l :
  numbered Version 1%N l -> foldr (fun r m => N.max (r_version r) m) 0%N (map stored l) = N.of_nat (length l).
Proof.
  induction l as [|x l IH] using rev_ind; [done|]. rewrite numbered_app. intros [Hn [Hx _]].
  rewrite map_app, foldr_app, length_app. simpl.
  assert (forall a, (foldr (fun r m => N.max (r_version r) m) a (map stored l)) =
    N.max a (foldr (fun r m => N.max (r_version r) m) 0 (map stored l)))%N as Hacc.
  { intros a. clear. induction l as [|y l IH]; simpl; [lia|]. rewrite IH. lia. }
  rewrite Hacc, IH by done. lia.
Qed.

Section Reads.
Context `{UuidLib} `{Env}.
Variable cap : Z.
Variables (w : world DB) (envs : list Envelope).
Hypothesis Hinv : log_inv (w_db w) envs.

Lemma in_log_wf l : (forall e, e ∈ l -> e ∈ envs) -> Forall stored_wf l.
Proof.
  intros Hl. pose proof (li_wf _ _ Hinv) as Hw. rewrite Forall_forall in *. auto.
Qed.

Lemma queryEnvelopes_run q l :
  fault (w_tick w) = None -> q (w_db w) = map stored l -> (forall e, e ∈ l -> e ∈ envs) ->
  queryEnvelopes q w = (Ok l, tick w).
Proof.
  intros Hf Hq Hl. unfold queryEnvelopes, query, exec. rewrite Hf, Hq, scan_stored by (by apply in_log_wf). done.
Qed.

(** A filtered, ordered SELECT over one stream. *)
Lemma select_stream sid (P : EventRow -> Prop) (Q : Envelope -> Prop)
    `{!forall r, Decision (P r)} `{!forall e, Decision (Q e)} :
  (forall e, e ∈ envs -> P (stored e) <-> (env_StreamID e = sid /\ Q e)) ->
  order_by r_version (filter P (d_events (w_db w))) = map stored (filter Q (stream_of sid envs)).
Proof.
  intros HPQ. rewrite (li_rows _ _ Hinv).
  rewrite (filter_map_comm stored P (fun e => Q e /\ env_StreamID e = sid)) by (intros e He; rewrite HPQ by done; tauto).
  unfold stream_of. rewrite list_filter_filter. apply order_by_sorted.
  rewrite <- list_filter_filter. apply sorted_map with (R := fun a b => (Version a < Version b)%N); [done|].
  apply sorted_filter. by eapply numbered_sorted, (li_versions _ _ Hinv).
Qed.

Lemma stored_stream_iff sid e :
  Validate sid = Ok tt -> e ∈ envs -> r_stream_id (stored e) = Canonical sid <-> env_StreamID e = sid.
Proof.
  intros Hv He. simpl. split; [|by intros ->]. pose proof (li_wf _ _ Hinv) as Hw. rewrite Forall_forall in Hw.
  apply Canonical_inj; [by apply Hw|done].
Qed.

Lemma stream_of_sub sid (Q : Envelope -> Prop) `{!forall e, Decision (Q e)} e :
  e ∈ filter Q (stream_of sid envs) -> e ∈ envs.
Proof. by intros [_ [_ He]%list_elem_of_filter]%list_elem_of_filter. Qed.

Lemma ReadStream_run sid from to :
  Validate sid = Ok tt -> (from <= max_int64)%N -> (to <= max_int64)%N -> fault (w_tick w) = None ->
  ReadStream sid from to w = (Ok (filter (in_version_range from to) (stream_of sid envs)), tick w).
Proof.
  intros Hv Hfr Hto Hf. unfold ReadStream, bind, lift. rewrite Hv. unfold bind_uint64.
  rewrite (proj2 (N.leb_le _ _) Hfr), (proj2 (N.leb_le _ _) Hto).
  replace (if (0 <? to)%N then Ok to else Ok 0%N) with (Ok (E:=error) (if (0 <? to)%N then to else 0%N)) by (by case_goal).
  apply queryEnvelopes_run; [done| |apply stream_of_sub].
  apply select_stream. intros e He. rewrite (stored_stream_iff sid e Hv He). simpl.
  unfold in_version_range. rewrite Is_true_true, andb_true_iff, orb_true_iff, N.ltb_lt, N.leb_le, N.eqb_eq.
  split; [intros (Hs & Hlt & Hto')|intros (Hs & Hlt & Hto')]; repeat split; auto; lia.
Qed.

Lemma ReadStreamAsOf_run sid asOf :
  Validate sid = Ok tt -> in_layout asOf -> fault (w_tick w) = None ->
  ReadStreamAsOf sid asOf w
  = (Ok (filter (fun e => RecordedAt e <= asOf)%Z (stream_of sid envs)), tick w).
Proof.
  intros Hv Ha Hf. unfold ReadStreamAsOf, bind, lift. rewrite Hv.
  apply queryEnvelopes_run; [done| |apply stream_of_sub].
  apply select_stream. intros e He. rewrite (stored_stream_iff sid e Hv He). simpl.
  pose proof (li_wf _ _ Hinv) as Hw. rewrite Forall_forall in Hw.
  rewrite formatTS_leb, Z.leb_le by (done || by apply Hw). done.
Qed.

Lemma ReadAll_run from limit :
  (from <= max_int64)%N -> fault (w_tick w) = None ->
  ReadAll from limit w
  = (Ok (take (Z.to_nat (if (limit <=? 0)%Z then 100 else limit))
           (drop (N.to_nat from) envs)), tick w).
Proof.
  intros Hfr Hf. unfold ReadAll, bind, lift, bind_uint64. rewrite (proj2 (N.leb_le _ _) Hfr).
  apply queryEnvelopes_run; [done| |].
  2:{ intros e He. apply elem_of_take in He as (i & He & _). rewrite lookup_drop in He. by eapply list_elem_of_lookup_2. }
  rewrite (li_rows _ _ Hinv).
  rewrite (filter_map_comm stored _ (fun e => from < GlobalPosition e)%N) by done.
  rewrite order_by_sorted.
  2:{ apply sorted_map with (R := fun a b => (GlobalPosition a < GlobalPosition b)%N); [done|].
      by eapply sorted_filter, numbered_sorted, (li_positions _ _ Hinv). }
  change (take ?n (map stored ?l)) with (take n (stored <$> l)). rewrite <- fmap_take.
  change (map stored ?l) with (stored <$> l). do 2 f_equal.
  rewrite <- (take_ge (drop (N.to_nat from) envs) (length envs)) by (rewrite length_drop; lia).
  apply (filter_numbered GlobalPosition _ 1%N envs (N.to_nat from) (length envs) (li_positions _ _ Hinv)).
  intros e He. pose proof (numbered_elem _ _ _ _ (li_positions _ _ Hinv) He). lia.
Qed.

Lemma CurrentStreamVersion_run sid :
  Validate sid = Ok tt -> fault (w_tick w) = None ->
  CurrentStreamVersion sid w = (Ok (N.of_nat (length (stream_of sid envs))), tick w).
Proof.
  intros Hv Hf. unfold CurrentStreamVersion, bind, lift. rewrite Hv. unfold query, exec. rewrite Hf. simpl.
  rewrite (stream_rows_stored _ _ _ Hinv Hv). unfold tick. do 3 f_equal.
  apply max_version_numbered, (li_versions _ _ Hinv sid).
Qed.
End Reads.

(** ** The exact outcome of an append when the database does not fail *)

Section Outcome.
Context `{UuidLib} `{Env}.
Hypothesis Hnf : no_fault.

Lemma release_run sid ops w :
  exists w', forM (fun op => if negb (op_Op op =? ReleaseOp)%N then ret tt else
      exec (delete_claim sid op) wrap "release claim") ops w = (Ok tt, w').
Proof.
  revert w; induction ops as [|op ops IH]; intros w; simpl; [by exists w|]. unfold bind.
  destruct (negb _); [apply IH|]. unfold catch, exec. rewrite Hnf. unfold delete_claim.
  case_bool_decide; apply IH.
Qed.

Lemma claim_one sid op w :
  let run := catch (exec (insert_claim sid op))
        (fun err => if isConstraintViolation err
                    then throw (Errorf "claim" (Sentinel ErrConstraintViolated))
                    else throw (Errorf "claim" err)) w in
  match d_unique_claims (w_db w) !! op_key op with
  | Some _ => exists e w', run = (Err e, w') /\ Is e ErrConstraintViolated = true
  | None => run = (Ok tt, MkWorld (set_claims (<[op_key op := sid]> (d_unique_claims (w_db w))) (w_db w)) (S (w_tick w)))
  end.
Proof.
  cbv zeta. unfold catch, exec. rewrite Hnf. unfold insert_claim. fold (op_key op).
  destruct (d_unique_claims (w_db w) !! op_key op); [|done].
  eexists _, _. split; [reflexivity|]. by vm_compute.
Qed.

Lemma claim_run sid ops w :
  let run := forM (fun op => if negb (op_Op op =? ClaimOp)%N then ret tt else
      catch (exec (insert_claim sid op))
        (fun err => if isConstraintViolation err
                    then throw (Errorf "claim" (Sentinel ErrConstraintViolated))
                    else throw (Errorf "claim" err))) ops w in
  match claim_all sid ops (d_unique_claims (w_db w)) with
  | Some _ => exists w', run = (Ok tt, w')
  | None => exists e w', run = (Err e, w') /\ Is e ErrConstraintViolated = true
  end.
Proof.
  cbv zeta. revert w; induction ops as [|op ops IH]; intros w; cbn [forM claim_all]; [by exists w|].
  pose proof (claim_one sid op w) as H1. unfold bind.
  destruct (op_Op op =? ClaimOp)%N; cbn [negb]; [|apply (IH w)].
  destruct (d_unique_claims (w_db w) !! op_key op) eqn:Hk.
  - destruct H1 as (e & w' & -> & He). eauto.
  - rewrite H1. exact (IH (MkWorld (set_claims (<[op_key op := sid]> (d_unique_claims (w_db w))) (w_db w)) (S (w_tick w)))).
Qed.

Lemma applyClaims_run sid ops w :
  match claim_all sid ops (release_all sid ops (d_unique_claims (w_db w))) with
  | Some _ => exists w', applyClaims sid ops w = (Ok tt, w')
  | None => exists e w', applyClaims sid ops w = (Err e, w') /\ Is e ErrConstraintViolated = true
  end.
Proof.
  unfold applyClaims, bind. destruct (release_run sid ops w) as [w1 HR]. rewrite HR.
  apply release_loop in HR. pose proof (claim_run sid ops w1) as HC. rewrite HR in HC. exact HC.
Qed.

Lemma readHead_run sid w envs :
  log_inv (w_db w) envs -> Validate sid = Ok tt ->
  exists w', readHead sid w = (Ok (N.of_nat (length (stream_of sid envs)), next_prev sid envs), w')
    /\ w_db w' = w_db w /\ w_tick w' = S (w_tick w).
Proof.
  intros Hi Hv. destruct (readHead sid w) as [[[cur prev]|e] w'] eqn:HR.
  - destruct (readHead_spec _ _ _ _ _ _ _ Hi Hv eq_refl HR) as (Hw & -> & ->). exists w'. split; [done|]. split; [done|].
    unfold readHead, bind, catch, query, exec in HR. rewrite Hnf in HR. simpl in HR.
    repeat case_match; unfold ret in *; by simplify_eq.
  - exfalso. unfold readHead, bind, catch, query, exec in HR. rewrite Hnf in HR. simpl in HR.
    repeat case_match; unfold ret in *; simplify_eq.
Qed.

(** The request is well formed and the log has room for its events. *)
Record request_ok (cap : Z) (p : AppendParams) (envs : list Envelope) : Prop := {
  rq_sid : Validate (ap_StreamID p) = Ok tt;
  rq_ops : validate_ops (ap_Constraints p) = Ok tt;
  rq_payloads : check_payloads cap (ap_Events p) = Ok tt;
  rq_occurred : occurred_ok (ap_OccurredAt p);
  rq_room : (N.of_nat (length envs + length (ap_Events p)) <= max_int64)%N
}.

(** The ids newV7 can return while the request runs (at most two steps of the
    environment per event, behind the four that open the transaction) are new:
    distinct, none of the caller's, none in the log. *)
Definition generated_fresh (p : AppendParams) (w : world DB) (envs : list Envelope) : Prop :=
  ids_fresh (w_tick w) (2 * length (ap_Events p) + 4) (own_ids (ap_Events p) ++ map EventID envs).

(** The append reaches its claims: the stream is at the expected version, and
    the event ids the caller supplied are distinct and not stored yet. *)
Definition admitted (p : AppendParams) (envs : list Envelope) : bool :=
  (N.of_nat (length (stream_of (ap_StreamID p) envs)) =? ap_ExpectedVersion p)%N && ids_clear (ap_Events p) envs.

(** The claims once its releases and claims are applied; none when one is taken. *)
Definition settled (p : AppendParams) (claims : claim_map) : option claim_map :=
  claim_all (Canonical (ap_StreamID p)) (ap_Constraints p)
    (release_all (Canonical (ap_StreamID p)) (ap_Constraints p) claims).

(** What the caller of Append must see: a conflict when the append is not
    admitted; else a constraint violation when a claim is taken; else success. *)
Definition append_outcome (p : AppendParams) (envs : list Envelope) (claims : claim_map)
    (r : res AppendResult) : Prop :=
  if admitted p envs then
    match settled p claims with
    | Some _ => exists a, r = Ok a
    | None => exists e, r = Err e /\ Is e ErrConstraintViolated = true
    end
  else exists e, r = Err e /\ Is e ErrConflict = true.

Lemma outcome_conflict p envs claims r :
  append_outcome p envs claims r -> admitted p envs = false -> exists e, r = Err e /\ Is e ErrConflict = true.
Proof. unfold append_outcome. destruct (admitted p envs); [done|auto]. Qed.

Lemma outcome_violated p envs claims r :
  append_outcome p envs claims r -> admitted p envs = true -> bool_decide (settled p claims = None) = true ->
  exists e, r = Err e /\ Is e ErrConstraintViolated = true.
Proof. unfold append_outcome. intros HO HA HC%bool_decide_eq_true. by rewrite HA, HC in HO. Qed.

Lemma outcome_done p envs claims r :
  append_outcome p envs claims r -> admitted p envs = true -> bool_decide (is_Some (settled p claims)) = true ->
  exists a, r = Ok a.
Proof. unfold append_outcome. intros HO HA [m HC]%bool_decide_eq_true. by rewrite HA, HC in HO. Qed.

Lemma Append_run cap p w envs :
  log_inv (w_db w) envs -> clock_ok -> request_ok cap p envs -> generated_fresh p w envs ->
  append_outcome p envs (d_unique_claims (w_db w)) (Append cap p w).1.
Proof.
  intros Hi Hclk [] Hfr. unfold Append, bind at 1 2 3, lift. rewrite rq_sid0, rq_ops0, rq_payloads0.
  unfold bind at 1.
  assert (exists o w1, (if IsZero (ap_OccurredAt p) then Now else ret (ap_OccurredAt p)) w = (Ok o, w1)
    /\ in_layout o /\ w_db w1 = w_db w /\ (w_tick w <= w_tick w1 <= w_tick w + 1)%nat) as (o & w1 & -> & Ho & Hw1 & Ht1).
  { destruct (IsZero (ap_OccurredAt p)) eqn:Hz; eexists _, _; (split; [reflexivity|]); (split; [|split; [done|simpl; lia]]).
    - apply Hclk.
    - destruct rq_occurred0 as [E|]; [|done]. unfold IsZero in Hz. by rewrite E, Z.eqb_refl in Hz. }
  unfold transaction, query, exec. rewrite Hnf. cbn [result_bind]. unfold bind at 1.
  destruct (readHead_run (ap_StreamID p) (MkWorld (w_db w1) (S (w_tick w1))) envs) as (w2 & -> & Hw2 & Ht2);
    [simpl; by rewrite Hw1|done|]. simpl in Hw2, Ht2.
  destruct (N.eqb_spec (N.of_nat (length (stream_of (ap_StreamID p) envs))) (ap_ExpectedVersion p)) as [Hexp|Hexp]; simpl.
  2:{ unfold append_outcome, admitted. rewrite (proj2 (N.eqb_neq _ _) Hexp). eexists. split; [reflexivity|]. by vm_compute. }
  assert (loop_at p 0 (next_prev (ap_StreamID p) envs) (ap_Events p) (tick w2) envs) as Hloop.
  { split; [simpl; by rewrite Hw2, Hw1|lia|done| |done]. cbn [tick w_tick]. rewrite Ht2.
    replace (S (S (S (w_tick w1)))) with (w_tick w + (3 + (w_tick w1 - w_tick w)))%nat by lia.
    eapply ids_fresh_from; [|exact Hfr]. lia. }
  unfold bind at 1, Now. unfold bind at 1.
  pose proof (append_events_run Hnf p (TruncateMicros o) (TruncateMicros (clock (w_tick w2))) rq_sid0
    (TruncateMicros_in_layout _ Ho) (TruncateMicros_in_layout _ (Hclk _)) (ap_Events p) 0
    (next_prev (ap_StreamID p) envs) (tick w2) envs) as HE.
  destruct (ids_clear (ap_Events p) envs) eqn:Hids.
  2:{ destruct HE as (e & w3 & -> & He); [exact Hloop|]. unfold append_outcome, admitted. rewrite Hids, andb_false_r. eauto. }
  destruct HE as (news & w3 & HE); [exact Hloop|].
  rewrite HE. apply append_events_spec with (envs := envs) in HE as (_ & _ & HD); try done; try lia;
    [|by apply TruncateMicros_in_layout|apply TruncateMicros_in_layout, Hclk|simpl; by rewrite Hw2, Hw1].
  assert (d_unique_claims (w_db w3) = d_unique_claims (w_db w)) as Hcl by (rewrite HD; simpl; by rewrite Hw2, Hw1).
  unfold bind at 1. pose proof (applyClaims_run (Canonical (ap_StreamID p)) (ap_Constraints p) w3) as HC.
  rewrite Hcl in HC. unfold append_outcome, admitted, settled. rewrite (proj2 (N.eqb_eq _ _) Hexp), Hids. cbn [andb]. destruct (claim_all _ _ _).
  - destruct HC as (w4 & ->). simpl. rewrite Hnf. eauto.
  - destruct HC as (e & w4 & -> & He). eauto.
Qed.
End Outcome.

(** ** Reachable databases *)

Section Reachable.
Context `{UuidLib} `{Env}.
Variable cap : Z.

(** What the program can do to the log: append (successfully or not), or any
    number of calls that leave the events table alone. *)
Inductive reachable : world DB -> list Envelope -> Prop :=
| reach_init n : reachable (MkWorld empty_db n) []
| reach_append w envs p r w' :
    reachable w envs -> occurred_ok (ap_OccurredAt p) -> Append cap p w = (r, w') ->
    reachable w' (envs ++ match r with Ok a => ar_Envelopes a | Err _ => [] end)
| reach_other w envs db n :
    reachable w envs -> d_events db = d_events (w_db w) -> d_sequence db = d_sequence (w_db w) ->
    (w_tick w <= n)%nat -> reachable (MkWorld db n) envs.

Lemma appended_sealed p envs c c' o t r : appended p envs c c' o t r -> Forall sealed (ar_Envelopes r).
Proof.
  intros Ha. pose proof (ad_carries _ _ _ _ _ _ _ Ha) as Hf. clear -Hf. induction Hf; constructor; [by eapply ca_hash|done].
Qed.

Lemma reachable_inv w envs :
  clock_ok -> reachable w envs -> log_inv (w_db w) envs /\ Forall sealed envs.
Proof.
  intros Hclk. induction 1 as [n|w envs p r w' _ [Hi Hs] Ho HA|w envs db n _ [Hi Hs] He Hq _].
  - split; [apply log_inv_empty|constructor].
  - destruct r as [a|e].
    + destruct (Append_Ok _ _ _ _ _ _ Hi Hclk Ho HA) as (Hi' & (k & _ & Ha) & _). split; [done|].
      apply Forall_app. split; [done|by eapply appended_sealed].
    + rewrite app_nil_r, (Append_Err _ _ _ _ _ HA). done.
  - split; [by eapply log_inv_ext|done].
Qed.

Definition clock_monotone : Prop := forall n m, (n <= m)%nat -> (clock n <= clock m)%Z.

Lemma appended_recorded p envs c c' o t r : appended p envs c c' o t r -> Forall (fun e => RecordedAt e = t) (ar_Envelopes r).
Proof.
  intros Ha. pose proof (ad_carries _ _ _ _ _ _ _ Ha) as Hf. clear -Hf. induction Hf; constructor; [by eapply ca_recorded|done].
Qed.

(** Commit times never decrease along the log. *)
Lemma reachable_times w envs :
  clock_ok -> clock_monotone -> reachable w envs ->
  StronglySorted (fun a b => RecordedAt a <= RecordedAt b)%Z envs
  /\ Forall (fun e => RecordedAt e <= TruncateMicros (clock (w_tick w)))%Z envs.
Proof.
  intros Hclk Hmono. induction 1 as [n|w envs p r w' HR [Hs Hb] Ho HA|w envs db n HR [Hs Hb] He Hq Hn].
  - split; constructor.
  - pose proof (reachable_inv _ _ Hclk HR) as [Hi _].
    assert (forall t, t <= TruncateMicros (clock (w_tick w)) -> t <= TruncateMicros (clock (w_tick w')))%Z as Hup.
    { intros t Ht. pose proof (tick_Append cap p w) as Htk. rewrite HA in Htk.
      pose proof (TruncateMicros_mono _ _ (Hmono _ _ Htk)). simpl in *. lia. }
    destruct r as [a|e].
    2:{ rewrite app_nil_r. split; [done|]. eapply Forall_impl; [exact Hb|]. auto. }
    destruct (Append_Ok _ _ _ _ _ _ Hi Hclk Ho HA) as (_ & (k & Hk & Ha) & _).
    apply appended_recorded in Ha. rewrite Forall_forall in *.
    pose proof (TruncateMicros_mono _ _ (Hmono (w_tick w) k ltac:(lia))).
    pose proof (TruncateMicros_mono _ _ (Hmono k (w_tick w') ltac:(lia))). split.
    + apply StronglySorted_app. split; [|split; [done|]].
      * intros x y Hx Hy. rewrite (Ha y Hy). specialize (Hb x Hx). simpl in *. lia.
      * clear -Ha. induction (ar_Envelopes a) as [|x l IH]; constructor.
        -- apply IH. intros y Hy. apply Ha. by constructor.
        -- apply Forall_forall. intros y Hy. rewrite (Ha x), (Ha y) by (by constructor). lia.
    + intros x [Hx|Hx]%elem_of_app; [auto|]. rewrite (Ha x Hx). lia.
  - split; [done|]. eapply Forall_impl; [exact Hb|]. simpl. intros x Hx.
    pose proof (TruncateMicros_mono _ _ (Hmono _ _ Hn)). lia.
Qed.

Lemma sorted_le_filter {A} (f : A -> Z) l t :
  StronglySorted (fun a b => f a <= f b)%Z l -> exists k, filter (fun x => f x <= t)%Z l = take k l.
Proof.
  induction 1 as [|x l Hs [k IH] Hx]; [by exists O|]. rewrite filter_cons. case_decide as Ht.
  - exists (S k). simpl. by rewrite IH.
  - exists O. apply filter_false. intros y Hy. rewrite Forall_forall in Hx. specialize (Hx y Hy). lia.
Qed.
End Reachable.

(** ** Verification of a stored stream *)

Section Verified.
Context `{UuidLib} `{Env}.

Lemma ReadStream_serves w envs sid :
  log_inv (w_db w) envs -> Validate sid = Ok tt -> fault (w_tick w) = None ->
  serves (fun s f t => (ReadStream s f t w).1) sid (stream_of sid envs).
Proof. intros Hi Hv Hf from to Hfr Hto. by rewrite (ReadStream_run w envs Hi). Qed.

End Verified.
