(* ===== verification/HexUuid.v ===== *)
(** * A concrete uuid codec

    The store's theorems hold for any uuid package that reads back what it
    writes (class [UuidLib]).  This instance, the usual 8-4-4-4-12 hexadecimal
    rendering, shows that such a package exists and is used to evaluate the
    store on concrete inputs. *)
From S2P Require Import Prelude Es Timestamp Effect Sql Sqlite.

Definition dash (r : string) : string := String "-" r.

Definition hex_String (u : UUID) : string :=
  let l := vec_to_list u in
  hex_bytes (take 4 l) (dash (hex_bytes (take 2 (drop 4 l)) (dash (hex_bytes (take 2 (drop 6 l))
    (dash (hex_bytes (take 2 (drop 8 l)) (dash (hex_bytes (drop 10 l) EmptyString)))))))).

Fixpoint vec_pad (n : nat) (l : list byte) : vec byte n :=
  match n with
  | O => [#]
  | S n' => default Byte.x00 (head l) ::: vec_pad n' (tail l)
  end.

Definition hex_Parse (s : string) : UUID * option error :=
  let l := from_hex s in
  (vec_pad 16 l, if (length l =? 16)%nat then None else Some (ErrorsNew "invalid UUID length")).

Lemma from_hex_dash r : from_hex (dash r) = from_hex r.
Proof. done. Qed.

Lemma vec_pad_vec {n} (v : vec byte n) : vec_pad n (vec_to_list v) = v.
Proof. induction v as [|b n v IH]; [done|]. simpl. by rewrite IH. Qed.

Lemma from_hex_String u : from_hex (hex_String u) = vec_to_list u.
Proof.
  unfold hex_String. rewrite !from_hex_bytes, !from_hex_dash, !from_hex_bytes, !from_hex_dash, !from_hex_bytes.
  rewrite from_hex_dash, from_hex_bytes, from_hex_dash, from_hex_bytes. simpl. rewrite app_nil_r.
  generalize (vec_to_list u) as l. intros l.
  replace (drop 10 l) with (drop 2 (drop 8 l)) by (by rewrite drop_drop). rewrite take_drop.
  replace (drop 8 l) with (drop 2 (drop 6 l)) by (by rewrite drop_drop). rewrite take_drop.
  replace (drop 6 l) with (drop 2 (drop 4 l)) by (by rewrite drop_drop). by rewrite !take_drop.
Qed.

Lemma hex_Parse_String u : hex_Parse (hex_String u) = (u, None).
Proof. unfold hex_Parse. rewrite from_hex_String, vec_pad_vec, length_vec_to_list. done. Qed.

#[global] Instance HexUuid : UuidLib := {
  uuid_String := hex_String;
  uuid_Parse := hex_Parse;
  uuid_Parse_String := hex_Parse_String
}.

(** An environment without failures: the clock starts in 2026 and advances a
    second per query for a million queries, ids count up. *)
Definition id_of (n : nat) : UUID := vec_pad 16 (be 16 (N.of_nat n + 1)).

Definition calm_env : Env := {|
  fault := fun _ => None;
  clock := fun n => (1772532000000000000 + Z.min 1000000 (Z.of_nat n) * Second)%Z;
  fresh_id := id_of
|}.

Lemma calm_no_fault : forall n, @fault calm_env n = None.
Proof. done. Qed.

Lemma calm_clock_ok n : in_layout (@clock calm_env n).
Proof.
  unfold in_layout.
  assert (days_of 0 1 1 * day_ns = -62167219200000000000)%Z as -> by (by vm_compute).
  assert (days_of 10000 1 1 * day_ns = 253402300800000000000)%Z as -> by (by vm_compute).
  simpl. unfold Second. lia.
Qed.

Lemma calm_clock_mono n m : (n <= m)%nat -> (@clock calm_env n <= @clock calm_env m)%Z.
Proof. simpl. unfold Second. lia. Qed.
