(* ===== verification/SqliteClaims.v ===== *)
(** * The SQLite store's promises

    The properties of es.Store that the rest of the program relies on, for the
    SQLite backend: append atomicity and effect, exact outcome, read-your-
    writes, tamper-evident history, time travel and uniqueness. *)
From S2P Require Import Prelude Sha256 Es Hash Chain Anchor Timestamp Effect Store Sql Sqlite.
From S2P Require Import SqliteCorrect SqliteTheorems HexUuid.

(** ** A concrete store *)

Definition sid_main : StreamID := MkStreamID "counter" "main".

Definition sample_event (n : nat) : EventData := MkEventData (id_of n) "counter.v1.Incremented" 1 [Byte.x08].

Definition sample_append (expected : N) (ns : list nat) (ops : list ConstraintOp) : AppendParams :=
  MkAppendParams sid_main expected (map sample_event ns) ops (id_of 90) (id_of 91) uuid_Nil (MkActor "user" "alice") zero_time.

Definition world0 : world DB := MkWorld empty_db 0.

Lemma sample_occurred e ns ops : occurred_ok (ap_OccurredAt (sample_append e ns ops)).
Proof. by left. Qed.

Definition world1 : world DB :=
  (@Append HexUuid calm_env 0 (sample_append 0 [100; 101]%nat [Claim "user.email" "a"]) world0).2.
Definition result1 : res AppendResult :=
  (@Append HexUuid calm_env 0 (sample_append 0 [100; 101]%nat [Claim "user.email" "a"]) world0).1.
Definition envs1 : list Envelope := match result1 with Ok a => ar_Envelopes a | Err _ => [] end.

Lemma run1 :
  @Append HexUuid calm_env 0 (sample_append 0 [100; 101]%nat [Claim "user.email" "a"]) world0 = (result1, world1).
Proof. unfold result1, world1. by destruct (Append _ _ _). Qed.

Lemma reach1 : @reachable HexUuid calm_env 0 world1 envs1.
Proof.
  apply (@reach_append HexUuid calm_env 0 world0 []
    (sample_append 0 [100; 101]%nat [Claim "user.email" "a"]) result1 world1);
    [apply reach_init|apply sample_occurred|apply run1].
Qed.

Lemma inv1 : @log_inv HexUuid (w_db world1) envs1.
Proof. by destruct (@reachable_inv HexUuid calm_env 0 world1 envs1 calm_clock_ok reach1). Qed.

(** What the sample append wrote. *)
Lemma envs1_carries :
  exists occurred recorded,
    Forall2 (carries (sample_append 0 [100; 101]%nat [Claim "user.email" "a"]) occurred recorded)
      (ap_Events (sample_append 0 [100; 101]%nat [Claim "user.email" "a"])) envs1.
Proof.
  assert (is_ok result1 = true) as HK by (by vm_compute).
  pose proof (@Append_Ok HexUuid calm_env 0 (sample_append 0 [100; 101]%nat [Claim "user.email" "a"]) world0) as HA.
  unfold envs1. destruct result1 as [a|e] eqn:E; [|done].
  destruct (HA a world1 [] (@log_inv_empty HexUuid) calm_clock_ok (sample_occurred _ _ _)) as (_ & (n & _ & Ha) & _);
    [by rewrite <- E, <- run1|].
  pose proof (ad_carries _ _ _ _ _ _ _ Ha) as Hc. eauto.
Qed.

(** ** Properties *)

(** C2: Append implements the es.Store contract.  From any database in which the
    log invariant holds, a failed append (whatever failed: validation, a
    conflict, a claim, a database error, the commit) leaves the database
    exactly as it was; a successful one found the stream at ExpectedVersion,
    extends the log with one envelope per event, in order, carrying the
    event's and the command's data, reports the versions it wrote, applies the
    claims, and keeps the invariant (positions 1..n without gaps, versions
    1..k per stream, unique ids, a verifying hash chain). *)
Theorem sqlite_append_refines `{UuidLib} `{Env} cap p w envs :
  log_inv (w_db w) envs -> clock_ok -> occurred_ok (ap_OccurredAt p) ->
  match Append cap p w with
  | (Err _, w') => w_db w' = w_db w
  | (Ok r, w') =>
      log_inv (w_db w') (envs ++ ar_Envelopes r)
      /\ exists n, (w_tick w <= n < w_tick w')%nat
         /\ appended p envs (d_unique_claims (w_db w)) (d_unique_claims (w_db w'))
              (occurred_of p (clock (w_tick w))) (TruncateMicros (clock n)) r
  end.
Proof.
  intros Hi Hclk Ho. destruct (Append cap p w) as [[r|e] w'] eqn:HA.
  - destruct (Append_Ok _ _ _ _ _ _ Hi Hclk Ho HA) as (Hi' & Ha & _). done.
  - by eapply Append_Err.
Qed.

Lemma sqlite_append_refines_witness :
  exists r w', @Append HexUuid calm_env 0 (sample_append 0 [100; 101]%nat []) world0 = (Ok r, w')
    /\ ar_ToVersion r = 2%N /\ @log_inv HexUuid (w_db w') (ar_Envelopes r).
Proof.
  pose proof (@sqlite_append_refines HexUuid calm_env 0 (sample_append 0 [100; 101]%nat []) world0 []
    (@log_inv_empty HexUuid) calm_clock_ok (sample_occurred 0 [100; 101]%nat [])) as HS.
  destruct (@Append HexUuid calm_env 0 (sample_append 0 [100; 101]%nat []) world0) as [[r|e] w'] eqn:HA.
  - exists r, w'. destruct HS as (Hi & n & _ & Ha). split; [done|]. split; [|exact Hi].
    rewrite (ad_to _ _ _ _ _ _ _ Ha). reflexivity.
  - exfalso. assert (is_ok (@Append HexUuid calm_env 0 (sample_append 0 [100; 101]%nat []) world0).1 = true) as HK
      by (by vm_compute). rewrite HA in HK. discriminate.
Defined.


(** Two events without ids, as the runtime appends them. *)
Definition unnamed_append (ops : list ConstraintOp) : AppendParams :=
  MkAppendParams sid_main 2 (repeat (MkEventData uuid_Nil "counter.v1.Incremented" 1 [Byte.x08]) 2) ops
    (id_of 90) (id_of 91) uuid_Nil (MkActor "user" "alice") zero_time.

Lemma sample_request_ok p :
  ap_OccurredAt p = zero_time -> ap_StreamID p = sid_main -> validate_ops (ap_Constraints p) = Ok tt ->
  check_payloads 0 (ap_Events p) = Ok tt -> (length (ap_Events p) <= 2)%nat -> request_ok 0 p envs1.
Proof.
  intros H1 H2 H3 H4 H5. split; [by rewrite H2|done|done|by left|].
  assert (length envs1 = 2%nat) as -> by (by vm_compute). unfold max_int64. lia.
Qed.

Lemma sample_fresh p : (length (ap_Events p) <= 2)%nat ->
  Forall (fun id => id ∈ map id_of [100; 102]%nat) (own_ids (ap_Events p)) -> @generated_fresh calm_env p world1 envs1.
Proof.
  intros Hl Ho. unfold generated_fresh.
  rewrite <- (Nat.add_0_r (w_tick world1)). apply (ids_fresh_from 0 _ _ 8); [lia|].
  apply (@ids_fresh_mono calm_env _ _ (map id_of [100; 102]%nat ++ map EventID envs1)).
  - intros id. rewrite !elem_of_app. rewrite Forall_forall in Ho. intros [Hid|]; [left; by apply Ho|by right].
  - unfold ids_fresh. apply (bool_decide_unpack _). by vm_compute.
Qed.


(** C22: read your writes: after a successful append, reading the stream from the
    version before it returns exactly the envelopes Append returned (every
    column parsed back to the value that was bound), reading the log from the
    position before it returns them too, and CurrentStreamVersion is the
    reported ToVersion. *)
Theorem sqlite_read_your_writes `{UuidLib} `{Env} cap p w envs r w' :
  log_inv (w_db w) envs -> clock_ok -> occurred_ok (ap_OccurredAt p) ->
  Append cap p w = (Ok r, w') -> fault (w_tick w') = None ->
  (N.of_nat (length envs) <= max_int64)%N ->
  ReadStream (ap_StreamID p) (ar_FromVersion r) 0 w' = (Ok (ar_Envelopes r), tick w')
  /\ ((0 < length (ar_Envelopes r))%nat ->
      ReadAll (N.of_nat (length envs)) (Z.of_nat (length (ar_Envelopes r))) w' = (Ok (ar_Envelopes r), tick w'))
  /\ CurrentStreamVersion (ap_StreamID p) w' = (Ok (ar_ToVersion r), tick w').
Proof.
  intros Hi Hclk Ho HA Hf Hmax.
  destruct (Append_Ok _ _ _ _ _ _ Hi Hclk Ho HA) as (Hi' & (n & _ & [Hv He Hfrom Hto Hc _]) & _).
  assert (stream_of (ap_StreamID p) (envs ++ ar_Envelopes r)
    = stream_of (ap_StreamID p) envs ++ ar_Envelopes r) as HS.
  { rewrite stream_of_app. f_equal. apply stream_of_own. by eapply carries_sid. }
  pose proof (stream_length_bound _ _ (ap_StreamID p) Hi) as HB. split; [|split].
  - rewrite (ReadStream_run w' _ Hi') by (done || lia). do 2 f_equal. rewrite HS.
    pose proof (li_versions _ _ Hi' (ap_StreamID p)) as Hn. rewrite HS, numbered_app in Hn. destruct Hn as [Hn1 Hn2].
    rewrite filter_app, filter_false, filter_true; [done|..].
    + intros e Hin%(numbered_elem _ _ _ _ Hn2). unfold in_version_range.
      rewrite Is_true_true, andb_true_iff, orb_true_iff, N.ltb_lt, N.eqb_eq. lia.
    + intros e Hin%(numbered_elem _ _ _ _ Hn1). unfold in_version_range.
      rewrite Is_true_true, andb_true_iff, N.ltb_lt. lia.
  - intros Hpos. rewrite (ReadAll_run w' _ Hi') by done. rewrite Nat2N.id, drop_app_length.
    destruct (Z.leb_spec (Z.of_nat (length (ar_Envelopes r))) 0); [lia|].
    by rewrite Nat2Z.id, take_ge.
  - rewrite (CurrentStreamVersion_run w' _ Hi') by done. do 2 f_equal.
    rewrite HS, length_app, <- (Forall2_length _ _ _ Hc). lia.
Qed.

Lemma sqlite_read_your_writes_witness :
  exists r, result1 = Ok r
    /\ @ReadStream HexUuid calm_env sid_main 0 0 world1 = (Ok (ar_Envelopes r), tick world1).
Proof.
  destruct result1 as [r|e] eqn:HR.
  - exists r. split; [done|]. assert (ar_FromVersion r = 0%N) as HF.
    { pose proof run1 as H1. rewrite HR in H1.
      destruct (@Append_Ok HexUuid calm_env _ _ world0 _ _ [] (@log_inv_empty HexUuid) calm_clock_ok
        (sample_occurred _ _ _) H1) as (_ & (n & _ & Ha) & _). apply (ad_from _ _ _ _ _ _ _ Ha). }
    destruct (@sqlite_read_your_writes HexUuid calm_env 0
      (sample_append 0 [100; 101]%nat [Claim "user.email" "a"]) world0 [] r world1
      (@log_inv_empty HexUuid) calm_clock_ok (sample_occurred _ _ _)) as [H1 _]; try done.
    + rewrite run1, HR. done.
    + rewrite HF in H1. exact H1.
  - exfalso. assert (is_ok result1 = true) as HK by (by vm_compute). rewrite HR in HK. discriminate.
Defined.

(** One stream of a reachable database. *)
Lemma reachable_stream_verifies `{UuidLib} `{Env} cap w envs sid opts fuel :
  clock_ok -> reachable cap w envs -> Validate sid = Ok tt -> fault (w_tick w) = None ->
  (N.of_nat (length (stream_of sid envs) + verify_page opts) <= max_int64)%N ->
  (length (stream_of sid envs) < fuel)%nat ->
  exists rep,
    VerifyStreamWith (fun s f t => (ReadStream s f t w).1) fuel sid opts = Some (rep, None)
    /\ Intact rep = true
    /\ rep_Head rep = N.of_nat (length (stream_of sid envs))
    /\ rep_HeadHash rep = (EnvelopeHash <$> last (stream_of sid envs)).
Proof.
  intros Hclk HR Hv Hf Hmax Hfuel. destruct (reachable_inv cap _ _ Hclk HR) as [Hi Hs].
  rewrite (VerifyStreamWith_verdict _ sid opts (stream_of sid envs)); try done.
  - destruct (verdict_sealed sid opts (stream_of sid envs)) as (rep & -> & Hrep).
    + apply (li_chain _ _ Hi).
    + rewrite Forall_forall in *. intros e [_ He]%list_elem_of_filter. auto.
    + apply (li_versions _ _ Hi).
    + exists rep. done.
  - by apply ReadStream_serves.
  - apply (li_versions _ _ Hi).
Qed.

(** C17: every history the store can produce verifies.  In any reachable database,
    for every stream, page size and option (strict included), VerifyStreamWith
    over the store's own ReadStream terminates with an intact report whose head
    is the stream's length and whose head hash is the last event's hash. *)
Theorem sqlite_history_verifies `{UuidLib} `{Env} cap w envs sid opts fuel :
  clock_ok -> reachable cap w envs -> Validate sid = Ok tt -> fault (w_tick w) = None ->
  (N.of_nat (length (stream_of sid envs) + verify_page opts) <= max_int64)%N ->
  (length (stream_of sid envs) < fuel)%nat ->
  exists rep,
    VerifyStreamWith (fun s f t => (ReadStream s f t w).1) fuel sid opts = Some (rep, None)
    /\ Intact rep = true
    /\ rep_Head rep = N.of_nat (length (stream_of sid envs))
    /\ rep_HeadHash rep = (EnvelopeHash <$> last (stream_of sid envs)).
Proof. apply reachable_stream_verifies. Qed.

Lemma sqlite_history_verifies_witness :
  exists rep,
    VerifyStreamWith (fun s f t => (@ReadStream HexUuid calm_env s f t world1).1) 5 sid_main (strict_page 1)
      = Some (rep, None)
    /\ Intact rep = true /\ rep_Head rep = 2%N.
Proof.
  destruct (@sqlite_history_verifies HexUuid calm_env 0 world1 envs1 sid_main (strict_page 1) 5
    calm_clock_ok reach1) as (rep & HV & HI & HH & _); [done|done|by vm_compute|apply Nat.ltb_lt; by vm_compute|].
  exists rep. split; [exact HV|]. split; [exact HI|]. rewrite HH. by vm_compute.
Defined.

(** Time travel by commit time is sound.  With a clock that does not go back,
    an as-of read of any reachable database returns exactly the events recorded
    by then, and they are a prefix of the stream: no version is skipped, so the
    state folded from them is a state the stream really had. *)
Theorem sqlite_time_travel `{UuidLib} `{Env} cap w envs sid asOf :
  clock_ok -> clock_monotone -> reachable cap w envs -> Validate sid = Ok tt -> in_layout asOf ->
  fault (w_tick w) = None ->
  exists k,
    ReadStreamAsOf sid asOf w = (Ok (take k (stream_of sid envs)), tick w)
    /\ take k (stream_of sid envs) = filter (fun e => RecordedAt e <= asOf)%Z (stream_of sid envs).
Proof.
  intros Hclk Hmono HR Hv Ha Hf. destruct (reachable_inv cap _ _ Hclk HR) as [Hi _].
  destruct (reachable_times cap _ _ Hclk Hmono HR) as [Hs _].
  destruct (sorted_le_filter RecordedAt (stream_of sid envs) asOf (sorted_filter _ _ _ Hs)) as [k Hk].
  exists k. rewrite (ReadStreamAsOf_run w envs Hi) by done. by rewrite Hk.
Qed.

Lemma sqlite_time_travel_witness :
  exists k, @ReadStreamAsOf HexUuid calm_env sid_main 1772532000000000000 world1
    = (Ok (take k (stream_of sid_main envs1)), tick world1).
Proof.
  destruct (@sqlite_time_travel HexUuid calm_env 0 world1 envs1 sid_main 1772532000000000000
    calm_clock_ok calm_clock_mono reach1) as (k & Hk & _); [done|split; by vm_compute|done|].
  exists k. exact Hk.
Defined.

(** C23: uniqueness claims are exclusive and all-or-nothing.  After a successful
    append every claimed (scope, value) is held by the appending stream, a claim
    held by another stream before is untouched (neither stolen nor released),
    and nothing else has appeared in the index. *)
Theorem sqlite_claims_exclusive `{UuidLib} `{Env} cap p w r w' envs :
  log_inv (w_db w) envs -> clock_ok -> occurred_ok (ap_OccurredAt p) ->
  Append cap p w = (Ok r, w') -> fault (w_tick w') = None ->
  (forall op, op ∈ ap_Constraints p -> op_Op op = ClaimOp ->
     (LookupClaim (op_Scope op) (op_Value op) w').1 = Ok (Canonical (ap_StreamID p), true))
  /\ (forall k o, d_unique_claims (w_db w) !! k = Some o -> o <> Canonical (ap_StreamID p) ->
        d_unique_claims (w_db w') !! k = Some o)
  /\ (forall k o, d_unique_claims (w_db w') !! k = Some o ->
        d_unique_claims (w_db w) !! k = Some o \/ o = Canonical (ap_StreamID p)).
Proof.
  intros Hi Hclk Ho HA Hf. destruct (Append_Ok _ _ _ _ _ _ Hi Hclk Ho HA) as (_ & (n & _ & Ha) & _).
  pose proof (ad_claims _ _ _ _ _ _ _ Ha) as Hc. split; [|split].
  - intros op Hop Hk. unfold LookupClaim, bind, query, exec. rewrite Hf. simpl.
    fold (op_key op). by rewrite (claim_all_claims _ _ _ _ _ Hc Hop Hk).
  - intros k o Hk Hne. eapply claim_all_keeps; [exact Hc|]. by apply release_all_other.
  - intros k o Hk. destruct (claim_all_new _ _ _ _ _ _ Hc Hk) as [Hk'|Hk']; [left|right; done].
    by eapply release_all_subseteq.
Qed.

Lemma sqlite_claims_exclusive_witness :
  (@LookupClaim calm_env "user.email" "a" world1).1 = Ok ("counter:main"%string, true).
Proof.
  destruct result1 as [r|e] eqn:HR.
  - assert (@Append HexUuid calm_env 0 (sample_append 0 [100; 101]%nat [Claim "user.email" "a"]) world0 = (Ok r, world1))
      as H1 by (by rewrite run1, HR).
    destruct (@sqlite_claims_exclusive HexUuid calm_env 0
      (sample_append 0 [100; 101]%nat [Claim "user.email" "a"]) world0 r world1 []
      (@log_inv_empty HexUuid) calm_clock_ok (sample_occurred _ _ _) H1 eq_refl) as [HL _].
    apply (HL (Claim "user.email" "a")); [by constructor|reflexivity].
  - exfalso. assert (is_ok result1 = true) as HK by (by vm_compute). rewrite HR in HK. discriminate.
Defined.
