(* ===== verification/Runtime.v ===== *)
(** * The aggregate runtime (src/aggregate/runtime.go, src/es/decider.go,
      src/es/decided_at.go, src/snapshot/snapshot.go)

    Load, decide, append, retry: the write side of the program, generic in the
    aggregate's state, command and event types, over any store that satisfies
    the contract of Store.v. *)
From S2P Require Import Prelude Es Hash Chain Timestamp Effect Store.

(** ** The parts a runtime is assembled from *)

Record Decider (S C E : Type) := MkDecider {
  Initial : S;
  Decide : S -> C -> res (list E * list ConstraintOp);
  Evolve : S -> E -> S;
  IsTerminal : option (S -> bool)
}.
Arguments Initial {S C E} _.
Arguments Decide {S C E} _ _ _.
Arguments Evolve {S C E} _ _ _.
Arguments IsTerminal {S C E} _.

Record Codec (E : Type) := MkCodec {
  Encode : E -> res EncodedEvent;
  Decode : EncodedEvent -> res E
}.
Arguments Encode {E} _ _.
Arguments Decode {E} _ _.

Record StateCodec (S : Type) := MkStateCodec {
  sc_Encode : S -> res (list byte);
  sc_Decode : list byte -> res S
}.
Arguments sc_Encode {S} _ _.
Arguments sc_Decode {S} _ _.

Record Snapshot := MkSnapshot {
  sn_Version : N;
  sn_FoldVersion : N;
  sn_RecordedAt : time;
  sn_State : list byte
}.

(** The clock, the id generator, the caller's context and the snapshot cache,
    all supplied from outside the package. *)
Class RuntimeOps (W : Type) := {
  rw_Now : W -> time * W;
  rw_newV7 : W -> UUID * W;
  rw_ctxErr : SM W unit;               (** ctx.Err() *)
  rw_timer : Z -> SM W unit;           (** select on ctx.Done and a timer *)
  rw_cacheLoad : string -> SM W (option Snapshot);
  rw_cacheSave : string -> Snapshot -> SM W unit
}.

Definition MaxDecisionSkew : Z := 5 * Minute.

Section Runtime.
Context {S C E W : Type} `{StoreOps W} `{RuntimeOps W}.

(** The generated command code: [DecisionTime] when the command implements
    es.DecidedAt, and what StampDecisionTime makes of the command. *)
Variable DecisionTime : C -> option time.
Variable StampDecisionTime : C -> time -> C.

Record Runtime := MkRuntime {
  rt_decider : Decider S C E;
  rt_codec : Codec E;
  rt_upcaster : option (string -> N -> E -> res E);
  rt_snapshots : option (StateCodec S * N);   (** stateCodec and foldVersion, when cache is set *)
  rt_retries : Z;
  rt_backoff : Z -> Z;
  rt_verifyChain : bool
}.

Record Result := MkResult {
  rs_State : S;
  rs_Events : list E;
  rs_FromVersion : N;
  rs_ToVersion : N;
  rs_Envelopes : list Envelope
}.

Definition NewRuntime (d : Decider S C E) (c : Codec E) : Runtime :=
  MkRuntime d c None None 0 (fun _ => 0%Z) false.

Definition WithUpcaster (u : string -> N -> E -> res E) (r : Runtime) : Runtime :=
  MkRuntime (rt_decider r) (rt_codec r) (Some u) (rt_snapshots r) (rt_retries r) (rt_backoff r) (rt_verifyChain r).

Definition WithSnapshots (sc : StateCodec S) (foldVersion : N) (r : Runtime) : Runtime :=
  MkRuntime (rt_decider r) (rt_codec r) (rt_upcaster r) (Some (sc, foldVersion)) (rt_retries r) (rt_backoff r) (rt_verifyChain r).

Definition WithChainVerification (r : Runtime) : Runtime :=
  MkRuntime (rt_decider r) (rt_codec r) (rt_upcaster r) (rt_snapshots r) (rt_retries r) (rt_backoff r) true.

(** The doubling loop of DefaultBackoff: base before jitter. *)
Fixpoint backoff_base (n : nat) (base : Z) : Z :=
  match n with
  | O => base
  | Datatypes.S n' => if (base <? 500 * Millisecond)%Z then backoff_base n' (base * 2)%Z else base
  end.

(** [rand] is rand.Int64N. *)
Definition DefaultBackoff (rand : Z -> Z) (attempt : Z) : Z :=
  let attempt := if (attempt <? 1)%Z then 1%Z else attempt in
  let base := backoff_base (Z.to_nat (attempt - 1)) (10 * Millisecond)%Z in
  let base := if (500 * Millisecond <? base)%Z then (500 * Millisecond)%Z else base in
  rand (base + 1)%Z.

Definition WithConflictRetry (rand : Z -> Z) (n : Z) (backoff : option (Z -> Z)) (r : Runtime) : Runtime :=
  let n := if (n <? 0)%Z then 0%Z else n in
  let backoff := match backoff with None => DefaultBackoff rand | Some b => b end in
  MkRuntime (rt_decider r) (rt_codec r) (rt_upcaster r) (rt_snapshots r) n backoff (rt_verifyChain r).

(** *** Loading *)

(** The body of load's loop for one envelope, without chain verification. *)
Definition decode_event (r : Runtime) (env : Envelope) : res E :=
  let? ev := match Decode (rt_codec r) (wire env) with
             | Ok ev => Ok ev | Err e => Err (Errorf "decode event" e) end in
  match rt_upcaster r with
  | None => Ok ev
  | Some u => match u (TypeURL env) (SchemaVersion env) ev with
              | Ok ev => Ok ev | Err e => Err (Errorf "upcast event" e) end
  end.

Fixpoint fold_envs (r : Runtime) (checker : option ChainChecker) (state : S) (version : N)
    (envs : list Envelope) : res (S * N) :=
  match envs with
  | [] => Ok (state, version)
  | env :: envs' =>
      let? checker := match checker with
                      | None => Ok None
                      | Some c => match Next c env with
                                  | (_, Some err) => Err err
                                  | (c', None) => Ok (Some c')
                                  end
                      end in
      let? ev := decode_event r env in
      fold_envs r checker (Evolve (rt_decider r) state ev) (Version env) envs'
  end.

(** The snapshot seed of a current load: any miss falls through. *)
Definition seed (r : Runtime) (sid : StreamID) : SM W (S * N) :=
  match rt_snapshots r with
  | None => ret (Initial (rt_decider r), 0%N)
  | Some (sc, fv) =>
      let! ld := attempt (rw_cacheLoad (Canonical sid)) in
      ret (match ld with
           | Ok (Some snap) =>
               if (sn_FoldVersion snap =? fv)%N then
                 match sc_Decode sc (sn_State snap) with
                 | Ok s => (s, sn_Version snap)
                 | Err _ => (Initial (rt_decider r), 0%N)
                 end
               else (Initial (rt_decider r), 0%N)
           | _ => (Initial (rt_decider r), 0%N)
           end)
  end.

(** [asOf = None] is the zero time: no time bound. *)
Definition load (r : Runtime) (sid : StreamID) (upToVersion : N) (asOf : option time) : SM W (S * N) :=
  let! (state, from) :=
    if (upToVersion =? 0)%N && bool_decide (asOf = None)
    then seed r sid else ret (Initial (rt_decider r), 0%N) in
  let! rd := attempt (match asOf with
                      | Some t => st_ReadStreamAsOf sid t
                      | None => st_ReadStream sid from upToVersion
                      end) in
  let! envs := lift (match rd with
                     | Ok envs => Ok envs
                     | Err err => if Is err ErrStreamNotFound then Ok [] else Err err
                     end) in
  let! (state, version) :=
    lift (fold_envs r (if rt_verifyChain r then Some (NewChainChecker sid) else None) state from envs) in
  if (0 <? upToVersion)%N && negb (version =? upToVersion)%N
  then throw (Errorf "stream has version" (Sentinel ErrVersionOutOfRange))
  else ret (state, version).

Definition Load (r : Runtime) (sid : StreamID) : SM W (S * N) := load r sid 0 None.

Definition LoadAsOfVersion (r : Runtime) (sid : StreamID) (v : N) : SM W S :=
  let! _ := lift (Validate sid) in
  if (v =? 0)%N then ret (Initial (rt_decider r)) else
  let! (state, _) := load r sid v None in ret state.

Definition LoadAsOfTime (r : Runtime) (sid : StreamID) (t : time) : SM W S :=
  let! (state, _) := load r sid 0 (if IsZero t then None else Some t) in ret state.

(** The third component says whether the cache-only path was taken. *)
Definition LoadStale (r : Runtime) (sid : StreamID) (maxAge : Z) : SM W (S * N * bool) :=
  let slow := let! (state, version) := Load r sid in ret (state, version, false) in
  match rt_snapshots r with
  | None => slow
  | Some (sc, fv) =>
      let! ld := attempt (rw_cacheLoad (Canonical sid)) in
      match ld with
      | Ok (Some snap) =>
          if negb (sn_FoldVersion snap =? fv)%N then slow else
          let! young := (fun w => if (maxAge <=? 0)%Z then (Ok true, w) else
                                  let '(now, w') := rw_Now w in
                                  (Ok (Sub now (sn_RecordedAt snap) <=? maxAge)%Z, w')) in
          if young : bool then
            match sc_Decode sc (sn_State snap) with
            | Ok s => ret (s, sn_Version snap, true)
            | Err _ => slow
            end
          else slow
      | _ => slow
      end
  end.

(** *** Handling a command *)

(** The encode loop. *)
Fixpoint encode_events (r : Runtime) (events : list E) : res (list EventData) :=
  match events with
  | [] => Ok []
  | ev :: events' =>
      let? enc := match Encode (rt_codec r) ev with
                  | Ok enc => Ok enc | Err e => Err (Errorf "encode event" e) end in
      let? rest := encode_events r events' in
      Ok (MkEventData uuid_Nil (ee_TypeURL enc) (ee_SchemaVersion enc) (ee_Payload enc) :: rest)
  end.

(** The best-effort write-through after an append. *)
Definition save_snapshot (r : Runtime) (sid : StreamID) (state : S) (version : N) : SM W unit :=
  match rt_snapshots r with
  | None => ret tt
  | Some (sc, fv) =>
      match sc_Encode sc state with
      | Err _ => ret tt
      | Ok b => fun w =>
          let '(now, w1) := rw_Now w in
          let '(_, w2) := rw_cacheSave (Canonical sid) (MkSnapshot version fv now b) w1 in
          (Ok tt, w2)
      end
  end.

(** HandleOption: WithAppend replaces the store's append for one call. *)
Definition handleOptions : Type := option (AppendParams -> SM W AppendResult).

Definition WithAppend (fn : option (AppendParams -> SM W AppendResult)) (o : handleOptions) : handleOptions :=
  match fn with Some f => Some f | None => o end.

Definition newHandleOptions (opts : list (option (handleOptions -> handleOptions))) : handleOptions :=
  foldl (fun o opt => match opt with Some f => f o | None => o end) None opts.

Definition handleOnce (r : Runtime) (sid : StreamID) (cmd : C) (meta : Meta) (expected : N)
    (ho : handleOptions) : SM W Result :=
  let! (state, version) := load r sid 0 None in
  if negb (expected =? 0)%N && negb (version =? expected)%N
  then throw (ConflictError sid expected version) else
  if match IsTerminal (rt_decider r) with Some f => f state | None => false end
  then throw (Errorf "terminal" (Sentinel ErrTerminal)) else
  let! (events, constraints) := lift (Decide (rt_decider r) state cmd) in
  match events, constraints with
  | [], [] => ret (MkResult state [] version version [])
  | _, _ =>
      let! encoded := lift (encode_events r events) in
      let appendFn := match ho with Some f => f | None => st_Append end in
      let! res := appendFn (MkAppendParams sid version encoded constraints (m_CommandID meta)
                              (m_CorrelationID meta) (m_CausationID meta) (m_Actor meta) (m_OccurredAt meta)) in
      let state := foldl (Evolve (rt_decider r)) state events in
      let! _ := save_snapshot r sid state (ar_ToVersion res) in
      ret (MkResult state events (ar_FromVersion res) (ar_ToVersion res) (ar_Envelopes res))
  end.

Definition sleep (d : Z) : SM W unit :=
  if (d <=? 0)%Z then rw_ctxErr else rw_timer d.

(** The retry loop; [left] is the number of retries still allowed, so the loop
    ends after at most [left] more. *)
Fixpoint handle_loop (r : Runtime) (sid : StreamID) (cmd : C) (meta : Meta) (expected : N)
    (ho : handleOptions) (left : nat) (att : Z) : SM W Result :=
  let! res := attempt (handleOnce r sid cmd meta expected ho) in
  match res with
  | Ok v => ret v
  | Err err =>
      let final := if (0 <? att)%Z then throw (Errorf "aggregate: conflict retry exhausted" err) else throw err in
      if negb (Is err ErrConflict) || bool_decide (is_Some (AsConflict err)) then final else
      match left with
      | O => final
      | Datatypes.S left' =>
          let! _ := sleep (rt_backoff r (att + 1)%Z) in
          handle_loop r sid cmd meta expected ho left' (att + 1)
      end
  end.

(** The trust-boundary check on a client-supplied decision time. *)
Definition check_decided_at (cmd : C) (now : time) : res C :=
  match DecisionTime cmd with
  | None => Ok cmd
  | Some decided =>
      if IsZero decided then Err (Errorf "decided_at" (Sentinel ErrDecidedAtMissing)) else
      let skew := Sub now decided in
      let skew := if (skew <? 0)%Z then i64 (- skew)%Z else skew in
      if (MaxDecisionSkew <? skew)%Z then Err (DecidedAtSkewError decided now MaxDecisionSkew)
      else Ok (StampDecisionTime cmd now)
  end.

Definition HandleAt (r : Runtime) (sid : StreamID) (cmd : C) (meta : Meta) (expected : N)
    (opts : list (option (handleOptions -> handleOptions))) : SM W Result :=
  fun w =>
    let '(now, w) := rw_Now w in
    match check_decided_at cmd now with
    | Err e => (Err e, w)
    | Ok cmd =>
        let '(commandID, w) := if bool_decide (m_CommandID meta = uuid_Nil) then rw_newV7 w else (m_CommandID meta, w) in
        let correlationID := if bool_decide (m_CorrelationID meta = uuid_Nil) then commandID else m_CorrelationID meta in
        let meta := MkMeta commandID correlationID (m_CausationID meta) (m_Actor meta) now in
        let ho := newHandleOptions opts in
        handle_loop r sid cmd meta expected ho (Z.to_nat (rt_retries r)) 0 w
    end.

Definition Handle (r : Runtime) (sid : StreamID) (cmd : C) (meta : Meta)
    (opts : list (option (handleOptions -> handleOptions))) : SM W Result :=
  HandleAt r sid cmd meta 0 opts.
End Runtime.
Arguments Runtime : clear implicits.
Arguments Result : clear implicits.
