(* ===== verification/RuntimeCorrect.v ===== *)
(** * What the aggregate runtime guarantees

    Proved against the store contract of Store.v and a contract for the
    services around it: the log may grow under the runtime's feet at any call.
    Theorems: a load is the fold of the log at one instant, with or without a
    snapshot; a handled command was decided on exactly the state its events
    were appended to; the returned state and the saved snapshot are the fold
    of the extended stream. *)
From S2P Require Import Prelude Es Hash Chain Timestamp Effect Store Runtime.

(** The services keep the log growing, and the cache returns only snapshots
    that are right for the log ([ok] is what the clients saved). *)
Class RuntimeLaws (W : Type) `{RuntimeOps W} (rep : W -> list Envelope -> Prop)
    (ok : list Envelope -> string -> Snapshot -> Prop) := {
  rl_now : forall w L t w', rep w L -> rw_Now w = (t, w') ->
    in_layout t /\ exists L', L `prefix_of` L' /\ rep w' L';
  rl_newV7 : forall w L id w', rep w L -> rw_newV7 w = (id, w') -> exists L', L `prefix_of` L' /\ rep w' L';
  rl_ctxErr : forall w L r w', rep w L -> rw_ctxErr w = (r, w') -> exists L', L `prefix_of` L' /\ rep w' L';
  rl_timer : forall d w L r w', rep w L -> rw_timer d w = (r, w') -> exists L', L `prefix_of` L' /\ rep w' L';
  rl_load : forall id w L r w', rep w L -> rw_cacheLoad id w = (r, w') ->
    exists L', L `prefix_of` L' /\ rep w' L' /\ (forall s, r = Ok (Some s) -> ok L' id s);
  rl_save : forall id s w L r w', rep w L -> ok L id s -> rw_cacheSave id s w = (r, w') ->
    exists L', L `prefix_of` L' /\ rep w' L'
}.

Section Replay.
Context {S C E : Type}.
Implicit Types (r : Runtime S C E).

(** The reference: a plain left fold of decoded events. *)
Fixpoint replay r (s : S) (envs : list Envelope) : res S :=
  match envs with
  | [] => Ok s
  | e :: envs' => let? ev := decode_event r e in replay r (Evolve (rt_decider r) s ev) envs'
  end.

Definition replay_all r (envs : list Envelope) : res S := replay r (Initial (rt_decider r)) envs.

Lemma replay_app r s l1 l2 s1 :
  replay r s l1 = Ok s1 -> replay r s (l1 ++ l2) = replay r s1 l2.
Proof.
  revert s; induction l1 as [|e l1 IH]; intros s; simpl; [by intros [= ->]|].
  destruct (decode_event r e); [apply IH|done].
Qed.

Lemma fold_envs_Ok r checker s v envs s' v' :
  fold_envs r checker s v envs = Ok (s', v') ->
  replay r s envs = Ok s' /\ v' = default v (Version <$> last envs).
Proof.
  revert checker s v; induction envs as [|e envs IH]; intros checker s v; [by intros [= -> ->]|].
  cbn [fold_envs replay]. intros (c & _ & HF)%result_bind_Ok.
  apply result_bind_Ok in HF as (ev & Hev & HF). rewrite Hev. cbn [result_bind].
  apply IH in HF as [HR Hv]. split; [done|]. rewrite last_cons. destruct (last envs); by simplify_eq/=.
Qed.

(** A snapshot is right for a log when, if its fold version is current and its
    state decodes, that state is the fold of the first [sn_Version] events. *)
Definition snap_ok r (L : list Envelope) (id : string) (snap : Snapshot) : Prop :=
  match rt_snapshots r with
  | None => True
  | Some (sc, fv) =>
      forall s sid, sn_FoldVersion snap = fv -> sc_Decode sc (sn_State snap) = Ok s ->
        id = Canonical sid -> Validate sid = Ok tt ->
        (N.to_nat (sn_Version snap) <= length (stream_of sid L))%nat
        /\ replay_all r (take (N.to_nat (sn_Version snap)) (stream_of sid L)) = Ok s
  end.

Lemma take_prefix {A} n (l1 l2 : list A) :
  l1 `prefix_of` l2 -> (n <= length l1)%nat -> take n l2 = take n l1.
Proof. intros [k ->] Hn. by rewrite take_app_le. Qed.

Lemma snap_ok_mono r L L' id snap : L `prefix_of` L' -> snap_ok r L id snap -> snap_ok r L' id snap.
Proof.
  intros HP. unfold snap_ok. destruct (rt_snapshots r) as [[sc fv]|]; [|done].
  intros Hs s sid H1 H2 H3 H4. destruct (Hs s sid H1 H2 H3 H4) as [Hl Hr].
  pose proof (stream_of_prefix sid _ _ HP) as HPs. pose proof (prefix_length _ _ HPs).
  split; [lia|]. by rewrite (take_prefix _ _ _ HPs).
Qed.
End Replay.

(** Reading from version [n] on is dropping the first [n] events. *)
Lemma range_from n rows :
  numbered Version 1%N rows -> filter (in_version_range n 0) rows = drop (N.to_nat n) rows.
Proof.
  intros Hn. rewrite <- (take_ge (drop (N.to_nat n) rows) (length rows)) by (rewrite length_drop; lia).
  apply (filter_numbered Version _ 1%N rows (N.to_nat n) (length rows) Hn).
  intros e He. pose proof (numbered_elem _ _ _ _ Hn He).
  unfold in_version_range. rewrite Is_true_true, andb_true_iff, orb_true_iff, N.ltb_lt, N.eqb_eq. lia.
Qed.

(** Reading up to version [n] is taking the first [n] events. *)
Lemma range_upto n rows :
  numbered Version 1%N rows -> (0 < n)%N -> filter (in_version_range 0 n) rows = take (N.to_nat n) rows.
Proof.
  intros Hn Hp. rewrite <- (drop_0 rows) at 2.
  apply (filter_numbered Version _ 1%N rows 0 (N.to_nat n) Hn).
  intros e He. pose proof (numbered_elem _ _ _ _ Hn He).
  unfold in_version_range. rewrite Is_true_true, andb_true_iff, orb_true_iff, N.ltb_lt, N.leb_le, N.eqb_eq. lia.
Qed.

Lemma last_drop_lt {A} n (l : list A) : (n < length l)%nat -> last (drop n l) = last l.
Proof. intros Hn. rewrite !last_lookup, lookup_drop, length_drop. f_equal. lia. Qed.

Section Load.
Context {S C E W : Type} `{StoreOps W} `{RuntimeOps W}.
Variable r : Runtime S C E.
Variable rep : W -> list Envelope -> Prop.
Context `{!StoreLaws W rep} `{!RuntimeLaws W rep (snap_ok r)}.

Lemma seed_spec sid w L s from w' :
  rep w L -> Validate sid = Ok tt -> seed r sid w = (Ok (s, from), w') ->
  exists L', L `prefix_of` L' /\ rep w' L'
    /\ (N.to_nat from <= length (stream_of sid L'))%nat
    /\ replay_all r (take (N.to_nat from) (stream_of sid L')) = Ok s.
Proof.
  intros Hrep Hv. unfold seed. destruct (rt_snapshots r) as [[sc fv]|] eqn:Hsn.
  2:{ unfold ret. intros [= <- <- <-]. exists L. split; [done|]. split; [done|]. split; [simpl; lia|done]. }
  intros HS. apply bind_Ok in HS as (ld & w1 & Hld & HS). apply attempt_Ok in Hld.
  destruct (rl_load _ _ _ _ _ Hrep Hld) as (L' & HP & Hrep' & Hok). unfold ret in HS. injection HS as HS <-.
  exists L'. split; [done|]. split; [done|].
  assert (forall s f, (Initial (rt_decider r), 0%N) = (s, f) ->
    (N.to_nat f <= length (stream_of sid L'))%nat
    /\ replay_all r (take (N.to_nat f) (stream_of sid L')) = Ok s) as Hinit.
  { intros s0 f [= <- <-]. split; [simpl; lia|done]. }
  destruct ld as [[snap|]|]; [|by apply Hinit..].
  destruct (N.eqb_spec (sn_FoldVersion snap) fv) as [Hfv|]; [|by apply Hinit].
  destruct (sc_Decode sc (sn_State snap)) as [s0|] eqn:Hd; [|by apply Hinit].
  injection HS as -> <-. specialize (Hok snap eq_refl). unfold snap_ok in Hok. rewrite Hsn in Hok.
  by apply (Hok s sid).
Qed.

(** The seed never fails, and never loses the log. *)
Lemma seed_run sid w L res w' :
  rep w L -> seed r sid w = (res, w') ->
  exists x L', res = Ok x /\ L `prefix_of` L' /\ rep w' L'.
Proof.
  intros Hrep. unfold seed. destruct (rt_snapshots r) as [[sc fv]|].
  2:{ unfold ret. intros [= <- <-]. eauto. }
  unfold bind, attempt. destruct (rw_cacheLoad (Canonical sid) w) as [ld w1] eqn:Hld.
  destruct (rl_load _ _ _ _ _ Hrep Hld) as (L' & HP & Hrep' & _). unfold ret. intros [= <- <-]. eauto.
Qed.

(** The read step of load, errors that mean "no stream" included. *)
Lemma read_spec sid from to w L rd envs w' :
  rep w L -> st_ReadStream sid from to w = (rd, w') ->
  match rd with Ok envs => Ok envs | Err err => if Is err ErrStreamNotFound then Ok [] else Err err end = Ok envs ->
  exists L1 L', L `prefix_of` L1 /\ L1 `prefix_of` L' /\ rep w' L' /\ Validate sid = Ok tt
    /\ envs = filter (in_version_range from to) (stream_of sid L1).
Proof.
  intros Hrep Hrd Henvs. destruct (sl_read _ _ _ _ _ _ _ Hrep Hrd) as (L1 & L' & H1 & H2 & H3 & H4).
  exists L1, L'. split; [done|]. split; [done|]. split; [done|]. destruct rd as [l|e].
  - injection Henvs as <-. done.
  - destruct (Is e ErrStreamNotFound) eqn:He; [|done]. injection Henvs as <-.
    destruct (H4 eq_refl) as [Hv Hn]. by rewrite Hn.
Qed.

(** A current load is the fold of the whole stream at one instant. *)
Lemma load_spec sid w L s v w' :
  rep w L -> load r sid 0 None w = (Ok (s, v), w') ->
  exists L1 L', L `prefix_of` L1 /\ L1 `prefix_of` L' /\ rep w' L' /\ Validate sid = Ok tt
    /\ v = N.of_nat (length (stream_of sid L1)) /\ replay_all r (stream_of sid L1) = Ok s.
Proof.
  intros Hrep HL. unfold load in HL. simpl in HL.
  apply bind_Ok in HL as ([s0 from] & w1 & Hseed & HL). cbv beta iota in HL.
  destruct (seed_run _ _ _ _ _ Hrep Hseed) as (_ & L0 & _ & _ & Hrep0).
  apply bind_Ok in HL as (rd & w2 & Hrd & HL). apply attempt_Ok in Hrd.
  apply bind_Ok in HL as (envs & w3 & Hl & HL). unfold lift in Hl. injection Hl as Henvs <-.
  apply bind_Ok in HL as ([s1 v1] & w4 & Hf & HL). unfold lift in Hf. injection Hf as Hf <-.
  cbv beta iota in HL. unfold ret in HL. injection HL as -> -> <-.
  destruct (read_spec _ _ _ _ _ _ _ _ Hrep0 Hrd Henvs) as (_ & _ & _ & _ & _ & Hval & _). clear L0 Hrep0.
  destruct (seed_spec _ _ _ _ _ _ Hrep Hval Hseed) as (L0 & HP0 & Hrep0 & Hle & Hr0).
  destruct (read_spec _ _ _ _ _ _ _ _ Hrep0 Hrd Henvs) as (L1 & L' & HP1 & HP2 & Hrep' & _ & Hl).
  apply fold_envs_Ok in Hf as [HR Hv].
  exists L1, L'. split; [by etrans|]. split; [done|]. split; [done|]. split; [done|].
  pose proof (stream_of_prefix sid _ _ HP1) as HPs. pose proof (prefix_length _ _ HPs).
  assert (numbered Version 1%N (stream_of sid L1)) as Hn.
  { destruct HP2 as [k ->]. pose proof (sl_versions _ _ sid Hrep') as Hn. rewrite stream_of_app, numbered_app in Hn. tauto. }
  rewrite range_from in Hl by done. subst envs. split.
  - destruct (decide (N.to_nat from < length (stream_of sid L1))%nat) as [Hd|Hd].
    + rewrite last_drop_lt in Hv by done. destruct (last (stream_of sid L1)) as [e|] eqn:Hl.
      * simpl in Hv. pose proof (numbered_last _ _ _ _ Hn Hl). lia.
      * apply last_None in Hl. rewrite Hl in Hd. simpl in Hd. lia.
    + rewrite drop_ge in Hv by lia. simpl in Hv. lia.
  - unfold replay_all. rewrite <- (take_drop (N.to_nat from) (stream_of sid L1)).
    rewrite (take_prefix _ _ _ HPs Hle). erewrite replay_app; [|exact Hr0]. exact HR.
Qed.

(** [keeps m]: whatever [m] returns, the log has only grown. *)
Definition keeps {A} (m : SM W A) : Prop :=
  forall w L x w', rep w L -> m w = (x, w') -> exists L', L `prefix_of` L' /\ rep w' L'.

Lemma keeps_ret {A} (a : A) : keeps (ret a).
Proof. intros w L x w' Hrep [= _ <-]. eauto. Qed.
Lemma keeps_throw {A} e : keeps (throw (A:=A) e).
Proof. intros w L x w' Hrep [= _ <-]. eauto. Qed.
Lemma keeps_lift {A} (x : res A) : keeps (lift x).
Proof. intros w L y w' Hrep [= _ <-]. eauto. Qed.
Lemma keepsW_bind {A B} (m : SM W A) (k : A -> SM W B) :
  keeps m -> (forall a, keeps (k a)) -> keeps (bind m k).
Proof.
  intros Hm Hk w L x w' Hrep. unfold bind. destruct (m w) as [[a|e] w1] eqn:Hw.
  - destruct (Hm _ _ _ _ Hrep Hw) as (L1 & HP1 & Hrep1). intros HB.
    destruct (Hk _ _ _ _ _ Hrep1 HB) as (L2 & HP2 & Hrep2). exists L2. split; [by etrans|done].
  - intros [= _ <-]. by eapply Hm.
Qed.
Lemma keeps_attempt {A} (m : SM W A) : keeps m -> keeps (attempt m).
Proof.
  intros Hm w L x w' Hrep. unfold attempt. destruct (m w) eqn:Hw. intros [= _ <-]. by eapply Hm.
Qed.
Lemma keeps_seed sid : keeps (seed r sid).
Proof. intros w L x w' Hrep HS. destruct (seed_run _ _ _ _ _ Hrep HS) as (? & L' & _ & ?). eauto. Qed.
Lemma keeps_read sid from to : keeps (st_ReadStream sid from to).
Proof.
  intros w L x w' Hrep HS. destruct (sl_read _ _ _ _ _ _ _ Hrep HS) as (L1 & L' & H1 & H2 & H3 & _).
  exists L'. split; [by etrans|done].
Qed.
Lemma keeps_asof sid t : in_layout t -> keeps (st_ReadStreamAsOf sid t).
Proof.
  intros Ht w L x w' Hrep HS. destruct (sl_asof _ _ _ _ _ _ Hrep Ht HS) as (L1 & L' & H1 & H2 & H3 & _).
  exists L'. split; [by etrans|done].
Qed.

Lemma keeps_load sid v asOf :
  match asOf with Some t => in_layout t | None => True end -> keeps (load r sid v asOf).
Proof.
  intros Ht. unfold load. apply keepsW_bind; [case_goal; [apply keeps_seed|apply keeps_ret]|]. intros [s f].
  apply keepsW_bind; [apply keeps_attempt; destruct asOf; [by apply keeps_asof|apply keeps_read]|]. intros rd.
  apply keepsW_bind; [apply keeps_lift|]. intros envs. apply keepsW_bind; [apply keeps_lift|]. intros [s1 v1].
  case_goal; [apply keeps_throw|apply keeps_ret].
Qed.

(** Time travel by version. *)
Lemma LoadAsOfVersion_spec sid v w L s w' :
  rep w L -> LoadAsOfVersion r sid v w = (Ok s, w') ->
  exists L1 L', L `prefix_of` L1 /\ L1 `prefix_of` L' /\ rep w' L'
    /\ (N.to_nat v <= length (stream_of sid L1))%nat
    /\ replay_all r (take (N.to_nat v) (stream_of sid L1)) = Ok s.
Proof.
  intros Hrep HL. unfold LoadAsOfVersion in HL. apply bind_Ok in HL as ([] & w1 & Hv & HL).
  unfold lift in Hv. injection Hv as Hv <-. destruct (N.eqb_spec v 0) as [->|Hv0].
  { unfold ret in HL. injection HL as <- <-. exists L, L. repeat split; try done. simpl. lia. }
  apply bind_Ok in HL as ([s1 v1] & w2 & HL & HR). unfold ret in HR. injection HR as -> <-.
  unfold load in HL. rewrite (proj2 (N.eqb_neq v 0) Hv0) in HL. simpl in HL.
  apply bind_Ok in HL as ([s0 f0] & w0 & Hs0 & HL). unfold ret in Hs0. injection Hs0 as <- <- <-. cbv beta iota in HL.
  apply bind_Ok in HL as (rd & w3 & Hrd & HL). apply attempt_Ok in Hrd.
  apply bind_Ok in HL as (envs & w4 & Hl & HL). unfold lift in Hl. injection Hl as Henvs <-.
  apply bind_Ok in HL as ([s2 v2] & w5 & Hf & HL). unfold lift in Hf. injection Hf as Hf <-.
  destruct (read_spec _ _ _ _ _ _ _ _ Hrep Hrd Henvs) as (L1 & L' & HP1 & HP2 & Hrep' & _ & Hl).
  destruct (N.ltb_spec 0 v); [|lia]. destruct (N.eqb_spec v2 v) as [->|]; [|done].
  unfold ret in HL. injection HL as -> -> <-. apply fold_envs_Ok in Hf as [HR Hlast].
  exists L1, L'. split; [done|]. split; [done|]. split; [done|].
  assert (numbered Version 1%N (stream_of sid L1)) as Hn.
  { destruct HP2 as [k ->]. pose proof (sl_versions _ _ sid Hrep') as Hn. rewrite stream_of_app, numbered_app in Hn. tauto. }
  rewrite range_upto in Hl by done. subst envs. split; [|exact HR].
  destruct (last (take (N.to_nat v1) (stream_of sid L1))) as [e|] eqn:Hl; [|simpl in Hlast; lia].
  simpl in Hlast. apply last_Some_elem_of, elem_of_take in Hl as (i & Hi & Hlt).
  apply lookup_lt_Some in Hi as Hb. pose proof (numbered_lookup _ _ _ _ _ Hn Hi). lia.
Qed.

(** Time travel by commit time. *)
Lemma LoadAsOfTime_spec sid t w L s w' :
  rep w L -> in_layout t -> t <> zero_time -> LoadAsOfTime r sid t w = (Ok s, w') ->
  exists L1 L' k, L `prefix_of` L1 /\ L1 `prefix_of` L' /\ rep w' L'
    /\ take k (stream_of sid L1) = filter (fun e => RecordedAt e <= t)%Z (stream_of sid L1)
    /\ replay_all r (take k (stream_of sid L1)) = Ok s.
Proof.
  intros Hrep Ht Hz HL. unfold LoadAsOfTime, IsZero in HL. rewrite (proj2 (Z.eqb_neq _ _) Hz) in HL.
  apply bind_Ok in HL as ([s1 v1] & w2 & HL & HR). unfold ret in HR. injection HR as -> <-.
  unfold load in HL. simpl in HL.
  apply bind_Ok in HL as ([s0 f0] & w0 & Hs0 & HL). unfold ret in Hs0. injection Hs0 as <- <- <-. cbv beta iota in HL.
  apply bind_Ok in HL as (rd & w3 & Hrd & HL). apply attempt_Ok in Hrd.
  apply bind_Ok in HL as (envs & w4 & Hl & HL). unfold lift in Hl. injection Hl as Henvs <-.
  apply bind_Ok in HL as ([s2 v2] & w5 & Hf & HL). unfold lift in Hf. injection Hf as Hf <-.
  unfold ret in HL. injection HL as -> -> <-. apply fold_envs_Ok in Hf as [HR _].
  destruct (sl_asof _ _ _ _ _ _ Hrep Ht Hrd) as (L1 & L' & HP1 & HP2 & Hrep' & Hres).
  destruct rd as [l|e].
  - injection Henvs as ->. destruct Hres as (Hfil & k & Hk). exists L1, L', k.
    rewrite <- Hk. repeat split; try done.
  - destruct (Is e ErrStreamNotFound); [|done]. injection Henvs as <-. destruct (Hres eq_refl) as [_ Hn].
    exists L1, L', O. rewrite Hn. repeat split; done.
Qed.
End Load.

(** ** Handling a command *)

Section Handle.
Context {S C E W : Type} `{StoreOps W} `{RuntimeOps W}.
Variable DecisionTime : C -> option time.
Variable StampDecisionTime : C -> time -> C.
Variable r : Runtime S C E.
Variable rep : W -> list Envelope -> Prop.
Context `{!StoreLaws W rep} `{!RuntimeLaws W rep (snap_ok r)}.

(** The codec reads back what it writes, and the upcaster leaves an event that
    was just written alone. *)
Definition codec_ok : Prop := forall ev enc,
  Encode (rt_codec r) ev = Ok enc ->
  Decode (rt_codec r) enc = Ok ev
  /\ (forall u, rt_upcaster r = Some u -> u (ee_TypeURL enc) (ee_SchemaVersion enc) ev = Ok ev).

Definition state_codec_ok : Prop := forall sc fv s b,
  rt_snapshots r = Some (sc, fv) -> sc_Encode sc s = Ok b -> sc_Decode sc b = Ok s.

Hypothesis Hcodec : codec_ok.
Hypothesis Hstate : state_codec_ok.

Lemma encode_length events encoded :
  encode_events r events = Ok encoded -> length encoded = length events.
Proof.
  revert encoded; induction events as [|ev events IH]; intros encoded; cbn [encode_events]; [by intros [= <-]|].
  intros (enc & _ & HR)%result_bind_Ok. apply result_bind_Ok in HR as (rest & Hr & [= <-]).
  simpl. f_equal. by apply IH.
Qed.

(** Replaying what was encoded is evolving by the events themselves. *)
Lemma replay_encoded events encoded envs s :
  encode_events r events = Ok encoded -> map wire envs = map wire_data encoded ->
  replay r s envs = Ok (foldl (Evolve (rt_decider r)) s events).
Proof.
  revert encoded envs s; induction events as [|ev events IH]; intros encoded envs s; cbn [encode_events].
  { intros [= <-]. destruct envs; done. }
  intros (enc & Henc & HR)%result_bind_Ok. apply result_bind_Ok in HR as (rest & Hr & [= <-]).
  destruct envs as [|e envs]; [done|]. intros [= Hw1 Hw2 Hw3 Hws]. cbn [replay foldl].
  destruct (Encode (rt_codec r) ev) as [enc'|] eqn:He; [|done]. injection Henc as ->.
  destruct (Hcodec _ _ He) as [Hdec Hup].
  assert (decode_event r e = Ok ev) as ->; [|by eapply IH].
  unfold decode_event, wire. rewrite Hw1, Hw2, Hw3. destruct enc as [u v b]. simpl in *. rewrite Hdec. cbn [result_bind].
  destruct (rt_upcaster r) as [up|] eqn:Hu; [|done]. by rewrite (Hup up eq_refl).
Qed.

(** What a handled command did: it was decided on the fold of the stream in
    [L1], and its events were appended to [L2], where the stream was still the
    same; the result describes exactly that. *)
Definition handled (sid : StreamID) (cmd : C) (expected : N) (L1 L2 : list Envelope) (x : Result S E) : Prop :=
  exists state constraints,
    replay_all r (stream_of sid L1) = Ok state
    /\ (expected = 0%N \/ expected = N.of_nat (length (stream_of sid L1)))
    /\ (forall f, IsTerminal (rt_decider r) = Some f -> f state = false)
    /\ Decide (rt_decider r) state cmd = Ok (rs_Events x, constraints)
    /\ stream_of sid L2 = stream_of sid L1
    /\ rs_FromVersion x = N.of_nat (length (stream_of sid L2))
    /\ rs_ToVersion x = N.of_nat (length (stream_of sid L2 ++ rs_Envelopes x))
    /\ Forall (fun e => env_StreamID e = sid) (rs_Envelopes x)
    /\ length (rs_Envelopes x) = length (rs_Events x)
    /\ rs_State x = foldl (Evolve (rt_decider r)) state (rs_Events x)
    /\ replay_all r (stream_of sid L2 ++ rs_Envelopes x) = Ok (rs_State x).

Lemma save_spec sid s v w L x w' :
  rep w L -> Validate sid = Ok tt ->
  (N.to_nat v <= length (stream_of sid L))%nat ->
  replay_all r (take (N.to_nat v) (stream_of sid L)) = Ok s ->
  save_snapshot r sid s v w = (x, w') -> exists L', L `prefix_of` L' /\ rep w' L'.
Proof.
  intros Hrep Hv Hle Hr. unfold save_snapshot. destruct (rt_snapshots r) as [[sc fv]|] eqn:Hsn.
  2:{ intros [= _ <-]. eauto. }
  destruct (sc_Encode sc s) as [b|] eqn:Hb; [|intros [= _ <-]; eauto].
  destruct (rw_Now w) as [now w1] eqn:Hnow. destruct (rw_cacheSave _ _ w1) as [y w2] eqn:Hsave. intros [= _ <-].
  destruct (rl_now _ _ _ _ Hrep Hnow) as (_ & L1 & HP1 & Hrep1).
  assert (snap_ok r L1 (Canonical sid) (MkSnapshot v fv now b)) as Hok.
  { apply (snap_ok_mono r L L1); [done|]. unfold snap_ok. rewrite Hsn. simpl.
    intros s' sid' _ Hd HC Hv'. apply Canonical_inj in HC as <-; [|done..].
    rewrite (Hstate _ _ _ _ Hsn Hb) in Hd. injection Hd as <-. done. }
  destruct (rl_save _ _ _ _ _ _ Hrep1 Hok Hsave) as (L2 & HP2 & Hrep2). exists L2. split; [by etrans|done].
Qed.

Lemma keeps_append p : occurred_ok (ap_OccurredAt p) -> keeps rep (st_Append p).
Proof.
  intros Ho w L x w' Hrep HA. destruct (sl_append _ _ _ _ _ Hrep Ho HA) as (L1 & L' & HP & Hrep' & Hx).
  exists L'. split; [|done]. destruct x as [a|e]; [|by etrans].
  destruct Hx as [_ Hx]. etrans; [exact HP|]. etrans; [|exact Hx]. by apply prefix_app_r.
Qed.

Lemma handleOnce_Ok sid cmd meta expected w L x w' :
  rep w L -> occurred_ok (m_OccurredAt meta) -> handleOnce r sid cmd meta expected None w = (Ok x, w') ->
  exists L1 L2 L', L `prefix_of` L1 /\ L1 `prefix_of` L2
    /\ (L2 ++ rs_Envelopes x) `prefix_of` L' /\ rep w' L' /\ handled sid cmd expected L1 L2 x.
Proof.
  intros Hrep Hocc HH. unfold handleOnce in HH.
  apply bind_Ok in HH as ([state version] & w1 & HL & HH). cbv beta iota in HH.
  destruct (load_spec r rep _ _ _ _ _ _ Hrep HL) as (L1 & L1' & HP1 & HP1' & Hrep1 & Hv & Hver & Hst).
  destruct (negb (expected =? 0)%N && negb (version =? expected)%N) eqn:Hexp; [done|].
  assert (expected = 0%N \/ expected = N.of_nat (length (stream_of sid L1))) as Hexp'.
  { apply andb_false_iff in Hexp as [He%negb_false_iff|He%negb_false_iff]; apply N.eqb_eq in He; [by left|right; congruence]. }
  destruct (match IsTerminal (rt_decider r) with Some f => f state | None => false end) eqn:Hterm; [done|].
  assert (forall f, IsTerminal (rt_decider r) = Some f -> f state = false) as Hterm' by (intros f Hf; by rewrite Hf in Hterm).
  apply bind_Ok in HH as ([events constraints] & w2 & HD & HH). unfold lift in HD. injection HD as HD <-.
  cbv beta iota in HH.
  assert ((events = [] /\ constraints = [] /\ ret (MkResult state [] version version []) w1 = (Ok x, w'))
    \/ (let! encoded := lift (encode_events r events) in
        let! res := st_Append (MkAppendParams sid version encoded constraints (m_CommandID meta)
                              (m_CorrelationID meta) (m_CausationID meta) (m_Actor meta) (m_OccurredAt meta)) in
        let! _ := save_snapshot r sid (foldl (Evolve (rt_decider r)) state events) (ar_ToVersion res) in
        ret (MkResult (foldl (Evolve (rt_decider r)) state events) events (ar_FromVersion res) (ar_ToVersion res)
               (ar_Envelopes res))) w1 = (Ok x, w')) as [(-> & -> & Hno)|Hyes].
  { destruct events, constraints; auto. }
  - unfold ret in Hno. injection Hno as <- <-. exists L1, L1, L1'. rewrite app_nil_r.
    split; [done|]. split; [done|]. split; [done|]. split; [done|]. exists state, []. simpl. rewrite app_nil_r.
    repeat split; try done.
  - apply bind_Ok in Hyes as (encoded & w3 & Henc & Hyes). unfold lift in Henc. injection Henc as Henc <-.
    apply bind_Ok in Hyes as (res & w4 & HA & Hyes).
    apply bind_Ok in Hyes as ([] & w5 & HS & Hyes). unfold ret in Hyes. injection Hyes as <- <-. cbn [rs_Envelopes].
    eapply sl_append in HA as (L2 & L3 & HP2 & Hrep3 & Hb & HP3); [|exact Hrep1|exact Hocc].
    destruct Hb as [_ Hbe Hbf Hbt Hbs Hbw]. cbn [ap_StreamID ap_ExpectedVersion ap_Events] in *.
    assert (stream_of sid L2 = stream_of sid L1) as Hsame.
    { symmetry. apply prefix_same_length; [|lia]. apply stream_of_prefix. by etrans. }
    assert (replay_all r (stream_of sid L2 ++ ar_Envelopes res) = Ok (foldl (Evolve (rt_decider r)) state events)) as Hrep_all.
    { unfold replay_all. erewrite replay_app; [|rewrite Hsame; exact Hst]. by eapply replay_encoded. }
    assert (length (ar_Envelopes res) = length events) as Hlen.
    { rewrite <- (encode_length _ _ Henc), <- (length_map wire), Hbw, length_map. done. }
    assert (ar_ToVersion res = N.of_nat (length (stream_of sid L2 ++ ar_Envelopes res))) as Hto.
    { rewrite Hbt, Hbe, length_app, Hlen, (encode_length _ _ Henc). lia. }
    assert ((stream_of sid L2 ++ ar_Envelopes res) `prefix_of` stream_of sid L3) as HPs.
    { rewrite <- (stream_of_own sid (ar_Envelopes res)) by done. rewrite <- stream_of_app. by apply stream_of_prefix. }
    destruct (save_spec sid (foldl (Evolve (rt_decider r)) state events) (ar_ToVersion res) w4 L3 (Ok tt) w5 Hrep3 Hv)
      as (L4 & HP4 & Hrep4); [|  |exact HS|].
    { rewrite Hto, Nat2N.id. by apply prefix_length. }
    { rewrite Hto, Nat2N.id, (take_prefix _ _ _ HPs), take_ge by lia. done. }
    exists L1, L2, L4. split; [done|]. split; [by etrans|]. split; [by etrans|]. split; [done|].
    exists state, constraints. simpl. repeat split; try done. congruence.
Qed.

Lemma handleOnce_keeps sid cmd meta expected :
  occurred_ok (m_OccurredAt meta) -> keeps rep (handleOnce r sid cmd meta expected None).
Proof.
  intros Hocc w L x w' Hrep HH. destruct x as [x|e].
  { destruct (handleOnce_Ok _ _ _ _ _ _ _ _ Hrep Hocc HH) as (L1 & L2 & L' & H1 & H2 & H3 & H4 & _).
    exists L'. split; [|done]. etrans; [exact H1|]. etrans; [exact H2|]. etrans; [|exact H3]. by apply prefix_app_r. }
  unfold handleOnce in HH. apply bind_Err in HH as [HL|([state version] & w1 & HL & HH)].
  { by eapply (keeps_load r rep sid 0 None I). }
  destruct (keeps_load r rep sid 0 None I _ _ _ _ Hrep HL) as (L1 & HP1 & Hrep1). cbv beta iota in HH.
  destruct (negb _ && negb _); [injection HH as _ <-; eauto|].
  destruct (match IsTerminal _ with Some f => _ | None => _ end); [injection HH as _ <-; eauto|].
  apply bind_Err in HH as [HD|([events constraints] & w2 & HD & HH)]; [injection HD as _ <-; eauto|].
  injection HD as HD <-. cbv beta iota in HH.
  assert ((let! encoded := lift (encode_events r events) in
        let! res := st_Append (MkAppendParams sid version encoded constraints (m_CommandID meta)
                              (m_CorrelationID meta) (m_CausationID meta) (m_Actor meta) (m_OccurredAt meta)) in
        let! _ := save_snapshot r sid (foldl (Evolve (rt_decider r)) state events) (ar_ToVersion res) in
        ret (MkResult (foldl (Evolve (rt_decider r)) state events) events (ar_FromVersion res) (ar_ToVersion res)
               (ar_Envelopes res))) w1 = (Err e, w')) as HH'.
  { destruct events, constraints; [discriminate HH|exact HH..]. }
  apply bind_Err in HH' as [HE|(encoded & w3 & HE & HH')]; [injection HE as _ <-; eauto|]. injection HE as HE <-.
  apply bind_Err in HH' as [HA|(res & w4 & HA & HH')].
  - eapply keeps_append in HA as (L2 & HP2 & Hrep2); [|exact Hocc|exact Hrep1]. exists L2. split; [by etrans|done].
  - exfalso. apply bind_Err in HH' as [HS|([] & w5 & HS & HH')]; [|discriminate HH'].
    unfold save_snapshot in HS. repeat case_match; discriminate HS.
Qed.

Lemma keeps_sleep d : keeps rep (sleep d).
Proof.
  intros w L x w' Hrep. unfold sleep. case_goal; intros HS.
  - by apply (rl_ctxErr _ _ _ _ Hrep HS).
  - by apply (rl_timer _ _ _ _ _ Hrep HS).
Qed.

(** Every attempt starts from a log at least as long; a success is the success
    of the last attempt. *)
Lemma handle_loop_Ok sid cmd meta expected left att w L x w' :
  rep w L -> occurred_ok (m_OccurredAt meta) -> handle_loop r sid cmd meta expected None left att w = (Ok x, w') ->
  exists w1 L1, L `prefix_of` L1 /\ rep w1 L1 /\ handleOnce r sid cmd meta expected None w1 = (Ok x, w').
Proof.
  intros Hrep Hocc; revert att w L Hrep; induction left as [|left IH]; intros att w L Hrep; cbn [handle_loop]; intros HH;
    apply bind_Ok in HH as (res & w1 & Hres & HH); apply attempt_Ok in Hres; (destruct res as [v|err];
    [unfold ret in HH; injection HH as -> <-; exists w, L; done|]).
  - repeat case_match; discriminate HH.
  - case_match; [repeat case_match; discriminate HH|].
    destruct (handleOnce_keeps _ _ _ _ Hocc _ _ _ _ Hrep Hres) as (L1 & HP1 & Hrep1).
    apply bind_Ok in HH as ([] & w2 & Hs & HH).
    destruct (keeps_sleep _ _ _ _ _ Hrep1 Hs) as (L2 & HP2 & Hrep2).
    destruct (IH _ _ _ Hrep2 HH) as (w3 & L3 & HP3 & Hrep3 & Hr3).
    exists w3, L3. split; [|done]. etrans; [exact HP1|]. by etrans.
Qed.

Lemma HandleAt_Ok sid cmd meta expected w L x w' :
  rep w L -> HandleAt DecisionTime StampDecisionTime r sid cmd meta expected [] w = (Ok x, w') ->
  exists now cmd' L1 L2 L',
    check_decided_at DecisionTime StampDecisionTime cmd now = Ok cmd'
    /\ L `prefix_of` L1 /\ L1 `prefix_of` L2 /\ (L2 ++ rs_Envelopes x) `prefix_of` L' /\ rep w' L'
    /\ handled sid cmd' expected L1 L2 x.
Proof.
  intros Hrep. unfold HandleAt. destruct (rw_Now w) as [now w1] eqn:Hnow.
  destruct (check_decided_at DecisionTime StampDecisionTime cmd now) as [cmd'|] eqn:Hc; [|done].
  destruct (rl_now _ _ _ _ Hrep Hnow) as (Hlay & L0 & HP0 & Hrep0).
  destruct (if bool_decide (m_CommandID meta = uuid_Nil) then rw_newV7 w1 else (m_CommandID meta, w1)) as [id w2] eqn:Hid.
  assert (exists L1, L0 `prefix_of` L1 /\ rep w2 L1) as (L1 & HP1 & Hrep1).
  { case_bool_decide; [by eapply rl_newV7|]. injection Hid as _ <-. eauto. }
  intros HH. eapply handle_loop_Ok in HH as (w3 & L3 & HP3 & Hrep3 & HH); [|exact Hrep1|right; exact Hlay].
  eapply handleOnce_Ok in HH as (L4 & L5 & L' & HP4 & HP5 & HP6 & Hrep' & Hh); [|exact Hrep3|right; exact Hlay].
  exists now, cmd', L4, L5, L'. split; [done|]. split; [|done].
  etrans; [exact HP0|]. etrans; [exact HP1|]. by etrans.
Qed.

Lemma handle_loop_keeps sid cmd meta expected left att :
  occurred_ok (m_OccurredAt meta) -> keeps rep (handle_loop r sid cmd meta expected None left att).
Proof.
  intros Hocc. revert att. induction left as [|left IH]; intros att; cbn [handle_loop];
    (apply keepsW_bind; [by apply keeps_attempt, handleOnce_keeps|]); intros [v|err]; try apply keeps_ret; cbv zeta.
  - repeat case_match; apply keeps_throw.
  - case_match; [case_match; apply keeps_throw|]. apply keepsW_bind; [apply keeps_sleep|intros _; apply IH].
Qed.

(** Whatever a command call returns, the log has only grown. *)
Lemma HandleAt_keeps sid cmd meta expected :
  keeps rep (HandleAt DecisionTime StampDecisionTime r sid cmd meta expected []).
Proof.
  intros w L x w' Hrep. unfold HandleAt. destruct (rw_Now w) as [now w1] eqn:Hnow.
  destruct (rl_now _ _ _ _ Hrep Hnow) as (Hlay & L0 & HP0 & Hrep0).
  destruct (check_decided_at DecisionTime StampDecisionTime cmd now) as [cmd'|]; [|intros [= _ <-]; eauto].
  destruct (if bool_decide (m_CommandID meta = uuid_Nil) then rw_newV7 w1 else (m_CommandID meta, w1)) as [id w2] eqn:Hid.
  assert (exists L1, L0 `prefix_of` L1 /\ rep w2 L1) as (L1 & HP1 & Hrep1).
  { case_bool_decide; [by eapply rl_newV7|]. injection Hid as _ <-. eauto. }
  intros HH. eapply handle_loop_keeps in HH as (L2 & HP2 & Hrep2); [|right; exact Hlay|exact Hrep1].
  exists L2. split; [|done]. etrans; [exact HP0|]. by etrans.
Qed.

(** A stale caller assertion ends the call after one load: nothing is decided
    or appended, and nothing is retried. *)
Lemma handle_loop_stale sid cmd meta expected ho left w s v w1 :
  load r sid 0 None w = (Ok (s, v), w1) -> expected <> 0%N -> v <> expected ->
  handle_loop r sid cmd meta expected ho left 0 w = (Err (ConflictError sid expected v), w1).
Proof.
  intros HL He Hv.
  assert (handleOnce r sid cmd meta expected ho w = (Err (ConflictError sid expected v), w1)) as Hone.
  { unfold handleOnce, bind. rewrite HL. rewrite (proj2 (N.eqb_neq _ _) He), (proj2 (N.eqb_neq _ _) Hv). done. }
  destruct left; cbn [handle_loop]; unfold bind, attempt; rewrite Hone; done.
Qed.

(** What HandleAt does before its first load: reads the clock, checks the
    decision time, and takes the command id or draws one. *)
Definition handle_entry (cmd : C) (meta : Meta) (w : W) : option W :=
  let '(now, w) := rw_Now w in
  match check_decided_at DecisionTime StampDecisionTime cmd now with
  | Err _ => None
  | Ok _ => Some (if bool_decide (m_CommandID meta = uuid_Nil) then snd (rw_newV7 w) else w)
  end.

Lemma handle_entry_keeps cmd meta w L w1 :
  rep w L -> handle_entry cmd meta w = Some w1 -> exists L1, L `prefix_of` L1 /\ rep w1 L1.
Proof.
  intros Hrep. unfold handle_entry. destruct (rw_Now w) as [now w0] eqn:Hnow.
  destruct (rl_now _ _ _ _ Hrep Hnow) as (_ & L0 & HP0 & Hrep0).
  destruct (check_decided_at _ _ _ _); [|done]. intros [= <-]. case_bool_decide; [|eauto].
  destruct (rw_newV7 w0) as [id w2] eqn:Hid. destruct (rl_newV7 _ _ _ _ Hrep0 Hid) as (L1 & HP1 & Hrep1).
  exists L1. split; [by etrans|done].
Qed.

Lemma HandleAt_stale sid cmd meta expected opts w w0 s v w1 :
  handle_entry cmd meta w = Some w0 -> load r sid 0 None w0 = (Ok (s, v), w1) -> expected <> 0%N -> v <> expected ->
  HandleAt DecisionTime StampDecisionTime r sid cmd meta expected opts w = (Err (ConflictError sid expected v), w1).
Proof.
  unfold handle_entry, HandleAt. destruct (rw_Now w) as [now wn].
  destruct (check_decided_at _ _ _ _); [|done]. intros [= <-] HL He Hv.
  case_bool_decide; [destruct (rw_newV7 wn)|]; by eapply handle_loop_stale.
Qed.
End Handle.

(** ** Decision times *)

Section DecidedAt.
Context {C : Type}.
Variable DecisionTime : C -> option time.
Variable StampDecisionTime : C -> time -> C.

(** Within the range of a time.Duration the check is the documented window. *)
Lemma check_decided_at_window cmd now decided :
  DecisionTime cmd = Some decided -> decided <> zero_time ->
  (min_duration < now - decided <= max_duration)%Z ->
  check_decided_at DecisionTime StampDecisionTime cmd now
  = (if (Z.abs (now - decided) <=? MaxDecisionSkew)%Z then Ok (StampDecisionTime cmd now)
     else Err (DecidedAtSkewError decided now MaxDecisionSkew)).
Proof.
  intros Hd Hz Hr. unfold check_decided_at. rewrite Hd. unfold IsZero. rewrite (proj2 (Z.eqb_neq _ _) Hz).
  assert (Sub now decided = now - decided)%Z as HS.
  { unfold Sub. rewrite (proj2 (Z.leb_le _ _)), (proj2 (Z.leb_le _ _)) by lia. done. }
  rewrite HS. unfold min_duration, max_duration in *.
  assert ((if (now - decided <? 0)%Z then i64 (- (now - decided)) else now - decided) = Z.abs (now - decided))%Z as ->.
  { destruct (Z.ltb_spec (now - decided) 0); [rewrite i64_small by (unfold i64_max; lia)|]; lia. }
  destruct (Z.leb_spec (Z.abs (now - decided)) MaxDecisionSkew), (Z.ltb_spec MaxDecisionSkew (Z.abs (now - decided)));
    (lia || done).
Qed.

(** Beyond it, the negation of the saturated difference overflows and the check
    passes. *)
Lemma check_decided_at_overflow cmd now decided :
  DecisionTime cmd = Some decided -> decided <> zero_time -> (now - decided <= min_duration)%Z ->
  check_decided_at DecisionTime StampDecisionTime cmd now = Ok (StampDecisionTime cmd now).
Proof.
  intros Hd Hz Hr. unfold check_decided_at. rewrite Hd. unfold IsZero. rewrite (proj2 (Z.eqb_neq _ _) Hz).
  assert (Sub now decided = min_duration)%Z as ->; [|by vm_compute].
  unfold Sub. destruct (Z.leb_spec min_duration (now - decided)) as [Hle|Hgt]; simpl.
  - assert (now - decided = min_duration)%Z as -> by lia. by vm_compute.
  - destruct (Z.ltb_spec now decided); [done|]. unfold min_duration in *. lia.
Qed.
End DecidedAt.
