(* ===== verification/RuntimeSqlite.v ===== *)
(** * The runtime over the SQLite store

    The SQLite backend discharges the contract of Store.v, in a setting with
    other writers: before every store call the next pending append of another
    process runs.  A process-local snapshot map discharges the cache contract.
    The runtime's theorems therefore apply to the assembled program. *)
From S2P Require Import Prelude Sha256 Es Hash Chain Anchor Timestamp Effect Store Sql Sqlite.
From S2P Require Import SqliteCorrect SqliteTheorems Runtime RuntimeCorrect.

Record shared := MkShared {
  sh_world : world DB;
  sh_cache : gmap string Snapshot;
  sh_others : list AppendParams      (** appends other processes will make *)
}.

Section Instance.
Context `{UuidLib} `{Env}.
Variable cap : Z.

(** The next pending append of another process, if any. *)
Definition step_in (w : shared) : shared :=
  match sh_others w with
  | [] => w
  | p :: ps => MkShared (Append cap p (sh_world w)).2 (sh_cache w) ps
  end.

Definition on_store {A} (m : M DB A) : SM shared A := fun w =>
  let w := step_in w in
  let '(x, w1) := m (sh_world w) in (x, MkShared w1 (sh_cache w) (sh_others w)).

#[global] Instance sqlite_store : StoreOps shared := {
  st_Append p := on_store (Append cap p);
  st_ReadStream sid from to := on_store (ReadStream sid from to);
  st_ReadStreamAsOf sid t := on_store (ReadStreamAsOf sid t)
}.

Definition with_world (w : shared) (x : world DB) : shared := MkShared x (sh_cache w) (sh_others w).

#[global] Instance sqlite_runtime_ops : RuntimeOps shared := {
  rw_Now w := (clock (w_tick (sh_world w)), with_world w (tick (sh_world w)));
  rw_newV7 w := (fresh_id (w_tick (sh_world w)), with_world w (tick (sh_world w)));
  rw_ctxErr := ret tt;
  rw_timer d := fun w => (Ok tt, with_world w (tick (sh_world w)));
  rw_cacheLoad id := fun w => (Ok (sh_cache w !! id), w);
  rw_cacheSave id s := fun w => (Ok tt, MkShared (sh_world w) (<[id := s]> (sh_cache w)) (sh_others w))
}.

(** A driver error is not one of the package's own errors. *)
Definition driver_faults : Prop := forall n e, fault n = Some e -> Is e ErrStreamNotFound = false.

Section Laws.
Context {S C E : Type}.
Variable r : Runtime S C E.
Hypothesis Hclk : clock_ok.
Hypothesis Hmono : clock_monotone.
Hypothesis Hfaults : driver_faults.

Definition pending_ok (ps : list AppendParams) : Prop := Forall (fun p => occurred_ok (ap_OccurredAt p)) ps.

(** The log a shared world stands for. *)
Record shared_rep (w : shared) (L : list Envelope) : Prop := {
  sr_reach : reachable cap (sh_world w) L;
  sr_cache : forall id s, sh_cache w !! id = Some s -> snap_ok r L id s;
  sr_others : pending_ok (sh_others w)
}.

Lemma shared_rep_tick w L x :
  shared_rep w L -> d_events (w_db x) = d_events (w_db (sh_world w)) ->
  d_sequence (w_db x) = d_sequence (w_db (sh_world w)) -> (w_tick (sh_world w) <= w_tick x)%nat ->
  shared_rep (with_world w x) L.
Proof.
  intros [Hr Hc Ho] H1 H2 H3. split; [|exact Hc|exact Ho]. destruct x as [db n].
  by apply (reach_other cap (sh_world w) L db n).
Qed.

Lemma interfere_rep w L : shared_rep w L -> exists L', L `prefix_of` L' /\ shared_rep (step_in w) L'.
Proof.
  intros [Hr Hc Ho]. unfold step_in. destruct (sh_others w) as [|p ps] eqn:Hps.
  { exists L. split; [done|]. split; [done..|by rewrite Hps]. }
  apply Forall_cons in Ho as [Hp Ho]. destruct (Append cap p (sh_world w)) as [x w1] eqn:HA.
  exists (L ++ match x with Ok a => ar_Envelopes a | Err _ => [] end). split; [by apply prefix_app_r|].
  split; [|intros id s Hs; eapply snap_ok_mono; [by apply prefix_app_r|by apply Hc]|exact Ho].
  by apply (reach_append cap (sh_world w) L p x w1).
Qed.

(** A read against a reachable store. *)
Lemma read_only_rep {A} (m : M DB A) w L x w' :
  shared_rep w L -> pure_db m -> tick_mono m -> on_store m w = (x, w') ->
  exists L1, L `prefix_of` L1 /\ shared_rep (step_in w) L1 /\ shared_rep w' L1
    /\ x = (m (sh_world (step_in w))).1.
Proof.
  intros Hrep Hp Ht HM. destruct (interfere_rep w L Hrep) as (L1 & HP & Hrep1). exists L1.
  split; [done|]. split; [done|]. unfold on_store in HM. specialize (Hp (sh_world (step_in w))).
  specialize (Ht (sh_world (step_in w))). destruct (m (sh_world (step_in w))) as [y w1]. simpl in *.
  injection HM as <- <-. split; [|done]. apply (shared_rep_tick _ _ w1 Hrep1); [by rewrite Hp..|done].
Qed.

Lemma reachable_log w L : shared_rep w L -> log_inv (w_db (sh_world w)) L.
Proof. intros [Hr _ _]. by destruct (reachable_inv cap _ _ Hclk Hr). Qed.

Lemma ReadStream_cases w L sid from to :
  log_inv (w_db w) L ->
  match (ReadStream sid from to w).1 with
  | Ok l => Validate sid = Ok tt /\ l = filter (in_version_range from to) (stream_of sid L)
  | Err e => Is e ErrStreamNotFound = false
  end.
Proof.
  intros Hi. destruct (Validate_cases sid) as [Hv|Hv].
  2:{ unfold ReadStream, bind, lift. rewrite Hv. reflexivity. }
  destruct (fault (w_tick w)) as [e|] eqn:Hf.
  - unfold ReadStream, bind, lift, bind_uint64. rewrite Hv.
    destruct (from <=? max_int64)%N; [|reflexivity].
    destruct (0 <? to)%N; [destruct (to <=? max_int64)%N; [|reflexivity]|];
      unfold queryEnvelopes, query, exec; rewrite Hf; simpl; by eapply Hfaults.
  - destruct (N.leb_spec from max_int64) as [Hfr|Hfr].
    2:{ unfold ReadStream, bind, lift, bind_uint64. rewrite Hv, (proj2 (N.leb_gt _ _) Hfr). reflexivity. }
    destruct (N.leb_spec to max_int64) as [Hto|Hto]; [by rewrite (ReadStream_run w L Hi)|].
    unfold ReadStream, bind, lift, bind_uint64. rewrite Hv, (proj2 (N.leb_le _ _) Hfr), (proj2 (N.leb_gt _ _) Hto).
    rewrite (proj2 (N.ltb_lt 0 to)) by (unfold max_int64 in *; lia). reflexivity.
Qed.

Lemma ReadStreamAsOf_cases w L sid t :
  reachable cap w L -> in_layout t ->
  match (ReadStreamAsOf sid t w).1 with
  | Ok l => l = filter (fun e => RecordedAt e <= t)%Z (stream_of sid L) /\ exists k, l = take k (stream_of sid L)
  | Err e => Is e ErrStreamNotFound = false
  end.
Proof.
  intros Hr Ht. destruct (reachable_inv cap _ _ Hclk Hr) as [Hi _].
  destruct (Validate_cases sid) as [Hv|Hv].
  2:{ unfold ReadStreamAsOf, bind, lift. rewrite Hv. reflexivity. }
  destruct (fault (w_tick w)) as [e|] eqn:Hf.
  - unfold ReadStreamAsOf, bind, lift. rewrite Hv. unfold queryEnvelopes, query, exec. rewrite Hf. simpl. by eapply Hfaults.
  - rewrite (ReadStreamAsOf_run w L Hi) by done. simpl. split; [done|].
    destruct (reachable_times cap _ _ Hclk Hmono Hr) as [Hs _].
    apply (sorted_le_filter RecordedAt). by apply sorted_filter.
Qed.

Lemma pure_ReadStream sid from to : pure_db (ReadStream sid from to).
Proof. unfold ReadStream. repeat (apply pure_bind; [apply pure_lift|intros _]). apply pure_query. Qed.
Lemma tick_ReadStream sid from to : tick_mono (ReadStream sid from to).
Proof. unfold ReadStream. repeat (apply tick_bind; [apply tick_lift|intros _]). apply tick_exec. Qed.
Lemma pure_ReadStreamAsOf sid t : pure_db (ReadStreamAsOf sid t).
Proof. unfold ReadStreamAsOf. repeat (apply pure_bind; [apply pure_lift|intros _]). apply pure_query. Qed.
Lemma tick_ReadStreamAsOf sid t : tick_mono (ReadStreamAsOf sid t).
Proof. unfold ReadStreamAsOf. repeat (apply tick_bind; [apply tick_lift|intros _]). apply tick_exec. Qed.

Lemma shared_append p w L x w' :
  occurred_ok (ap_OccurredAt p) -> shared_rep w L -> st_Append p w = (x, w') ->
  exists L1 L', L `prefix_of` L1 /\ shared_rep w' L'
    /\ match x with
       | Ok a => batch p L1 a /\ (L1 ++ ar_Envelopes a) `prefix_of` L'
       | Err _ => L1 `prefix_of` L'
       end.
Proof.
  intros Ho Hrep HA. simpl in HA. unfold on_store in HA.
  destruct (interfere_rep w L Hrep) as (L1 & HP & Hrep1).
  destruct (Append cap p (sh_world (step_in w))) as [y w1] eqn:HB. injection HA as <- <-.
  pose proof (reach_append cap _ _ _ _ _ (sr_reach _ _ Hrep1) Ho HB) as Hr2.
  exists L1, (L1 ++ match y with Ok a => ar_Envelopes a | Err _ => [] end). split; [done|]. split.
  { split; [exact Hr2| |apply (sr_others _ _ Hrep1)]. intros id s Hs.
    apply (snap_ok_mono r L1); [by apply prefix_app_r|]. by apply (sr_cache _ _ Hrep1). }
  destruct y as [a|e]; [|by rewrite app_nil_r]. split; [|done].
  destruct (Append_Ok _ _ _ _ _ _ (reachable_log _ _ Hrep1) Hclk Ho HB) as (_ & (n & _ & [Hv He Hf Ht Hc _]) & _).
  split; try done.
  - by eapply carries_sid.
  - clear -Hc. induction Hc as [|ev e evs es Hc Hcs IH]; [done|]. simpl. f_equal; [|done].
    destruct Hc. unfold wire, wire_data. congruence.
Qed.

#[global] Instance sqlite_store_laws : StoreLaws shared shared_rep.
Proof.
  split.
  - intros w L sid Hrep. apply (li_versions _ _ (reachable_log _ _ Hrep)).
  - intros w L p x w' Hrep Ho. by apply shared_append.
  - intros w L sid from to x w' Hrep HR.
    destruct (read_only_rep _ w L x w' Hrep (pure_ReadStream sid from to) (tick_ReadStream sid from to) HR)
      as (L1 & HP & Hrep1 & Hrep' & ->).
    exists L1, L1. split; [done|]. split; [done|]. split; [done|].
    pose proof (ReadStream_cases (sh_world (step_in w)) L1 sid from to (reachable_log _ _ Hrep1)) as Hc.
    destruct ((ReadStream sid from to (sh_world (step_in w))).1); [done|]. intros He. congruence.
  - intros w L sid t x w' Hrep Ht HR.
    destruct (read_only_rep _ w L x w' Hrep (pure_ReadStreamAsOf sid t) (tick_ReadStreamAsOf sid t) HR)
      as (L1 & HP & Hrep1 & Hrep' & ->).
    exists L1, L1. split; [done|]. split; [done|]. split; [done|].
    pose proof (ReadStreamAsOf_cases (sh_world (step_in w)) L1 sid t (sr_reach _ _ Hrep1) Ht) as Hc.
    destruct ((ReadStreamAsOf sid t (sh_world (step_in w))).1); [done|]. intros He. congruence.
Qed.

#[global] Instance sqlite_runtime_laws : RuntimeLaws shared shared_rep (snap_ok r).
Proof.
  assert (forall w L, shared_rep w L -> shared_rep (with_world w (tick (sh_world w))) L) as Htick.
  { intros w L Hrep. apply shared_rep_tick; [done..|simpl; lia]. }
  split.
  - intros w L t w' Hrep [= <- <-]. split; [apply Hclk|]. eauto.
  - intros w L id w' Hrep [= _ <-]. eauto.
  - intros w L x w' Hrep [= _ <-]. eauto.
  - intros d w L x w' Hrep [= _ <-]. eauto.
  - intros id w L x w' Hrep [= <- <-]. exists L. split; [done|]. split; [done|].
    intros s [= Hs]. by apply (sr_cache _ _ Hrep).
  - intros id s w L x w' [Hr Hc Ho] Hok [= _ <-]. exists L. split; [done|]. split; [exact Hr| |exact Ho].
    simpl. intros id' s' [[<- <-]|[_ Hs]]%lookup_insert_Some; [done|by apply Hc].
Qed.
End Laws.
End Instance.
