(* ===== verification/Counter.v ===== *)
(** * The bounded counter example (src/examples/counter/counter.go)

    The worked aggregate: its decider with int64 arithmetic as Go has it, the
    invariant it keeps, and where the guards do not protect it. *)
From S2P Require Import Prelude Es Effect Store Runtime.

(** The messages of counter.proto, the fields the decider reads. *)
Record Counter := MkCounter {
  ct_Initialized : bool;
  ct_Count : Z;
  ct_Min : Z;
  ct_Max : Z;
  ct_Closed : bool
}.

Inductive Command :=
| Init (Min Max Initial : Z)
| Increment (By : Z)
| Decrement (By : Z)
| Close (decided_at : option time).

Inductive Event :=
| Initialized (Min Max Value : Z)
| Incremented (By : Z)
| Decremented (By : Z)
| Closed.

Definition ErrAlreadyInitialized : error := ErrorsNew "counter: already initialized".
Definition ErrNotInitialized : error := ErrorsNew "counter: not initialized".
Definition ErrBadRange : error := ErrorsNew "counter: min must be <= max".
Definition ErrOutOfRange : error := ErrorsNew "counter: value would fall outside [min,max]".

Definition counter_Decide (s : Counter) (c : Command) : res (list Event * list ConstraintOp) :=
  match c with
  | Init mn mx initial =>
      if ct_Initialized s then Err ErrAlreadyInitialized
      else if (mx <? mn)%Z then Err ErrBadRange
      else if (initial <? mn)%Z || (mx <? initial)%Z then Err ErrOutOfRange
      else Ok ([Initialized mn mx initial], [])
  | Increment by_ =>
      if negb (ct_Initialized s) then Err ErrNotInitialized
      else if (ct_Max s <? i64 (ct_Count s + by_))%Z then Err ErrOutOfRange
      else Ok ([Incremented by_], [])
  | Decrement by_ =>
      if negb (ct_Initialized s) then Err ErrNotInitialized
      else if (i64 (ct_Count s - by_) <? ct_Min s)%Z then Err ErrOutOfRange
      else Ok ([Decremented by_], [])
  | Close _ =>
      if negb (ct_Initialized s) then Err ErrNotInitialized
      else Ok ([Closed], [])
  end.

Definition counter_Evolve (s : Counter) (e : Event) : Counter :=
  match e with
  | Initialized mn mx v => MkCounter true v mn mx (ct_Closed s)
  | Incremented by_ => MkCounter (ct_Initialized s) (i64 (ct_Count s + by_)) (ct_Min s) (ct_Max s) (ct_Closed s)
  | Decremented by_ => MkCounter (ct_Initialized s) (i64 (ct_Count s - by_)) (ct_Min s) (ct_Max s) (ct_Closed s)
  | Closed => MkCounter (ct_Initialized s) (ct_Count s) (ct_Min s) (ct_Max s) true
  end.

Definition counter_Decider : Decider Counter Command Event :=
  MkDecider _ _ _ (MkCounter false 0 0 0 false) counter_Decide counter_Evolve (Some ct_Closed).

(** ** The invariant *)

Definition is_int64 (z : Z) : Prop := (- 9223372036854775808 <= z <= i64_max)%Z.

Definition in_bounds (s : Counter) : Prop :=
  is_int64 (ct_Count s) /\ is_int64 (ct_Min s) /\ is_int64 (ct_Max s)
  /\ (ct_Initialized s = true -> ct_Min s <= ct_Count s <= ct_Max s)%Z.

(** A step of a non-negative size that does not overflow. *)
Definition tame (s : Counter) (c : Command) : Prop :=
  match c with
  | Init mn mx i => is_int64 mn /\ is_int64 mx /\ is_int64 i
  | Increment by_ => (0 <= by_)%Z /\ is_int64 (ct_Count s + by_)
  | Decrement by_ => (0 <= by_)%Z /\ is_int64 (ct_Count s - by_)
  | Close _ => True
  end.

(** The counter stays inside its declared range: deciding and applying any
    command of non-negative, non-overflowing size on a counter within
    [Min, Max] leaves an initialised counter within [Min, Max], and claims no
    uniqueness. *)
Theorem counter_stays_in_bounds s c evs ops :
  in_bounds s -> tame s c -> Decide counter_Decider s c = Ok (evs, ops) ->
  in_bounds (foldl (Evolve counter_Decider) s evs)
  /\ ct_Initialized (foldl (Evolve counter_Decider) s evs) = true
  /\ ops = [].
Proof.
  intros (Hc & Hmn & Hmx & Hb) Ht HD. simpl in *.
  destruct c as [mn mx i|b|b|d]; simpl in HD; destruct (ct_Initialized s) eqn:Hi; simpl in HD; try done;
    repeat (case_hyp HD; try done); injection HD as <- <-; simpl; rewrite ?Hi;
    (split; [|done]); unfold in_bounds; simpl; rewrite ?Hi; destruct Ht;
    repeat match goal with
    | E : (_ || _) = false |- _ => apply orb_false_iff in E as [? ?]
    | E : (_ <? _)%Z = false |- _ => apply Z.ltb_ge in E
    | |- context [i64 ?z] => rewrite (i64_small z) in * by done
    end; unfold is_int64 in *; intuition lia.
Qed.

Lemma counter_stays_in_bounds_witness :
  in_bounds (foldl (Evolve counter_Decider) (MkCounter true 3 0 10 false) [Incremented 7]).
Proof.
  apply (counter_stays_in_bounds (MkCounter true 3 0 10 false) (Increment 7) [Incremented 7] []);
    [repeat split; simpl; unfold i64_max; lia|repeat split; simpl; unfold i64_max; lia|reflexivity].
Defined.

(** The range guards look at one end only.  A negative step is accepted by the
    guard of the opposite direction: from any in-range counter an accepted
    Increment by a negative amount can leave the counter below Min, and an
    Increment that overflows int64 is accepted and wraps to a large negative
    value. *)
Theorem counter_guard_one_sided :
  (exists s b, in_bounds s
     /\ Decide counter_Decider s (Increment b) = Ok ([Incremented b], [])
     /\ (ct_Count (counter_Evolve s (Incremented b)) < ct_Min s)%Z)
  /\ (exists s b, in_bounds s /\ (0 < b)%Z
        /\ Decide counter_Decider s (Increment b) = Ok ([Incremented b], [])
        /\ (ct_Count (counter_Evolve s (Incremented b)) < ct_Min s)%Z).
Proof.
  split.
  - exists (MkCounter true 3 0 10 false), (-5)%Z. repeat split; vm_compute; congruence.
  - exists (MkCounter true 10 0 i64_max false), i64_max. repeat split; vm_compute; congruence.
Qed.
