(* ===== verification/RuntimeClaims.v ===== *)
(** * The runtime's promises

    Stated for every store and every set of services that satisfy the
    contracts, and instantiated with the counter aggregate over the SQLite
    store with a concurrent writer. *)
From S2P Require Import Prelude Sha256 Es Hash Chain Anchor Timestamp Effect Store Sql Sqlite.
From S2P Require Import SqliteCorrect SqliteTheorems HexUuid Runtime RuntimeCorrect RuntimeSqlite.
From S2P Require Import Counter.

(** ** A concrete runtime: the counter, with a simple event codec *)

Definition put (z : Z) : list byte := be 8 (u64_of_Z z).
Definition get (l : list byte) : Z := i64 (Z.of_N (be_value l)).

#[local] Arguments put : simpl never.

Definition is_int64b (z : Z) : bool := (-9223372036854775808 <=? z)%Z && (z <=? i64_max)%Z.

Definition encode_counter (e : Event) : res EncodedEvent :=
  match e with
  | Initialized a b c =>
      if is_int64b a && is_int64b b && is_int64b c
      then Ok (MkEncodedEvent "counter.v1.Initialized" 1 (put a ++ put b ++ put c)) else Err ErrBadRange
  | Incremented a => if is_int64b a then Ok (MkEncodedEvent "counter.v1.Incremented" 1 (put a)) else Err ErrBadRange
  | Decremented a => if is_int64b a then Ok (MkEncodedEvent "counter.v1.Decremented" 1 (put a)) else Err ErrBadRange
  | Closed => Ok (MkEncodedEvent "counter.v1.Closed" 1 [])
  end.

Definition decode_counter (e : EncodedEvent) : res Event :=
  let b := ee_Payload e in
  if bool_decide (ee_TypeURL e = "counter.v1.Initialized"%string)
  then Ok (Initialized (get (take 8 b)) (get (take 8 (drop 8 b))) (get (drop 16 b)))
  else if bool_decide (ee_TypeURL e = "counter.v1.Incremented"%string) then Ok (Incremented (get b))
  else if bool_decide (ee_TypeURL e = "counter.v1.Decremented"%string) then Ok (Decremented (get b))
  else if bool_decide (ee_TypeURL e = "counter.v1.Closed"%string) then Ok Closed
  else Err (Sentinel ErrUnknownEventType).

Definition encode_state (s : Counter) : res (list byte) :=
  if is_int64b (ct_Count s) && is_int64b (ct_Min s) && is_int64b (ct_Max s)
  then Ok ((if ct_Initialized s then Byte.x01 else Byte.x00) :: (if ct_Closed s then Byte.x01 else Byte.x00)
           :: put (ct_Count s) ++ put (ct_Min s) ++ put (ct_Max s))
  else Err ErrBadRange.

Definition decode_state (l : list byte) : res Counter :=
  match l with
  | i :: c :: b =>
      Ok (MkCounter (bool_decide (i = Byte.x01)) (get (take 8 b)) (get (take 8 (drop 8 b))) (get (drop 16 b))
            (bool_decide (c = Byte.x01)))
  | _ => Err ErrBadRange
  end.

Definition counter_runtime : Runtime Counter Command Event :=
  WithConflictRetry (fun _ => 0%Z) 3 None
    (WithSnapshots (MkStateCodec _ encode_state decode_state) 1
      (NewRuntime counter_Decider (MkCodec _ encode_counter decode_counter))).

Lemma Ok_inj {A} (x y : A) : Ok (E:=error) x = Ok y -> x = y.
Proof. congruence. Qed.

Lemma length_put z : length (put z) = 8%nat.
Proof. apply length_be. Qed.

Lemma get_put z : is_int64b z = true -> get (put z) = z.
Proof.
  unfold is_int64b. rewrite andb_true_iff, !Z.leb_le. intros Hz. unfold get, put.
  rewrite be_value_be. change (256 ^ N.of_nat 8)%N with u64_mod. rewrite N.mod_small by apply u64_of_Z_lt.
  unfold u64_of_Z. rewrite Z2N.id by (apply Z.mod_pos_bound; done).
  unfold i64, i64_mod, i64_max in *. rewrite Zplus_mod_idemp_l, Z.mod_small by lia. lia.
Qed.

Lemma take_put z l : take 8 (put z ++ l) = put z.
Proof. rewrite <- (length_put z) at 1. apply take_app_length. Qed.
Lemma drop_put z l : drop 8 (put z ++ l) = l.
Proof. rewrite <- (length_put z) at 1. apply drop_app_length. Qed.
Lemma drop16_put x y l : drop 16 (put x ++ put y ++ l) = l.
Proof. change 16%nat with (8 + 8)%nat. by rewrite <- drop_drop, !drop_put. Qed.

Lemma counter_codec_ok : codec_ok counter_runtime.
Proof.
  intros ev enc He. split; [|done]. change (encode_counter ev = Ok enc) in He.
  change (decode_counter enc = Ok ev). destruct ev as [a b c|a|a|]; unfold encode_counter in He.
  - destruct (is_int64b a) eqn:Ha, (is_int64b b) eqn:Hb, (is_int64b c) eqn:Hc; try done.
    apply Ok_inj in He as <-.
    unfold decode_counter. cbv zeta. cbn [ee_TypeURL ee_Payload]. rewrite bool_decide_eq_true_2 by done.
    by rewrite drop_put, drop16_put, !take_put, !get_put.
  - destruct (is_int64b a) eqn:Ha; [|done]. apply Ok_inj in He as <-. unfold decode_counter. cbv zeta. cbn [ee_TypeURL ee_Payload].
    rewrite bool_decide_eq_false_2, bool_decide_eq_true_2 by done. by rewrite get_put.
  - destruct (is_int64b a) eqn:Ha; [|done]. apply Ok_inj in He as <-. unfold decode_counter. cbv zeta. cbn [ee_TypeURL ee_Payload].
    rewrite bool_decide_eq_false_2, bool_decide_eq_false_2, bool_decide_eq_true_2 by done. by rewrite get_put.
  - by injection He as <-.
Qed.

Lemma counter_state_codec_ok : state_codec_ok counter_runtime.
Proof.
  intros sc fv s b [= <- <-] He. change (decode_state b = Ok s). change (encode_state s = Ok b) in He. unfold encode_state in He.
  destruct (is_int64b (ct_Count s)) eqn:H1, (is_int64b (ct_Min s)) eqn:H2, (is_int64b (ct_Max s)) eqn:H3; try done.
  apply Ok_inj in He as <-. unfold decode_state. rewrite drop_put, drop16_put, !take_put, !get_put by done.
  destruct s as [[] c mn mx []]; done.
Qed.

(** Another process increments the same counter while this one works. *)
Definition other_append (expected : N) (ev : Event) : AppendParams :=
  MkAppendParams (MkStreamID "counter" "main") expected
    (match encode_counter ev with
     | Ok enc => [MkEventData uuid_Nil (ee_TypeURL enc) (ee_SchemaVersion enc) (ee_Payload enc)]
     | Err _ => []
     end) [] uuid_Nil uuid_Nil uuid_Nil (MkActor "" "") zero_time.

Definition start : shared :=
  MkShared (MkWorld empty_db 0) ∅ [other_append 0 (Initialized 0 100 5); other_append 1 (Incremented 1)].

#[local] Instance calm : Env := calm_env.
#[local] Instance hex : UuidLib := HexUuid.
#[local] Existing Instance sqlite_store.
#[local] Existing Instance sqlite_runtime_ops.

Definition main_sid : StreamID := MkStreamID "counter" "main".
Definition no_meta : Meta := MkMeta uuid_Nil uuid_Nil uuid_Nil (MkActor "" "") zero_time.

Lemma start_rep {S C E} (r : Runtime S C E) : shared_rep 0 r start [].
Proof.
  split; [apply reach_init|intros id s Hs; simpl in Hs; by rewrite lookup_empty in Hs|].
  repeat constructor.
Qed.

Lemma calm_driver_faults : driver_faults.
Proof. by intros n e. Qed.

(** The calls a concrete run makes, evaluated once. *)
Definition after_handle : res (Result Counter Event) * shared :=
  @HandleAt Counter Command Event shared (sqlite_store 0) sqlite_runtime_ops
    (fun _ => None) (fun c _ => c) counter_runtime main_sid (Increment 2) no_meta 0 [] start.

(** ** Properties *)

(** C21: a load is a consistent snapshot, with or without the cache.  Over any store
    and cache that satisfy their contracts, while other writers append freely, a
    successful Load returns exactly the left fold of the stream's events, and
    the stream's length as version, at some instant between the call and its
    return; seeding from a cached state is indistinguishable from folding the
    whole history. *)
Theorem load_is_fold {S C E W} `{StoreOps W} `{RuntimeOps W} (r : Runtime S C E)
    (rep : W -> list Envelope -> Prop) `{!StoreLaws W rep} `{!RuntimeLaws W rep (snap_ok r)} sid w L s v w' :
  rep w L -> Load r sid w = (Ok (s, v), w') ->
  exists L1 L', L `prefix_of` L1 /\ L1 `prefix_of` L' /\ rep w' L'
    /\ v = N.of_nat (length (stream_of sid L1)) /\ replay_all r (stream_of sid L1) = Ok s.
Proof.
  intros Hrep HL. destruct (load_spec r rep _ _ _ _ _ _ Hrep HL) as (L1 & L' & H1 & H2 & H3 & _ & H5 & H6). eauto 10.
Qed.

Lemma load_is_fold_witness :
  exists s L1, fst (@Load Counter Command Event shared (sqlite_store 0) sqlite_runtime_ops counter_runtime main_sid start)
      = Ok (s, 1%N)
    /\ length (stream_of main_sid L1) = 1%nat
    /\ replay_all counter_runtime (stream_of main_sid L1) = Ok s.
Proof.
  destruct (@Load Counter Command Event shared (sqlite_store 0) sqlite_runtime_ops counter_runtime main_sid start)
    as [[[s v]|e] w'] eqn:HL.
  - destruct (@load_is_fold Counter Command Event shared (sqlite_store 0) sqlite_runtime_ops counter_runtime
      (shared_rep 0 counter_runtime)
      (sqlite_store_laws 0 counter_runtime calm_clock_ok calm_clock_mono calm_driver_faults)
      (sqlite_runtime_laws 0 counter_runtime calm_clock_ok)
      main_sid start [] s v w' (start_rep counter_runtime) HL) as (L1 & L' & _ & _ & _ & Hv & Hr).
    assert (v = 1%N) as Hv1.
    { assert (match fst (@Load Counter Command Event shared (sqlite_store 0) sqlite_runtime_ops counter_runtime main_sid start)
              with Ok (_, v) => v | Err _ => 0%N end = 1%N) as HC by (by vm_compute).
      rewrite HL in HC. exact HC. }
    exists s, L1. simpl. rewrite Hv1 in *. split; [reflexivity|]. split; [lia|exact Hr].
  - exfalso. assert (is_ok (fst (@Load Counter Command Event shared (sqlite_store 0) sqlite_runtime_ops
      counter_runtime main_sid start)) = true) as HC by (by vm_compute). rewrite HL in HC. discriminate.
Defined.

(** C3: no lost updates.  When HandleAt succeeds (possibly after conflict retries,
    with other writers appending at every step), the command, with its decision
    time checked and stamped, was decided on the fold of the whole stream; the
    stream was still exactly that when the events were appended right behind it;
    a caller's version assertion held; a terminal stream was not touched; the
    version range and the returned state are those of the stream extended by
    the events. *)
Theorem handle_no_lost_update {S C E W} `{StoreOps W} `{RuntimeOps W}
    (DecisionTime : C -> option time) (StampDecisionTime : C -> time -> C) (r : Runtime S C E)
    (rep : W -> list Envelope -> Prop) `{!StoreLaws W rep} `{!RuntimeLaws W rep (snap_ok r)}
    sid cmd meta expected w L x w' :
  codec_ok r -> state_codec_ok r -> rep w L ->
  HandleAt DecisionTime StampDecisionTime r sid cmd meta expected [] w = (Ok x, w') ->
  exists now cmd' L1 L2 L',
    check_decided_at DecisionTime StampDecisionTime cmd now = Ok cmd'
    /\ L `prefix_of` L1 /\ L1 `prefix_of` L2 /\ (L2 ++ rs_Envelopes x) `prefix_of` L' /\ rep w' L'
    /\ handled r sid cmd' expected L1 L2 x.
Proof. intros Hc Hs. by apply HandleAt_Ok. Qed.

(** The concurrent writer creates the counter and increments it between the
    load and the append of the first attempt, which loses the race. *)
Lemma handle_no_lost_update_witness :
  exists x w' cmd' L1 L2 L',
    after_handle = (Ok x, w') /\ rs_FromVersion x = 2%N /\ ct_Count (rs_State x) = 8%Z
    /\ (L2 ++ rs_Envelopes x) `prefix_of` L' /\ shared_rep 0 counter_runtime w' L'
    /\ handled counter_runtime main_sid cmd' 0 L1 L2 x.
Proof.
  destruct after_handle as [[x|e] w'] eqn:HH.
  - destruct (@handle_no_lost_update Counter Command Event shared (sqlite_store 0) sqlite_runtime_ops
      (fun _ => None) (fun c _ => c) counter_runtime
      (shared_rep 0 counter_runtime)
      (sqlite_store_laws 0 counter_runtime calm_clock_ok calm_clock_mono calm_driver_faults)
      (sqlite_runtime_laws 0 counter_runtime calm_clock_ok)
      main_sid (Increment 2) no_meta 0%N start [] x w'
      counter_codec_ok counter_state_codec_ok (start_rep counter_runtime) HH)
      as (now & cmd' & L1 & L2 & L' & _ & _ & _ & HP & Hrep & Hh).
    assert (match fst after_handle with Ok x => (rs_FromVersion x, ct_Count (rs_State x)) | Err _ => (0%N, 0%Z) end
      = (2%N, 8%Z)) as HC by (by vm_compute).
    rewrite HH in HC. simpl in HC. injection HC as HF HS.
    exists x, w', cmd', L1, L2, L'. split; [reflexivity|]. split; [exact HF|]. split; [exact HS|].
    split; [exact HP|]. split; [exact Hrep|exact Hh].
  - exfalso. assert (is_ok (fst after_handle) = true) as HC by (by vm_compute). rewrite HH in HC. discriminate.
Defined.

(** Time travel folds a prefix.  LoadAsOfVersion returns the fold of exactly the
    first v events (and fails when the stream has fewer); LoadAsOfTime returns
    the fold of the events recorded by t, which are a prefix of the stream. *)
Theorem time_travel_loads {S C E W} `{StoreOps W} `{RuntimeOps W} (r : Runtime S C E)
    (rep : W -> list Envelope -> Prop) `{!StoreLaws W rep} `{!RuntimeLaws W rep (snap_ok r)} sid w L :
  rep w L ->
  (forall v s w', LoadAsOfVersion r sid v w = (Ok s, w') ->
     exists L1 L', L `prefix_of` L1 /\ L1 `prefix_of` L' /\ rep w' L'
       /\ (N.to_nat v <= length (stream_of sid L1))%nat
       /\ replay_all r (take (N.to_nat v) (stream_of sid L1)) = Ok s)
  /\ (forall t s w', in_layout t -> t <> zero_time -> LoadAsOfTime r sid t w = (Ok s, w') ->
     exists L1 L' k, L `prefix_of` L1 /\ L1 `prefix_of` L' /\ rep w' L'
       /\ take k (stream_of sid L1) = filter (fun e => RecordedAt e <= t)%Z (stream_of sid L1)
       /\ replay_all r (take k (stream_of sid L1)) = Ok s).
Proof.
  intros Hrep. split.
  - intros v s w'. by apply LoadAsOfVersion_spec.
  - intros t s w' Ht Hz. by apply LoadAsOfTime_spec.
Qed.

Lemma time_travel_loads_witness :
  exists s L1, fst (@LoadAsOfVersion Counter Command Event shared (sqlite_store 0) sqlite_runtime_ops
      counter_runtime main_sid 1 start) = Ok s
    /\ replay_all counter_runtime (take 1 (stream_of main_sid L1)) = Ok s.
Proof.
  destruct (@LoadAsOfVersion Counter Command Event shared (sqlite_store 0) sqlite_runtime_ops counter_runtime main_sid 1 start)
    as [[s|e] w'] eqn:HL.
  - destruct (@time_travel_loads Counter Command Event shared (sqlite_store 0) sqlite_runtime_ops counter_runtime
      (shared_rep 0 counter_runtime)
      (sqlite_store_laws 0 counter_runtime calm_clock_ok calm_clock_mono calm_driver_faults)
      (sqlite_runtime_laws 0 counter_runtime calm_clock_ok)
      main_sid start [] (start_rep counter_runtime)) as [HV _].
    destruct (HV 1%N s w' HL) as (L1 & L' & _ & _ & _ & _ & Hr).
    exists s, L1. split; [reflexivity|exact Hr].
  - exfalso. assert (is_ok (fst (@LoadAsOfVersion Counter Command Event shared (sqlite_store 0) sqlite_runtime_ops
      counter_runtime main_sid 1 start)) = true) as HC by (by vm_compute). rewrite HL in HC. discriminate.
Defined.

(** A stale version assertion is final: when the stream loads at a version other
    than the one the caller asserted, HandleAt returns a ConflictError with both
    versions, the world is the one the load left (nothing decided, appended,
    slept or retried), whatever the retry budget. *)
Theorem stale_assertion_final {S C E W} `{StoreOps W} `{RuntimeOps W}
    (DecisionTime : C -> option time) (StampDecisionTime : C -> time -> C) (r : Runtime S C E)
    sid cmd meta expected opts w now w0 s v w1 :
  DecisionTime cmd = None -> m_CommandID meta <> uuid_Nil -> rw_Now w = (now, w0) ->
  load r sid 0 None w0 = (Ok (s, v), w1) -> expected <> 0%N -> v <> expected ->
  HandleAt DecisionTime StampDecisionTime r sid cmd meta expected opts w
  = (Err (ConflictError sid expected v), w1).
Proof.
  intros Hd Hid Hnow HL He Hv. unfold HandleAt, check_decided_at. rewrite Hnow, Hd.
  rewrite (bool_decide_eq_false_2 (m_CommandID meta = uuid_Nil)) by done.
  by apply handle_loop_stale with (s := s).
Qed.

Definition some_meta : Meta := MkMeta (id_of 7) uuid_Nil uuid_Nil (MkActor "" "") zero_time.

Lemma stale_assertion_final_witness :
  fst (@HandleAt Counter Command Event shared (sqlite_store 0) sqlite_runtime_ops
    (fun _ => None) (fun c _ => c) counter_runtime main_sid (Increment 2) some_meta 9 [] start)
  = Err (ConflictError main_sid 9 1).
Proof.
  destruct (@load Counter Command Event shared (sqlite_store 0) sqlite_runtime_ops counter_runtime main_sid 0 None
    (snd (@rw_Now shared sqlite_runtime_ops start))) as [[[s v]|e] w1] eqn:HL.
  - assert (v = 1%N) as Hv.
    { assert (match fst (@load Counter Command Event shared (sqlite_store 0) sqlite_runtime_ops counter_runtime main_sid 0 None
        (snd (@rw_Now shared sqlite_runtime_ops start))) with Ok (_, v) => v | Err _ => 0%N end = 1%N) as HC by (by vm_compute).
      rewrite HL in HC. exact HC. }
    rewrite (@stale_assertion_final Counter Command Event shared (sqlite_store 0) sqlite_runtime_ops
      (fun _ => None) (fun c _ => c) counter_runtime main_sid (Increment 2) some_meta 9%N [] start
      (fst (@rw_Now shared sqlite_runtime_ops start)) (snd (@rw_Now shared sqlite_runtime_ops start)) s v w1);
      [by rewrite Hv|reflexivity|by vm_compute|reflexivity|exact HL|done|by rewrite Hv].
  - exfalso. assert (is_ok (fst (@load Counter Command Event shared (sqlite_store 0) sqlite_runtime_ops counter_runtime
      main_sid 0 None (snd (@rw_Now shared sqlite_runtime_ops start)))) = true) as HC by (by vm_compute).
    rewrite HL in HC. discriminate.
Defined.

(** C25: the decision-time window is enforced for every client time within the range
    of a Go duration of the server clock: the command is accepted, and stamped
    with server time, exactly when the two differ by at most five minutes. *)
Theorem decided_at_window {C} (DecisionTime : C -> option time) (StampDecisionTime : C -> time -> C) cmd now decided :
  DecisionTime cmd = Some decided -> decided <> zero_time ->
  (min_duration < now - decided <= max_duration)%Z ->
  check_decided_at DecisionTime StampDecisionTime cmd now
  = (if (Z.abs (now - decided) <=? MaxDecisionSkew)%Z then Ok (StampDecisionTime cmd now)
     else Err (DecidedAtSkewError decided now MaxDecisionSkew)).
Proof. apply check_decided_at_window. Qed.

Lemma decided_at_window_witness :
  check_decided_at (fun t : time => Some t) (fun _ n => n) (1000 * Second)%Z (1300 * Second)%Z = Ok (1300 * Second)%Z
  /\ check_decided_at (fun t : time => Some t) (fun _ n => n) (1000 * Second)%Z (1301 * Second)%Z
     = Err (DecidedAtSkewError (1000 * Second) (1301 * Second) MaxDecisionSkew).
Proof.
  split.
  - rewrite (decided_at_window (fun t : time => Some t) (fun _ n => n) (1000 * Second)%Z (1300 * Second)%Z (1000 * Second)%Z);
      [reflexivity|reflexivity|discriminate|split; vm_compute; congruence].
  - rewrite (decided_at_window (fun t : time => Some t) (fun _ n => n) (1000 * Second)%Z (1301 * Second)%Z (1000 * Second)%Z);
      [reflexivity|reflexivity|discriminate|split; vm_compute; congruence].
Defined.

(** The window has a hole: a decision time further in the future than a Go
    duration can express (about 292 years) saturates the difference at the
    minimum duration, whose negation overflows back to itself, and the command
    is accepted. *)
Theorem decided_at_far_future_accepted {C} (DecisionTime : C -> option time) (StampDecisionTime : C -> time -> C)
    cmd now decided :
  DecisionTime cmd = Some decided -> decided <> zero_time -> (now - decided <= min_duration)%Z ->
  check_decided_at DecisionTime StampDecisionTime cmd now = Ok (StampDecisionTime cmd now).
Proof. apply check_decided_at_overflow. Qed.

(** Server clock in 2026, client time in the year 9999. *)
Lemma decided_at_far_future_accepted_witness :
  check_decided_at (fun t : time => Some t) (fun _ n => n) 253402300799000000000%Z 1772532000000000000%Z
  = Ok 1772532000000000000%Z.
Proof.
  apply (decided_at_far_future_accepted (fun t : time => Some t) (fun _ n => n) 253402300799000000000%Z
    1772532000000000000%Z 253402300799000000000%Z); [reflexivity|discriminate|vm_compute; congruence].
Defined.

(** The default backoff is bounded: for any attempt number and any generator
    that draws from [0, n), the pause lies between 0 and 500ms; the ceiling of
    the draw doubles from 10ms until it reaches 500ms. *)
Theorem default_backoff_bounded rand attempt :
  (forall n, 0 < n -> 0 <= rand n < n)%Z ->
  (0 <= DefaultBackoff rand attempt <= Z.min (500 * Millisecond) (10 * Millisecond * 2 ^ Z.max 0 (attempt - 1)))%Z.
Proof.
  intros Hr. unfold DefaultBackoff. set (a := if (attempt <? 1)%Z then 1%Z else attempt).
  assert (Z.max 0 (attempt - 1) = Z.of_nat (Z.to_nat (a - 1)))%Z as ->.
  { subst a. destruct (Z.ltb_spec attempt 1); lia. }
  assert (forall n b, 0 < b -> 0 < backoff_base n b /\
    Z.min (500 * Millisecond) (backoff_base n b) = Z.min (500 * Millisecond) (b * 2 ^ Z.of_nat n))%Z as HB.
  { induction n as [|n IH]; intros b Hb; simpl backoff_base.
    - rewrite Z.mul_1_r. done.
    - rewrite Nat2Z.inj_succ, Z.pow_succ_r by lia. destruct (Z.ltb_spec b (500 * Millisecond)) as [Hlt|Hge].
      + destruct (IH (b * 2)%Z) as [H1 H2]; [lia|]. split; [done|]. rewrite H2. f_equal. ring.
      + split; [done|]. assert (0 < 2 ^ Z.of_nat n)%Z by (apply Z.pow_pos_nonneg; lia). rewrite !Z.min_l; [done|nia|lia]. }
  destruct (HB (Z.to_nat (a - 1)) (10 * Millisecond)%Z ltac:(done)) as [H1 H2].
  rewrite <- H2. destruct (Z.ltb_spec (500 * Millisecond) (backoff_base (Z.to_nat (a - 1)) (10 * Millisecond))) as [Hlt|Hge].
  - specialize (Hr (500 * Millisecond + 1)%Z ltac:(done)). lia.
  - specialize (Hr (backoff_base (Z.to_nat (a - 1)) (10 * Millisecond) + 1)%Z ltac:(lia)). lia.
Qed.

Lemma default_backoff_bounded_witness :
  (0 <= DefaultBackoff (fun n => n - 1)%Z 3 <= 40 * Millisecond)%Z.
Proof.
  pose proof (default_backoff_bounded (fun n => n - 1)%Z 3 ltac:(intros n; lia)) as HB.
  exact HB.
Defined.
