(* ===== verification/Definitions.v ===== *)
(** * Projection definitions (src/projection/definition.go)

    A projection's name and consumed event types, its SHA-256 fingerprint and
    the read-only catalogue of definitions. *)
From S2P Require Import Prelude Sha256 Es.

Record Definition_ := MkDefinition { df_Name : string; df_Consumes : list string }.

#[global] Instance Definition_eq_dec : EqDecision Definition_.
Proof. solve_decision. Defined.

Definition definitionHashPrefix : string := "es-lite/definition".

(** sort.Strings. *)
Definition sort_strings (l : list string) : list string := merge_sort String.le l.

(** strings.Join(l, "\x00"), as bytes. *)
Fixpoint join_nul (l : list string) : list byte :=
  match l with
  | [] => []
  | [s] => bytes_of s
  | s :: l' => bytes_of s ++ Byte.x00 :: join_nul l'
  end.

(** What h.Write received. *)
Definition definition_bytes (d : Definition_) : list byte :=
  bytes_of definitionHashPrefix ++ [Byte.x00] ++ bytes_of (df_Name d) ++ [Byte.x00]
  ++ join_nul (sort_strings (df_Consumes d)).

Definition definition_Hash (d : Definition_) : string := EncodeToString (Sum256 (definition_bytes d)).

(** ** The catalogue *)

Record catalog := MkCatalog { cat_defs : list Definition_; cat_byName : gmap string nat }.

(** The registration loop: the first definition of a name wins. *)
Fixpoint register_all (defs : list Definition_) (c : catalog) : catalog :=
  match defs with
  | [] => c
  | d :: defs' =>
      match cat_byName c !! df_Name d with
      | Some _ => register_all defs' c
      | None => register_all defs' (MkCatalog (cat_defs c ++ [d]) (<[df_Name d := length (cat_defs c)]> (cat_byName c)))
      end
  end.

Definition NewCatalog (defs : list Definition_) : catalog := register_all defs (MkCatalog [] ∅).

Definition catalog_Definition (c : catalog) (name : string) : option Definition_ :=
  match cat_byName c !! name with
  | None => None
  | Some i => cat_defs c !! i
  end.

Definition catalog_Definitions (c : catalog) : list Definition_ := cat_defs c.

(** ** The fingerprint *)

Definition nul_free (s : string) : Prop := Byte.x00 ∉ bytes_of s.

#[global] Instance nul_free_dec s : Decision (nul_free s).
Proof. unfold nul_free. apply _. Defined.

(** A definition as the generator emits it: proto full names. *)
Record definition_wf (d : Definition_) : Prop := {
  dw_name : nul_free (df_Name d);
  dw_consumes : Forall (fun t => nul_free t /\ t <> EmptyString) (df_Consumes d)
}.

Lemma sort_strings_perm l : sort_strings l ≡ₚ l.
Proof. apply merge_sort_Permutation. Qed.

Lemma sort_strings_unique l1 l2 : l1 ≡ₚ l2 -> sort_strings l1 = sort_strings l2.
Proof.
  intros HP. apply (StronglySorted_unique String.le).
  - apply (StronglySorted_merge_sort String.le).
  - apply (StronglySorted_merge_sort String.le).
  - by rewrite !sort_strings_perm.
Qed.

(** A NUL-free field before a NUL is recovered from the concatenation. *)
Lemma nul_field_inj (a1 a2 k1 k2 : list byte) :
  Byte.x00 ∉ a1 -> Byte.x00 ∉ a2 ->
  a1 ++ Byte.x00 :: k1 = a2 ++ Byte.x00 :: k2 -> a1 = a2 /\ k1 = k2.
Proof.
  revert a2; induction a1 as [|x a1 IH]; intros [|y a2] H1 H2 E; simplify_eq/=; try done; try (by destruct H1; left); try (by destruct H2; left).
  apply not_elem_of_cons in H1 as [_ H1], H2 as [_ H2]. by destruct (IH a2) as [-> ->].
Qed.

Lemma join_nul_cons s t l : join_nul (s :: t :: l) = bytes_of s ++ Byte.x00 :: join_nul (t :: l).
Proof. done. Qed.

(** A NUL-free string contains no NUL field. *)
Lemma nul_free_no_split (a b c : list byte) : Byte.x00 ∉ a -> a = b ++ Byte.x00 :: c -> False.
Proof. intros Ha ->. set_solver. Qed.

Lemma bytes_of_nil s : bytes_of s = [] -> s = EmptyString.
Proof. intros H. by apply bytes_of_inj. Qed.

Lemma join_nul_inj l1 l2 :
  Forall (fun t => nul_free t /\ t <> EmptyString) l1 -> Forall (fun t => nul_free t /\ t <> EmptyString) l2 ->
  join_nul l1 = join_nul l2 -> l1 = l2.
Proof.
  revert l2; induction l1 as [|s1 l1 IH]; intros [|s2 l2] H1 H2.
  - done.
  - apply Forall_cons in H2 as [[_ Hne] _]. destruct l2; simpl; intros E; symmetry in E.
    + by apply bytes_of_nil in E.
    + by destruct (bytes_of s2).
  - apply Forall_cons in H1 as [[_ Hne] _]. destruct l1; simpl; intros E.
    + by apply bytes_of_nil in E.
    + by destruct (bytes_of s1).
  - apply Forall_cons in H1 as [[Hf1 Hn1] H1], H2 as [[Hf2 Hn2] H2].
    destruct l1 as [|t1 l1], l2 as [|t2 l2].
    + simpl. by intros ->%bytes_of_inj.
    + rewrite join_nul_cons. intros E. by apply nul_free_no_split in E.
    + rewrite join_nul_cons. intros E. symmetry in E. by apply nul_free_no_split in E.
    + rewrite !join_nul_cons. intros [->%bytes_of_inj E]%nul_field_inj; [|done|done].
      f_equal. by apply IH.
Qed.

Lemma definition_bytes_inj d1 d2 :
  definition_wf d1 -> definition_wf d2 -> definition_bytes d1 = definition_bytes d2 ->
  df_Name d1 = df_Name d2 /\ df_Consumes d1 ≡ₚ df_Consumes d2.
Proof.
  intros [Hn1 Hc1] [Hn2 Hc2] E. unfold definition_bytes in E.
  apply app_inv_head in E. simpl in E. injection E as E.
  apply nul_field_inj in E as [HN HJ]; [|done|done]. split; [by apply bytes_of_inj|].
  rewrite <- (sort_strings_perm (df_Consumes d1)), <- (sort_strings_perm (df_Consumes d2)).
  apply join_nul_inj in HJ; [by rewrite HJ|by rewrite sort_strings_perm|by rewrite sort_strings_perm].
Qed.

Lemma definition_Hash_perm d1 d2 :
  df_Name d1 = df_Name d2 -> df_Consumes d1 ≡ₚ df_Consumes d2 -> definition_Hash d1 = definition_Hash d2.
Proof.
  intros HN HC. unfold definition_Hash, definition_bytes. by rewrite HN, (sort_strings_unique _ _ HC).
Qed.

(** ** The catalogue's contents *)

(** The definitions that registration keeps: the first of each name. *)
Fixpoint first_of_each (seen : list string) (defs : list Definition_) : list Definition_ :=
  match defs with
  | [] => []
  | d :: defs' => if bool_decide (df_Name d ∈ seen) then first_of_each seen defs'
                  else d :: first_of_each (seen ++ [df_Name d]) defs'
  end.

(** The index names exactly the definitions held. *)
Definition catalog_ok (c : catalog) : Prop :=
  forall name i, cat_byName c !! name = Some i <-> exists d, cat_defs c !! i = Some d /\ df_Name d = name.

Lemma catalog_ok_None c name :
  catalog_ok c -> cat_byName c !! name = None <-> name ∉ map df_Name (cat_defs c).
Proof.
  intros Hok. split.
  - intros Hn (d & -> & [i Hi]%list_elem_of_lookup)%list_elem_of_fmap.
    assert (cat_byName c !! df_Name d = Some i) as E by (apply Hok; eauto). congruence.
  - intros Hn. destruct (cat_byName c !! name) as [i|] eqn:E; [|done].
    apply Hok in E as (d & Hd & <-). destruct Hn. by apply list_elem_of_fmap_2, (list_elem_of_lookup_2 _ i).
Qed.

Lemma catalog_ok_add c d :
  catalog_ok c -> cat_byName c !! df_Name d = None ->
  catalog_ok (MkCatalog (cat_defs c ++ [d]) (<[df_Name d := length (cat_defs c)]> (cat_byName c))).
Proof.
  intros Hok Hn name i. simpl. rewrite lookup_insert_Some. split.
  - intros [[<- <-]|[Hne (d' & Hd & <-)%Hok]].
    + exists d. split; [|done]. by rewrite lookup_app_r, Nat.sub_diag.
    + exists d'. split; [|done]. by apply lookup_app_l_Some.
  - intros (d' & Hd & <-). apply lookup_app_Some in Hd as [Hd|[Hl Hd]].
    + right. split; [|apply Hok; eauto]. intros E. rewrite E in Hn.
      assert (cat_byName c !! df_Name d' = Some i) by (apply Hok; eauto). congruence.
    + left. apply list_lookup_singleton_Some in Hd as [Hi <-]. split; [done|lia].
Qed.

Lemma register_all_spec defs c :
  catalog_ok c ->
  catalog_ok (register_all defs c)
  /\ cat_defs (register_all defs c) = cat_defs c ++ first_of_each (map df_Name (cat_defs c)) defs.
Proof.
  revert c; induction defs as [|d defs IH]; intros c Hok; simpl; [by rewrite app_nil_r|].
  pose proof (catalog_ok_None c (df_Name d) Hok) as HN.
  destruct (cat_byName c !! df_Name d) eqn:E.
  - rewrite bool_decide_true; [by apply IH|]. destruct (decide (df_Name d ∈ map df_Name (cat_defs c))); [done|].
    by apply HN in n0.
  - rewrite bool_decide_false by (by apply HN). destruct (IH _ (catalog_ok_add c d Hok E)) as [H1 H2].
    split; [done|]. rewrite H2. simpl. rewrite map_app. by rewrite <- app_assoc.
Qed.

(** The catalogue holds the first definition of each name, in registration
    order, and a lookup by name returns exactly the held definition of that
    name (and nothing for an unregistered one). *)
Theorem catalog_first_wins defs name d :
  catalog_Definitions (NewCatalog defs) = first_of_each [] defs
  /\ (catalog_Definition (NewCatalog defs) name = Some d
      <-> d ∈ catalog_Definitions (NewCatalog defs) /\ df_Name d = name).
Proof.
  assert (catalog_ok (MkCatalog [] ∅)) as H0.
  { intros n i. simpl. rewrite lookup_empty. split; [done|]. intros (x & Hx & _). done. }
  destruct (register_all_spec defs _ H0) as [Hok HD]. split; [exact HD|].
  unfold catalog_Definition, catalog_Definitions. fold (NewCatalog defs) in *. split.
  - destruct (cat_byName (NewCatalog defs) !! name) as [i|] eqn:E; [|done]. intros Hd.
    apply Hok in E as (d' & Hd' & <-). assert (d' = d) as -> by congruence.
    split; [|done]. by eapply list_elem_of_lookup_2.
  - intros [[i Hi]%list_elem_of_lookup <-].
    assert (cat_byName (NewCatalog defs) !! df_Name d = Some i) as -> by (apply Hok; eauto). done.
Qed.

(** A definition's fingerprint identifies it: reordering the consumed types
    does not change the hash, and two well-formed definitions with one hash
    have the same name and the same consumed types, or the byte strings hashed
    for these two definitions are distinct and have one SHA-256 digest. *)
Theorem definition_hash_identifies d1 d2 :
  definition_wf d1 -> definition_wf d2 ->
  (df_Name d1 = df_Name d2 /\ df_Consumes d1 ≡ₚ df_Consumes d2 -> definition_Hash d1 = definition_Hash d2)
  /\ (definition_Hash d1 = definition_Hash d2 ->
      (df_Name d1 = df_Name d2 /\ df_Consumes d1 ≡ₚ df_Consumes d2)
      \/ collide (definition_bytes d1) (definition_bytes d2) = true).
Proof.
  intros H1 H2. split; [intros [HN HC]; by apply definition_Hash_perm|].
  intros [E|E]%EncodeToString_inj%Sum256_inj_or_collision; [left|by right]. by apply definition_bytes_inj.
Qed.

(** Two declarations of one projection. *)
Definition totals : Definition_ := MkDefinition "totals" ["b.v1.B"; "a.v1.A"]%string.
Definition totals' : Definition_ := MkDefinition "totals" ["a.v1.A"; "b.v1.B"]%string.

Lemma totals_wf : definition_wf totals.
Proof. split; [by apply (bool_decide_unpack _)|]. by apply (bool_decide_unpack _). Qed.

Lemma totals'_wf : definition_wf totals'.
Proof. split; [by apply (bool_decide_unpack _)|]. by apply (bool_decide_unpack _). Qed.

Lemma definition_hash_identifies_witness : definition_Hash totals = definition_Hash totals'.
Proof.
  apply (definition_hash_identifies totals totals' totals_wf totals'_wf).
  split; [reflexivity|apply Permutation_swap].
Defined.
