(* ===== verification/FeedPorts.v ===== *)
(** * The feed's ports and messages (src/feed/ports.go)

    The interfaces the feed server is written against, as records of
    operations over a world, and the structs that travel through them. *)
From S2P Require Import Prelude Es Effect Definitions.

(** ** Messages *)

Record Checkpoint := MkCheckpoint { cp_Position : N; cp_DefinitionHash : string; cp_UpdatedAt : time }.

(** The zero Checkpoint, what a store returns beside found=false. *)
Definition zero_Checkpoint : Checkpoint := MkCheckpoint 0 EmptyString zero_time.

Record DeadLetter := MkDeadLetter {
  dlt_Scope : string;
  dlt_Projection : string;
  dlt_Instance : string;
  dlt_TypeURL : string;
  dlt_Reason : string;
  dlt_Actor : string;
  dlt_Position : N;
  dlt_SizeBytes : Z;
  dlt_CreatedAt : time
}.

Record Request := MkRequest {
  rq_Scope : string;
  rq_Projection : string;
  rq_Instance : string;
  rq_Consumer : string;
  rq_Owner : string;
  rq_Definition : Definition_;
  rq_BatchSize : Z
}.

Record Ack := MkAck {
  ak_Scope : string;
  ak_Projection : string;
  ak_Instance : string;
  ak_Owner : string;
  ak_Position : N;
  ak_Definition : string
}.

Record SkipRequest := MkSkipRequest {
  sk_Scope : string;
  sk_Projection : string;
  sk_Instance : string;
  sk_Position : N;
  sk_Actor : string;
  sk_Reason : string;
  sk_Force : bool
}.

Record Status := MkStatus {
  ss_Position : N;
  ss_Head : N;
  ss_Lag : Z;
  ss_ActiveConsumer : string;
  ss_LastCheckpointAt : time
}.

(** The calls an Observer receives. *)
Inductive signal :=
| OnPage (events bytes : Z)
| OnCheckpoint (position : N)
| OnLeaseLost (scope projection instance owner : string)
| OnPoison (err : error)
| OnStall (settledHead rawHead : N).

(** ** Interfaces *)

Section Ports.
Variable W : Type.

Record CheckpointStore := MkCheckpointStore {
  cs_Load : string -> string -> string -> SM W N;
  cs_Save : string -> string -> string -> string -> N -> SM W unit;
  cs_Reset : string -> string -> string -> string -> N -> SM W unit;
  cs_Delete : string -> string -> string -> SM W unit;
  cs_Checkpoint : string -> string -> string -> SM W (option Checkpoint)
}.

(** Acquire can report an error and still have taken the lease: both results
    are kept. *)
Record LeaseStore := MkLeaseStore {
  le_Acquire : string -> string -> string -> string -> string -> Z -> W -> bool * option error * W;
  le_Renew : string -> string -> string -> string -> Z -> SM W bool;
  le_Release : string -> string -> string -> string -> SM W unit;
  le_Holder : string -> string -> string -> SM W (option Lease)
}.

Record Log := MkLog {
  lg_ReadAllBounded : N -> Z -> Z -> list string -> SM W (list Envelope * bool);
  lg_Head : SM W N;
  lg_RawHead : SM W N;
  lg_MatchingHead : list string -> SM W N
}.

Definition Logs : Type := string -> SM W Log.                 (** Open *)
Definition DeadLetterStore : Type := DeadLetter -> SM W unit.   (** Record *)
Definition Waiter : Type := Z -> SM W unit.                     (** Wait *)
Definition Clock : Type := W -> time * W.                       (** Now *)
Definition Observer : Type := signal -> W -> W.
Definition Sink : Type := Envelope -> SM W unit.                (** Send *)
End Ports.
Arguments cs_Load {W} _ _ _ _.
Arguments cs_Save {W} _ _ _ _ _ _.
Arguments cs_Reset {W} _ _ _ _ _ _.
Arguments cs_Delete {W} _ _ _ _.
Arguments cs_Checkpoint {W} _ _ _ _.
Arguments le_Acquire {W} _ _ _ _ _ _ _ _.
Arguments le_Renew {W} _ _ _ _ _ _.
Arguments le_Release {W} _ _ _ _ _.
Arguments le_Holder {W} _ _ _ _.
Arguments lg_ReadAllBounded {W} _ _ _ _ _.
Arguments lg_Head {W} _.
Arguments lg_RawHead {W} _.
Arguments lg_MatchingHead {W} _ _.

Definition NoopObserver {W} : Observer W := fun _ w => w.
