(* ===== verification/Feed.v ===== *)
(** * The feed server (src/feed/server.go)

    One subscription's lease, cursor and read/send loop, over any ports.  The
    lease renewer runs on its own goroutine: at every port call of the stream
    the renewer may have run any number of its ticks ([fx_ticks]), so the
    interleaving of the two is an input of the model. *)
From stdpp Require Import pretty.
From S2P Require Import Prelude Es Effect Definitions FeedPorts.

(** ** Configuration *)

Definition defaultBatch : Z := 500.
Definition defaultMaxBatch : Z := 1000.
Definition feed_defaultMaxPayloadBytes : Z := Z.shiftl 8 20.
Definition defaultMaxBatchBytes : Z := Z.shiftl 16 20.
Definition defaultPoll : Z := 250 * Millisecond.
Definition defaultLeaseTTL : Z := 30 * Second.
Definition defaultRenewEvery : Z := 10 * Second.
Definition stallProbeEvery : Z := 3 * Second.

(** What the Go runtime supplies to one subscription: clocks, contexts,
    timers, randomness and the scheduler. *)
Class FeedEnv (W : Type) := {
  fx_Now : W -> time * W;                 (** time.Now() *)
  fx_ctxErr : W -> option error * W;      (** ctx.Err() of the caller's context *)
  fx_runErr : W -> option error * W;      (** runCtx.Err() *)
  fx_withCancel : W -> W;                 (** runCtx, cancel := context.WithCancel(ctx) *)
  fx_cancel : W -> W;                     (** cancel() *)
  fx_timer : Z -> SM W unit;              (** select on runCtx.Done and a timer *)
  fx_ticks : W -> nat * W;                (** ticker firings the renewer serves now *)
  fx_seqAdd : W -> N * W;                 (** s.seq.Add(1) *)
  fx_randRead : SM W (list byte);         (** eight bytes of entropy *)
  fx_jitter : Z -> W -> Z * W             (** defaultJitter *)
}.

Section Server.
Context {W : Type} `{FeedEnv W}.

Record Config := MkConfig {
  cfg_Checkpoints : option (CheckpointStore W);
  cfg_Leases : option (LeaseStore W);
  cfg_Logs : option (Logs W);
  cfg_Waiter : option (Waiter W);
  cfg_Clock : option (Clock W);
  cfg_DeadLetters : option (DeadLetterStore W);
  cfg_Observer : option (Observer W);
  cfg_Batch : Z;
  cfg_MaxBatch : Z;
  cfg_MaxPayloadBytes : Z;
  cfg_MaxBatchBytes : Z;
  cfg_Poll : Z;
  cfg_LeaseTTL : Z;
  cfg_RenewEvery : Z
}.

(** A Server: the configuration with its defaults filled in. *)
Record Server := MkServer {
  Checkpoints : CheckpointStore W;
  Leases : LeaseStore W;
  sv_Logs : Logs W;
  sv_Waiter : option (Waiter W);
  sv_Clock : Clock W;
  DeadLetters : option (DeadLetterStore W);
  sv_Observer : Observer W;
  Batch : Z;
  MaxBatch : Z;
  MaxPayloadBytes : Z;
  MaxBatchBytes : Z;
  Poll : Z;
  LeaseTTL : Z;
  RenewEvery : Z;
  prefix : string;
  jitter : option (Z -> W -> Z * W)
}.

Definition newPrefix : SM W string :=
  let! b := fx_randRead wrap "feed: generate lease owner prefix" in
  ret (EncodeToString b).

(** The renew interval after defaults: below the TTL, or an error. *)
Definition renew_interval (ttl every : Z) : res Z :=
  let every := if (every <=? 0)%Z then defaultRenewEvery else every in
  if (ttl <=? every)%Z then
    let every := Z.quot ttl 3 in
    let every := if (every <=? 0)%Z then Z.quot ttl 2 else every in
    if (every <=? 0)%Z then Err (ErrorsNew "feed: Config.LeaseTTL is too small to renew safely") else Ok every
  else Ok every.

Definition NewServer (cfg : Config) : SM W Server :=
  match cfg_Checkpoints cfg, cfg_Leases cfg, cfg_Logs cfg with
  | None, _, _ => throw (ErrorsNew "feed: Config.Checkpoints is required")
  | _, None, _ => throw (ErrorsNew "feed: Config.Leases is required")
  | _, _, None => throw (ErrorsNew "feed: Config.Logs is required")
  | Some cps, Some ls, Some logs =>
      let clock := match cfg_Clock cfg with None => fx_Now | Some c => c end in
      let observer := match cfg_Observer cfg with None => NoopObserver | Some o => o end in
      let batch := if (cfg_Batch cfg <=? 0)%Z then defaultBatch else cfg_Batch cfg in
      let maxBatch := if (cfg_MaxBatch cfg <=? 0)%Z then defaultMaxBatch else cfg_MaxBatch cfg in
      let batch := if (maxBatch <? batch)%Z then maxBatch else batch in
      let maxPayload := if (cfg_MaxPayloadBytes cfg =? 0)%Z then feed_defaultMaxPayloadBytes else cfg_MaxPayloadBytes cfg in
      let maxBytes := if (cfg_MaxBatchBytes cfg <=? 0)%Z then defaultMaxBatchBytes else cfg_MaxBatchBytes cfg in
      let poll := if (cfg_Poll cfg <=? 0)%Z then defaultPoll else cfg_Poll cfg in
      let ttl := if (cfg_LeaseTTL cfg <=? 0)%Z then defaultLeaseTTL else cfg_LeaseTTL cfg in
      let! every := lift (renew_interval ttl (cfg_RenewEvery cfg)) in
      let! p := newPrefix in
      ret (MkServer cps ls logs (cfg_Waiter cfg) clock (cfg_DeadLetters cfg) observer
             batch maxBatch maxPayload maxBytes poll ttl every p (Some fx_jitter))
  end.

(** ** Validation *)

(** ASCII control bytes: C0 controls and DEL. *)
Fixpoint containsControl (s : string) : bool :=
  match s with
  | EmptyString => false
  | String c s' => (Ascii.N_of_ascii c <? 32)%N || (Ascii.N_of_ascii c =? 127)%N || containsControl s'
  end.

Definition invalid {A} (why : string) : res A := Err (Errorf why (Sentinel ErrInvalidRequest)).

Definition validateKey (scope projection instance : string) : res unit :=
  if bool_decide (scope = EmptyString) then invalid "scope is required"
  else if bool_decide (projection = EmptyString) then invalid "projection is required"
  else if containsControl scope then invalid "scope contains a control byte"
  else if containsControl projection then invalid "projection contains a control byte"
  else if containsControl instance then invalid "instance contains a control byte"
  else Ok tt.

Definition validateDefinition (req : Request) : res unit :=
  if bool_decide (df_Name (rq_Definition req) = EmptyString) then invalid "definition name is required"
  else if bool_decide (df_Name (rq_Definition req) <> rq_Projection req) then invalid "projection does not match definition name"
  else if bool_decide (df_Consumes (rq_Definition req) = []) then invalid "definition consumes is required"
  else Ok tt.

Definition validateRequest (req : Request) (sink : option (Sink W)) : res unit :=
  let? _ := validateKey (rq_Scope req) (rq_Projection req) (rq_Instance req) in
  let? _ := validateDefinition req in
  match sink with None => invalid "sink is required" | Some _ => Ok tt end.

(** fmt.Sprintf("%s/%s/%s", ...). *)
Definition key_string (scope projection instance : string) : string :=
  (scope ++ "/" ++ projection ++ "/" ++ instance)%string.

(** ** Cursor operations *)

Section Ops.
Variable s : Server.

Definition observe (x : signal) : SM W unit := fun w => (Ok tt, sv_Observer s x w).

Definition refuseIfHeld (scope projection instance : string) : SM W unit :=
  let! holder := le_Holder (Leases s) scope projection instance wrap "feed: holder" in
  match holder with
  | Some lease => throw (LeaseHeldError (key_string scope projection instance) lease true)
  | None => ret tt
  end.

(** Server.Checkpoint: a consumer's acknowledgement. *)
Definition server_Checkpoint (ack : Ack) : SM W unit :=
  let! _ := lift (validateKey (ak_Scope ack) (ak_Projection ack) (ak_Instance ack)) in
  let key := key_string (ak_Scope ack) (ak_Projection ack) (ak_Instance ack) in
  let! holder := le_Holder (Leases s) (ak_Scope ack) (ak_Projection ack) (ak_Instance ack) wrap "feed: holder" in
  match holder with
  | None => throw (LeaseLostError key (ak_Owner ack) (Sentinel errLeaseExpired))
  | Some lease =>
      if negb (bool_decide (ls_Owner lease = ak_Owner ack)) then throw (LeaseHeldError key lease true) else
      let! _ := cs_Save (Checkpoints s) (ak_Scope ack) (ak_Projection ack) (ak_Instance ack)
                  (ak_Definition ack) (ak_Position ack) wrap "feed: save checkpoint" in
      observe (OnCheckpoint (ak_Position ack))
  end.

Definition ResetCheckpoint (req : Request) (position : N) (force : bool) : SM W unit :=
  let! _ := lift (validateKey (rq_Scope req) (rq_Projection req) (rq_Instance req)) in
  let! _ := lift (validateDefinition req) in
  let! _ := if force then ret tt else refuseIfHeld (rq_Scope req) (rq_Projection req) (rq_Instance req) in
  cs_Reset (Checkpoints s) (rq_Scope req) (rq_Projection req) (rq_Instance req)
    (definition_Hash (rq_Definition req)) position wrap "feed: reset checkpoint".

Definition Skip (sr : SkipRequest) : SM W unit :=
  let! _ := lift (validateKey (sk_Scope sr) (sk_Projection sr) (sk_Instance sr)) in
  let! _ := if sk_Force sr then ret tt else refuseIfHeld (sk_Scope sr) (sk_Projection sr) (sk_Instance sr) in
  let! cp := cs_Checkpoint (Checkpoints s) (sk_Scope sr) (sk_Projection sr) (sk_Instance sr) wrap "feed: load checkpoint" in
  let! _ := match DeadLetters s with
            | None => ret tt
            | Some record => fun w =>
                let '(now, w) := sv_Clock s w in
                (record (MkDeadLetter (sk_Scope sr) (sk_Projection sr) (sk_Instance sr) EmptyString
                          (sk_Reason sr) (sk_Actor sr) (sk_Position sr) 0 now) wrap "feed: record dead letter") w
            end in
  cs_Reset (Checkpoints s) (sk_Scope sr) (sk_Projection sr) (sk_Instance sr)
    (cp_DefinitionHash (default zero_Checkpoint cp)) (sk_Position sr) wrap "feed: skip checkpoint".

Definition DeleteSubscription (scope projection instance : string) : SM W unit :=
  let! _ := lift (validateKey scope projection instance) in
  let! _ := refuseIfHeld scope projection instance in
  cs_Delete (Checkpoints s) scope projection instance wrap "feed: delete checkpoint".

(** int64 conversions of the two positions, subtracted at int64 width. *)
Definition lag (head position : N) : Z := i64 (i64 (Z.of_N head) - i64 (Z.of_N position)).

Definition server_Status (req : Request) : SM W Status :=
  let! _ := lift (validateKey (rq_Scope req) (rq_Projection req) (rq_Instance req)) in
  let! _ := lift (validateDefinition req) in
  let! cp := cs_Checkpoint (Checkpoints s) (rq_Scope req) (rq_Projection req) (rq_Instance req) wrap "feed: checkpoint" in
  let! log := sv_Logs s (rq_Scope req) wrap "feed: open log" in
  let! head := lg_MatchingHead log (df_Consumes (rq_Definition req)) wrap "feed: matching head" in
  let updated := match cp with Some c => cp_UpdatedAt c | None => zero_time end in
  let position := cp_Position (default zero_Checkpoint cp) in
  let! holder := le_Holder (Leases s) (rq_Scope req) (rq_Projection req) (rq_Instance req) wrap "feed: holder" in
  ret (MkStatus position head (lag head position)
         (match holder with Some lease => ls_Consumer lease | None => EmptyString end) updated).

Definition batchSize (requested : Z) : Z :=
  let requested := if (requested <=? 0)%Z then Batch s else requested in
  let requested := if (MaxBatch s <? requested)%Z then MaxBatch s else requested in
  if (requested <? 1)%Z then 1%Z else requested.

(** newOwner: prefix, clock and sequence number. *)
Definition newOwner : SM W string := fun w =>
  let '(now, w) := sv_Clock s w in
  let '(n, w) := fx_seqAdd w in
  (Ok (prefix s ++ "-" ++ pretty (i64 now) ++ "-" ++ pretty n)%string, w).

(** ** One subscription *)

(** The renewer goroutine: running or stopped, and the [lost] channel (one
    buffered error). *)
Record renewer := MkRenewer { rn_running : bool; rn_lost : option error }.

Abbreviation SW := (W * renewer)%type.

Section Stream.
Variable req : Request.
Variable owner : string.

(** One iteration of renew's loop, entered by the ticker. *)
Definition renew_step (sw : SW) : SW :=
  let '(w, r) := sw in
  if negb (rn_running r) then sw else
  let '(ok, w) := le_Renew (Leases s) (rq_Scope req) (rq_Projection req) (rq_Instance req) owner (LeaseTTL s) w in
  let '(cerr, w) := fx_runErr w in
  match cerr with
  | Some _ => (w, MkRenewer false (rn_lost r))
  | None =>
      match ok with
      | Ok true => (w, r)
      | _ =>
          let rerr := match ok with Err e => e | Ok _ => Sentinel errLeaseExpired end in
          let w := sv_Observer s (OnLeaseLost (rq_Scope req) (rq_Projection req) (rq_Instance req) owner) w in
          let lost := match rn_lost r with
                      | None => Some (LeaseLostError (key_string (rq_Scope req) (rq_Projection req) (rq_Instance req)) owner rerr)
                      | Some e => Some e
                      end in
          (fx_cancel w, MkRenewer false lost)
      end
  end.

(** The scheduler lets the renewer serve its pending ticks. *)
Definition yield (sw : SW) : SW :=
  let '(n, w) := fx_ticks sw.1 in Nat.iter n renew_step (w, sw.2).

(** A port call of the stream. *)
Definition call {A} (m : SM W A) : SM SW A := fun sw =>
  let '(w, r) := yield sw in
  let '(a, w) := m w in (a, (w, r)).

Definition signal_ (x : signal) : SM SW unit := fun sw => (Ok tt, (sv_Observer s x sw.1, sw.2)).

Definition now_ : SM SW time := fun sw => let '(t, w) := fx_Now sw.1 in (Ok t, (w, sw.2)).

(** ctx.Err() under runCtx, as an early return. *)
Definition check_ctx : SM SW unit := call (fun w =>
  let '(e, w) := fx_runErr w in (match e with Some e => Err e | None => Ok tt end, w)).

Definition wait : SM SW unit :=
  match sv_Waiter s with
  | Some wt => call (wt (Poll s))
  | None => call (fx_timer (Poll s))
  end.

Definition idleWait (iterStart : time) : SM SW unit :=
  let! d := fun sw => match jitter s with
                      | Some j => let '(d, w) := j (Poll s) sw.1 in (Ok d, (w, sw.2))
                      | None => (Ok (Poll s), sw)
                      end in
  match sv_Waiter s with
  | None => call (fx_timer d)
  | Some wt =>
      let! _ := call (wt d) in
      let! now := now_ in
      let rem := i64 (Poll s - Sub now iterStart) in
      if (0 <? rem)%Z then call (fx_timer rem) else ret tt
  end.

(** The fence-aware resume clamp: [None] when the fuel ends while the fence is
    still blocked (the loop is still waiting). *)
Fixpoint clamp_loop (fuel : nat) (log : Log W) (pos head : N) : SM SW (option N) :=
  if (pos <=? head)%N then ret (Some pos) else
  match fuel with
  | O => ret None
  | S fuel' =>
      let! raw := call (lg_RawHead log) wrap "feed: raw head" in
      if (raw <? pos)%N then ret (Some head) else
      let! _ := wait in
      let! head := call (lg_Head log) wrap "feed: head" in
      clamp_loop fuel' log pos head
  end.

(** The loop's variables. *)
Record stream_state := MkStreamState {
  st_pos : N;
  st_lastProbe : time;
  st_stallReported : bool
}.

Definition probeStall (log : Log W) (st : stream_state) : SM SW stream_state :=
  if st_stallReported st then ret st else
  let! now := now_ in
  if (Sub now (st_lastProbe st) <? stallProbeEvery)%Z then ret st else
  let! now := now_ in
  let! raw := attempt (call (lg_RawHead log)) in
  match raw with
  | Err _ => ret (MkStreamState (st_pos st) now (st_stallReported st))
  | Ok raw =>
      if (st_pos st <? raw)%N then
        let! _ := signal_ (OnStall (st_pos st) raw) in
        ret (MkStreamState (st_pos st) now true)
      else ret (MkStreamState (st_pos st) now (st_stallReported st))
  end.

(** The send loop of one page; returns the position after it. *)
Fixpoint send_all (sink : Sink W) (pos : N) (envs : list Envelope) : SM SW N :=
  match envs with
  | [] => ret pos
  | env :: envs' =>
      let size := Z.of_nat (length (Payload env)) in
      if (0 <? MaxPayloadBytes s)%Z && (MaxPayloadBytes s <? size)%Z then
        let poison := EventTooLargeError (GlobalPosition env) (TypeURL env) size (MaxPayloadBytes s) in
        let! _ := signal_ (OnPoison poison) in throw poison
      else
        let! _ := call (sink env) wrap "feed: send event" in
        send_all sink (GlobalPosition env) envs'
  end.

Definition page_bytes (envs : list Envelope) : Z :=
  foldl (fun n env => n + Z.of_nat (length (Payload env)))%Z 0%Z envs.

(** One iteration of the read/send loop. *)
Definition stream_iter (log : Log W) (sink : Sink W) (batch : Z) (st : stream_state) : SM SW stream_state :=
  let! iterStart := now_ in
  let! _ := check_ctx in
  let! rd := attempt (call (lg_ReadAllBounded log (st_pos st) batch (MaxBatchBytes s) (df_Consumes (rq_Definition req)))) in
  match rd with
  | Err err =>
      let! _ := match AsTooLarge err with Some poison => signal_ (OnPoison poison) | None => ret tt end in
      throw (Errorf "feed: read" err)
  | Ok (envs, truncated) =>
      let! _ := signal_ (OnPage (Z.of_nat (length envs)) (page_bytes envs)) in
      let! pos := send_all sink (st_pos st) envs in
      let delivered := (0 <? Z.of_nat (length envs))%Z in
      let st := MkStreamState pos (st_lastProbe st) (if delivered then false else st_stallReported st) in
      if delivered && (truncated || (batch <=? Z.of_nat (length envs))%Z) then ret st else
      let! st := probeStall log st in
      let! _ := idleWait iterStart in
      ret st
  end.

Fixpoint stream_loop (fuel : nat) (log : Log W) (sink : Sink W) (batch : Z) (st : stream_state) : SM SW stream_state :=
  match fuel with
  | O => ret st
  | S fuel' => let! st := stream_iter log sink batch st in stream_loop fuel' log sink batch st
  end.

(** The definition-drift check. *)
Definition check_definition (cp : Checkpoint) : res unit :=
  let requestHash := definition_Hash (rq_Definition req) in
  if negb (bool_decide (cp_DefinitionHash cp = EmptyString)) && negb (bool_decide (cp_DefinitionHash cp = requestHash))
  then Err (DefinitionChangedError (df_Name (rq_Definition req)) (cp_DefinitionHash cp) requestHash)
  else Ok tt.

(** stream returns only errors: [Ok None] is a stream still waiting for the
    fence, [Ok (Some st)] one still reading, after [fuel] iterations. *)
Definition stream (fuel : nat) (sink : Sink W) (batch : Z) : SM SW (option stream_state) :=
  let! log := call (sv_Logs s (rq_Scope req)) wrap "feed: open log" in
  let! found := call (cs_Checkpoint (Checkpoints s) (rq_Scope req) (rq_Projection req) (rq_Instance req))
                wrap "feed: load checkpoint" in
  let cp := default zero_Checkpoint found in
  let! _ := lift (check_definition cp) in
  let! head := call (lg_Head log) wrap "feed: head" in
  let! pos := clamp_loop fuel log (cp_Position cp) head in
  match pos with
  | None => ret None
  | Some pos =>
      let! st := stream_loop fuel log sink batch (MkStreamState pos zero_time false) in
      ret (Some st)
  end.

(** errors.Join of the collected causes. *)
Definition join_causes (causes : list error) : option error :=
  match causes with
  | [] => None
  | e :: es => Some (foldl Join e es)
  end.

Definition opt_list {A} (o : option A) : list A := match o with Some x => [x] | None => [] end.

(** What Subscribe makes of the stream's end. *)
Definition subscribe_error (leaseErr callerErr streamErr : option error) : option error :=
  let causes := opt_list leaseErr ++ opt_list callerErr in
  match causes with
  | [] => streamErr
  | _ =>
      match streamErr with
      | Some e =>
          if Is e Canceled || (bool_decide (is_Some callerErr) && Is e DeadlineExceeded)
          then join_causes causes else join_causes (causes ++ [e])
      | None => join_causes causes
      end
  end.
End Stream.

Definition join_opt (e : option error) (extra : error) : error :=
  match e with Some e => Join e extra | None => extra end.

(** Subscribe up to its [fuel]-th loop iteration: [Ok st] is a subscription
    that is still running; every return of the Go function is an [Err]
    (the function returns nil only if the stream could). *)
Definition Subscribe (fuel : nat) (req : Request) (sink : option (Sink W)) : SM W (option stream_state) :=
  let scope := rq_Scope req in let proj := rq_Projection req in let inst := rq_Instance req in
  let! _ := lift (validateRequest req sink) in
  let! owner := if bool_decide (rq_Owner req = EmptyString) then newOwner else ret (rq_Owner req) in
  fun w =>
    let '(acquired, aerr, w) := le_Acquire (Leases s) scope proj inst owner (rq_Consumer req) (LeaseTTL s) w in
    match aerr with
    | Some err =>
        let aerr := Errorf "feed: acquire lease" err in
        if (acquired : bool) then
          match le_Release (Leases s) scope proj inst owner w with
          | (Err rerr, w) => (Err (Join aerr (Errorf "feed: release lease" rerr)), w)
          | (Ok _, w) => (Err aerr, w)
          end
        else (Err aerr, w)
    | None =>
        if negb acquired then
          match le_Holder (Leases s) scope proj inst w with
          | (Err herr, w) => (Err (Errorf "feed: acquire lease" herr), w)
          | (Ok holder, w) =>
              (Err (LeaseHeldError (key_string scope proj inst) (default (MkLease EmptyString EmptyString zero_time) holder)
                      (bool_decide (is_Some holder))), w)
          end
        else
          match sink with
          | None => (invalid "sink is required", w)
          | Some snk =>
              let '(r, (w, rn)) := stream req owner fuel snk (batchSize (rq_BatchSize req))
                                     (fx_withCancel w, MkRenewer true None) in
              match r with
              | Ok st => (Ok st, w)
              | Err streamErr =>
                  let '(w, rn) := yield req owner (w, rn) in
                  let '(cerr, w) := fx_ctxErr w in
                  let err := subscribe_error (rn_lost rn) cerr (Some streamErr) in
                  (* cancel(); renewals.Wait(): the renewer's last tick ends before the release *)
                  let '(w, _) := yield req owner (fx_cancel w, rn) in
                  match le_Release (Leases s) scope proj inst owner w with
                  | (Err rerr, w) => (Err (join_opt err (Errorf "feed: release lease" rerr)), w)
                  | (Ok _, w) => (match err with Some e => Err e | None => Ok None end, w)
                  end
              end
          end
    end.
End Ops.
End Server.
Arguments Config : clear implicits.
Arguments Server : clear implicits.
