(* ===== verification/FeedConfig.v ===== *)
(** * The feed server's configuration (src/feed/server.go: NewServer, batchSize)

    Every server NewServer returns has tunables its loops can rely on, and the
    only configurations it refuses lack a port, entropy, or a lease long enough
    to renew. *)
From S2P Require Import Prelude Es Effect Definitions FeedPorts Feed.

(** What the server's loops rely on. *)
Record tuned {W} (s : Server W) : Prop := {
  tu_batch : (0 < Batch s <= MaxBatch s)%Z;
  tu_bytes : (0 < MaxBatchBytes s)%Z;
  tu_payload : MaxPayloadBytes s <> 0%Z;
  tu_poll : (0 < Poll s)%Z;
  tu_renew : (0 < RenewEvery s < LeaseTTL s)%Z;
  tu_page : forall requested, (1 <= batchSize s requested <= MaxBatch s)%Z
}.

(** A tunable after its default. *)
Definition or_default (v d : Z) : Z := if (v <=? 0)%Z then d else v.

Lemma or_default_pos v d : (0 < d)%Z -> (0 < or_default v d)%Z.
Proof. intros Hd. unfold or_default. destruct (Z.leb_spec v 0); lia. Qed.

(** The renew interval exists exactly when the lease lasts more than a
    nanosecond. *)
Lemma renew_interval_iff ttl every : (0 < ttl)%Z ->
  match renew_interval ttl every with Ok r => ttl <> 1%Z /\ (0 < r < ttl)%Z | Err _ => ttl = 1%Z end.
Proof.
  intros Ht. unfold renew_interval. fold (or_default every defaultRenewEvery).
  assert (0 < or_default every defaultRenewEvery)%Z as Hev by (apply or_default_pos; by vm_compute).
  destruct (Z.leb_spec ttl (or_default every defaultRenewEvery)) as [Hle|Hgt]; [|lia].
  pose proof (Z.quot_lt ttl 3%Z Ht ltac:(lia)). pose proof (Z.quot_lt ttl 2%Z Ht ltac:(lia)).
  destruct (Z.leb_spec (Z.quot ttl 3) 0) as [H3|H3].
  - destruct (Z.leb_spec (Z.quot ttl 2) 0) as [H2|H2]; [|split; [|lia]; by intros ->].
    rewrite Z.quot_div_nonneg in H2 by lia. destruct (Z.eq_dec ttl 1%Z); [done|].
    pose proof (Z.div_le_lower_bound ttl 2%Z 1%Z ltac:(lia) ltac:(lia)). lia.
  - destruct (Z.leb_spec (Z.quot ttl 3) 0); [lia|]. split; [by intros ->|lia].
Qed.

Section Config.
Context {W : Type} `{FeedEnv W}.

(** The server built when nothing is refused. *)
Lemma NewServer_run cfg cps ls logs w :
  cfg_Checkpoints cfg = Some cps -> cfg_Leases cfg = Some ls -> cfg_Logs cfg = Some logs ->
  NewServer cfg w =
  (let! every := lift (renew_interval (or_default (cfg_LeaseTTL cfg) defaultLeaseTTL) (cfg_RenewEvery cfg)) in
   let! p := newPrefix in
   let maxBatch := or_default (cfg_MaxBatch cfg) defaultMaxBatch in
   let batch := or_default (cfg_Batch cfg) defaultBatch in
   ret (MkServer cps ls logs (cfg_Waiter cfg) (match cfg_Clock cfg with None => fx_Now | Some c => c end)
          (cfg_DeadLetters cfg) (match cfg_Observer cfg with None => NoopObserver | Some o => o end)
          (if (maxBatch <? batch)%Z then maxBatch else batch) maxBatch
          (if (cfg_MaxPayloadBytes cfg =? 0)%Z then feed_defaultMaxPayloadBytes else cfg_MaxPayloadBytes cfg)
          (or_default (cfg_MaxBatchBytes cfg) defaultMaxBatchBytes) (or_default (cfg_Poll cfg) defaultPoll)
          (or_default (cfg_LeaseTTL cfg) defaultLeaseTTL) every p (Some fx_jitter))) w.
Proof. intros E1 E2 E3. unfold NewServer. by rewrite E1, E2, E3. Qed.

Lemma server_tuned cfg s cps ls logs w w' :
  cfg_Checkpoints cfg = Some cps -> cfg_Leases cfg = Some ls -> cfg_Logs cfg = Some logs ->
  NewServer cfg w = (Ok s, w') -> tuned s.
Proof.
  intros E1 E2 E3. rewrite (NewServer_run _ _ _ _ _ E1 E2 E3). unfold bind at 1, lift.
  pose proof (renew_interval_iff (or_default (cfg_LeaseTTL cfg) defaultLeaseTTL) (cfg_RenewEvery cfg)
    (or_default_pos _ defaultLeaseTTL ltac:(by vm_compute))) as Hr.
  destruct (renew_interval _ _) as [every|e]; [|done]. destruct Hr as [_ Hr].
  unfold bind. destruct (newPrefix w) as [[p|e] w1]; [|done]. intros [= <- <-].
  pose proof (or_default_pos (cfg_MaxBatch cfg) defaultMaxBatch ltac:(by vm_compute)).
  pose proof (or_default_pos (cfg_Batch cfg) defaultBatch ltac:(by vm_compute)).
  split; cbn [Batch MaxBatch MaxBatchBytes MaxPayloadBytes Poll RenewEvery LeaseTTL].
  - destruct (Z.ltb_spec (or_default (cfg_MaxBatch cfg) defaultMaxBatch) (or_default (cfg_Batch cfg) defaultBatch)); lia.
  - by apply or_default_pos.
  - destruct (Z.eqb_spec (cfg_MaxPayloadBytes cfg) 0); [by vm_compute|done].
  - by apply or_default_pos.
  - done.
  - intros requested. unfold batchSize. cbn [Batch MaxBatch].
    repeat match goal with |- context [Z.leb ?a ?b] => destruct (Z.leb_spec a b) | |- context [Z.ltb ?a ?b] => destruct (Z.ltb_spec a b) end; lia.
Qed.
End Config.

(** A server is well configured by construction.  A server NewServer returns has
    a batch between 1 and its maximum, positive byte budget and poll, a payload
    cap that is set, a renewal interval strictly inside the lease, and resolves
    every requested batch size into 1..MaxBatch.  With its three ports present
    and entropy available, NewServer refuses exactly the configurations whose
    lease, after its default, lasts one nanosecond. *)
Theorem newserver_tuned {W} `{FeedEnv W} (cfg : Config W) w cps ls logs :
  cfg_Checkpoints cfg = Some cps -> cfg_Leases cfg = Some ls -> cfg_Logs cfg = Some logs ->
  (forall s w', NewServer cfg w = (Ok s, w') -> tuned s)
  /\ (is_ok (fx_randRead w).1 = true -> is_ok (NewServer cfg w).1 = negb (or_default (cfg_LeaseTTL cfg) defaultLeaseTTL =? 1)%Z).
Proof.
  intros E1 E2 E3. split; [intros s w'; by apply (server_tuned cfg s cps ls logs)|].
  intros Hrand. rewrite (NewServer_run _ _ _ _ _ E1 E2 E3). unfold bind at 1, lift.
  pose proof (renew_interval_iff (or_default (cfg_LeaseTTL cfg) defaultLeaseTTL) (cfg_RenewEvery cfg)
    (or_default_pos _ defaultLeaseTTL ltac:(by vm_compute))) as Hr.
  destruct (renew_interval _ _) as [every|e].
  - destruct Hr as [Hne _]. rewrite (proj2 (Z.eqb_neq _ _) Hne). unfold bind, newPrefix, bind, catch.
    destruct (fx_randRead w) as [[b|e] w1]; done.
  - by rewrite Hr.
Qed.

(** ** A concrete configuration *)

(** A world in which nothing happens. *)
#[local] Instance still : FeedEnv unit := {
  fx_Now w := (0%Z, w);
  fx_ctxErr w := (None, w);
  fx_runErr w := (None, w);
  fx_withCancel w := w;
  fx_cancel w := w;
  fx_timer _ := ret tt;
  fx_ticks w := (O, w);
  fx_seqAdd w := (1%N, w);
  fx_randRead := ret (repeat Byte.x2a 8);
  fx_jitter d w := (d, w)
}.

Definition still_cps : CheckpointStore unit :=
  MkCheckpointStore _ (fun _ _ _ => ret 0%N) (fun _ _ _ _ _ => ret tt) (fun _ _ _ _ _ => ret tt) (fun _ _ _ => ret tt)
    (fun _ _ _ => ret None).
Definition still_ls : LeaseStore unit :=
  MkLeaseStore _ (fun _ _ _ _ _ _ w => (true, None, w)) (fun _ _ _ _ _ => ret true) (fun _ _ _ _ => ret tt) (fun _ _ _ => ret None).
Definition still_logs : Logs unit := fun _ =>
  ret (MkLog _ (fun _ _ _ _ => ret ([], false)) (ret 0%N) (ret 0%N) (fun _ => ret 0%N)).

(** A batch over its maximum and a renewal later than the lease. *)
Definition odd_cfg : Config unit :=
  MkConfig (Some still_cps) (Some still_ls) (Some still_logs) None None None None 5000 200 0 0 0 (6 * Second) (7 * Second).

Lemma newserver_tuned_witness :
  exists s, (NewServer odd_cfg tt).1 = Ok s /\ tuned s /\ RenewEvery s = (2 * Second)%Z /\ Batch s = 200%Z.
Proof.
  destruct (newserver_tuned odd_cfg tt still_cps still_ls still_logs eq_refl eq_refl eq_refl) as [HT _].
  destruct (NewServer odd_cfg tt) as [r w'] eqn:E. pose proof E as E'. cbv in E'. destruct r as [s|e]; [|discriminate E'].
  exists s. split; [reflexivity|]. split; [exact (HT s w' eq_refl)|]. injection E' as <- _. split; reflexivity.
Defined.
