(* ===== verification/FeedContract.v ===== *)
(** * What the feed's ports promise the server

    The contract the read/send loop is proved against: a log that only grows,
    whose pages are prefixes of the matching backlog, a sink that records what
    it accepted, and calls that do neither. *)
From S2P Require Import Prelude Es Effect Definitions FeedPorts Feed.

(** The backlog of a subscription: events after [from] of the consumed types. *)
Definition matching (types : list string) (from : N) (L : list Envelope) : list Envelope :=
  filter (fun e => (from < GlobalPosition e)%N /\ TypeURL e ∈ types) L.

(** The part of the backlog up to a position. *)
Definition delivered (types : list string) (from upto : N) (L : list Envelope) : list Envelope :=
  filter (fun e => (from < GlobalPosition e <= upto)%N /\ TypeURL e ∈ types) L.

(** A page of the backlog: a prefix of it, within the limit, empty only when
    there is no backlog, and complete when it is short and not truncated. *)
Record is_page (types : list string) (from : N) (limit : Z) (L page : list Envelope) (truncated : bool) : Prop := {
  pg_prefix : page `prefix_of` matching types from L;
  pg_limit : (Z.of_nat (length page) <= limit)%Z;
  pg_progress : page = [] -> matching types from L = [];
  pg_complete : truncated = false -> (Z.of_nat (length page) < limit)%Z -> page = matching types from L
}.

(** Positions increase along the log. *)
Definition positions_sorted (L : list Envelope) : Prop :=
  StronglySorted (fun a b => GlobalPosition a < GlobalPosition b)%N L.

Section Backlog.
Variable types : list string.

Lemma delivered_nil from L : delivered types from from L = [].
Proof. apply filter_false. intros e _. lia. Qed.

Lemma sorted_app_lt l1 l2 x y :
  positions_sorted (l1 ++ l2) -> x ∈ l1 -> y ∈ l2 -> (GlobalPosition x < GlobalPosition y)%N.
Proof. intros Hs Hx Hy. apply StronglySorted_app in Hs as (Hlt & _ & _). auto. Qed.

(** What has been delivered does not change when the log grows. *)
Lemma delivered_grow from upto L L' e :
  positions_sorted L' -> L `prefix_of` L' -> e ∈ L -> GlobalPosition e = upto ->
  delivered types from upto L' = delivered types from upto L.
Proof.
  intros Hs [K ->] He <-. unfold delivered. rewrite filter_app, (filter_false _ K), app_nil_r; [done|].
  intros y Hy [Hle _]. pose proof (sorted_app_lt _ _ _ _ Hs He Hy). lia.
Qed.

Lemma matching_app from L K : matching types from (L ++ K) = matching types from L ++ matching types from K.
Proof. apply filter_app. Qed.

Lemma positions_prefix L L' : positions_sorted L' -> L `prefix_of` L' -> positions_sorted L.
Proof. intros Hs [K ->]. by apply StronglySorted_app in Hs as (_ & Hs & _). Qed.

Lemma matching_sorted from L : positions_sorted L -> positions_sorted (matching types from L).
Proof.
  unfold positions_sorted, matching. induction 1 as [|x l Hs IH Hx]; [constructor|]. rewrite filter_cons.
  case_decide; [|done]. constructor; [done|]. rewrite Forall_forall in *. intros y [_ Hy]%list_elem_of_filter. auto.
Qed.

(** A prefix of the backlog is the backlog up to its last position. *)
Lemma prefix_delivered from L page e :
  positions_sorted L -> (page ++ [e]) `prefix_of` matching types from L ->
  page ++ [e] = delivered types from (GlobalPosition e) L.
Proof.
  intros Hs [K HK]. pose proof (matching_sorted from L Hs) as Hms. rewrite HK in Hms.
  assert (delivered types from (GlobalPosition e) L = filter (fun x => GlobalPosition x <= GlobalPosition e)%N (matching types from L)) as ->.
  { unfold delivered, matching. rewrite list_filter_filter. apply list_filter_iff. intros x. intuition lia. }
  rewrite HK, filter_app, (filter_false _ K), app_nil_r.
  - symmetry. apply filter_true. intros x [Hx| ->%list_elem_of_singleton]%elem_of_app; [|lia].
    rewrite <- app_assoc in Hms. pose proof (sorted_app_lt page ([e] ++ K) x e Hms Hx ltac:(set_solver)). lia.
  - intros x Hx. pose proof (sorted_app_lt _ _ e x Hms ltac:(set_solver) Hx). lia.
Qed.

Lemma filter_iff_in {A} (P Q : A -> Prop) `{!forall x, Decision (P x)} `{!forall x, Decision (Q x)} (l : list A) :
  (forall x, x ∈ l -> P x <-> Q x) -> filter P l = filter Q l.
Proof.
  induction l as [|x l IH]; intros HPQ; [done|].
  assert (P x <-> Q x) as Hx by (apply HPQ; by left).
  rewrite !filter_cons, IH by (intros y Hy; apply HPQ; by right). repeat case_decide; tauto.
Qed.

(** A sorted log splits at any position. *)
Lemma sorted_split mid L :
  positions_sorted L -> exists L1 L2, L = L1 ++ L2
    /\ (forall e, e ∈ L1 -> GlobalPosition e <= mid)%N /\ (forall e, e ∈ L2 -> mid < GlobalPosition e)%N.
Proof.
  induction 1 as [|x l Hs (L1 & L2 & -> & H1 & H2) Hx]; [by exists [], []; split; [|split; intros ? ?%not_elem_of_nil]|].
  rewrite Forall_forall in Hx. destruct (N.le_gt_cases (GlobalPosition x) mid) as [Hle|Hgt].
  - exists (x :: L1), L2. split; [done|]. split; [|done]. intros e [->|He]%elem_of_cons; auto.
  - exists [], (x :: L1 ++ L2). split; [done|]. split; [by intros ? ?%not_elem_of_nil|].
    intros e [->|He]%elem_of_cons; [done|]. specialize (Hx e He). lia.
Qed.

(** Two consecutive deliveries compose. *)
Lemma delivered_split from mid upto L :
  positions_sorted L -> (from <= mid <= upto)%N ->
  delivered types from upto L = delivered types from mid L ++ delivered types mid upto L.
Proof.
  intros Hs Hle. destruct (sorted_split mid L Hs) as (L1 & L2 & -> & H1 & H2).
  unfold delivered. rewrite !filter_app.
  rewrite (filter_false (fun e => (from < GlobalPosition e <= mid)%N /\ TypeURL e ∈ types) L2)
    by (intros e He [? _]; specialize (H2 e He); lia).
  rewrite (filter_false (fun e => (mid < GlobalPosition e <= upto)%N /\ TypeURL e ∈ types) L1)
    by (intros e He [? _]; specialize (H1 e He); lia).
  rewrite app_nil_r. simpl. f_equal; apply filter_iff_in; intros e He.
  - specialize (H1 e He). split; (intros [? ?]; split; [lia|done]).
  - specialize (H2 e He). split; (intros [? ?]; split; [lia|done]).
Qed.
End Backlog.

(** The last position of a log. *)
Definition log_head (L : list Envelope) : N := default 0%N (GlobalPosition <$> last L).

Lemma log_head_mono L L' : positions_sorted L' -> L `prefix_of` L' -> (log_head L <= log_head L')%N.
Proof.
  intros Hs [K ->]. unfold log_head. rewrite last_app. destruct (last K) as [y|] eqn:Hy; simpl; [|done].
  destruct (last L) as [x|] eqn:Hx; simpl; [|lia]. apply last_Some_elem_of in Hx, Hy.
  pose proof (sorted_app_lt _ _ _ _ Hs Hx Hy). lia.
Qed.

(** ** The contract *)

(** A sink that returns an error may have taken the event all the same. *)

Section Contract.
Context {W : Type} `{FeedEnv W}.
Variable s : Server W.
Variable sink : Sink W.

(** [rep w L S]: the committed log is [L] and the sink has accepted [S]. *)
Variable rep : W -> list Envelope -> list Envelope -> Prop.

(** A world change that delivers nothing. *)
Definition quiet_step (w w' : W) : Prop :=
  forall L S, rep w L S -> exists L', L `prefix_of` L' /\ rep w' L' S.

Definition quiet {A} (m : SM W A) : Prop := forall w, quiet_step w (m w).2.

(** Whether a page call returns what the log holds at once.  A log whose reads
    wait for transactions in flight may return an empty page meanwhile. *)
Variable prompt : Prop.

(** The scope of the subscription: the log that is opened for it. *)
Variable scope : string.

(** The settled head may lag behind the log; the raw head does not. *)
Record LogLaws (log : Log W) : Prop := {
  ll_read : forall w L S from limit maxBytes types r w',
    rep w L S -> (0 < limit)%Z -> types <> [] -> lg_ReadAllBounded log from limit maxBytes types w = (r, w') ->
    exists L1 L', L `prefix_of` L1 /\ L1 `prefix_of` L' /\ rep w' L' S
      /\ forall page tr, r = Ok (page, tr) ->
           page `prefix_of` matching types from L1 /\ (prompt -> is_page types from limit L1 page tr);
  ll_head : quiet (lg_Head log);
  ll_rawhead : forall w L S r w', rep w L S -> lg_RawHead log w = (r, w') ->
    exists L', L `prefix_of` L' /\ rep w' L' S /\ forall h, r = Ok h -> (log_head L <= h)%N
}.

Class FeedLaws : Prop := {
  fl_sorted : forall w L S, rep w L S -> positions_sorted L;
  fl_open : forall w L S r w', rep w L S -> sv_Logs s scope w = (r, w') ->
    exists L', L `prefix_of` L' /\ rep w' L' S /\ forall log, r = Ok log -> LogLaws log;
  fl_send : forall env w L S r w', rep w L S -> sink env w = (r, w') ->
    exists L' taken, L `prefix_of` L' /\ rep w' L' (S ++ taken)
      /\ match r with Ok _ => taken = [env] | Err _ => taken = [] \/ taken = [env] end;
  fl_checkpoint : forall sc p i, quiet (cs_Checkpoint (Checkpoints s) sc p i);
  fl_renew : forall sc p i owner ttl, quiet (le_Renew (Leases s) sc p i owner ttl);
  fl_observe : forall x w, quiet_step w (sv_Observer s x w);
  fl_waiter : forall wt d, sv_Waiter s = Some wt -> quiet (wt d);
  fl_jitter : forall j d w, jitter s = Some j -> quiet_step w (j d w).2;
  fl_now : forall w, quiet_step w (fx_Now w).2;
  fl_runErr : forall w, quiet_step w (fx_runErr w).2;
  fl_cancel : forall w, quiet_step w (fx_cancel w);
  fl_timer : forall d, quiet (fx_timer d);
  fl_ticks : forall w, quiet_step w (fx_ticks w).2;
  fl_acquire : forall sc p i owner consumer ttl w,
    quiet_step w (le_Acquire (Leases s) sc p i owner consumer ttl w).2;
  fl_release : forall sc p i owner, quiet (le_Release (Leases s) sc p i owner);
  fl_holder : forall sc p i, quiet (le_Holder (Leases s) sc p i);
  fl_clock : forall w, quiet_step w (sv_Clock s w).2;
  fl_seq : forall w, quiet_step w (fx_seqAdd w).2;
  fl_ctxErr : forall w, quiet_step w (fx_ctxErr w).2;
  fl_withCancel : forall w, quiet_step w (fx_withCancel w)
}.
End Contract.

(** The contract of another sink on the same ports. *)
Lemma FeedLaws_sink {W} `{FeedEnv W} (s : Server W) (sink sink' : Sink W) rep prompt scope :
  FeedLaws s sink rep prompt scope ->
  (forall env w L S r w', rep w L S -> sink' env w = (r, w') ->
     exists L' taken, L `prefix_of` L' /\ rep w' L' (S ++ taken)
       /\ match r with Ok _ => taken = [env] | Err _ => taken = [] \/ taken = [env] end) ->
  FeedLaws s sink' rep prompt scope.
Proof. intros [] Hs. by constructor. Qed.
