(* ===== verification/FeedCorrect.v ===== *)
(** * The subscribe loop delivers the backlog

    Proofs against the contract of FeedContract.v: whatever the renewer and
    other writers do in between, the stream sends exactly the consumed events
    after its resume position, in log order, without gap or repetition, and
    each iteration that finds a backlog makes progress. *)
From S2P Require Import Prelude Es Effect Definitions FeedPorts Feed FeedContract.

Section Delivery.
Context {W : Type} `{FeedEnv W}.
Variable s : Server W.
Variable sink : Sink W.
Variable rep : W -> list Envelope -> list Envelope -> Prop.
Variable prompt : Prop.
Variable req : Request.
Context `{!FeedLaws s sink rep prompt (rq_Scope req)}.
Variable owner : string.

Let types := df_Consumes (rq_Definition req).

Abbreviation SW := (W * renewer)%type.

(** ** Calls that deliver nothing *)

#[global] Instance quiet_step_refl : Reflexive (quiet_step rep).
Proof. intros w L S HR. by exists L. Qed.

#[global] Instance quiet_step_trans : Transitive (quiet_step rep).
Proof.
  intros w1 w2 w3 H12 H23 L S HR. destruct (H12 _ _ HR) as (L2 & HL2 & HR2).
  destruct (H23 _ _ HR2) as (L3 & HL3 & HR3). exists L3. split; [by etrans|done].
Qed.

Lemma quiet_run {A} (m : SM W A) w a w' : quiet rep m -> m w = (a, w') -> quiet_step rep w w'.
Proof. intros Hm E. specialize (Hm w). by rewrite E in Hm. Qed.

Lemma renew_step_quiet sw : quiet_step rep sw.1 (renew_step s req owner sw).1.
Proof.
  destruct sw as [w r]. unfold renew_step. destruct (rn_running r); [|done]. simpl.
  destruct (le_Renew _ _ _ _ _ _ w) as [ok w1] eqn:HN.
  pose proof (quiet_run _ _ _ _ (fl_renew s sink rep prompt (rq_Scope req) _ _ _ _ _) HN) as Q1.
  pose proof (fl_runErr s sink rep prompt (rq_Scope req) w1) as Q2. destruct (fx_runErr w1) as [[e|] w2]; simpl in *; [by etrans|].
  assert (quiet_step rep w w2) as Q by (by etrans).
  assert (forall lost, quiet_step rep w (fx_cancel (sv_Observer s lost w2))) as Qc.
  { intros x. etrans; [exact Q|]. etrans; [apply (fl_observe s sink rep prompt (rq_Scope req) x)|apply (fl_cancel s sink rep prompt (rq_Scope req))]. }
  destruct ok as [[]|]; simpl; [done|apply Qc|apply Qc].
Qed.

Lemma renew_iter_quiet n sw : quiet_step rep sw.1 (Nat.iter n (renew_step s req owner) sw).1.
Proof. induction n as [|n IH]; simpl; [done|]. etrans; [exact IH|apply renew_step_quiet]. Qed.

Lemma yield_quiet sw : quiet_step rep sw.1 (yield s req owner sw).1.
Proof.
  unfold yield. pose proof (fl_ticks s sink rep prompt (rq_Scope req) sw.1) as Q. destruct (fx_ticks sw.1) as [n w]. simpl in Q.
  etrans; [exact Q|]. apply (renew_iter_quiet n (w, sw.2)).
Qed.

(** A computation of the stream that delivers nothing. *)
Definition quietS {A} (m : SM SW A) : Prop := forall sw, quiet_step rep sw.1 (m sw).2.1.

Lemma quietS_ret {A} (a : A) : quietS (ret a).
Proof. by intros sw. Qed.
Lemma quietS_throw {A} e : quietS (throw (A:=A) e).
Proof. by intros sw. Qed.
Lemma quietS_bind {A B} (m : SM SW A) (k : A -> SM SW B) :
  quietS m -> (forall a, quietS (k a)) -> quietS (bind m k).
Proof.
  intros Hm Hk sw. unfold bind. specialize (Hm sw). destruct (m sw) as [[a|e] sw1]; simpl in *; [|done].
  etrans; [exact Hm|]. apply Hk.
Qed.
Lemma quietS_catch {A} (m : SM SW A) h : quietS m -> (forall e, quietS (h e)) -> quietS (catch m h).
Proof.
  intros Hm Hh sw. unfold catch. specialize (Hm sw). destruct (m sw) as [[a|e] sw1]; simpl in *; [done|].
  etrans; [exact Hm|]. apply Hh.
Qed.
Lemma quietS_attempt {A} (m : SM SW A) : quietS m -> quietS (attempt m).
Proof. intros Hm sw. unfold attempt. specialize (Hm sw). by destruct (m sw). Qed.
Lemma quietS_call {A} (m : SM W A) : quiet rep m -> quietS (call s req owner m).
Proof.
  intros Hm sw. unfold call. pose proof (yield_quiet sw) as Q. destruct (yield s req owner sw) as [w r]. simpl in Q.
  specialize (Hm w). destruct (m w) as [a w']. simpl in *. by etrans.
Qed.
Lemma quietS_signal x : quietS (signal_ s x).
Proof. intros sw. apply (fl_observe s sink rep prompt (rq_Scope req)). Qed.
Lemma quietS_now : quietS now_.
Proof. intros sw. unfold now_. pose proof (fl_now s sink rep prompt (rq_Scope req) sw.1). by destruct (fx_Now sw.1). Qed.

Hint Resolve quietS_ret quietS_throw quietS_call quietS_signal quietS_now quietS_attempt : feed.
Hint Extern 1 (quietS (bind _ _)) => (apply quietS_bind; [|intros]) : feed.
Hint Extern 1 (quietS (catch _ _)) => (apply quietS_catch; [|intros]) : feed.
Hint Extern 2 (quietS (match _ with _ => _ end)) => case_goal : feed.

Lemma quietS_wait : quietS (wait s req owner).
Proof.
  unfold wait. destruct (sv_Waiter s) as [wt|] eqn:Hw; apply quietS_call;
    [by apply (fl_waiter s sink rep prompt (rq_Scope req))|apply (fl_timer s sink rep prompt (rq_Scope req))].
Qed.

Lemma quietS_check_ctx : quietS (check_ctx s req owner).
Proof.
  apply quietS_call. intros w. pose proof (fl_runErr s sink rep prompt (rq_Scope req) w) as Q. by destruct (fx_runErr w) as [[]].
Qed.

Lemma quietS_idleWait t : quietS (idleWait s req owner t).
Proof.
  unfold idleWait. apply quietS_bind.
  - intros sw. destruct (jitter s) as [j|] eqn:Hj; [|done].
    pose proof (fl_jitter s sink rep prompt (rq_Scope req) j (Poll s) sw.1 Hj) as Q. by destruct (j (Poll s) sw.1).
  - intros d. pose proof (fl_timer s sink rep prompt (rq_Scope req)) as Ht. destruct (sv_Waiter s) as [wt|] eqn:Hw; [|auto with feed].
    pose proof (fl_waiter s sink rep prompt (rq_Scope req) wt d Hw). auto 6 with feed.
Qed.

Lemma quiet_rawhead log : LogLaws rep prompt log -> quiet rep (lg_RawHead log).
Proof.
  intros Hlog w L S HR. destruct (lg_RawHead log w) as [r w'] eqn:HH.
  destruct (ll_rawhead _ _ _ Hlog _ _ _ _ _ HR HH) as (L' & HL & HR' & _). by exists L'.
Qed.

Lemma quietS_probe log st : LogLaws rep prompt log -> quietS (probeStall s req owner log st).
Proof.
  intros Hlog. unfold probeStall. pose proof (quiet_rawhead _ Hlog). auto 12 with feed.
Qed.

Lemma bind_quiet {A B} (m : SM SW A) (k : A -> SM SW B) w rn r w' rn' :
  quietS m -> bind m k (w, rn) = (r, (w', rn')) ->
  (exists e, r = Err e /\ quiet_step rep w w')
  \/ exists a w1 rn1, m (w, rn) = (Ok a, (w1, rn1)) /\ quiet_step rep w w1 /\ k a (w1, rn1) = (r, (w', rn')).
Proof.
  intros Hm. specialize (Hm (w, rn)). unfold bind. destruct (m (w, rn)) as [[a|e] [w1 rn1]]; simpl in *.
  - intros E. right. by exists a, w1, rn1.
  - intros [= <- <- <-]. left. eauto.
Qed.

Lemma quietS_run {A} (m : SM SW A) w rn r w' rn' : quietS m -> m (w, rn) = (r, (w', rn')) -> quiet_step rep w w'.
Proof. intros Hm E. specialize (Hm (w, rn)). by rewrite E in Hm. Qed.

(** Probing for a stall does not move the stream. *)
Lemma probe_pos log st w rn st' w' rn' :
  probeStall s req owner log st (w, rn) = (Ok st', (w', rn')) -> st_pos st' = st_pos st.
Proof.
  unfold probeStall, ret. case_goal; [by intros ?; simplify_eq|]. unfold bind at 1, now_ at 1.
  destruct (fx_Now _) as [t1 w1]. case_goal; [by intros ?; simplify_eq|]. unfold bind at 1, now_ at 1.
  destruct (fx_Now _) as [t2 w2]. unfold bind at 1, attempt.
  destruct (call _ _ _ _ _) as [[raw|e] sw]; [|by intros ?; simplify_eq].
  case_goal; [|by intros ?; simplify_eq]. unfold bind, signal_. by intros ?; simplify_eq.
Qed.

(** ** The send loop *)

(** Where the position of a stream can be: where it was, or at an event. *)
Definition advanced (from pos : N) (L : list Envelope) : Prop :=
  pos = from \/ (from < pos)%N /\ exists e, e ∈ L /\ GlobalPosition e = pos.

Lemma advanced_grow from pos L L' : L `prefix_of` L' -> advanced from pos L -> advanced from pos L'.
Proof. intros [K ->] [->|(Hlt & e & He & <-)]; [by left|]. right. split; [done|]. exists e. split; [apply elem_of_app; by left|done]. Qed.

Lemma advanced_le from pos L : advanced from pos L -> (from <= pos)%N.
Proof. intros [->|[? _]]; lia. Qed.

Lemma delivered_stable from pos L L' :
  positions_sorted L' -> L `prefix_of` L' -> advanced from pos L ->
  delivered types from pos L' = delivered types from pos L.
Proof.
  intros Hs HL [->|(_ & e & He & Hp)]; [by rewrite !delivered_nil|]. by eapply delivered_grow.
Qed.

Lemma send_all_spec envs : forall pos w rn L S r w' rn',
  rep w L S -> send_all s req owner sink pos envs (w, rn) = (r, (w', rn')) ->
  exists L' k, L `prefix_of` L' /\ rep w' L' (S ++ take k envs) /\ (k <= length envs)%nat
    /\ forall pos', r = Ok pos' -> k = length envs /\ pos' = default pos (GlobalPosition <$> last envs).
Proof.
  induction envs as [|env envs IH]; intros pos w rn L S r w' rn' HR; simpl.
  { intros [= <- <- <-]. exists L, O. rewrite app_nil_r. repeat split; try done. by injection H0. }
  case_goal.
  { unfold bind, signal_, throw. intros [= <- <- <-]. simpl.
    edestruct (fl_observe s sink rep prompt (rq_Scope req)) as (L' & HL & HR'); [exact HR|]. exists L', O. rewrite app_nil_r.
    repeat split; try done. lia. }
  unfold bind, catch, call, throw. pose proof (yield_quiet (w, rn)) as Q.
  destruct (yield s req owner (w, rn)) as [w1 rn1]. destruct (Q _ _ HR) as (L1 & HL1 & HR1). simpl in HR1.
  destruct (sink env w1) as [[[]|e] w2] eqn:Hs.
  - destruct (fl_send s sink rep prompt (rq_Scope req) env w1 L1 S _ _ HR1 Hs) as (L2 & ? & HL2 & HR2 & ->). intros Hrun.
    destruct (IH _ _ _ _ _ _ _ _ HR2 Hrun) as (L3 & k & HL3 & HR3 & Hk & Hok). exists L3, (Datatypes.S k).
    split; [by do 2 etrans|]. simpl. rewrite cons_middle, app_assoc. split; [done|]. split; [lia|].
    intros pos' ->. destruct (Hok _ eq_refl) as [-> ->]. split; [done|].
    destruct envs; [done|]. rewrite last_cons_cons. simpl. by destruct (last _) eqn:El; [|apply last_None in El].
  - destruct (fl_send s sink rep prompt (rq_Scope req) env w1 L1 S _ _ HR1 Hs) as (L2 & taken & HL2 & HR2 & Ht).
    intros [= <- <- <-]. exists L2, (length taken). split; [by etrans|].
    destruct Ht as [-> | ->]; (split; [exact HR2|]); simpl; (split; [lia|done]).
Qed.

(** ** The read/send loop *)

(** One read: the page it got is a page of the log at some instant of the call. *)
Lemma feed_read_spec log from batch w rn L S r w' rn' :
  LogLaws rep prompt log -> (0 < batch)%Z -> types <> [] -> rep w L S ->
  call s req owner (lg_ReadAllBounded log from batch (MaxBatchBytes s) types) (w, rn) = (r, (w', rn')) ->
  exists L1 L', L `prefix_of` L1 /\ L1 `prefix_of` L' /\ rep w' L' S
    /\ forall page tr, r = Ok (page, tr) ->
         page `prefix_of` matching types from L1 /\ (prompt -> is_page types from batch L1 page tr).
Proof.
  intros Hlog Hb Ht HR. unfold call. pose proof (yield_quiet (w, rn)) as Q.
  destruct (yield s req owner (w, rn)) as [w1 rn1]. destruct (Q _ _ HR) as (L0 & HL0 & HR0). simpl in HR0.
  destruct (lg_ReadAllBounded _ _ _ _ _ w1) as [a w2] eqn:HA. intros [= <- <- <-].
  destruct (ll_read _ _ _ Hlog _ _ _ _ _ _ _ _ _ HR0 Hb Ht HA) as (L1 & L' & H1 & H2 & HR' & Hp).
  exists L1, L'. split; [by etrans|]. done.
Qed.

(** The effect of one iteration, and of the whole loop, on the log and the sink. *)
Record sent_between (from pos : N) (L S L' S' : list Envelope) : Prop := {
  sb_log : L `prefix_of` L';
  sb_pos : advanced from pos L';
  sb_sent : S' = S ++ delivered types from pos L'
}.

Lemma sent_none from L S L' : L `prefix_of` L' -> sent_between from from L S L' S.
Proof. intros HL. split; [done|by left|]. by rewrite delivered_nil, app_nil_r. Qed.

Lemma sent_trans a b c L S L1 S1 L2 S2 :
  positions_sorted L2 -> sent_between a b L S L1 S1 -> sent_between b c L1 S1 L2 S2 -> sent_between a c L S L2 S2.
Proof.
  intros Hs [HL Hp ->] [HL' Hp' ->]. pose proof (advanced_le _ _ _ Hp). pose proof (advanced_le _ _ _ Hp'). split.
  - by etrans.
  - destruct Hp' as [->|(Hlt & Hex)]; [by eapply advanced_grow|]. right. split; [lia|done].
  - rewrite <- app_assoc, (delivered_split types a b c) by (done || lia).
    by rewrite (delivered_stable a b L1 L2 Hs HL' Hp).
Qed.

Lemma sent_grow a b L S L1 S1 L2 :
  positions_sorted L2 -> sent_between a b L S L1 S1 -> L1 `prefix_of` L2 -> sent_between a b L S L2 S1.
Proof. intros Hs H1 HL. eapply sent_trans; [done|exact H1|]. by apply sent_none. Qed.

(** The sent part of a page. *)
Lemma page_sent from L1 page k :
  positions_sorted L1 -> page `prefix_of` matching types from L1 -> (k <= length page)%nat ->
  take k page = delivered types from (default from (GlobalPosition <$> last (take k page))) L1
  /\ advanced from (default from (GlobalPosition <$> last (take k page))) L1.
Proof.
  intros Hs Hp Hk. destruct (last (take k page)) as [e|] eqn:Hl; simpl.
  - apply last_Some in Hl as [l Hl]. rewrite Hl.
    assert ((l ++ [e]) `prefix_of` matching types from L1) as Hpre.
    { rewrite <- Hl. etrans; [apply prefix_take|done]. }
    split; [by apply prefix_delivered|]. assert (e ∈ matching types from L1) as He.
    { destruct Hpre as [K ->]. set_solver. }
    apply list_elem_of_filter in He as [[Hlt _] He]. right. split; [done|]. by exists e.
  - apply last_None in Hl. rewrite Hl, delivered_nil. split; [done|by left].
Qed.

Lemma matching_filter from pos L :
  (from <= pos)%N -> matching types pos L = filter (fun e => pos < GlobalPosition e)%N (matching types from L).
Proof.
  intros Hle. unfold matching. rewrite list_filter_filter. apply list_filter_iff. intros e.
  split; [intros [? ?]; repeat split; [done|lia|done]|intros (? & ? & ?); done].
Qed.

(** The first event of a page is at or before the position after it. *)
Lemma first_le_last y page :
  positions_sorted (y :: page) -> (GlobalPosition y <= default 0 (GlobalPosition <$> last (y :: page)))%N.
Proof.
  intros Hs. destruct (last (y :: page)) as [e|] eqn:Hl; [|by apply last_None in Hl]. simpl.
  apply last_Some_elem_of in Hl. apply StronglySorted_cons in Hs as [Hs _]. rewrite Forall_forall in Hs.
  apply elem_of_cons in Hl as [->|Hl]; [done|]. specialize (Hs e Hl). lia.
Qed.

(** A page passes the first event of any backlog seen before it. *)
Lemma page_progress from batch L L1 page tr :
  positions_sorted L1 -> L `prefix_of` L1 -> is_page types from batch L1 page tr ->
  let pos := default from (GlobalPosition <$> last page) in
  (length (matching types pos L) <= length (matching types from L) - 1)%nat.
Proof.
  intros Hs HL Hpg pos. pose proof (page_sent from L1 page (length page) Hs (pg_prefix _ _ _ _ _ _ Hpg) ltac:(lia)) as [_ Ha].
  rewrite take_ge in Ha by lia. fold pos in Ha. apply advanced_le in Ha.
  rewrite (matching_filter from pos L Ha). destruct (matching types from L) as [|x rest] eqn:HM; [simpl; lia|].
  pose proof (matching_sorted types from L1 Hs) as Hms.
  destruct HL as [K ->]. destruct Hpg as [[Z Hp] _ Hprog _]. rewrite matching_app, HM in Hp, Hprog, Hms.
  destruct page as [|y page]; [by specialize (Hprog eq_refl)|]. injection Hp as <- Hp.
  rewrite filter_cons_False.
  - pose proof (length_filter (fun e => pos < GlobalPosition e)%N rest). simpl. lia.
  - assert (positions_sorted (x :: page)) as Hsp.
    { change ((x :: rest) ++ matching types from K) with (x :: (rest ++ matching types from K)) in Hms.
      rewrite Hp in Hms. eapply positions_prefix; [exact Hms|]. by exists Z. }
    pose proof (first_le_last x page Hsp) as Hle. unfold pos.
    destruct (last (x :: page)) eqn:Hl; [simpl in *; lia|by apply last_None in Hl].
Qed.

(** Sending a page read from an earlier state of the log. *)
Lemma send_page from page L1 w rn L S r w' rn' :
  page `prefix_of` matching types from L1 -> L1 `prefix_of` L -> rep w L S ->
  send_all s req owner sink from page (w, rn) = (r, (w', rn')) ->
  exists L' S' pos, rep w' L' S' /\ sent_between from pos L S L' S'
    /\ forall pos', r = Ok pos' -> pos' = pos /\ pos = default from (GlobalPosition <$> last page).
Proof.
  intros Hpg HL HR Hrun. pose proof (fl_sorted s sink rep prompt (rq_Scope req) _ _ _ HR) as Hs.
  destruct (send_all_spec page _ _ _ _ _ _ _ _ HR Hrun) as (L' & k & HL' & HR' & Hk & Hok).
  destruct (page_sent from L1 page k (positions_prefix _ _ Hs HL) Hpg Hk) as [Hd Ha].
  set (pos := default from (GlobalPosition <$> last (take k page))) in *.
  exists L', (S ++ take k page), pos. split; [done|]. split.
  - pose proof (fl_sorted s sink rep prompt (rq_Scope req) _ _ _ HR') as Hs'. split; [done| |].
    + eapply advanced_grow; [|exact Ha]. by etrans.
    + rewrite (delivered_stable from pos L1 L') by (done || by etrans). by rewrite <- Hd.
  - intros pos' ->. destruct (Hok _ eq_refl) as [-> ->]. unfold pos. by rewrite take_ge by lia.
Qed.

(** How much of a log is left to deliver. *)
Definition backlog (from : N) (L : list Envelope) : nat := length (matching types from L).

(** What an iteration promises. *)
Definition iter_post (st : stream_state) (L S : list Envelope) (r : res stream_state) (w' : W) : Prop :=
  exists L' S' pos, rep w' L' S' /\ sent_between (st_pos st) pos L S L' S'
    /\ forall st', r = Ok st' -> st_pos st' = pos
         /\ (prompt -> forall L0, L0 `prefix_of` L -> (backlog pos L0 <= backlog (st_pos st) L0 - 1)%nat).

Lemma iter_post_quiet st L S w w' e : rep w L S -> quiet_step rep w w' -> iter_post st L S (Err e) w'.
Proof.
  intros HR Q. destruct (Q _ _ HR) as (L' & HL & HR'). exists L', S, (st_pos st).
  split; [done|]. split; [by apply sent_none|done].
Qed.

(** The rest of an iteration after a page was read. *)
Lemma after_read_spec log batch st page tr iterStart L L1 w rn L0 S r w' rn' :
  LogLaws rep prompt log -> L `prefix_of` L1 -> L1 `prefix_of` L0 -> page `prefix_of` matching types (st_pos st) L1 ->
  (prompt -> is_page types (st_pos st) batch L1 page tr) -> rep w L0 S ->
  (let! pos := send_all s req owner sink (st_pos st) page in
   let delivered := (0 <? Z.of_nat (length page))%Z in
   let st := MkStreamState pos (st_lastProbe st) (if delivered then false else st_stallReported st) in
   if delivered && (tr || (batch <=? Z.of_nat (length page))%Z) then ret st else
   let! st := probeStall s req owner log st in
   let! _ := idleWait s req owner iterStart in
   ret st) (w, rn) = (r, (w', rn')) ->
  iter_post st L S r w'.
Proof.
  intros Hlog HL HL1 Hpre Hpg HR Hrun. unfold bind at 1 in Hrun.
  destruct (send_all s req owner sink (st_pos st) page (w, rn)) as [sr [w1 rn1]] eqn:Hsend.
  destruct (send_page _ _ _ _ _ _ _ _ _ _ Hpre HL1 HR Hsend) as (L2 & S2 & pos & HR2 & Hsb & Hok).
  assert (sent_between (st_pos st) pos L S L2 S2) as Hsb'.
  { destruct Hsb as [? ? ?]. split; [|done|done]. etrans; [exact HL|]. by etrans. }
  pose proof (fl_sorted s sink rep prompt (rq_Scope req) _ _ _ HR) as Hs0.
  assert (prompt -> forall L0, L0 `prefix_of` L -> (backlog (default (st_pos st) (GlobalPosition <$> last page)) L0
      <= backlog (st_pos st) L0 - 1)%nat) as Hprog.
  { intros Hpr K HK. eapply (page_progress (st_pos st) batch K L1 page tr); [by eapply positions_prefix|by etrans|auto]. }
  destruct sr as [pos'|e]; [|injection Hrun as <- <- <-; by exists L2, S2, pos].
  destruct (Hok _ eq_refl) as [-> Hpos]. rewrite <- Hpos in Hprog. clear Hok Hpos. cbv zeta in Hrun.
  destruct (_ && _); [injection Hrun as <- <- <-; exists L2, S2, pos; split; [done|]; split; [done|]; by intros ? [= <-]|].
  assert (quiet_step rep w1 w' /\ forall st', r = Ok st' -> st_pos st' = pos) as [Q Hst].
  { apply bind_quiet in Hrun as [(e & -> & Q)|(st1 & w2 & rn2 & HP & Q2 & Hrun)]; [done| |by apply quietS_probe].
    apply bind_quiet in Hrun as [(e & -> & Q)|(u & w3 & rn3 & _ & Q3 & Hrun)];
      [split; [by etrans|done]| |apply quietS_idleWait].
    injection Hrun as <- <- <-. split; [by etrans|]. intros ? [= <-]. eapply probe_pos in HP. done. }
  destruct (Q _ _ HR2) as (L3 & HL3 & HR3). exists L3, S2, pos. split; [done|].
  split; [eapply sent_grow; [by apply (fl_sorted s sink rep prompt (rq_Scope req) _ _ _ HR3)|done|done]|].
  intros st' Hr. split; [by apply Hst|done].
Qed.

(** One iteration. *)
Lemma stream_iter_spec log batch st w rn L S r w' rn' :
  LogLaws rep prompt log -> (0 < batch)%Z -> types <> [] -> rep w L S ->
  stream_iter s req owner log sink batch st (w, rn) = (r, (w', rn')) -> iter_post st L S r w'.
Proof.
  intros Hlog Hb Ht HR Hrun. unfold stream_iter in Hrun.
  apply bind_quiet in Hrun as [(e & -> & Q)|(t0 & w1 & rn1 & _ & Q1 & Hrun)]; [by eapply iter_post_quiet| |apply quietS_now].
  apply bind_quiet in Hrun as [(e & -> & Q)|(u & w2 & rn2 & _ & Q2 & Hrun)];
    [eapply iter_post_quiet; [done|by etrans]| |apply quietS_check_ctx].
  destruct (transitivity Q1 Q2 _ _ HR) as (L2 & HL2 & HR2). unfold bind at 1, attempt in Hrun.
  destruct (call s req owner _ (w2, rn2)) as [rd [w3 rn3]] eqn:Hrd.
  destruct (feed_read_spec _ _ _ _ _ _ _ _ _ _ Hlog Hb Ht HR2 Hrd) as (L3 & L4 & HL3 & HL4 & HR4 & Hpage).
  assert (L `prefix_of` L4) as HL04 by (by repeat (etrans; [eassumption|])).
  destruct rd as [[page tr]|err].
  - destruct (Hpage _ _ eq_refl) as [Hpre Hpg].
    apply bind_quiet in Hrun as [(e & -> & Q)|(u' & w5 & rn5 & _ & Q5 & Hrun)]; [| |apply quietS_signal].
    + destruct (Q _ _ HR4) as (L' & HL & HR'). exists L', S, (st_pos st). split; [done|].
      split; [apply sent_none; by etrans|done].
    + destruct (Q5 _ _ HR4) as (L5 & HL5 & HR5).
      eapply (after_read_spec _ _ _ _ _ _ L L3); [done|by transitivity L2|by transitivity L4|exact Hpre|exact Hpg|exact HR5|exact Hrun].
  - apply bind_quiet in Hrun as [(e & -> & Q)|(u' & w5 & rn5 & _ & Q5 & [= <- <- <-])];
      [| |destruct (AsTooLarge err); [apply quietS_signal|apply quietS_ret]].
    + destruct (Q _ _ HR4) as (L' & HL & HR'). exists L', S, (st_pos st). split; [done|].
      split; [apply sent_none; by etrans|done].
    + destruct (Q5 _ _ HR4) as (L' & HL & HR'). exists L', S, (st_pos st). split; [done|].
      split; [apply sent_none; by etrans|done].
Qed.

(** The loop. *)
Lemma stream_loop_spec log batch fuel : forall st w rn L S r w' rn',
  LogLaws rep prompt log -> (0 < batch)%Z -> types <> [] -> rep w L S ->
  stream_loop s req owner fuel log sink batch st (w, rn) = (r, (w', rn')) ->
  exists L' S' pos, rep w' L' S' /\ sent_between (st_pos st) pos L S L' S'
    /\ forall st', r = Ok st' -> st_pos st' = pos
         /\ (prompt -> forall L0, L0 `prefix_of` L -> (backlog pos L0 <= backlog (st_pos st) L0 - fuel)%nat).
Proof.
  induction fuel as [|fuel IH]; intros st w rn L S r w' rn' Hlog Hb Ht HR Hrun; simpl in Hrun.
  { injection Hrun as <- <- <-. exists L, S, (st_pos st). split; [done|]. split; [by apply sent_none|].
    intros st' [= <-]. split; [done|]. intros. lia. }
  unfold bind in Hrun. destruct (stream_iter s req owner log sink batch st (w, rn)) as [ri [w1 rn1]] eqn:Hit.
  destruct (stream_iter_spec _ _ _ _ _ _ _ _ _ _ Hlog Hb Ht HR Hit) as (L1 & S1 & p1 & HR1 & Hs1 & Hok1).
  destruct ri as [st1|e]; [|injection Hrun as <- <- <-; by exists L1, S1, p1].
  destruct (Hok1 _ eq_refl) as [Hp1 Hm1].
  destruct (IH _ _ _ _ _ _ _ _ Hlog Hb Ht HR1 Hrun) as (L2 & S2 & p2 & HR2 & Hs2 & Hok2). rewrite Hp1 in Hs2, Hok2.
  exists L2, S2, p2. split; [done|]. split.
  - eapply sent_trans; [apply (fl_sorted s sink rep prompt (rq_Scope req) _ _ _ HR2)|exact Hs1|exact Hs2].
  - intros st' Hr. destruct (Hok2 _ Hr) as [Hp2 Hm2]. split; [done|].
    intros Hpr L0 HL0. specialize (Hm1 Hpr L0 HL0). specialize (Hm2 Hpr L0 (transitivity HL0 (sb_log _ _ _ _ _ _ Hs1))). lia.
Qed.

(** ** Resuming *)

Lemma clamp_quiet log fuel : LogLaws rep prompt log -> forall pos head, quietS (clamp_loop s req owner fuel log pos head).
Proof.
  intros Hlog. pose proof (ll_head _ _ _ Hlog). pose proof (quiet_rawhead _ Hlog). pose proof quietS_wait.
  induction fuel as [|fuel IH]; intros pos head; simpl; auto 12 with feed.
Qed.

(** A raw head call during a subscription. *)
Lemma rawhead_ge log ctx w rn L S raw w1 rn1 :
  LogLaws rep prompt log -> rep w L S -> (call s req owner (lg_RawHead log) wrap ctx) (w, rn) = (Ok raw, (w1, rn1)) ->
  exists L1, L `prefix_of` L1 /\ rep w1 L1 S /\ (log_head L <= raw)%N.
Proof.
  intros Hlog HR Hc%catch_Ok. unfold call in Hc. pose proof (yield_quiet (w, rn)) as Q.
  destruct (yield s req owner (w, rn)) as [w0 rn0]. destruct (Q _ _ HR) as (La & HL & HRa). simpl in HRa.
  destruct (lg_RawHead log w0) as [x wx] eqn:Hm. injection Hc as -> <- <-.
  destruct (ll_rawhead _ _ _ Hlog _ _ _ _ _ HRa Hm) as (L1 & HL1 & HR1 & Hge). exists L1. split; [by etrans|]. split; [done|].
  specialize (Hge _ eq_refl). pose proof (fl_sorted s sink rep prompt (rq_Scope req) _ _ _ HRa) as Hs. pose proof (log_head_mono _ _ Hs HL). lia.
Qed.

(** The clamp only ever moves the position back, and not when the log has
    reached it. *)
Lemma clamp_le log fuel : LogLaws rep prompt log -> forall pos head w rn L S p w' rn', rep w L S ->
  clamp_loop s req owner fuel log pos head (w, rn) = (Ok (Some p), (w', rn')) ->
  (p <= pos)%N /\ ((pos <= log_head L)%N -> p = pos).
Proof.
  intros Hlog. induction fuel as [|fuel IH]; intros pos head w rn L S p w' rn' HR; simpl;
    (destruct (N.leb_spec pos head); [intros [= <- _ _]; split; [lia|done]|]); [discriminate|].
  intros Hrun. apply bind_quiet in Hrun as [(e & ? & _)|(raw & w1 & rn1 & Hc & _ & Hrun)]; [done| |by apply quietS_catch; [apply quietS_call, quiet_rawhead|intros; apply quietS_throw]].
  destruct (rawhead_ge _ _ _ _ _ _ _ _ _ Hlog HR Hc) as (L1 & HL1 & HR1 & Hge).
  destruct (N.ltb_spec raw pos); [injection Hrun as <- _ _; split; [lia|lia]|].
  apply bind_quiet in Hrun as [(e & ? & _)|(u & w2 & rn2 & _ & Q2 & Hrun)]; [done| |apply quietS_wait].
  apply bind_quiet in Hrun as [(e & ? & _)|(h & w3 & rn3 & _ & Q3 & Hrun)]; [done| |apply quietS_catch; [apply quietS_call, (ll_head _ _ _ Hlog)|intros; apply quietS_throw]].
  destruct (transitivity Q2 Q3 _ _ HR1) as (L3 & HL3 & HR3). destruct (IH _ _ _ _ _ _ _ _ _ HR3 Hrun) as [Hle Heq]. split; [done|].
  intros Hp. apply Heq. pose proof (fl_sorted s sink rep prompt (rq_Scope req) _ _ _ HR3) as Hs. pose proof (log_head_mono _ _ Hs (transitivity HL1 HL3)). lia.
Qed.

(** The resume position of a stream started on log [L]: the position of a
    checkpoint read during the call, recorded under this definition, or an
    earlier one when the checkpoint lies beyond the log's head. *)
Definition resumed (L S : list Envelope) (from : N) : Prop :=
  exists wa wb La found, rep wa La S
    /\ cs_Checkpoint (Checkpoints s) (rq_Scope req) (rq_Projection req) (rq_Instance req) wa = (Ok found, wb)
    /\ check_definition req (default zero_Checkpoint found) = Ok tt
    /\ (from <= cp_Position (default zero_Checkpoint found))%N
    /\ ((cp_Position (default zero_Checkpoint found) <= log_head L)%N -> from = cp_Position (default zero_Checkpoint found)).

(** What a run of the stream promises: it ended before its loop with nothing
    sent, or it sent the backlog from its resume position on. *)
Definition stream_post (fuel : nat) (L S : list Envelope) (r : res (option stream_state)) (w' : W) : Prop :=
  (exists L', L `prefix_of` L' /\ rep w' L' S /\ forall st, r <> Ok (Some st))
  \/ exists from pos L' S', resumed L S from /\ rep w' L' S' /\ sent_between from pos L S L' S'
      /\ forall st, r = Ok (Some st) -> st_pos st = pos
           /\ (prompt -> forall L0, L0 `prefix_of` L -> (backlog pos L0 <= backlog from L0 - fuel)%nat).

Lemma stream_post_quiet fuel L S w w' r :
  rep w L S -> quiet_step rep w w' -> (forall st, r <> Ok (Some st)) -> stream_post fuel L S r w'.
Proof. intros HR Q Hr. destruct (Q _ _ HR) as (L' & HL & HR'). left. by exists L'. Qed.

Lemma quietS_wrap {A} (m : SM SW A) ctx : quietS m -> quietS (m wrap ctx).
Proof. intros Hm. apply quietS_catch; [done|]. intros e. apply quietS_throw. Qed.

Lemma quiet_open : quiet rep (sv_Logs s (rq_Scope req)).
Proof.
  intros w L S HR. destruct (sv_Logs s (rq_Scope req) w) as [r w'] eqn:HO.
  destruct (fl_open s sink rep prompt (rq_Scope req) _ _ _ _ _ HR HO) as (L' & ? & ? & _). by exists L'.
Qed.

(** Opening gives a lawful log. *)
Lemma open_laws w rn L S log w1 rn1 :
  rep w L S -> (call s req owner (sv_Logs s (rq_Scope req)) wrap "feed: open log") (w, rn) = (Ok log, (w1, rn1)) ->
  LogLaws rep prompt log.
Proof.
  intros HR Ho%catch_Ok. unfold call in Ho. pose proof (yield_quiet (w, rn)) as Q.
  destruct (yield s req owner (w, rn)) as [w0 rn0]. destruct (Q _ _ HR) as (L0 & HL0 & HR0). simpl in HR0.
  destruct (sv_Logs s (rq_Scope req) w0) as [ro wo] eqn:HO. injection Ho as -> <- <-.
  destruct (fl_open s sink rep prompt (rq_Scope req) _ _ _ _ _ HR0 HO) as (L1 & _ & _ & Hlog). by apply Hlog.
Qed.

(** A successful port call ran in some world of the representation. *)
Lemma call_ran {A} (m : SM W A) ctx w rn L S a w1 rn1 :
  rep w L S -> (call s req owner m wrap ctx) (w, rn) = (Ok a, (w1, rn1)) ->
  exists wa wb La, L `prefix_of` La /\ rep wa La S /\ m wa = (Ok a, wb).
Proof.
  intros HR Hc%catch_Ok. unfold call in Hc. pose proof (yield_quiet (w, rn)) as Q.
  destruct (yield s req owner (w, rn)) as [w0 rn0]. destruct (Q _ _ HR) as (La & HL & HRa). simpl in HRa.
  destruct (m w0) as [x wx] eqn:Hm. injection Hc as -> <- <-. by exists w0, wx, La.
Qed.

Lemma stream_spec fuel batch w rn L S r w' rn' :
  (0 < batch)%Z -> types <> [] -> rep w L S ->
  stream s req owner fuel sink batch (w, rn) = (r, (w', rn')) -> stream_post fuel L S r w'.
Proof.
  intros Hb Ht HR Hrun. unfold stream in Hrun.
  apply bind_quiet in Hrun as [(e & -> & Q)|(log & w1 & rn1 & Ho & Q1 & Hrun)];
    [by eapply stream_post_quiet| |apply quietS_wrap, quietS_call, quiet_open].
  pose proof (open_laws _ _ _ _ _ _ _ HR Ho) as Hlog.
  apply bind_quiet in Hrun as [(e & -> & Q)|(found & w2 & rn2 & Hc & Q2 & Hrun)];
    [eapply stream_post_quiet; [done|by etrans|done]| |apply quietS_wrap, quietS_call, (fl_checkpoint s sink rep prompt (rq_Scope req))].
  destruct (Q1 _ _ HR) as (L1 & _ & HR1). destruct (call_ran _ _ _ _ _ _ _ _ _ HR1 Hc) as (wa & wb & La & _ & HRa & Hcp).
  assert (quiet_step rep w w2) as Q by (by etrans). clear Q1 Q2 Ho.
  unfold bind at 1, lift in Hrun. destruct (check_definition req (default zero_Checkpoint found)) as [[]|e] eqn:Hd.
  2:{ injection Hrun as <- <- <-. by eapply stream_post_quiet. }
  destruct (Q _ _ HR) as (L2 & HL2 & HR2).
  apply bind_quiet in Hrun as [(e & -> & Q')|(hd & w3 & rn3 & Hhd & Q3 & Hrun)];
    [eapply stream_post_quiet; [done|by etrans|done]| |by apply quietS_wrap, quietS_call, (ll_head _ _ _ Hlog)].
  apply bind_quiet in Hrun as [(e & -> & Q')|(pos & w4 & rn4 & Hcl & Q4 & Hrun)];
    [eapply stream_post_quiet; [done|by do 2 (etrans; [eassumption|])|done]| |by apply clamp_quiet].
  assert (quiet_step rep w w4) as Q' by (by do 2 (etrans; [eassumption|])). clear Q Q4.
  destruct pos as [from|]; [|injection Hrun as <- <- <-; by eapply stream_post_quiet].
  destruct (Q3 _ _ HR2) as (L3 & HL3 & HR3).
  destruct (clamp_le _ _ Hlog _ _ _ _ _ _ _ _ _ HR3 Hcl) as [Hle Heq]. destruct (Q' _ _ HR) as (L4 & HL4 & HR4).
  unfold bind in Hrun. destruct (stream_loop _ _ _ _ _ _ _ _ (w4, rn4)) as [rl [w5 rn5]] eqn:Hl.
  destruct (stream_loop_spec _ _ _ _ _ _ _ _ _ _ _ Hlog Hb Ht HR4 Hl) as (L5 & S5 & pos & HR5 & Hsb & Hok).
  simpl in Hsb, Hok. right. exists from, pos, L5, S5.
  split; [exists wa, wb, La, found; repeat (split; [done|]); intros; apply Heq;
    pose proof (log_head_mono _ _ (fl_sorted s sink rep prompt (rq_Scope req) _ _ _ HR3) (transitivity HL2 HL3)); lia|].
  assert (w' = w5) as -> by (by destruct rl; injection Hrun).
  split; [done|]. split; [destruct Hsb; split; [by etrans|done|done]|].
  intros st ->. destruct rl as [st0|e]; [|done]. injection Hrun as -> _. destruct (Hok _ eq_refl) as [Hp Hbl].
  split; [done|]. intros Hpr L0 HL0. apply Hbl; [done|by etrans].
Qed.
End Delivery.

(** ** A subscription *)

Section Subscription.
Context {W : Type} `{FeedEnv W}.
Variable s : Server W.
Variable sink : Sink W.
Variable rep : W -> list Envelope -> list Envelope -> Prop.
Variable prompt : Prop.
Variable req : Request.
Context `{!FeedLaws s sink rep prompt (rq_Scope req)}.

Lemma batchSize_pos n : (0 < batchSize s n)%Z.
Proof. unfold batchSize. destruct (Z.ltb_spec (if (MaxBatch s <? if (n <=? 0)%Z then Batch s else n)%Z
  then MaxBatch s else if (n <=? 0)%Z then Batch s else n) 1); lia. Qed.

Lemma validateDefinition_types : validateDefinition req = Ok tt -> df_Consumes (rq_Definition req) <> [].
Proof. unfold validateDefinition, invalid. repeat case_bool_decide; done. Qed.

Lemma validateRequest_Ok (snk : option (Sink W)) : validateRequest req snk = Ok tt ->
  validateKey (rq_Scope req) (rq_Projection req) (rq_Instance req) = Ok tt /\ df_Consumes (rq_Definition req) <> [].
Proof.
  unfold validateRequest. intros H1. apply result_bind_Ok in H1 as ([] & Hk & H1).
  apply result_bind_Ok in H1 as ([] & Hd & _). split; [done|by apply validateDefinition_types].
Qed.

(** A subscription's outcome is the stream's, whatever the lease calls around it. *)

Abbreviation subscription_post := (stream_post s rep prompt req).

Lemma post_quiet fuel L S r r' w w' :
  subscription_post fuel L S r w -> quiet_step rep w w' -> (forall st, r' <> Ok (Some st)) ->
  subscription_post fuel L S r' w'.
Proof.
  intros [(L1 & HL & HR & _)|(from & pos & L1 & S1 & Hres & HR & Hsb & _)] Q Hr;
    destruct (Q _ _ HR) as (L2 & HL2 & HR2).
  - left. exists L2. split; [by etrans|done].
  - right. exists from, pos, L2, S1. split; [done|]. split; [done|]. split; [|intros st E; by apply Hr in E].
    eapply (sent_grow req); [apply (fl_sorted s sink rep prompt (rq_Scope req) _ _ _ HR2)|done|done].
Qed.

Lemma post_start fuel L S r w w' :
  rep w L S -> quiet_step rep w w' -> (forall st, r <> Ok (Some st)) -> subscription_post fuel L S r w'.
Proof. intros HR Q Hr. destruct (Q _ _ HR) as (L' & HL & HR'). left. by exists L'. Qed.

Lemma post_from fuel L S L1 r w : positions_sorted L1 -> L `prefix_of` L1 ->
  subscription_post fuel L1 S r w -> subscription_post fuel L S r w.
Proof.
  intros Hs HL [(L2 & HL2 & HR & Hr)|(from & pos & L2 & S2 & Hres & HR & [H1 H2 H3] & Hok)].
  - left. exists L2. split; [by etrans|done].
  - right. exists from, pos, L2, S2. split.
    { destruct Hres as (wa & wb & La & found & ? & ? & ? & ? & Heq). exists wa, wb, La, found.
      repeat (split; [done|]). intros Hle. apply Heq. pose proof (log_head_mono _ _ Hs HL). lia. }
    split; [done|]. split; [split; [by etrans|done|done]|].
    intros st Hst. destruct (Hok _ Hst) as [? Hb]. split; [done|]. intros Hpr L0 HL0. apply Hb; [done|by etrans].
Qed.

Lemma owner_quiet w r w1 :
  (if bool_decide (rq_Owner req = EmptyString) then newOwner s else ret (rq_Owner req)) w = (r, w1) ->
  quiet_step rep w w1.
Proof.
  case_bool_decide; [|by intros [= _ <-]]. unfold newOwner. pose proof (fl_clock s sink rep prompt (rq_Scope req) w) as Q1.
  destruct (sv_Clock s w) as [t wa]. pose proof (fl_seq s sink rep prompt (rq_Scope req) wa) as Q2. destruct (fx_seqAdd wa) as [n wb].
  simpl in *. intros [= _ <-]. by etrans.
Qed.

(** What Subscribe does once it holds the lease. *)
Definition run_stream (owner : string) (fuel : nat) : SM W (option stream_state) := fun w =>
  let '(r, (w, rn)) := stream s req owner fuel sink (batchSize s (rq_BatchSize req)) (fx_withCancel w, MkRenewer true None) in
  match r with
  | Ok st => (Ok st, w)
  | Err streamErr =>
      let '(w, rn) := yield s req owner (w, rn) in
      let '(cerr, w) := fx_ctxErr w in
      let err := subscribe_error (rn_lost rn) cerr (Some streamErr) in
      let '(w, _) := yield s req owner (fx_cancel w, rn) in
      match le_Release (Leases s) (rq_Scope req) (rq_Projection req) (rq_Instance req) owner w with
      | (Err rerr, w) => (Err (join_opt err (Errorf "feed: release lease" rerr)), w)
      | (Ok _, w) => (match err with Some e => Err e | None => Ok None end, w)
      end
  end.

Lemma run_stream_spec owner fuel w L S r w' :
  df_Consumes (rq_Definition req) <> [] -> rep w L S ->
  run_stream owner fuel w = (r, w') -> subscription_post fuel L S r w'.
Proof.
  intros Ht HR. unfold run_stream. pose proof (fl_withCancel s sink rep prompt (rq_Scope req) w _ _ HR) as (L0 & HL0 & HR0).
  destruct (stream _ _ _ _ _ _ _) as [rs [w1 rn1]] eqn:Hst.
  apply (stream_spec s sink rep prompt req owner) with (L := L0) (S := S) in Hst as Hpost; [|apply batchSize_pos|done|done].
  apply (post_from _ _ _ _ _ _ (fl_sorted s sink rep prompt (rq_Scope req) _ _ _ HR0) HL0) in Hpost.
  destruct rs as [st|e]; [by intros [= <- <-]|].
  pose proof (yield_quiet s sink rep prompt req owner (w1, rn1)) as Q1. destruct (yield s req owner (w1, rn1)) as [w2 rn2].
  pose proof (fl_ctxErr s sink rep prompt (rq_Scope req) w2) as Q2. destruct (fx_ctxErr w2) as [cerr w3].
  pose proof (fl_cancel s sink rep prompt (rq_Scope req) w3) as Q3.
  pose proof (yield_quiet s sink rep prompt req owner (fx_cancel w3, rn2)) as Q4.
  destruct (yield s req owner (fx_cancel w3, rn2)) as [w4 rn4].
  pose proof (fl_release s sink rep prompt (rq_Scope req) (rq_Scope req) (rq_Projection req) (rq_Instance req) owner w4) as Q5.
  destruct (le_Release _ _ _ _ _ w4) as [rr w5]. simpl in *.
  assert (quiet_step rep w1 w5) as Q by (do 4 (etrans; [eassumption|]); eassumption).
  intros Hr. assert (w' = w5 /\ forall st, r <> Ok (Some st)) as [-> Hne].
  { destruct rr; injection Hr as <- <-; (split; [done|]); intros st; [by case_goal|done]. }
  by eapply post_quiet.
Qed.

Lemma Subscribe_spec fuel w L S r w' :
  rep w L S -> Subscribe s fuel req (Some sink) w = (r, w') -> subscription_post fuel L S r w'.
Proof.
  intros HR. unfold Subscribe. unfold bind at 1, lift.
  destruct (validateRequest req (Some sink)) as [[]|e] eqn:Hv.
  2:{ intros [= <- <-]. by eapply post_start. }
  apply validateRequest_Ok in Hv as [_ Ht]. unfold bind at 1.
  destruct ((if bool_decide (rq_Owner req = EmptyString) then newOwner s else ret (rq_Owner req)) w) as [ro w1] eqn:Ho.
  pose proof (owner_quiet _ _ _ Ho) as Q1. destruct ro as [owner|e].
  2:{ intros [= <- <-]. by eapply post_start. }
  pose proof (fl_acquire s sink rep prompt (rq_Scope req) (rq_Scope req) (rq_Projection req) (rq_Instance req) owner (rq_Consumer req) (LeaseTTL s) w1) as Q2.
  destruct (le_Acquire _ _ _ _ _ _ _ w1) as [[acquired aerr] w2]. simpl in Q2.
  assert (quiet_step rep w w2) as Q by (by etrans). destruct aerr as [err|].
  - destruct acquired; [|intros [= <- <-]; by eapply post_start].
    pose proof (fl_release s sink rep prompt (rq_Scope req) (rq_Scope req) (rq_Projection req) (rq_Instance req) owner w2) as Q3.
    destruct (le_Release _ _ _ _ _ w2) as [[[]|re] w3]; intros [= <- <-]; (eapply post_start; [done|by etrans|done]).
  - destruct acquired; simpl.
    + intros Hrun. destruct (Q _ _ HR) as (L2 & HL2 & HR2). eapply post_from; [by apply (fl_sorted s sink rep prompt (rq_Scope req) _ _ _ HR2)|exact HL2|].
      by eapply (run_stream_spec owner).
    + pose proof (fl_holder s sink rep prompt (rq_Scope req) (rq_Scope req) (rq_Projection req) (rq_Instance req) w2) as Q3.
      destruct (le_Holder _ _ _ _ w2) as [[h|he] w3]; intros [= <- <-]; (eapply post_start; [done|by etrans|done]).
Qed.
End Subscription.
