(* ===== verification/SqliteFeed.v ===== *)
(** * The feed's SQLite adapters (src/sqlite/feed.go)

    The log reads, checkpoints, dead letters and leases of the feed over the
    tables of Sqlite.v.  Each method is one statement (ReadAllBounded and
    Record are two). *)
From S2P Require Import Prelude Es Timestamp Effect Sql Sqlite Definitions FeedPorts.

(** ** Table updates *)

Definition set_feed_checkpoints (m : gmap (string * string * string) FeedCheckpointRow) (db : DB) : DB :=
  MkDB (d_events db) (d_sequence db) (d_unique_claims db) (d_checkpoints db) (d_anchors db)
    m (d_feed_leases db) (d_feed_dead_letters db) (d_schema_migrations db).

Definition set_feed_leases (m : gmap string LeaseRow) (db : DB) : DB :=
  MkDB (d_events db) (d_sequence db) (d_unique_claims db) (d_checkpoints db) (d_anchors db)
    (d_feed_checkpoints db) m (d_feed_dead_letters db) (d_schema_migrations db).

Definition set_feed_dead_letters (m : gmap (string * string * string * N) DeadLetterRow) (db : DB) : DB :=
  MkDB (d_events db) (d_sequence db) (d_unique_claims db) (d_checkpoints db) (d_anchors db)
    (d_feed_checkpoints db) (d_feed_leases db) m (d_schema_migrations db).

(** COALESCE(MAX(global_position), 0). *)
Definition max_position (rows : list EventRow) : N :=
  foldr (fun r m => N.max (r_global_position r) m) 0%N rows.

(** length(payload). *)
Definition row_size (r : EventRow) : Z := Z.of_nat (length (r_payload r)).

Section Feed.
Context `{UuidLib} `{Env}.

(** The store's payload cap, as in Sqlite.v. *)
Variable maxPayloadBytes : Z.

(** ** The log *)

Definition Head : M DB N := query (fun db => Ok (max_position (d_events db))) wrap "sqlite: head".

Definition RawHead : M DB N := query (fun db => Ok (max_position (d_events db))) wrap "sqlite: raw head".

Definition MatchingHead (types : list string) : M DB N :=
  if bool_decide (types = []) then ret 0%N else
  query (fun db => Ok (max_position (filter (fun r => r_type_url r ∈ types) (d_events db))))
    wrap "sqlite: matching head".

(** Step 1's rows: SELECT ... WHERE global_position > ? AND type_url IN (...)
    ORDER BY global_position LIMIT ?. *)
Definition page_rows (from : N) (limit : Z) (types : list string) (db : DB) : list EventRow :=
  take (Z.to_nat limit) (order_by r_global_position
    (filter (fun r => (from < r_global_position r)%N /\ r_type_url r ∈ types) (d_events db))).

(** The count/budget/cap selection over step 1's rows: chosen positions,
    running total and whether the page was cut. *)
Fixpoint select_page (maxBytes : Z) (rows : list EventRow) (positions : list N) (total : Z) : res (list N * bool) :=
  match rows with
  | [] => Ok (positions, false)
  | r :: rows' =>
      let size := row_size r in
      if bool_decide (positions = []) && (0 <? maxPayloadBytes)%Z && (maxPayloadBytes <? size)%Z
      then Err (EventTooLargeError (r_global_position r) (r_type_url r) size maxPayloadBytes)
      else if negb (bool_decide (positions = []))
              && (((0 <? maxPayloadBytes)%Z && (maxPayloadBytes <? size)%Z)
                  || ((0 <? maxBytes)%Z && (maxBytes <? total + size)%Z))
      then Ok (positions, true)
      else select_page maxBytes rows' (positions ++ [r_global_position r]) (total + size)%Z
  end.

Definition ReadAllBounded (from : N) (limit maxBytes : Z) (types : list string) : M DB (list Envelope * bool) :=
  if bool_decide (types = []) then ret ([], false) else
  let limit := if (limit <=? 0)%Z then 100%Z else limit in
  let! rows := (let! _ := lift (bind_uint64 from) in
                query (fun db => Ok (page_rows from limit types db))) wrap "sqlite: read feed" in
  let! (positions, truncated) := lift (select_page maxBytes rows [] 0) in
  if bool_decide (positions = []) then ret ([], false) else
  let! out := queryEnvelopes (fun db =>
      order_by r_global_position (filter (fun r => r_global_position r ∈ positions) (d_events db)))
    wrap "sqlite: read feed" in
  ret (out, truncated).

(** ** Checkpoints *)

Definition checkpoint_Load (scope projection instance : string) : M DB N :=
  let! row := query (fun db => Ok (d_feed_checkpoints db !! (scope, projection, instance)))
              wrap "sqlite: checkpoints: load" in
  match row with
  | None => ret 0%N
  | Some r => ret (fc_position r)
  end.

(** The upsert of Save and Reset; [merge old new] is the position kept. *)
Definition upsert_checkpoint (merge : N -> N -> N) (scope projection instance definition : string)
    (position : N) (updated : string) (db : DB) : res (unit * DB) :=
  let k := (scope, projection, instance) in
  let row := match d_feed_checkpoints db !! k with
             | None => MkFeedCheckpointRow position updated definition
             | Some old => MkFeedCheckpointRow (merge (fc_position old) position) updated
                             (if bool_decide (definition = EmptyString) then fc_definition_hash old else definition)
             end in
  Ok (tt, set_feed_checkpoints (<[k := row]> (d_feed_checkpoints db)) db).

Definition checkpoint_Save (scope projection instance definition : string) (position : N) : M DB unit :=
  let! now := Now in
  (let! _ := lift (bind_uint64 position) in
   exec (upsert_checkpoint N.max scope projection instance definition position (formatTS now)))
  wrap "sqlite: checkpoints: save".

Definition checkpoint_Reset (scope projection instance definition : string) (position : N) : M DB unit :=
  let! now := Now in
  (let! _ := lift (bind_uint64 position) in
   exec (upsert_checkpoint (fun _ new => new) scope projection instance definition position (formatTS now)))
  wrap "sqlite: checkpoints: reset".

Definition checkpoint_Delete (scope projection instance : string) : M DB unit :=
  exec (fun db => Ok (tt, set_feed_checkpoints (delete (scope, projection, instance) (d_feed_checkpoints db)) db))
  wrap "sqlite: checkpoints: delete".

Definition checkpoint_Checkpoint (scope projection instance : string) : M DB (option Checkpoint) :=
  let! row := query (fun db => Ok (d_feed_checkpoints db !! (scope, projection, instance)))
              wrap "sqlite: checkpoints: read" in
  match row with
  | None => ret None
  | Some r =>
      match parseTS (fc_updated_at r) with
      | Err e => throw (Errorf "sqlite: checkpoints: parse updated_at" e)
      | Ok t => ret (Some (MkCheckpoint (fc_position r) (fc_definition_hash r) t))
      end
  end.

(** ** Dead letters *)

(** SELECT type_url, length(payload) FROM events WHERE global_position = ?. *)
Definition name_event (position : N) (db : DB) : option (string * Z) :=
  (fun r => (r_type_url r, row_size r)) <$> head (filter (fun r => r_global_position r = position) (d_events db)).

Definition dead_letter_Record (dl : DeadLetter) : M DB unit :=
  let! (typeURL, size) :=
    if bool_decide (dlt_TypeURL dl = EmptyString) then
      let! row := (let! _ := lift (bind_uint64 (dlt_Position dl)) in
                   query (fun db => Ok (name_event (dlt_Position dl) db)))
                  wrap "sqlite: dead letters: name the event" in
      ret (default (EmptyString, 0%Z) row)
    else ret (dlt_TypeURL dl, dlt_SizeBytes dl) in
  let! createdAt := if IsZero (dlt_CreatedAt dl) then Now else ret (dlt_CreatedAt dl) in
  (let! _ := lift (bind_uint64 (dlt_Position dl)) in
   exec (fun db => Ok (tt, set_feed_dead_letters
     (<[(dlt_Scope dl, dlt_Projection dl, dlt_Instance dl, dlt_Position dl) :=
         MkDeadLetterRow typeURL size (dlt_Reason dl) (dlt_Actor dl) (formatTS createdAt)]> (d_feed_dead_letters db)) db)))
  wrap "sqlite: dead letters: record".

(** ** Leases *)

Definition NUL : string := String Ascii.zero EmptyString.

Definition leaseKey (scope projection instance : string) : string :=
  (scope ++ NUL ++ projection ++ NUL ++ instance)%string.

(** t.UnixNano(), undefined outside int64 and wrapping in practice. *)
Definition UnixNano (t : time) : Z := i64 t.

(** INSERT ... ON CONFLICT DO UPDATE ... WHERE; the number of rows affected. *)
Definition upsert_lease (key owner consumer : string) (expires now : Z) (db : DB) : res (Z * DB) :=
  let take := Ok (1%Z, set_feed_leases (<[key := MkLeaseRow owner consumer expires]> (d_feed_leases db)) db) in
  match d_feed_leases db !! key with
  | None => take
  | Some r =>
      if bool_decide (lr_owner r = owner) || (lr_expires_at_ns r <=? now)%Z then take else Ok (0%Z, db)
  end.

Definition lease_Acquire (scope projection instance owner consumer : string) (ttl : Z) : M DB bool :=
  let! now := Now in
  let! n := exec (upsert_lease (leaseKey scope projection instance) owner consumer (UnixNano (now + ttl)) (UnixNano now))
            wrap "sqlite: leases: acquire" in
  ret (n =? 1)%Z.

Definition lease_Renew (scope projection instance owner : string) (ttl : Z) : M DB bool :=
  let! now := Now in
  let! n := exec (fun db =>
              let key := leaseKey scope projection instance in
              match d_feed_leases db !! key with
              | Some r => if bool_decide (lr_owner r = owner)
                          then Ok (1%Z, set_feed_leases
                                 (<[key := MkLeaseRow owner (lr_consumer r) (UnixNano (now + ttl))]> (d_feed_leases db)) db)
                          else Ok (0%Z, db)
              | None => Ok (0%Z, db)
              end) wrap "sqlite: leases: renew" in
  ret (n =? 1)%Z.

Definition lease_Release (scope projection instance owner : string) : M DB unit :=
  exec (fun db =>
    let key := leaseKey scope projection instance in
    match d_feed_leases db !! key with
    | Some r => if bool_decide (lr_owner r = owner)
                then Ok (tt, set_feed_leases (delete key (d_feed_leases db)) db) else Ok (tt, db)
    | None => Ok (tt, db)
    end) wrap "sqlite: leases: release".

Definition lease_Holder (scope projection instance : string) : M DB (option Lease) :=
  let! now := Now in
  let! row := query (fun db =>
      Ok (match d_feed_leases db !! leaseKey scope projection instance with
          | Some r => if (UnixNano now <? lr_expires_at_ns r)%Z then Some r else None
          | None => None
          end)) wrap "sqlite: leases: holder" in
  ret ((fun r => MkLease (lr_owner r) (lr_consumer r) (lr_expires_at_ns r)) <$> row).
End Feed.
