(* ===== verification/SqliteFeedCorrect.v ===== *)
(** * The feed's SQLite adapters against the log invariant

    Heads and pages of a database that satisfies [log_inv], exactly; the page
    selection's bounds; the lease and checkpoint statements as functions of
    the stored row. *)
From S2P Require Import Prelude Sha256 Es Hash Chain Anchor Timestamp Effect Store Sql Sqlite.
From S2P Require Import SqliteCorrect SqliteTheorems Definitions FeedPorts Feed FeedContract.
From S2P Require Import SqliteFeed.

(** ** Page selection *)

Section Select.
Variables cap maxBytes : Z.

Definition sizes (rows : list EventRow) : Z := foldr (fun r n => row_size r + n)%Z 0%Z rows.

(** What a selection keeps of its input rows. *)
Record selected (rows : list EventRow) (positions : list N) (total : Z) (positions' : list N) (truncated : bool) (k : nat) : Prop := {
  sl_positions : positions' = positions ++ map r_global_position (take k rows);
  sl_len : (k <= length rows)%nat;
  sl_cut : if truncated then (k < length rows)%nat else k = length rows;
  sl_first : positions = [] -> rows <> [] -> (0 < k)%nat;
  sl_cap : (0 < cap)%Z -> Forall (fun r => row_size r <= cap)%Z (take k rows);
  sl_budget : (0 < maxBytes)%Z ->
    (total + sizes (take k rows) <= maxBytes)%Z \/ (k <= if bool_decide (positions = []) then 1 else 0)%nat
}.

Lemma select_page_spec rows : forall positions total,
  match select_page cap maxBytes rows positions total with
  | Ok (positions', truncated) => exists k, selected rows positions total positions' truncated k
  | Err e => positions = [] /\ exists r rows', rows = r :: rows' /\ (0 < cap < row_size r)%Z
      /\ e = EventTooLargeError (r_global_position r) (r_type_url r) (row_size r) cap
  end.
Proof.
  induction rows as [|r rows IH]; intros positions total; simpl.
  { exists O. split; simpl; try done; [by rewrite app_nil_r|]. intros _. right. lia. }
  destruct (bool_decide (positions = []) && (0 <? cap)%Z && (cap <? row_size r)%Z) eqn:E.
  { rewrite !andb_true_iff, bool_decide_eq_true, !Z.ltb_lt in E. destruct E as [[-> ?] ?]. split; [done|]. by exists r, rows. }
  destruct (negb _ && _) eqn:E0.
  { rewrite andb_true_iff, negb_true_iff, bool_decide_eq_false in E0. destruct E0 as [Hne _].
    exists O. split; simpl; try done; try lia; [by rewrite app_nil_r]. }
  specialize (IH (positions ++ [r_global_position r]) (total + row_size r)%Z).
  destruct (select_page _ _ rows _ _) as [[ps' tr]|e]; [|destruct IH as [Hne _]; by destruct positions].
  destruct IH as [k [Hp Hl Hc Hf Hcap Hb]]. exists (S k).
  rewrite bool_decide_false in Hb by (by destruct positions). split; simpl.
  - by rewrite Hp, <- app_assoc.
  - lia.
  - destruct tr; lia.
  - lia.
  - intros Hpos. constructor; [|auto]. destruct (bool_decide (positions = [])) eqn:Hp0; simpl in *.
    + rewrite andb_false_iff, !Z.ltb_ge in E. lia.
    + rewrite !orb_false_iff, !andb_false_iff, !Z.ltb_ge in E0. lia.
  - intros Hpos. specialize (Hb Hpos). destruct (bool_decide (positions = [])) eqn:Hp0; simpl in *.
    + destruct Hb; [left|right]; lia.
    + rewrite !orb_false_iff, !andb_false_iff, !Z.ltb_ge in E0.
      destruct Hb; [left; lia|left]. replace k with O by lia. simpl. lia.
Qed.
End Select.

(** ** The log *)

Lemma sorted_nodup {A} (key : A -> N) l : StronglySorted (fun a b => key a < key b)%N l -> NoDup l.
Proof.
  induction 1 as [|x l Hs IH Hx]; constructor; [|done]. intros Hin. rewrite Forall_forall in Hx.
  specialize (Hx x Hin). lia.
Qed.

(** Re-selecting a sorted sublist by its keys gives the sublist. *)
Lemma filter_by_keys {A} (key : A -> N) (l X : list A) :
  StronglySorted (fun a b => key a < key b)%N l -> X `sublist_of` l ->
  filter (fun x => key x ∈ map key X) l = X.
Proof.
  intros Hs HX.
  assert (StronglySorted (fun a b => key a < key b)%N X) as HsX.
  { clear -Hs HX. revert Hs. induction HX as [|x l1 l2 H IH|x l1 l2 H IH]; intros Hs; [done| |];
      apply StronglySorted_cons in Hs as [Hx Hs]; [|by apply IH].
    constructor; [by apply IH|]. rewrite Forall_forall in *. intros y Hy. apply Hx.
    by eapply sublist_subseteq in Hy. }
  assert (forall x y, x ∈ l -> y ∈ l -> key x = key y -> x = y) as Hinj.
  { clear -Hs. intros x y. induction Hs as [|z l Hs IH Hz]; [by intros ?%not_elem_of_nil|].
    rewrite Forall_forall in Hz. rewrite !elem_of_cons. intros [->|Hx] [->|Hy] E; auto.
    - specialize (Hz _ Hy). lia.
    - specialize (Hz _ Hx). lia. }
  apply (StronglySorted_unique_strong (fun a b => key a < key b)%N); [lia| |done|].
  - by apply sorted_filter.
  - apply NoDup_Permutation; [apply NoDup_filter; by eapply sorted_nodup|by eapply sorted_nodup|].
    intros x. rewrite list_elem_of_filter. split.
    + intros [(y & Hk & Hy)%list_elem_of_fmap Hx]. rewrite (Hinj x y); [done|done| |done].
      by eapply sublist_subseteq in Hy.
    + intros Hx. split; [by apply list_elem_of_fmap_2|]. by eapply sublist_subseteq in Hx.
Qed.

Section Log.
Context `{UuidLib} `{Env}.
Variable cap : Z.
Variables (w : world DB) (envs : list Envelope).
Hypothesis Hinv : log_inv (w_db w) envs.

Lemma log_sorted : positions_sorted envs.
Proof. by eapply numbered_sorted, (li_positions _ _ Hinv). Qed.

(** An ordered SELECT over the whole log. *)
Lemma select_log (P : EventRow -> Prop) (Q : Envelope -> Prop)
    `{!forall r, Decision (P r)} `{!forall e, Decision (Q e)} :
  (forall e, e ∈ envs -> P (stored e) <-> Q e) ->
  order_by r_global_position (filter P (d_events (w_db w))) = map stored (filter Q envs).
Proof.
  intros HPQ. rewrite (li_rows _ _ Hinv), (filter_map_comm stored P Q) by done. apply order_by_sorted.
  apply sorted_map with (R := fun a b => (GlobalPosition a < GlobalPosition b)%N); [done|].
  apply sorted_filter, log_sorted.
Qed.

Lemma page_rows_stored from limit types :
  page_rows from limit types (w_db w) = map stored (take (Z.to_nat limit) (matching types from envs)).
Proof.
  unfold page_rows. rewrite (select_log _ (fun e => (from < GlobalPosition e)%N /\ TypeURL e ∈ types)) by done.
  change (map stored ?l) with (stored <$> l). by rewrite <- fmap_take.
Qed.

Lemma max_position_app l r : max_position (l ++ [r]) = N.max (max_position l) (r_global_position r).
Proof.
  unfold max_position. induction l as [|x l IH]; simpl; [lia|]. rewrite IH. lia.
Qed.

(** MAX(global_position) over a filtered log is its last position. *)
Lemma max_position_last l :
  positions_sorted l -> max_position (map stored l) = default 0%N (GlobalPosition <$> last l).
Proof.
  induction l as [|e l IH] using rev_ind; intros Hs; [done|]. rewrite map_app.
  change (map stored [e]) with [stored e]. rewrite max_position_app, last_snoc. simpl.
  apply StronglySorted_app in Hs as (Hlt & Hs & _). rewrite IH by done.
  destruct (last l) as [x|] eqn:Hl; simpl; [|lia]. apply last_Some_elem_of in Hl.
  specialize (Hlt x e Hl ltac:(by left)). lia.
Qed.

Lemma Head_run : fault (w_tick w) = None ->
  Head w = (Ok (default 0%N (GlobalPosition <$> last envs)), tick w).
Proof.
  intros Hf. unfold Head, catch, query, exec. rewrite Hf. simpl. rewrite (li_rows _ _ Hinv), max_position_last; [done|].
  apply log_sorted.
Qed.

Lemma MatchingHead_run types : types <> [] -> fault (w_tick w) = None ->
  MatchingHead types w = (Ok (default 0%N (GlobalPosition <$> last (filter (fun e => TypeURL e ∈ types) envs))), tick w).
Proof.
  intros Ht Hf. unfold MatchingHead. rewrite bool_decide_false by done. unfold catch, query, exec. rewrite Hf. simpl.
  rewrite (li_rows _ _ Hinv), (filter_map_comm stored _ (fun e => TypeURL e ∈ types)) by done.
  rewrite max_position_last; [done|]. apply sorted_filter, log_sorted.
Qed.

(** What a page holds. *)
Record page_of (from : N) (limit maxBytes : Z) (types : list string) (page : list Envelope) (truncated : bool) : Prop := {
  po_page : is_page types from limit envs page truncated;
  po_truncated : truncated = true -> page <> matching types from envs;
  po_cap : (0 < cap)%Z -> Forall (fun e => Z.of_nat (length (Payload e)) <= cap)%Z page;
  po_budget : (0 < maxBytes)%Z -> (foldr (fun e n => Z.of_nat (length (Payload e)) + n) 0 page <= maxBytes)%Z \/ (length page <= 1)%nat
}.

Lemma ReadAllBounded_pure from limit maxBytes types : pure_db (ReadAllBounded cap from limit maxBytes types).
Proof. unfold ReadAllBounded, queryEnvelopes. auto 20 with eslite. Qed.

Lemma sizes_stored l : sizes (map stored l) = foldr (fun e n => Z.of_nat (length (Payload e)) + n)%Z 0%Z l.
Proof. induction l as [|e l IH]; [done|]. cbn [map sizes foldr] in *. by rewrite <- IH. Qed.

(** The selected rows, fetched. *)
Lemma fetch_positions from limit types k :
  order_by r_global_position (filter (fun r => r_global_position r ∈
      map r_global_position (take k (map stored (take limit (matching types from envs))))) (d_events (w_db w)))
  = map stored (take k (take limit (matching types from envs))).
Proof.
  set (X := take k (take limit (matching types from envs))).
  assert (map r_global_position (take k (map stored (take limit (matching types from envs)))) = map GlobalPosition X) as ->.
  { change (map stored ?l) with (stored <$> l). rewrite <- fmap_take. fold X.
    change (map r_global_position ?l) with (r_global_position <$> l). by rewrite <- list_fmap_compose. }
  rewrite (select_log _ (fun e => GlobalPosition e ∈ map GlobalPosition X)) by done.
  f_equal. apply filter_by_keys; [apply log_sorted|]. unfold X.
  etrans; [apply sublist_take|]. etrans; [apply sublist_take|]. apply sublist_filter.
Qed.

Lemma page_of_selected from limit maxBytes types ps tr k :
  (0 < limit)%Z -> selected cap maxBytes (map stored (take (Z.to_nat limit) (matching types from envs))) [] 0 ps tr k ->
  page_of from limit maxBytes types (take k (take (Z.to_nat limit) (matching types from envs))) tr.
Proof.
  intros Hl [_ Hlen Hcut Hfirst Hcap Hbud]. set (M := matching types from envs) in *.
  rewrite length_map, length_take in *.
  assert (length (take k (take (Z.to_nat limit) M)) = k) as HkL by (rewrite !length_take; lia).
  assert (take k (map stored (take (Z.to_nat limit) M)) = map stored (take k (take (Z.to_nat limit) M))) as Hmt.
  { symmetry. apply fmap_take. }
  rewrite Hmt in Hcap, Hbud. split.
  - split.
    + fold M. rewrite take_take. apply prefix_take.
    + rewrite HkL. lia.
    + fold M. intros Hn. rewrite Hn in HkL. simpl in HkL. destruct M as [|x M]; [done|]. exfalso.
      assert (0 < k)%nat; [|lia]. apply Hfirst; [done|]. destruct (Z.to_nat limit) eqn:E; [lia|done].
    + intros -> Hlt. fold M. rewrite HkL in Hlt. rewrite take_take, take_ge; [done|]. lia.
  - intros -> E. fold M in E. rewrite E in HkL. lia.
  - intros Hpos. specialize (Hcap Hpos). by rewrite Forall_map in Hcap.
  - intros Hpos. specialize (Hbud Hpos). rewrite sizes_stored in Hbud. rewrite bool_decide_true in Hbud by done.
    rewrite HkL. destruct Hbud; [left; lia|by right].
Qed.

Lemma ReadAllBounded_spec from limit maxBytes types page tr w' :
  (0 < limit)%Z -> types <> [] -> ReadAllBounded cap from limit maxBytes types w = (Ok (page, tr), w') ->
  page_of from limit maxBytes types page tr.
Proof.
  intros Hl Ht Hrun. unfold ReadAllBounded in Hrun. rewrite bool_decide_false in Hrun by done.
  rewrite (proj2 (Z.leb_gt _ _) Hl) in Hrun. run_ok Hrun.
  injection Hm0 as _ <-. apply query_Ok in Hm as [[= <-] Hdb]. rewrite page_rows_stored in Hm1.
  injection Hm1 as Hsel <-. destruct a1 as [ps t1].
  pose proof (select_page_spec cap maxBytes (map stored (take (Z.to_nat limit) (matching types from envs))) [] 0) as Hspec.
  rewrite Hsel in Hspec. destruct Hspec as [k Hs].
  pose proof (page_of_selected _ _ _ _ _ _ _ Hl Hs) as Hpo. destruct Hs as [Hps Hlen Hcut Hfirst _ _]. simpl in Hps.
  destruct (bool_decide (ps = [])) eqn:Hbd.
  - injection Hrun as <- <- <-. apply bool_decide_eq_true in Hbd. rewrite Hps in Hbd.
    apply map_eq_nil in Hbd. rewrite length_map in *.
    destruct (take (Z.to_nat limit) (matching types from envs)) as [|x M] eqn:HM.
    + rewrite take_nil in Hpo. destruct t1; [simpl in Hcut; lia|done].
    + destruct k; [|done]. exfalso. specialize (Hfirst eq_refl). apply (Nat.lt_irrefl 0), Hfirst. done.
  - run_ok Hrun. injection Hrun as <- <- <-. apply query_Ok in Hm as [Hq _].
    rewrite Hdb, Hps, fetch_positions, scan_stored in Hq.
    + by injection Hq as <-.
    + apply (in_log_wf w envs Hinv). intros e (i & He & _)%elem_of_take.
      apply list_elem_of_lookup_2 in He. apply elem_of_take in He as (j & He & _). apply list_elem_of_lookup_2 in He.
      by apply list_elem_of_filter in He as [_ He].
Qed.

(** A read that cannot fail returns a page, or names the oversized event at the
    front of the backlog. *)
Lemma ReadAllBounded_total from limit maxBytes types :
  no_fault -> (0 < limit)%Z -> types <> [] -> (from <= max_int64)%N ->
  match (ReadAllBounded cap from limit maxBytes types w).1 with
  | Ok (page, tr) => page_of from limit maxBytes types page tr
  | Err e => exists x rest, matching types from envs = x :: rest /\ (0 < cap < Z.of_nat (length (Payload x)))%Z
      /\ e = EventTooLargeError (GlobalPosition x) (TypeURL x) (Z.of_nat (length (Payload x))) cap
  end.
Proof.
  intros Hnf Hl Ht Hfr. destruct (ReadAllBounded cap from limit maxBytes types w) as [[[page tr]|e] w'] eqn:Hrun; simpl.
  { by eapply ReadAllBounded_spec. }
  revert Hrun. unfold ReadAllBounded. rewrite bool_decide_false by done. rewrite (proj2 (Z.leb_gt _ _) Hl).
  unfold bind at 1, catch at 1, bind at 1, lift at 1, bind_uint64. rewrite (proj2 (N.leb_le _ _) Hfr).
  unfold query at 1, exec at 1. rewrite Hnf. cbn [result_bind]. rewrite page_rows_stored. unfold bind at 1, lift.
  pose proof (select_page_spec cap maxBytes (map stored (take (Z.to_nat limit) (matching types from envs))) [] 0) as Hspec.
  destruct (select_page _ _ _ _ _) as [[ps t1]|e1].
  2:{ intros [= <- _]. destruct Hspec as (_ & r & rows & Hrows & Hcap & ->).
      destruct (matching types from envs) as [|x rest]; [by rewrite take_nil in Hrows|].
      destruct (Z.to_nat limit); [done|]. injection Hrows as <- _. by exists x, rest. }
  destruct Hspec as [k [Hps _ _ _ _ _]]. simpl in Hps. case_goal; [done|].
  unfold bind, catch, queryEnvelopes, query, exec. rewrite Hnf. simpl.
  rewrite Hps, fetch_positions, scan_stored; [done|].
  apply (in_log_wf w envs Hinv). intros e0 (i & He & _)%elem_of_take.
  apply list_elem_of_lookup_2 in He. apply elem_of_take in He as (j & He & _). apply list_elem_of_lookup_2 in He.
  by apply list_elem_of_filter in He as [_ He].
Qed.
End Log.
