(* ===== verification/FeedSqlite.v ===== *)
(** * The feed server over the SQLite adapters

    The assembled feed: the server of Feed.v with the ports of SqliteFeed.v,
    in a world with other processes.  Before every port call the next pending
    action of another process runs; the ticker fires as often as a script
    says; the caller's context ends at a given instant.  The adapters
    discharge the contract of FeedContract.v. *)
From S2P Require Import Prelude Sha256 Es Hash Chain Anchor Timestamp Effect Store Sql Sqlite.
From S2P Require Import SqliteCorrect SqliteTheorems Definitions FeedPorts Feed FeedConfig FeedContract.
From S2P Require Import FeedCorrect SqliteFeed SqliteFeedCorrect.

Record fworld := MkFworld {
  fw_world : world DB;
  fw_sent : list Envelope;            (** what the sink accepted *)
  fw_signals : list signal;           (** what the observer saw *)
  fw_others : list (M DB unit);       (** pending actions of other processes *)
  fw_ticks : list nat;                (** ticker firings per port call *)
  fw_until : option nat;              (** the tick at which the caller's context ends, if it does *)
  fw_cancelled : bool;                (** runCtx was cancelled *)
  fw_seq : N;
  fw_delivered : bool                 (** the variable a reconnecting feed's closure captures *)
}.

Definition set_world (x : world DB) (w : fworld) : fworld :=
  MkFworld x (fw_sent w) (fw_signals w) (fw_others w) (fw_ticks w) (fw_until w) (fw_cancelled w) (fw_seq w) (fw_delivered w).

Section Instance.
Context `{UuidLib} `{Env}.
Variable cap : Z.

(** The next pending action of another process, if any. *)
Definition others_step (w : fworld) : fworld :=
  match fw_others w with
  | [] => w
  | m :: ms => MkFworld (m (fw_world w)).2 (fw_sent w) (fw_signals w) ms (fw_ticks w) (fw_until w) (fw_cancelled w) (fw_seq w) (fw_delivered w)
  end.

Definition on_db {A} (m : M DB A) : SM fworld A := fun w =>
  let w := others_step w in
  let '(a, x) := m (fw_world w) in (a, set_world x w).

Definition ctx_err (w : fworld) : option error :=
  match fw_until w with
  | Some n => if (n <=? w_tick (fw_world w))%nat then Some (Sentinel Canceled) else None
  | None => None
  end.

Definition run_err (w : fworld) : option error :=
  if fw_cancelled w then Some (Sentinel Canceled) else ctx_err w.

Definition tick_world (w : fworld) : fworld := set_world (tick (fw_world w)) w.

#[global] Instance sqlite_feed_env : FeedEnv fworld := {
  fx_Now w := (clock (w_tick (fw_world w)), tick_world w);
  fx_ctxErr w := (ctx_err w, w);
  fx_runErr w := (run_err w, w);
  fx_withCancel w := MkFworld (fw_world w) (fw_sent w) (fw_signals w) (fw_others w) (fw_ticks w) (fw_until w) false (fw_seq w) (fw_delivered w);
  fx_cancel w := MkFworld (fw_world w) (fw_sent w) (fw_signals w) (fw_others w) (fw_ticks w) (fw_until w) true (fw_seq w) (fw_delivered w);
  fx_timer d w := match run_err w with Some e => (Err e, w) | None => (Ok tt, tick_world (others_step w)) end;
  fx_ticks w := match fw_ticks w with
                | [] => (O, w)
                | n :: ns => (n, MkFworld (fw_world w) (fw_sent w) (fw_signals w) (fw_others w) ns (fw_until w) (fw_cancelled w) (fw_seq w) (fw_delivered w))
                end;
  fx_seqAdd w := let n := u64 (fw_seq w + 1) in
                 (n, MkFworld (fw_world w) (fw_sent w) (fw_signals w) (fw_others w) (fw_ticks w) (fw_until w) (fw_cancelled w) n (fw_delivered w));
  fx_randRead w := (Ok (be 8 (N.of_nat (w_tick (fw_world w)))), tick_world w);
  fx_jitter d w := (d, w)
}.

Definition sqlite_Checkpoints : CheckpointStore fworld := {|
  cs_Load s p i := on_db (checkpoint_Load s p i);
  cs_Save s p i d pos := on_db (checkpoint_Save s p i d pos);
  cs_Reset s p i d pos := on_db (checkpoint_Reset s p i d pos);
  cs_Delete s p i := on_db (checkpoint_Delete s p i);
  cs_Checkpoint s p i := on_db (checkpoint_Checkpoint s p i)
|}.

Definition sqlite_Leases : LeaseStore fworld := {|
  le_Acquire s p i owner consumer ttl w :=
    match on_db (lease_Acquire s p i owner consumer ttl) w with
    | (Ok b, w) => (b, None, w)
    | (Err e, w) => (false, Some e, w)
    end;
  le_Renew s p i owner ttl := on_db (lease_Renew s p i owner ttl);
  le_Release s p i owner := on_db (lease_Release s p i owner);
  le_Holder s p i := on_db (lease_Holder s p i)
|}.

Definition sqlite_Log : Log fworld := {|
  lg_ReadAllBounded from limit maxBytes types := on_db (ReadAllBounded cap from limit maxBytes types);
  lg_Head := on_db Head;
  lg_RawHead := on_db RawHead;
  lg_MatchingHead types := on_db (MatchingHead types)
|}.

Definition sqlite_DeadLetters : DeadLetterStore fworld := fun dl => on_db (dead_letter_Record dl).

(** Logs.Open: every scope opens the same log. *)
Definition sqlite_Open : Logs fworld := fun _ => ret sqlite_Log.

(** An observer that records, and a sink that refuses what [accept] refuses. *)
Definition record_signal : Observer fworld := fun x w =>
  MkFworld (fw_world w) (fw_sent w) (fw_signals w ++ [x]) (fw_others w) (fw_ticks w) (fw_until w) (fw_cancelled w) (fw_seq w) (fw_delivered w).

Definition collect (accept : Envelope -> fworld -> option error) : Sink fworld := fun env w =>
  match accept env w with
  | Some e => (Err e, w)
  | None => (Ok tt, MkFworld (fw_world w) (fw_sent w ++ [env]) (fw_signals w) (fw_others w) (fw_ticks w) (fw_until w) (fw_cancelled w) (fw_seq w) (fw_delivered w))
  end.

(** The tunables of a deployment. *)
Record tunables := MkTunables {
  tn_Batch : Z; tn_MaxBatch : Z; tn_MaxPayloadBytes : Z; tn_MaxBatchBytes : Z; tn_Poll : Z; tn_LeaseTTL : Z; tn_RenewEvery : Z
}.

Definition sqlite_Config (t : tunables) : Config fworld :=
  MkConfig (Some sqlite_Checkpoints) (Some sqlite_Leases) (Some sqlite_Open) None None (Some sqlite_DeadLetters)
    (Some record_signal) (tn_Batch t) (tn_MaxBatch t) (tn_MaxPayloadBytes t) (tn_MaxBatchBytes t) (tn_Poll t)
    (tn_LeaseTTL t) (tn_RenewEvery t).

(** A server assembled from these ports. *)
Record assembled (s : Server fworld) : Prop := {
  as_Checkpoints : Checkpoints s = sqlite_Checkpoints;
  as_Leases : Leases s = sqlite_Leases;
  as_Logs : sv_Logs s = sqlite_Open;
  as_Waiter : sv_Waiter s = None;
  as_Clock : sv_Clock s = fx_Now;
  as_DeadLetters : DeadLetters s = Some sqlite_DeadLetters;
  as_Observer : sv_Observer s = record_signal;
  as_jitter : jitter s = Some fx_jitter;
  as_renew : (0 < RenewEvery s < LeaseTTL s)%Z;
  as_batch : (0 < Batch s <= MaxBatch s)%Z;
  as_bytes : (0 < MaxBatchBytes s)%Z
}.

Lemma NewServer_assembled t w s w' : NewServer (sqlite_Config t) w = (Ok s, w') -> assembled s.
Proof.
  intros HN. destruct (server_tuned (sqlite_Config t) s _ _ _ w w' eq_refl eq_refl eq_refl HN) as [Hb Hy _ _ Hr _].
  rewrite (NewServer_run (sqlite_Config t) _ _ _ w eq_refl eq_refl eq_refl) in HN. run_ok HN. injection HN as <- _. by split.
Qed.

(** ** Statements that leave the log and the cursors alone *)

Definition log_quiet {A} (m : M DB A) : Prop := forall w,
  d_events (w_db (m w).2) = d_events (w_db w) /\ d_sequence (w_db (m w).2) = d_sequence (w_db w)
  /\ d_feed_checkpoints (w_db (m w).2) = d_feed_checkpoints (w_db w) /\ (w_tick w <= w_tick (m w).2)%nat.

Lemma log_quiet_ret {A} (a : A) : log_quiet (ret a).
Proof. by intros w. Qed.
Lemma log_quiet_throw {A} e : log_quiet (throw (A:=A) e).
Proof. by intros w. Qed.
Lemma log_quiet_lift {A} (r : res A) : log_quiet (lift r).
Proof. by intros w. Qed.
Lemma log_quiet_Now : log_quiet Now.
Proof. intros w. simpl. repeat split; lia. Qed.
Lemma log_quiet_exec {A} (f : DB -> res (A * DB)) :
  (forall db a db', f db = Ok (a, db') -> d_events db' = d_events db /\ d_sequence db' = d_sequence db
     /\ d_feed_checkpoints db' = d_feed_checkpoints db) ->
  log_quiet (exec f).
Proof.
  intros Hf w. unfold exec. destruct (fault (w_tick w)); simpl; [repeat split; lia|].
  destruct (f (w_db w)) as [[a db']|e] eqn:E; simpl; [|repeat split; lia].
  destruct (Hf _ _ _ E) as (-> & -> & ->). repeat split; lia.
Qed.
Lemma log_quiet_query {A} (f : DB -> res A) : log_quiet (query f).
Proof. apply log_quiet_exec. intros db a db' Hq. destruct (f db); simpl in Hq; [|done]. by injection Hq as _ <-. Qed.
Lemma log_quiet_bind {A B} (m : M DB A) (k : A -> M DB B) :
  log_quiet m -> (forall a, log_quiet (k a)) -> log_quiet (bind m k).
Proof.
  intros Hm Hk w. unfold bind. specialize (Hm w). destruct (m w) as [[a|e] w1]; simpl in *; [|done].
  destruct (Hk a w1) as (-> & -> & -> & ?). destruct Hm as (-> & -> & -> & ?). repeat split; lia.
Qed.
Lemma log_quiet_catch {A} (m : M DB A) h : log_quiet m -> (forall e, log_quiet (h e)) -> log_quiet (catch m h).
Proof.
  intros Hm Hh w. unfold catch. specialize (Hm w). destruct (m w) as [[a|e] w1]; simpl in *; [done|].
  destruct (Hh e w1) as (-> & -> & -> & ?). destruct Hm as (-> & -> & -> & ?). repeat split; lia.
Qed.
End Instance.

#[export] Hint Resolve log_quiet_ret log_quiet_throw log_quiet_lift log_quiet_Now log_quiet_query : feed.
#[export] Hint Extern 1 (log_quiet (bind _ _)) => (apply log_quiet_bind; [|intros]) : feed.
#[export] Hint Extern 1 (log_quiet (catch _ _)) => (apply log_quiet_catch; [|intros]) : feed.
#[export] Hint Extern 2 (log_quiet (match _ with _ => _ end)) => case_goal : feed.
#[export] Hint Extern 3 (log_quiet (exec _)) =>
  (apply log_quiet_exec; intros ? ? ? ?; repeat case_match; simplify_eq/=; done) : feed.

(** Every adapter statement is one. *)
Section Adapters.
Context `{UuidLib} `{Env}.
Variable cap : Z.

Lemma Head_quiet : log_quiet Head.
Proof. unfold Head. auto with feed. Qed.
Lemma RawHead_quiet : log_quiet RawHead.
Proof. unfold RawHead. auto with feed. Qed.
Lemma MatchingHead_quiet types : log_quiet (MatchingHead types).
Proof. unfold MatchingHead. auto with feed. Qed.
Lemma ReadAllBounded_quiet from limit maxBytes types : log_quiet (ReadAllBounded cap from limit maxBytes types).
Proof. unfold ReadAllBounded, queryEnvelopes. auto 20 with feed. Qed.
Lemma checkpoint_Checkpoint_quiet s p i : log_quiet (checkpoint_Checkpoint s p i).
Proof. unfold checkpoint_Checkpoint. auto 20 with feed. Qed.
Lemma dead_letter_Record_quiet dl : log_quiet (dead_letter_Record dl).
Proof. unfold dead_letter_Record. auto 20 with feed. Qed.
Lemma lease_Acquire_quiet s p i o c ttl : log_quiet (lease_Acquire s p i o c ttl).
Proof. unfold lease_Acquire, upsert_lease. auto 20 with feed. Qed.
Lemma lease_Renew_quiet s p i o ttl : log_quiet (lease_Renew s p i o ttl).
Proof. unfold lease_Renew. auto 20 with feed. Qed.
Lemma lease_Release_quiet s p i o : log_quiet (lease_Release s p i o).
Proof. unfold lease_Release. auto 20 with feed. Qed.
Lemma lease_Holder_quiet s p i : log_quiet (lease_Holder s p i).
Proof. unfold lease_Holder. auto 20 with feed. Qed.

(** An append touches no feed table. *)
Lemma insert_event_keeps {X} (f : DB -> X) row :
  (forall evs n db, f (set_events evs n db) = f db) -> keeps f (exec (insert_event row)).
Proof.
  intros Hf. apply keeps_exec. intros db gp db' Hi. unfold insert_event in Hi.
  apply result_bind_Ok in Hi as (? & _ & Hi). repeat case_match; simplify_eq. apply Hf.
Qed.

Lemma append_events_keeps {X} (f : DB -> X) p o r evs :
  (forall evs n db, f (set_events evs n db) = f db) -> forall i prev, keeps f (append_events p o r i prev evs).
Proof.
  intros Hf. induction evs as [|ev evs IH]; intros i prev; simpl; [auto with eslite|].
  pose proof (insert_event_keeps f). auto 20 with eslite.
Qed.

Lemma Append_keeps {X} (f : DB -> X) p :
  (forall evs n db, f (set_events evs n db) = f db) -> (forall c db, f (set_claims c db) = f db) ->
  keeps f (Append cap p).
Proof.
  intros He Hc. assert (forall sid ops, keeps f (applyClaims sid ops)) as Hcl.
  { intros sid ops. unfold applyClaims.
    assert (forall op, keeps f (exec (delete_claim sid op))) as Hd.
    { intros op. apply keeps_exec. intros db a db'. unfold delete_claim. case_bool_decide; intros [= _ <-]; done. }
    assert (forall op, keeps f (exec (insert_claim sid op))) as Hi.
    { intros op. apply keeps_exec. intros db a db'. unfold insert_claim. case_match; intros [= _ <-]; done. }
    auto 20 with eslite. }
  assert (forall sid, keeps f (readHead sid)) as Hh by (intros sid; unfold readHead; auto 20 with eslite).
  pose proof (append_events_keeps f). unfold Append. auto 30 with eslite.
Qed.

(** ** The contract *)

(** What is assumed to hold of the cursors while a subscription runs. *)
Variable Stable : gmap (string * string * string) FeedCheckpointRow -> Prop.

(** An action of another process: it leaves a reachable database reachable,
    with a log that has only grown, and keeps what is assumed of the cursors. *)
Definition well_behaved (m : M DB unit) : Prop := forall w L,
  reachable cap w L -> Stable (d_feed_checkpoints (w_db w)) ->
  Stable (d_feed_checkpoints (w_db (m w).2)) /\ exists L', L `prefix_of` L' /\ reachable cap (m w).2 L'.

Record feed_rep (w : fworld) (L S : list Envelope) : Prop := {
  fr_reach : reachable cap (fw_world w) L;
  fr_stable : Stable (d_feed_checkpoints (w_db (fw_world w)));
  fr_sent : fw_sent w = S;
  fr_others : Forall well_behaved (fw_others w)
}.

Lemma append_well_behaved p : occurred_ok (ap_OccurredAt p) -> well_behaved (let! _ := Append cap p in ret tt).
Proof.
  intros Ho w L Hr Hs. unfold bind. destruct (Append cap p w) as [r w1] eqn:HA.
  assert (d_feed_checkpoints (w_db w1) = d_feed_checkpoints (w_db w)) as E.
  { eapply (keeps_run d_feed_checkpoints); [|exact HA]. by apply Append_keeps. }
  destruct r as [a|e]; simpl; (split; [by rewrite E|]);
    (eexists; split; [|by eapply reach_append]); [by apply prefix_app_r|by rewrite app_nil_r].
Qed.

Lemma others_step_rep w L S : feed_rep w L S -> exists L', L `prefix_of` L' /\ feed_rep (others_step w) L' S.
Proof.
  intros [Hr Hst Hs Ho]. unfold others_step. destruct (fw_others w) as [|m ms] eqn:E.
  { exists L. split; [done|]. split; [done|done|done|by rewrite E]. }
  apply Forall_cons in Ho as [Hm Ho]. destruct (Hm _ _ Hr Hst) as [Hst' (L' & HL & HR')]. exists L'. by split.
Qed.

Lemma set_world_rep w L S x :
  feed_rep w L S -> d_events (w_db x) = d_events (w_db (fw_world w)) ->
  d_sequence (w_db x) = d_sequence (w_db (fw_world w)) ->
  d_feed_checkpoints (w_db x) = d_feed_checkpoints (w_db (fw_world w)) -> (w_tick (fw_world w) <= w_tick x)%nat ->
  feed_rep (set_world x w) L S.
Proof. intros [Hr Hst Hs Ho] H1 H2 H3 H4. split; [|simpl; by rewrite H3|done|done]. destruct x as [db n]. by apply (reach_other cap (fw_world w) L db n). Qed.

Lemma on_db_quiet {A} (m : M DB A) : log_quiet m -> quiet feed_rep (on_db m).
Proof.
  intros Hm w L S HR. destruct (others_step_rep _ _ _ HR) as (L' & HL & HR'). exists L'. split; [done|].
  unfold on_db. specialize (Hm (fw_world (others_step w))). destruct (m _) as [a x]. simpl in *.
  destruct Hm as (H1 & H2 & H3 & H4). by apply set_world_rep.
Qed.

(** A call on a reachable database, run at a later state of the log. *)
Lemma on_db_at {A} (m : M DB A) w L S r w' :
  log_quiet m -> feed_rep w L S -> on_db m w = (r, w') ->
  exists L' x y, L `prefix_of` L' /\ feed_rep w' L' S /\ reachable cap x L' /\ m x = (r, y).
Proof.
  intros Hm HR Hrun. destruct (others_step_rep _ _ _ HR) as (L' & HL & HR'). unfold on_db in Hrun.
  pose proof (Hm (fw_world (others_step w))) as Hq. destruct (m (fw_world (others_step w))) as [a x] eqn:E.
  injection Hrun as <- <-. destruct Hq as (H1 & H2 & H3 & H4). exists L', (fw_world (others_step w)), x.
  split; [done|]. split; [by apply set_world_rep|]. split; [apply HR'|done].
Qed.

Lemma tick_world_rep w L S : feed_rep w L S -> feed_rep (tick_world w) L S.
Proof. intros HR. apply set_world_rep; [done..|]. simpl. lia. Qed.

Hypothesis Hclk : clock_ok.

Lemma sqlite_LogLaws : LogLaws feed_rep True (sqlite_Log cap).
Proof.
  split.
  - intros w L S from limit maxBytes types r w' HR Hl Ht Hrun.
    destruct (on_db_at _ _ _ _ _ _ (ReadAllBounded_quiet _ _ _ _) HR Hrun) as (L' & x & y & HL & HR' & Hx & Hm).
    exists L', L'. split; [done|]. split; [done|]. split; [done|]. intros page tr ->.
    destruct (reachable_inv _ _ _ Hclk Hx) as [Hi _]. eapply ReadAllBounded_spec in Hm as [Hp _ _ _]; try done. split; [apply Hp|done].
  - apply on_db_quiet, Head_quiet.
  - intros w L S r w' HR Hrun.
    destruct (on_db_at _ _ _ _ _ _ RawHead_quiet HR Hrun) as (L' & x & y & HL & HR' & Hx & Hm).
    exists L'. split; [done|]. split; [done|]. intros h ->. destruct (reachable_inv _ _ _ Hclk Hx) as [Hi _].
    unfold RawHead in Hm. apply catch_Ok, query_Ok in Hm as [[= <-] _]. rewrite (li_rows _ _ Hi).
    assert (positions_sorted L') as Hs by (by eapply log_sorted).
    rewrite (max_position_last L') by done. pose proof (log_head_mono _ _ Hs HL) as Hm. unfold log_head in *.
    destruct (last L'); exact Hm.
Qed.

Lemma sqlite_FeedLaws accept s scope : assembled cap s -> FeedLaws s (collect accept) feed_rep True scope.
Proof.
  intros [HC HL HO HW HK HD HB HJ _ _ _].
  split.
  - intros w L S [Hr _ _ _]. destruct (reachable_inv _ _ _ Hclk Hr) as [Hi _]. by eapply log_sorted.
  - intros w L S r w' HR. rewrite HO. intros [= <- <-]. exists L. split; [done|]. split; [done|].
    intros log [= <-]. apply sqlite_LogLaws.
  - intros env w L S r w' [Hr Hst Hs Ho]. unfold collect. destruct (accept env w); intros [= <- <-]; [exists L, []|exists L, [env]]; (split; [done|]); (split; [|by auto]).
    + rewrite app_nil_r. by split.
    + split; simpl; [done|done|by rewrite Hs|done].
  - intros. rewrite HC. apply on_db_quiet, checkpoint_Checkpoint_quiet.
  - intros. rewrite HL. apply on_db_quiet, lease_Renew_quiet.
  - intros x w. rewrite HB. intros L S [? ? ? ?]. exists L. split; [done|]. by split.
  - intros wt d. by rewrite HW.
  - intros j d w. rewrite HJ. intros [= <-]. by intros L S HR; exists L.
  - intros w L S HR. exists L. split; [done|]. by apply tick_world_rep.
  - intros w L S HR. by exists L.
  - intros w L S [? ? ? ?]. exists L. split; [done|]. by split.
  - intros d w L S HR. cbn. destruct (run_err w); [by exists L|].
    destruct (others_step_rep _ _ _ HR) as (L' & HL' & HR'). exists L'. split; [done|]. by apply tick_world_rep.
  - intros w L S [? ? ? ?]. cbn. destruct (fw_ticks w) eqn:E; exists L; (split; [done|]); by split.
  - intros sc p i owner consumer ttl w. rewrite HL. intros L S HR. cbn.
    pose proof (on_db_quiet _ (lease_Acquire_quiet sc p i owner consumer ttl) w L S HR) as (L' & ? & ?).
    exists L'. split; [done|]. by destruct (on_db _ w) as [[b|e] w1].
  - intros. rewrite HL. apply on_db_quiet, lease_Release_quiet.
  - intros. rewrite HL. apply on_db_quiet, lease_Holder_quiet.
  - intros w. rewrite HK. intros L S HR. exists L. split; [done|]. by apply tick_world_rep.
  - intros w L S [? ? ? ?]. exists L. split; [done|]. by split.
  - intros w L S HR. by exists L.
  - intros w L S [? ? ? ?]. exists L. split; [done|]. by split.
Qed.
End Adapters.
