(* ===== verification/SqliteLeases.v ===== *)
(** * Leases and cursors in SQLite

    The storage key separates subscriptions, a lease excludes other owners
    until it expires or its owner gives it up, and acknowledgements only move
    a cursor forward. *)
From S2P Require Import Prelude Sha256 Es Hash Timestamp Effect Sql Sqlite HexUuid Definitions.
From S2P Require Import FeedPorts Feed SqliteFeed.

(** ** The storage key *)

Fixpoint has_nul (s : string) : bool :=
  match s with
  | EmptyString => false
  | String c s' => bool_decide (c = Ascii.zero) || has_nul s'
  end.

Lemma no_control_no_nul s : containsControl s = false -> has_nul s = false.
Proof.
  induction s as [|c s IH]; [done|]. simpl. rewrite !orb_false_iff. intros [[Hc _] Hs]. split; [|auto].
  apply bool_decide_eq_false. intros ->. done.
Qed.

Lemma nul_split_inj a1 a2 k1 k2 :
  has_nul a1 = false -> has_nul a2 = false ->
  (a1 ++ NUL ++ k1)%string = (a2 ++ NUL ++ k2)%string -> a1 = a2 /\ k1 = k2.
Proof.
  revert a2; induction a1 as [|c a1 IH]; intros [|d a2]; cbn [has_nul]; rewrite ?orb_false_iff, ?bool_decide_eq_false;
    unfold NUL; rewrite ?str_app_cons, ?str_app_nil; intros H1 H2 E.
  - by injection E.
  - exfalso. injection E as <- _. by destruct H2.
  - exfalso. injection E as -> _. by destruct H1.
  - injection E as -> E. destruct (IH a2) as [-> ->]; tauto.
Qed.

Lemma validateKey_Ok s p i : validateKey s p i = Ok tt ->
  has_nul s = false /\ has_nul p = false /\ has_nul i = false.
Proof.
  unfold validateKey, invalid. repeat case_bool_decide; try done.
  destruct (containsControl s) eqn:Hs, (containsControl p) eqn:Hp, (containsControl i) eqn:Hi; try done.
  intros _. auto using no_control_no_nul.
Qed.

(** Distinct subscriptions never share a lease row: for validated keys, the
    NUL-joined storage key determines scope, projection and instance. *)
Theorem lease_key_injective s p i s' p' i' :
  validateKey s p i = Ok tt -> validateKey s' p' i' = Ok tt ->
  leaseKey s p i = leaseKey s' p' i' -> s = s' /\ p = p' /\ i = i'.
Proof.
  intros (Hs & Hp & _)%validateKey_Ok (Hs' & Hp' & _)%validateKey_Ok. unfold leaseKey.
  intros [-> [-> ->]%nul_split_inj]%nul_split_inj; done.
Qed.

Lemma lease_key_injective_witness :
  leaseKey "a" "bc" "" = leaseKey "a" "bc" "" /\ leaseKey "a" "bc" "" <> leaseKey "ab" "c" "".
Proof.
  split; [reflexivity|]. intros E. 
  destruct (lease_key_injective "a" "bc" "" "ab" "c" "" eq_refl eq_refl E) as [E' _]. discriminate.
Defined.

(** ** Exclusion *)

(** What any process can do to the lease table. *)
Inductive lease_op :=
| LAcquire (scope projection instance owner consumer : string) (ttl : Z)
| LRenew (scope projection instance owner : string) (ttl : Z)
| LRelease (scope projection instance owner : string).

Definition lop_owner (op : lease_op) : string :=
  match op with LAcquire _ _ _ o _ _ | LRenew _ _ _ o _ | LRelease _ _ _ o => o end.

Section Exclusion.
Context `{Env}.

Definition run_lop (op : lease_op) : M DB bool :=
  match op with
  | LAcquire s p i o c ttl => lease_Acquire s p i o c ttl
  | LRenew s p i o ttl => lease_Renew s p i o ttl
  | LRelease s p i o => let! _ := lease_Release s p i o in ret false
  end.

(** A sequence of operations and what each returned. *)
Fixpoint run_lops (ops : list lease_op) (w : world DB) : list (res bool) * world DB :=
  match ops with
  | [] => ([], w)
  | op :: ops' => let '(r, w1) := run_lop op w in let '(rs, w2) := run_lops ops' w1 in (r :: rs, w2)
  end.

(** The clock stays in the range UnixNano represents (years 1678 to 2262) and
    does not go back. *)
Definition nano_clock : Prop :=
  (forall n, - 9223372036854775808 <= clock n <= i64_max)%Z /\ (forall n m, (n <= m)%nat -> (clock n <= clock m)%Z).

Lemma tick_run_lop op : tick_mono (run_lop op).
Proof.
  destruct op; unfold run_lop, lease_Acquire, lease_Renew, lease_Release; auto 20 with eslite.
Qed.

Lemma tick_run_lops ops w : (w_tick w <= w_tick (run_lops ops w).2)%nat.
Proof.
  revert w; induction ops as [|op ops IH]; intros w; simpl; [lia|].
  pose proof (tick_run_lop op w) as Ht. destruct (run_lop op w) as [r w1]. simpl in Ht.
  specialize (IH w1). destruct (run_lops ops w1) as [rs w2]. simpl in *. lia.
Qed.

(** One operation of another owner while the lease runs. *)
Lemma lop_keeps op key row w r w' :
  nano_clock -> lop_owner op <> lr_owner row -> d_feed_leases (w_db w) !! key = Some row ->
  (clock (w_tick w) < lr_expires_at_ns row)%Z -> run_lop op w = (r, w') ->
  d_feed_leases (w_db w') !! key = Some row
  /\ forall s p i o c ttl, op = LAcquire s p i o c ttl -> leaseKey s p i = key -> r <> Ok true.
Proof.
  intros [Hn _] Ho Hrow Hlive. destruct op as [s p i o c ttl|s p i o ttl|s p i o]; simpl in *.
  - unfold lease_Acquire, bind, catch, Now, exec, throw, ret. cbn [w_tick tick].
    destruct (fault _); [intros [= <- <-]; split; [done|]; congruence|]. simpl. unfold upsert_lease.
    destruct (decide (leaseKey s p i = key)) as [->|Hne].
    + rewrite Hrow. rewrite bool_decide_false by done. unfold UnixNano. rewrite (i64_small (clock (w_tick w))) by apply Hn.
      rewrite (proj2 (Z.leb_gt _ _) Hlive). simpl. intros [= <- <-]. split; [done|]. congruence.
    + intros Hrun. split; [|intros; simplify_eq]. revert Hrun.
      destruct (d_feed_leases (w_db w) !! leaseKey s p i) as [old|]; [destruct (_ || _)|]; simpl; intros [= _ <-]; simpl;
        by rewrite ?lookup_insert_ne.
  - intros Hrun. split; [|done]. revert Hrun. unfold lease_Renew, bind, catch, Now, exec, throw, ret. cbn [w_tick tick].
    destruct (fault _); [by intros [= _ <-]|]. simpl.
    destruct (decide (leaseKey s p i = key)) as [->|Hne].
    + rewrite Hrow, bool_decide_false by done. by intros [= _ <-].
    + destruct (d_feed_leases (w_db w) !! leaseKey s p i) as [old|]; [case_bool_decide|]; intros [= _ <-]; simpl;
        [by rewrite lookup_insert_ne|done|done].
  - intros Hrun. split; [|done]. revert Hrun. unfold lease_Release, bind, catch, exec, throw, ret.
    destruct (fault _); [by intros [= _ <-]|]. simpl.
    destruct (decide (leaseKey s p i = key)) as [->|Hne].
    + rewrite Hrow, bool_decide_false by done. by intros [= _ <-].
    + destruct (d_feed_leases (w_db w) !! leaseKey s p i) as [old|]; [case_bool_decide|]; intros [= _ <-]; simpl;
        [by rewrite lookup_delete_ne|done|done].
Qed.

Lemma lops_keep ops : forall key row w rs w',
  nano_clock -> Forall (fun op => lop_owner op <> lr_owner row) ops -> d_feed_leases (w_db w) !! key = Some row ->
  run_lops ops w = (rs, w') -> (clock (w_tick w') < lr_expires_at_ns row)%Z ->
  d_feed_leases (w_db w') !! key = Some row
  /\ forall k s p i o c ttl, ops !! k = Some (LAcquire s p i o c ttl) -> leaseKey s p i = key -> rs !! k <> Some (Ok true).
Proof.
  induction ops as [|op ops IH]; intros key row w rs w' Hn Hf Hrow; simpl.
  { intros [= <- <-] _. split; [done|]. intros k. by rewrite lookup_nil. }
  apply Forall_cons in Hf as [Ho Hf]. destruct (run_lop op w) as [r w1] eqn:H1. destruct (run_lops ops w1) as [rs1 w2] eqn:H2.
  intros [= <- <-] Hlive. pose proof (tick_run_lop op w) as T1. rewrite H1 in T1. simpl in T1.
  pose proof (tick_run_lops ops w1) as T2. rewrite H2 in T2. simpl in T2.
  pose proof (proj2 Hn (w_tick w) (w_tick w2) ltac:(lia)).
  destruct (lop_keeps op key row w r w1 Hn Ho Hrow ltac:(lia) H1) as [Hrow1 Hacq].
  destruct (IH _ _ _ _ _ Hn Hf Hrow1 H2 Hlive) as [Hrow2 Hrest]. split; [done|].
  intros [|k] s p i o c ttl; simpl; [intros [= ->] Hk [= ->]; by eapply Hacq|apply Hrest].
Qed.

(** A successful Acquire writes the caller's row. *)
Lemma Acquire_row s p i o c ttl w w' :
  lease_Acquire s p i o c ttl w = (Ok true, w') ->
  d_feed_leases (w_db w') !! leaseKey s p i = Some (MkLeaseRow o c (UnixNano (clock (w_tick w) + ttl))).
Proof.
  unfold lease_Acquire, bind, catch, Now, exec, throw, ret. cbn [w_tick tick].
  destruct (fault _); [done|]. simpl. unfold upsert_lease.
  destruct (d_feed_leases (w_db w) !! leaseKey s p i) as [old|]; [destruct (_ || _)|]; simpl; [| |].
  all: intros Hrun; simplify_eq/=. all: by rewrite lookup_insert_eq.
Qed.

Lemma Holder_row s p i w r w' :
  nano_clock -> lease_Holder s p i w = (Ok r, w') ->
  r = match d_feed_leases (w_db w) !! leaseKey s p i with
      | Some row => if (clock (w_tick w) <? lr_expires_at_ns row)%Z
                    then Some (MkLease (lr_owner row) (lr_consumer row) (lr_expires_at_ns row)) else None
      | None => None
      end.
Proof.
  intros [Hn _]. unfold lease_Holder, bind, catch, Now, query, exec, throw, ret. cbn [w_tick tick].
  destruct (fault _); [done|]. simpl. unfold UnixNano. rewrite i64_small by apply Hn.
  destruct (d_feed_leases (w_db w) !! leaseKey s p i) as [row|]; [destruct (_ <? _)%Z|]; by intros [= <- _].
Qed.
End Exclusion.

(** C19: a lease excludes: once an owner has acquired a key, then until the lease
    expires, whatever acquire, renew and release calls other owners make, in
    any number and on any keys, none of their acquires of this key succeeds
    and every Holder call reports the owner. *)
Theorem lease_exclusive `{Env} s p i owner consumer ttl w w1 ops rs w2 h w3 :
  nano_clock -> (- 9223372036854775808 <= clock (w_tick w) + ttl <= i64_max)%Z ->
  lease_Acquire s p i owner consumer ttl w = (Ok true, w1) ->
  Forall (fun op => lop_owner op <> owner) ops -> run_lops ops w1 = (rs, w2) ->
  (clock (w_tick w2) < clock (w_tick w) + ttl)%Z ->
  lease_Holder s p i w2 = (Ok h, w3) ->
  (exists e, h = Some (MkLease owner consumer e))
  /\ forall k o c ttl', ops !! k = Some (LAcquire s p i o c ttl') -> rs !! k <> Some (Ok true).
Proof.
  intros Hn Hr HA Hf Hops Hlive HH. apply Acquire_row in HA. unfold UnixNano in HA. rewrite i64_small in HA by done.
  destruct (lops_keep ops _ (MkLeaseRow owner consumer (clock (w_tick w) + ttl)) _ _ _ Hn Hf HA Hops Hlive) as [Hrow Hacq]. split; [|intros; by eapply Hacq].
  apply Holder_row in HH; [|done]. rewrite Hrow in HH. simpl in HH. rewrite (proj2 (Z.ltb_lt _ _) Hlive) in HH. eauto.
Qed.

(** Worker a holds the key for 30 seconds while worker b tries twice. *)
Definition day_one : world DB := MkWorld empty_db 0.
Definition rival : list lease_op :=
  [LAcquire "t1" "totals" "" "b" "worker-b" (30 * Second); LRelease "t1" "totals" "" "b";
   LAcquire "t1" "totals" "" "b" "worker-b" (30 * Second)]%string.

Lemma calm_nano : @nano_clock calm_env.
Proof. split; intros; simpl; unfold i64_max, Second; lia. Qed.

Definition after_acquire : world DB := (@lease_Acquire calm_env "t1" "totals" "" "a" "worker-a" (30 * Second) day_one).2.
Definition after_rival : list (res bool) * world DB := @run_lops calm_env rival after_acquire.

Lemma lease_exclusive_witness :
  (exists e, (@lease_Holder calm_env "t1" "totals" "" after_rival.2).1 = Ok (Some (MkLease "a" "worker-a" e)))
  /\ after_rival.1 !! 2%nat <> Some (Ok true).
Proof.
  destruct (@lease_exclusive calm_env "t1" "totals" "" "a" "worker-a" (30 * Second)%Z day_one after_acquire rival
    after_rival.1 after_rival.2 (Some (MkLease "a" "worker-a" 1772532030000000000))
    (@lease_Holder calm_env "t1" "totals" "" after_rival.2).2)
    as [[e He] Hno].
  - apply calm_nano.
  - vm_compute. split; congruence.
  - by vm_compute.
  - repeat constructor; discriminate.
  - by vm_compute.
  - by vm_compute.
  - by vm_compute.
  - split.
    + exists e. rewrite <- He. by vm_compute.
    + by apply (Hno 2%nat "b" "worker-b" (30 * Second)%Z)%string.
Defined.

(** ** Cursors *)

Section Cursor.
Context `{Env}.

(** A sequence of acknowledgements of one subscription, some of which fail. *)
Fixpoint run_saves (s p i : string) (acks : list (string * N)) (w : world DB) : list (res unit) * world DB :=
  match acks with
  | [] => ([], w)
  | (d, pos) :: acks' =>
      let '(r, w1) := checkpoint_Save s p i d pos w in
      let '(rs, w2) := run_saves s p i acks' w1 in (r :: rs, w2)
  end.

(** The largest position that was acknowledged. *)
Fixpoint acked (acks : list (string * N)) (rs : list (res unit)) : N :=
  match acks, rs with
  | (_, pos) :: acks', r :: rs' => N.max (match r with Ok _ => pos | Err _ => 0%N end) (acked acks' rs')
  | _, _ => 0%N
  end.

(** The last non-empty definition that was acknowledged. *)
Fixpoint acked_definition (d0 : string) (acks : list (string * N)) (rs : list (res unit)) : string :=
  match acks, rs with
  | (d, _) :: acks', r :: rs' =>
      acked_definition (match r with Ok _ => if bool_decide (d = EmptyString) then d0 else d | Err _ => d0 end) acks' rs'
  | _, _ => d0
  end.

Definition cursor (db : DB) (s p i : string) : N :=
  match d_feed_checkpoints db !! (s, p, i) with Some r => fc_position r | None => 0%N end.

Definition cursor_definition (db : DB) (s p i : string) : string :=
  match d_feed_checkpoints db !! (s, p, i) with Some r => fc_definition_hash r | None => EmptyString end.

(** One Save. *)
Lemma Save_effect s p i d pos w r w' :
  checkpoint_Save s p i d pos w = (r, w') ->
  match r with
  | Ok _ => cursor (w_db w') s p i = N.max (cursor (w_db w) s p i) pos
      /\ cursor_definition (w_db w') s p i = (if bool_decide (d = EmptyString) then cursor_definition (w_db w) s p i else d)
      /\ forall k, k <> (s, p, i) -> d_feed_checkpoints (w_db w') !! k = d_feed_checkpoints (w_db w) !! k
  | Err _ => w_db w' = w_db w
  end.
Proof.
  unfold checkpoint_Save, bind, Now, catch, lift. destruct (bind_uint64 pos) as [v|e] eqn:Hb; [|by intros [= <- <-]].
  unfold exec. cbn [tick w_tick w_db]. destruct (fault _); [by intros [= <- <-]|].
  unfold upsert_checkpoint. intros [= <- <-]. unfold cursor, cursor_definition. simpl.
  rewrite lookup_insert_eq. destruct (d_feed_checkpoints (w_db w) !! (s, p, i)) as [old|]; simpl.
  - split; [done|]. split; [done|]. intros k Hk. by rewrite lookup_insert_ne.
  - split; [lia|]. split; [by case_bool_decide|]. intros k Hk. by rewrite lookup_insert_ne.
Qed.
End Cursor.

(** Acknowledgements only move a cursor forward: after any sequence of acks of
    one subscription, some of which may fail, the stored position is the
    maximum of where it was and of the positions whose save succeeded, the
    stored definition is the last non-empty one acknowledged, and no other
    subscription's cursor has changed. *)
Theorem acks_monotone `{Env} s p i acks w rs w' :
  run_saves s p i acks w = (rs, w') ->
  cursor (w_db w') s p i = N.max (cursor (w_db w) s p i) (acked acks rs)
  /\ cursor_definition (w_db w') s p i = acked_definition (cursor_definition (w_db w) s p i) acks rs
  /\ forall k, k <> (s, p, i) -> d_feed_checkpoints (w_db w') !! k = d_feed_checkpoints (w_db w) !! k.
Proof.
  revert w rs w'; induction acks as [|[d pos] acks IH]; intros w rs w'; simpl.
  { intros [= <- <-]. split; [lia|done]. }
  destruct (checkpoint_Save s p i d pos w) as [r w1] eqn:HS. destruct (run_saves s p i acks w1) as [rs1 w2] eqn:HR.
  intros [= <- <-]. destruct (IH _ _ _ HR) as (-> & -> & Hk). apply Save_effect in HS. destruct r as [u|e].
  - destruct HS as (-> & -> & Hk1). split; [lia|]. split; [done|]. intros k Hne. by rewrite Hk, Hk1.
  - rewrite HS in *. split; [lia|]. done.
Qed.

Lemma acks_monotone_witness :
  cursor (w_db (@run_saves calm_env "t1" "totals" "" [("h1", 7%N); ("", 3%N)] day_one).2) "t1" "totals" "" = 7%N.
Proof.
  destruct (@acks_monotone calm_env "t1" "totals" "" [("h1", 7%N); ("", 3%N)]%string day_one _ _ (surjective_pairing _))
    as (-> & _ & _). by vm_compute.
Defined.
