(* ===== verification/FeedHealthy.v ===== *)
(** * A healthy feed keeps serving

    With a database that does not fail, no other process at work, a context
    that stays open and payloads within the caps, every step of a subscription
    succeeds: the loop runs as long as it is allowed to. *)
From S2P Require Import Prelude Sha256 Es Hash Chain Anchor Timestamp Effect Store Sql Sqlite.
From S2P Require Import SqliteCorrect SqliteTheorems Definitions FeedPorts Feed FeedContract.
From S2P Require Import FeedCorrect SqliteFeed SqliteFeedCorrect FeedSqlite.

Section Healthy.
Context `{UuidLib} `{Env}.
Variable cap : Z.
Hypothesis Hnf : no_fault.
Variable envs : list Envelope.
Variable req : Request.
Variable orow : option FeedCheckpointRow.    (** the subscription's stored cursor *)

Definition cursor_key : string * string * string := (rq_Scope req, rq_Projection req, rq_Instance req).

(** The sink takes everything. *)
Definition accept_all : Envelope -> fworld -> option error := fun _ _ => None.

Record healthy (w : fworld) : Prop := {
  hl_others : fw_others w = [];
  hl_ticks : fw_ticks w = [];
  hl_until : fw_until w = None;
  hl_cancelled : fw_cancelled w = false;
  hl_log : log_inv (w_db (fw_world w)) envs;
  hl_row : d_feed_checkpoints (w_db (fw_world w)) !! cursor_key = orow
}.

(** What a step of a healthy run leaves in place. *)
Record steady (w w' : fworld) : Prop := {
  sd_healthy : healthy w';
  sd_checkpoints : d_feed_checkpoints (w_db (fw_world w')) = d_feed_checkpoints (w_db (fw_world w))
}.

Variable s : Server fworld.
Hypothesis Has : assembled cap s.
Variable owner : string.

(** A computation that succeeds in a healthy world and leaves it healthy. *)
Definition succeeds {A} (m : SM (fworld * renewer) A) (P : A -> Prop) : Prop := forall w rn,
  healthy w -> exists a w' rn', m (w, rn) = (Ok a, (w', rn')) /\ steady w w' /\ P a.

Lemma steady_refl w : healthy w -> steady w w.
Proof. by split. Qed.

(** The parts of the world a step may change freely. *)
Lemma steady_at w w' : healthy w ->
  fw_others w' = fw_others w -> fw_ticks w' = fw_ticks w -> fw_until w' = fw_until w -> fw_cancelled w' = fw_cancelled w ->
  w_db (fw_world w') = w_db (fw_world w) -> steady w w'.
Proof. intros [] E1 E2 E3 E4 E5. split; [split|]; congruence. Qed.

Lemma succeeds_ret {A} (a : A) (P : A -> Prop) : P a -> succeeds (ret a) P.
Proof. intros HP w rn Hw. exists a, w, rn. split; [done|]. split; [by apply steady_refl|done]. Qed.

Lemma steady_trans w1 w2 w3 : steady w1 w2 -> steady w2 w3 -> steady w1 w3.
Proof. intros [? E1] [? E2]. split; [done|congruence]. Qed.

Lemma succeeds_bind {A B} (m : SM (fworld * renewer) A) (k : A -> SM (fworld * renewer) B) P Q :
  succeeds m P -> (forall a, P a -> succeeds (k a) Q) -> succeeds (bind m k) Q.
Proof.
  intros Hm Hk w rn Hw. destruct (Hm w rn Hw) as (a & w1 & rn1 & E1 & S1 & HP).
  destruct (Hk a HP w1 rn1 (sd_healthy _ _ S1)) as (b & w2 & rn2 & E2 & S2 & HQ).
  exists b, w2, rn2. unfold bind. rewrite E1. split; [done|]. split; [by eapply steady_trans|done].
Qed.

Lemma succeeds_wrap {A} (m : SM (fworld * renewer) A) ctx P : succeeds m P -> succeeds (m wrap ctx) P.
Proof.
  intros Hm w rn Hw. destruct (Hm w rn Hw) as (a & w1 & rn1 & E & S & HP). exists a, w1, rn1.
  unfold catch. by rewrite E.
Qed.

Lemma succeeds_weaken {A} (m : SM (fworld * renewer) A) (P Q : A -> Prop) :
  succeeds m P -> (forall a, P a -> Q a) -> succeeds m Q.
Proof. intros Hm HPQ w rn Hw. destruct (Hm w rn Hw) as (a & w1 & rn1 & ? & ? & ?). exists a, w1, rn1. auto. Qed.

Lemma yield_healthy w rn : healthy w -> yield s req owner (w, rn) = (w, rn).
Proof. intros [_ Ht _ _ _ _]. unfold yield. cbn. by rewrite Ht. Qed.

(** A statement on the database that succeeds. *)
Lemma succeeds_db {A} (m : M DB A) (P : A -> Prop) :
  log_quiet m -> (forall x, log_inv (w_db x) envs -> exists a, (m x).1 = Ok a /\ P a) ->
  succeeds (call s req owner (on_db m)) P.
Proof.
  intros Hq Hm w rn Hw. unfold call. rewrite yield_healthy by done. pose proof Hw as [Ho Ht Hu Hc Hl Hk].
  destruct (Hm (fw_world w) Hl) as (a & Ea & HP). specialize (Hq (fw_world w)).
  unfold on_db, others_step. rewrite Ho. destruct (m (fw_world w)) as [r x]. simpl in *. subst r.
  destruct Hq as (H1 & H2 & H3 & _). exists a, (set_world x w), rn. split; [done|]. split; [|done].
  split; [|done]. split; try done; simpl; [by eapply log_inv_ext|by rewrite H3].
Qed.

Lemma steady_tick w : healthy w -> steady w (tick_world w).
Proof. intros Hw. by apply steady_at. Qed.

Lemma succeeds_now : succeeds now_ (fun _ => True).
Proof. intros w rn Hw. eexists _, _, _. split; [reflexivity|]. split; [by apply steady_tick|done]. Qed.

Lemma succeeds_signal x : succeeds (signal_ s x) (fun _ => True).
Proof.
  intros w rn Hw. eexists _, _, _. split; [reflexivity|]. split; [|done]. rewrite (as_Observer _ _ Has).
  by apply steady_at.
Qed.

Lemma succeeds_check : succeeds (check_ctx s req owner) (fun _ => True).
Proof.
  intros w rn Hw. unfold check_ctx, call. rewrite yield_healthy by done. cbn. unfold run_err, ctx_err.
  rewrite (hl_cancelled w Hw), (hl_until w Hw). eexists _, _, _. split; [reflexivity|]. split; [by apply steady_refl|done].
Qed.

Lemma succeeds_timer d : succeeds (call s req owner (fx_timer d)) (fun _ => True).
Proof.
  intros w rn Hw. unfold call. rewrite yield_healthy by done. cbn. unfold run_err, ctx_err, others_step.
  pose proof Hw as []. rewrite hl_cancelled0, hl_until0, hl_others0. eexists _, _, _. split; [reflexivity|].
  split; [by apply steady_tick|done].
Qed.

Lemma query_healthy {A} (f : DB -> res A) x a : f (w_db x) = Ok a -> (query f x).1 = Ok a.
Proof. intros E. unfold query, exec. by rewrite Hnf, E. Qed.

Lemma succeeds_RawHead : succeeds (call s req owner (lg_RawHead (sqlite_Log cap))) (fun _ => True).
Proof.
  apply succeeds_db; [apply RawHead_quiet|]. intros x _. unfold RawHead, catch, query, exec. rewrite Hnf. simpl. eauto.
Qed.

Lemma succeeds_Head : succeeds (call s req owner (lg_Head (sqlite_Log cap))) (fun h => h = log_head envs).
Proof.
  apply succeeds_db; [apply Head_quiet|]. intros x Hx. rewrite (Head_run x envs Hx (Hnf _)). eauto.
Qed.

Lemma succeeds_idle t : succeeds (idleWait s req owner t) (fun _ => True).
Proof.
  unfold idleWait. rewrite (as_jitter _ _ Has), (as_Waiter _ _ Has).
  apply (succeeds_bind _ _ (fun _ => True)); [|intros; apply succeeds_timer].
  intros w rn Hw. cbn. eexists _, _, _. split; [reflexivity|]. split; [by apply steady_refl|done].
Qed.

Lemma succeeds_attempt {A} (m : SM (fworld * renewer) A) P : succeeds m P -> succeeds (attempt m) (fun r => exists a, r = Ok a /\ P a).
Proof.
  intros Hm w rn Hw. destruct (Hm w rn Hw) as (a & w1 & rn1 & E & S & HP). eexists (Ok a), w1, rn1.
  unfold attempt. rewrite E. eauto.
Qed.

Lemma succeeds_probe st : succeeds (probeStall s req owner (sqlite_Log cap) st) (fun _ => True).
Proof.
  unfold probeStall. case_goal; [by apply succeeds_ret|].
  eapply succeeds_bind; [apply succeeds_now|]. intros t _. cbv beta. case_goal; [by apply succeeds_ret|].
  eapply succeeds_bind; [apply succeeds_now|]. intros t' _.
  eapply succeeds_bind; [apply succeeds_attempt, succeeds_RawHead|]. intros r (raw & -> & _). cbv beta iota.
  case_goal; [|by apply succeeds_ret]. eapply succeeds_bind; [apply succeeds_signal|]. intros. by apply succeeds_ret.
Qed.

(** No payload of the log is over a cap. *)
Definition within_caps : Prop := forall e, e ∈ envs ->
  ((0 < cap)%Z -> (Z.of_nat (length (Payload e)) <= cap)%Z)
  /\ ((0 < MaxPayloadBytes s)%Z -> (Z.of_nat (length (Payload e)) <= MaxPayloadBytes s)%Z).

Hypothesis Hcaps : within_caps.
Hypothesis Htypes : df_Consumes (rq_Definition req) <> [].
Hypothesis Hroom : (N.of_nat (length envs) <= max_int64)%N.

Lemma succeeds_send page : (forall e, e ∈ page -> e ∈ envs) -> forall pos,
  succeeds (send_all s req owner (collect accept_all) pos page) (fun p => p = default pos (GlobalPosition <$> last page)).
Proof.
  induction page as [|e page IH]; intros Hin pos; simpl; [by apply succeeds_ret|].
  destruct (Hcaps e ltac:(apply Hin; by left)) as [_ Hmax].
  replace (_ && _) with false.
  2:{ symmetry. apply andb_false_iff. destruct (Z.ltb_spec 0 (MaxPayloadBytes s)); [right; apply Z.ltb_ge; auto|by left]. }
  apply (succeeds_bind _ _ (fun _ => True)).
  - apply succeeds_wrap. intros w rn Hw. unfold call. rewrite yield_healthy by done. unfold collect. cbn.
    eexists _, _, _. split; [reflexivity|]. split; [by apply steady_at|done].
  - intros _ _. eapply succeeds_weaken; [apply IH; intros x Hx; apply Hin; by right|].
    intros p ->. destruct page; [done|]. rewrite last_cons_cons. by destruct (last _) eqn:El; [|apply last_None in El].
Qed.

Lemma ReadAllBounded_healthy x from limit maxBytes types :
  log_inv (w_db x) envs -> (0 < limit)%Z -> types <> [] -> (from <= max_int64)%N ->
  exists pt, (ReadAllBounded cap from limit maxBytes types x).1 = Ok pt /\ page_of cap envs from limit maxBytes types pt.1 pt.2.
Proof.
  intros Hx Hl Ht Hfr. pose proof (ReadAllBounded_total cap x envs Hx from limit maxBytes types Hnf Hl Ht Hfr) as HT.
  destruct (ReadAllBounded cap from limit maxBytes types x).1 as [[page tr]|e]; [by exists (page, tr)|].
  destruct HT as (y & rest & HM & Hc & _). exfalso.
  assert (y ∈ matching types from envs) as [_ Hin]%list_elem_of_filter by (rewrite HM; by left).
  destruct (Hcaps y Hin) as [Hcap _]. specialize (Hcap ltac:(lia)). lia.
Qed.

Hypothesis Hdb : exists db, log_inv db envs.

Lemma succeeds_iter batch st :
  (0 < batch)%Z -> (st_pos st <= max_int64)%N ->
  succeeds (stream_iter s req owner (sqlite_Log cap) (collect accept_all) batch st) (fun st' => st_pos st' <= max_int64)%N.
Proof.
  intros Hb Hp. unfold stream_iter.
  eapply succeeds_bind; [apply succeeds_now|]. intros t0 _.
  eapply succeeds_bind; [apply succeeds_check|]. intros _ _.
  eapply (succeeds_bind _ _ (fun r => exists pt, r = Ok pt /\ page_of cap envs (st_pos st) batch (MaxBatchBytes s) (df_Consumes (rq_Definition req)) pt.1 pt.2)).
  { apply succeeds_attempt. apply succeeds_db; [apply ReadAllBounded_quiet|]. intros x Hx. by apply ReadAllBounded_healthy. }
  intros r ([page tr] & -> & [Hpg _ _ _]). cbv beta iota. simpl in Hpg.
  assert (forall e, e ∈ page -> e ∈ envs) as Hin.
  { intros e He. destruct (pg_prefix _ _ _ _ _ _ Hpg) as [K HK].
    assert (e ∈ matching (df_Consumes (rq_Definition req)) (st_pos st) envs) as Hm by (rewrite HK; apply elem_of_app; by left).
    by apply list_elem_of_filter in Hm as [_ Hm]. }
  eapply succeeds_bind; [apply succeeds_signal|]. intros _ _.
  eapply succeeds_bind; [by apply succeeds_send|]. intros pos ->. cbv beta.
  assert (default (st_pos st) (GlobalPosition <$> last page) <= max_int64)%N as Hp'.
  { destruct (last page) as [e|] eqn:Hl; simpl; [|done]. apply last_Some_elem_of, Hin in Hl.
    destruct Hdb as [db Hi]. pose proof (numbered_elem _ _ _ _ (li_positions _ _ Hi) Hl). lia. }
  case_goal; [by apply succeeds_ret|].
  eapply (succeeds_bind _ _ (fun st' => st_pos st' <= max_int64)%N); [|intros st' Hst'; eapply succeeds_bind; [apply succeeds_idle|]; intros; by apply succeeds_ret].
  intros w rn Hw. destruct (succeeds_probe (MkStreamState (default (st_pos st) (GlobalPosition <$> last page)) (st_lastProbe st)
    (if (0 <? Z.of_nat (length page))%Z then false else st_stallReported st)) w rn Hw) as (st1 & w1 & rn1 & HE & HS & _).
  exists st1, w1, rn1. split; [done|]. split; [done|]. apply probe_pos in HE. by rewrite HE.
Qed.

Lemma succeeds_loop batch fuel : (0 < batch)%Z -> forall st, (st_pos st <= max_int64)%N ->
  succeeds (stream_loop s req owner fuel (sqlite_Log cap) (collect accept_all) batch st) (fun _ => True).
Proof.
  intros Hb. induction fuel as [|fuel IH]; intros st Hp; simpl; [by apply succeeds_ret|].
  eapply succeeds_bind; [by apply succeeds_iter|]. intros st' Hp'. by apply IH.
Qed.

(** The stored cursor can be resumed from. *)
Record resumable : Prop := {
  rs_time : forall row, orow = Some row -> exists t, parseTS (fc_updated_at row) = Ok t;
  rs_definition : forall row, orow = Some row ->
    fc_definition_hash row = EmptyString \/ fc_definition_hash row = definition_Hash (rq_Definition req);
  rs_position : forall row, orow = Some row -> (fc_position row <= log_head envs)%N
}.

Hypothesis Hrow : resumable.

Lemma log_head_bound : (log_head envs <= max_int64)%N.
Proof.
  unfold log_head. destruct (last envs) as [e|] eqn:Hl; simpl; [|done]. apply last_Some_elem_of in Hl.
  destruct Hdb as [db Hi]. pose proof (numbered_elem _ _ _ _ (li_positions _ _ Hi) Hl). lia.
Qed.

Lemma succeeds_cursor :
  succeeds (call s req owner (on_db (checkpoint_Checkpoint (rq_Scope req) (rq_Projection req) (rq_Instance req))))
    (fun found => check_definition req (default zero_Checkpoint found) = Ok tt
                  /\ (cp_Position (default zero_Checkpoint found) <= log_head envs)%N).
Proof.
  intros w rn Hw. unfold call. rewrite yield_healthy by done.
  pose proof (checkpoint_Checkpoint_quiet (rq_Scope req) (rq_Projection req) (rq_Instance req) (fw_world w)) as Hq.
  assert (exists found, (checkpoint_Checkpoint (rq_Scope req) (rq_Projection req) (rq_Instance req) (fw_world w)).1 = Ok found
    /\ check_definition req (default zero_Checkpoint found) = Ok tt
    /\ (cp_Position (default zero_Checkpoint found) <= log_head envs)%N) as (found & Ef & Hd & Hp).
  { unfold checkpoint_Checkpoint, bind, catch, query, exec. rewrite Hnf. simpl. fold cursor_key. rewrite (hl_row w Hw).
    destruct orow as [row|] eqn:Eo; [|exists None; split; [done|]; split; [done|simpl; lia]].
    destruct (rs_time Hrow row Eo) as [t ->]. eexists. split; [reflexivity|]. simpl.
    split; [|by apply (rs_position Hrow)]. unfold check_definition. simpl.
    destruct (rs_definition Hrow row Eo) as [->| ->]; [done|]. rewrite (bool_decide_true (definition_Hash (rq_Definition req) = definition_Hash (rq_Definition req))) by done.
    by rewrite andb_false_r. }
  unfold on_db, others_step. rewrite (hl_others w Hw). destruct (checkpoint_Checkpoint _ _ _ (fw_world w)) as [r x].
  simpl in *. subst r. destruct Hq as (H1 & H2 & H3 & _). exists found, (set_world x w), rn. split; [done|]. split; [|done].
  destruct Hw. split; [|done]. split; try done; simpl; [by eapply log_inv_ext|by rewrite H3].
Qed.

Lemma succeeds_stream fuel batch : (0 < batch)%Z ->
  succeeds (stream s req owner fuel (collect accept_all) batch) (fun r => is_Some r).
Proof.
  intros Hb. unfold stream. rewrite (as_Logs _ _ Has), (as_Checkpoints _ _ Has).
  eapply (succeeds_bind _ _ (fun log => log = sqlite_Log cap)).
  { apply succeeds_wrap. intros w rn Hw. unfold call. rewrite yield_healthy by done.
    eexists _, _, _. split; [reflexivity|]. split; [by apply steady_refl|done]. }
  intros log ->. eapply succeeds_bind; [apply succeeds_wrap, succeeds_cursor|]. intros found [Hd Hp].
  eapply (succeeds_bind _ _ (fun _ => True)).
  { rewrite Hd. intros w rn Hw. exists tt, w, rn. split; [done|]. split; [by apply steady_refl|done]. }
  intros _ _. eapply succeeds_bind; [apply succeeds_wrap, succeeds_Head|]. intros h ->.
  eapply (succeeds_bind _ _ (fun r => r = Some (cp_Position (default zero_Checkpoint found)))).
  { destruct fuel; simpl; rewrite (proj2 (N.leb_le _ _) Hp); by apply succeeds_ret. }
  intros r ->. cbv beta iota. pose proof log_head_bound.
  eapply succeeds_bind; [apply succeeds_loop; [done|simpl; lia]|]. intros st _. apply succeeds_ret. eauto.
Qed.
End Healthy.
