(* ===== verification/FeedClaims.v ===== *)
(** * Properties of the assembled feed

    The server over its SQLite adapters: delivery without gaps, catching up,
    page contents, fenced acknowledgements, audited skips, definition drift and
    lag. *)
From S2P Require Import Prelude Sha256 Es Hash Chain Anchor Timestamp Effect Store Sql Sqlite.
From S2P Require Import SqliteCorrect SqliteTheorems HexUuid SqliteClaims Definitions FeedPorts.
From S2P Require Import Feed FeedContract FeedCorrect SqliteFeed SqliteFeedCorrect FeedSqlite.
From S2P Require Import FeedHealthy SqliteLeases.

(** ** Delivery *)

(** Where a stored cursor resumes. *)
Definition start_of (orow : option FeedCheckpointRow) : N :=
  match orow with Some row => fc_position row | None => 0%N end.

(** The subscription's cursor is [orow] and other processes do not touch it. *)
Definition cursor_is (req : Request) (orow : option FeedCheckpointRow)
    (m : gmap (string * string * string) FeedCheckpointRow) : Prop := m !! cursor_key req = orow.

Section Delivery.
Context `{UuidLib} `{Env}.
Variable cap : Z.

Lemma Checkpoint_position sc p i x found y :
  checkpoint_Checkpoint sc p i x = (Ok found, y) ->
  cp_Position (default zero_Checkpoint found) = start_of (d_feed_checkpoints (w_db x) !! (sc, p, i)).
Proof.
  unfold checkpoint_Checkpoint. intros Hrun. run_ok Hrun. apply query_Ok in Hm as [[= <-] _].
  destruct (d_feed_checkpoints (w_db x) !! (sc, p, i)) as [row|]; [|by injection Hrun as <- _].
  destruct (parseTS _) as [t|e]; [|done]. by injection Hrun as <- _.
Qed.

Lemma cursor_position req orow s wa La Sa found wb :
  assembled cap s -> feed_rep cap (cursor_is req orow) wa La Sa ->
  cs_Checkpoint (Checkpoints s) (rq_Scope req) (rq_Projection req) (rq_Instance req) wa = (Ok found, wb) ->
  cp_Position (default zero_Checkpoint found) = start_of orow.
Proof.
  intros Has HR. rewrite (as_Checkpoints _ _ Has). cbn. unfold on_db.
  destruct (others_step_rep cap _ _ _ _ HR) as (L' & _ & [_ Hst _ _]).
  destruct (checkpoint_Checkpoint _ _ _ _) as [r x] eqn:Hc. intros [= -> _].
  apply Checkpoint_position in Hc. rewrite Hc. unfold cursor_is, cursor_key in Hst. by rewrite Hst.
Qed.

(** A run of Subscribe, against the stored cursor. *)
Lemma Subscribe_delivers accept s req orow fuel w L r w' :
  clock_ok -> assembled cap s -> feed_rep cap (cursor_is req orow) w L (fw_sent w) ->
  (start_of orow <= log_head L)%N ->
  Subscribe s fuel req (Some (collect accept)) w = (r, w') ->
  exists L' pos, L `prefix_of` L' /\ reachable cap (fw_world w') L' /\ (start_of orow <= pos)%N
    /\ fw_sent w' = fw_sent w ++ delivered (df_Consumes (rq_Definition req)) (start_of orow) pos L'
    /\ forall st, r = Ok (Some st) -> (backlog req pos L <= backlog req (start_of orow) L - fuel)%nat.
Proof.
  intros Hclk Has HR Hle Hrun. pose proof (sqlite_FeedLaws cap (cursor_is req orow) Hclk accept s (rq_Scope req) Has) as HFL.
  destruct (Subscribe_spec s (collect accept) _ True req fuel w L (fw_sent w) r w' HR Hrun)
    as [(L' & HL & HR' & Hne)|(from & pos & L' & S' & Hres & HR' & Hsb & Hok)].
  - exists L', (start_of orow). rewrite delivered_nil, app_nil_r. destruct HR' as [Hre _ Hs _].
    split; [done|]. split; [done|]. split; [lia|]. split; [done|]. intros st Hst. by apply Hne in Hst.
  - destruct Hres as (wa & wb & La & found & HRa & Hcp & _ & _ & Heq).
    pose proof (cursor_position _ _ _ _ _ _ _ _ Has HRa Hcp) as Hpos. rewrite Hpos in Heq. specialize (Heq Hle). subst from.
    exists L', pos. destruct HR' as [Hre _ Hs _], Hsb as [HL Hadv Hsent].
    split; [done|]. split; [done|]. split; [by eapply advanced_le|]. split; [congruence|].
    intros st Hst. by apply (Hok st Hst).
Qed.

(** With no backlog left, what was delivered is the whole backlog. *)
Lemma delivered_all types from pos L :
  (from <= pos)%N -> matching types pos L = [] -> delivered types from pos L = matching types from L.
Proof.
  intros Hle Hm. apply filter_iff_in. intros e He. split; intros [? ?]; (split; [|done]); [lia|].
  destruct (N.le_gt_cases (GlobalPosition e) pos) as [|Hgt]; [lia|]. exfalso.
  assert (e ∈ matching types pos L) as Hin by (by apply list_elem_of_filter). rewrite Hm in Hin.
  by apply not_elem_of_nil in Hin.
Qed.

(** The log a database stands for is unique. *)
Lemma log_inv_unique db L L' : log_inv db L -> log_inv db L' -> L = L'.
Proof.
  intros H1 H2. pose proof (scan_stored L (li_wf _ _ H1)) as E1. pose proof (scan_stored L' (li_wf _ _ H2)) as E2.
  rewrite <- (li_rows _ _ H1), (li_rows _ _ H2), E2 in E1. by injection E1.
Qed.

Lemma healthy_Acquire envs req orow w owner ttl :
  no_fault -> healthy envs req orow w ->
  d_feed_leases (w_db (fw_world w)) !! leaseKey (rq_Scope req) (rq_Projection req) (rq_Instance req) = None ->
  exists w1, le_Acquire sqlite_Leases (rq_Scope req) (rq_Projection req) (rq_Instance req) owner (rq_Consumer req) ttl w
    = (true, None, w1) /\ healthy envs req orow w1.
Proof.
  intros Hnf Hw Hfree. cbn. unfold on_db, others_step. rewrite (hl_others _ _ _ _ Hw).
  pose proof (lease_Acquire_quiet (rq_Scope req) (rq_Projection req) (rq_Instance req) owner (rq_Consumer req) ttl (fw_world w)) as Hq.
  destruct (lease_Acquire _ _ _ _ _ _ (fw_world w)) as [r x] eqn:HA.
  assert (r = Ok true) as ->.
  { revert HA. unfold lease_Acquire, bind, catch, Now, exec. rewrite Hnf. cbn. unfold upsert_lease. rewrite Hfree.
    by intros [= <- _]. }
  eexists. split; [reflexivity|]. simpl in Hq. destruct Hq as (H1 & H2 & H3 & _), Hw.
  split; try done; simpl; [by eapply log_inv_ext|by rewrite H3].
Qed.

Lemma healthy_Subscribe envs req orow s fuel w :
  no_fault -> assembled cap s -> healthy envs req orow w -> within_caps cap envs s -> resumable envs req orow ->
  (N.of_nat (length envs) <= max_int64)%N -> validateRequest req (Some (collect accept_all)) = Ok tt ->
  d_feed_leases (w_db (fw_world w)) !! leaseKey (rq_Scope req) (rq_Projection req) (rq_Instance req) = None ->
  exists st w', Subscribe s fuel req (Some (collect accept_all)) w = (Ok (Some st), w') /\ healthy envs req orow w'.
Proof.
  intros Hnf Has Hw Hcaps Hres Hroom Hv Hfree. unfold Subscribe. unfold bind at 1, lift. rewrite Hv. unfold bind at 1.
  apply validateRequest_Ok in Hv as [_ Ht].
  assert (exists owner w1, (if bool_decide (rq_Owner req = EmptyString) then newOwner s else ret (rq_Owner req)) w = (Ok owner, w1)
    /\ healthy envs req orow w1 /\ d_feed_leases (w_db (fw_world w1)) = d_feed_leases (w_db (fw_world w)))
    as (owner & w1 & -> & Hw1 & Hl1).
  { case_bool_decide; [|by exists (rq_Owner req), w]. unfold newOwner. rewrite (as_Clock _ _ Has). cbn.
    eexists _, _. split; [reflexivity|]. split; [|done]. destruct Hw. by split. }
  rewrite <- Hl1 in Hfree. destruct (healthy_Acquire _ _ _ _ owner (LeaseTTL s) Hnf Hw1 Hfree) as (w2 & HA & Hw2).
  rewrite (as_Leases _ _ Has), HA. cbn [negb].
  assert (healthy envs req orow (fx_withCancel w2)) as Hw3 by (destruct Hw2; by split).
  destruct (succeeds_stream cap Hnf envs req orow s Has owner Hcaps Ht Hroom (ex_intro _ _ (hl_log _ _ _ _ Hw)) Hres fuel
    (batchSize s (rq_BatchSize req)) (batchSize_pos s _) (fx_withCancel w2) (MkRenewer true None) Hw3)
    as (r & w4 & rn4 & HS & HST & [st ->]).
  rewrite HS. exists st, w4. split; [done|]. apply HST.
Qed.
End Delivery.

(** C7: a subscription never skips and never repeats.  Whatever other processes
    append meanwhile, however the lease renewer is scheduled and whenever the
    subscription ends, the sink has received exactly the consumed events from
    the stored cursor up to some position, in log order. *)
Theorem feed_no_gap `{UuidLib} `{Env} cap accept s req orow fuel w L r w' :
  clock_ok -> assembled cap s -> feed_rep cap (cursor_is req orow) w L (fw_sent w) ->
  (start_of orow <= log_head L)%N ->
  Subscribe s fuel req (Some (collect accept)) w = (r, w') ->
  exists L' pos, L `prefix_of` L' /\ reachable cap (fw_world w') L' /\ (start_of orow <= pos)%N
    /\ fw_sent w' = fw_sent w ++ delivered (df_Consumes (rq_Definition req)) (start_of orow) pos L'.
Proof.
  intros Hclk Has HR Hle Hrun.
  destruct (Subscribe_delivers _ _ _ _ _ _ _ _ _ _ Hclk Has HR Hle Hrun) as (L' & pos & ? & ? & ? & ? & _). by exists L', pos.
Qed.

(** C18: a healthy subscription catches up: when the database does not fail, nobody
    else writes, the lease is free and no payload is over a cap, then after as
    many iterations as the backlog has events the subscription is still
    running and the sink has received the whole backlog and nothing else. *)
Theorem feed_catches_up `{UuidLib} `{Env} cap s req orow fuel w L :
  no_fault -> clock_ok -> assembled cap s -> reachable cap (fw_world w) L -> healthy L req orow w ->
  within_caps cap L s -> resumable L req orow -> (N.of_nat (length L) <= max_int64)%N ->
  validateRequest req (Some (collect accept_all)) = Ok tt ->
  d_feed_leases (w_db (fw_world w)) !! leaseKey (rq_Scope req) (rq_Projection req) (rq_Instance req) = None ->
  (backlog req (start_of orow) L <= fuel)%nat ->
  exists st w', Subscribe s fuel req (Some (collect accept_all)) w = (Ok (Some st), w')
    /\ fw_sent w' = fw_sent w ++ matching (df_Consumes (rq_Definition req)) (start_of orow) L.
Proof.
  intros Hnf Hclk Has Hre Hw Hcaps Hres Hroom Hv Hfree Hfuel.
  destruct (healthy_Subscribe cap L req orow s fuel w) as (st & w' & HS & Hw'); try done. exists st, w'. split; [done|].
  assert (start_of orow <= log_head L)%N as Hle.
  { destruct orow as [row|]; simpl; [by apply (rs_position _ _ _ Hres)|lia]. }
  destruct (Subscribe_delivers cap accept_all s req orow fuel w L (Ok (Some st)) w' Hclk Has) as (L' & pos & HL & Hre' & Hle' & Hsent & Hb);
    [|done|done|].
  { split; [done|apply (hl_row _ _ _ _ Hw)|done|by rewrite (hl_others _ _ _ _ Hw)]. }
  assert (L' = L) as ->.
  { eapply log_inv_unique; [apply (reachable_inv _ _ _ Hclk Hre')|apply (hl_log _ _ _ _ Hw')]. }
  rewrite Hsent. f_equal. apply delivered_all; [done|]. apply length_zero_iff_nil. specialize (Hb st eq_refl).
  unfold backlog in *. lia.
Qed.

(** ** A concrete feed *)

Definition demo_server : Server fworld :=
  @MkServer fworld (@sqlite_Checkpoints calm_env) (@sqlite_Leases calm_env) (@sqlite_Open HexUuid calm_env 0) None
    (@fx_Now fworld (@sqlite_feed_env calm_env)) (Some (@sqlite_DeadLetters calm_env)) record_signal
    500 1000 (Z.shiftl 8 20) (Z.shiftl 16 20) (250 * Millisecond) (30 * Second) (10 * Second) "0000000000000000"
    (Some (@fx_jitter fworld (@sqlite_feed_env calm_env))).

Definition zero_tunables : tunables := MkTunables 0 0 0 0 0 0 0.

(** Two events are stored; another process appends while the renewer ticks. *)
Definition busy : fworld :=
  MkFworld world1 [] [] [let! _ := @Append HexUuid calm_env 0 (sample_append 2 [102]%nat []) in ret tt] [1; 0; 2]%nat None false 0 false.

Definition quiet_world : fworld := MkFworld world1 [] [] [] [] None false 0 false.

Definition demo_req : Request :=
  MkRequest "t1" "totals" "" "worker-a" "a" (MkDefinition "totals" ["counter.v1.Incremented"%string]) 0.

(** NewServer with all defaults builds this server. *)
Lemma demo_new :
  (@NewServer fworld (@sqlite_feed_env calm_env) (@sqlite_Config HexUuid calm_env 0 zero_tunables)
    (MkFworld world0 [] [] [] [] None false 0 false)).1 = Ok demo_server.
Proof. unfold demo_server. cbn. reflexivity. Qed.

Lemma demo_assembled : @assembled HexUuid calm_env 0 demo_server.
Proof.
  pose proof demo_new as Hn. eapply (@NewServer_assembled HexUuid calm_env).
  rewrite (surjective_pairing (NewServer _ _)), Hn. reflexivity.
Qed.

#[local] Opaque world1 envs1.

(** The sample append wrote two events and left the feed tables empty. *)
Lemma world1_feed :
  d_feed_checkpoints (w_db world1) = ∅ /\ d_feed_leases (w_db world1) = ∅.
Proof.
  split.
  - rewrite (keeps_run d_feed_checkpoints _ _ _ _ (Append_keeps 0 d_feed_checkpoints _ (fun _ _ _ => eq_refl) (fun _ _ => eq_refl)) run1).
    reflexivity.
  - rewrite (keeps_run d_feed_leases _ _ _ _ (Append_keeps 0 d_feed_leases _ (fun _ _ _ => eq_refl) (fun _ _ => eq_refl)) run1).
    reflexivity.
Qed.

Lemma busy_rep : @feed_rep HexUuid calm_env 0 (cursor_is demo_req None) busy envs1 (fw_sent busy).
Proof.
  split; [apply reach1| |done|].
  - unfold cursor_is. simpl. rewrite (proj1 world1_feed). apply lookup_empty.
  - apply Forall_singleton. apply (@append_well_behaved HexUuid calm_env 0), sample_occurred.
Qed.

Lemma feed_no_gap_witness :
  exists L' pos, envs1 `prefix_of` L'
    /\ fw_sent (@Subscribe fworld (@sqlite_feed_env calm_env) demo_server 3 demo_req (Some (collect accept_all)) busy).2
       = delivered ["counter.v1.Incremented"%string] 0 pos L'.
Proof.
  destruct (@feed_no_gap HexUuid calm_env 0 accept_all demo_server demo_req None 3 busy envs1 _ _
    calm_clock_ok demo_assembled busy_rep (N.le_0_l _) (surjective_pairing _)) as (L' & pos & HL & _ & _ & HS).
  exists L', pos. split; [exact HL|exact HS].
Defined.

Lemma envs1_events : map (fun e => (TypeURL e, Payload e)) envs1 =
  [("counter.v1.Incremented"%string, [Byte.x08]); ("counter.v1.Incremented"%string, [Byte.x08])].
Proof.
  destruct envs1_carries as (o & rc & Hc). simpl in Hc. revert Hc. generalize envs1. intros l Hc.
  apply Forall2_cons_inv_l in Hc as (e1 & l1 & H1 & Hc & ->).
  apply Forall2_cons_inv_l in Hc as (e2 & l2 & H2 & Hc & ->). apply Forall2_nil_inv_l in Hc as ->.
  simpl. by rewrite (ca_url _ _ _ _ _ H1), (ca_url _ _ _ _ _ H2), (ca_payload _ _ _ _ _ H1), (ca_payload _ _ _ _ _ H2).
Qed.

Lemma envs1_elem e : e ∈ envs1 -> TypeURL e = "counter.v1.Incremented"%string /\ Payload e = [Byte.x08].
Proof.
  intros He. apply (list_elem_of_fmap_2 (fun e => (TypeURL e, Payload e))) in He.
  change ((fun e => (TypeURL e, Payload e)) <$> envs1) with (map (fun e => (TypeURL e, Payload e)) envs1) in He.
  rewrite envs1_events in He. apply elem_of_cons in He as [[= ? ?]|[[= ? ?]|[]%not_elem_of_nil]%elem_of_cons]; done.
Qed.

Lemma envs1_matching : matching ["counter.v1.Incremented"%string] 0 envs1 = envs1.
Proof.
  apply filter_true. intros e He. pose proof (numbered_elem _ _ _ _ (li_positions _ _ inv1) He).
  destruct (envs1_elem e He) as [-> _]. split; [lia|by left].
Qed.

Lemma quiet_healthy : @healthy HexUuid envs1 demo_req None quiet_world.
Proof. split; [done|done|done|done|apply inv1|]. simpl. rewrite (proj1 world1_feed). apply lookup_empty. Qed.

Lemma feed_catches_up_witness :
  exists st w', @Subscribe fworld (@sqlite_feed_env calm_env) demo_server 2 demo_req (Some (collect accept_all)) quiet_world
    = (Ok (Some st), w') /\ fw_sent w' = envs1.
Proof.
  pose proof (f_equal length envs1_events) as Hlen. rewrite length_map in Hlen. simpl in Hlen.
  destruct (@feed_catches_up HexUuid calm_env 0 demo_server demo_req None 2 quiet_world envs1) as (st & w' & HS & Hsent).
  - exact calm_no_fault.
  - exact calm_clock_ok.
  - apply demo_assembled.
  - apply reach1.
  - apply quiet_healthy.
  - intros e He. destruct (envs1_elem e He) as [_ ->]. split; [lia|]. intros _. vm_compute. congruence.
  - split; intros row Hrow; discriminate Hrow.
  - rewrite Hlen. vm_compute. congruence.
  - by vm_compute.
  - simpl. rewrite (proj2 world1_feed). apply lookup_empty.
  - unfold backlog. change (df_Consumes (rq_Definition demo_req)) with ["counter.v1.Incremented"%string].
    change (start_of None) with 0%N. rewrite envs1_matching, Hlen. lia.
  - exists st, w'. split; [exact HS|]. rewrite Hsent. exact envs1_matching.
Defined.

(** ** Pages *)

(** C26: a page of the feed is exact.  On a database that does not fail,
    ReadAllBounded returns a prefix of the backlog in log order: at most
    [limit] events, empty only if there is no backlog, complete unless the
    limit or a truncation says otherwise, [truncated] only if events remain,
    no payload over the store's cap, and within the byte budget unless it
    holds a single event.  It fails only by naming the first event of the
    backlog, when that event's payload is over the cap. *)
Theorem feed_page_exact `{UuidLib} `{Env} cap from limit maxBytes types w envs :
  no_fault -> log_inv (w_db w) envs -> (0 < limit)%Z -> types <> [] -> (from <= max_int64)%N ->
  match (ReadAllBounded cap from limit maxBytes types w).1 with
  | Ok (page, tr) => page_of cap envs from limit maxBytes types page tr
  | Err e => exists x rest, matching types from envs = x :: rest /\ (0 < cap < Z.of_nat (length (Payload x)))%Z
      /\ e = EventTooLargeError (GlobalPosition x) (TypeURL x) (Z.of_nat (length (Payload x))) cap
  end.
Proof. intros Hnf Hi Hl Ht Hfr. by apply ReadAllBounded_total. Qed.

(** A budget of one byte: the second event is left for the next page. *)
Lemma feed_page_exact_witness :
  exists page, (@ReadAllBounded HexUuid calm_env 0 0 10 1 ["counter.v1.Incremented"%string] world1).1 = Ok (page, true)
    /\ length page = 1%nat /\ page `prefix_of` envs1.
Proof.
  pose proof (@feed_page_exact HexUuid calm_env 0 0 10 1 ["counter.v1.Incremented"%string] world1 envs1
    calm_no_fault inv1 ltac:(lia) ltac:(done) ltac:(vm_compute; congruence)) as HP.
  pose proof (f_equal length envs1_events) as Hlen. rewrite length_map in Hlen. simpl in Hlen.
  destruct (ReadAllBounded _ _ _ _ _ world1).1 as [[page tr]|e].
  - destruct HP as [[Hpre Hlim Hprog Hcomp] Htr Hcap Hbud]. rewrite envs1_matching in *.
    assert (page <> []) as Hne by (intros ->; specialize (Hprog eq_refl); rewrite Hprog in Hlen; discriminate).
    assert (length page = 1%nat) as Hl.
    { specialize (Hbud ltac:(lia)). destruct page as [|x [|y page]]; [done|done|]. exfalso.
      assert (x ∈ envs1 /\ y ∈ envs1) as [Hx Hy] by (destruct Hpre as [K HK]; rewrite HK; split; [by left|right; by left]).
      destruct (envs1_elem x Hx) as [_ Px], (envs1_elem y Hy) as [_ Py]. simpl in Hbud. rewrite Px, Py in Hbud.
      simpl length in Hbud. assert (0 <= foldr (fun e n => Z.of_nat (length (Payload e)) + n) 0 page)%Z.
      { clear. induction page; simpl; lia. } lia. }
    exists page. split; [|done]. destruct tr; [done|]. exfalso.
    rewrite (Hcomp eq_refl ltac:(lia)) in Hl. lia.
  - exfalso. destruct HP as (x & rest & _ & Hc & _). lia.
Defined.
