(* ===== verification/FeedOpsClaims.v ===== *)
(** * Properties of the feed's cursor operations

    Fenced acknowledgements and the race the fence leaves open, audited skips,
    resets and definition drift, status, and the release of leases, for the
    server over its SQLite adapters. *)
From S2P Require Import Prelude Sha256 Es Hash Chain Anchor Timestamp Effect Store Sql Sqlite.
From S2P Require Import SqliteCorrect SqliteTheorems HexUuid SqliteClaims Definitions FeedPorts.
From S2P Require Import Feed FeedContract FeedCorrect SqliteFeed SqliteFeedCorrect FeedSqlite.
From S2P Require Import FeedHealthy SqliteLeases FeedClaims.

#[local] Opaque world1 envs1.

Section Ops.
Context `{UuidLib} `{Env}.
Variable cap : Z.

(** A port call with no other process at work. *)
Lemma on_db_alone {A} (m : M DB A) w r w' :
  fw_others w = [] -> on_db m w = (r, w') -> exists x, m (fw_world w) = (r, x) /\ w' = set_world x w.
Proof.
  intros Ho. unfold on_db, others_step. rewrite Ho. destruct (m (fw_world w)) as [a x]. intros [= <- <-]. by exists x.
Qed.

Lemma on_db_run {A} (m : M DB A) w r x :
  fw_others w = [] -> m (fw_world w) = (r, x) -> on_db m w = (r, set_world x w).
Proof. intros Ho Hm. unfold on_db, others_step. by rewrite Ho, Hm. Qed.

Lemma Holder_keeps sc p i w : w_db (lease_Holder sc p i w).2 = w_db w.
Proof. assert (pure_db (lease_Holder sc p i)) as Hp by (unfold lease_Holder; auto 20 with eslite). apply Hp. Qed.

(** The row that fences a key at an instant. *)
Definition live_row (db : DB) (key : string) (now : time) : option LeaseRow :=
  match d_feed_leases db !! key with
  | Some row => if (now <? lr_expires_at_ns row)%Z then Some row else None
  | None => None
  end.

Definition row_lease (row : LeaseRow) : Lease := MkLease (lr_owner row) (lr_consumer row) (lr_expires_at_ns row).

Lemma Holder_live sc p i w r w' :
  nano_clock -> lease_Holder sc p i w = (Ok r, w') ->
  r = row_lease <$> live_row (w_db w) (leaseKey sc p i) (clock (w_tick w)).
Proof.
  intros Hn HH. rewrite (Holder_row _ _ _ _ _ _ Hn HH). unfold live_row.
  destruct (d_feed_leases (w_db w) !! leaseKey sc p i); [|done]. by destruct (_ <? _)%Z.
Qed.

Lemma Holder_healthy sc p i w : no_fault -> exists r w', lease_Holder sc p i w = (Ok r, w').
Proof.
  intros Hnf. unfold lease_Holder, bind, catch, Now, query, exec. rewrite Hnf. cbn. eauto.
Qed.

Lemma Save_healthy sc p i d pos w :
  no_fault -> (pos <= max_int64)%N -> exists w', checkpoint_Save sc p i d pos w = (Ok tt, w').
Proof.
  intros Hnf Hp. unfold checkpoint_Save, bind, Now, catch, lift, bind_uint64. rewrite (proj2 (N.leb_le _ _) Hp).
  unfold exec. rewrite Hnf. cbn. eauto.
Qed.
End Ops.

(** C20: acknowledgements are fenced, over SQLite and as long as no other process
    touches the database during the call (the holder check and the save are two
    statements, see [ack_race_advances_cursor]).  An ack that succeeds came from
    the owner of a lease that had not expired, and moved the cursor to the
    maximum of the old and the acked position under the acked definition; an
    ack that fails, for whatever reason, leaves every cursor as it was.  When
    moreover the database does not fail, the key is valid and the position fits
    an int64, an ack is accepted exactly when the key is held by its owner; it
    is refused with ErrLeaseLost when nobody holds the key and with
    ErrLeaseHeld when another owner does. *)
Theorem ack_fenced `{UuidLib} `{Env} cap s ack w r w' :
  assembled cap s -> nano_clock -> fw_others w = [] -> server_Checkpoint s ack w = (r, w') ->
  let db := w_db (fw_world w) in let db' := w_db (fw_world w') in
  let sc := ak_Scope ack in let p := ak_Projection ack in let i := ak_Instance ack in
  let live := live_row db (leaseKey sc p i) (clock (w_tick (fw_world w))) in
  match r with
  | Ok _ => (exists row, live = Some row /\ lr_owner row = ak_Owner ack)
      /\ cursor db' sc p i = N.max (cursor db sc p i) (ak_Position ack)
      /\ cursor_definition db' sc p i = (if bool_decide (ak_Definition ack = EmptyString) then cursor_definition db sc p i else ak_Definition ack)
  | Err _ => d_feed_checkpoints db' = d_feed_checkpoints db
  end
  /\ (no_fault -> validateKey sc p i = Ok tt -> (ak_Position ack <= max_int64)%N ->
      match live with
      | None => exists e, r = Err e /\ Is e ErrLeaseLost = true
      | Some row => if bool_decide (lr_owner row = ak_Owner ack) then r = Ok tt
                    else exists e, r = Err e /\ Is e ErrLeaseHeld = true
      end).
Proof.
  intros Has Hn Ho Hrun. cbv zeta. unfold server_Checkpoint in Hrun. rewrite (as_Leases _ _ Has), (as_Checkpoints _ _ Has) in Hrun.
  unfold bind at 1, lift in Hrun. destruct (validateKey _ _ _) as [[]|e].
  2:{ injection Hrun as <- <-. done. }
  unfold bind at 1, catch in Hrun. cbn [le_Holder sqlite_Leases] in Hrun.
  destruct (on_db (lease_Holder _ _ _) w) as [rh w1] eqn:HH.
  apply on_db_alone in HH as (x & HH & ->); [|done].
  pose proof (Holder_keeps (ak_Scope ack) (ak_Projection ack) (ak_Instance ack) (fw_world w)) as Hk. rewrite HH in Hk. simpl in Hk.
  destruct rh as [holder|e].
  2:{ injection Hrun as <- <-. simpl. rewrite Hk. split; [done|]. intros Hnf _ _.
      destruct (Holder_healthy (ak_Scope ack) (ak_Projection ack) (ak_Instance ack) (fw_world w) Hnf) as (? & ? & E). congruence. }
  rewrite (Holder_live _ _ _ _ _ _ Hn HH) in Hrun. clear HH holder.
  destruct (live_row _ _ _) as [row|]; simpl in Hrun.
  2:{ injection Hrun as <- <-. simpl. rewrite Hk. split; [done|]. intros _ _ _. eexists. split; [done|]. by vm_compute. }
  destruct (bool_decide (lr_owner row = ak_Owner ack)) eqn:Hown; simpl in Hrun.
  2:{ injection Hrun as <- <-. simpl. rewrite Hk. split; [done|]. intros _ _ _. eexists. split; [done|]. by vm_compute. }
  unfold bind in Hrun. destruct (on_db (checkpoint_Save _ _ _ _ _) _) as [rs w2] eqn:HS.
  apply on_db_alone in HS as (y & HS & ->); [|done]. pose proof (Save_effect _ _ _ _ _ _ _ _ HS) as He. simpl in HS.
  destruct rs as [[]|e].
  - unfold observe in Hrun. injection Hrun as <- <-. rewrite (as_Observer _ _ Has). simpl in *. rewrite Hk in He.
    destruct He as (Hc & Hd & _). apply bool_decide_eq_true in Hown. split; [|done]. split; [by exists row|]. done.
  - injection Hrun as <- <-. simpl in *. rewrite He, Hk. split; [done|]. intros Hnf _ Hp.
    destruct (Save_healthy (ak_Scope ack) (ak_Projection ack) (ak_Instance ack) (ak_Definition ack) (ak_Position ack) x Hnf Hp) as [? E].
    congruence.
Qed.

(** Worker a holds the key and acks position 7. *)
Definition t0 : Z := 1772532000000000000.
Definition held_by_a : DB :=
  set_feed_leases {[ leaseKey "t1" "totals" "" := MkLeaseRow "a" "worker-a" (t0 + Second) ]} empty_db.
Definition ack7 : Ack := MkAck "t1" "totals" "" "a" 7 "h1".

Lemma ack_fenced_witness :
  cursor (w_db (fw_world (@server_Checkpoint fworld demo_server ack7 (MkFworld (MkWorld held_by_a 0) [] [] [] [] None false 0 false)).2))
    "t1" "totals" "" = 7%N.
Proof.
  destruct (@ack_fenced HexUuid calm_env 0 demo_server ack7 (MkFworld (MkWorld held_by_a 0) [] [] [] [] None false 0 false) _ _
    demo_assembled calm_nano eq_refl (surjective_pairing _)) as [HO HH].
  assert ((@server_Checkpoint fworld demo_server ack7 (MkFworld (MkWorld held_by_a 0) [] [] [] [] None false 0 false)).1 = Ok tt) as E.
  { assert (0 < t0 + Second)%Z by (by vm_compute). specialize (HH calm_no_fault eq_refl ltac:(vm_compute; congruence)).
    exact HH. }
  rewrite E in HO. destruct HO as (_ & HC & _). exact HC.
Defined.

(** The same ack, but the lease expires after the holder check and another
    worker takes the key before the save. *)
Definition race_world : fworld :=
  MkFworld (MkWorld held_by_a 0) [] []
    [ret tt; let! _ := @lease_Acquire calm_env "t1" "totals" "" "b" "worker-b" (30 * Second) in ret tt] [] None false 0 false.

(** The fence is not atomic: in this schedule the lease expires between the
    holder check and the save, another owner takes it, and the stale owner's
    ack is accepted and advances the cursor the new owner resumes from. *)
Example ack_race_advances_cursor :
  exists w', @server_Checkpoint fworld demo_server ack7 race_world = (Ok tt, w')
    /\ cursor (w_db (fw_world race_world)) "t1" "totals" "" = 0%N
    /\ cursor (w_db (fw_world w')) "t1" "totals" "" = 7%N
    /\ lr_owner <$> d_feed_leases (w_db (fw_world w')) !! leaseKey "t1" "totals" "" = Some "b"%string.
Proof.
  eexists. split; [rewrite (surjective_pairing (server_Checkpoint _ _ _)); f_equal; by vm_compute|].
  split; [by vm_compute|]. split; by vm_compute.
Qed.

(** ** Skipping and resetting *)

Section Cursor.
Context `{UuidLib} `{Env}.
Variable cap : Z.

Lemma Reset_effect sc p i d pos w r w' :
  checkpoint_Reset sc p i d pos w = (r, w') ->
  match r with
  | Ok _ => cursor (w_db w') sc p i = pos
      /\ cursor_definition (w_db w') sc p i = (if bool_decide (d = EmptyString) then cursor_definition (w_db w) sc p i else d)
      /\ d_feed_dead_letters (w_db w') = d_feed_dead_letters (w_db w) /\ d_events (w_db w') = d_events (w_db w)
  | Err _ => w_db w' = w_db w
  end.
Proof.
  unfold checkpoint_Reset, bind, Now, catch, lift. destruct (bind_uint64 pos) as [v|e]; [|by intros [= <- <-]].
  unfold exec. cbn [tick w_tick w_db]. destruct (fault _); [by intros [= <- <-]|].
  unfold upsert_checkpoint. intros [= <- <-]. unfold cursor, cursor_definition. simpl.
  rewrite lookup_insert_eq. destruct (d_feed_checkpoints (w_db w) !! (sc, p, i)); simpl; [done|].
  split; [done|]. split; [by case_bool_decide|done].
Qed.

(** The audit row of a skip. *)
Definition audits (dl : DeadLetter) (db : DB) (row : DeadLetterRow) : Prop :=
  dl_reason row = dlt_Reason dl /\ dl_actor row = dlt_Actor dl
  /\ (dlt_TypeURL dl = EmptyString ->
      (dl_type_url row, dl_size_bytes row) = default (EmptyString, 0%Z) (name_event (dlt_Position dl) db)).

Lemma Record_effect dl w r w' :
  dead_letter_Record dl w = (r, w') ->
  match r with
  | Ok _ => (exists row, d_feed_dead_letters (w_db w') !! (dlt_Scope dl, dlt_Projection dl, dlt_Instance dl, dlt_Position dl) = Some row
               /\ audits dl (w_db w) row)
      /\ d_feed_checkpoints (w_db w') = d_feed_checkpoints (w_db w) /\ d_events (w_db w') = d_events (w_db w)
  | Err _ => w_db w' = w_db w
  end.
Proof.
  intros Hrun. destruct r as [[]|e].
  - unfold dead_letter_Record in Hrun. apply bind_Ok in Hrun as ([ty sz] & w1 & H1 & Hrun).
    assert (w_db w1 = w_db w /\ (dlt_TypeURL dl = EmptyString ->
      (ty, sz) = default (EmptyString, 0%Z) (name_event (dlt_Position dl) (w_db w)))) as [Hw1 Hty].
    { case_bool_decide as Ht.
      - run_ok H1. injection Hm0 as _ <-. apply query_Ok in Hm as [[= <-] Hdb]. injection H1 as <- <-. done.
      - by injection H1 as <- <- <-. }
    apply bind_Ok in Hrun as (created & w2 & H2 & Hrun).
    assert (w_db w2 = w_db w1) as Hw2 by (destruct (IsZero _); by injection H2 as _ <-).
    run_ok Hrun. injection Hm as _ <-. apply exec_Ok in Hrun. injection Hrun as <-. simpl. rewrite Hw2, Hw1.
    split; [|done]. eexists. rewrite lookup_insert_eq. split; [reflexivity|]. by split.
  - assert (err_keeps (dead_letter_Record dl)) as Hk; [|by eapply Hk].
    unfold dead_letter_Record. auto 20 with eslite.
Qed.

Lemma refuse_alone s sc p i w r w' :
  assembled cap s -> nano_clock -> fw_others w = [] -> refuseIfHeld s sc p i w = (r, w') ->
  w_db (fw_world w') = w_db (fw_world w) /\ fw_others w' = []
  /\ (r = Ok tt -> live_row (w_db (fw_world w)) (leaseKey sc p i) (clock (w_tick (fw_world w))) = None).
Proof.
  intros Has Hn Ho. unfold refuseIfHeld, bind, catch. rewrite (as_Leases _ _ Has). cbn [le_Holder sqlite_Leases].
  destruct (on_db (lease_Holder sc p i) w) as [rh w1] eqn:HH. apply on_db_alone in HH as (x & HH & ->); [|done].
  pose proof (Holder_keeps sc p i (fw_world w)) as Hk. rewrite HH in Hk. simpl in Hk.
  destruct rh as [h|e]; [|by intros [= <- <-]]. rewrite (Holder_live _ _ _ _ _ _ Hn HH).
  destruct (live_row _ _ _); simpl; intros [= <- <-]; done.
Qed.
End Cursor.

(** C27: a skip is audited before it advances.  With no other process at work and
    whatever database call fails, a cursor that Skip has moved has its audit
    row: the dead letter of the skipped position with the operator's reason
    and name and, when the position holds an event, its type and size.  A
    failed skip moves no cursor; a successful one sets the position, keeps the
    definition, changes no event, and unless forced met no live lease. *)
Theorem skip_audited `{UuidLib} `{Env} cap s sr w r w' :
  assembled cap s -> nano_clock -> fw_others w = [] -> Skip s sr w = (r, w') ->
  let db := w_db (fw_world w) in let db' := w_db (fw_world w') in
  let sc := sk_Scope sr in let p := sk_Projection sr in let i := sk_Instance sr in
  d_events db' = d_events db
  /\ match r with
     | Err _ => d_feed_checkpoints db' = d_feed_checkpoints db
     | Ok _ => cursor db' sc p i = sk_Position sr
         /\ cursor_definition db' sc p i = cursor_definition db sc p i
         /\ (exists row, d_feed_dead_letters db' !! (sc, p, i, sk_Position sr) = Some row
              /\ dl_reason row = sk_Reason sr /\ dl_actor row = sk_Actor sr
              /\ (dl_type_url row, dl_size_bytes row) = default (EmptyString, 0%Z) (name_event (sk_Position sr) db))
         /\ (sk_Force sr = false -> live_row db (leaseKey sc p i) (clock (w_tick (fw_world w))) = None)
     end.
Proof.
  intros Has Hn Ho Hrun. cbv zeta. unfold Skip in Hrun. unfold bind at 1, lift in Hrun.
  destruct (validateKey _ _ _) as [[]|e]; [|by injection Hrun as <- <-].
  unfold bind at 1 in Hrun.
  destruct ((if sk_Force sr then ret tt else refuseIfHeld s (sk_Scope sr) (sk_Projection sr) (sk_Instance sr)) w) as [rf w1] eqn:HF.
  assert (w_db (fw_world w1) = w_db (fw_world w) /\ fw_others w1 = [] /\ (sk_Force sr = false -> rf = Ok tt ->
    live_row (w_db (fw_world w)) (leaseKey (sk_Scope sr) (sk_Projection sr) (sk_Instance sr)) (clock (w_tick (fw_world w))) = None))
    as (Hw1 & Ho1 & Hlive).
  { destruct (sk_Force sr); [by injection HF as <- <-|].
    destruct (refuse_alone cap s _ _ _ _ _ _ Has Hn Ho HF) as (? & ? & ?). auto. }
  destruct rf as [[]|e]; [|injection Hrun as <- <-; by rewrite Hw1].
  unfold bind at 1, catch at 1 in Hrun. rewrite (as_Checkpoints _ _ Has) in Hrun. cbn [cs_Checkpoint cs_Reset sqlite_Checkpoints] in Hrun.
  destruct (on_db (checkpoint_Checkpoint _ _ _) w1) as [rc w2] eqn:HC. apply on_db_alone in HC as (x & HC & ->); [|done].
  assert (w_db x = w_db (fw_world w)) as Hx.
  { assert (pure_db (checkpoint_Checkpoint (sk_Scope sr) (sk_Projection sr) (sk_Instance sr))) as Hp
      by (unfold checkpoint_Checkpoint; auto 20 with eslite).
    specialize (Hp (fw_world w1)). rewrite HC in Hp. simpl in Hp. congruence. }
  destruct rc as [found|e]; [|injection Hrun as <- <-; simpl; by rewrite Hx].
  assert (cp_DefinitionHash (default zero_Checkpoint found)
    = cursor_definition (w_db (fw_world w)) (sk_Scope sr) (sk_Projection sr) (sk_Instance sr)) as Hdef.
  { unfold checkpoint_Checkpoint in HC. run_ok HC. apply query_Ok in Hm as [[= <-] _]. rewrite Hw1 in HC.
    unfold cursor_definition. destruct (d_feed_checkpoints (w_db (fw_world w)) !! _); [|by injection HC as <- _].
    destruct (parseTS _); [|done]. by injection HC as <- _. }
  rewrite (as_DeadLetters _ _ Has), (as_Clock _ _ Has) in Hrun. unfold bind at 1 in Hrun. cbn [fx_Now sqlite_feed_env] in Hrun.
  unfold catch at 1, sqlite_DeadLetters in Hrun.
  destruct (on_db (dead_letter_Record _) _) as [rr w3] eqn:HR. apply on_db_alone in HR as (y & HR & ->); [|exact Ho1].
  apply Record_effect in HR. simpl in HR. rewrite Hx in HR.
  destruct rr as [[]|e]; [|injection Hrun as <- <-; simpl; by rewrite HR].
  destruct HR as ((row & Hrow & Ha1 & Ha2 & Ha3) & Hcp & Hev).
  unfold catch in Hrun. destruct (on_db (checkpoint_Reset _ _ _ _ _) _) as [rs w4] eqn:HS.
  apply on_db_alone in HS as (z & HS & ->); [|exact Ho1]. apply Reset_effect in HS. simpl in HS.
  destruct rs as [[]|e]; injection Hrun as <- <-; simpl.
  - destruct HS as (Hpos & Hd & Hdl & Hev'). rewrite Hev', Hev. split; [done|]. split; [done|]. split.
    { rewrite Hd, Hdef. match goal with |- (if ?b then _ else _) = _ => destruct b end; [|reflexivity]. unfold cursor_definition. by rewrite Hcp. }
    split; [|auto]. exists row. rewrite Hdl. split; [done|]. split; [done|]. split; [done|]. by apply Ha3.
  - rewrite HS, Hev, Hcp. done.
Qed.

(** A three-byte event at position 2. *)
Definition poison_row : EventRow :=
  MkEventRow 2 "" "counter" "counter:main" 1 "counter.v1.Incremented" 1 "" "" "" "" "" "" "" "" [Byte.x01; Byte.x02; Byte.x03] None None.
Definition poisoned : fworld := MkFworld (MkWorld (set_events [poison_row] 2 empty_db) 0) [] [] [] [] None false 0 false.
Definition skip2 : SkipRequest := MkSkipRequest "t1" "totals" "" 2 "ops" "too big" false.

Lemma skip_audited_witness :
  cursor (w_db (fw_world (@Skip fworld demo_server skip2 poisoned).2)) "t1" "totals" "" = 2%N
  /\ exists row, d_feed_dead_letters (w_db (fw_world (@Skip fworld demo_server skip2 poisoned).2)) !! ("t1", "totals", "", 2%N)%string = Some row
       /\ dl_reason row = "too big"%string /\ dl_size_bytes row = 3%Z.
Proof.
  destruct (@skip_audited HexUuid calm_env 0 demo_server skip2 poisoned _ _ demo_assembled calm_nano eq_refl (surjective_pairing _))
    as [_ HS].
  assert ((@Skip fworld demo_server skip2 poisoned).1 = Ok tt) as E by (by vm_compute). rewrite E in HS.
  destruct HS as (HC & _ & (row & Hrow & Hr & _ & Hty) & _). split; [exact HC|]. exists row.
  split; [exact Hrow|]. split; [exact Hr|]. by injection Hty.
Defined.

(** Definition drift fails closed: while the stored cursor carries another
    definition's fingerprint, a subscription, however it is scheduled, sends
    nothing and never reaches its read loop. *)
Theorem drift_fails_closed `{UuidLib} `{Env} cap accept s req row fuel w L r w' :
  clock_ok -> assembled cap s -> feed_rep cap (cursor_is req (Some row)) w L (fw_sent w) ->
  fc_definition_hash row <> EmptyString -> fc_definition_hash row <> definition_Hash (rq_Definition req) ->
  Subscribe s fuel req (Some (collect accept)) w = (r, w') ->
  fw_sent w' = fw_sent w /\ forall st, r <> Ok (Some st).
Proof.
  intros Hclk Has HR Hne Hdrift Hrun. pose proof (sqlite_FeedLaws cap (cursor_is req (Some row)) Hclk accept s (rq_Scope req) Has) as HFL.
  destruct (Subscribe_spec s (collect accept) _ True req fuel w L (fw_sent w) r w' HR Hrun)
    as [(L' & HL & HR' & Hok)|(from & pos & L' & S' & Hres & HR' & Hsb & Hok)].
  - destruct HR' as [_ _ Hs _]. done.
  - exfalso. destruct Hres as (wa & wb & La & found & HRa & Hcp & Hd & _).
    rewrite (as_Checkpoints _ _ Has) in Hcp. cbn in Hcp. unfold on_db in Hcp.
    destruct (others_step_rep cap _ _ _ _ HRa) as (L2 & _ & [_ Hst _ _]).
    destruct (checkpoint_Checkpoint _ _ _ _) as [rc x] eqn:HC. injection Hcp as -> _.
    unfold checkpoint_Checkpoint in HC. run_ok HC. apply query_Ok in Hm as [[= <-] _].
    unfold cursor_is, cursor_key in Hst. rewrite Hst in HC. destruct (parseTS _); [|done]. injection HC as <- _.
    unfold check_definition in Hd. simpl in Hd. rewrite !bool_decide_false in Hd by done. discriminate.
Qed.

(** Another definition acknowledged position 1. *)
Definition drifted_row : FeedCheckpointRow := MkFeedCheckpointRow 1 (formatTS t0) "another definition".
Definition drifted : fworld :=
  MkFworld (MkWorld (set_feed_checkpoints {[ ("t1", "totals", "")%string := drifted_row ]} (w_db world1)) (w_tick world1))
    [] [] [] [1]%nat None false 0 false.

Lemma length_definition_Hash d : String.length (definition_Hash d) = 64%nat.
Proof.
  assert (forall l, String.length (EncodeToString l) = (2 * length l)%nat) as Hl.
  { unfold EncodeToString. induction l as [|b l IH]; [done|]. cbn [hex_bytes hex_byte String.length length]. unfold hex_byte.
    cbn [String.length]. rewrite IH. lia. }
  unfold definition_Hash. by rewrite Hl, length_Sum256.
Qed.

Lemma drift_fails_closed_witness :
  fw_sent (@Subscribe fworld (@sqlite_feed_env calm_env) demo_server 4 demo_req (Some (collect accept_all)) drifted).2 = [].
Proof.
  refine (proj1 (@drift_fails_closed HexUuid calm_env 0 accept_all demo_server demo_req drifted_row 4 drifted envs1 _ _
    calm_clock_ok demo_assembled _ _ _ (surjective_pairing _))).
  - split; [|by apply lookup_singleton_eq|reflexivity|constructor].
    by apply (@reach_other HexUuid calm_env 0 world1 envs1 _ _ reach1).
  - discriminate.
  - intros E. apply (f_equal String.length) in E. rewrite length_definition_Hash in E. discriminate.
Defined.

(** ** Reset, status and release *)

(** A reset re-identifies the cursor: with no other process at work, a
    successful ResetCheckpoint leaves the cursor at the requested position,
    backwards included, under the request's definition, so that the next
    subscription passes the drift check and resumes there; a failed one, or
    one refused because the key is held, changes no cursor. *)
Theorem reset_redefines `{UuidLib} `{Env} cap s req position force w r w' :
  assembled cap s -> nano_clock -> fw_others w = [] -> ResetCheckpoint s req position force w = (r, w') ->
  let db := w_db (fw_world w) in let db' := w_db (fw_world w') in
  let sc := rq_Scope req in let p := rq_Projection req in let i := rq_Instance req in
  match r with
  | Err _ => d_feed_checkpoints db' = d_feed_checkpoints db
  | Ok _ => cursor db' sc p i = position /\ cursor_definition db' sc p i = definition_Hash (rq_Definition req)
      /\ (forall cp, cp_DefinitionHash cp = cursor_definition db' sc p i -> check_definition req cp = Ok tt)
      /\ (force = false -> live_row db (leaseKey sc p i) (clock (w_tick (fw_world w))) = None)
  end.
Proof.
  intros Has Hn Ho Hrun. cbv zeta. unfold ResetCheckpoint in Hrun. unfold bind at 1, lift in Hrun.
  destruct (validateKey _ _ _) as [[]|e]; [|by injection Hrun as <- <-].
  unfold bind at 1, lift in Hrun. destruct (validateDefinition req) as [[]|e]; [|by injection Hrun as <- <-].
  unfold bind in Hrun.
  destruct ((if force then ret tt else refuseIfHeld s (rq_Scope req) (rq_Projection req) (rq_Instance req)) w) as [rf w1] eqn:HF.
  assert (w_db (fw_world w1) = w_db (fw_world w) /\ fw_others w1 = [] /\ (force = false -> rf = Ok tt ->
    live_row (w_db (fw_world w)) (leaseKey (rq_Scope req) (rq_Projection req) (rq_Instance req)) (clock (w_tick (fw_world w))) = None))
    as (Hw1 & Ho1 & Hlive).
  { destruct force; [by injection HF as <- <-|].
    destruct (refuse_alone cap s _ _ _ _ _ _ Has Hn Ho HF) as (? & ? & ?). auto. }
  destruct rf as [[]|e]; [|injection Hrun as <- <-; by rewrite Hw1].
  rewrite (as_Checkpoints _ _ Has) in Hrun. unfold catch in Hrun. cbn [cs_Reset sqlite_Checkpoints] in Hrun.
  destruct (on_db (checkpoint_Reset _ _ _ _ _) w1) as [rs w2] eqn:HS. apply on_db_alone in HS as (z & HS & ->); [|done].
  apply Reset_effect in HS. destruct rs as [[]|e]; injection Hrun as <- <-; simpl; [|by rewrite HS, Hw1].
  destruct HS as (Hp & Hd & _). rewrite bool_decide_false in Hd.
  2:{ intros E. apply (f_equal String.length) in E. by rewrite length_definition_Hash in E. }
  split; [done|]. split; [done|]. split; [|auto]. rewrite Hd. intros cp Hcp. unfold check_definition. rewrite Hcp.
  rewrite (bool_decide_true (definition_Hash (rq_Definition req) = definition_Hash (rq_Definition req))) by done.
  by rewrite andb_false_r.
Qed.

Lemma reset_redefines_witness :
  let w' := (@ResetCheckpoint fworld demo_server demo_req 0 false (MkFworld (MkWorld
     (set_feed_checkpoints {[ ("t1", "totals", "")%string := drifted_row ]} empty_db) 0) [] [] [] [] None false 0 false)).2 in
  cursor (w_db (fw_world w')) "t1" "totals" "" = 0%N
  /\ cursor_definition (w_db (fw_world w')) "t1" "totals" "" = definition_Hash (rq_Definition demo_req).
Proof.
  pose proof (@reset_redefines HexUuid calm_env 0 demo_server demo_req 0 false (MkFworld (MkWorld
     (set_feed_checkpoints {[ ("t1", "totals", "")%string := drifted_row ]} empty_db) 0) [] [] [] [] None false 0 false) _ _
     demo_assembled calm_nano eq_refl (surjective_pairing _)) as HS.
  assert ((@ResetCheckpoint fworld demo_server demo_req 0 false (MkFworld (MkWorld
     (set_feed_checkpoints {[ ("t1", "totals", "")%string := drifted_row ]} empty_db) 0) [] [] [] [] None false 0 false)).1 = Ok tt) as E
    by reflexivity.
  cbv zeta in HS. rewrite E in HS. destruct HS as (H1 & H2 & _). split; [exact H1|exact H2].
Defined.

Section Release.
Context `{UuidLib} `{Env}.

Lemma Release_effect sc p i o w r w' :
  no_fault -> lease_Release sc p i o w = (r, w') ->
  forall row, d_feed_leases (w_db w') !! leaseKey sc p i = Some row -> lr_owner row <> o.
Proof.
  intros Hnf. unfold lease_Release, catch, exec. rewrite Hnf. simpl.
  destruct (d_feed_leases (w_db w) !! leaseKey sc p i) as [old|] eqn:E; [case_bool_decide as Ho|]; intros [= _ <-] row; simpl.
  - by rewrite lookup_delete_eq.
  - rewrite E. by intros [= <-].
  - by rewrite E.
Qed.

Lemma run_stream_releases cap s sink req owner fuel w e w' :
  assembled cap s -> no_fault -> run_stream s sink req owner fuel w = (Err e, w') ->
  forall row, d_feed_leases (w_db (fw_world w')) !! leaseKey (rq_Scope req) (rq_Projection req) (rq_Instance req) = Some row ->
    lr_owner row <> owner.
Proof.
  intros Has Hnf. unfold run_stream. destruct (stream _ _ _ _ _ _ _) as [[st|se] [w1 rn1]]; [done|].
  destruct (yield _ _ _ _) as [w2 rn2]. destruct (fx_ctxErr w2) as [cerr w3]. destruct (yield _ _ _ _) as [w4 rn4].
  rewrite (as_Leases _ _ Has). cbn [le_Release sqlite_Leases]. unfold on_db.
  destruct (lease_Release _ _ _ _ _) as [rr x] eqn:HR. pose proof (Release_effect _ _ _ _ _ _ _ Hnf HR) as He.
  intros Hr. assert (w' = set_world x (others_step w4)) as ->; [|exact He].
  destruct rr; by injection Hr.
Qed.
End Release.

(** A subscription that ends gives its lease up: when a subscription that had
    acquired its key returns, for whatever reason, no lease row of that key
    belongs to its owner any more, so the next subscriber can acquire it. *)
Theorem subscribe_releases `{UuidLib} `{Env} cap s sink req fuel w w1 e w' :
  assembled cap s -> no_fault -> validateRequest req (Some sink) = Ok tt -> rq_Owner req <> EmptyString ->
  le_Acquire (Leases s) (rq_Scope req) (rq_Projection req) (rq_Instance req) (rq_Owner req) (rq_Consumer req) (LeaseTTL s) w
    = (true, None, w1) ->
  Subscribe s fuel req (Some sink) w = (Err e, w') ->
  forall row, d_feed_leases (w_db (fw_world w')) !! leaseKey (rq_Scope req) (rq_Projection req) (rq_Instance req) = Some row ->
    lr_owner row <> rq_Owner req.
Proof.
  intros Has Hnf Hv Ho HA. unfold Subscribe. unfold bind at 1, lift. rewrite Hv. unfold bind at 1.
  rewrite bool_decide_false by done. unfold ret at 1. rewrite HA. cbn [negb].
  intros Hrun. eapply (run_stream_releases cap s sink req (rq_Owner req) fuel w1);
    [done|done|exact Hrun].
Qed.

(** A context that is already over: the subscription acquires its lease, ends
    with the context's error, and leaves no row behind. *)
Definition ended_world : fworld := MkFworld (MkWorld empty_db 0) [] [] [] [] (Some 0%nat) false 0 false.

Lemma subscribe_releases_witness :
  exists e w', @Subscribe fworld (@sqlite_feed_env calm_env) demo_server 1 demo_req (Some (collect accept_all)) ended_world = (Err e, w')
    /\ (d_feed_leases (w_db (fw_world w')) !! leaseKey "t1" "totals" "" = None
        \/ exists row, d_feed_leases (w_db (fw_world w')) !! leaseKey "t1" "totals" "" = Some row /\ lr_owner row <> "a"%string).
Proof.
  destruct (@Subscribe fworld (@sqlite_feed_env calm_env) demo_server 1 demo_req (Some (collect accept_all)) ended_world) as [r w'] eqn:HS.
  destruct r as [x|e]; [exfalso; vm_compute in HS; discriminate HS|]. exists e, w'. split; [reflexivity|].
  pose proof (@subscribe_releases HexUuid calm_env 0 demo_server (collect accept_all) demo_req 1 ended_world _ e w'
    demo_assembled calm_no_fault ltac:(by vm_compute) ltac:(done) eq_refl HS) as HR.
  destruct (d_feed_leases _ !! _) as [row|]; [right|by left]. exists row. split; [done|]. by apply (HR row).
Defined.

(** ** Status *)

Section Lag.
Context `{UuidLib}.

Lemma lag_small head pos : (head <= max_int64)%N -> (pos <= max_int64)%N -> lag head pos = (Z.of_N head - Z.of_N pos)%Z.
Proof.
  unfold max_int64. intros Hh Hp. unfold lag. rewrite !(i64_small (Z.of_N _)) by (unfold i64_max; lia).
  rewrite i64_small; [done|]. unfold i64_max. lia.
Qed.

(** The matching head is beyond a position exactly when there is a backlog. *)
Lemma matching_head_backlog db types pos envs :
  log_inv db envs ->
  (pos < default 0 (GlobalPosition <$> last (filter (fun e => TypeURL e ∈ types) envs)))%N <-> matching types pos envs <> [].
Proof.
  intros Hi. assert (positions_sorted (filter (fun e => TypeURL e ∈ types) envs)) as Hs.
  { apply sorted_filter. by eapply numbered_sorted, (li_positions _ _ Hi). }
  split.
  - destruct (last _) as [e|] eqn:Hl; simpl; [|lia]. intros Hlt Hm. apply last_Some_elem_of, list_elem_of_filter in Hl as [Ht He].
    assert (e ∈ matching types pos envs) as Hin by (by apply list_elem_of_filter). rewrite Hm in Hin. by apply not_elem_of_nil in Hin.
  - destruct (matching types pos envs) as [|e rest] eqn:Hm; [done|]. intros _.
    assert (e ∈ matching types pos envs) as [[Hlt Ht] He]%list_elem_of_filter by (rewrite Hm; by left).
    assert (e ∈ filter (fun e => TypeURL e ∈ types) envs) as Hin by (by apply list_elem_of_filter).
    destruct (last (filter (fun e => TypeURL e ∈ types) envs)) as [x|] eqn:Hl; simpl.
    2:{ apply last_None in Hl. rewrite Hl in Hin. by apply not_elem_of_nil in Hin. }
    apply last_Some in Hl as [l Hl]. rewrite Hl in Hin, Hs. apply elem_of_app in Hin as [Hin| ->%list_elem_of_singleton]; [|done].
    pose proof (sorted_app_lt l [x] e x Hs Hin ltac:(by left)). lia.
Qed.
End Lag.

(** Status is exact: on a database that does not fail and with no other process
    at work, Status reports the stored position and a lag equal to the matching
    head minus that position, which is positive exactly when the subscription
    has events left to deliver. *)
Theorem status_exact `{UuidLib} `{Env} cap s req w envs :
  assembled cap s -> no_fault -> fw_others w = [] -> log_inv (w_db (fw_world w)) envs ->
  validateKey (rq_Scope req) (rq_Projection req) (rq_Instance req) = Ok tt -> validateDefinition req = Ok tt ->
  (N.of_nat (length envs) <= max_int64)%N ->
  (forall row, d_feed_checkpoints (w_db (fw_world w)) !! cursor_key req = Some row ->
     (fc_position row <= max_int64)%N /\ exists t, parseTS (fc_updated_at row) = Ok t) ->
  let pos := cursor (w_db (fw_world w)) (rq_Scope req) (rq_Projection req) (rq_Instance req) in
  exists st w', server_Status s req w = (Ok st, w') /\ w_db (fw_world w') = w_db (fw_world w)
    /\ ss_Position st = pos /\ ss_Lag st = (Z.of_N (ss_Head st) - Z.of_N pos)%Z
    /\ ((0 < ss_Lag st)%Z <-> matching (df_Consumes (rq_Definition req)) pos envs <> []).
Proof.
  intros Has Hnf Ho Hi Hk Hd Hroom Hrow pos. pose proof (validateDefinition_types req Hd) as Ht.
  unfold server_Status. unfold bind at 1, lift at 1. rewrite Hk. unfold bind at 1, lift at 1. rewrite Hd.
  rewrite (as_Checkpoints _ _ Has), (as_Leases _ _ Has), (as_Logs _ _ Has).
  set (db := w_db (fw_world w)) in *.
  assert (exists found, checkpoint_Checkpoint (rq_Scope req) (rq_Projection req) (rq_Instance req) (fw_world w) = (Ok found, tick (fw_world w))
    /\ cp_Position (default zero_Checkpoint found) = pos) as (found & HC & Hpos).
  { unfold checkpoint_Checkpoint, bind, catch, query, exec, pos, cursor. rewrite Hnf. simpl. fold db. fold (cursor_key req).
    destruct (d_feed_checkpoints db !! cursor_key req) as [row|] eqn:E; [|by exists None].
    destruct (proj2 (Hrow row eq_refl)) as [t ->]. by eexists. }
  unfold bind at 1, catch at 1. cbn [cs_Checkpoint sqlite_Checkpoints]. rewrite (on_db_run _ _ _ _ Ho HC).
  unfold bind at 1, catch at 1, sqlite_Open, ret at 1.
  unfold bind at 1, catch at 1. cbn [lg_MatchingHead sqlite_Log].
  rewrite (on_db_run _ (set_world (tick (fw_world w)) w) _ _ Ho (MatchingHead_run (tick (fw_world w)) envs Hi _ Ht (Hnf _))). cbv beta iota.
  set (head := default 0%N _). unfold bind, catch. cbn [le_Holder sqlite_Leases].
  destruct (Holder_healthy (rq_Scope req) (rq_Projection req) (rq_Instance req) (tick (tick (fw_world w))) Hnf) as (h & x & HH).
  pose proof (Holder_keeps (rq_Scope req) (rq_Projection req) (rq_Instance req) (tick (tick (fw_world w)))) as Hkp.
  rewrite HH in Hkp. simpl in Hkp. erewrite on_db_run; [|exact Ho|exact HH].
  eexists _, _. split; [reflexivity|]. simpl.
  split; [exact Hkp|]. split; [exact Hpos|]. rewrite Hpos.
  assert (head <= max_int64)%N as Hhd.
  { unfold head. destruct (last _) as [e|] eqn:Hl; simpl; [|done]. apply last_Some_elem_of, list_elem_of_filter in Hl as [_ He].
    pose proof (numbered_elem _ _ _ _ (li_positions _ _ Hi) He). lia. }
  assert (pos <= max_int64)%N as Hps.
  { unfold pos, cursor. fold db. fold (cursor_key req). destruct (d_feed_checkpoints db !! cursor_key req) as [row|] eqn:E; [|done].
    by apply (Hrow row eq_refl). }
  rewrite lag_small by done. split; [done|]. rewrite <- (matching_head_backlog _ _ _ _ Hi). fold head. lia.
Qed.

Lemma status_exact_witness :
  exists st w', @server_Status fworld demo_server demo_req quiet_world = (Ok st, w') /\ ss_Position st = 0%N /\ (0 < ss_Lag st)%Z.
Proof.
  pose proof (f_equal length envs1_events) as Hlen. rewrite length_map in Hlen. simpl in Hlen.
  assert (d_feed_checkpoints (w_db (fw_world quiet_world)) !! cursor_key demo_req = None) as Hnone.
  { simpl. rewrite (proj1 world1_feed). apply lookup_empty. }
  destruct (@status_exact HexUuid calm_env 0 demo_server demo_req quiet_world envs1) as (st & w' & HS & _ & Hp & _ & Hl).
  - apply demo_assembled.
  - exact calm_no_fault.
  - reflexivity.
  - apply inv1.
  - by vm_compute.
  - by vm_compute.
  - rewrite Hlen. vm_compute. congruence.
  - intros row Hrow. rewrite Hnone in Hrow. discriminate Hrow.
  - assert (cursor (w_db (fw_world quiet_world)) "t1" "totals" "" = 0%N) as Hc.
    { unfold cursor. change ("t1", "totals", "")%string with (cursor_key demo_req). by rewrite Hnone. }
    exists st, w'. split; [exact HS|]. split; [by rewrite Hp|]. apply Hl. simpl in Hc. simpl. rewrite Hc.
    rewrite envs1_matching. intros E. rewrite E in Hlen. discriminate Hlen.
Defined.
