(* ===== verification/SqliteAnchors.v ===== *)
(** * Anchors of a SQLite store (src/sqlite/anchor.go)

    When the hash chain was introduced, taking, listing and checking anchors,
    and the list of streams.  An anchor outlives every later append, and it
    catches a log rewritten consistently enough to pass chain verification. *)
From S2P Require Import Prelude Sha256 Es Hash Chain Anchor Timestamp Effect Store Sql Sqlite.
From S2P Require Import SqliteCorrect SqliteTheorems HexUuid SqliteClaims SqliteFeed SqliteFeedCorrect.
From S2P Require Import FeedContract FeedSqlite.

Definition set_anchors (rows : list AnchorRow) (db : DB) : DB :=
  MkDB (d_events db) (d_sequence db) (d_unique_claims db) (d_checkpoints db) rows
    (d_feed_checkpoints db) (d_feed_leases db) (d_feed_dead_letters db) (d_schema_migrations db).

(** ORDER BY a text column. *)
Definition text_order {A} (key : A -> string) (a b : A) : Prop := String.le (key a) (key b).

#[global] Instance text_order_dec {A} (key : A -> string) : RelDecision (text_order key).
Proof. intros a b. unfold text_order. apply _. Defined.

Definition order_by_text {A} (key : A -> string) (rows : list A) : list A := merge_sort (text_order key) rows.

(** ORDER BY upto_global_position, created_at. *)
Definition anchor_order (a b : AnchorRow) : Prop :=
  (ar_upto_global_position a < ar_upto_global_position b)%N
  \/ (ar_upto_global_position a = ar_upto_global_position b /\ String.le (ar_created_at a) (ar_created_at b)).

#[global] Instance anchor_order_dec : RelDecision anchor_order.
Proof. intros a b. unfold anchor_order. apply _. Defined.

Section Anchors.
Context `{UuidLib} `{Env}.

Definition ChainedSince : M DB time :=
  let! applied := query (fun db => Ok (d_schema_migrations db !! 2%Z)) in
  match applied with
  | None => ret zero_time
  | Some applied => lift (parse_layout 3 applied) wrap "parse applied_at"
  end.

(** SELECT stream_id, MAX(version) ... WHERE global_position <= ? GROUP BY
    stream_id: the group of one stream, if it has a row. *)
Definition group_max (upto : N) (stream_id : string) (db : DB) : option N :=
  match filter (fun r => r_stream_id r = stream_id /\ (r_global_position r <= upto)%N) (d_events db) with
  | [] => None
  | rows => Some (foldr (fun r m => N.max (r_version r) m) 0%N rows)
  end.

(** The join with events on stream and version, ordered by stream. *)
Definition head_rows (upto : N) (db : DB) : list EventRow :=
  order_by_text r_stream_id (filter (fun r => group_max upto (r_stream_id r) db = Some (r_version r)) (d_events db)).

Definition scan_head (r : EventRow) : res StreamHead :=
  let? sid := ParseCanonical (r_stream_id r) in
  Ok (MkStreamHead EmptyString sid (r_version r) (r_hash r)).

Definition heads (upto : N) : M DB (list StreamHead) :=
  let! rows := (let! _ := lift (bind_uint64 upto) in query (fun db => Ok (head_rows upto db)))
               wrap "read stream heads" in
  lift (result_map scan_head rows).

(** INSERT INTO anchors, whose primary key is anchor_id. *)
Definition insert_anchor (row : AnchorRow) (db : DB) : res (unit * DB) :=
  let? _ := bind_uint64 (ar_upto_global_position row) in
  let? _ := bind_uint64 (ar_stream_count row) in
  if existsb (fun r => bool_decide (ar_anchor_id r = ar_anchor_id row)) (d_anchors db)
  then Err (SqliteError SQLITE_CONSTRAINT_PRIMARYKEY)
  else Ok (tt, set_anchors (d_anchors db ++ [row]) db).

Definition store_Anchor (upto : N) : M DB Anchor :=
  let! upto := if (upto =? 0)%N
               then query (fun db => Ok (max_position (d_events db))) wrap "read log head"
               else ret upto in
  let! hs := heads upto in
  let root := AnchorRoot hs in
  let! id := newV7 in
  let! now := Now in
  let a := MkAnchor (uuid_String id) (TruncateMicros now) upto (u64 (N.of_nat (length hs))) root in
  let! _ := exec (insert_anchor (MkAnchorRow (an_ID a) (formatTS (an_CreatedAt a)) (an_UptoGlobalPosition a)
                                   (an_StreamCount a) (an_RootHash a))) wrap "insert anchor" in
  ret a.

Definition scan_anchor (r : AnchorRow) : res Anchor :=
  match parseTS (ar_created_at r) with
  | Err e => Err (Errorf "parse created_at" e)
  | Ok t => Ok (MkAnchor (ar_anchor_id r) t (ar_upto_global_position r) (ar_stream_count r) (ar_root_hash r))
  end.

Definition ListAnchors : M DB (list Anchor) :=
  query (fun db => result_map scan_anchor (merge_sort anchor_order (d_anchors db))).

Definition CheckAnchor (a : Anchor) : M DB unit :=
  let! hs := heads (an_UptoGlobalPosition a) in
  let root := AnchorRoot hs in
  if negb (u64 (N.of_nat (length hs)) =? an_StreamCount a)%N || negb (bool_decide (root = an_RootHash a))
  then throw (Errorf "anchor" (Sentinel ErrAnchorMismatch))
  else ret tt.

(** SELECT DISTINCT stream_id ... ORDER BY stream_id. *)
Definition stream_ids (db : DB) : list string :=
  merge_sort String.le (remove_dups (map r_stream_id (d_events db))).

Definition ListStreams : M DB (list StreamRef) :=
  query (fun db => result_map (fun c => let? sid := ParseCanonical c in Ok (MkStreamRef EmptyString sid)) (stream_ids db)).
End Anchors.

(** ** The heads of a log *)

(** An event is its stream's head in [l]. *)
Definition is_stream_head (l : list Envelope) (e : Envelope) : Prop :=
  Version e = N.of_nat (length (stream_of (env_StreamID e) l)).

#[global] Instance is_stream_head_dec l e : Decision (is_stream_head l e).
Proof. unfold is_stream_head. apply _. Defined.

Definition head_of (e : Envelope) : StreamHead := MkStreamHead EmptyString (env_StreamID e) (Version e) (Hash e).

(** The stream heads of the log at or below a position. *)
Definition log_heads (upto : N) (L : list Envelope) : list Envelope :=
  let l := take (N.to_nat upto) L in filter (is_stream_head l) l.

(** What the anchor root over those heads is taken over. *)
Definition heads_input (upto : N) (L : list Envelope) : list byte :=
  anchor_bytes (map head_of (log_heads upto L)).

(** The rows of some heads, as the query returns and scans them. *)
Definition scan_heads `{UuidLib} (l : list Envelope) : res (list StreamHead) :=
  result_map scan_head (order_by_text r_stream_id (map stored l)).

Section Heads.
Context `{UuidLib} `{Env}.
Variables (db : DB) (L : list Envelope).
Hypothesis Hinv : log_inv db L.

Lemma upto_rows upto sid :
  Validate sid = Ok tt ->
  filter (fun r => r_stream_id r = Canonical sid /\ (r_global_position r <= upto)%N) (d_events db)
  = map stored (stream_of sid (take (N.to_nat upto) L)).
Proof.
  intros Hv. rewrite (li_rows _ _ Hinv).
  rewrite (filter_map_comm stored _ (fun e => env_StreamID e = sid /\ (GlobalPosition e <= upto)%N)).
  2:{ intros e He. simpl. pose proof (li_wf _ _ Hinv) as Hw. rewrite Forall_forall in Hw. split; [|by intros [-> ?]].
      intros [E ?]. split; [|done]. apply Canonical_inj; [by apply Hw|done..]. }
  rewrite <- list_filter_filter. unfold stream_of. do 2 f_equal.
  apply (filter_numbered GlobalPosition _ 1%N L 0 (N.to_nat upto) (li_positions _ _ Hinv)).
  intros e He. pose proof (numbered_elem _ _ _ _ (li_positions _ _ Hinv) He). lia.
Qed.

Lemma group_max_log upto sid :
  Validate sid = Ok tt ->
  group_max upto (Canonical sid) db
  = match stream_of sid (take (N.to_nat upto) L) with [] => None | l => Some (N.of_nat (length l)) end.
Proof.
  intros Hv. unfold group_max. rewrite upto_rows by done.
  assert (numbered Version 1%N (stream_of sid (take (N.to_nat upto) L))) as Hn.
  { pose proof (li_versions _ _ Hinv sid) as Hn. rewrite <- (take_drop (N.to_nat upto) L), stream_of_app in Hn.
    by apply numbered_app in Hn as [Hn _]. }
  pose proof (max_version_numbered _ Hn) as HM.
  destruct (stream_of sid (take (N.to_nat upto) L)) as [|x l]; [done|]. cbn [map] in *. by rewrite HM.
Qed.

(** An event past the position is not a head at it. *)
Lemma later_not_head upto e :
  e ∈ drop (N.to_nat upto) L -> ~ is_stream_head (take (N.to_nat upto) L) e.
Proof.
  intros He. unfold is_stream_head. pose proof (li_versions _ _ Hinv (env_StreamID e)) as Hn.
  rewrite <- (take_drop (N.to_nat upto) L), stream_of_app in Hn. apply numbered_app in Hn as [_ Hn].
  assert (e ∈ stream_of (env_StreamID e) (drop (N.to_nat upto) L)) as Hin by (by apply list_elem_of_filter).
  pose proof (numbered_elem _ _ _ _ Hn Hin). lia.
Qed.

Lemma head_rows_log upto :
  head_rows upto db = order_by_text r_stream_id (map stored (log_heads upto L)).
Proof.
  unfold head_rows, log_heads. f_equal. set (l := take (N.to_nat upto) L). rewrite (li_rows _ _ Hinv).
  rewrite (filter_map_comm stored _ (fun e => is_stream_head l e /\ e ∈ l)).
  - f_equal. rewrite <- (take_drop (N.to_nat upto) L) at 1. fold l. rewrite filter_app.
    rewrite (filter_false (fun e => is_stream_head l e /\ e ∈ l) (drop (N.to_nat upto) L)), app_nil_r.
    2:{ intros e He [Hh _]. by eapply later_not_head. }
    apply filter_iff_in. intros e He. tauto.
  - intros e He. change (r_stream_id (stored e)) with (Canonical (env_StreamID e)). change (r_version (stored e)) with (Version e).
    pose proof (li_wf _ _ Hinv) as Hw. rewrite Forall_forall in Hw.
    rewrite group_max_log by (by apply Hw). fold l. unfold is_stream_head.
    rewrite <- (take_drop (N.to_nat upto) L), elem_of_app in He. fold l in He. destruct He as [He|He].
    + assert (e ∈ stream_of (env_StreamID e) l) as Hin by (by apply list_elem_of_filter).
      destruct (stream_of (env_StreamID e) l) as [|x k]; [by apply not_elem_of_nil in Hin|].
      split; [intros [= <-]; done|]. by intros [-> _].
    + pose proof (later_not_head upto e He) as Hh. fold l in Hh. unfold is_stream_head in Hh.
      destruct (stream_of (env_StreamID e) l) as [|x k]; [split; [done|]; by intros [? _]|].
      split; [intros [= E]; exfalso; apply Hh; simpl; lia|]. by intros [? _].
Qed.

(** What the heads query returns, up to the order of equal text. *)
Lemma heads_log upto w :
  w_db w = db -> (upto <= max_int64)%N -> fault (w_tick w) = None ->
  exists l, l ≡ₚ log_heads upto L /\ scan_heads (log_heads upto L) = Ok (map head_of l)
    /\ heads upto w = (Ok (map head_of l), tick w).
Proof.
  intros Hdb Hu Hf.
  destruct (Permutation_map_inv stored (log_heads upto L) (l1 := order_by_text r_stream_id (map stored (log_heads upto L))))
    as (l & Hl & HP); [apply merge_sort_Permutation|].
  exists l. split; [by symmetry|]. unfold scan_heads. rewrite Hl.
  assert (result_map scan_head (map stored l) = Ok (map head_of l)) as Hscan.
  { apply result_map_Ok. assert (forall e, e ∈ l -> Validate (env_StreamID e) = Ok tt) as Hv.
    { intros e He. rewrite <- HP in He. apply list_elem_of_filter in He as [_ He].
      apply elem_of_take in He as (j & He%list_elem_of_lookup_2 & _).
      pose proof (li_wf _ _ Hinv) as Hw. rewrite Forall_forall in Hw. by apply Hw. }
    clear -Hv. induction l as [|e l IH]; constructor; [|apply IH; intros x Hx; apply Hv; by right].
    unfold scan_head. simpl. rewrite Parse_Canonical; [done|]. apply Hv. by left. }
  split; [done|]. unfold heads, bind, catch, lift, bind_uint64. rewrite (proj2 (N.leb_le _ _) Hu). unfold query, exec. rewrite Hf. simpl.
  rewrite Hdb, head_rows_log, Hl, Hscan. by rewrite <- Hdb.
Qed.
End Heads.

(** ** Taking and checking *)

Section Taken.
Context `{UuidLib} `{Env}.

Lemma heads_Ok db L upto w hs w' :
  log_inv db L -> w_db w = db -> heads upto w = (Ok hs, w') ->
  w_db w' = db /\ (upto <= max_int64)%N
  /\ exists l, l ≡ₚ log_heads upto L /\ scan_heads (log_heads upto L) = Ok (map head_of l) /\ hs = map head_of l.
Proof.
  intros Hi Hdb Hrun. pose proof Hrun as Hr. unfold heads in Hr. run_ok Hr.
  unfold lift, bind_uint64 in Hm0. destruct (upto <=? max_int64)%N eqn:Hu; [|done]. apply N.leb_le in Hu.
  destruct (fault (w_tick w)) as [e|] eqn:Hf.
  { injection Hm0 as <- <-. unfold query, exec in Hm. by rewrite Hf in Hm. }
  destruct (heads_log db L Hi upto w Hdb Hu Hf) as (l & HP & Ho & HR). rewrite HR in Hrun. injection Hrun as <- <-.
  split; [done|]. split; [done|]. by exists l.
Qed.

(** What an anchor records. *)
Lemma store_Anchor_Ok L upto w a w' :
  log_inv (w_db w) L -> store_Anchor upto w = (Ok a, w') ->
  an_UptoGlobalPosition a = (if (upto =? 0)%N then N.of_nat (length L) else upto)
  /\ (an_UptoGlobalPosition a <= max_int64)%N /\ log_inv (w_db w') L
  /\ exists l, l ≡ₚ log_heads (an_UptoGlobalPosition a) L
     /\ scan_heads (log_heads (an_UptoGlobalPosition a) L) = Ok (map head_of l)
     /\ an_StreamCount a = u64 (N.of_nat (length l)) /\ an_RootHash a = AnchorRoot (map head_of l).
Proof.
  intros Hi Hrun. unfold store_Anchor in Hrun. apply bind_Ok in Hrun as (u & w1 & Hu & Hrun). cbv beta in Hrun.
  assert (u = (if (upto =? 0)%N then N.of_nat (length L) else upto) /\ w_db w1 = w_db w) as [Hu' Hw1].
  { destruct (upto =? 0)%N; [|by injection Hu as <- <-]. apply catch_Ok, query_Ok in Hu as [[= <-] ->]. split; [|done].
    rewrite (li_rows _ _ Hi), max_position_last by (by eapply numbered_sorted, (li_positions _ _ Hi)).
    destruct (last L) as [x|] eqn:Hl; simpl; [|apply last_None in Hl; by rewrite Hl].
    pose proof (numbered_last _ _ _ _ (li_positions _ _ Hi) Hl). lia. }
  apply bind_Ok in Hrun as (hs & w2 & Hh & Hrun). cbv beta in Hrun.
  destruct (heads_Ok _ L _ _ _ _ Hi Hw1 Hh) as (Hw2 & Hmax & l & HP & Ho & ->).
  apply bind_Ok in Hrun as (id & w3 & [= _ <-] & Hrun). cbv beta in Hrun.
  apply bind_Ok in Hrun as (now & w4 & [= _ <-] & Hrun). cbv beta zeta in Hrun. run_ok Hrun.
  injection Hrun as <- <-. cbn [an_UptoGlobalPosition an_StreamCount an_RootHash]. rewrite length_map.
  split; [done|]. split; [done|]. split; [|by exists l].
  apply exec_Ok in Hm. unfold insert_anchor in Hm. cbn [w_db tick] in Hm. rewrite Hw2 in Hm.
  destruct (bind_uint64 _); [|done]. destruct (bind_uint64 _); [|done]. simpl in Hm. destruct (existsb _ _); [done|].
  injection Hm as _ Hdb. rewrite <- Hdb. by eapply log_inv_ext; [..|exact Hi].
Qed.
End Taken.

(** ** An anchor outlives every append *)

Lemma CheckAnchor_grown `{UuidLib} `{Env} upto w L a w1 w2 L2 :
  log_inv (w_db w) L -> (upto <= N.of_nat (length L))%N -> store_Anchor upto w = (Ok a, w1) ->
  log_inv (w_db w2) L2 -> L `prefix_of` L2 -> fault (w_tick w2) = None ->
  exists w3, CheckAnchor a w2 = (Ok tt, w3).
Proof.
  intros Hi Hu HA Hi2 [K ->] Hf.
  destruct (store_Anchor_Ok _ _ _ _ _ Hi HA) as (Hup & Hmax & _ & l & HP & Ho & Hc & Hr).
  assert (an_UptoGlobalPosition a <= N.of_nat (length L))%N as Hle by (rewrite Hup; case_goal; lia).
  assert (log_heads (an_UptoGlobalPosition a) (L ++ K) = log_heads (an_UptoGlobalPosition a) L) as Hsame
    by (unfold log_heads; by rewrite take_app_le by lia).
  destruct (heads_log _ _ Hi2 (an_UptoGlobalPosition a) w2 eq_refl Hmax Hf) as (l2 & _ & Ho2 & HR).
  rewrite Hsame, Ho in Ho2. injection Ho2 as Ho2. unfold CheckAnchor, bind. rewrite HR, <- Ho2, length_map, <- Hc, <- Hr.
  rewrite N.eqb_refl, bool_decide_true by done. by eexists.
Qed.

(** C28: an anchor stays valid while the log only grows.  Let an anchor be taken
    at a position at most the log head (0 meaning the head; for one beyond it
    see [anchor_beyond_head_breaks]).  Taking it leaves the log unchanged, and
    on every later database whose log extends that one, checking the anchor
    succeeds when the query does not fail. *)
Theorem anchor_outlives_appends `{UuidLib} `{Env} upto w L a w1 w2 L2 :
  log_inv (w_db w) L -> (upto <= N.of_nat (length L))%N -> store_Anchor upto w = (Ok a, w1) ->
  log_inv (w_db w2) L2 -> L `prefix_of` L2 -> fault (w_tick w2) = None ->
  log_inv (w_db w1) L /\ (CheckAnchor a w2).1 = Ok tt.
Proof.
  intros Hi Hu HA Hi2 HP Hf. destruct (store_Anchor_Ok _ _ _ _ _ Hi HA) as (_ & _ & Hi1 & _). split; [done|].
  destruct (CheckAnchor_grown _ _ _ _ _ _ _ Hi Hu HA Hi2 HP Hf) as [w3 ->]. done.
Qed.

(** ** An anchor catches a rewritten log *)

Section Detect.
Context `{UuidLib} `{Env}.

(** A log every row of which is hashed and can be re-hashed. *)
Record sealed_log (db : DB) (L : list Envelope) : Prop := {
  sd_inv : log_inv db L;
  sd_sealed : Forall sealed L;
  sd_wf : Forall envelope_wf L;
  sd_room : (N.of_nat (length L) <= max_int64)%N
}.

Section Log.
Variables (db : DB) (L : list Envelope) (u : N).
Hypothesis HL : sealed_log db L.

Lemma log_heads_in e : e ∈ log_heads u L -> e ∈ take (N.to_nat u) L /\ e ∈ L.
Proof.
  intros [_ He]%list_elem_of_filter. split; [done|]. apply elem_of_take in He as (i & He & _). by eapply list_elem_of_lookup_2.
Qed.

Lemma upto_versions sid : numbered Version 1%N (stream_of sid (take (N.to_nat u) L)).
Proof.
  pose proof (li_versions _ _ (sd_inv _ _ HL) sid) as Hn. rewrite <- (take_drop (N.to_nat u) L), stream_of_app in Hn.
  by apply numbered_app in Hn as [Hn _].
Qed.

Lemma upto_chain sid : chain_ok zero_time sid None (stream_of sid (take (N.to_nat u) L)).
Proof.
  pose proof (li_chain _ _ (sd_inv _ _ HL) sid) as Hn. rewrite <- (take_drop (N.to_nat u) L), stream_of_app in Hn.
  by apply chain_ok_app in Hn as [Hn _].
Qed.

Lemma upto_all (P : Envelope -> Prop) sid : Forall P L -> Forall P (stream_of sid (take (N.to_nat u) L)).
Proof. 
  rewrite !Forall_forall. intros HP e [_ He]%list_elem_of_filter. apply elem_of_take in He as (i & He & _).
  apply HP. by eapply list_elem_of_lookup_2.
Qed.

Lemma heads_wf l : l ≡ₚ log_heads u L -> Forall head_wf (map head_of l).
Proof.
  intros HP. apply Forall_forall. intros h (e & -> & He)%list_elem_of_fmap. rewrite HP in He. apply log_heads_in in He as [_ He].
  pose proof (li_wf _ _ (sd_inv _ _ HL)) as Hw. rewrite Forall_forall in Hw. destruct (Hw e He).
  split; simpl; [done|done|]. unfold max_int64, u64_mod in *. lia.
Qed.

Lemma heads_nodup l : l ≡ₚ log_heads u L -> NoDup (map head_key (map head_of l)).
Proof.
  intros HP. rewrite map_map. change (NoDup ((fun e => head_key (head_of e)) <$> l)). apply NoDup_fmap_2_strong.
  - intros x y Hx Hy. rewrite HP in Hx, Hy. unfold head_key. simpl. intros [= E].
    apply list_elem_of_filter in Hx as [Vx Hx], Hy as [Vy Hy]. unfold is_stream_head in *. rewrite <- E in Vy.
    apply (numbered_inj _ _ _ _ _ (upto_versions (env_StreamID x))); [by apply list_elem_of_filter..|congruence].
  - rewrite HP. apply NoDup_filter. apply sublist_NoDup with L; [|apply sublist_take].
    eapply NoDup_fmap_1, (li_ids _ _ (sd_inv _ _ HL)).
Qed.

Lemma heads_length l : l ≡ₚ log_heads u L -> (N.of_nat (length (map head_of l)) < u64_mod)%N.
Proof.
  intros HP. rewrite length_map, HP. unfold log_heads. pose proof (length_filter (is_stream_head (take (N.to_nat u) L)) (take (N.to_nat u) L)).
  rewrite length_take in *. pose proof (sd_room _ _ HL). unfold max_int64, u64_mod in *. lia.
Qed.

Lemma heads_input_perm l : l ≡ₚ log_heads u L -> anchor_bytes (map head_of l) = heads_input u L.
Proof.
  intros HP. unfold heads_input. apply anchor_bytes_perm; [by apply heads_wf|by apply heads_nodup|].
  change (head_binding <$> (head_of <$> l) ≡ₚ head_binding <$> (head_of <$> log_heads u L)). by rewrite HP.
Qed.

(** The head of a nonempty stream is its last event, bound by its hash. *)
Lemma head_last sid s e :
  stream_of sid (take (N.to_nat u) L) = s ++ [e] ->
  e ∈ log_heads u L /\ env_StreamID e = sid /\ Version e = N.of_nat (length (s ++ [e])) /\ head_hash (head_of e) = EnvelopeHash e
  /\ Hash e = Some (EnvelopeHash e).
Proof.
  intros Hs. assert (e ∈ stream_of sid (take (N.to_nat u) L)) as [Hsid He]%list_elem_of_filter
    by (rewrite Hs; apply elem_of_app; right; by left).
  pose proof (upto_versions sid) as Hn. rewrite Hs in Hn. pose proof (numbered_snoc_version _ _ Hn) as Hv.
  assert (Hash e = Some (EnvelopeHash e)) as Hh.
  { apply elem_of_take in He as (i & He%list_elem_of_lookup_2 & _). pose proof (sd_sealed _ _ HL) as Hw. rewrite Forall_forall in Hw.
    by apply Hw. }
  split; [|split; [done|split; [|split; [|done]]]].
  - apply list_elem_of_filter. split; [|done]. unfold is_stream_head. rewrite Hsid, Hs, Hv, length_app. simpl. lia.
  - rewrite Hv, length_app. simpl. lia.
  - unfold head_hash. simpl. by rewrite Hh, length_EnvelopeHash.
Qed.

Lemma chained_all sid : filter chained (stream_of sid (take (N.to_nat u) L)) = stream_of sid (take (N.to_nat u) L).
Proof.
  apply filter_true. intros e He. pose proof (upto_all sealed sid (sd_sealed _ _ HL)) as Hs. rewrite Forall_forall in Hs.
  unfold chained. by rewrite (Hs e He).
Qed.
End Log.
End Detect.

Lemma snoc_cases {A} (l : list A) : l = [] \/ exists s x, l = s ++ [x].
Proof. destruct l as [|x l] using rev_ind; eauto. Qed.

Section Compare.
Context `{UuidLib} `{Env}.
Variables (db1 db2 : DB) (L1 L2 : list Envelope) (u : N).
Hypothesis H1 : sealed_log db1 L1.
Hypothesis H2 : sealed_log db2 L2.

(** A stream that has a head in one log has the same head hash in the other. *)
Lemma same_head l1 l2 sid s1 e1 :
  l1 ≡ₚ log_heads u L1 -> l2 ≡ₚ log_heads u L2 ->
  map head_binding (map head_of l1) ≡ₚ map head_binding (map head_of l2) ->
  stream_of sid (take (N.to_nat u) L1) = s1 ++ [e1] ->
  exists s2 e2, stream_of sid (take (N.to_nat u) L2) = s2 ++ [e2] /\ Hash e2 = Hash e1.
Proof.
  intros HP1 HP2 HB Hs1. destruct (head_last _ _ u H1 sid s1 e1 Hs1) as (Hin & Hsid & Hv & Hhh & Hh).
  assert (head_binding (head_of e1) ∈ map head_binding (map head_of l2)) as Hb.
  { rewrite <- HB. apply list_elem_of_fmap_2, list_elem_of_fmap_2. by rewrite HP1. }
  apply list_elem_of_fmap in Hb as (h & Hb & (e2 & -> & He2)%list_elem_of_fmap). rewrite HP2 in He2.
  unfold head_binding in Hb. rewrite Hhh in Hb. injection Hb as E1 E2 E3.
  apply list_elem_of_filter in He2 as [Hv2 He2]. unfold is_stream_head in Hv2.
  assert (e2 ∈ stream_of sid (take (N.to_nat u) L2)) as He2' by (apply list_elem_of_filter; split; [congruence|done]).
  destruct (snoc_cases (stream_of sid (take (N.to_nat u) L2))) as [Hs2|(s2 & x & Hs2)]; rewrite Hs2 in He2'; [by apply not_elem_of_nil in He2'|].
  destruct (head_last _ _ u H2 sid s2 x Hs2) as (_ & _ & Hvx & Hhx & Hx).
  assert (e2 = x) as ->.
  { pose proof (upto_versions _ _ u H2 sid) as Hn. rewrite Hs2 in Hn. apply (numbered_inj _ _ _ _ _ Hn); [done|apply elem_of_app; right; by left|].
    rewrite Hvx, Hv2, <- E1, Hsid, Hs2. done. }
  exists s2, x. split; [done|]. rewrite Hx, Hh, E3. by rewrite <- Hhx.
Qed.
End Compare.

(** C29: an anchor catches a rewritten log.  Let an anchor be taken on a store whose
    rows are all hashed, and let it later check out on any database whose log
    is again fully hashed and passes chain verification, whether it descends
    from the first or was rewritten row by row.  Then every stream agrees with
    the original in every attested field up to the anchored position, or two
    of the byte strings hashed for the two logs collide: the encodings of
    their heads, or the encodings of two events of that stream. *)
Theorem anchor_catches_rewrites `{UuidLib} `{Env} upto w L a w1 w2 L2 w3 sid :
  sealed_log (w_db w) L -> store_Anchor upto w = (Ok a, w1) ->
  sealed_log (w_db w2) L2 -> CheckAnchor a w2 = (Ok tt, w3) ->
  let u := N.to_nat (an_UptoGlobalPosition a) in
  map attested (stream_of sid (take u L)) = map attested (stream_of sid (take u L2))
  \/ collide (heads_input (an_UptoGlobalPosition a) L) (heads_input (an_UptoGlobalPosition a) L2) = true
  \/ colliding (hash_inputs sid (stream_of sid (take u L))) (hash_inputs sid (stream_of sid (take u L2))) = true.
Proof.
  intros HL HA HL2 HC u.
  destruct (store_Anchor_Ok _ _ _ _ _ (sd_inv _ _ HL) HA) as (_ & _ & _ & l1 & HP1 & _ & Hc & Hr).
  unfold CheckAnchor in HC. run_ok HC. destruct (heads_Ok _ L2 _ _ _ _ (sd_inv _ _ HL2) eq_refl Hm) as (_ & _ & l2 & HP2 & _ & ->).
  destruct (_ || _) eqn:HE in HC; [done|]. apply orb_false_iff in HE as [_ HE]. apply negb_false_iff, bool_decide_eq_true in HE.
  rewrite Hr in HE. symmetry in HE.
  pose proof (AnchorRoot_binds (map head_of l1) (map head_of l2) (heads_wf _ _ _ HL _ HP1) (heads_wf _ _ _ HL2 _ HP2)
    (heads_nodup _ _ _ HL _ HP1) (heads_length _ _ _ HL _ HP1) (heads_length _ _ _ HL2 _ HP2)) as [_ HB].
  destruct (HB HE) as [HB'|HC']; [clear HB; rename HB' into HB|right; left].
  2: { by rewrite <- (heads_input_perm _ _ _ HL _ HP1), <- (heads_input_perm _ _ _ HL2 _ HP2). }
  destruct (snoc_cases (stream_of sid (take u L))) as [Hs1|(s1 & e1 & Hs1)].
  - left. destruct (snoc_cases (stream_of sid (take u L2))) as [Hs2|(s2 & e2 & Hs2)]; [by rewrite Hs1, Hs2|].
    destruct (same_head _ _ _ _ _ HL2 HL l2 l1 sid s2 e2 HP2 HP1 (symmetry HB) Hs2) as (s & e & E & _).
    unfold u in Hs1. rewrite Hs1 in E. by destruct s.
  - destruct (same_head _ _ _ _ _ HL HL2 l1 l2 sid s1 e1 HP1 HP2 HB Hs1) as (s2 & e2 & Hs2 & Hh).
    destruct (head_last _ _ _ HL sid s1 e1 Hs1) as (_ & _ & _ & _ & Hh1). rewrite Hh1 in Hh.
    pose proof (upto_chain _ _ (an_UptoGlobalPosition a) HL sid) as K1. pose proof (upto_chain _ _ (an_UptoGlobalPosition a) HL2 sid) as K2.
    pose proof (upto_versions _ _ (an_UptoGlobalPosition a) HL sid) as N1. pose proof (upto_versions _ _ (an_UptoGlobalPosition a) HL2 sid) as N2.
    pose proof (upto_all L (an_UptoGlobalPosition a) envelope_wf sid (sd_wf _ _ HL)) as W1.
    pose proof (upto_all L2 (an_UptoGlobalPosition a) envelope_wf sid (sd_wf _ _ HL2)) as W2.
    pose proof (chained_all _ _ (an_UptoGlobalPosition a) HL sid) as C1. pose proof (chained_all _ _ (an_UptoGlobalPosition a) HL2 sid) as C2.
    fold u in K1, K2, N1, N2, W1, W2, C1, C2, Hs2. rewrite Hs1 in *. rewrite Hs2 in *.
    destruct (chain_heads_agree _ _ _ _ _ _ _ _ K1 K2 N1 N2 W1 W2 Hh1 Hh) as [[_ HM]|]; [left|by right; right].
    by rewrite C1, C2 in HM.
Qed.

(** ** A concrete anchor *)

(** On a healthy database with no anchors yet, taking one succeeds. *)
Lemma store_Anchor_run `{UuidLib} `{Env} upto w L :
  no_fault -> log_inv (w_db w) L -> d_anchors (w_db w) = [] -> (N.of_nat (length L) <= max_int64)%N ->
  (upto <= max_int64)%N -> exists a w1, store_Anchor upto w = (Ok a, w1).
Proof.
  intros Hnf Hi Ha Hroom Hu. unfold store_Anchor. unfold bind at 1.
  assert (exists u w1, (if (upto =? 0)%N then query (fun db => Ok (max_position (d_events db))) wrap "read log head" else ret upto) w = (Ok u, w1)
    /\ w_db w1 = w_db w /\ (u <= max_int64)%N) as (u & w1 & -> & Hw1 & Hu1).
  { destruct (upto =? 0)%N; [|by eexists _, _]. unfold catch, query, exec. rewrite Hnf. simpl. eexists _, _. split; [reflexivity|].
    split; [done|]. rewrite (li_rows _ _ Hi), max_position_last by (by eapply numbered_sorted, (li_positions _ _ Hi)).
    destruct (last L) as [x|] eqn:Hl; simpl; [|done]. pose proof (numbered_last _ _ _ _ (li_positions _ _ Hi) Hl). lia. }
  destruct (heads_log _ L Hi u w1 Hw1 Hu1 (Hnf _)) as (l & HP & _ & HR). unfold bind at 1. rewrite HR.
  unfold bind at 1, newV7. unfold bind at 1, Now. unfold bind, catch, exec. rewrite Hnf. cbn [tick w_db].
  unfold insert_anchor. cbn [ar_upto_global_position ar_stream_count an_UptoGlobalPosition an_StreamCount]. unfold bind_uint64.
  rewrite (proj2 (N.leb_le _ _) Hu1), Hw1, Ha.
  assert (N.of_nat (length (map head_of l)) <= max_int64)%N as Hlen.
  { rewrite length_map, HP. unfold log_heads. pose proof (length_filter (is_stream_head (take (N.to_nat u) L)) (take (N.to_nat u) L)) as Hf.
    rewrite length_take in Hf. lia. }
  rewrite u64_small by (unfold max_int64, u64_mod in *; lia). rewrite (proj2 (N.leb_le _ _) Hlen). simpl. eauto.
Qed.

#[local] Opaque world1 envs1.

Lemma world1_sealed : @sealed_log HexUuid (w_db world1) envs1.
Proof.
  pose proof (@reachable_inv HexUuid calm_env 0 world1 envs1 calm_clock_ok reach1) as [Hi Hs].
  destruct envs1_carries as (o & rc & Hc). assert (length envs1 = 2%nat) as Hlen by (by rewrite <- (Forall2_length _ _ _ Hc)).
  split; [done|done| |rewrite Hlen; by vm_compute].
  pose proof (li_wf _ _ Hi) as Hw. rewrite Forall_forall in *. intros e He. specialize (Hw e He). destruct Hw as [Wsid Wws Wv _ _].
  assert (exists ev, ev ∈ ap_Events (sample_append 0 [100; 101]%nat [Claim "user.email" "a"])
    /\ carries (sample_append 0 [100; 101]%nat [Claim "user.email" "a"]) o rc ev e) as (ev & Hev & Hca).
  { apply list_elem_of_lookup in He as [i He]. destruct (Forall2_lookup_r _ _ _ _ _ Hc He) as (ev & Hev & ?).
    exists ev. split; [by eapply list_elem_of_lookup_2|done]. }
  assert (ed_TypeURL ev = "counter.v1.Incremented"%string /\ ed_SchemaVersion ev = 1%N /\ ed_Payload ev = [Byte.x08]) as (E1 & E2 & E3).
  { simpl in Hev. repeat (apply elem_of_cons in Hev as [->|Hev]; [done|]). by apply not_elem_of_nil in Hev. }
  clear -Wsid Wws Wv Hca E1 E2 E3.
  split.
  - rewrite Wws. by vm_compute.
  - exact Wsid.
  - unfold max_int64, u64_mod in *. lia.
  - rewrite (ca_url _ _ _ _ _ Hca), E1. by vm_compute.
  - rewrite (ca_schema _ _ _ _ _ Hca), E2. by vm_compute.
  - rewrite (ca_actor _ _ _ _ _ Hca). by vm_compute.
  - rewrite (ca_actor _ _ _ _ _ Hca). by vm_compute.
  - rewrite (ca_payload _ _ _ _ _ Hca), E3. by vm_compute.
Qed.

Lemma world1_anchors : d_anchors (w_db world1) = [].
Proof.
  rewrite (keeps_run d_anchors _ _ _ _ (Append_keeps 0 d_anchors _ (fun _ _ _ => eq_refl) (fun _ _ => eq_refl)) run1). reflexivity.
Qed.

Lemma prefix_of_refl {A} (l : list A) : l `prefix_of` l.
Proof. reflexivity. Qed.

Lemma check_taken `{UuidLib} `{Env} upto w L a w1 :
  log_inv (w_db w) L -> (upto <= N.of_nat (length L))%N -> store_Anchor upto w = (Ok a, w1) -> fault (w_tick w1) = None ->
  exists w3, CheckAnchor a w1 = (Ok tt, w3).
Proof.
  intros Hi Hu HA Hf. destruct (store_Anchor_Ok _ _ _ _ _ Hi HA) as (_ & _ & Hi1 & _).
  by apply (CheckAnchor_grown upto w L a w1 w1 L).
Qed.

Lemma sealed_ext `{UuidLib} `{Env} upto w L a w1 :
  store_Anchor upto w = (Ok a, w1) -> sealed_log (w_db w) L -> sealed_log (w_db w1) L.
Proof.
  intros HA [Hi Hs Hw Hr]. destruct (store_Anchor_Ok _ _ _ _ _ Hi HA) as (_ & _ & Hi1 & _). by split.
Qed.

(** An anchor of the two sample events. *)
Lemma anchor1 : exists a w1, @store_Anchor HexUuid calm_env 0 world1 = (Ok a, w1).
Proof.
  apply (store_Anchor_run 0 world1 envs1 calm_no_fault inv1 world1_anchors (sd_room _ _ world1_sealed)). by vm_compute.
Qed.

Lemma anchor_outlives_appends_witness :
  exists a w1, @store_Anchor HexUuid calm_env 0 world1 = (Ok a, w1) /\ (@CheckAnchor calm_env a world1).1 = Ok tt.
Proof.
  destruct anchor1 as (a & w1 & HA). exists a, w1. split; [exact HA|].
  destruct (@anchor_outlives_appends HexUuid calm_env 0 world1 envs1 a w1 world1 envs1 inv1 (N.le_0_l _) HA inv1
    (prefix_of_refl envs1) (calm_no_fault _)) as [_ HC]. exact HC.
Defined.

(** No two encodings hashed for the sample log collide. *)
Lemma envs1_no_collision sid u :
  colliding (hash_inputs sid (stream_of sid (take u envs1))) (hash_inputs sid (stream_of sid (take u envs1))) = false.
Proof.
  apply not_true_iff_false. intros HC.
  assert (stream_of sid (take u envs1) ⊆ envs1) as Hin
    by (intros e (_ & (i & He & _)%elem_of_take)%list_elem_of_filter; by eapply list_elem_of_lookup_2).
  apply (colliding_mono _ _ _ _ (hash_inputs_mono sid _ _ Hin) (hash_inputs_mono sid _ _ Hin)) in HC.
  rewrite (hash_inputs_sealed sid _ (sd_sealed _ _ world1_sealed)) in HC. revert HC. vm_compute. discriminate.
Qed.

(** The store checks the anchor it has just taken. *)
Lemma anchor_catches_rewrites_witness :
  exists a w1 w3, @store_Anchor HexUuid calm_env 0 world1 = (Ok a, w1) /\ @CheckAnchor calm_env a w1 = (Ok tt, w3)
    /\ forall sid, map attested (stream_of sid (take (N.to_nat (an_UptoGlobalPosition a)) envs1))
        = map attested (stream_of sid (take (N.to_nat (an_UptoGlobalPosition a)) envs1)).
Proof.
  destruct anchor1 as (a & w1 & HA). destruct (check_taken 0 world1 envs1 a w1 inv1 (N.le_0_l _) HA (calm_no_fault _)) as [w3 HC].
  exists a, w1, w3. split; [exact HA|]. split; [exact HC|]. intros sid.
  destruct (@anchor_catches_rewrites HexUuid calm_env 0 world1 envs1 a w1 w1 envs1 w3 sid world1_sealed HA)
    as [HE|[HE|HE]]; [eapply sealed_ext; [exact HA|apply world1_sealed]|exact HC|exact HE|..].
  - rewrite collide_refl in HE. discriminate HE.
  - rewrite envs1_no_collision in HE. discriminate HE.
Defined.

(** An anchor taken beyond the log head does not survive the next append: the
    heads it covers are those present when it was taken, while the check
    recomputes them up to the position it names. *)
Example anchor_beyond_head_breaks :
  match @store_Anchor HexUuid calm_env 3 world1 with
  | (Ok a, w1) =>
      match @Append HexUuid calm_env 0 (sample_append 2 [102]%nat []) w1 with
      | (Ok _, w2) => (@CheckAnchor calm_env a w1).1 = Ok tt
          /\ (@CheckAnchor calm_env a w2).1 = Err (Errorf "anchor" (Sentinel ErrAnchorMismatch))
      | _ => False
      end
  | _ => False
  end.
Proof. vm_compute. by split. Qed.
