(* ===== verification/Delivery.v ===== *)
(** * Delivery: the log as outbox (src/delivery/)

    The poller that tails the log behind a per-subscriber checkpoint, the relay
    that drives a claiming drain, and the coalescing wake-up signal.  A loop
    that Go runs until something happens takes fuel; [None] means that it is
    still running. *)
From S2P Require Import Prelude Es Effect.

(** ** Ports *)

Section Ports.
Variable W : Type.

Definition Source : Type := N -> Z -> SM W (list Envelope).          (** ReadAll *)

Record Checkpoints := MkCheckpoints {
  ck_Load : string -> SM W N;
  ck_Save : string -> N -> SM W unit
}.

Definition Handler : Type := list Envelope -> SM W unit.
Definition Drainer : Type := Z -> Handler -> SM W Z.                 (** Drain *)
End Ports.
Arguments ck_Load {W} _ _.
Arguments ck_Save {W} _ _ _.

(** What a select in Run received. *)
Inductive wakeup := CtxDone | Ticked | Woken.

(** The context, as the loops consult it. *)
Class DeliveryEnv (W : Type) := { dv_ctxErr : W -> option error * W }.

(** The position of the last event of a nonempty batch. *)
Definition last_position (batch : list Envelope) (pos : N) : N := default pos (GlobalPosition <$> last batch).

Section Run.
Context {W : Type} `{DeliveryEnv W}.

(** The loop both Run methods share: [drain] on every tick or wake until the
    context ends. *)
Fixpoint run_loop (drain : SM W (option unit)) (ws : list wakeup) : SM W (option unit) :=
  match ws with
  | [] => ret None
  | CtxDone :: _ => fun w => let '(e, w) := dv_ctxErr w in
                             (match e with Some e => Err e | None => Ok (Some tt) end, w)
  | (Ticked | Woken) :: ws' =>
      let! r := attempt drain in
      match r with
      | Ok _ => run_loop drain ws'
      | Err err => fun w => let '(e, w) := dv_ctxErr w in
                            match e with
                            | None => (Err err, w)
                            | Some _ => run_loop drain ws' w
                            end
      end
  end.

(** The initial catch-up, then the loop. *)
Definition run_drains (drain : SM W (option unit)) (ws : list wakeup) : SM W (option unit) :=
  let! r := attempt drain in
  match r with
  | Ok _ => run_loop drain ws
  | Err err => fun w => let '(e, w) := dv_ctxErr w in
                        match e with
                        | None => (Err err, w)
                        | Some _ => run_loop drain ws w
                        end
  end.

(** ** The poller *)

Record PollerConfig := MkPollerConfig { pc_Subscriber : string; pc_BatchSize : Z; pc_PollInterval : Z }.

Record Poller := MkPoller {
  po_src : Source W;
  po_cp : Checkpoints W;
  po_handler : Handler W;
  po_cfg : PollerConfig
}.

(** [None] is a panic. *)
Definition NewPoller (src : Source W) (cp : Checkpoints W) (handler : option (Handler W)) (cfg : PollerConfig) : option Poller :=
  if bool_decide (pc_Subscriber cfg = EmptyString) then None else
  match handler with
  | None => None
  | Some h =>
      let batch := if (pc_BatchSize cfg <=? 0)%Z then 100%Z else pc_BatchSize cfg in
      let interval := if (pc_PollInterval cfg <=? 0)%Z then Second else pc_PollInterval cfg in
      Some (MkPoller src cp h (MkPollerConfig (pc_Subscriber cfg) batch interval))
  end.

Fixpoint poller_drain (p : Poller) (fuel : nat) : SM W (option unit) :=
  match fuel with
  | O => ret None
  | S fuel' =>
      let! pos := ck_Load (po_cp p) (pc_Subscriber (po_cfg p)) wrap "load checkpoint" in
      let! batch := po_src p pos (pc_BatchSize (po_cfg p)) wrap "read log" in
      if (length batch =? 0)%nat then ret (Some tt) else
      let! _ := po_handler p batch wrap "handle batch" in
      let! _ := ck_Save (po_cp p) (pc_Subscriber (po_cfg p)) (last_position batch 0) wrap "save checkpoint" in
      if (Z.of_nat (length batch) <? pc_BatchSize (po_cfg p))%Z then ret (Some tt) else
      poller_drain p fuel'
  end.

Definition poller_Run (p : Poller) (fuel : nat) (ws : list wakeup) : SM W (option unit) :=
  run_drains (poller_drain p fuel) ws.

(** ** The relay *)

Record RelayConfig := MkRelayConfig { rc_BatchSize : Z; rc_PollInterval : Z }.

Record Relay := MkRelay { re_drainer : Drainer W; re_publish : Handler W; re_cfg : RelayConfig }.

Definition NewRelay (drainer : Drainer W) (publish : option (Handler W)) (cfg : RelayConfig) : option Relay :=
  match publish with
  | None => None
  | Some p =>
      let batch := if (rc_BatchSize cfg <=? 0)%Z then 100%Z else rc_BatchSize cfg in
      let interval := if (rc_PollInterval cfg <=? 0)%Z then Second else rc_PollInterval cfg in
      Some (MkRelay drainer p (MkRelayConfig batch interval))
  end.

Fixpoint relay_drain (r : Relay) (fuel : nat) : SM W (option unit) :=
  match fuel with
  | O => ret None
  | S fuel' =>
      let! n := re_drainer r (rc_BatchSize (re_cfg r)) (re_publish r) wrap "relay drain" in
      if (n <? rc_BatchSize (re_cfg r))%Z then ret (Some tt) else relay_drain r fuel'
  end.

Definition relay_Run (r : Relay) (fuel : nat) (ws : list wakeup) : SM W (option unit) :=
  run_drains (relay_drain r fuel) ws.
End Run.
Arguments Poller : clear implicits.
Arguments Relay : clear implicits.

(** ** The signal *)

(** A channel of capacity one: what it holds. *)
Record Signal := MkSignal { sg_pending : bool }.

Definition NewSignal : Signal := MkSignal false.

(** A send that never blocks: a full buffer keeps its one wake-up. *)
Definition Notify (s : Signal) : Signal := MkSignal true.

(** A receive from C() that finds something, or not. *)
Definition receive (s : Signal) : bool * Signal := (sg_pending s, MkSignal false).
