(* ===== verification/DeliveryCorrect.v ===== *)
(** * Correctness of delivery against its ports

    The poller (src/delivery/poller.go) and the rebuild (src/projection/replay.go)
    are proved against a contract of a log that only grows, a durable
    checkpoint and a handler; any number of appends may happen between two
    calls. *)
From S2P Require Import Prelude Es Effect Delivery.

(** The events of positions [(from, upto]] of a log numbered from 1. *)
Definition window (from upto : N) (L : list Envelope) : list Envelope :=
  take (N.to_nat upto - N.to_nat from) (drop (N.to_nat from) L).

(** [rep w L c S]: the log is [L], the subscriber's checkpoint [c], and [S] is
    what the handler has taken.  The log and its handler: *)
Class TailLaws (W : Type) (src : Source W) (handler : Handler W)
    (rep : W -> list Envelope -> N -> list Envelope -> Prop) := {
  tl_numbered : forall w L c S, rep w L c S -> numbered GlobalPosition 1%N L;
  tl_read : forall w L c S pos limit r w', rep w L c S -> (0 < limit)%Z -> src pos limit w = (r, w') ->
    exists L', L `prefix_of` L' /\ rep w' L' c S
      /\ forall l, r = Ok l -> l = take (Z.to_nat limit) (drop (N.to_nat pos) L');
  tl_handle : forall w L c S batch r w', rep w L c S -> handler batch w = (r, w') ->
    exists L', L `prefix_of` L' /\ rep w' L' c (match r with Ok _ => S ++ batch | Err _ => S end)
}.

(** The durable checkpoint: *)
Class CheckpointLaws (W : Type) (cp : Checkpoints W) (subscriber : string)
    (rep : W -> list Envelope -> N -> list Envelope -> Prop) := {
  tl_load : forall w L c S r w', rep w L c S -> ck_Load cp subscriber w = (r, w') ->
    exists L', L `prefix_of` L' /\ rep w' L' c S /\ forall p, r = Ok p -> p = c;
  tl_save : forall w L c S pos r w', rep w L c S -> ck_Save cp subscriber pos w = (r, w') ->
    exists L', L `prefix_of` L' /\ rep w' L' (match r with Ok _ => pos | Err _ => c end) S
}.

(** ** Windows *)

Lemma window_nil c L : window c c L = [].
Proof. unfold window. by rewrite Nat.sub_diag. Qed.

Lemma window_app c m h L : (c <= m <= h)%N -> window c m L ++ window m h L = window c h L.
Proof.
  intros Hc. unfold window. replace (drop (N.to_nat m) L) with (drop (N.to_nat m - N.to_nat c) (drop (N.to_nat c) L))
    by (rewrite drop_drop; f_equal; lia).
  rewrite take_take_drop. f_equal. lia.
Qed.

(** A window inside the log does not change when the log grows. *)
Lemma window_grow c h L L' :
  L `prefix_of` L' -> (N.to_nat h <= length L)%nat -> window c h L' = window c h L.
Proof.
  intros [K ->] Hh. unfold window. rewrite drop_app. destruct (decide (N.to_nat h <= N.to_nat c)%nat) as [Hl|Hl].
  - replace (N.to_nat h - N.to_nat c)%nat with O by lia. done.
  - rewrite take_app_le; [done|]. rewrite length_drop. lia.
Qed.

(** A nonempty page ends where its last event is. *)
Lemma page_end L pos limit :
  numbered GlobalPosition 1%N L -> take limit (drop (N.to_nat pos) L) <> [] ->
  last_position (take limit (drop (N.to_nat pos) L)) 0
  = (pos + N.of_nat (length (take limit (drop (N.to_nat pos) L))))%N.
Proof.
  intros Hn Hne. unfold last_position. destruct (last _) as [e|] eqn:Hl; [|by apply last_None in Hl]. simpl.
  rewrite last_lookup in Hl. set (l := take limit (drop (N.to_nat pos) L)) in *.
  assert (0 < length l)%nat by (destruct l; [done|simpl; lia]).
  unfold l in Hl. rewrite lookup_take_lt, lookup_drop in Hl.
  2:{ unfold l in *. rewrite length_take in *. lia. }
  rewrite (numbered_lookup _ _ _ _ _ Hn Hl). fold l. lia.
Qed.

Lemma page_window L pos limit :
  let l := take limit (drop (N.to_nat pos) L) in window pos (pos + N.of_nat (length l)) L = l.
Proof.
  intros l. unfold window. replace (N.to_nat (pos + N.of_nat (length l)) - N.to_nat pos)%nat with (length l) by lia.
  unfold l. rewrite length_take. destruct (Nat.min_spec limit (length (drop (N.to_nat pos) L))) as [[_ ->]|[Hle ->]]; [done|].
  by rewrite !take_ge by lia.
Qed.

(** A nonempty page: where it ends, and that growth does not change it. *)
Record page (L : list Envelope) (c : N) (limit : nat) (batch : list Envelope) : Prop := {
  pg_end : last_position batch 0 = (c + N.of_nat (length batch))%N;
  pg_in : (N.to_nat (c + N.of_nat (length batch)) <= length L)%nat;
  pg_window : forall L', L `prefix_of` L' -> window c (c + N.of_nat (length batch)) L' = batch;
  pg_progress : (0 < length batch)%nat;
  pg_short : (length batch < limit)%nat -> drop (N.to_nat (c + N.of_nat (length batch))) L = []
}.

Lemma page_intro L c limit batch :
  numbered GlobalPosition 1%N L -> batch = take limit (drop (N.to_nat c) L) -> batch <> [] -> page L c limit batch.
Proof.
  intros Hn Hl Hne. assert (0 < length batch)%nat as Hp by (destruct batch; [done|simpl; lia]).
  assert (length batch = limit `min` (length L - N.to_nat c))%nat as Hlen by (by rewrite Hl, length_take, length_drop).
  split; [|lia| |done|].
  - rewrite Hl. apply page_end; [done|]. by rewrite <- Hl.
  - intros L' HL'. rewrite (window_grow c _ L L') by (done || lia). rewrite Hl. apply page_window.
  - intros Hs. apply length_zero_iff_nil. rewrite length_drop. lia.
Qed.

(** ** The poller *)

Section Poller.
Context {W : Type} (p : Poller W) (rep : W -> list Envelope -> N -> list Envelope -> Prop).
Context `{!TailLaws W (po_src p) (po_handler p) rep} `{!CheckpointLaws W (po_cp p) (pc_Subscriber (po_cfg p)) rep}.

(** What a drain that started at checkpoint [c] of log [L] has done. *)
Record drained (L : list Envelope) (c : N) (S : list Envelope) (fuel : nat) (r : res (option unit)) (w' : W)
    (L' : list Envelope) (c' h' : N) : Prop := {
  dr_log : L `prefix_of` L';
  dr_rep : rep w' L' c' (S ++ window c h' L');
  dr_order : (c <= c' <= h')%N;
  dr_in : (h' <= N.max c (N.of_nat (length L')))%N;
  dr_ok : forall o, r = Ok o -> c' = h';
  dr_done : r = Ok (Some tt) -> exists L1, L `prefix_of` L1 /\ L1 `prefix_of` L' /\ drop (N.to_nat h') L1 = [];
  dr_more : r = Ok None -> (fuel <= length (window c h' L'))%nat
}.

(** A step that fails has handled nothing more. *)
Lemma drained_stop L c S fuel (e : error) w' L' :
  L `prefix_of` L' -> rep w' L' c S -> drained L c S fuel (Err e) w' L' c c.
Proof. intros HL HR. split; try done; [by rewrite window_nil, app_nil_r|lia]. Qed.

Hypothesis Hbatch : (0 < pc_BatchSize (po_cfg p))%Z.

Lemma drain_spec fuel : forall w L c S r w',
  rep w L c S -> poller_drain p fuel w = (r, w') -> exists L' c' h', drained L c S fuel r w' L' c' h'.
Proof.
  induction fuel as [|fuel IH]; intros w L c S r w' HR; cbn [poller_drain].
  { intros [= <- <-]. exists L, c, c. split; try done; [by rewrite window_nil, app_nil_r|lia|simpl; lia]. }
  unfold bind at 1, catch at 1. destruct (ck_Load _ _ w) as [r1 w1] eqn:H1.
  destruct (tl_load _ _ _ _ _ _ HR H1) as (L1 & HL1 & HR1 & Hp). destruct r1 as [pos|e].
  2:{ intros [= <- <-]. exists L1, c, c. by apply drained_stop. }
  rewrite (Hp pos eq_refl). clear pos Hp H1.
  unfold bind at 1, catch at 1. destruct (po_src p _ _ w1) as [r2 w2] eqn:H2.
  destruct (tl_read _ _ _ _ _ _ _ _ HR1 Hbatch H2) as (L2 & HL2 & HR2 & Hl). destruct r2 as [batch|e].
  2:{ intros [= <- <-]. exists L2, c, c. apply drained_stop; [by transitivity L1|done]. }
  specialize (Hl batch eq_refl). assert (L `prefix_of` L2) as HL02 by (by transitivity L1).
  destruct (length batch =? 0)%nat eqn:Hz.
  { intros [= <- <-]. exists L2, c, c. split; try done; [by rewrite window_nil, app_nil_r|lia|].
    intros _. exists L2. split; [done|]. split; [done|]. apply Nat.eqb_eq in Hz. rewrite Hl, length_take in Hz.
    apply length_zero_iff_nil. lia. }
  destruct (page_intro L2 c _ batch (tl_numbered _ _ _ _ HR2) Hl) as [Hend Hm Hgrow Hpos Hlast]; [by intros ->|].
  rewrite Hend. set (m := (c + N.of_nat (length batch))%N) in *.
  unfold bind at 1, catch at 1. destruct (po_handler p batch w2) as [r3 w3] eqn:H3.
  destruct (tl_handle _ _ _ _ _ _ _ HR2 H3) as (L3 & HL3 & HR3). assert (L `prefix_of` L3) as HL03 by (by transitivity L2).
  destruct r3 as [[]|e]; [|intros [= <- <-]; exists L3, c, c; by apply drained_stop].
  unfold bind at 1, catch at 1. destruct (ck_Save _ _ _ w3) as [r4 w4] eqn:H4.
  destruct (tl_save _ _ _ _ _ _ _ HR3 H4) as (L4 & HL4 & HR4). assert (L2 `prefix_of` L4) as HL24 by (by transitivity L3).
  pose proof (prefix_length _ _ HL24) as Hlen4. destruct r4 as [[]|e].
  2:{ intros [= <- <-]. exists L4, c, m. split; try done; [by transitivity L2|by rewrite Hgrow|lia|lia]. }
  destruct (Z.ltb_spec (Z.of_nat (length batch)) (pc_BatchSize (po_cfg p))) as [Hshort|Hfull].
  { intros [= <- <-]. exists L4, m, m. split; try done; [by transitivity L2|by rewrite Hgrow|lia|lia|].
    intros _. exists L2. split; [done|]. split; [done|]. apply Hlast. lia. }
  intros Hrun. destruct (IH _ _ _ _ _ _ HR4 Hrun) as (L' & c' & h' & [D1 D2 D3 D3' D4 D5 D6]). pose proof (prefix_length _ _ D1).
  assert (S ++ window c h' L' = (S ++ batch) ++ window m h' L') as HS.
  { rewrite <- (Hgrow L') by (by transitivity L4). rewrite <- (app_assoc S), window_app by lia. done. }
  exists L', c', h'. split.
  - transitivity L4; [by transitivity L2|done].
  - by rewrite HS.
  - lia.
  - lia.
  - done.
  - intros Ho. destruct (D5 Ho) as (L1' & ? & ? & ?). exists L1'. split; [|done]. transitivity L4; [by transitivity L2|done].
  - intros Ho. apply D6 in Ho. rewrite <- (window_app c m h') by lia. rewrite length_app, (Hgrow L') by (by transitivity L4). lia.
Qed.
End Poller.
