(* ===== verification/DeliverySqlite.v ===== *)
(** * The poller over SQLite (src/delivery/poller.go with src/sqlite/store.go)

    The SQLite store as the poller's log and checkpoint table, with other
    processes appending between any two calls, and the properties of a drain:
    nothing is lost, and it ends. *)
From S2P Require Import Prelude Sha256 Es Hash Chain Timestamp Effect Store Sql Sqlite SqliteCorrect.
From S2P Require Import SqliteTheorems HexUuid SqliteClaims FeedPorts Feed FeedContract FeedSqlite FeedClaims.
From S2P Require Import Delivery DeliveryCorrect.

Section Ports.
Context `{UuidLib} `{Env}.
Variable cap : Z.

Definition sqlite_Source : Source fworld := fun pos limit => on_db (ReadAll pos limit).

Definition sqlite_poller_Checkpoints : Delivery.Checkpoints fworld :=
  MkCheckpoints _ (fun s => on_db (LoadCheckpoint s)) (fun s pos => on_db (SaveCheckpoint s pos)).

(** A handler that takes whole batches, or refuses them. *)
Definition take_batch (accept : list Envelope -> fworld -> option error) : Handler fworld := fun batch w =>
  match accept batch w with
  | Some e => (Err e, w)
  | None => (Ok tt, MkFworld (fw_world w) (fw_sent w ++ batch) (fw_signals w) (fw_others w) (fw_ticks w) (fw_until w)
                      (fw_cancelled w) (fw_seq w) (fw_delivered w))
  end.

(** The stored checkpoint of a subscriber. *)
Definition stored_checkpoint (db : DB) (subscriber : string) : N :=
  match d_checkpoints db !! subscriber with Some (pos, _) => pos | None => 0%N end.

Variable subscriber : string.

(** What another process may do: the log only grows, and it does not touch this
    subscriber's checkpoint. *)
Definition poll_neighbour (m : M DB unit) : Prop := forall w L, reachable cap w L ->
  d_checkpoints (w_db (m w).2) !! subscriber = d_checkpoints (w_db w) !! subscriber
  /\ exists L', L `prefix_of` L' /\ reachable cap (m w).2 L'.

Record poll_rep (w : fworld) (L : list Envelope) (c : N) (S : list Envelope) : Prop := {
  pl_reach : reachable cap (fw_world w) L;
  pl_checkpoint : stored_checkpoint (w_db (fw_world w)) subscriber = c;
  pl_sent : fw_sent w = S;
  pl_others : Forall poll_neighbour (fw_others w)
}.

Lemma poll_others w L c S : poll_rep w L c S -> exists L', L `prefix_of` L' /\ poll_rep (others_step w) L' c S.
Proof.
  intros [Hr Hc Hs Ho]. unfold others_step. destruct (fw_others w) as [|m ms] eqn:E.
  { exists L. split; [done|]. split; [done|done|done|by rewrite E]. }
  apply Forall_cons in Ho as [Hm Ho]. destruct (Hm _ _ Hr) as [Hck (L' & HL & HR')]. exists L'. split; [done|].
  split; [done| |done|done]. simpl. unfold stored_checkpoint in *. by rewrite Hck.
Qed.

(** A call that leaves the log alone, run after a step of the others. *)
Lemma poll_call {A} (m : M DB A) w L c S r w' :
  poll_rep w L c S -> on_db m w = (r, w') ->
  (forall x, d_events (w_db (m x).2) = d_events (w_db x) /\ d_sequence (w_db (m x).2) = d_sequence (w_db x)
     /\ (w_tick x <= w_tick (m x).2)%nat) ->
  exists L' x y, L `prefix_of` L' /\ m x = (r, y) /\ reachable cap x L' /\ stored_checkpoint (w_db x) subscriber = c
    /\ poll_rep w' L' (stored_checkpoint (w_db y) subscriber) S.
Proof.
  intros HR Hrun Hq. destruct (poll_others _ _ _ _ HR) as (L' & HL & [Hr Hc Hs Ho]). unfold on_db in Hrun.
  specialize (Hq (fw_world (others_step w))). destruct (m (fw_world (others_step w))) as [a y] eqn:E. injection Hrun as <- <-.
  destruct Hq as (H1 & H2 & H3). exists L', (fw_world (others_step w)), y. split; [done|]. split; [done|]. split; [done|]. split; [done|].
  split; [|done|done|done]. simpl in *. destruct y as [db n]. by apply (reach_other cap (fw_world (others_step w)) L' db n).
Qed.

Lemma LoadCheckpoint_quiet s : log_quiet (LoadCheckpoint s).
Proof. unfold LoadCheckpoint. auto 10 with feed. Qed.
Lemma ReadAll_quiet pos limit : log_quiet (ReadAll pos limit).
Proof. unfold ReadAll, queryEnvelopes. auto 10 with feed. Qed.
Lemma SaveCheckpoint_quiet s pos : log_quiet (SaveCheckpoint s pos).
Proof. unfold SaveCheckpoint. auto 10 with feed. Qed.
Lemma pure_LoadCheckpoint s : pure_db (LoadCheckpoint s).
Proof. unfold LoadCheckpoint. auto 10 with eslite. Qed.
Lemma pure_ReadAll pos limit : pure_db (ReadAll pos limit).
Proof. unfold ReadAll, queryEnvelopes. auto 10 with eslite. Qed.

Lemma quiet_three {A} (m : M DB A) : log_quiet m -> forall x,
  d_events (w_db (m x).2) = d_events (w_db x) /\ d_sequence (w_db (m x).2) = d_sequence (w_db x) /\ (w_tick x <= w_tick (m x).2)%nat.
Proof. intros Hm x. destruct (Hm x) as (? & ? & _ & ?). done. Qed.

(** A successful read is a page of the log. *)
Lemma ReadAll_Ok w L pos limit l w' :
  log_inv (w_db w) L -> (0 < limit)%Z -> ReadAll pos limit w = (Ok l, w') ->
  l = take (Z.to_nat limit) (drop (N.to_nat pos) L).
Proof.
  intros Hi Hl Hrun. assert ((pos <= max_int64)%N /\ fault (w_tick w) = None) as [Hp Hf].
  { pose proof Hrun as Hr. unfold ReadAll in Hr. run_ok Hr. unfold lift, bind_uint64 in Hm.
    destruct (N.leb_spec pos max_int64); [|done]. split; [done|]. injection Hm as _ <-.
    unfold queryEnvelopes, query, exec in Hr. by destruct (fault (w_tick w)). }
  rewrite (ReadAll_run w L Hi pos limit Hp Hf) in Hrun. injection Hrun as <- _.
  destruct (Z.leb_spec limit 0); [lia|done].
Qed.

Hypothesis Hclk : clock_ok.

#[global] Instance sqlite_TailLaws accept : TailLaws fworld sqlite_Source (take_batch accept) poll_rep.
Proof.
  split.
  - intros w L c S [Hr _ _ _]. destruct (reachable_inv _ _ _ Hclk Hr) as [Hi _]. apply Hi.
  - intros w L c S pos limit r w' HR Hl Hrun.
    destruct (poll_call _ _ _ _ _ _ _ HR Hrun (quiet_three _ (ReadAll_quiet pos limit))) as (L' & x & y & HL & Hm & Hx & Hc & HR').
    pose proof (pure_ReadAll pos limit x) as Hp. rewrite Hm in Hp. simpl in Hp. rewrite Hp, Hc in HR'.
    exists L'. split; [done|]. split; [done|]. intros l ->. destruct (reachable_inv _ _ _ Hclk Hx) as [Hi _]. by eapply ReadAll_Ok.
  - intros w L c S batch r w' [Hr Hc Hs Ho]. unfold take_batch. destruct (accept batch w); intros [= <- <-]; exists L; (split; [done|]);
      split; try done. simpl. by rewrite Hs.
Qed.

#[global] Instance sqlite_CheckpointLaws : CheckpointLaws fworld sqlite_poller_Checkpoints subscriber poll_rep.
Proof.
  split.
  - intros w L c S r w' HR Hrun.
    destruct (poll_call _ _ _ _ _ _ _ HR Hrun (quiet_three _ (LoadCheckpoint_quiet subscriber))) as (L' & x & y & HL & Hm & Hx & Hc & HR').
    pose proof (pure_LoadCheckpoint subscriber x) as Hp. rewrite Hm in Hp. simpl in Hp. rewrite Hp, Hc in HR'.
    exists L'. split; [done|]. split; [done|]. intros p ->. unfold LoadCheckpoint in Hm. run_ok Hm.
    apply query_Ok in Hm0 as [[= <-] _]. unfold stored_checkpoint in Hc.
    destruct (d_checkpoints (w_db x) !! subscriber) as [[q u]|]; injection Hm as <- _; done.
  - intros w L c S pos r w' HR Hrun.
    destruct (poll_call _ _ _ _ _ _ _ HR Hrun (quiet_three _ (SaveCheckpoint_quiet subscriber pos))) as (L' & x & y & HL & Hm & Hx & Hc & HR').
    exists L'. split; [done|]. replace (match r with Ok _ => pos | Err _ => c end) with (stored_checkpoint (w_db y) subscriber); [done|].
    destruct r as [u|e].
    + unfold SaveCheckpoint in Hm. run_ok Hm. injection Hm0 as _ <-. injection Hm1 as _ <-. apply exec_Ok in Hm. injection Hm as _ Hdb.
      unfold stored_checkpoint. rewrite <- Hdb. simpl. by rewrite lookup_insert_eq.
    + assert (err_keeps (SaveCheckpoint subscriber pos)) as Hk by (unfold SaveCheckpoint; auto 10 with eslite).
      by rewrite (Hk _ _ _ Hm).
Qed.
End Ports.

(** ** A drain on a healthy database *)

Section Healthy.
Context `{UuidLib} `{Env}.
Hypothesis Hnf : no_fault.
Variables (subscriber : string) (L : list Envelope).

(** Nobody else is at work, and the checkpoint fits a database integer. *)
Record alone (w : fworld) : Prop := {
  al_others : fw_others w = [];
  al_log : log_inv (w_db (fw_world w)) L;
  al_fits : (stored_checkpoint (w_db (fw_world w)) subscriber <= max_int64)%N
}.

Lemma on_db_healthy {A} (m : M DB A) w a x :
  fw_others w = [] -> m (fw_world w) = (Ok a, x) -> on_db m w = (Ok a, set_world x w).
Proof. intros Ho Hm. unfold on_db, others_step. by rewrite Ho, Hm. Qed.

Lemma Load_healthy w : LoadCheckpoint subscriber w = (Ok (stored_checkpoint (w_db w) subscriber), tick w).
Proof.
  unfold LoadCheckpoint, bind, query, exec, stored_checkpoint. rewrite Hnf. simpl.
  by destruct (d_checkpoints (w_db w) !! subscriber) as [[p u]|].
Qed.

Lemma SaveCheckpoint_healthy pos w : (pos <= max_int64)%N -> exists x,
  SaveCheckpoint subscriber pos w = (Ok tt, x) /\ d_events (w_db x) = d_events (w_db w) /\ d_sequence (w_db x) = d_sequence (w_db w)
  /\ stored_checkpoint (w_db x) subscriber = pos.
Proof.
  intros Hp. unfold SaveCheckpoint, bind, Now, lift, bind_uint64. rewrite (proj2 (N.leb_le _ _) Hp). unfold exec. rewrite Hnf. simpl.
  eexists. split; [reflexivity|]. split; [done|]. split; [done|]. unfold stored_checkpoint. simpl. by rewrite lookup_insert_eq.
Qed.

Hypothesis Hroom : (N.of_nat (length L) <= max_int64)%N.

Definition accept_batch : list Envelope -> fworld -> option error := fun _ _ => None.

Lemma drain_healthy batch interval fuel : forall w, (0 < batch)%Z -> alone w ->
  exists o w', poller_drain (MkPoller sqlite_Source sqlite_poller_Checkpoints (take_batch accept_batch)
    (MkPollerConfig subscriber batch interval)) fuel w = (Ok o, w')
    /\ log_inv (w_db (fw_world w')) L.
Proof.
  induction fuel as [|fuel IH]; intros w Hb [Ho Hi Hc]; cbn [poller_drain po_cp po_src po_handler po_cfg pc_Subscriber pc_BatchSize]; [by eexists _, _; split|].
  unfold bind at 1, catch at 1. cbn [ck_Load sqlite_poller_Checkpoints]. rewrite (on_db_healthy _ _ _ _ Ho (Load_healthy _)).
  set (pos := stored_checkpoint _ _) in *. unfold bind at 1, catch at 1, sqlite_Source.
  assert (log_inv (w_db (tick (fw_world w))) L) as Hi1 by done.
  erewrite on_db_healthy; [|exact Ho|exact (ReadAll_run _ L Hi1 pos batch Hc (Hnf _))]. rewrite (proj2 (Z.leb_gt batch 0) Hb).
  set (l := take _ _). destruct (length l =? 0)%nat eqn:Hz; [eexists _, _; by split|].
  unfold bind at 1, catch at 1, take_batch at 1. cbn [accept_batch].
  destruct (page_intro L pos (Z.to_nat batch) l (li_positions _ _ Hi) eq_refl) as [Hend Hin _ _ _]; [by intros E; rewrite E in Hz|].
  unfold bind at 1, catch at 1. cbn [ck_Save sqlite_poller_Checkpoints]. rewrite Hend.
  destruct (SaveCheckpoint_healthy (pos + N.of_nat (length l)) (tick (tick (fw_world w)))) as (x & HS & H1 & H2 & H3); [lia|].
  erewrite on_db_healthy; [|exact Ho|exact HS]. case_goal; [eexists _, _; split; [reflexivity|by eapply log_inv_ext]|]. apply IH; [done|].
  split; [done|by eapply log_inv_ext|]. simpl. rewrite H3. lia.
Qed.
End Healthy.

(** ** Properties *)

(** C30: delivery loses nothing.  Whatever other processes append meanwhile and
    whichever call fails, after a drain the handler has taken exactly the
    events after the stored checkpoint up to some position, in order; the new
    checkpoint lies between the old one and that position, so it never passes
    an event the handler has not taken, and it equals that position when the
    drain returns without error, at which time the log had been exhausted at
    some instant of the drain. *)
Theorem drain_loses_nothing `{UuidLib} `{Env} cap accept cfg p fuel w L c S r w' :
  clock_ok -> NewPoller sqlite_Source sqlite_poller_Checkpoints (Some (take_batch accept)) cfg = Some p ->
  poll_rep cap (pc_Subscriber cfg) w L c S -> poller_drain p fuel w = (r, w') ->
  exists L' h, L `prefix_of` L' /\ reachable cap (fw_world w') L' /\ fw_sent w' = S ++ window c h L'
    /\ (c <= stored_checkpoint (w_db (fw_world w')) (pc_Subscriber cfg) <= h)%N
    /\ (forall o, r = Ok o -> stored_checkpoint (w_db (fw_world w')) (pc_Subscriber cfg) = h)
    /\ (r = Ok (Some tt) -> exists L1, L `prefix_of` L1 /\ L1 `prefix_of` L' /\ drop (N.to_nat h) L1 = []).
Proof.
  intros Hclk HN HR Hrun. unfold NewPoller in HN. case_bool_decide; [done|]. injection HN as <-.
  set (p := MkPoller _ _ _ _) in Hrun.
  assert (0 < pc_BatchSize (po_cfg p))%Z as Hb by (simpl; case_goal; [lia|by apply Z.leb_gt]).
  destruct (@drain_spec fworld p (poll_rep cap (pc_Subscriber cfg)) (sqlite_TailLaws cap (pc_Subscriber cfg) Hclk accept)
    (sqlite_CheckpointLaws cap (pc_Subscriber cfg)) Hb fuel w L c S r w' HR Hrun) as (L' & c' & h & [D1 [R1 R2 R3 R4] D3 _ D4 D5 _]).
  exists L', h. rewrite R2. done.
Qed.

(** C31: a drain ends.  On a database that does not fail, with nobody else writing
    and a handler that accepts, a drain given more iterations than there are
    undelivered events returns without error, having handed over every event
    after the checkpoint, in order and once, and the checkpoint is the head of
    the log. *)
Theorem drain_terminates `{UuidLib} `{Env} cap cfg p fuel w L c S :
  no_fault -> clock_ok ->
  NewPoller sqlite_Source sqlite_poller_Checkpoints (Some (take_batch accept_batch)) cfg = Some p ->
  poll_rep cap (pc_Subscriber cfg) w L c S -> fw_others w = [] ->
  (c <= N.of_nat (length L) <= max_int64)%N -> (length L - N.to_nat c < fuel)%nat ->
  exists w', poller_drain p fuel w = (Ok (Some tt), w') /\ fw_sent w' = S ++ drop (N.to_nat c) L
    /\ stored_checkpoint (w_db (fw_world w')) (pc_Subscriber cfg) = N.of_nat (length L).
Proof.
  intros Hnf Hclk HN HR Ho [Hc Hroom] Hfuel. unfold NewPoller in HN. case_bool_decide; [done|]. injection HN as <-.
  set (batch := if (pc_BatchSize cfg <=? 0)%Z then 100%Z else pc_BatchSize cfg).
  set (interval := if (pc_PollInterval cfg <=? 0)%Z then Second else pc_PollInterval cfg).
  assert (0 < batch)%Z as Hb by (unfold batch; case_goal; [lia|by apply Z.leb_gt]).
  pose proof HR as [Hre Hck _ _]. destruct (reachable_inv _ _ _ Hclk Hre) as [Hi _].
  destruct (drain_healthy Hnf (pc_Subscriber cfg) L Hroom batch interval fuel w Hb) as (o & w' & Hrun & Hi'); [split; [done|done|lia]|].
  set (p := MkPoller _ _ _ _) in *.
  destruct (@drain_spec fworld p (poll_rep cap (pc_Subscriber cfg)) (sqlite_TailLaws cap (pc_Subscriber cfg) Hclk accept_batch)
    (sqlite_CheckpointLaws cap (pc_Subscriber cfg)) Hb fuel w L c S _ w' HR Hrun) as (L' & c' & h & [D1 [R1 R2 R3 R4] D3 D3' D4 D5 D6]).
  assert (L' = L) as -> by (eapply log_inv_unique; [apply (reachable_inv _ _ _ Hclk R1)|done]).
  destruct o as [[]|].
  2:{ exfalso. specialize (D6 eq_refl). unfold window in D6. rewrite length_take, length_drop in D6. lia. }
  destruct (D5 eq_refl) as (L1 & HL1 & HL1' & Hd). assert (L1 = L) as -> 
    by (apply prefix_same_length; [done|]; apply prefix_length in HL1, HL1'; lia).
  apply (f_equal length) in Hd. rewrite length_drop in Hd. simpl in Hd.
  exists w'. split; [done|]. rewrite R3, R2, (D4 _ eq_refl). split; [|lia]. f_equal. unfold window. apply take_ge. rewrite length_drop. lia.
Qed.

(** ** A concrete drain *)

Definition poll_cfg : PollerConfig := MkPollerConfig "reporting" 1 0.

Definition demo_poller : Poller fworld :=
  @MkPoller fworld (@sqlite_Source HexUuid calm_env) (@sqlite_poller_Checkpoints calm_env) (take_batch accept_batch)
    (MkPollerConfig "reporting" 1 Second).

#[local] Opaque world1 envs1.

Lemma world1_checkpoints : d_checkpoints (w_db world1) = ∅.
Proof.
  rewrite (keeps_run d_checkpoints _ _ _ _ (Append_keeps 0 d_checkpoints _ (fun _ _ _ => eq_refl) (fun _ _ => eq_refl)) run1). reflexivity.
Qed.

Lemma world1_poll others ticks :
  Forall (@poll_neighbour HexUuid calm_env 0 "reporting") others ->
  @poll_rep HexUuid calm_env 0 "reporting" (MkFworld world1 [] [] others ticks None false 0 false) envs1 0 [].
Proof.
  intros Ho. split; [apply reach1| |done|done]. unfold stored_checkpoint. simpl. by rewrite world1_checkpoints, lookup_empty.
Qed.

Lemma append_neighbour p : occurred_ok (ap_OccurredAt p) ->
  @poll_neighbour HexUuid calm_env 0 "reporting" (let! _ := @Append HexUuid calm_env 0 p in ret tt).
Proof.
  intros Ho w L Hr. unfold bind. destruct (@Append HexUuid calm_env 0 p w) as [r w1] eqn:HA.
  assert (d_checkpoints (w_db w1) = d_checkpoints (w_db w)) as E.
  { eapply (keeps_run d_checkpoints); [|exact HA]. by apply Append_keeps. }
  destruct r as [a|e]; simpl; (split; [by rewrite E|]);
    (eexists; split; [|by eapply reach_append]); [by apply prefix_app_r|by rewrite app_nil_r].
Qed.

(** Another process appends while the poller drains. *)
Definition busy_poll : fworld :=
  MkFworld world1 [] [] [let! _ := @Append HexUuid calm_env 0 (sample_append 2 [102]%nat []) in ret tt] [] None false 0 false.

Lemma drain_loses_nothing_witness :
  exists L' h, envs1 `prefix_of` L' /\ fw_sent (poller_drain demo_poller 5 busy_poll).2 = window 0 h L'.
Proof.
  destruct (@drain_loses_nothing HexUuid calm_env 0 accept_batch poll_cfg demo_poller 5 busy_poll envs1 0 [] _ _
    calm_clock_ok eq_refl (world1_poll _ _ ltac:(apply Forall_singleton, append_neighbour, sample_occurred)) (surjective_pairing _))
    as (L' & h & HL & _ & HS & _). exists L', h. split; [exact HL|exact HS].
Defined.

Lemma drain_terminates_witness :
  exists w', poller_drain demo_poller 3 (MkFworld world1 [] [] [] [] None false 0 false) = (Ok (Some tt), w') /\ fw_sent w' = envs1.
Proof.
  pose proof (f_equal length envs1_events) as Hlen. rewrite length_map in Hlen. simpl in Hlen.
  destruct (@drain_terminates HexUuid calm_env 0 poll_cfg demo_poller 3 (MkFworld world1 [] [] [] [] None false 0 false) envs1 0 [])
    as (w' & HD & HS & _).
  - exact calm_no_fault.
  - exact calm_clock_ok.
  - reflexivity.
  - apply (world1_poll [] []). constructor.
  - reflexivity.
  - rewrite Hlen. split; by vm_compute.
  - rewrite Hlen. simpl. lia.
  - exists w'. split; [exact HD|]. rewrite HS. reflexivity.
Defined.
