(* ===== verification/Projection.v ===== *)
(** * Projections (src/projection/)

    The rebuild (replay.go), the generated projector's engine with its markers
    and the log feed (runner.go), and the reconnecting feed (reconnecting.go).
    Fields a struct updates under its mutex are a record of their own, threaded
    beside the world; the engine is driven by one goroutine. *)
From S2P Require Import Prelude Es Effect Delivery.

(** ** Replay *)

(** Replay returns its last position together with its error; [None] is a loop
    that is still running. *)
Fixpoint replay_loop {W} (src : Source W) (apply : Handler W) (batch : Z) (fuel : nat) (pos : N) (w : W)
    : option (N * option error) * W :=
  match fuel with
  | O => (None, w)
  | S fuel' =>
      match src pos batch w with
      | (Err e, w) => (Some (pos, Some e), w)
      | (Ok evs, w) =>
          if (length evs =? 0)%nat then (Some (pos, None), w) else
          match apply evs w with
          | (Err e, w) => (Some (pos, Some e), w)
          | (Ok _, w) =>
              let pos := last_position evs pos in
              if (Z.of_nat (length evs) <? batch)%Z then (Some (pos, None), w)
              else replay_loop src apply batch fuel' pos w
          end
      end
  end.

Definition Replay {W} (src : Source W) (from : N) (batch : Z) (apply : Handler W) (fuel : nat) (w : W)
    : option (N * option error) * W :=
  let batch := if (batch <=? 0)%Z then 500%Z else batch in
  replay_loop src apply batch fuel from w.

(** ** Markers *)

Record Marker (W : Type) := MkMarker {
  mk_Load : string -> SM W N;
  mk_Save : string -> N -> SM W unit
}.
Arguments MkMarker {W} _ _.
Arguments mk_Load {W} _ _.
Arguments mk_Save {W} _ _ _.

(** MemoryMarker: a map under a mutex, read and written through a lens of the
    world that holds it. *)
Record lens (W A : Type) := MkLens { get : W -> A; put : A -> W -> W }.
Arguments MkLens {W A} _ _.
Arguments get {W A} _ _.
Arguments put {W A} _ _ _.

Definition NewMemoryMarker : gmap string N := ∅.

Definition memory_Load {W} (l : lens W (gmap string N)) (projection : string) : SM W N := fun w =>
  (Ok (default 0%N (get l w !! projection)), w).

Definition memory_Save {W} (l : lens W (gmap string N)) (projection : string) (position : N) : SM W unit := fun w =>
  (Ok tt, put l (<[projection := position]> (get l w)) w).

Definition MemoryMarker {W} (l : lens W (gmap string N)) : Marker W := MkMarker (memory_Load l) (memory_Save l).

(** ** Feeds *)

(** What the loops take from the Go runtime. *)
Class ProjectionEnv (W : Type) := {
  px_Now : W -> time * W;                    (** time.Now() *)
  px_ctxErr : W -> option error * W;         (** ctx.Err() *)
  px_timer : Z -> SM W unit;                 (** select on ctx.Done and a timer *)
  px_rand : Z -> W -> Z * W;                 (** rand.Int64N *)
  px_delivered : lens W bool                 (** the variable an attempt's closure captures *)
}.

(** Feed: the handler it delivers to, in and out; [None] is a live feed that
    has not returned. *)
Definition Feed (W : Type) : Type := (Envelope -> SM W unit) -> SM W (option unit).

Section Feeds.
Context {W : Type} `{ProjectionEnv W}.

Record LogFeed := MkLogFeed { lf_Source : Source W; lf_From : N; lf_Batch : Z; lf_Poll : Z }.

(** The retry loop on one envelope: [false] when the fuel ends first. *)
Fixpoint handle_until (handle : Envelope -> SM W unit) (poll : Z) (e : Envelope) (fuel : nat) : SM W bool :=
  match fuel with
  | O => ret false
  | S fuel' =>
      let! r := attempt (handle e) in
      match r with
      | Ok _ => ret true
      | Err _ => let! _ := px_timer poll in handle_until handle poll e fuel'
      end
  end.

(** The range over a page; the position after it, unless the fuel ended. *)
Fixpoint handle_page (handle : Envelope -> SM W unit) (poll : Z) (evs : list Envelope) (fuel : nat) (pos : N)
    : SM W (option N) :=
  match evs with
  | [] => ret (Some pos)
  | e :: evs' =>
      let! ok := handle_until handle poll e fuel in
      if ok then handle_page handle poll evs' fuel (GlobalPosition e) else ret None
  end.

Fixpoint logfeed_loop (f : LogFeed) (batch poll : Z) (handle : Envelope -> SM W unit) (fuel : nat) (pos : N)
    : SM W (option unit) :=
  match fuel with
  | O => ret None
  | S fuel' =>
      let! evs := lf_Source f pos batch in
      let! pos := handle_page handle poll evs fuel' pos in
      match pos with
      | None => ret None
      | Some pos =>
          if (Z.of_nat (length evs) =? batch)%Z then logfeed_loop f batch poll handle fuel' pos else
          let! _ := px_timer poll in
          logfeed_loop f batch poll handle fuel' pos
      end
  end.

Definition logfeed_Feed (f : LogFeed) (fuel : nat) : Feed W := fun handle =>
  let batch := if (lf_Batch f <=? 0)%Z then 500%Z else lf_Batch f in
  let poll := if (lf_Poll f <=? 0)%Z then (50 * Millisecond)%Z else lf_Poll f in
  logfeed_loop f batch poll handle fuel (lf_From f).

(** ** The reconnecting feed *)

Record ReconnectingFeed := MkReconnectingFeed {
  rf_Open : SM W (option (Feed W));          (** [None] is a nil feed *)
  rf_Min : Z;
  rf_Max : Z;
  rf_Jitter : option (Z -> W -> Z * W)
}.

(** time.Duration arithmetic: the doubling wraps at int64. *)
Definition grow (d max : Z) : Z := let d := i64 (d * 2) in if (max <? d)%Z then max else d.

Definition backoff (f : ReconnectingFeed) (d : Z) (w : W) : Z * W :=
  match rf_Jitter f with
  | Some j => j d w
  | None => if (d <=? 0)%Z then (0%Z, w) else px_rand d w
  end.

(** The effective bounds of the backoff. *)
Definition reconnect_bounds (f : ReconnectingFeed) : Z * Z :=
  let min := if (rf_Min f <=? 0)%Z then (250 * Millisecond)%Z else rf_Min f in
  let max := if (rf_Max f <=? 0)%Z then (30 * Second)%Z else rf_Max f in
  (if (max <? min)%Z then max else min, max).

(** One attempt: an error ends the loop, [Some delay] asks for a reopening after
    it, [None] is an inner feed that is still live. *)
Definition reconnect_attempt (f : ReconnectingFeed) (min : Z) (handle : Envelope -> SM W unit) (delay : Z)
    : SM W (option Z) := fun w =>
  match px_ctxErr w with
  | (Some e, w) => (Err e, w)
  | (None, w) =>
      match rf_Open f w with
      | (Err _, w) => match px_ctxErr w with (Some e, w) => (Err e, w) | (None, w) => (Ok (Some delay), w) end
      | (Ok None, w) => (Err (Sentinel errNilFeed), w)
      | (Ok (Some inner), w) =>
          let w := put px_delivered false w in
          match inner (fun e w => handle e (put px_delivered true w)) w with
          | (Ok None, w) => (Ok None, w)
          | (_, w) =>
              let delay := if get px_delivered w then min else delay in
              match px_ctxErr w with (Some e, w) => (Err e, w) | (None, w) => (Ok (Some delay), w) end
          end
      end
  end.

Fixpoint reconnect_loop (f : ReconnectingFeed) (min max : Z) (handle : Envelope -> SM W unit) (fuel : nat) (delay : Z)
    : SM W (option unit) :=
  match fuel with
  | O => ret None
  | S fuel' =>
      let! next := reconnect_attempt f min handle delay in
      match next with
      | None => ret None
      | Some delay =>
          let! d := fun w => let '(d, w) := backoff f delay w in (Ok d, w) in
          let! _ := px_timer d in
          reconnect_loop f min max handle fuel' (grow delay max)
      end
  end.

Definition reconnecting_Feed (f : ReconnectingFeed) (fuel : nat) : Feed W := fun handle =>
  let '(min, max) := reconnect_bounds f in reconnect_loop f min max handle fuel min.
End Feeds.
Arguments LogFeed : clear implicits.
Arguments ReconnectingFeed : clear implicits.

(** ** The runner *)

Section Runner.
Context {W : Type}.

Record Runner := MkRunner {
  pr_Name : string;
  pr_Marker : option (Marker W);
  pr_Dispatch : Envelope -> SM W unit;
  pr_Filter : option (Envelope -> bool)
}.

(** The runner's own fields, and the map of the in-memory marker init installs
    when none is given. *)
Record runner_state := MkRunnerState { ps_marker : N; ps_loaded : bool; ps_memory : gmap string N }.

Definition new_runner : runner_state := MkRunnerState 0 false NewMemoryMarker.

Abbreviation RW := (W * runner_state)%type.

Definition outer {A} (m : SM W A) : SM RW A := fun rw => let '(a, w) := m rw.1 in (a, (w, rw.2)).

Definition memory_lens : lens RW (gmap string N) :=
  MkLens (fun rw => ps_memory rw.2) (fun m rw => (rw.1, MkRunnerState (ps_marker rw.2) (ps_loaded rw.2) m)).

Definition runner_marker (r : Runner) : Marker RW :=
  match pr_Marker r with
  | Some m => MkMarker (fun p => outer (mk_Load m p)) (fun p pos => outer (mk_Save m p pos))
  | None => MemoryMarker memory_lens
  end.

Definition set_marker (pos : N) : SM RW unit := fun rw =>
  (Ok tt, (rw.1, MkRunnerState pos true (ps_memory rw.2))).

Definition loadMarker (r : Runner) : SM RW unit := fun rw =>
  if ps_loaded rw.2 then (Ok tt, rw) else
  (let! pos := mk_Load (runner_marker r) (pr_Name r) wrap "projection: load marker" in set_marker pos) rw.

Definition advance (r : Runner) (pos : N) : SM RW unit :=
  let! _ := mk_Save (runner_marker r) (pr_Name r) pos wrap "projection: save marker" in
  fun rw => (Ok tt, (rw.1, MkRunnerState pos (ps_loaded rw.2) (ps_memory rw.2))).

Definition runner_apply (r : Runner) (e : Envelope) : SM RW unit :=
  let! _ := loadMarker r in
  fun rw =>
    if (GlobalPosition e <=? ps_marker rw.2)%N then (Ok tt, rw) else
    if match pr_Filter r with Some f => negb (f e) | None => false end then advance r (GlobalPosition e) rw else
    (let! _ := outer (pr_Dispatch r e) in advance r (GlobalPosition e)) rw.

Definition runner_Position (r : Runner) : SM RW N :=
  let! _ := loadMarker r in
  fun rw => (Ok (ps_marker rw.2), rw).

Definition runner_Apply (r : Runner) (batch : list Envelope) : SM RW unit := forM (runner_apply r) batch.

Definition Rebuild (r : Runner) (src : Source W) (batch : Z) (fuel : nat) (rw : RW) : option (N * option error) * RW :=
  Replay (fun pos limit => outer (src pos limit)) 0 batch (runner_Apply r) fuel rw.

Definition runner_Run `{ProjectionEnv W} (r : Runner) (feed : Feed RW) : SM RW (option unit) :=
  let! _ := loadMarker r in
  fun rw =>
    match feed (runner_apply r) rw with
    | (Ok o, rw) => (Ok o, rw)
    | (Err err, rw) =>
        if Is err Canceled then
          let '(cerr, w) := px_ctxErr rw.1 in
          (match cerr with Some ce => Err ce | None => Err err end, (w, rw.2))
        else (Err err, rw)
    end.
End Runner.
Arguments Runner : clear implicits.
