(* ===== verification/RunnerCorrect.v ===== *)
(** * The projector engine turns at-least-once into exactly-once
    (src/projection/runner.go)

    A feed may redeliver whatever it likes, as long as it never passes an event
    it has not seen acknowledged; the dispatch and the marker may fail at any
    call.  What the handler has successfully processed is then the consumed
    events in log order, and the number of times an event was processed is
    exactly one more than the number of its own marker saves that failed. *)
From S2P Require Import Prelude Es Effect Delivery Projection FeedContract.

(** ** The contract of the surroundings *)

(** What the runner did to its surroundings: a dispatch that succeeded, or a
    marker save at a position, with its success. *)
Inductive act := Dispatched (e : Envelope) | Saved (pos : N) (ok : bool).

(** [rep rw m T]: the durable marker is [m], and [T] is what has been done. *)
Class RunnerLaws (W : Type) (r : Runner W) (rep : W * runner_state -> N -> list act -> Prop) := {
  rl_own : forall w st st' m T, ps_memory st' = ps_memory st -> rep (w, st) m T -> rep (w, st') m T;
  rl_load : forall rw m T res rw', rep rw m T -> mk_Load (runner_marker r) (pr_Name r) rw = (res, rw') ->
    rep rw' m T /\ ps_marker rw'.2 = ps_marker rw.2 /\ ps_loaded rw'.2 = ps_loaded rw.2 /\ forall p, res = Ok p -> p = m;
  rl_save : forall rw m T pos res rw', rep rw m T -> mk_Save (runner_marker r) (pr_Name r) pos rw = (res, rw') ->
    rep rw' (match res with Ok _ => pos | Err _ => m end) (T ++ [Saved pos (is_ok res)]) /\ ps_marker rw'.2 = ps_marker rw.2 /\ ps_loaded rw'.2 = ps_loaded rw.2;
  rl_dispatch : forall rw m T e res rw', rep rw m T -> outer (pr_Dispatch r e) rw = (res, rw') ->
    rep rw' m (match res with Ok _ => T ++ [Dispatched e] | Err _ => T end) /\ rw'.2 = rw.2
}.

(** The events dispatched with success, in order. *)
Definition dispatched (T : list act) : list Envelope :=
  omap (fun a => match a with Dispatched e => Some e | Saved _ _ => None end) T.

(** How often the event at a position was dispatched with success. *)
Definition dispatches (pos : N) (T : list act) : nat :=
  length (filter (fun e => GlobalPosition e = pos) (dispatched T)).

(** How often saving the marker at a position failed. *)
Definition failed_at (pos : N) (a : act) : bool := match a with Saved p false => (p =? pos)%N | _ => false end.

Definition failed_saves (pos : N) (T : list act) : nat := length (filter (failed_at pos) T).

Lemma dispatched_snoc T a :
  dispatched (T ++ [a]) = dispatched T ++ match a with Dispatched e => [e] | Saved _ _ => [] end.
Proof. unfold dispatched. rewrite omap_app. by destruct a. Qed.

Lemma dispatches_snoc pos T a :
  dispatches pos (T ++ [a])
  = (dispatches pos T + match a with Dispatched e => if decide (GlobalPosition e = pos) then 1 else 0 | Saved _ _ => 0 end)%nat.
Proof.
  unfold dispatches. rewrite dispatched_snoc, filter_app, length_app. destruct a as [e|p b]; [|done].
  rewrite filter_cons. by case_decide.
Qed.

Lemma failed_saves_snoc pos T a :
  failed_saves pos (T ++ [a])
  = (failed_saves pos T + if failed_at pos a then 1 else 0)%nat.
Proof. unfold failed_saves. rewrite filter_app, length_app, filter_cons. by destruct (failed_at pos a). Qed.

(** [T] is [l] with every element repeated one or more times. *)
Inductive repeats {A} : list A -> list A -> Prop :=
| rp_nil : repeats [] []
| rp_new l T x : repeats l T -> repeats (l ++ [x]) (T ++ [x])
| rp_again l T x : repeats (l ++ [x]) T -> repeats (l ++ [x]) (T ++ [x]).

Lemma repeats_elem {A} (l T : list A) y : repeats l T -> y ∈ T <-> y ∈ l.
Proof.
  induction 1 as [|l T x _ IH|l T x _ IH]; [done|by rewrite !elem_of_app, IH|].
  rewrite elem_of_app, IH, elem_of_app, list_elem_of_singleton. tauto.
Qed.

(** Without a second occurrence of any key nothing was repeated. *)
Lemma repeats_once {A} (key : A -> N) (l T : list A) :
  repeats l T -> (forall y, y ∈ l -> (length (filter (fun x => key x = key y) T) <= 1)%nat) -> T = l.
Proof.
  induction 1 as [|l T x HR IH|l T x HR _]; intros H1; [done|..].
  - rewrite IH; [done|]. intros y Hy. specialize (H1 y ltac:(apply elem_of_app; by left)).
    rewrite filter_app, length_app in H1. lia.
  - specialize (H1 x ltac:(apply elem_of_app; right; by left)).
    rewrite filter_app, length_app, filter_cons_True in H1 by done. simpl in H1.
    assert (x ∈ filter (fun y => key y = key x) T) as Hx.
    { apply list_elem_of_filter. split; [done|]. apply (repeats_elem _ _ x HR), elem_of_app. right. by left. }
    destruct (filter (fun y => key y = key x) T); [by apply not_elem_of_nil in Hx|simpl in H1; lia].
Qed.

Definition consumes {W} (r : Runner W) (e : Envelope) : bool :=
  match pr_Filter r with Some f => f e | None => true end.

(** The consumed events of positions [(from, upto]]. *)
Definition consumed {W} (r : Runner W) (from upto : N) (L : list Envelope) : list Envelope :=
  filter (fun e => (from < GlobalPosition e <= upto)%N /\ consumes r e = true) L.

Lemma sorted_inj {A} (key : A -> N) l x y :
  StronglySorted (fun a b => key a < key b)%N l -> x ∈ l -> y ∈ l -> key x = key y -> x = y.
Proof.
  induction 1 as [|z l Hs IH Hz]; [by intros ?%not_elem_of_nil|]. rewrite Forall_forall in Hz.
  intros [->|Hx]%elem_of_cons [->|Hy]%elem_of_cons E; [done| | |by apply IH].
  - specialize (Hz y Hy). lia.
  - specialize (Hz x Hx). lia.
Qed.

Section Engine.
Context {W : Type} (r : Runner W) (rep : W * runner_state -> N -> list act -> Prop).
Context `{!RunnerLaws W r rep}.
Variables (L : list Envelope) (m0 : N).
Hypothesis Hsorted : positions_sorted L.

(** The engine's state: a loaded marker is the durable one. *)
Definition synced (rw : W * runner_state) (m : N) : Prop := ps_loaded rw.2 = true -> ps_marker rw.2 = m.

(** [e] is the first event after position [m]. *)
Definition next_event (m : N) (e : Envelope) : Prop :=
  e ∈ L /\ (m < GlobalPosition e)%N /\ forall e', e' ∈ L -> (GlobalPosition e' < GlobalPosition e)%N -> (GlobalPosition e' <= m)%N.

(** What has been done when the marker is [m]: in order, the consumed events up
    to it were dispatched, and perhaps the next one, whose marker save has
    failed; each as often as its marker saves failed, plus the once that counts. *)
Definition tally (m : N) (T : list act) : Prop :=
  forall e, e ∈ L -> consumes r e = true ->
    dispatches (GlobalPosition e) T
    = ((if decide (m0 < GlobalPosition e <= m)%N then 1 else 0) + failed_saves (GlobalPosition e) T)%nat.

Definition progress (m : N) (T : list act) : Prop :=
  (m0 <= m)%N /\ tally m T
  /\ (repeats (consumed r m0 m L) (dispatched T)
      \/ exists x, next_event m x /\ consumes r x = true /\ repeats (consumed r m0 m L ++ [x]) (dispatched T)).

Lemma next_unique m x y : next_event m x -> next_event m y -> x = y.
Proof.
  intros (Hx & Hxm & Hxn) (Hy & Hym & Hyn). apply (sorted_inj GlobalPosition L); try done.
  destruct (N.lt_trichotomy (GlobalPosition x) (GlobalPosition y)) as [Hlt|[|Hlt]]; [|done|].
  - specialize (Hyn x Hx Hlt). lia.
  - specialize (Hxn y Hy Hlt). lia.
Qed.

Lemma consumed_next m x :
  (m0 <= m)%N -> next_event m x ->
  consumed r m0 (GlobalPosition x) L = consumed r m0 m L ++ (if consumes r x then [x] else []).
Proof.
  intros Hm (Hx & Hgt & Hn). apply list_elem_of_split in Hx as (l1 & l2 & HL). unfold consumed. rewrite HL in *.
  pose proof Hsorted as Hs.
  assert (forall e, e ∈ l1 -> (GlobalPosition e <= m)%N) as H1.
  { intros e He. apply Hn; [set_solver|]. eapply sorted_app_lt; [exact Hs|done|by left]. }
  assert (forall e, e ∈ l2 -> (GlobalPosition x < GlobalPosition e)%N) as H2.
  { intros e He. apply StronglySorted_app in Hs as (_ & _ & Hs). inversion Hs as [|? ? _ Hf]; subst.
    rewrite Forall_forall in Hf. by apply Hf. }
  rewrite !filter_app, !filter_cons.
  rewrite (filter_false _ l2) by (intros e He%H2 [? _]; lia).
  rewrite (filter_false (fun e => (m0 < GlobalPosition e <= m)%N /\ _) l2) by (intros e He%H2 [? _]; lia).
  rewrite (decide_False (P := (m0 < GlobalPosition x <= m)%N /\ _)) by lia. rewrite app_nil_r.
  f_equal; [apply filter_iff_in; intros e He%H1; split; intros [? ?]; split; lia || done|].
  destruct (consumes r x); [rewrite decide_True by (split; [lia|done])|rewrite decide_False by (by intros [_ ?])]; done.
Qed.

Lemma loadMarker_spec rw m T res rw' :
  rep rw m T -> synced rw m -> loadMarker r rw = (res, rw') ->
  rep rw' m T /\ synced rw' m /\ (res = Ok tt -> ps_loaded rw'.2 = true /\ ps_marker rw'.2 = m).
Proof.
  intros HR Hs. unfold loadMarker. destruct (ps_loaded rw.2) eqn:Hl.
  { intros [= <- <-]. auto. }
  unfold bind, catch. destruct (mk_Load _ _ rw) as [lr rw1] eqn:HL.
  destruct (rl_load _ _ _ _ _ HR HL) as (HR1 & Hm1 & Hl1 & Hp). destruct lr as [p|e].
  - intros [= <- <-]. rewrite (Hp p eq_refl). destruct rw1 as [w1 st1]. split; [by eapply rl_own; [|exact HR1]|]. by split.
  - intros [= <- <-]. split; [done|]. split; [|done]. intros Hx. rewrite Hl1, Hl in Hx. done.
Qed.

Lemma advance_spec rw m T pos res rw' :
  rep rw m T -> ps_loaded rw.2 = true -> ps_marker rw.2 = m -> advance r pos rw = (res, rw') ->
  let m' := match res with Ok _ => pos | Err _ => m end in rep rw' m' (T ++ [Saved pos (is_ok res)]) /\ synced rw' m'.
Proof.
  intros HR Hl Hm. unfold advance, bind, catch. destruct (mk_Save _ _ _ rw) as [sr rw1] eqn:HS.
  destruct (rl_save _ _ _ _ _ _ HR HS) as (HR1 & Hm1 & Hl1). destruct sr as [[]|e]; intros [= <- <-]; simpl.
  - destruct rw1 as [w1 st1]. split; [by eapply rl_own; [|exact HR1]|done].
  - split; [done|]. intros _. congruence.
Qed.

(** The tally after an event of the log was dispatched and its marker saved
    (or not), or passed over because the projection does not consume it. *)
Lemma tally_step m T e ok :
  (m0 <= m)%N -> next_event m e -> tally m T ->
  tally (if ok : bool then GlobalPosition e else m)
    ((if consumes r e then T ++ [Dispatched e] else T) ++ [Saved (GlobalPosition e) ok]).
Proof.
  intros Hm0 (He & Hgt & Hn) HT x Hx Hc. specialize (HT x Hx Hc).
  rewrite dispatches_snoc, failed_saves_snoc, Nat.add_0_r. cbn [failed_at].
  assert (GlobalPosition e = GlobalPosition x -> e = x) as Hinj by (intros E; by apply (sorted_inj GlobalPosition L)).
  destruct (decide (GlobalPosition e = GlobalPosition x)) as [E|E].
  - rewrite (Hinj E) in *. rewrite Hc, dispatches_snoc, failed_saves_snoc, (decide_True (P := GlobalPosition x = _)), Nat.add_0_r, HT, N.eqb_refl by done.
    destruct ok; repeat case_decide; lia.
  - assert (dispatches (GlobalPosition x) (if consumes r e then T ++ [Dispatched e] else T) = dispatches (GlobalPosition x) T
      /\ failed_saves (GlobalPosition x) (if consumes r e then T ++ [Dispatched e] else T) = failed_saves (GlobalPosition x) T) as [-> ->].
    { destruct (consumes r e); [|done]. rewrite dispatches_snoc, failed_saves_snoc, decide_False by done. cbn [failed_at]. lia. }
    rewrite HT. specialize (Hn x Hx). destruct ok; [repeat case_decide; lia|].
    destruct (N.eqb_spec (GlobalPosition e) (GlobalPosition x)); [done|lia].
Qed.

(** One delivery. *)
Lemma apply_spec rw m T e res rw' :
  rep rw m T -> synced rw m -> progress m T -> e ∈ L ->
  (forall e', e' ∈ L -> (GlobalPosition e' < GlobalPosition e)%N -> (GlobalPosition e' <= m)%N) ->
  runner_apply r e rw = (res, rw') ->
  exists m' T', rep rw' m' T' /\ synced rw' m' /\ progress m' T' /\ (m <= m')%N
    /\ (res = Ok tt -> (GlobalPosition e <= m')%N).
Proof.
  intros HR Hs (Hm0 & Hex & Hp) He Hbefore. unfold runner_apply. unfold bind at 1.
  destruct (loadMarker r rw) as [lr rw1] eqn:HL. destruct (loadMarker_spec _ _ _ _ _ HR Hs HL) as (HR1 & Hs1 & Hld).
  destruct lr as [[]|le].
  2:{ intros [= <- <-]. exists m, T. by repeat split. }
  destruct (Hld eq_refl) as [Hl1 Hm1]. rewrite Hm1. destruct (N.leb_spec (GlobalPosition e) m) as [Hle|Hgt].
  { intros [= <- <-]. exists m, T. by repeat split. }
  assert (next_event m e) as Hnext by (split; [done|]; split; [lia|done]).
  assert (match pr_Filter r with Some f => negb (f e) | None => false end = negb (consumes r e)) as ->
    by (unfold consumes; by destruct (pr_Filter r)).
  pose proof (fun ok => tally_step m T e ok Hm0 Hnext Hex) as Htal.
  destruct (consumes r e) eqn:Hc; simpl.
  - unfold bind. destruct (outer (pr_Dispatch r e) rw1) as [dr rw2] eqn:HD.
    destruct (rl_dispatch _ _ _ _ _ _ HR1 HD) as [HR2 H2]. destruct dr as [[]|de].
    2:{ intros [= <- <-]. exists m, T. split; [done|]. split; [intros _; by rewrite H2|]. by repeat split. }
    intros HA. rewrite <- H2 in Hl1, Hm1. destruct (advance_spec _ _ _ _ _ _ HR2 Hl1 Hm1 HA) as (HR3 & Hs3).
    assert (repeats (consumed r m0 m L ++ [e]) (dispatched ((T ++ [Dispatched e]) ++ [Saved (GlobalPosition e) (is_ok res)]))) as Hrep.
    { rewrite !dispatched_snoc, app_nil_r.
      destruct Hp as [Hp|(x & Hx & _ & Hp)]; [by apply rp_new|]. rewrite (next_unique _ _ _ Hx Hnext) in Hp. by apply rp_again. }
    specialize (Htal (is_ok res)).
    destruct res as [[]|ae]; [exists (GlobalPosition e)|exists m]; eexists; (split; [exact HR3|]); (split; [done|]).
    + split; [|split; [lia|done]]. unfold progress. rewrite !(consumed_next m e), Hc by done. split; [lia|].
      split; [exact Htal|by left].
    + split; [|done]. split; [done|]. split; [exact Htal|]. right. eauto.
  - intros HA. destruct (advance_spec _ _ _ _ _ _ HR1 Hl1 Hm1 HA) as (HR3 & Hs3). specialize (Htal (is_ok res)).
    destruct res as [[]|ae]; [exists (GlobalPosition e)|exists m]; eexists; (split; [exact HR3|]); (split; [done|]).
    + split; [|split; [lia|done]]. unfold progress. rewrite !(consumed_next m e), Hc, app_nil_r by done.
      rewrite dispatched_snoc, app_nil_r. split; [lia|]. split; [exact Htal|]. left.
      destruct Hp as [Hp|(x & Hx & Hcx & _)]; [done|]. rewrite (next_unique _ _ _ Hx Hnext) in Hcx. congruence.
    + split; [|done]. split; [done|]. split; [exact Htal|]. by rewrite dispatched_snoc, app_nil_r.
Qed.

(** With no failed save nothing is repeated and nothing is ahead of the marker. *)
Lemma progress_exact m T :
  progress m T -> (forall pos, failed_saves pos T = 0%nat) -> dispatched T = consumed r m0 m L.
Proof.
  intros (Hm & HT & Hp) H0.
  assert (forall e, e ∈ consumed r m0 m L -> (dispatches (GlobalPosition e) T <= 1)%nat) as H1.
  { intros e ([_ Hc] & He)%list_elem_of_filter. rewrite (HT e He Hc), H0. case_decide; lia. }
  destruct Hp as [Hp|(x & (Hx & Hgt & _) & Hc & Hp)]; [by apply (repeats_once GlobalPosition _ _ Hp)|].
  specialize (HT x Hx Hc). rewrite H0, decide_False in HT by lia.
  assert (x ∈ filter (fun y => GlobalPosition y = GlobalPosition x) (dispatched T)) as Hin.
  { apply list_elem_of_filter. split; [done|]. apply (repeats_elem _ _ x Hp), elem_of_app. right. by left. }
  unfold dispatches in HT. destruct (filter _ (dispatched T)); [by apply not_elem_of_nil in Hin|done].
Qed.
End Engine.

(** ** A run of deliveries *)

Fixpoint run_applies {W} (r : Runner W) (ds : list Envelope) (rw : W * runner_state) : list (res unit) * (W * runner_state) :=
  match ds with
  | [] => ([], rw)
  | e :: ds' =>
      let '(a, rw) := runner_apply r e rw in
      let '(rs, rw) := run_applies r ds' rw in (a :: rs, rw)
  end.

(** The feed passes no event it has not seen acknowledged: whatever lies before
    a delivered event was at or below the marker the run started from, or an
    earlier delivery of it returned nil.  Redelivery is unrestricted. *)
Definition no_skip (L : list Envelope) (m0 : N) (ds : list Envelope) (rs : list (res unit)) : Prop :=
  forall i e, ds !! i = Some e -> e ∈ L
    /\ forall e', e' ∈ L -> (GlobalPosition e' < GlobalPosition e)%N ->
         (GlobalPosition e' <= m0)%N \/ exists j, (j < i)%nat /\ ds !! j = Some e' /\ rs !! j = Some (Ok tt).

Section Deliveries.
Context {W : Type} (r : Runner W) (rep : W * runner_state -> N -> list act -> Prop).
Context `{!RunnerLaws W r rep}.
Variables (L : list Envelope) (m0 : N).
Hypothesis Hsorted : positions_sorted L.

(** [seen]: every acknowledged event so far is at or below the marker. *)
Lemma run_applies_spec : forall ds rs rw rw' m T (before : list Envelope) (acks : list (res unit)),
  rep rw m T -> synced rw m -> progress r L m0 m T -> length acks = length before ->
  (forall j e, before !! j = Some e -> acks !! j = Some (Ok tt) -> (GlobalPosition e <= m)%N) ->
  run_applies r ds rw = (rs, rw') -> no_skip L m0 (before ++ ds) (acks ++ rs) ->
  exists m' T', rep rw' m' T' /\ progress r L m0 m' T' /\ (m <= m')%N
    /\ forall j e, ds !! j = Some e -> rs !! j = Some (Ok tt) -> (GlobalPosition e <= m')%N.
Proof.
  induction ds as [|e ds IH]; intros rs rw rw' m T before acks HR Hs Hp Hlen Hacks; simpl.
  { intros [= <- <-] _. exists m, T. split; [done|]. split; [done|]. split; [done|]. by intros j e. }
  destruct (runner_apply r e rw) as [a rw1] eqn:HA. destruct (run_applies r ds rw1) as [rs1 rw2] eqn:HR1.
  intros [= <- <-] Hns.
  destruct (Hns (length before) e) as [He Hbefore]; [by rewrite lookup_app_r, Nat.sub_diag by lia|].
  destruct (apply_spec r rep L m0 Hsorted rw m T e a rw1 HR Hs Hp He) as (m1 & T1 & HR' & Hs' & Hp' & Hle & Hok); [|done|].
  { intros e' He' Hlt. destruct (Hbefore e' He' Hlt) as [?|(j & Hj & Hd & Ha)].
    - destruct Hp as (? & _ & _). lia.
    - rewrite lookup_app_l in Hd by done. rewrite lookup_app_l in Ha by lia. by eapply Hacks. }
  destruct (IH rs1 rw1 rw2 m1 T1 (before ++ [e]) (acks ++ [a]) HR' Hs' Hp') as (m' & T' & HR'' & Hp'' & Hle' & Hok'').
  - rewrite !length_app. simpl. lia.
  - intros j x Hx Ha. destruct (decide (j < length before)%nat) as [Hj|Hj].
    + rewrite lookup_app_l in Hx by done. rewrite lookup_app_l in Ha by lia. specialize (Hacks j x Hx Ha). lia.
    + assert (j = length before) as ->.
      { apply lookup_lt_Some in Hx. rewrite length_app in Hx. simpl in Hx. lia. }
      rewrite lookup_app_r, Nat.sub_diag in Hx by lia. rewrite <- Hlen, lookup_app_r, Nat.sub_diag in Ha by lia.
      injection Hx as <-. injection Ha as ->. auto.
  - done.
  - by rewrite <- !app_assoc.
  - exists m', T'. split; [done|]. split; [done|]. split; [lia|]. intros [|j] x; simpl; [|apply Hok''].
    intros [= <-] [= ->]. specialize (Hok eq_refl). lia.
Qed.
End Deliveries.

(** C32: at-least-once delivery becomes exactly-once processing.  Let a runner start
    (freshly, or after a crash) with a durable marker, and let a feed deliver
    events of a log in any way that passes no unacknowledged event, with
    dispatches and marker writes failing at any call (a failed write leaves the
    durable marker as it was).  Then what was dispatched with success is the
    consumed events above the starting marker, in log order, up to the final
    marker and perhaps the next one, each repeated only consecutively.  Every
    consumed event was dispatched exactly as often as saving the marker at its
    position failed, plus once when it is at or below the final marker; so when
    no marker write of the run failed, exactly the consumed events up to the
    final marker were dispatched, once each.  Every acknowledged event is at or
    below the final marker. *)
Theorem runner_exactly_once {W} (r : Runner W) rep `{!RunnerLaws W r rep} L m0 w mem ds rs rw' :
  positions_sorted L -> rep (w, MkRunnerState 0 false mem) m0 [] ->
  run_applies r ds (w, MkRunnerState 0 false mem) = (rs, rw') -> no_skip L m0 ds rs ->
  exists m T, rep rw' m T /\ (m0 <= m)%N
    /\ (repeats (consumed r m0 m L) (dispatched T)
        \/ exists x, next_event L m x /\ consumes r x = true /\ repeats (consumed r m0 m L ++ [x]) (dispatched T))
    /\ (forall e, e ∈ L -> consumes r e = true ->
          dispatches (GlobalPosition e) T
          = ((if decide (m0 < GlobalPosition e <= m)%N then 1 else 0) + failed_saves (GlobalPosition e) T)%nat)
    /\ ((forall pos, failed_saves pos T = 0%nat) -> dispatched T = consumed r m0 m L)
    /\ forall j e, ds !! j = Some e -> rs !! j = Some (Ok tt) -> (GlobalPosition e <= m)%N.
Proof.
  intros Hs HR Hrun Hns.
  destruct (run_applies_spec r rep L m0 Hs ds rs _ rw' m0 [] [] [] HR) as (m & T & HR' & HP & _ & Hok); try done.
  - unfold progress, tally, consumed. rewrite filter_false by (intros e _ [? _]; lia). split; [lia|].
    split; [|left; constructor]. intros e _ _. rewrite decide_False by lia. done.
  - exists m, T. pose proof (progress_exact r L m0 _ _ HP) as Hex. destruct HP as (Hm & HT & Hp). done.
Qed.

(** ** A concrete projector *)

(** A handler and a marker table that fail where their scripts say, and what
    was done with success. *)
Record demo_world := MkDemo { dm_handler : list bool; dm_save : list bool; dm_marker : N; dm_trace : list act }.

Definition fails (script : list bool) : bool := match script with b :: _ => b | [] => false end.

Definition demo_dispatch (e : Envelope) : SM demo_world unit := fun w =>
  if fails (dm_handler w)
  then (Err (ErrorsNew "handler"), MkDemo (tail (dm_handler w)) (dm_save w) (dm_marker w) (dm_trace w))
  else (Ok tt, MkDemo (tail (dm_handler w)) (dm_save w) (dm_marker w) (dm_trace w ++ [Dispatched e])).

Definition demo_marker : Marker demo_world :=
  MkMarker (fun _ w => (Ok (dm_marker w), w))
    (fun _ pos w =>
       if fails (dm_save w)
       then (Err (ErrorsNew "marker"), MkDemo (dm_handler w) (tail (dm_save w)) (dm_marker w) (dm_trace w ++ [Saved pos false]))
       else (Ok tt, MkDemo (dm_handler w) (tail (dm_save w)) pos (dm_trace w ++ [Saved pos true]))).

Definition demo_runner : Runner demo_world :=
  MkRunner "totals" (Some demo_marker) demo_dispatch (Some (fun e => bool_decide (TypeURL e = "a.v1.A"%string))).

Definition demo_rep (rw : demo_world * runner_state) (m : N) (T : list act) : Prop :=
  dm_trace rw.1 = T /\ dm_marker rw.1 = m.

#[global] Instance demo_laws : RunnerLaws demo_world demo_runner demo_rep.
Proof.
  split.
  - by intros w st st' m T E HR.
  - intros rw m T res rw' [HT Hm]. cbn. unfold outer. cbn. intros [= <- <-]. split; [done|]. split; [done|]. split; [done|].
    intros p [= <-]. exact Hm.
  - intros rw m T pos res rw' [HT Hm]. cbn. unfold outer. cbn.
    destruct (fails _); intros [= <- <-]; (split; [|done]); split; simpl; congruence.
  - intros rw m T e res rw' [HT Hm]. unfold outer, demo_runner, demo_dispatch. cbn.
    destruct (fails _); intros [= <- <-]; (split; [|done]); split; simpl; congruence.
Qed.

Definition demo_event (pos : N) (url : string) : Envelope :=
  MkEnvelope uuid_Nil (MkStreamID "counter" "main") pos pos EmptyString url 1 zero_time zero_time uuid_Nil uuid_Nil uuid_Nil
    (MkActor "user" "a") [] None None.

Definition demo_log : list Envelope :=
  [demo_event 1 "a.v1.A"; demo_event 2 "b.v1.B"; demo_event 3 "a.v1.A"].

(** The first event's marker save fails once, the third event's handler fails
    once; after both failures the feed starts over. *)
Definition demo_deliveries : list Envelope := demo_event 1 "a.v1.A" :: demo_log ++ demo_log.

Definition demo_start : demo_world := MkDemo [false; false; true] [true] 0 [].

Definition demo_run := run_applies demo_runner demo_deliveries (demo_start, MkRunnerState 0 false NewMemoryMarker).

Lemma demo_acks : map is_ok demo_run.1 = [false; true; true; false; true; true; true].
Proof. by vm_compute. Qed.

Lemma demo_sorted : positions_sorted demo_log.
Proof. repeat constructor. Qed.

Lemma demo_no_skip : no_skip demo_log 0 demo_deliveries demo_run.1.
Proof.
  assert (demo_run.1 !! 1%nat = Some (Ok tt) /\ demo_run.1 !! 2%nat = Some (Ok tt)) as [A1 A2] by (by vm_compute).
  intros i e He.
  assert (e ∈ demo_log /\ (GlobalPosition e = 1%N \/ GlobalPosition e = 2%N /\ (2 <= i)%nat \/ (GlobalPosition e = 3%N /\ (3 <= i)%nat)))
    as [HeL Hpos].
  { unfold demo_log. do 7 (destruct i as [|i]; [injection He as <-; split; [first [by left|right; by left|right; right; by left]|simpl; lia]|]). done. }
  split; [done|]. intros e' He' Hlt. right.
  apply elem_of_cons in He' as [->|He']; [exists 1%nat; simpl in Hlt; split; [lia|split; [reflexivity|exact A1]]|].
  apply elem_of_cons in He' as [->|He']; [exists 2%nat; simpl in Hlt; split; [lia|split; [reflexivity|exact A2]]|].
  apply list_elem_of_singleton in He' as ->. simpl in Hlt. lia.
Qed.

(** The first event is processed twice, because its first save failed, the
    third once; both are acknowledged. *)
Lemma runner_exactly_once_witness :
  exists T, dm_trace demo_run.2.1 = T /\ failed_saves 1 T = 1%nat
    /\ dispatches 1 T = 2%nat /\ dispatches 3 T = 1%nat.
Proof.
  destruct (runner_exactly_once demo_runner demo_rep demo_log 0 demo_start NewMemoryMarker demo_deliveries
    demo_run.1 demo_run.2 demo_sorted) as (m & T & [HT Hm] & _ & _ & HD & _ & _).
  - by split.
  - apply surjective_pairing.
  - apply demo_no_skip.
  - exists T. split; [exact HT|].
    assert (failed_saves 1 (dm_trace demo_run.2.1) = 1%nat /\ failed_saves 3 (dm_trace demo_run.2.1) = 0%nat
      /\ dm_marker demo_run.2.1 = 3%N) as (F1 & F3 & FM) by (vm_compute; repeat split).
    rewrite HT in F1, F3. rewrite Hm in FM.
    pose proof (HD (demo_event 1 "a.v1.A") ltac:(by left) eq_refl) as D1.
    pose proof (HD (demo_event 3 "a.v1.A") ltac:(right; right; by left) eq_refl) as D3.
    rewrite FM in D1, D3. cbn [GlobalPosition demo_event] in D1, D3. rewrite F1 in D1. rewrite F3 in D3.
    split; [exact F1|]. split; [exact D1|exact D3].
Defined.
