(* ===== verification/BufferedMarker.v ===== *)
(** * The buffering marker (src/projection/buffered_marker.go)

    A marker that batches saves.  Used the way the projector uses it, with
    positions that never decrease, it is always at the highest position saved,
    whatever inner call fails; used otherwise it can rewind. *)
From S2P Require Import Prelude Es Effect Projection.

(** The clock and the order in which a range visits a map. *)
Class MarkerEnv (W : Type) := {
  me_Now : W -> time * W;
  me_range : gmap string N -> W -> list (string * N) * W
}.

Record BufferedMarkerOptions (W : Type) := MkBufferedMarkerOptions {
  bo_MaxCount : Z;
  bo_MaxInterval : Z;
  bo_Now : option (W -> time * W)
}.
Arguments MkBufferedMarkerOptions {W} _ _ _.
Arguments bo_MaxCount {W} _.
Arguments bo_MaxInterval {W} _.
Arguments bo_Now {W} _.

Section Buffered.
Context {W : Type} `{MarkerEnv W}.

Record BufferedMarker := MkBufferedMarker {
  bm_inner : Marker W;
  bm_MaxCount : Z;
  bm_MaxInterval : Z;
  bm_Now : W -> time * W
}.

(** The fields behind the mutex. *)
Record buffer := MkBuffer { bf_pending : gmap string N; bf_count : Z; bf_firstDirty : time }.

Definition NewBufferedMarker (inner : Marker W) (opts : BufferedMarkerOptions W) : BufferedMarker * buffer :=
  (MkBufferedMarker inner
     (if (bo_MaxCount opts <=? 0)%Z then 100%Z else bo_MaxCount opts)
     (if (bo_MaxInterval opts <=? 0)%Z then Second else bo_MaxInterval opts)
     (match bo_Now opts with None => me_Now | Some now => now end),
   MkBuffer ∅ 0 zero_time).

Abbreviation BW := (W * buffer)%type.

Section Methods.
Variable m : BufferedMarker.

(** One inner save per pending projection; what persisted is cleared, and the
    first failure stops. *)
Fixpoint flush_loop (kvs : list (string * N)) : SM BW unit :=
  match kvs with
  | [] => ret tt
  | (key, pos) :: kvs' => fun bw =>
      match mk_Save (bm_inner m) key pos bw.1 with
      | (Err e, w) => (Err e, (w, bw.2))
      | (Ok _, w) => flush_loop kvs' (w, MkBuffer (delete key (bf_pending bw.2)) (bf_count bw.2) (bf_firstDirty bw.2))
      end
  end.

Definition flush : SM BW unit := fun bw =>
  let reset (bw : BW) : BW := (bw.1, MkBuffer (bf_pending bw.2) 0 zero_time) in
  if (size (bf_pending bw.2) =? 0)%nat then (Ok tt, reset bw) else
  let '(kvs, w) := me_range (bf_pending bw.2) bw.1 in
  match flush_loop kvs (w, bw.2) with
  | (Err e, bw) => (Err e, bw)
  | (Ok _, bw) => (Ok tt, reset bw)
  end.

Definition buffered_Load (projection : string) : SM BW N := fun bw =>
  let pending := default 0%N (bf_pending bw.2 !! projection) in
  match flush bw with
  | (Err e, bw) => (Err e, bw)
  | (Ok _, bw) =>
      match mk_Load (bm_inner m) projection bw.1 with
      | (Err e, w) => (Err e, (w, bw.2))
      | (Ok got, w) => (Ok (if (got <? pending)%N then pending else got), (w, bw.2))
      end
  end.

(** The second half of Save: start the clock of a dirty buffer, count, and flush
    on either trigger. *)
Definition count_save (pending : gmap string N) : SM BW unit := fun bw =>
  let '(now, w) := bm_Now m bw.1 in
  let first := if IsZero (bf_firstDirty bw.2) then now else bf_firstDirty bw.2 in
  let count := i64 (bf_count bw.2 + 1) in
  let bw := (w, MkBuffer pending count first) in
  if (bm_MaxCount m <=? count)%Z || (bm_MaxInterval m <=? Sub now first)%Z then flush bw else (Ok tt, bw).

Definition buffered_Save (projection : string) (position : N) : SM BW unit := fun bw =>
  let prev := default 0%N (bf_pending bw.2 !! projection) in
  if (prev <? position)%N then count_save (<[projection := position]> (bf_pending bw.2)) bw
  else if (position =? 0)%N && negb (bool_decide (is_Some (bf_pending bw.2 !! projection))) then (Ok tt, bw)
  else count_save (bf_pending bw.2) bw.

Definition buffered_Flush : SM BW unit := flush.
End Methods.
End Buffered.
Arguments BufferedMarker : clear implicits.

(** ** The contract of the inner marker *)

(** [rep w d]: the durable positions are [d].  A save that fails changes
    nothing. *)
Class MarkerLaws (W : Type) `{MarkerEnv W} (m : BufferedMarker W) (rep : W -> gmap string N -> Prop) := {
  ml_load : forall w d k r w', rep w d -> mk_Load (bm_inner m) k w = (r, w') ->
    rep w' d /\ forall v, r = Ok v -> v = default 0%N (d !! k);
  ml_save : forall w d k pos r w', rep w d -> mk_Save (bm_inner m) k pos w = (r, w') ->
    rep w' (match r with Ok _ => <[k := pos]> d | Err _ => d end);
  ml_now : forall w d t w', rep w d -> bm_Now m w = (t, w') -> rep w' d;
  ml_range : forall w d p kvs w', rep w d -> me_range p w = (kvs, w') -> rep w' d /\ kvs ≡ₚ map_to_list p
}.

(** Where the marker stands for a projection: what is pending, or else what is
    durable. *)
Definition position_of (pending d : gmap string N) (k : string) : N :=
  default (default 0%N (d !! k)) (pending !! k).

Section Laws.
Context {W : Type} `{MarkerEnv W} (m : BufferedMarker W) (rep : W -> gmap string N -> Prop) `{!MarkerLaws W m rep}.

(** Persisting some pending entries moves them, and nothing else. *)
Lemma flush_loop_spec kvs : forall w b d r w' b',
  rep w d -> NoDup kvs.*1 -> (forall k p, (k, p) ∈ kvs -> bf_pending b !! k = Some p) ->
  flush_loop m kvs (w, b) = (r, (w', b')) ->
  exists d', rep w' d' /\ (forall k, position_of (bf_pending b') d' k = position_of (bf_pending b) d k)
    /\ (forall k, default 0%N (d' !! k) = default 0%N (d !! k) \/ default 0%N (d' !! k) = position_of (bf_pending b) d k)
    /\ (r = Ok tt -> forall k, bf_pending b' !! k = if decide (k ∈ kvs.*1) then None else bf_pending b !! k).
Proof.
  induction kvs as [|[key pos] kvs IH]; intros w b d r w' b' HR Hnd Hin; cbn [flush_loop].
  { intros [= <- <- <-]. exists d. split; [done|]. split; [done|]. split; [by left|]. intros _ k. destruct (decide _) as [[]%not_elem_of_nil|_]; done. }
  apply NoDup_cons in Hnd as [Hk Hnd]. cbn [fst snd]. destruct (mk_Save (bm_inner m) key pos w) as [sr w1] eqn:HS.
  pose proof (ml_save _ _ _ _ _ _ HR HS) as HR1. destruct sr as [u|e].
  2:{ intros [= <- <- <-]. exists d. split; [done|]. split; [done|]. split; [by left|done]. }
  pose proof (Hin key pos ltac:(by left)) as Hpos. intros Hrun.
  assert (forall k, position_of (delete key (bf_pending b)) (<[key := pos]> d) k = position_of (bf_pending b) d k) as Hsame.
  { intros k. unfold position_of. destruct (decide (k = key)) as [->|Hne].
    - by rewrite lookup_delete_eq, Hpos, lookup_insert_eq.
    - by rewrite lookup_delete_ne, lookup_insert_ne. }
  destruct (IH w1 (MkBuffer (delete key (bf_pending b)) (bf_count b) (bf_firstDirty b)) (<[key := pos]> d) r w' b' HR1 Hnd)
    as (d' & HR' & Hp & Hd & Hok); [|exact Hrun|].
  { cbn [bf_pending]. intros k p Hkp. rewrite lookup_delete_ne; [apply Hin; by right|]. intros ->. apply Hk.
    by apply (list_elem_of_fmap_2 fst _ (k, p)). }
  exists d'. split; [done|]. cbn [bf_pending] in *. split; [intros k; by rewrite Hp, Hsame|]. split.
  - intros k. rewrite <- (Hsame k). destruct (Hd k) as [->| ->]; [|by right]. destruct (decide (k = key)) as [->|Hne].
    + right. unfold position_of. by rewrite lookup_delete_eq.
    + left. by rewrite lookup_insert_ne.
  - intros Hr k. rewrite (Hok Hr k). destruct (decide (k = key)) as [->|Hne].
    + rewrite lookup_delete_eq. change (((key, pos) :: kvs).*1) with (key :: kvs.*1). destruct (decide (key ∈ key :: kvs.*1)) as [|[]]; [by destruct (decide _)|by left].
    + rewrite lookup_delete_ne by done. change (((key, pos) :: kvs).*1) with (key :: kvs.*1).
      destruct (decide (k ∈ kvs.*1)), (decide (k ∈ key :: kvs.*1)) as [Hx|Hx]; try done; [by destruct Hx; right|].
      by apply elem_of_cons in Hx as [|].
Qed.

(** The durable positions do not pass the marker's. *)
Definition behind (pending d : gmap string N) : Prop :=
  forall k, (default 0%N (d !! k) <= position_of pending d k)%N.

Lemma flush_spec w b d r w' b' :
  rep w d -> behind (bf_pending b) d -> flush m (w, b) = (r, (w', b')) ->
  exists d', rep w' d' /\ behind (bf_pending b') d'
    /\ (forall k, position_of (bf_pending b') d' k = position_of (bf_pending b) d k)
    /\ (r = Ok tt -> bf_pending b' = ∅ /\ bf_count b' = 0%Z).
Proof.
  intros HR Hb. unfold flush. cbn [fst snd]. destruct (size (bf_pending b) =? 0)%nat eqn:Hz.
  { intros [= <- <- <-]. exists d. cbn [bf_pending bf_count]. apply Nat.eqb_eq, map_size_empty_iff in Hz. auto. }
  destruct (me_range (bf_pending b) w) as [kvs w1] eqn:Hr. destruct (ml_range _ _ _ _ _ HR Hr) as [HR1 HP].
  destruct (flush_loop m kvs (w1, b)) as [lr [w2 b2]] eqn:HL.
  destruct (flush_loop_spec kvs w1 b d lr w2 b2 HR1) as (d' & HR' & Hp & Hd & Hok); [| |exact HL|].
  { rewrite HP. apply NoDup_fst_map_to_list. }
  { intros k p Hk. rewrite HP in Hk. by apply elem_of_map_to_list in Hk. }
  assert (behind (bf_pending b2) d') as Hb2.
  { intros k. rewrite Hp. destruct (Hd k) as [->| ->]; [apply Hb|lia]. }
  destruct lr as [[]|e]; intros [= <- <- <-]; exists d'; cbn [bf_pending bf_count]; (split; [done|]); (split; [done|]); (split; [done|]); [|done].
  intros _. split; [|done]. apply map_eq. intros k. rewrite lookup_empty, (Hok eq_refl k). destruct (decide _) as [|Hne]; [done|].
  destruct (bf_pending b !! k) as [p|] eqn:E; [|done]. exfalso. apply Hne, list_elem_of_fmap. exists (k, p). split; [done|].
  rewrite HP. by apply elem_of_map_to_list.
Qed.

Lemma count_save_spec pending w b d r w' b' :
  rep w d -> behind pending d -> (0 < bm_MaxCount m)%Z -> count_save m pending (w, b) = (r, (w', b')) ->
  exists d', rep w' d' /\ behind (bf_pending b') d' /\ (forall k, position_of (bf_pending b') d' k = position_of pending d k)
    /\ (r = Ok tt -> (bf_count b' < bm_MaxCount m)%Z).
Proof.
  intros HR Hb Hmax. unfold count_save. cbn [fst snd]. destruct (bm_Now m w) as [now w1] eqn:Hn. pose proof (ml_now _ _ _ _ HR Hn) as HR1.
  destruct (_ || _) eqn:Ht.
  - intros HF. destruct (flush_spec _ _ _ _ _ _ HR1 (Hb : behind (bf_pending (MkBuffer _ _ _)) d) HF) as (d' & ? & ? & ? & Hok).
    exists d'. split; [done|]. split; [done|]. split; [done|]. intros Hr. destruct (Hok Hr) as [_ ->]. done.
  - intros [= <- <- <-]. exists d. cbn [bf_pending bf_count]. apply orb_false_iff in Ht as [Ht _]. apply Z.leb_gt in Ht. auto.
Qed.

(** A save of a position that does not go back moves exactly this projection. *)
Lemma Save_spec k pos w b d r w' b' :
  rep w d -> behind (bf_pending b) d -> (0 < bm_MaxCount m)%Z ->
  (position_of (bf_pending b) d k <= pos)%N -> buffered_Save m k pos (w, b) = (r, (w', b')) ->
  exists d', rep w' d' /\ behind (bf_pending b') d'
    /\ forall k', position_of (bf_pending b') d' k' = if decide (k' = k) then pos else position_of (bf_pending b) d k'.
Proof.
  intros HR Hb Hmax Hle. unfold buffered_Save. cbn [fst snd]. destruct (N.ltb_spec (default 0%N (bf_pending b !! k)) pos) as [Hlt|Hge].
  - intros HS. assert (behind (<[k := pos]> (bf_pending b)) d) as Hb1.
    { intros k'. specialize (Hb k'). unfold position_of in *. destruct (decide (k' = k)) as [->|]; [rewrite lookup_insert_eq|by rewrite lookup_insert_ne].
      simpl. lia. }
    destruct (count_save_spec _ _ _ _ _ _ _ HR Hb1 Hmax HS) as (d' & ? & ? & Hp & _). exists d'. split; [done|]. split; [done|].
    intros k'. rewrite Hp. unfold position_of. destruct (decide (k' = k)) as [->|]; [by rewrite lookup_insert_eq|by rewrite lookup_insert_ne].
  - assert (position_of (bf_pending b) d k = pos) as Hpos.
    { unfold position_of in *. destruct (bf_pending b !! k); simpl in *; lia. }
    destruct (_ && _).
    + intros [= <- <- <-]. exists d. split; [done|]. split; [done|]. intros k'. by destruct (decide (k' = k)) as [->|].
    + intros HS. destruct (count_save_spec _ _ _ _ _ _ _ HR Hb Hmax HS) as (d' & ? & ? & Hp & _). exists d'. split; [done|]. split; [done|].
      intros k'. rewrite Hp. by destruct (decide (k' = k)) as [->|].
Qed.

Lemma Load_spec k w b d r w' b' :
  rep w d -> behind (bf_pending b) d -> buffered_Load m k (w, b) = (r, (w', b')) ->
  exists d', rep w' d' /\ behind (bf_pending b') d'
    /\ (forall k', position_of (bf_pending b') d' k' = position_of (bf_pending b) d k')
    /\ (forall v, r = Ok v -> v = position_of (bf_pending b) d k /\ bf_pending b' = ∅).
Proof.
  intros HR Hb. unfold buffered_Load. cbn [fst snd]. destruct (flush m (w, b)) as [fr [w1 b1]] eqn:HF.
  destruct (flush_spec _ _ _ _ _ _ HR Hb HF) as (d' & HR1 & Hb1 & Hp & Hok). destruct fr as [[]|e].
  2:{ intros [= <- <- <-]. exists d'. by split_and!. }
  cbn [fst snd]. destruct (mk_Load (bm_inner m) k w1) as [lr w2] eqn:HL. destruct (ml_load _ _ _ _ _ HR1 HL) as [HR2 Hv].
  destruct (Hok eq_refl) as [Hemp _]. destruct lr as [got|e]; intros [= <- <- <-]; exists d'; (split; [done|]); (split; [done|]);
    (split; [done|]); [|done]. intros v [= <-]. split; [|done]. rewrite (Hv got eq_refl).
  pose proof (Hp k) as Hk. rewrite Hemp in Hk. unfold position_of in Hk. rewrite lookup_empty in Hk. simpl in Hk. rewrite Hk.
  unfold position_of. destruct (bf_pending b !! k) as [p|]; simpl; [by rewrite N.ltb_irrefl|]. by destruct (N.ltb_spec (default 0%N (d !! k)) 0); [lia|].
Qed.
End Laws.

(** ** A sequence of calls *)

Inductive marker_op := OpSave (k : string) (pos : N) | OpLoad (k : string) | OpFlush.

Section Ops.
Context {W : Type} `{MarkerEnv W} (m : BufferedMarker W).

Definition run_op (op : marker_op) (bw : W * buffer) : W * buffer :=
  match op with
  | OpSave k pos => (buffered_Save m k pos bw).2
  | OpLoad k => (buffered_Load m k bw).2
  | OpFlush => (buffered_Flush m bw).2
  end.

Definition run_ops (ops : list marker_op) (bw : W * buffer) : W * buffer := foldl (fun bw op => run_op op bw) bw ops.

(** Where the saves leave each projection, and that none of them goes back. *)
Fixpoint saved (at_ : string -> N) (ops : list marker_op) : string -> N :=
  match ops with
  | [] => at_
  | OpSave k pos :: ops' => saved (fun k' => if decide (k' = k) then pos else at_ k') ops'
  | _ :: ops' => saved at_ ops'
  end.

Fixpoint ascending_saves (at_ : string -> N) (ops : list marker_op) : Prop :=
  match ops with
  | [] => True
  | OpSave k pos :: ops' => (at_ k <= pos)%N /\ ascending_saves (fun k' => if decide (k' = k) then pos else at_ k') ops'
  | _ :: ops' => ascending_saves at_ ops'
  end.

Context (rep : W -> gmap string N -> Prop) `{!MarkerLaws W m rep}.
Hypothesis Hmax : (0 < bm_MaxCount m)%Z.

Lemma run_ops_spec ops : forall at_ w b d w' b',
  rep w d -> behind (bf_pending b) d -> (forall k, position_of (bf_pending b) d k = at_ k) -> ascending_saves at_ ops ->
  run_ops ops (w, b) = (w', b') ->
  exists d', rep w' d' /\ behind (bf_pending b') d' /\ forall k, position_of (bf_pending b') d' k = saved at_ ops k.
Proof.
  induction ops as [|op ops IH]; intros at_ w b d w' b' HR Hb Hat Hasc; simpl.
  { intros [= <- <-]. by exists d. }
  destruct op as [k pos|k|]; simpl in *.
  - destruct Hasc as [Hle Hasc]. destruct (buffered_Save m k pos (w, b)) as [r [w1 b1]] eqn:HS.
    destruct (Save_spec m rep k pos w b d r w1 b1 HR Hb Hmax) as (d1 & HR1 & Hb1 & Hp); [by rewrite Hat|done|].
    apply (IH _ w1 b1 d1); try done. intros k'. rewrite Hp. by rewrite Hat.
  - destruct (buffered_Load m k (w, b)) as [r [w1 b1]] eqn:HS. destruct (Load_spec m rep k w b d r w1 b1 HR Hb HS) as (d1 & HR1 & Hb1 & Hp & _).
    apply (IH _ w1 b1 d1); try done. intros k'. by rewrite Hp.
  - unfold buffered_Flush. destruct (flush m (w, b)) as [r [w1 b1]] eqn:HS. destruct (flush_spec m rep w b d r w1 b1 HR Hb HS) as (d1 & HR1 & Hb1 & Hp & _).
    apply (IH _ w1 b1 d1); try done. intros k'. by rewrite Hp.
Qed.
End Ops.

(** ** Properties *)

(** C33: buffering loses no acknowledged position.  From a fresh buffer, after any
    calls of Save, Load and Flush, in any order and with any of the inner calls
    failing, in which no Save goes back: the durable position of a projection
    is never beyond the last one saved for it, and a Load that succeeds returns
    exactly that last position and leaves nothing pending. *)
Theorem buffered_marker_exact {W} `{MarkerEnv W} inner opts m b rep `{!MarkerLaws W m rep} ops w d w' b' :
  NewBufferedMarker inner opts = (m, b) -> rep w d -> ascending_saves (fun k => default 0%N (d !! k)) ops -> run_ops m ops (w, b) = (w', b') ->
  exists d', rep w' d' /\ forall k,
    (default 0%N (d' !! k) <= saved (fun k => default 0%N (d !! k)) ops k)%N
    /\ forall v w2 b2, buffered_Load m k (w', b') = (Ok v, (w2, b2)) ->
         v = saved (fun k => default 0%N (d !! k)) ops k /\ bf_pending b2 = ∅.
Proof.
  intros HN HR Hasc Hrun.
  assert ((0 < bm_MaxCount m)%Z /\ bf_pending b = ∅) as [Hmax Hb].
  { injection HN as <- <-. simpl. split; [|done]. case_goal; [lia|by apply Z.leb_gt]. }
  destruct (run_ops_spec m rep Hmax ops (fun k => default 0%N (d !! k)) w b d w' b' HR) as (d' & HR' & Hb' & Hp).
  - rewrite Hb. intros k. unfold position_of. by rewrite lookup_empty.
  - rewrite Hb. intros k. unfold position_of. by rewrite lookup_empty.
  - done.
  - done.
  - exists d'. split; [done|]. intros k. rewrite <- Hp. split; [apply Hb'|]. intros v w2 b2 HL.
    destruct (Load_spec m rep k w' b' d' _ w2 b2 HR' Hb' HL) as (_ & _ & _ & _ & Hv). by apply Hv.
Qed.

(** ** Over the in-memory marker *)

(** A world that is a clock and the map of a MemoryMarker. *)
Definition clocked : Type := time * gmap string N.

#[global] Instance clocked_env : MarkerEnv clocked := {
  me_Now w := (w.1, (w.1 + Second, w.2)%Z);
  me_range p w := (map_to_list p, w)
}.

Definition clocked_marker : Marker clocked := MemoryMarker (MkLens snd (fun d w => (w.1, d))).

Definition small_opts : BufferedMarkerOptions clocked := MkBufferedMarkerOptions 3 Minute None.

#[global] Instance clocked_laws : MarkerLaws clocked (NewBufferedMarker clocked_marker small_opts).1 (fun w d => w.2 = d).
Proof.
  split.
  - intros w d k r w' <-. cbn. unfold memory_Load. intros [= <- <-]. split; [done|]. by intros v [= <-].
  - intros w d k pos r w' <-. cbn. unfold memory_Save. by intros [= <- <-].
  - intros w d t w' <-. cbn. by intros [= <- <-].
  - intros w d p kvs w' <-. cbn. by intros [= <- <-].
Qed.

Definition t_start : time := 1772532000000000000%Z.

Definition sample_saves : list marker_op := [OpSave "a" 4; OpSave "b" 2; OpSave "a" 9; OpSave "a" 11].

Lemma buffered_marker_exact_witness :
  let bw := run_ops (NewBufferedMarker clocked_marker small_opts).1 sample_saves
              ((t_start, ∅), (NewBufferedMarker clocked_marker small_opts).2) in
  exists d', bw.1.2 = d' /\ (default 0%N (d' !! "a"%string) <= 11)%N.
Proof.
  intros bw.
  destruct (buffered_marker_exact clocked_marker small_opts (NewBufferedMarker clocked_marker small_opts).1
    (NewBufferedMarker clocked_marker small_opts).2 (fun w d => w.2 = d) sample_saves (t_start, ∅) ∅ bw.1 bw.2) as (d' & HR & Hk).
  - reflexivity.
  - reflexivity.
  - cbn. repeat split; by vm_compute.
  - apply surjective_pairing.
  - exists d'. split; [exact HR|]. apply (Hk "a"%string).
Defined.

(** A save below a position already flushed is buffered again and overwrites it:
    the marker rewinds from 10 to 5. *)
Theorem buffered_marker_rewinds :
  let m := (NewBufferedMarker clocked_marker small_opts).1 in
  (buffered_Load m "a" (run_ops m [OpSave "a" 10; OpFlush; OpSave "a" 5]
    ((t_start, ∅), (NewBufferedMarker clocked_marker small_opts).2))).1 = Ok 5%N.
Proof. by vm_compute. Qed.
