(* ===== verification/Reaction.v ===== *)
(** * Reactions and upcasting (src/reaction/reaction.go, src/upcast/registry.go)

    The executor that turns the commands a reaction issues into runtime calls,
    over the aggregate runtime and the projector engine, and the registry of
    upcast functions a runtime can be given. *)
From S2P Require Import Prelude Es Hash Chain Timestamp Effect Store Runtime RuntimeCorrect Delivery Projection.

(** ** The upcast registry *)

Section Registry.
Context {E : Type}.

Definition Func : Type := N -> E -> res E.

(** The map is created once and never removed from. *)
Definition Registry : Type := gmap string Func.

Definition NewRegistry : Registry := ∅.

Definition Register (typeURL : string) (fn : Func) (reg : Registry) : Registry := <[typeURL := fn]> reg.

Definition Upcast (reg : Registry) (typeURL : string) (fromVersion : N) (event : E) : res E :=
  match reg !! typeURL with
  | Some fn => fn fromVersion event
  | None => Ok event
  end.
End Registry.
Arguments Func : clear implicits.
Arguments Registry : clear implicits.

(** ** Dispatching one command *)

(** [Dispatch(ctx, sid, cmd, meta)]. *)
Definition Dispatcher (C W : Type) : Type := StreamID -> C -> Meta -> SM W unit.

Definition DefaultConflictRetries : Z := 5.

Definition ConflictRetries {S C E} (r : Runtime S C E) : Z := rt_retries r.

Section Dispatch.
Context {S C E W : Type} `{StoreOps W} `{RuntimeOps W}.
Variable DecisionTime : C -> option time.
Variable StampDecisionTime : C -> time -> C.
(** rand.Int64N, for the backoff. *)
Variable rand : Z -> Z.

(** [left] is [retries - attempt]: the loop makes at most [left + 1] calls. *)
Fixpoint dispatch_loop (rt : Runtime S C E) (sid : StreamID) (cmd : C) (meta : Meta) (left : nat) (attempt_ : Z) : SM W unit :=
  let! r := attempt (Handle DecisionTime StampDecisionTime rt sid cmd meta []) in
  match r with
  | Ok _ => ret tt
  | Err err =>
      if negb (Is err ErrConflict) then throw err else
      match left with
      | O => throw err
      | Datatypes.S left' =>
          let! _ := rw_timer (DefaultBackoff rand (attempt_ + 1)) in
          dispatch_loop rt sid cmd meta left' (attempt_ + 1)
      end
  end.

Definition RuntimeDispatcher (rt : Runtime S C E) : Dispatcher C W :=
  let retries := if (ConflictRetries rt =? 0)%Z then DefaultConflictRetries else 0%Z in
  fun sid cmd meta => dispatch_loop rt sid cmd meta (Z.to_nat retries) 0.
End Dispatch.

(** ** Executing what a handler issued *)

Record Issue (C : Type) := MkIssue { is_StreamID : StreamID; is_Command : C }.
Arguments MkIssue {C} _ _.
Arguments is_StreamID {C} _.
Arguments is_Command {C} _.

Fixpoint Execute {C W} (d : Dispatcher C W) (issues : list (Issue C)) (meta : Meta) : SM W unit :=
  match issues with
  | [] => ret tt
  | iss :: issues' =>
      let! err := attempt (d (is_StreamID iss) (is_Command iss) meta) in
      match err with
      | Ok _ => Execute d issues' meta
      | Err e => if Is e ErrTerminal then Execute d issues' meta else throw (Errorf "reaction: dispatch" e)
      end
  end.

Definition MetaFor (env : Envelope) (actor : Actor) : Meta :=
  MkMeta uuid_Nil (CorrelationID env) (EventID env) actor zero_time.

(** ** The runner *)

Record ReactionRunner (W : Type) := MkReactionRunner { inner : Runner W }.
Arguments MkReactionRunner {W} _.
Arguments inner {W} _.

Definition NewRunner {W} (name : string) (marker : option (Marker W)) (dispatch : Envelope -> SM W unit)
    (filter : option (Envelope -> bool)) : ReactionRunner W :=
  MkReactionRunner (MkRunner name marker dispatch filter).

Definition reaction_Run {W} `{ProjectionEnv W} (r : ReactionRunner W) (feed : Feed (W * runner_state)) : SM (W * runner_state) (option unit) :=
  runner_Run (inner r) feed.

Definition reaction_Position {W} (r : ReactionRunner W) : SM (W * runner_state) N := runner_Position (inner r).

(** ** What the executor guarantees *)

Section Executor.
Context {S C E W : Type} `{StoreOps W} `{RuntimeOps W}.
Variable DecisionTime : C -> option time.
Variable StampDecisionTime : C -> time -> C.
Variable rand : Z -> Z.
Variable r : Runtime S C E.
Variable rep : W -> list Envelope -> Prop.
Context `{!StoreLaws W rep} `{!RuntimeLaws W rep (snap_ok r)}.
Hypothesis Hcodec : codec_ok r.
Hypothesis Hstate : state_codec_ok r.

(** The command landed between the logs [L] and [L']: it was decided on the
    fold of the whole target stream and its events were appended behind it. *)
Definition landed (iss : Issue C) (L L' : list Envelope) : Prop :=
  exists now cmd L1 L2 x,
    check_decided_at DecisionTime StampDecisionTime (is_Command iss) now = Ok cmd
    /\ L `prefix_of` L1 /\ L1 `prefix_of` L2 /\ (L2 ++ rs_Envelopes x) `prefix_of` L'
    /\ handled r (is_StreamID iss) cmd 0 L1 L2 x.

(** [refused iss e L L']: a call for the command, made while the log grew from
    [L] to [L'], returned [e]. *)
Definition refused (iss : Issue C) (meta : Meta) (e : error) (L L' : list Envelope) : Prop :=
  exists w w', rep w L /\ rep w' L' /\ L `prefix_of` L'
    /\ RuntimeDispatcher DecisionTime StampDecisionTime rand r (is_StreamID iss) (is_Command iss) meta w = (Err e, w').

(** The issues have been worked off in order, each landed or found closed. *)
Inductive worked_off (meta : Meta) : list (Issue C) -> list Envelope -> list Envelope -> Prop :=
| wo_nil L : worked_off meta [] L L
| wo_landed iss issues L L1 L' : landed iss L L1 -> worked_off meta issues L1 L' -> worked_off meta (iss :: issues) L L'
| wo_closed iss issues e L L1 L' : refused iss meta e L L1 -> Is e ErrTerminal = true ->
    worked_off meta issues L1 L' -> worked_off meta (iss :: issues) L L'.

Lemma landed_prefix iss L0 L L' : L0 `prefix_of` L -> landed iss L L' -> landed iss L0 L'.
Proof. intros HP (now & cmd & L1 & L2 & x & Hc & H1 & Hrest). exists now, cmd, L1, L2, x. split; [done|]. split; [by etrans|done]. Qed.

Lemma dispatch_loop_keeps sid cmd meta left n :
  keeps rep (dispatch_loop DecisionTime StampDecisionTime rand r sid cmd meta left n).
Proof.
  revert n. induction left as [|left IH]; intros n; cbn [dispatch_loop];
    (apply keepsW_bind; [by apply keeps_attempt, HandleAt_keeps|]); intros [v|err]; try apply keeps_ret.
  - case_match; apply keeps_throw.
  - case_match; [apply keeps_throw|]. apply keepsW_bind; [|intros _; apply IH].
    intros w L x w' Hrep HT. by eapply rl_timer.
Qed.

Lemma dispatch_loop_Ok sid cmd meta left n w L w' :
  rep w L -> dispatch_loop DecisionTime StampDecisionTime rand r sid cmd meta left n w = (Ok tt, w') ->
  exists L', rep w' L' /\ landed (MkIssue sid cmd) L L'.
Proof.
  revert n w L. induction left as [|left IH]; intros n w L Hrep; cbn [dispatch_loop]; intros HD;
    apply bind_Ok in HD as (res & w1 & Hres & HD); apply attempt_Ok in Hres; (destruct res as [x|err];
    [injection HD as <-; destruct (HandleAt_Ok DecisionTime StampDecisionTime r rep Hcodec Hstate _ _ _ _ _ _ _ _ Hrep Hres)
       as (now & cmd' & L1 & L2 & L' & Hc & H1 & H2 & H3 & Hrep' & Hh); exists L'; split; [done|]; exists now, cmd', L1, L2, x; done|]).
  - case_match; discriminate HD.
  - case_match; [discriminate HD|].
    destruct (HandleAt_keeps DecisionTime StampDecisionTime r rep Hcodec Hstate _ _ _ _ _ _ _ _ Hrep Hres) as (L1 & HP1 & Hrep1).
    apply bind_Ok in HD as ([] & w2 & Ht & HD). destruct (rl_timer _ _ _ _ _ Hrep1 Ht) as (L2 & HP2 & Hrep2).
    destruct (IH _ _ _ Hrep2 HD) as (L' & Hrep' & Hl). exists L'. split; [done|]. eapply landed_prefix; [|exact Hl]. by etrans.
Qed.

Lemma Execute_spec issues meta w L res w' :
  rep w L -> Execute (RuntimeDispatcher DecisionTime StampDecisionTime rand r) issues meta w = (res, w') ->
  match res with
  | Ok _ => exists L', rep w' L' /\ worked_off meta issues L L'
  | Err e => exists finished iss rest w1 L1 L' e0, issues = finished ++ iss :: rest /\ worked_off meta finished L L1
      /\ rep w1 L1 /\ RuntimeDispatcher DecisionTime StampDecisionTime rand r (is_StreamID iss) (is_Command iss) meta w1 = (Err e0, w')
      /\ Is e0 ErrTerminal = false /\ e = Errorf "reaction: dispatch" e0 /\ L1 `prefix_of` L' /\ rep w' L'
  end.
Proof.
  revert w L. induction issues as [|iss issues IH]; intros w L Hrep; cbn [Execute].
  { intros [= <- <-]. exists L. split; [done|constructor]. }
  unfold bind, attempt at 1. destruct (RuntimeDispatcher _ _ _ _ _ _ _ w) as [dr w1] eqn:HD.
  destruct dr as [[]|e].
  - destruct (dispatch_loop_Ok _ _ _ _ _ _ _ _ Hrep HD) as (L1 & Hrep1 & Hl). intros HE. specialize (IH w1 L1 Hrep1 HE).
    assert (landed iss L L1) as Hl' by (by destruct iss). destruct res as [[]|e].
    + destruct IH as (L' & Hrep' & Hw). exists L'. split; [done|]. by eapply wo_landed.
    + destruct IH as (dn & i & rest & w2 & L2 & L' & e0 & -> & Hw & Hrest). exists (iss :: dn), i, rest, w2, L2, L', e0.
      split; [done|]. split; [by eapply wo_landed|done].
  - destruct (dispatch_loop_keeps _ _ _ _ _ _ _ _ _ Hrep HD) as (L1 & HP1 & Hrep1).
    assert (refused iss meta e L L1) as Hr by (exists w, w1; done). destruct (Is e ErrTerminal) eqn:Ht.
    + intros HE. specialize (IH w1 L1 Hrep1 HE). destruct res as [[]|e'].
      * destruct IH as (L' & Hrep' & Hw). exists L'. split; [done|]. by eapply wo_closed.
      * destruct IH as (dn & i & rest & w2 & L2 & L' & e0 & -> & Hw & Hrest). exists (iss :: dn), i, rest, w2, L2, L', e0.
        split; [done|]. split; [by eapply wo_closed|done].
    + intros [= <- <-]. exists [], iss, issues, w, L, L1, e. repeat split; try done. constructor.
Qed.
End Executor.
