(* ===== verification/ReactionClaims.v ===== *)
(** * Reactions over the assembled program

    The executor's guarantee, and a run of it on the counter aggregate over the
    SQLite store while another process writes to the same stream. *)
From S2P Require Import Prelude Es Hash Chain Timestamp Effect Store Sql Sqlite SqliteCorrect SqliteTheorems HexUuid SqliteClaims.
From S2P Require Import Runtime RuntimeCorrect RuntimeSqlite Counter RuntimeClaims Delivery Projection Reaction.

(** C34: the executor works off what a reaction issued, in order.  Over any store and
    services that satisfy their contracts, with other writers appending at every
    call: when Execute returns nil, every command in turn was decided on the fold
    of its whole target stream and its events were appended behind exactly that,
    or its stream reported itself terminal; otherwise the same holds of the
    commands before the first one whose error is not ErrTerminal, that error is
    the one wrapped and returned, and the world is the one that dispatch left:
    nothing behind it was dispatched. *)
Theorem reaction_works_off {S C E W} `{StoreOps W} `{RuntimeOps W}
    (DecisionTime : C -> option time) (StampDecisionTime : C -> time -> C) (rand : Z -> Z) (r : Runtime S C E)
    (rep : W -> list Envelope -> Prop) `{!StoreLaws W rep} `{!RuntimeLaws W rep (snap_ok r)} issues meta w L res w' :
  codec_ok r -> state_codec_ok r -> rep w L ->
  Execute (RuntimeDispatcher DecisionTime StampDecisionTime rand r) issues meta w = (res, w') ->
  match res with
  | Ok _ => exists L', rep w' L' /\ worked_off DecisionTime StampDecisionTime rand r rep meta issues L L'
  | Err e => exists finished failed rest w1 L1 L' e0, issues = finished ++ failed :: rest
      /\ worked_off DecisionTime StampDecisionTime rand r rep meta finished L L1
      /\ rep w1 L1
      /\ RuntimeDispatcher DecisionTime StampDecisionTime rand r (is_StreamID failed) (is_Command failed) meta w1 = (Err e0, w')
      /\ Is e0 ErrTerminal = false /\ e = Errorf "reaction: dispatch" e0 /\ L1 `prefix_of` L' /\ rep w' L'
  end.
Proof. intros Hc Hs. by apply Execute_spec. Qed.

#[local] Instance calm' : Env := calm_env.
#[local] Instance hex' : UuidLib := HexUuid.
#[local] Existing Instance sqlite_store.
#[local] Existing Instance sqlite_runtime_ops.

Definition side_sid : StreamID := MkStreamID "counter" "side".

(** Two commands land; the third is refused because its counter does not exist. *)
Definition demo_issues : list (Issue Command) :=
  [MkIssue main_sid (Increment 2); MkIssue main_sid (Increment 3); MkIssue side_sid (Increment 1); MkIssue main_sid (Increment 1)].

Definition after_execute : res unit * shared :=
  @Execute Command shared (@RuntimeDispatcher Counter Command Event shared (sqlite_store 0) sqlite_runtime_ops
    (fun _ => None) (fun c _ => c) (fun _ => 0%Z) counter_runtime) demo_issues no_meta start.

Lemma reaction_works_off_witness :
  exists w' L', after_execute = (Err (Errorf "reaction: dispatch" ErrNotInitialized), w')
    /\ shared_rep 0 counter_runtime w' L'.
Proof.
  destruct after_execute as [res w'] eqn:HE.
  pose proof (@reaction_works_off Counter Command Event shared (sqlite_store 0) sqlite_runtime_ops
    (fun _ => None) (fun c _ => c) (fun _ => 0%Z) counter_runtime (shared_rep 0 counter_runtime)
    (sqlite_store_laws 0 counter_runtime calm_clock_ok calm_clock_mono calm_driver_faults)
    (sqlite_runtime_laws 0 counter_runtime calm_clock_ok)
    demo_issues no_meta start [] res w' counter_codec_ok counter_state_codec_ok (start_rep counter_runtime) HE) as HX.
  assert (fst after_execute = Err (Errorf "reaction: dispatch" ErrNotInitialized)) as HC by (by vm_compute).
  rewrite HE in HC. simpl in HC. subst res.
  destruct HX as (fin & failed & rest & w1 & L1 & L' & e0 & _ & _ & _ & _ & _ & _ & _ & Hrep). exists w', L'. split; [reflexivity|exact Hrep].
Defined.
