(* ===== verification/PgServer.v ===== *)
(** * A PostgreSQL server, as far as src/postgres relies on it

    Tables, one sequence, transactions and snapshots, with the isolation the
    code runs under (READ COMMITTED, pgx's default): a statement sees the rows
    committed when it starts and those of its own transaction.  Transactions of
    other sessions are steps ([move]) that happen between the statements of the
    code under study; they obey the unique constraints of the schema, and the
    order of draws that es-lite's own append keeps (the transaction's id first,
    positions after).  The migrations of src/postgres/migrations give the tables
    and the row-level security policies. *)
From S2P Require Import Prelude Es Hash Chain Anchor Timestamp Effect Store Sql.

(** ** Tables *)

Record PgEvent := MkPgEvent {
  p_workspace_id : string;
  p_global_position : N;
  p_event_id : string;
  p_stream_type : string;
  p_stream_id : string;
  p_version : N;
  p_type_url : string;
  p_schema_version : N;
  p_occurred_at : time;
  p_recorded_at : time;
  p_correlation_id : string;
  p_causation_id : string;
  p_command_id : string;
  p_actor_type : string;
  p_actor_id : string;
  p_actor_principal : string;
  p_payload : list byte;
  p_prev_hash : option (list byte);
  p_hash : option (list byte)
}.

(** workspace_id, scope, value_key. *)
Abbreviation claim_key := (string * string * string)%type.

(** A transaction that has an id and has not ended: the rows it has inserted,
    the claims it has written ([None] deletes the row), the rows it has locked
    and what it has published.  [t_from] is the position the sequence would have
    given out when the id was assigned; it is there for the proofs only. *)
Record txn := MkTxn {
  t_from : N;
  t_rows : list PgEvent;
  t_claims : gmap claim_key (option string);
  t_locked : gset N;
  t_published : gmap N time
}.

(** [sv_events] lists committed rows in the order of their commits.
    published_at, the one column that changes, is [sv_published].
    [sv_completed] is the largest id of a transaction that has ended.
    [sv_seq] is events_global_position_seq: the last value drawn, if any. *)
Record server := MkServer {
  sv_events : list PgEvent;
  sv_published : gmap N time;
  sv_claims : gmap claim_key string;
  sv_running : gmap N txn;
  sv_next_xid : N;
  sv_completed : N;
  sv_seq : option N
}.

(** Transaction ids start above the bootstrap ids. *)
Definition empty_server : server := MkServer [] ∅ ∅ ∅ 3 2 None.

Definition set_running (m : gmap N txn) (s : server) : server :=
  MkServer (sv_events s) (sv_published s) (sv_claims s) m (sv_next_xid s) (sv_completed s) (sv_seq s).

(** ** The sequence *)

(** [last_value]: a sequence nothing was drawn from reports its start value. *)
Definition last_value (s : server) : N := default 1%N (sv_seq s).

Definition next_position (s : server) : N := match sv_seq s with None => 1%N | Some n => (n + 1)%N end.

(** nextval takes effect at once and is never undone; it fails at the end of
    bigint. *)
Definition nextval (s : server) : res N * server :=
  let n := next_position s in
  if (max_int64 <? n)%N then (Err (PgError "2200H"), s)
  else (Ok n, MkServer (sv_events s) (sv_published s) (sv_claims s) (sv_running s) (sv_next_xid s) (sv_completed s) (Some n)).

(** ** Transactions *)

(** The next transaction id, to a new transaction. *)
Definition assign_xid (s : server) : N * server :=
  (sv_next_xid s,
   MkServer (sv_events s) (sv_published s) (sv_claims s)
     (<[sv_next_xid s := MkTxn (next_position s) [] ∅ ∅ ∅]> (sv_running s)) (sv_next_xid s + 1) (sv_completed s) (sv_seq s)).

Definition apply_claims (w : gmap claim_key (option string)) (c : gmap claim_key string) : gmap claim_key string :=
  merge (fun o v => match o with Some (Some sid) => Some sid | Some None => None | None => v end) w c.

Definition commit_xid (x : N) (s : server) : server :=
  match sv_running s !! x with
  | None => s
  | Some t =>
      MkServer (sv_events s ++ t_rows t) (t_published t ∪ sv_published s) (apply_claims (t_claims t) (sv_claims s))
        (delete x (sv_running s)) (sv_next_xid s) (N.max (sv_completed s) x) (sv_seq s)
  end.

Definition abort_xid (x : N) (s : server) : server :=
  match sv_running s !! x with
  | None => s
  | Some _ =>
      MkServer (sv_events s) (sv_published s) (sv_claims s) (delete x (sv_running s)) (sv_next_xid s)
        (N.max (sv_completed s) x) (sv_seq s)
  end.

(** pg_snapshot_xmin(pg_current_snapshot()): the lowest id still in progress,
    counting only ids up to the latest completed one. *)
Definition snapshot_xmin (s : server) : N :=
  map_fold (fun x _ m => N.min x m) (sv_completed s + 1)%N (sv_running s).

(** ** Writes of a transaction *)

Definition same_version (a b : PgEvent) : bool :=
  bool_decide (p_workspace_id a = p_workspace_id b) && bool_decide (p_stream_id a = p_stream_id b)
  && (p_version a =? p_version b)%N.
Definition same_event (a b : PgEvent) : bool :=
  bool_decide (p_workspace_id a = p_workspace_id b) && bool_decide (p_event_id a = p_event_id b).

(** PRIMARY KEY (workspace_id, stream_id, version), UNIQUE (workspace_id, event_id). *)
Definition clashes (r : PgEvent) (rows : list PgEvent) : bool :=
  existsb (fun r' => same_version r' r || same_event r' r) rows.

Definition own_rows (x : N) (s : server) : list PgEvent :=
  match sv_running s !! x with Some t => t_rows t | None => [] end.

(** The rows of the other transactions in progress. *)
Definition others (x : N) (s : server) : gmap N txn := delete x (sv_running s).
Definition other_rows (x : N) (s : server) : list PgEvent := concat (t_rows <$> (map_to_list (others x s)).*2).

Definition update_txn (x : N) (f : txn -> txn) (s : server) : server := set_running (alter f x (sv_running s)) s.

Definition add_row (r : PgEvent) (t : txn) : txn :=
  MkTxn (t_from t) (t_rows t ++ [r]) (t_claims t) (t_locked t) (t_published t).
Definition write_claim (k : claim_key) (v : option string) (t : txn) : txn :=
  MkTxn (t_from t) (t_rows t) (<[k := v]> (t_claims t)) (t_locked t) (t_published t).
Definition lock_rows (ps : list N) (t : txn) : txn :=
  MkTxn (t_from t) (t_rows t) (t_claims t) (list_to_set ps ∪ t_locked t) (t_published t).
Definition publish_rows (ps : list N) (now : time) (t : txn) : txn :=
  MkTxn (t_from t) (t_rows t) (t_claims t) (t_locked t) (list_to_map (map (fun p => (p, now)) ps) ∪ t_published t).

(** unique_violation; query_canceled, the end of a statement that still waits
    for another transaction when the steps of the others are over. *)
Definition unique_violation : error := PgError "23505".
Definition query_canceled : error := PgError "57014".

(** The row of an INSERT INTO events by transaction [x], its position drawn: the
    unique indexes are checked and the row is written. *)
Definition store_row (x : N) (row : PgEvent) (s : server) : res N * server :=
  if clashes row (sv_events s ++ own_rows x s) then (Err unique_violation, s)
  else if clashes row (other_rows x s) then (Err query_canceled, s)
  else (Ok (p_global_position row), update_txn x (add_row row) s).

(** The claim a transaction sees under a key. *)
Definition claim_view (x : N) (k : claim_key) (s : server) : option string :=
  match sv_running s !! x ≫= fun t => t_claims t !! k with
  | Some v => v
  | None => sv_claims s !! k
  end.

(** Another transaction in progress has written the key. *)
Definition claim_busy (x : N) (k : claim_key) (s : server) : bool :=
  existsb (fun t => bool_decide (is_Some (t_claims t !! k))) (map_to_list (others x s)).*2.

(** DELETE of the claim when [sid] holds it: waits for a writer of the row. *)
Definition delete_claim_row (x : N) (k : claim_key) (sid : string) (s : server) : res unit * server :=
  if negb (bool_decide (claim_view x k s = Some sid)) then (Ok tt, s)
  else if claim_busy x k s then (Err query_canceled, s)
  else (Ok tt, update_txn x (write_claim k None) s).

Definition insert_claim_row (x : N) (k : claim_key) (sid : string) (s : server) : res unit * server :=
  if claim_busy x k s then (Err query_canceled, s)
  else if bool_decide (is_Some (claim_view x k s)) then (Err unique_violation, s)
  else (Ok tt, update_txn x (write_claim k (Some sid)) s).

(** Rows another transaction holds a lock on. *)
Definition locked_elsewhere (x : option N) (p : N) (s : server) : bool :=
  existsb (fun t => bool_decide (p ∈ t_locked t)) (map_to_list (match x with Some x => others x s | None => sv_running s end)).*2.

(** ** What the other sessions do *)

Section Moves.
(** How an append renders an envelope as a row, and the discipline an append
    keeps: [follows ws sid rows e] says that [e] may be appended to the stream's
    rows [rows] (committed or the transaction's own). *)
Variable render : Envelope -> N -> PgEvent.
Variable follows : list PgEvent -> Envelope -> bool.

Inductive move :=
| MStart                                   (** a transaction gets its id *)
| MInsert (x : N) (e : Envelope)           (** it appends an event *)
| MWaste                                   (** a position drawn for nothing *)
| MClaim (x : N) (k : claim_key) (sid : string)
| MRelease (x : N) (k : claim_key) (sid : string)
| MLock (x : N) (ps : list N)              (** a relay claims rows, skipping locked ones *)
| MPublish (x : N) (ps : list N) (now : time)   (** and marks them *)
| MCommit (x : N)
| MAbort (x : N).

Definition moved_xid (m : move) : option N :=
  match m with
  | MStart | MWaste => None
  | MInsert x _ | MClaim x _ _ | MRelease x _ _ | MLock x _ | MPublish x _ _ | MCommit x | MAbort x => Some x
  end.

(** One step; a step that is not possible changes nothing. *)
Definition apply_move (now : time) (m : move) (s : server) : server :=
  match m with
  | MStart => (assign_xid s).2
  | MWaste => (nextval s).2
  | MInsert x e =>
      if bool_decide (is_Some (sv_running s !! x)) && (RecordedAt e <=? now)%Z
         && follows (sv_events s ++ own_rows x s) e
      then match nextval s with
           | (Ok gp, s) => (store_row x (render e gp) s).2
           | (Err _, s) => s
           end
      else s
  | MClaim x k sid => if bool_decide (is_Some (sv_running s !! x)) then (insert_claim_row x k sid s).2 else s
  | MRelease x k sid => if bool_decide (is_Some (sv_running s !! x)) then (delete_claim_row x k sid s).2 else s
  | MLock x ps =>
      let ps := filter (fun p => locked_elsewhere (Some x) p s = false /\ sv_published s !! p = None) ps in
      update_txn x (lock_rows ps) s
  | MPublish x ps t =>
      let ps := filter (fun p => locked_elsewhere (Some x) p s = false /\ sv_published s !! p = None) ps in
      update_txn x (fun t0 => publish_rows ps t (lock_rows ps t0)) s
  | MCommit x => commit_xid x s
  | MAbort x => abort_xid x s
  end.

(** The steps of one slot; a session's own transaction [own] is not touched. *)
Definition apply_moves (now : time) (own : option N) (ms : list move) (s : server) : server :=
  foldl (fun s m => if bool_decide (moved_xid m = own) && bool_decide (is_Some own) then s else apply_move now m s) s ms.
End Moves.
