(* ===== verification/PgStore.v ===== *)
(** * The PostgreSQL store (src/postgres/wsstore.go, store.go, drain.go)

    The workspace-scoped event store over the server of PgServer.v.  The world
    is the server, the transaction the code has open, the horizon fence of the
    Workspace value, a tick, and the steps other sessions will take before each
    of the next statements.  Every statement may fail ([fault]); a failed COMMIT
    may have taken effect all the same ([lost_ack]). *)
From S2P Require Import Prelude Sha256 Es Hash Chain Anchor Timestamp Effect Store Sql Sqlite PgServer.

(** The session's role, and commits whose answer is lost. *)
Class PgEnv := {
  relay_member : bool;          (** pg_has_role(current_user, 'es_relay', 'member') *)
  lost_ack : nat -> bool
}.

(** An open transaction: its id once assigned, app.workspace_id and
    app.bypass_rls (both local to it). *)
Record session := MkSession { ss_xid : option N; ss_ws : option string; ss_bypass : bool }.

Record pgw := MkPgw {
  pg_server : server;
  pg_session : option session;
  pg_boundL : N;                (** Workspace.boundL *)
  pg_fenceR : N;                (** Workspace.fenceR *)
  pg_tick : nat;
  pg_others : list (list move)
}.

Abbreviation PM := (SM pgw).

Section Store.
Context {UL : UuidLib} {EV : Env} {PE : PgEnv}.

(** ** Rows *)

(** The columns the INSERT binds for an envelope. *)
Definition pg_row (e : Envelope) (gp : N) : PgEvent := {|
  p_workspace_id := Workspace e;
  p_global_position := gp;
  p_event_id := uuid_String (EventID e);
  p_stream_type := sid_Type (env_StreamID e);
  p_stream_id := Canonical (env_StreamID e);
  p_version := Version e;
  p_type_url := TypeURL e;
  p_schema_version := SchemaVersion e;
  p_occurred_at := OccurredAt e;
  p_recorded_at := RecordedAt e;
  p_correlation_id := uuid_String (CorrelationID e);
  p_causation_id := uuid_String (CausationID e);
  p_command_id := uuid_String (CommandID e);
  p_actor_type := act_Type (env_Actor e);
  p_actor_id := act_ID (env_Actor e);
  p_actor_principal := Principal (env_Actor e);
  p_payload := Payload e;
  p_prev_hash := PrevHash e;
  p_hash := Hash e |}.

Definition pg_scanEnvelope (r : PgEvent) : res Envelope :=
  let? sid := match ParseCanonical (p_stream_id r) with
              | Ok sid => Ok sid | Err e => Err (Errorf "parse stream_id" e) end in
  Ok {| EventID := (uuid_Parse (p_event_id r)).1; env_StreamID := sid; Version := p_version r;
        GlobalPosition := p_global_position r; Workspace := p_workspace_id r;
        TypeURL := p_type_url r; SchemaVersion := p_schema_version r;
        OccurredAt := TruncateMicros (p_occurred_at r); RecordedAt := TruncateMicros (p_recorded_at r);
        CorrelationID := (uuid_Parse (p_correlation_id r)).1;
        CausationID := (uuid_Parse (p_causation_id r)).1;
        CommandID := (uuid_Parse (p_command_id r)).1;
        env_Actor := MkActor (p_actor_type r) (p_actor_id r);
        Payload := p_payload r; PrevHash := p_prev_hash r; Hash := p_hash r |}.

(** ** The discipline of the other sessions *)

Definition stream_part (ws sid : string) (rows : list PgEvent) : list PgEvent :=
  filter (fun r => p_workspace_id r = ws /\ p_stream_id r = sid) rows.

(** The head an append reads: the row of the highest version. *)
Definition stream_head (ws sid : string) (rows : list PgEvent) : option PgEvent :=
  last (order_by p_version (stream_part ws sid rows)).

(** What the next event of a stream chains to. *)
Definition chain_head (sid : StreamID) (head : option PgEvent) : N * list byte :=
  match head with
  | None => (0%N, ZeroHash)
  | Some r =>
      match p_hash r with
      | Some h => if (length h =? HashSize)%nat then (p_version r, h) else (p_version r, UnchainedHeadHash sid (p_version r))
      | None => (p_version r, UnchainedHeadHash sid (p_version r))
      end
  end.

(** [e] is what an append on this head writes next: the next version, chained,
    hashed, recorded no earlier than the head, in the store's precision. *)
Definition follows (rows : list PgEvent) (e : Envelope) : bool :=
  let head := stream_head (Workspace e) (Canonical (env_StreamID e)) rows in
  let '(current, prev) := chain_head (env_StreamID e) head in
  is_ok (Validate (env_StreamID e)) && (Version e =? current + 1)%N && (Version e <=? max_int64)%N
  && bool_decide (PrevHash e = Some prev) && bool_decide (Hash e = Some (EnvelopeHash e))
  && match head with Some r => (p_recorded_at r <=? RecordedAt e)%Z | None => true end
  && (TruncateMicros (RecordedAt e) =? RecordedAt e)%Z && (TruncateMicros (OccurredAt e) =? OccurredAt e)%Z.

(** ** Statements *)

Definition own_xid (w : pgw) : option N := pg_session w ≫= ss_xid.

(** The slot before a statement: other sessions' steps, and the tick. *)
Definition interfere (w : pgw) : pgw :=
  MkPgw (apply_moves pg_row follows (clock (pg_tick w)) (own_xid w) (default [] (head (pg_others w))) (pg_server w))
    (pg_session w) (pg_boundL w) (pg_fenceR w) (S (pg_tick w)) (tail (pg_others w)).

Definition with_server (w : pgw) (s : server) : pgw :=
  MkPgw s (pg_session w) (pg_boundL w) (pg_fenceR w) (pg_tick w) (pg_others w).
Definition with_session (w : pgw) (ss : option session) : pgw :=
  MkPgw (pg_server w) ss (pg_boundL w) (pg_fenceR w) (pg_tick w) (pg_others w).
Definition with_fence (w : pgw) (l r : N) : pgw :=
  MkPgw (pg_server w) (pg_session w) l r (pg_tick w) (pg_others w).

(** A statement: the others move, then it fails or runs. *)
Definition statement {A} (f : server -> res A * server) : PM A := fun w =>
  let n := pg_tick w in
  let w := interfere w in
  match fault n with
  | Some e => (Err e, w)
  | None => let '(r, s) := f (pg_server w) in (r, with_server w s)
  end.

(** A read outside a transaction, or one that does not depend on it. *)
Definition ask {A} (f : server -> A) : PM A := statement (fun s => (Ok (f s), s)).

(** time.Now() and uuid.NewV7() of the process. *)
Definition pg_Now : PM time := fun w => (Ok (clock (pg_tick w)), interfere w).
Definition pg_newV7 : PM UUID := fun w => (Ok (fresh_id (pg_tick w)), interfere w).

(** The rows row-level security shows a session. *)
Definition visible (ss : session) (ws : string) : bool :=
  bool_decide (ss_ws ss = Some ws) || (ss_bypass ss && relay_member).

Definition table (ss : session) (s : server) : list PgEvent :=
  filter (fun r => visible ss (p_workspace_id r) = true)
    (sv_events s ++ match ss_xid ss with Some x => own_rows x s | None => [] end).

(** SELECT over the events a session sees. *)
Definition select {A} (f : list PgEvent -> A) : PM A := fun w =>
  match pg_session w with
  | None => (Err (ErrorsNew "tx is closed"), w)
  | Some ss => ask (fun s => f (table ss s)) w
  end.

(** SELECT set_config(..., true). *)
Definition set_config (f : session -> session) : PM unit := fun w =>
  match ask (fun _ => tt) w with
  | (Ok _, w) => (Ok tt, with_session w (f <$> pg_session w))
  | (Err e, w) => (Err e, w)
  end.

(** The transaction's id, assigned at first use. *)
Definition current_xid (w : pgw) : N * pgw :=
  match own_xid w with
  | Some x => (x, w)
  | None =>
      let '(x, s) := assign_xid (pg_server w) in
      (x, with_session (with_server w s) ((fun ss => MkSession (Some x) (ss_ws ss) (ss_bypass ss)) <$> pg_session w))
  end.

(** SELECT pg_current_xact_id(). *)
Definition pg_current_xact_id : PM N := fun w =>
  match ask (fun _ => tt) w with
  | (Ok _, w) => let '(x, w) := current_xid w in (Ok x, w)
  | (Err e, w) => (Err e, w)
  end.

(** A write by the open transaction. *)
Definition write {A} (f : N -> server -> res A * server) : PM A := fun w =>
  match pg_session w with
  | None => (Err (ErrorsNew "tx is closed"), w)
  | Some _ =>
      match ask (fun _ => tt) w with
      | (Err e, w) => (Err e, w)
      | (Ok _, w) => let '(x, w) := current_xid w in let '(r, s) := f x (pg_server w) in (r, with_server w s)
      end
  end.

(** INSERT INTO events ... RETURNING global_position.  The default of the
    position column is evaluated first; a transaction that has no id yet gets
    it when the row is written. *)
Definition insert_event_row (row : N -> PgEvent) : PM N := fun w =>
  match pg_session w with
  | None => (Err (ErrorsNew "tx is closed"), w)
  | Some _ =>
      match statement nextval w with
      | (Err e, w) => (Err e, w)
      | (Ok gp, w) => let '(x, w) := current_xid w in let '(r, s) := store_row x (row gp) (pg_server w) in (r, with_server w s)
      end
  end.

(** ** Transactions *)

Definition Rollback (w : pgw) : pgw :=
  with_session (match own_xid w with Some x => with_server w (abort_xid x (pg_server w)) | None => w end) None.

Definition committed (w : pgw) : pgw :=
  with_session (match own_xid w with Some x => with_server w (commit_xid x (pg_server w)) | None => w end) None.

Definition Commit : PM unit := fun w =>
  let n := pg_tick w in
  let w := interfere w in
  match fault n with
  | Some e => (Err e, if lost_ack n then committed w else w)
  | None => (Ok tt, committed w)
  end.

(** pool.Begin, and the deferred Rollback at the return of the function. *)
Definition in_tx {A} (fail : error -> error) (body : PM A) : PM A := fun w =>
  match ask (fun _ => tt) w with
  | (Err e, w) => (Err (fail e), w)
  | (Ok _, w) => let '(r, w) := body (with_session w (Some (MkSession None None false))) in (r, Rollback w)
  end.

Definition setWorkspace (ws : string) : PM unit :=
  set_config (fun ss => MkSession (ss_xid ss) (Some ws) (ss_bypass ss)).

(** ** The workspace store *)

(** The store's payload cap and the workspace of the handle. *)
Variable maxPayloadBytes : Z.
Variable ws : string.

Definition validateAppend (p : AppendParams) : res unit :=
  let? _ := Validate (ap_StreamID p) in validate_ops (ap_Constraints p).

Fixpoint AsPg (e : error) : option string :=
  match e with
  | PgError c => Some c
  | ConnectError _ _ e' => AsPg e'
  | Errorf _ e' => AsPg e'
  | LeaseLostError _ _ e' => AsPg e'
  | Join e1 e2 => match AsPg e1 with Some r => Some r | None => AsPg e2 end
  | _ => None
  end.

Definition isUniqueViolation (err : error) : bool :=
  match AsPg err with Some code => bool_decide (code = "23505"%string) | None => false end.

(** pgx refuses a uint64 argument that is no bigint. *)
Definition pg_bind (v : N) : res N :=
  if (v <=? max_int64)%N then Ok v else Err (ErrorsNew "is greater than maximum value for int8").

Definition pg_readHead (sid : StreamID) : PM (N * list byte) :=
  let! head := select (stream_head ws (Canonical sid)) wrap "read stream head" in
  ret (chain_head sid head).

Definition clock_timestamp : PM time := fun w =>
  match ask (fun _ => tt) w with
  | (Ok _, w') => (Ok (clock (pg_tick w)), w')
  | (Err e, w') => (Err e, w')
  end.

Definition pg_new_envelope (p : AppendParams) (ev : EventData) (eventID : UUID) (version : N)
    (occurred recorded : time) (prev : list byte) : Envelope := {|
  EventID := eventID; env_StreamID := ap_StreamID p; Version := version;
  GlobalPosition := 0; Workspace := ws;
  TypeURL := ed_TypeURL ev; SchemaVersion := ed_SchemaVersion ev;
  OccurredAt := occurred; RecordedAt := recorded;
  CorrelationID := ap_CorrelationID p; CausationID := ap_CausationID p; CommandID := ap_CommandID p;
  env_Actor := ap_Actor p; Payload := ed_Payload ev;
  PrevHash := Some prev; Hash := None |}.

(** The insert loop; [i] is the loop index, [prev] the running chain head. *)
Fixpoint pg_append_events (p : AppendParams) (occurred recorded : time) (i : N) (prev : list byte)
    (evs : list EventData) : PM (list Envelope) :=
  match evs with
  | [] => ret []
  | ev :: evs' =>
      let version := u64 (ap_ExpectedVersion p + i + 1) in
      let! eventID := if bool_decide (ed_EventID ev = uuid_Nil) then pg_newV7 else ret (ed_EventID ev) in
      let env := pg_new_envelope p ev eventID version occurred recorded prev in
      let hash := EnvelopeHash env in
      let env := with_hash env hash in
      let! gp := catch (let! _ := lift (pg_bind version) in insert_event_row (pg_row env))
                   (fun err => if isUniqueViolation err
                               then throw (Errorf "version taken" (Sentinel ErrConflict))
                               else throw (Errorf "insert event" err)) in
      let! envs := pg_append_events p occurred recorded (i + 1) hash evs' in
      ret (with_position env gp :: envs)
  end.

Definition pg_applyClaims (streamID : string) (ops : list ConstraintOp) : PM unit :=
  let! _ := forM (fun op =>
      if negb (op_Op op =? ReleaseOp)%N then ret tt else
      write (fun x => delete_claim_row x (ws, op_Scope op, op_Value op) streamID) wrap "release claim") ops in
  forM (fun op =>
      if negb (op_Op op =? ClaimOp)%N then ret tt else
      catch (write (fun x => insert_claim_row x (ws, op_Scope op, op_Value op) streamID))
        (fun err => if isUniqueViolation err
                    then throw (Errorf "claim" (Sentinel ErrConstraintViolated))
                    else throw (Errorf "claim" err))) ops.

(** Workspace.append: the shared body. *)
Definition append_body (p : AppendParams) : PM AppendResult :=
  let! _ := lift (check_payloads maxPayloadBytes (ap_Events p)) in
  let! _ := pg_current_xact_id wrap "assign append xid" in
  let! occurred := if IsZero (ap_OccurredAt p) then pg_Now else ret (ap_OccurredAt p) in
  let occurred := TruncateMicros occurred in
  let! (current, prev) := pg_readHead (ap_StreamID p) in
  if negb (current =? ap_ExpectedVersion p)%N
  then throw (Errorf "expected version" (Sentinel ErrConflict)) else
  let! now := clock_timestamp wrap "read commit clock" in
  let recorded := TruncateMicros now in
  let! envs := pg_append_events p occurred recorded 0 prev (ap_Events p) in
  let! _ := pg_applyClaims (Canonical (ap_StreamID p)) (ap_Constraints p) in
  ret (MkAppendResult (ap_ExpectedVersion p)
         (u64 (ap_ExpectedVersion p + N.of_nat (length (ap_Events p)))) envs).

Definition pg_Append (p : AppendParams) : PM AppendResult :=
  let! _ := lift (validateAppend p) in
  in_tx (Errorf "begin") (
    let! _ := setWorkspace ws wrap "set workspace" in
    let! res := append_body p in
    let! _ := Commit wrap "commit" in
    ret res).

(** The caller owns the transaction. *)
Definition AppendTx (p : AppendParams) : PM AppendResult :=
  let! _ := lift (validateAppend p) in
  let! _ := setWorkspace ws wrap "set workspace" in
  append_body p.

(** *** Reads *)

Definition queryDB (q : list PgEvent -> list PgEvent) : PM (list Envelope) :=
  let! rows := select q in lift (result_map pg_scanEnvelope rows).

(** A read in a transaction of its own. *)
Definition pg_query (q : list PgEvent -> list PgEvent) : PM (list Envelope) :=
  in_tx id (let! _ := setWorkspace ws in queryDB q).

Definition readStream (sid : StreamID) (fromVersion toVersion : N) : PM (list Envelope) :=
  let! _ := lift (pg_bind fromVersion) in
  let! _ := lift (if (0 <? toVersion)%N then pg_bind toVersion else Ok 0%N) in
  queryDB (fun rows => order_by p_version
    (filter (fun r => (fromVersion < p_version r)%N /\ ((0 < toVersion)%N -> (p_version r <= toVersion)%N))
       (stream_part ws (Canonical sid) rows))).

Definition pg_ReadStream (sid : StreamID) (fromVersion toVersion : N) : PM (list Envelope) :=
  let! _ := lift (Validate sid) in
  in_tx id (let! _ := setWorkspace ws in readStream sid fromVersion toVersion).

Definition ReadStreamTx (sid : StreamID) (fromVersion toVersion : N) : PM (list Envelope) :=
  let! _ := lift (Validate sid) in
  let! _ := setWorkspace ws in readStream sid fromVersion toVersion.

Definition pg_ReadStreamAsOf (sid : StreamID) (asOf : time) : PM (list Envelope) :=
  let! _ := lift (Validate sid) in
  pg_query (fun rows => order_by p_version (filter (fun r => p_recorded_at r <= asOf)%Z (stream_part ws (Canonical sid) rows))).

Definition ws_part (rows : list PgEvent) : list PgEvent := filter (fun r => p_workspace_id r = ws) rows.

Definition pg_ReadAll (fromPosition : N) (limit : Z) : PM (list Envelope) :=
  let limit := if (limit <=? 0)%Z then 100%Z else limit in
  in_tx id (
    let! _ := setWorkspace ws in
    let! _ := lift (pg_bind fromPosition) in
    queryDB (fun rows => take (Z.to_nat limit) (order_by p_global_position
      (filter (fun r => (fromPosition < p_global_position r)%N) (ws_part rows))))).

(** *** The horizon fence *)

Definition readLastPosition : PM N := ask last_value wrap "read last position".

Definition drawFence : PM N := in_tx (Errorf "begin fence") (pg_current_xact_id wrap "draw fence xid").

Definition fenceCleared (r : N) : PM bool := ask (fun s => (r <=? snapshot_xmin s)%N) wrap "check fence".

Definition fenceBound (from : N) : PM N := fun w =>
  if negb (pg_fenceR w =? 0)%N then
    (let! cleared := fenceCleared (pg_fenceR w) in
     if negb cleared then ret 0%N else
     fun w => (Ok (pg_boundL w), with_fence w 0 0)) w
  else
    (let! last := readLastPosition in
     if (last <=? from)%N then ret 0%N else
     let! r := drawFence in
     let! cleared := fenceCleared r in
     if cleared then ret last else
     fun w => (Ok 0%N, with_fence w last r)) w.

(** Step 1 of a page: sizes only. *)
Definition pg_page_rows (from : N) (limit : Z) (types : list string) (bound : N) (rows : list PgEvent) : list PgEvent :=
  take (Z.to_nat limit) (order_by p_global_position
    (filter (fun r => (from < p_global_position r <= bound)%N /\ p_type_url r ∈ types) (ws_part rows))).

(** The count/budget/cap selection over step 1's rows. *)
Fixpoint pg_select_page (maxBytes : Z) (rows : list PgEvent) (positions : list N) (total : Z) : res (list N * bool) :=
  match rows with
  | [] => Ok (positions, false)
  | r :: rows' =>
      let size := Z.of_nat (length (p_payload r)) in
      if bool_decide (positions = []) && (0 <? maxPayloadBytes)%Z && (maxPayloadBytes <? size)%Z
      then Err (EventTooLargeError (p_global_position r) (p_type_url r) size maxPayloadBytes)
      else if negb (bool_decide (positions = []))
              && (((0 <? maxPayloadBytes)%Z && (maxPayloadBytes <? size)%Z)
                  || ((0 <? maxBytes)%Z && (maxBytes <? total + size)%Z))
      then Ok (positions, true)
      else pg_select_page maxBytes rows' (positions ++ [p_global_position r]) (total + size)%Z
  end.

Definition pg_ReadAllBounded (from : N) (limit maxBytes : Z) (types : list string) : PM (list Envelope * bool) :=
  if bool_decide (types = []) then ret ([], false) else
  let limit := if (limit <=? 0)%Z then 100%Z else limit in
  let! bound := fenceBound from in
  if (bound <=? from)%N then ret ([], false) else
  in_tx id (
    let! _ := setWorkspace ws in
    let! _ := lift (pg_bind from) in
    let! rows := select (pg_page_rows from limit types bound) in
    let! (positions, truncated) := lift (pg_select_page maxBytes rows [] 0) in
    if bool_decide (positions = []) then ret ([], false) else
    let! out := queryDB (fun rows =>
        order_by p_global_position (filter (fun r => p_global_position r ∈ positions) (ws_part rows))) in
    ret (out, truncated)).

(** SELECT COALESCE(MAX(...), 0). *)
Definition max_of {A} (key : A -> N) (rows : list A) : N := foldr (fun r m => N.max (key r) m) 0%N rows.

Definition pg_CurrentStreamVersion (sid : StreamID) : PM N :=
  let! _ := lift (Validate sid) in
  in_tx id (let! _ := setWorkspace ws in select (fun rows => max_of p_version (stream_part ws (Canonical sid) rows))).

Definition pg_Head : PM N :=
  let! bound := fenceBound 0 in
  if (bound =? 0)%N then ret 0%N else
  in_tx id (
    let! _ := setWorkspace ws in
    select (fun rows => max_of p_global_position (filter (fun r => (p_global_position r <= bound)%N) (ws_part rows)))).

Definition pg_MatchingHead (types : list string) : PM N :=
  if bool_decide (types = []) then ret 0%N else
  let! bound := fenceBound 0 in
  if (bound =? 0)%N then ret 0%N else
  in_tx id (
    let! _ := setWorkspace ws in
    select (fun rows => max_of p_global_position
      (filter (fun r => (p_global_position r <= bound)%N /\ p_type_url r ∈ types) (ws_part rows)))).

Definition pg_RawHead : PM N :=
  in_tx id (let! _ := setWorkspace ws in select (fun rows => max_of p_global_position (ws_part rows))).

Definition pg_LookupClaim (scope value : string) : PM (string * bool) :=
  in_tx id (
    let! _ := setWorkspace ws in
    let! row := fun w =>
      match pg_session w with
      | None => (Err (ErrorsNew "tx is closed"), w)
      | Some ss => ask (fun s => if visible ss ws then sv_claims s !! (ws, scope, value) else None) w
      end in
    match row with
    | None => ret (EmptyString, false)
    | Some streamID => ret (streamID, true)
    end).
End Store.
