(* ===== verification/PgServerCorrect.v ===== *)
(** * How the server of PgServer.v evolves

    Whatever the sessions do, committed rows stay and new ones follow them,
    transaction ids and positions only grow, and a row's position is at or above
    the one its transaction could see when it got its id.  From this: once no
    transaction older than a fence is in progress, no row below the fence's
    position can appear any more. *)
From S2P Require Import Prelude Es Hash Chain Anchor Timestamp Effect Store Sql PgServer.

(** A row is in the table ([None]) or in a transaction that has not ended. *)
Definition row_at (s : server) (o : option N) (r : PgEvent) : Prop :=
  match o with None => r ∈ sv_events s | Some x => r ∈ own_rows x s end.

Record ids_inv (s : server) : Prop := {
  ii_run : forall x t, sv_running s !! x = Some t ->
    (x < sv_next_xid s)%N /\ (t_from t <= next_position s)%N /\ forall r, r ∈ t_rows t -> (t_from t <= p_global_position r)%N;
  ii_completed : (sv_completed s < sv_next_xid s)%N;
  ii_pos : forall o r, row_at s o r -> (1 <= p_global_position r < next_position s)%N;
  ii_uniq : forall o o' r r', row_at s o r -> row_at s o' r' -> p_global_position r = p_global_position r' -> o = o' /\ r = r';
  ii_nodup : NoDup (sv_events s) /\ forall x, NoDup (own_rows x s)
}.

Lemma ids_inv_empty : ids_inv empty_server.
Proof.
  split; simpl.
  - intros x t Hx. by rewrite lookup_empty in Hx.
  - done.
  - intros [x|] r Hr; unfold row_at, own_rows in Hr; simpl in Hr; rewrite ?lookup_empty in Hr; by apply not_elem_of_nil in Hr.
  - intros [x|] o' r r' Hr; unfold row_at, own_rows in Hr; simpl in Hr; rewrite ?lookup_empty in Hr; by apply not_elem_of_nil in Hr.
  - split; [constructor|]. intros x. unfold own_rows. simpl. rewrite lookup_empty. constructor.
Qed.

(** [evolves s s']: what any number of steps can do. *)
Record evolves (s s' : server) : Prop := {
  ev_xid : (sv_next_xid s <= sv_next_xid s')%N;
  ev_pos : (next_position s <= next_position s')%N;
  ev_rows : exists K, sv_events s' = sv_events s ++ K /\ forall r, r ∈ K ->
    (next_position s <= p_global_position r)%N
    \/ exists x t, sv_running s !! x = Some t /\ (t_from t <= p_global_position r)%N;
  ev_run : forall x t', sv_running s' !! x = Some t' ->
    (exists t, sv_running s !! x = Some t /\ t_from t' = t_from t)
    \/ (sv_next_xid s <= x)%N /\ (next_position s <= t_from t')%N
}.

#[global] Instance evolves_refl : Reflexive evolves.
Proof. intros s. split; [done..| |eauto]. exists []. split; [by rewrite app_nil_r|]. by intros r ?%not_elem_of_nil. Qed.

#[global] Instance evolves_trans : Transitive evolves.
Proof.
  intros s1 s2 s3 [A1 A2 (K1 & A3 & A4) A5] [B1 B2 (K2 & B3 & B4) B5]. split; [lia|lia| |].
  - exists (K1 ++ K2). split; [by rewrite B3, A3, app_assoc|]. intros r [Hr|Hr]%elem_of_app; [auto|].
    destruct (B4 r Hr) as [?|(x & t & Hx & Ht)]; [left; lia|].
    destruct (A5 x t Hx) as [(t0 & Ht0 & E)|[_ ?]]; [right; exists x, t0; split; [done|lia]|left; lia].
  - intros x t' Hx. destruct (B5 x t' Hx) as [(t & Ht & E)|[? ?]]; [|right; split; lia].
    destruct (A5 x t Ht) as [(t0 & Ht0 & E0)|[? ?]]; [left; exists t0; split; [done|congruence]|right; split; lia].
Qed.

Lemma evolves_prefix s s' : evolves s s' -> sv_events s `prefix_of` sv_events s'.
Proof. intros [_ _ (K & -> & _) _]. by apply prefix_app_r. Qed.

(** ** Primitive steps *)

Lemma assign_inv s : ids_inv s -> ids_inv (assign_xid s).2 /\ evolves s (assign_xid s).2.
Proof.
  intros [I1 I2 I3 I4 [I5 I6]]. unfold assign_xid. simpl.
  assert (forall o r, row_at (assign_xid s).2 o r -> row_at s o r) as Hrow.
  { intros [x|] r; [|done]. simpl. unfold own_rows. simpl. destruct (decide (x = sv_next_xid s)) as [->|Hx].
    - rewrite lookup_insert_eq. simpl. by intros ?%not_elem_of_nil.
    - by rewrite lookup_insert_ne. }
  split; [split|split]; simpl; try done; try lia.
  - intros x t [[<- <-]|[? Ht]]%lookup_insert_Some; simpl.
    + split; [lia|]. split; [done|]. by intros ? ?%not_elem_of_nil.
    + destruct (I1 x t Ht) as (? & ? & ?). split; [lia|done].
  - intros o r Hr%Hrow. by eapply I3.
  - intros o o' r r' Hr%Hrow Hr'%Hrow. by apply I4.
  - split; [done|]. intros x. unfold own_rows. simpl. destruct (decide (x = sv_next_xid s)) as [->|Hx];
      [rewrite lookup_insert_eq; constructor|rewrite lookup_insert_ne by done; apply I6].
  - exists []. split; [by rewrite app_nil_r|]. by intros r ?%not_elem_of_nil.
  - intros x t' [[<- <-]|[? Ht]]%lookup_insert_Some; simpl; [right; split; [lia|done]|eauto].
Qed.

Lemma nextval_cases s r s' : nextval s = (r, s') ->
  (s' = s /\ is_ok r = false)
  \/ r = Ok (next_position s) /\ (next_position s <= max_int64)%N /\ next_position s' = (next_position s + 1)%N
     /\ sv_events s' = sv_events s /\ sv_running s' = sv_running s /\ sv_next_xid s' = sv_next_xid s
     /\ sv_completed s' = sv_completed s /\ sv_claims s' = sv_claims s /\ sv_published s' = sv_published s.
Proof.
  unfold nextval. destruct (N.ltb_spec max_int64 (next_position s)); intros [= <- <-]; [by left|]. right. simpl.
  repeat split; done.
Qed.

(** A step that leaves rows and transactions alone. *)
Lemma same_rows_inv s s' :
  sv_events s' = sv_events s -> sv_running s' = sv_running s -> sv_next_xid s' = sv_next_xid s ->
  sv_completed s' = sv_completed s -> (next_position s <= next_position s')%N -> ids_inv s -> ids_inv s' /\ evolves s s'.
Proof.
  intros E1 E2 E3 E4 Hp [I1 I2 I3 I4 [I5 I6]].
  assert (forall o r, row_at s' o r -> row_at s o r) as Hrow by (intros [x|] r; unfold row_at, own_rows; by rewrite ?E1, ?E2).
  split; [split|split]; rewrite ?E1, ?E2, ?E3, ?E4; try done; try lia.
  - intros x t Ht. destruct (I1 x t Ht) as (? & ? & ?). split; [done|]. split; [lia|done].
  - intros o r Hr%Hrow. specialize (I3 o r Hr). lia.
  - intros o o' r r' Hr%Hrow Hr'%Hrow. by apply I4.
  - split; [done|]. intros x. unfold own_rows. rewrite E2. apply I6.
  - exists []. split; [by rewrite app_nil_r|]. by intros r ?%not_elem_of_nil.
  - eauto.
Qed.

Lemma nextval_inv s : ids_inv s -> ids_inv (nextval s).2 /\ evolves s (nextval s).2.
Proof.
  intros Hi. destruct (nextval s) as [r s'] eqn:HN. destruct (nextval_cases _ _ _ HN) as [[-> _]|(_ & _ & Hp & E1 & E2 & E3 & E4 & _)].
  - done.
  - apply same_rows_inv; try done. simpl. lia.
Qed.

(** An update of a transaction that keeps its rows. *)
Lemma update_inv x f s :
  (forall t, t_from (f t) = t_from t /\ t_rows (f t) = t_rows t) -> ids_inv s ->
  ids_inv (update_txn x f s) /\ evolves s (update_txn x f s).
Proof.
  intros Hf [I1 I2 I3 I4 [I5 I6]].
  assert (forall y t', alter f x (sv_running s) !! y = Some t' ->
    exists t, sv_running s !! y = Some t /\ t_from t' = t_from t /\ t_rows t' = t_rows t) as Hrun.
  { intros y t'. rewrite lookup_alter_Some. intros [(-> & t & Ht & ->)|[? Ht]]; [|eauto].
    exists t. split; [done|]. apply Hf. }
  assert (forall o r, row_at (update_txn x f s) o r -> row_at s o r) as Hrow.
  { intros [y|] r; [|done]. unfold row_at, own_rows, update_txn. simpl.
    destruct (alter f x (sv_running s) !! y) as [t'|] eqn:Hy; [|by intros ?%not_elem_of_nil].
    destruct (Hrun y t' Hy) as (t & -> & _ & ->). done. }
  split; [split|split]; simpl; try done.
  - intros y t' Hy. destruct (Hrun y t' Hy) as (t & Ht & -> & ->). by apply I1.
  - intros o r Hr%Hrow. by apply (I3 o r).
  - intros o o' r r' Hr%Hrow Hr'%Hrow. by apply I4.
  - split; [done|]. intros y. unfold own_rows, update_txn. simpl. destruct (alter f x (sv_running s) !! y) as [t'|] eqn:Hy; [|constructor].
    destruct (Hrun y t' Hy) as (t & Ht & _ & ->). specialize (I6 y). unfold own_rows in I6. by rewrite Ht in I6.
  - exists []. split; [by rewrite app_nil_r|]. by intros r ?%not_elem_of_nil.
  - intros y t' Hy. destruct (Hrun y t' Hy) as (t & Ht & E & _). left. eauto.
Qed.

(** A row inserted at the position just drawn, by a transaction that had its id
    before the draw. *)
Lemma store_row_inv x t row s s1 s2 res :
  ids_inv s -> sv_running s !! x = Some t -> nextval s = (Ok (p_global_position row), s1) ->
  store_row x row s1 = (res, s2) -> ids_inv s2 /\ evolves s s2.
Proof.
  intros Hi Hx HN. pose proof (nextval_inv s Hi) as [Hi1 He1]. rewrite HN in Hi1, He1. simpl in *.
  destruct (nextval_cases _ _ _ HN) as [[_ ?]|(Egp & _ & Hp & E1 & E2 & E3 & E4 & _)]; [done|]. injection Egp as Egp.
  unfold store_row. destruct (clashes _ _); [by intros [= <- <-]|]. destruct (clashes _ _); [by intros [= <- <-]|].
  intros [= <- <-]. destruct Hi as [J1 J2 J3 J4 _], Hi1 as [I1 I2 I3 I4 [I5 I6]].
  assert (forall o r, row_at (update_txn x (add_row row) s1) o r -> row_at s1 o r \/ o = Some x /\ r = row) as Hrow.
  { intros [y|] r; [|by left]. unfold row_at, own_rows, update_txn. simpl. destruct (decide (y = x)) as [->|Hy].
    - rewrite lookup_alter_eq, E2, Hx. simpl. intros [?| ->%list_elem_of_singleton]%elem_of_app; [by left|by right].
    - rewrite lookup_alter_ne by done. by left. }
  assert (forall o r, row_at s1 o r -> (p_global_position r < p_global_position row)%N) as Hlt.
  { intros o r Hr. rewrite Egp. assert (row_at s o r) as Hr' by (revert Hr; unfold row_at, own_rows; by rewrite E1, E2).
    specialize (J3 o r Hr'). lia. }
  split; [split|etrans; [exact He1|split]]; simpl; try done.
  - intros y t' [(-> & t0 & Ht & ->)|[? Ht]]%lookup_alter_Some; [|by apply I1].
    destruct (I1 y t0 Ht) as (? & ? & Hr). simpl. split; [done|]. split; [done|].
    intros r [?| ->%list_elem_of_singleton]%elem_of_app; [auto|].
    rewrite E2, Hx in Ht. injection Ht as <-. destruct (J1 y t Hx) as (_ & ? & _). lia.
  - intros o r [Hr|[-> ->]]%Hrow; [by eapply I3|].
    change (next_position (update_txn x (add_row row) s1)) with (next_position s1). rewrite Hp, Egp.
    assert (1 <= next_position s)%N by (unfold next_position; destruct (sv_seq s); lia). lia.
  - intros o o' r r' [Hr|[-> ->]]%Hrow [Hr'|[-> ->]]%Hrow E; [by eapply I4| | |done].
    + specialize (Hlt o r Hr). lia.
    + specialize (Hlt o' r' Hr'). lia.
  - split; [done|]. intros y. unfold own_rows, update_txn. simpl. destruct (decide (y = x)) as [->|Hy].
    + rewrite lookup_alter_eq, E2, Hx. simpl. specialize (I6 x). unfold own_rows in I6. rewrite E2, Hx in I6.
      apply NoDup_app. split; [done|]. split; [|apply NoDup_singleton]. intros r Hr ->%list_elem_of_singleton.
      assert (row_at s1 (Some x) row) as Hr' by (unfold row_at, own_rows; by rewrite E2, Hx). specialize (Hlt _ _ Hr'). lia.
    + rewrite lookup_alter_ne by done. apply I6.
  - exists []. split; [by rewrite app_nil_r|]. by intros r ?%not_elem_of_nil.
  - intros y t' [(-> & t0 & Ht & ->)|[? Ht]]%lookup_alter_Some; left; eauto.
Qed.

Lemma abort_inv x s : ids_inv s -> ids_inv (abort_xid x s) /\ evolves s (abort_xid x s).
Proof.
  intros Hi. unfold abort_xid. destruct (sv_running s !! x) as [t|] eqn:Hx; [|done]. destruct Hi as [I1 I2 I3 I4 [I5 I6]].
  assert (forall o r, row_at (abort_xid x s) o r -> row_at s o r) as Hrow.
  { intros [y|] r; unfold row_at, own_rows, abort_xid; rewrite Hx; simpl; [|done].
    destruct (decide (y = x)) as [->|Hy]; [rewrite lookup_delete_eq; by intros ?%not_elem_of_nil|by rewrite lookup_delete_ne]. }
  unfold abort_xid in Hrow. rewrite Hx in Hrow. split; [split|split]; simpl; try done.
  - intros y t' [_ Ht]%lookup_delete_Some. by apply I1.
  - destruct (I1 x t Hx) as (? & _ & _). lia.
  - intros o r Hr%Hrow. by eapply I3.
  - intros o o' r r' Hr%Hrow Hr'%Hrow. by apply I4.
  - split; [done|]. intros y. unfold own_rows. simpl. destruct (decide (y = x)) as [->|Hy];
      [rewrite lookup_delete_eq; constructor|rewrite lookup_delete_ne by done; apply I6].
  - exists []. split; [by rewrite app_nil_r|]. by intros r ?%not_elem_of_nil.
  - intros y t' [_ Ht]%lookup_delete_Some. eauto.
Qed.

Lemma commit_inv x s : ids_inv s -> ids_inv (commit_xid x s) /\ evolves s (commit_xid x s).
Proof.
  intros Hi. unfold commit_xid. destruct (sv_running s !! x) as [t|] eqn:Hx; [|done]. destruct Hi as [I1 I2 I3 I4 [I5 I6]].
  set (s' := MkServer _ _ _ _ _ _ _).
  assert (forall o r, row_at s' o r -> exists o', row_at s o' r /\ (o' = o \/ o = None /\ o' = Some x)) as Hrow.
  { intros [y|] r; unfold row_at, own_rows; simpl.
    - destruct (decide (y = x)) as [->|Hy]; [rewrite lookup_delete_eq; by intros ?%not_elem_of_nil|].
      rewrite lookup_delete_ne by done. intros Hr. exists (Some y). split; [done|by left].
    - intros [Hr|Hr]%elem_of_app; [exists None; by split; [|left]|]. exists (Some x). unfold own_rows. rewrite Hx. auto. }
  assert (forall r, row_at s' (Some x) r -> False) as Hgone.
  { intros r. unfold row_at, own_rows. simpl. rewrite lookup_delete_eq. by intros ?%not_elem_of_nil. }
  split; [split|split]; simpl; try done.
  - intros y t' [_ Ht]%lookup_delete_Some. by apply I1.
  - destruct (I1 x t Hx) as (? & _ & _). lia.
  - intros o r Hr. destruct (Hrow o r Hr) as (o' & Hr' & _). by eapply I3.
  - intros o o' r r' Hr Hr' E. destruct (Hrow o r Hr) as (a & Ha & Hoa), (Hrow o' r' Hr') as (b & Hb & Hob).
    destruct (I4 a b r r' Ha Hb E) as [Eab ->]. split; [|done].
    destruct Hoa as [Hoa|[Ho Hoa]], Hob as [Hob|[Ho' Hob]]; try congruence; exfalso.
    + apply (Hgone r'). by rewrite <- Hob, <- Eab, Hoa.
    + apply (Hgone r'). by rewrite <- Hoa, Eab, Hob.
  - assert (own_rows x s = t_rows t) as Eo by (unfold own_rows; by rewrite Hx). split.
    + apply NoDup_app. split; [done|]. split; [|rewrite <- Eo; apply I6]. intros r Hr Hr'.
      destruct (I4 None (Some x) r r) as [? _]; [done|unfold row_at; by rewrite Eo|done|done].
    + intros y. unfold own_rows. simpl. destruct (decide (y = x)) as [->|Hy];
        [rewrite lookup_delete_eq; constructor|rewrite lookup_delete_ne by done; apply I6].
  - exists (t_rows t). split; [done|]. intros r Hr. right. exists x, t. split; [done|]. destruct (I1 x t Hx) as (_ & _ & Hf). auto.
  - intros y t' [_ Ht]%lookup_delete_Some. eauto.
Qed.

Lemma write_claim_inv {A} x (f : N -> server -> res A * server) s :
  (forall s, (f x s).2 = s \/ exists k v, (f x s).2 = update_txn x (write_claim k v) s) -> ids_inv s ->
  ids_inv (f x s).2 /\ evolves s (f x s).2.
Proof. intros Hf Hi. destruct (Hf s) as [->|(k & v & ->)]; [done|]. by apply update_inv. Qed.

(** ** Steps of the others *)

Section Moves.
Variable render : Envelope -> N -> PgEvent.
Variable follows : list PgEvent -> Envelope -> bool.
Hypothesis Hrender : forall e gp, p_global_position (render e gp) = gp.

Lemma apply_move_inv now m s : ids_inv s -> ids_inv (apply_move render follows now m s) /\ evolves s (apply_move render follows now m s).
Proof.
  intros Hi. destruct m as [|x e| |x k sid|x k sid|x ps|x ps t|x|x]; simpl.
  - by apply assign_inv.
  - destruct (_ && _ && _) eqn:Hg; [|done]. rewrite !andb_true_iff in Hg. destruct Hg as [[[t Ht]%bool_decide_eq_true _] _].
    destruct (nextval s) as [[gp|er] s1] eqn:HN.
    + destruct (store_row x (render e gp) s1) as [res s2] eqn:HS. eapply store_row_inv; [done..| |exact HS]. by rewrite Hrender.
    + pose proof (nextval_inv s Hi) as Hx. by rewrite HN in Hx.
  - by apply nextval_inv.
  - case_bool_decide; [|done]. unfold insert_claim_row. destruct (claim_busy x k s); [done|]. case_bool_decide; [done|].
    by apply update_inv.
  - case_bool_decide; [|done]. unfold delete_claim_row. case_goal; [done|]. destruct (claim_busy x k s); [done|]. by apply update_inv.
  - by apply update_inv.
  - by apply update_inv.
  - by apply commit_inv.
  - by apply abort_inv.
Qed.

Lemma apply_moves_inv now own ms s :
  ids_inv s -> ids_inv (apply_moves render follows now own ms s) /\ evolves s (apply_moves render follows now own ms s).
Proof.
  revert s. induction ms as [|m ms IH]; intros s Hi; [done|]. unfold apply_moves. cbn [foldl].
  destruct (bool_decide (moved_xid m = own) && bool_decide (is_Some own)); [by apply IH|].
  destruct (apply_move_inv now m s Hi) as [Hi1 He1]. destruct (IH _ Hi1) as [Hi2 He2]. split; [done|]. by etrans.
Qed.

(** A session's own transaction is left alone. *)
Lemma apply_moves_own now x ms s :
  (x < sv_next_xid s)%N -> sv_running (apply_moves render follows now (Some x) ms s) !! x = sv_running s !! x.
Proof.
  revert s. induction ms as [|m ms IH]; intros s Hx; [done|]. unfold apply_moves. cbn [foldl].
  destruct (bool_decide (moved_xid m = Some x) && bool_decide (is_Some (Some x))) eqn:Hm; [by apply IH|].
  assert (moved_xid m <> Some x) as Hne.
  { intros E. rewrite !bool_decide_eq_true_2 in Hm by (try done; by eexists). done. }
  assert (sv_running (apply_move render follows now m s) !! x = sv_running s !! x
    /\ (sv_next_xid s <= sv_next_xid (apply_move render follows now m s))%N) as [E Hn].
  { destruct m as [|y e| |y k sid|y k sid|y ps|y ps t|y|y]; simpl in *; try (assert (y <> x) by congruence).
    - rewrite lookup_insert_ne by lia. split; [done|lia].
    - destruct (_ && _ && _); [|done]. destruct (nextval s) as [[gp|er] s1] eqn:HN;
        destruct (nextval_cases _ _ _ HN) as [[-> Hf]|(_ & _ & _ & E1 & E2 & E3 & _)]; try done.
      + unfold store_row. destruct (clashes _ _); simpl; [by rewrite E2, E3|]. destruct (clashes _ _); simpl; [by rewrite E2, E3|].
        rewrite lookup_alter_ne by done. by rewrite E2, E3.
      + simpl. by rewrite E2, E3.
    - destruct (nextval s) as [r s1] eqn:HN. destruct (nextval_cases _ _ _ HN) as [[-> Hf]|(_ & _ & _ & E1 & E2 & E3 & _)]; [done|].
      simpl. by rewrite E2, E3.
    - destruct (bool_decide (is_Some (sv_running s !! y))); [|split; [done|lia]]. unfold insert_claim_row.
      repeat (match goal with |- context [if ?b then _ else _] => destruct b end); simpl; rewrite ?lookup_alter_ne by done; split; done || lia.
    - destruct (bool_decide (is_Some (sv_running s !! y))); [|split; [done|lia]]. unfold delete_claim_row.
      repeat (match goal with |- context [if ?b then _ else _] => destruct b end); simpl; rewrite ?lookup_alter_ne by done; split; done || lia.
    - by rewrite lookup_alter_ne.
    - by rewrite lookup_alter_ne.
    - unfold commit_xid. destruct (sv_running s !! y); [|done]. simpl. by rewrite lookup_delete_ne.
    - unfold abort_xid. destruct (sv_running s !! y); [|done]. simpl. by rewrite lookup_delete_ne. }
  rewrite <- E. apply IH. lia.
Qed.
End Moves.

(** ** The fence *)

(** [fence_at s R F]: a transaction with an id from [R] on has seen no position
    below [F]. *)
Definition fence_at (s : server) (R F : N) : Prop :=
  (R <= sv_next_xid s)%N /\ (F <= next_position s)%N
  /\ forall x t, sv_running s !! x = Some t -> (R <= x)%N -> (F <= t_from t)%N.

(** [settled s F]: no row below [F] can appear any more. *)
Definition settled (s : server) (F : N) : Prop :=
  (F <= next_position s)%N /\ forall x t, sv_running s !! x = Some t -> (F <= t_from t)%N.

Lemma fence_evolves s s' R F : evolves s s' -> fence_at s R F -> fence_at s' R F.
Proof.
  intros [E1 E2 _ E4] (H1 & H2 & H3). split; [lia|]. split; [lia|]. intros x t' Hx HR.
  destruct (E4 x t' Hx) as [(t & Ht & ->)|[? ?]]; [by eapply H3|lia].
Qed.

Lemma settled_evolves s s' F : evolves s s' -> settled s F -> settled s' F.
Proof.
  intros [E1 E2 _ E4] (H1 & H2). split; [lia|]. intros x t' Hx.
  destruct (E4 x t' Hx) as [(t & Ht & ->)|[? ?]]; [by eapply H2|lia].
Qed.

(** Below a settled position the table no longer changes. *)
Lemma settled_rows s s' F : evolves s s' -> settled s F ->
  filter (fun r => p_global_position r < F)%N (sv_events s') = filter (fun r => p_global_position r < F)%N (sv_events s).
Proof.
  intros [_ _ (K & -> & HK) _] (H1 & H2). rewrite filter_app, (filter_false _ K), app_nil_r; [done|].
  intros r Hr Hlt. destruct (HK r Hr) as [?|(x & t & Hx & ?)]; [lia|]. specialize (H2 x t Hx). lia.
Qed.

Lemma snapshot_xmin_le s x t : sv_running s !! x = Some t -> (snapshot_xmin s <= x)%N.
Proof.
  unfold snapshot_xmin. generalize (sv_completed s + 1)%N. intros b.
  apply (map_fold_weak_ind (fun m (r : gmap N txn) => r !! x = Some t -> (m <= x)%N)); [by rewrite lookup_empty|].
  intros i y m r Hi IH. destruct (decide (i = x)) as [->|Hne]; [lia|]. rewrite lookup_insert_ne by done. intros Hx%IH. lia.
Qed.

(** A cleared fence settles everything below its position. *)
Lemma fence_cleared s R F : fence_at s R F -> (R <= snapshot_xmin s)%N -> settled s F.
Proof.
  intros (H1 & H2 & H3) Hc. split; [done|]. intros x t Hx. apply (H3 x t Hx). pose proof (snapshot_xmin_le s x t Hx). lia.
Qed.
