(* ===== verification/PgFence.v ===== *)
(** * The horizon fence is lossless (src/postgres/wsstore.go)

    Pages of the PostgreSQL store are read in position order while appends
    commit out of position order.  The fence bounds a page so that nothing
    inside it can appear later. *)
From S2P Require Import Prelude Sha256 Es Hash Chain Anchor Timestamp Effect Store Sql Sqlite SqliteCorrect.
From S2P Require Import PgServer PgServerCorrect PgStore.

(** [L] was read from the sequence when the next position was [F]: [L] is below
    it, or the sequence was untouched and reported its start value. *)
Definition bound_ok (F L : N) : Prop := (L < F)%N \/ L = 1%N /\ F = 1%N.

Lemma last_value_bound s : bound_ok (next_position s) (last_value s).
Proof. unfold bound_ok, next_position, last_value. destruct (sv_seq s); simpl; [left; lia|by right]. Qed.

Section Worlds.
Context {UL : UuidLib} {EV : Env} {PE : PgEnv}.

(** What holds between the statements of the code: the server's invariant, an
    open transaction that the server knows, and a stored fence that is one. *)
Record pg_inv (w : pgw) : Prop := {
  pi_ids : ids_inv (pg_server w);
  pi_own : forall x, own_xid w = Some x -> is_Some (sv_running (pg_server w) !! x);
  pi_fence : pg_fenceR w <> 0%N ->
    exists F, fence_at (pg_server w) (pg_fenceR w) F /\ bound_ok F (pg_boundL w)
}.

(** [w'] is a later world. *)
Definition later (w w' : pgw) : Prop := evolves (pg_server w) (pg_server w').

#[global] Instance later_refl : Reflexive later.
Proof. intros w. unfold later. reflexivity. Qed.
#[global] Instance later_trans : Transitive later.
Proof. intros w1 w2 w3. unfold later. intros. by etrans. Qed.

(** Replacing the server by one it evolves into. *)
Lemma server_step w s :
  pg_inv w -> ids_inv s -> evolves (pg_server w) s ->
  (forall x, own_xid w = Some x -> is_Some (sv_running s !! x)) -> pg_inv (with_server w s).
Proof.
  intros [I1 I2 I3] Hi He Hown. split; [done|exact Hown|]. intros HR. destruct (I3 HR) as (F & HF & Hb).
  exists F. split; [by eapply fence_evolves|done].
Qed.

Lemma interfere_inv w : pg_inv w -> pg_inv (interfere w) /\ later w (interfere w) /\ own_xid (interfere w) = own_xid w.
Proof.
  intros Hw. destruct (apply_moves_inv pg_row follows ltac:(done) (clock (pg_tick w)) (own_xid w) (default [] (head (pg_others w)))
    (pg_server w) (pi_ids _ Hw)) as [Hi He]. split; [|split; [exact He|done]].
  destruct (server_step w _ Hw Hi He) as [A1 A2 A3]; [|split; done]. intros x Hx.
  pose proof (pi_own _ Hw x Hx) as Hs. destruct Hs as [t Ht]. destruct (ii_run _ (pi_ids _ Hw) x t Ht) as (Hlt & _ & _).
  rewrite Hx, apply_moves_own by done. by eexists.
Qed.

(** A computation that keeps the invariant, whatever it returns. *)
Definition safe {A} (m : PM A) : Prop := forall w r w', pg_inv w -> m w = (r, w') -> pg_inv w' /\ later w w'.

(** ... and the open transaction, which has its id. *)
Definition safe_tx {A} (m : PM A) : Prop := forall w r w', pg_inv w -> is_Some (own_xid w) -> m w = (r, w') ->
  pg_inv w' /\ later w w' /\ own_xid w' = own_xid w.

(** ... and the server, up to the steps of the others. *)
Definition reads {A} (m : PM A) : Prop := forall w r w', pg_inv w -> m w = (r, w') ->
  pg_inv w' /\ later w w' /\ own_xid w' = own_xid w.

Lemma reads_safe {A} (m : PM A) : reads m -> safe m.
Proof. intros Hm w r w' Hw E. destruct (Hm w r w' Hw E) as (? & ? & _). done. Qed.
Lemma reads_safe_tx {A} (m : PM A) : reads m -> safe_tx m.
Proof. intros Hm w r w' Hw _ E. by eapply Hm. Qed.

Lemma reads_ret {A} (a : A) : reads (ret a).
Proof. intros w r w' Hw [= <- <-]. done. Qed.
Lemma reads_throw {A} e : reads (throw (A:=A) e).
Proof. intros w r w' Hw [= <- <-]. done. Qed.
Lemma reads_lift {A} (x : res A) : reads (lift x).
Proof. intros w r w' Hw [= <- <-]. done. Qed.
Lemma reads_bind {A B} (m : PM A) (k : A -> PM B) : reads m -> (forall a, reads (k a)) -> reads (bind m k).
Proof.
  intros Hm Hk w r w' Hw. unfold bind. destruct (m w) as [[a|e] w1] eqn:E; destruct (Hm _ _ _ Hw E) as (H1 & H2 & H3).
  - intros E2. destruct (Hk a _ _ _ H1 E2) as (H4 & H5 & H6). split; [done|]. split; [by etrans|congruence].
  - intros [= <- <-]. done.
Qed.
Lemma reads_wrap {A} (m : PM A) c : reads m -> reads (m wrap c).
Proof.
  intros Hm w r w' Hw. unfold catch. destruct (m w) as [[a|e] w1] eqn:E; destruct (Hm _ _ _ Hw E) as (H1 & H2 & H3); by intros [= <- <-].
Qed.

Lemma with_server_same w : with_server w (pg_server w) = w.
Proof. by destruct w. Qed.

Lemma reads_ask {A} (f : server -> A) : reads (ask f).
Proof.
  intros w r w' Hw. unfold ask, statement. destruct (interfere_inv w Hw) as (H1 & H2 & H3).
  destruct (fault _); intros [= <- <-]; [done|]. by rewrite with_server_same.
Qed.
Lemma reads_Now : reads pg_Now.
Proof. intros w r w' Hw [= <- <-]. by apply interfere_inv. Qed.
Lemma reads_newV7 : reads pg_newV7.
Proof. intros w r w' Hw [= <- <-]. by apply interfere_inv. Qed.
Lemma reads_clock : reads clock_timestamp.
Proof.
  intros w r w' Hw. unfold clock_timestamp. destruct (ask (fun _ => tt) w) as [[[]|e] w1] eqn:E;
    destruct (reads_ask _ _ _ _ Hw E) as (H1 & H2 & H3); by intros [= <- <-].
Qed.
Lemma reads_select {A} (f : list PgEvent -> A) : reads (select f).
Proof.
  intros w r w' Hw. unfold select. destruct (pg_session w) as [ss|]; [|by intros [= <- <-]]. by apply reads_ask.
Qed.
Lemma reads_set_config f : (forall ss, ss_xid (f ss) = ss_xid ss) -> reads (set_config f).
Proof.
  intros Hf w r w' Hw. unfold set_config. destruct (ask (fun _ => tt) w) as [[[]|e] w1] eqn:E;
    destruct (reads_ask _ _ _ _ Hw E) as (H1 & H2 & H3); intros [= <- <-]; [|done].
  assert (own_xid (with_session w1 (f <$> pg_session w1)) = own_xid w1) as Eo.
  { unfold own_xid. simpl. destruct (pg_session w1); simpl; [apply Hf|done]. }
  split; [|split; [done|congruence]]. destruct H1 as [A1 A2 A3]. split; [done| |done].
  intros x Hx. apply A2. by rewrite <- Eo.
Qed.
Lemma reads_setWorkspace ws : reads (setWorkspace ws).
Proof. by apply reads_set_config. Qed.
Lemma reads_queryDB q : reads (queryDB q).
Proof. apply reads_bind; [apply reads_select|]. intros rows. apply reads_lift. Qed.

(** The id of the open transaction. *)
Lemma current_xid_inv w x w' : pg_inv w -> is_Some (pg_session w) -> current_xid w = (x, w') ->
  pg_inv w' /\ later w w' /\ own_xid w' = Some x /\ (is_Some (own_xid w) -> w' = w).
Proof.
  intros Hw [ss Hss]. unfold current_xid. destruct (own_xid w) as [y|] eqn:Ho.
  { intros [= <- <-]. done. }
  destruct (assign_xid (pg_server w)) as [y s] eqn:Ha. intros [= <- <-].
  pose proof (assign_inv _ (pi_ids _ Hw)) as [Hi He]. rewrite Ha in Hi, He. simpl in *.
  assert (own_xid (with_session (with_server w s) ((fun ss => MkSession (Some y) (ss_ws ss) (ss_bypass ss)) <$> pg_session w)) = Some y)
    as Eo by (unfold own_xid; simpl; by rewrite Hss).
  split; [|split; [done|split; [done|by intros [? ?]]]].
  destruct (server_step w s Hw Hi He) as [B1 B2 B3]; [by rewrite Ho|]. split; [done| |done].
  intros z Hz. rewrite Eo in Hz. injection Hz as <-. simpl. unfold assign_xid in Ha. injection Ha as <- <-. simpl.
  rewrite lookup_insert_eq. by eexists.
Qed.

Lemma current_xact_inv w r w' : pg_inv w -> is_Some (pg_session w) -> pg_current_xact_id w = (r, w') ->
  pg_inv w' /\ later w w' /\ (is_ok r = true -> is_Some (own_xid w')) /\ (is_Some (own_xid w) -> own_xid w' = own_xid w).
Proof.
  intros Hw Hss. unfold pg_current_xact_id. destruct (ask (fun _ => tt) w) as [[[]|e] w1] eqn:E;
    destruct (reads_ask _ _ _ _ Hw E) as (H1 & H2 & H3).
  - assert (is_Some (pg_session w1)) as Hss1.
    { revert E. unfold ask, statement. destruct (fault _); [done|]. intros [= <-]. done. }
    destruct (current_xid w1) as [x w2] eqn:E2. intros [= <- <-]. destruct (current_xid_inv _ _ _ H1 Hss1 E2) as (H4 & H5 & H6 & H7).
    split; [done|]. split; [by etrans|]. split; [by eexists|]. intros Ho. rewrite <- H3 in Ho. rewrite (H7 Ho). congruence.
  - intros [= <- <-]. split; [done|]. split; [done|]. done.
Qed.

(** A write to the claims. *)
Lemma safe_write {A} (f : N -> server -> res A * server) :
  (forall x s, (f x s).2 = s \/ exists k v, (f x s).2 = update_txn x (write_claim k v) s) -> safe_tx (write f).
Proof.
  intros Hf w r w' Hw Ho. unfold write. destruct (pg_session w) as [ss|] eqn:Hss; [|by intros [= <- <-]].
  destruct (ask (fun _ => tt) w) as [[[]|e] w1] eqn:E; destruct (reads_ask _ _ _ _ Hw E) as (H1 & H2 & H3).
  2:{ intros [= <- <-]. done. }
  rewrite <- H3 in Ho. destruct Ho as [x Hx]. unfold current_xid. rewrite Hx.
  destruct (write_claim_inv x f (pg_server w1) (Hf x) (pi_ids _ H1)) as [Hi He].
  destruct (f x (pg_server w1)) as [fr s] eqn:Ef. intros [= <- <-]. simpl in *.
  split; [|split; [|by rewrite <- H3]].
  - apply server_step; try done. intros y Hy. rewrite Hx in Hy. injection Hy as <-.
    destruct (pi_own _ H1 x Hx) as [t Ht]. destruct (Hf x (pg_server w1)) as [E0|(k & v & E0)]; rewrite Ef in E0; simpl in E0; rewrite E0.
    + rewrite Ht. by eexists.
    + simpl. rewrite lookup_alter_eq, Ht. by eexists.
  - etrans; [exact H2|exact He].
Qed.

(** An insert by a transaction that has its id. *)
Lemma safe_insert row : (forall gp, p_global_position (row gp) = gp) -> safe_tx (insert_event_row row).
Proof.
  intros Hrow w r w' Hw Ho. unfold insert_event_row. destruct (pg_session w) as [ss|] eqn:Hss; [|by intros [= <- <-]].
  unfold statement. destruct (interfere_inv w Hw) as (H1 & H2 & H3).
  destruct (fault (pg_tick w)); [by intros [= <- <-]|].
  destruct (nextval (pg_server (interfere w))) as [nr s1] eqn:HN.
  rewrite <- H3 in Ho. destruct Ho as [x Hx]. destruct (pi_own _ H1 x Hx) as [t Ht].
  pose proof (nextval_inv _ (pi_ids _ H1)) as [Hi1 He1]. rewrite HN in Hi1, He1. simpl in Hi1, He1.
  assert (sv_running s1 = sv_running (pg_server (interfere w))) as Er.
  { destruct (nextval_cases _ _ _ HN) as [[-> _]|(_ & _ & _ & _ & E2 & _)]; done. }
  destruct nr as [gp|e].
  - unfold current_xid. change (own_xid (with_server (interfere w) s1)) with (own_xid (interfere w)). rewrite Hx. cbn [pg_server with_server].
    destruct (store_row x (row gp) s1) as [sr s2] eqn:HS. intros [= <- <-].
    destruct (store_row_inv x t (row gp) _ s1 s2 sr (pi_ids _ H1) Ht) as [Hi2 He2]; [by rewrite Hrow|done|].
    split; [|split; [etrans; [exact H2|exact He2]|done]].
    change (pg_inv (with_server (interfere w) s2)). apply server_step; try done. intros y Hy. rewrite Hx in Hy. injection Hy as <-.
    unfold store_row in HS. revert HS. destruct (clashes _ _); [intros [= _ <-]; rewrite Er, Ht; by eexists|].
    destruct (clashes _ _); intros [= _ <-]; [rewrite Er, Ht; by eexists|]. simpl. rewrite lookup_alter_eq, Er, Ht. by eexists.
  - intros [= <- <-]. split; [|split; [etrans; [exact H2|exact He1]|done]]. apply server_step; try done.
    intros y Hy. rewrite Er. by apply (pi_own _ H1).
Qed.

Lemma Rollback_inv w : pg_inv w -> pg_inv (Rollback w) /\ later w (Rollback w).
Proof.
  intros Hw. unfold Rollback. destruct (own_xid w) as [x|] eqn:Hx.
  - destruct (abort_inv x _ (pi_ids _ Hw)) as [Hi He]. split; [|exact He]. split; [done|done|].
    intros HR. destruct (pi_fence _ Hw HR) as (F & HF & Hb). exists F. split; [by eapply fence_evolves|done].
  - split; [|exact (evolves_refl _)]. destruct Hw as [A1 A2 A3]. split; [done|done|done].
Qed.

Lemma committed_inv w : pg_inv w -> pg_inv (committed w) /\ later w (committed w).
Proof.
  intros Hw. unfold committed. destruct (own_xid w) as [x|] eqn:Hx.
  - destruct (commit_inv x _ (pi_ids _ Hw)) as [Hi He]. split; [|exact He]. split; [done|done|].
    intros HR. destruct (pi_fence _ Hw HR) as (F & HF & Hb). exists F. split; [by eapply fence_evolves|done].
  - split; [|exact (evolves_refl _)]. destruct Hw as [A1 A2 A3]. split; [done|done|done].
Qed.

Lemma safe_Commit : safe Commit.
Proof.
  intros w r w' Hw. unfold Commit. destruct (interfere_inv w Hw) as (H1 & H2 & _).
  destruct (committed_inv _ H1) as [H3 H4]. destruct (fault _); [destruct (lost_ack _)|]; intros [= <- <-]; try done;
    (split; [done|by etrans]).
Qed.

(** A transaction of its own around a body. *)
Lemma safe_in_tx {A} fail (body : PM A) :
  (forall w r w', pg_inv w -> is_Some (pg_session w) -> own_xid w = None -> body w = (r, w') -> pg_inv w' /\ later w w') ->
  safe (in_tx fail body).
Proof.
  intros Hb w r w' Hw. unfold in_tx. destruct (ask (fun _ => tt) w) as [[[]|e] w1] eqn:E;
    destruct (reads_ask _ _ _ _ Hw E) as (H1 & H2 & _); [|by intros [= <- <-]].
  set (w2 := with_session w1 _).
  assert (pg_inv w2) as Hw2 by (destruct H1 as [A1 A2 A3]; split; done).
  destruct (body w2) as [br w3] eqn:HB. intros [= <- <-].
  destruct (Hb w2 br w3 Hw2 ltac:(by eexists) eq_refl HB) as [H3 H4]. destruct (Rollback_inv w3 H3) as [H5 H6].
  split; [done|]. etrans; [exact H2|]. etrans; [exact H4|exact H6].
Qed.

Lemma ask_Ok {A} (f : server -> A) w a w' : ask f w = (Ok a, w') -> w' = interfere w /\ a = f (pg_server w').
Proof.
  unfold ask, statement. destruct (fault _); [done|]. intros [= <- <-]. by rewrite with_server_same.
Qed.

Lemma safe_in_tx_reads {A} fail (body : PM A) : reads body -> safe (in_tx fail body).
Proof. intros Hr. apply safe_in_tx. intros w r w' Hw _ _ E. destruct (Hr _ _ _ Hw E) as (? & ? & _). done. Qed.

(** ** The fence *)

(** The drawn id separates: every transaction from it on has seen the positions
    of the call's start. *)
Lemma drawFence_spec w r w' :
  pg_inv w -> drawFence w = (r, w') -> pg_inv w' /\ later w w'
    /\ forall R, r = Ok R -> R <> 0%N /\ fence_at (pg_server w') R (next_position (pg_server w)).
Proof.
  intros Hw. unfold drawFence, in_tx. destruct (ask (fun _ => tt) w) as [[[]|e] w1] eqn:E;
    destruct (reads_ask _ _ _ _ Hw E) as (H1 & H2 & _); [|by intros [= <- <-]].
  set (w2 := with_session w1 _). assert (pg_inv w2) as Hw2 by (destruct H1 as [A1 A2 A3]; split; done).
  unfold catch, pg_current_xact_id. destruct (ask (fun _ => tt) w2) as [[[]|e] w3] eqn:E3;
    destruct (reads_ask _ _ _ _ Hw2 E3) as (H3 & H4 & H5).
  2:{ intros [= <- <-]. destruct (Rollback_inv w3 H3) as [H6 H7]. split; [done|]. split; [|done].
      etrans; [exact H2|]. etrans; [exact H4|exact H7]. }
  change (own_xid w2) with (@None N) in H5. apply ask_Ok in E3 as [E3 _]. assert (pg_session w3 = Some (MkSession None None false)) as Hs3 by (by rewrite E3).
  unfold current_xid. rewrite H5. unfold assign_xid. intros [= <- <-].
  assert (ids_inv (assign_xid (pg_server w3)).2 /\ evolves (pg_server w3) (assign_xid (pg_server w3)).2) as [Ha He] by apply assign_inv, H3.
  set (x := sv_next_xid (pg_server w3)) in *. set (s4 := MkServer _ _ _ _ _ _ _).
  change (assign_xid (pg_server w3)).2 with s4 in Ha, He.
  set (w4 := with_session _ _).
  assert (own_xid w4 = Some x) as Eo by (unfold own_xid, w4; simpl; by rewrite Hs3).
  assert (pg_inv w4) as Hw4.
  { destruct (server_step w3 s4 H3 Ha He) as [B1 B2 B3]; [by rewrite H5|]. split; [done| |done].
    intros z Hz. rewrite Eo in Hz. injection Hz as <-. unfold w4, s4. simpl. rewrite lookup_insert_eq. by eexists. }
  destruct (Rollback_inv w4 Hw4) as [H6 H7]. split; [done|].
  assert (later w w3) as Hl by (etrans; [exact H2|exact H4]).
  split; [transitivity w3; [exact Hl|]; transitivity w4; [exact He|exact H7]|].
  intros R [= <-]. pose proof (ii_completed _ (pi_ids _ H3)) as Hc. fold x in Hc. split; [lia|].
  unfold Rollback. rewrite Eo. unfold abort_xid, w4. cbn [pg_server with_session with_server]. unfold s4 at 1. cbn [sv_running].
  rewrite lookup_insert_eq. unfold fence_at. simpl. split; [lia|].
  split; [change (next_position (pg_server w) <= next_position (pg_server w3))%N; apply Hl|].
  intros y t [Hne [[<- _]|[? Ht]]%lookup_insert_Some]%lookup_delete_Some Hle; [done|].
  destruct (ii_run _ (pi_ids _ H3) y t Ht) as (? & _ & _). lia.
Qed.

Lemma safe_fenceCleared R w r w' :
  pg_inv w -> fenceCleared R w = (r, w') -> pg_inv w' /\ later w w' /\ pg_fenceR w' = pg_fenceR w /\ pg_boundL w' = pg_boundL w
    /\ (r = Ok true -> (R <= snapshot_xmin (pg_server w'))%N).
Proof.
  intros Hw. unfold fenceCleared, catch. destruct (ask _ w) as [[b|e] w1] eqn:E; destruct (reads_ask _ _ _ _ Hw E) as (H1 & H2 & _);
    intros [= <- <-].
  - apply ask_Ok in E as [-> ->]. split; [done|]. split; [done|]. split; [done|]. split; [done|].
    intros [= Hb]. by apply N.leb_le.
  - split; [done|]. split; [done|]. revert E. unfold ask, statement. destruct (fault _); [|done]. by intros [= _ <-].
Qed.

(** A positive bound is settled. *)
Lemma fenceBound_spec from w r w' :
  pg_inv w -> fenceBound from w = (r, w') -> pg_inv w' /\ later w w'
    /\ forall b, r = Ok b -> b = 0%N \/ exists F, settled (pg_server w') F /\ bound_ok F b.
Proof.
  intros Hw. unfold fenceBound. destruct (N.eqb_spec (pg_fenceR w) 0) as [HR|HR]; simpl.
  - unfold bind. destruct (readLastPosition w) as [[last|e] w1] eqn:E1.
    2:{ unfold readLastPosition in E1. destruct (reads_wrap _ _ (reads_ask _) _ _ _ Hw E1) as (H1 & H2 & _). by intros [= <- <-]. }
    assert (pg_inv w1 /\ later w w1) as [H1 H2] by (destruct (reads_wrap _ _ (reads_ask _) _ _ _ Hw E1) as (? & ? & _); done).
    unfold readLastPosition in E1. apply catch_Ok, ask_Ok in E1 as [_ El].
    destruct (last <=? from)%N; [intros [= <- <-]; split; [done|]; split; [done|]; intros b [= <-]; by left|].
    destruct (drawFence w1) as [[R|e] w2] eqn:E2; destruct (drawFence_spec _ _ _ H1 E2) as (H3 & H4 & HF).
    2:{ intros [= <- <-]. split; [done|]. split; [by etrans|done]. }
    destruct (HF R eq_refl) as [HR0 HFe]. destruct (fenceCleared R w2) as [[c|e] w3] eqn:E3;
      destruct (safe_fenceCleared _ _ _ _ H3 E3) as (H5 & H6 & _ & _ & Hc).
    2:{ intros [= <- <-]. split; [done|]. split; [etrans; [exact H2|]; by etrans|done]. }
    pose proof (fence_evolves _ _ _ _ H6 HFe) as HFe3. assert (later w w3) as Hl by (etrans; [exact H2|]; by etrans).
    destruct c; intros [= <- <-].
    + split; [done|]. split; [done|]. intros b [= <-]. right. exists (next_position (pg_server w1)).
      split; [by eapply fence_cleared; [|apply Hc]|]. rewrite El. apply last_value_bound.
    + split; [|split; [done|intros b [= <-]; by left]]. destruct H5 as [A1 A2 A3]. split; [done|done|].
      intros _. exists (next_position (pg_server w1)). split; [done|]. simpl. rewrite El. apply last_value_bound.
  - unfold bind. destruct (fenceCleared (pg_fenceR w) w) as [[c|e] w1] eqn:E1;
      destruct (safe_fenceCleared _ _ _ _ Hw E1) as (H1 & H2 & H3 & H4 & Hc); [|by intros [= <- <-]].
    destruct c; simpl; intros [= <- <-].
    + split; [destruct H1 as [A1 A2 A3]; split; done|]. split; [done|]. intros b [= <-]. right.
      destruct (pi_fence _ H1 ltac:(by rewrite H3)) as (F & HF & Hb). exists F. split; [|done].
      eapply fence_cleared; [exact HF|]. rewrite H3. by apply Hc.
    + split; [done|]. split; [done|]. intros b [= <-]. by left.
Qed.
End Worlds.

(** ** Sorted pages *)

(** Two duplicate-free lists with the same members sort to the same list. *)
Lemma order_by_members {A} (key : A -> N) (l m : list A) :
  NoDup l -> NoDup m -> (forall x, x ∈ l <-> x ∈ m) -> (forall x y, x ∈ l -> y ∈ l -> key x = key y -> x = y) ->
  order_by key l = order_by key m.
Proof.
  intros Hl Hm Hlm Hinj. assert (l ≡ₚ m) as HP by (by apply NoDup_Permutation).
  apply (StronglySorted_unique_strong (key_order key)).
  - intros a b Ha Hb Hab Hba. rewrite (order_by_perm key) in Ha, Hb. apply Hinj; [done|by apply Hlm|]. unfold key_order in *. lia.
  - apply StronglySorted_merge_sort; apply _.
  - apply StronglySorted_merge_sort; apply _.
  - by rewrite !order_by_perm.
Qed.

Lemma elem_of_order_by {A} (key : A -> N) l x : x ∈ order_by key l <-> x ∈ l.
Proof. by rewrite order_by_perm. Qed.

(** In a sorted list, what lies at or below a member's key is in any prefix that
    holds the member, when keys are distinct. *)
Lemma order_by_take {A} (key : A -> N) l k x y :
  (forall x y, x ∈ l -> y ∈ l -> key x = key y -> x = y) ->
  x ∈ take k (order_by key l) -> y ∈ l -> (key y <= key x)%N -> y ∈ take k (order_by key l).
Proof.
  intros Hinj Hx Hy Hle. rewrite <- (elem_of_order_by key) in Hy.
  rewrite <- (take_drop k (order_by key l)) in Hy. apply elem_of_app in Hy as [|Hy]; [done|].
  assert (StronglySorted (key_order key) (take k (order_by key l) ++ drop k (order_by key l))) as Hs
    by (rewrite take_drop; apply StronglySorted_merge_sort; apply _).
  apply StronglySorted_app in Hs as (Hs & _ & _). specialize (Hs x y Hx Hy). unfold key_order in Hs.
  assert (x = y) as <-; [|done]. apply Hinj; [| |lia].
  - rewrite <- (elem_of_order_by key), <- (take_drop k). apply elem_of_app. by left.
  - rewrite <- (elem_of_order_by key), <- (take_drop k). apply elem_of_app. by right.
Qed.

#[export] Hint Resolve reads_ret reads_throw reads_lift reads_ask reads_select reads_setWorkspace reads_queryDB reads_Now reads_newV7 reads_clock : pg.

(** The last of a sorted prefix is its largest. *)
Lemma order_by_last_max {A} (key : A -> N) l n m x :
  last (take n (order_by key l)) = Some m -> x ∈ take n (order_by key l) -> (key x <= key m)%N.
Proof.
  intros (l0 & Hl)%last_Some Hx. rewrite Hl in Hx.
  assert (StronglySorted (key_order key) (take n (order_by key l) ++ drop n (order_by key l))) as Hs
    by (rewrite take_drop; apply StronglySorted_merge_sort; apply _).
  apply StronglySorted_app in Hs as (_ & Hs & _). rewrite Hl in Hs. apply StronglySorted_app in Hs as (Hs & _ & _).
  apply elem_of_app in Hx as [Hx| ->%list_elem_of_singleton]; [|lia]. specialize (Hs x m Hx ltac:(by left)). exact Hs.
Qed.

(** ** Reading in a workspace *)

Section Reading.
Context {UL : UuidLib} {EV : Env} {PE : PgEnv}.

(** The transaction of a workspace-scoped read. *)
Definition scoped (ws : string) : session := MkSession None (Some ws) false.

Lemma table_scoped ws s : ws_part ws (table (scoped ws) s) = ws_part ws (sv_events s).
Proof.
  unfold ws_part, table, visible, scoped. cbn [ss_ws ss_xid ss_bypass]. rewrite app_nil_r, list_filter_filter. apply list_filter_iff.
  intros r. rewrite andb_false_l, orb_false_r. split; [by intros [? _]|]. intros <-. split; [done|by apply bool_decide_eq_true_2].
Qed.

Lemma stream_part_scoped ws sid s : stream_part ws sid (table (scoped ws) s) = stream_part ws sid (sv_events s).
Proof.
  unfold stream_part, table, visible, scoped. cbn [ss_ws ss_xid ss_bypass]. rewrite app_nil_r, list_filter_filter. apply list_filter_iff.
  intros r. rewrite andb_false_l, orb_false_r. split; [by intros [? _]|]. intros [<- ?]. split; [done|by apply bool_decide_eq_true_2].
Qed.

Lemma select_Ok {A} (f : list PgEvent -> A) ss w a w' :
  pg_session w = Some ss -> select f w = (Ok a, w') -> w' = interfere w /\ pg_session w' = Some ss /\ a = f (table ss (pg_server w')).
Proof. intros Hs. unfold select. rewrite Hs. intros [-> ->]%ask_Ok. done. Qed.

Lemma set_config_Ok f w w' : set_config f w = (Ok tt, w') ->
  w' = with_session (interfere w) (f <$> pg_session w).
Proof.
  unfold set_config. destruct (ask (fun _ => tt) w) as [[[]|e] w1] eqn:E; [|done]. apply ask_Ok in E as [-> _]. by intros [= <-].
Qed.

(** A successful read: its body ran in a scoped transaction, later. *)
Lemma in_ws_Ok {A} fail ws (body : PM A) w a w' :
  pg_inv w -> in_tx fail (let! _ := setWorkspace ws in body) w = (Ok a, w') ->
  exists w2 w3, pg_inv w2 /\ later w w2 /\ pg_session w2 = Some (scoped ws) /\ body w2 = (Ok a, w3) /\ w' = Rollback w3.
Proof.
  intros Hw. unfold in_tx. destruct (ask (fun _ => tt) w) as [[[]|e] w1] eqn:E; [|done].
  destruct (reads_ask _ _ _ _ Hw E) as (H1 & H2 & _). set (w1' := with_session w1 _).
  assert (pg_inv w1') as Hw1 by (destruct H1 as [A1 A2 A3]; split; done).
  unfold bind. destruct (setWorkspace ws w1') as [[[]|e] w2] eqn:E2; [|done].
  destruct (reads_setWorkspace ws _ _ _ Hw1 E2) as (H3 & H4 & _). apply set_config_Ok in E2.
  destruct (body w2) as [r w3] eqn:E3. intros [= -> <-]. exists w2, w3.
  split; [done|]. split; [etrans; [exact H2|exact H4]|]. split; [by rewrite E2|]. done.
Qed.

(** A read transaction leaves the server to the others. *)
Lemma Rollback_scoped ws w : pg_session w = Some (scoped ws) -> pg_server (Rollback w) = pg_server w.
Proof. intros Hs. unfold Rollback, own_xid. by rewrite Hs. Qed.

(** Nothing at or below [p] can be committed any more. *)
Definition closed (s : server) (p : N) : Prop :=
  forall s' r, ids_inv s' -> evolves s s' -> r ∈ sv_events s' -> (p_global_position r <= p)%N -> r ∈ sv_events s.

Lemma closed_0 s : closed s 0.
Proof. intros s' r Hi _ Hr Hle. pose proof (ii_pos _ Hi None r Hr). lia. Qed.

Lemma closed_evolves s s' p : evolves s s' -> closed s p -> closed s' p.
Proof.
  intros He Hc s'' r Hi He' Hr Hle. destruct (evolves_prefix _ _ He) as [K ->]. apply elem_of_app. left.
  apply (Hc s''); try done. by etrans.
Qed.

(** ** Pages *)

Variable maxPayloadBytes : Z.
Variable ws : string.

Lemma pg_select_page_Ok mb rows : forall acc total positions tr,
  pg_select_page maxPayloadBytes mb rows acc total = Ok (positions, tr) ->
  exists k, positions = acc ++ map p_global_position (take k rows).
Proof.
  induction rows as [|r rows IH]; intros acc total positions tr; cbn [pg_select_page].
  { intros [= <- <-]. exists O. by rewrite app_nil_r. }
  destruct (bool_decide (acc = []) && _ && _); [done|]. destruct (negb _ && _).
  { intros [= <- <-]. exists O. by rewrite app_nil_r. }
  intros (k & ->)%IH. exists (S k). by rewrite <- app_assoc.
Qed.

(** The consumed events of the workspace in a range of positions, in order. *)
Definition consumed_rows (types : list string) (from upto : N) (s : server) : list PgEvent :=
  order_by p_global_position
    (filter (fun r => (from < p_global_position r <= upto)%N /\ p_type_url r ∈ types) (ws_part ws (sv_events s))).

Lemma row_unique s r r' : ids_inv s -> r ∈ sv_events s -> r' ∈ sv_events s -> p_global_position r = p_global_position r' -> r = r'.
Proof. intros Hi Hr Hr' E. by destruct (ii_uniq _ Hi None None r r' Hr Hr' E). Qed.

Lemma ws_part_nodup s : ids_inv s -> NoDup (ws_part ws (sv_events s)).
Proof. intros Hi. apply NoDup_filter, (ii_nodup _ Hi). Qed.

Lemma elem_of_ws_part rows r : r ∈ ws_part ws rows <-> p_workspace_id r = ws /\ r ∈ rows.
Proof. unfold ws_part. by rewrite list_elem_of_filter. Qed.

(** A row at or below a committed position that was within a settled bound was
    committed already. *)
Lemma settled_member s s' F b p r :
  ids_inv s' -> settled s F -> bound_ok F b -> evolves s s' ->
  p ∈ sv_events s -> (p_global_position p <= b)%N -> r ∈ sv_events s' -> (p_global_position r <= p_global_position p)%N ->
  r ∈ sv_events s.
Proof.
  intros Hi' Hs Hb He Hp Hle Hr Hrle. pose proof He as [_ _ (K & HK & Hnew) _]. rewrite HK in Hr.
  apply elem_of_app in Hr as [|Hr]; [done|].
  assert (F <= p_global_position r)%N as HF.
  { destruct Hs as [Hs1 Hs2]. destruct (Hnew r Hr) as [?|(x & t & Hx & ?)]; [lia|]. specialize (Hs2 x t Hx). lia. }
  assert (r ∈ sv_events s') as Hr' by (rewrite HK; apply elem_of_app; by right).
  assert (p ∈ sv_events s') as Hp' by (rewrite HK; apply elem_of_app; by left).
  pose proof (ii_pos _ Hi' None r Hr'). destruct Hb as [?|[-> ->]]; [lia|].
  rewrite (row_unique s' r p); [done..|]. pose proof (ii_pos _ Hi' None p Hp'). lia.
Qed.

(** The two steps of a page: chosen at [s1], fetched at [s2], final for ever. *)
Lemma page_final s1 s2 s3 F b types from limit mb positions tr :
  ids_inv s1 -> ids_inv s2 -> ids_inv s3 -> settled s1 F -> bound_ok F b -> evolves s1 s2 -> evolves s2 s3 ->
  pg_select_page maxPayloadBytes mb (pg_page_rows ws from limit types b (sv_events s1)) [] 0 = Ok (positions, tr) ->
  forall p, last positions = Some p ->
  order_by p_global_position (filter (fun r => p_global_position r ∈ positions) (ws_part ws (sv_events s2)))
  = consumed_rows types from p s3.
Proof.
  intros I1 I2 I3 Hs Hb He12 He23 HP p Hp. apply pg_select_page_Ok in HP as (k & Hpos). simpl in Hpos.
  unfold pg_page_rows in Hpos. rewrite take_take in Hpos. set (n := (k `min` Z.to_nat limit)%nat) in *.
  set (A := filter _ (ws_part ws (sv_events s1))) in Hpos.
  assert (He13 : evolves s1 s3) by (by etrans).
  assert (forall x, x ∈ A <-> x ∈ sv_events s1 /\ p_workspace_id x = ws /\ (from < p_global_position x <= b)%N /\ p_type_url x ∈ types) as HA.
  { intros x. unfold A. rewrite list_elem_of_filter, elem_of_ws_part. tauto. }
  assert (forall x y, x ∈ A -> y ∈ A -> p_global_position x = p_global_position y -> x = y) as Hinj.
  { intros x y [Hx _]%HA [Hy _]%HA. by apply (row_unique s1). }
  assert (exists m, m ∈ take n (order_by p_global_position A) /\ p_global_position m = p
    /\ forall x, x ∈ take n (order_by p_global_position A) -> (p_global_position x <= p)%N) as (m & Hm & Em & Hmax).
  { rewrite Hpos, fmap_last in Hp. destruct (last (take n _)) as [m|] eqn:Hl; [|done]. injection Hp as <-. exists m.
    split; [by apply last_Some_elem_of|]. split; [done|]. intros x. by apply order_by_last_max. }
  assert (m ∈ A) as HmA.
  { rewrite <- (elem_of_order_by p_global_position), <- (take_drop n). apply elem_of_app. by left. }
  pose proof (proj1 (HA m) HmA) as (Hm1 & _ & Hmb & _).
  assert (forall x, x ∈ sv_events s1 -> x ∈ sv_events s2) as H12 by (intros x Hx; destruct (evolves_prefix _ _ He12) as [K ->]; apply elem_of_app; by left).
  assert (forall x, x ∈ sv_events s2 -> x ∈ sv_events s3) as H23 by (intros x Hx; destruct (evolves_prefix _ _ He23) as [K ->]; apply elem_of_app; by left).
  unfold consumed_rows. apply order_by_members.
  - by apply NoDup_filter, ws_part_nodup.
  - by apply NoDup_filter, ws_part_nodup.
  - intros x. rewrite !list_elem_of_filter, !elem_of_ws_part, Hpos. split.
    + intros [(y & Ey & Hy)%list_elem_of_fmap [Hws Hx]].
      assert (y ∈ A) as HyA by (rewrite <- (elem_of_order_by p_global_position), <- (take_drop n); apply elem_of_app; by left).
      pose proof (proj1 (HA y) HyA) as (Hy1 & _ & Hyb & Hyt). assert (x = y) as -> by (apply (row_unique s2); auto).
      specialize (Hmax y Hy). split; [split; [lia|done]|]. auto.
    + intros [[Hx1 Hx2] [Hws Hx]].
      assert (x ∈ sv_events s1) as Hxs1 by (eapply (settled_member s1 s3 F b m x); auto; lia).
      split; [|auto]. apply list_elem_of_fmap_2. apply (order_by_take _ _ _ m x Hinj Hm); [|lia]. apply HA. split; [done|]. split; [done|].
      split; [lia|done].
  - intros x y [_ [_ Hx]%elem_of_ws_part]%list_elem_of_filter [_ [_ Hy]%elem_of_ws_part]%list_elem_of_filter. by apply (row_unique s2).
Qed.

(** Scanning keeps positions. *)
Lemma scan_position r e : pg_scanEnvelope r = Ok e -> GlobalPosition e = p_global_position r.
Proof. unfold pg_scanEnvelope. destruct (ParseCanonical _); [|done]. by intros [= <-]. Qed.

Lemma scan_last rows page e : result_map pg_scanEnvelope rows = Ok page -> last page = Some e ->
  exists r, last rows = Some r /\ p_global_position r = GlobalPosition e.
Proof.
  intros HF%result_map_Ok (l & ->)%last_Some. apply Forall2_app_inv_r in HF as (r1 & r2 & _ & HF2 & ->).
  apply Forall2_cons_inv_r in HF2 as (r & k & Hr & Hk & ->). apply Forall2_nil_inv_r in Hk as ->.
  exists r. rewrite last_snoc. split; [done|]. symmetry. by apply scan_position.
Qed.

Lemma consumed_rows_last types from p s r :
  last (consumed_rows types from p s) = Some r -> (p_global_position r <= p)%N.
Proof.
  intros Hr%last_Some_elem_of. unfold consumed_rows in Hr. rewrite elem_of_order_by in Hr.
  apply list_elem_of_filter in Hr as [[? _] _]. lia.
Qed.

(** A page names its own end. *)
Lemma pg_page_end s1 s2 F b types from limit mb positions tr p r :
  ids_inv s1 -> ids_inv s2 -> settled s1 F -> bound_ok F b -> evolves s1 s2 ->
  pg_select_page maxPayloadBytes mb (pg_page_rows ws from limit types b (sv_events s1)) [] 0 = Ok (positions, tr) ->
  last positions = Some p ->
  last (order_by p_global_position (filter (fun r => p_global_position r ∈ positions) (ws_part ws (sv_events s2)))) = Some r ->
  p_global_position r = p.
Proof.
  intros I1 I2 Hs Hb He HP Hp Hr.
  pose proof (page_final s1 s2 s2 F b types from limit mb positions tr I1 I2 I2 Hs Hb He (evolves_refl _) HP p Hp) as HE.
  rewrite HE in Hr. pose proof (consumed_rows_last _ _ _ _ _ Hr) as Hle. rewrite <- HE in Hr.
  assert (p_global_position r ∈ positions) as Hin.
  { apply last_Some_elem_of in Hr. rewrite elem_of_order_by in Hr. by apply list_elem_of_filter in Hr as [? _]. }
  apply pg_select_page_Ok in HP as (k & Hpos). simpl in Hpos. rewrite Hpos in Hp. rewrite fmap_last in Hp.
  destruct (last (take k _)) as [m|] eqn:Hl; [|done]. injection Hp as <-.
  assert (m ∈ ws_part ws (sv_events s2)) as Hm.
  { apply last_Some_elem_of in Hl. unfold pg_page_rows in Hl. rewrite take_take in Hl.
    assert (m ∈ order_by p_global_position (filter (fun r => (from < p_global_position r <= b)%N /\ p_type_url r ∈ types) (ws_part ws (sv_events s1)))) as Hm0
      by (rewrite <- (take_drop (k `min` Z.to_nat limit)); apply elem_of_app; by left).
    rewrite elem_of_order_by in Hm0. apply list_elem_of_filter in Hm0 as [_ [Hw Hm0]%elem_of_ws_part]. apply elem_of_ws_part. split; [done|].
    destruct (evolves_prefix _ _ He) as [K ->]. apply elem_of_app. by left. }
  assert (p_global_position m <= p_global_position r)%N; [|lia].
  set (l := filter (fun r => p_global_position r ∈ positions) (ws_part ws (sv_events s2))) in *.
  apply (order_by_last_max p_global_position l (length (order_by p_global_position l))); [by rewrite take_ge by lia|].
  rewrite take_ge by lia. rewrite elem_of_order_by. apply list_elem_of_filter. split; [|done]. rewrite Hpos. apply list_elem_of_fmap_2.
  by apply last_Some_elem_of.
Qed.

(** The last position of a page is a committed row's, within the bound. *)
Lemma page_row s1 types from limit mb b positions tr p :
  pg_select_page maxPayloadBytes mb (pg_page_rows ws from limit types b (sv_events s1)) [] 0 = Ok (positions, tr) ->
  last positions = Some p -> exists m, m ∈ sv_events s1 /\ p_global_position m = p /\ (p_global_position m <= b)%N.
Proof.
  intros HP Hp. apply pg_select_page_Ok in HP as (k & Hpos). simpl in Hpos. rewrite Hpos, fmap_last in Hp.
  destruct (last (take k _)) as [m|] eqn:Hl; [|done]. injection Hp as <-. exists m.
  apply last_Some_elem_of in Hl. unfold pg_page_rows in Hl. rewrite take_take in Hl.
  assert (m ∈ order_by p_global_position (filter (fun r => (from < p_global_position r <= b)%N /\ p_type_url r ∈ types) (ws_part ws (sv_events s1)))) as Hm0
    by (rewrite <- (take_drop (k `min` Z.to_nat limit)); apply elem_of_app; by left).
  rewrite elem_of_order_by in Hm0. apply list_elem_of_filter in Hm0 as [[Hb _] [_ Hm]%elem_of_ws_part]. split; [done|]. split; [done|lia].
Qed.

(** What a page call returns stays what the log holds, and nothing at or below
    its last position can be committed any more. *)
Lemma ReadAllBounded_final from limit mb types w page tr w' :
  pg_inv w -> pg_ReadAllBounded maxPayloadBytes ws from limit mb types w = (Ok (page, tr), w') ->
  forall e, last page = Some e -> closed (pg_server w') (GlobalPosition e)
    /\ forall s, ids_inv s -> evolves (pg_server w') s ->
       result_map pg_scanEnvelope (consumed_rows types from (GlobalPosition e) s) = Ok page.
Proof.
  intros Hw HR e He. unfold pg_ReadAllBounded in HR. destruct (bool_decide (types = [])); [by injection HR as <-|].
  apply bind_Ok in HR as (b & w1 & HF & HR). destruct (fenceBound_spec _ _ _ _ Hw HF) as (Hw1 & _ & Hb).
  destruct (N.leb_spec b from) as [|Hlt]; [by injection HR as <-|].
  destruct (Hb b eq_refl) as [->|(F & HF1 & HFb)]; [lia|].
  apply in_ws_Ok in HR as (w2 & w3 & Hw2 & Hl2 & Hss2 & HR & ->); [|done].
  apply bind_Ok in HR as (fr & wa & Hfr & HR). injection Hfr as _ <-.
  apply bind_Ok in HR as (rows & w4 & Hrows & HR).
  destruct (reads_select _ _ _ _ Hw2 Hrows) as (Hw4 & Hl4 & _). destruct (select_Ok _ _ _ _ _ Hss2 Hrows) as (_ & Hss4 & ->).
  apply bind_Ok in HR as ([positions trunc] & wb & Hsel & HR). injection Hsel as Hsel <-. cbv beta iota in HR.
  case_bool_decide as Hnil; [by injection HR as <-|].
  apply bind_Ok in HR as (out & w5 & Hout & HR). injection HR as <- <- <-.
  apply bind_Ok in Hout as (rows2 & w6 & Hq & Hscan). injection Hscan as Hscan <-.
  destruct (reads_select _ _ _ _ Hw4 Hq) as (Hw6 & Hl6 & _). destruct (select_Ok _ _ _ _ _ Hss4 Hq) as (_ & Hss6 & ->).
  rewrite (Rollback_scoped ws) by done. rewrite table_scoped in Hscan.
  assert (pg_page_rows ws from (if (limit <=? 0)%Z then 100%Z else limit) types b (table (scoped ws) (pg_server w4))
    = pg_page_rows ws from (if (limit <=? 0)%Z then 100%Z else limit) types b (sv_events (pg_server w4))) as Ep
    by (unfold pg_page_rows; by rewrite table_scoped).
  rewrite Ep in Hsel.
  assert (settled (pg_server w4) F) as Hset by (eapply settled_evolves; [|exact HF1]; etrans; [exact Hl2|exact Hl4]).
  destruct (last positions) as [p|] eqn:Hp; [|by apply last_None in Hp].
  destruct (scan_last _ _ _ Hscan He) as (r & Hr & <-).
  rewrite (pg_page_end _ _ _ _ _ _ _ _ _ _ _ _ (pi_ids _ Hw4) (pi_ids _ Hw6) Hset HFb Hl6 Hsel Hp Hr).
  split.
  - destruct (page_row _ _ _ _ _ _ _ _ _ Hsel Hp) as (m & Hm & <- & Hmb). apply (closed_evolves (pg_server w4)); [exact Hl6|].
    intros s' r' Hs' He' Hr' Hle. by apply (settled_member (pg_server w4) s' F b m r').
  - intros s Hs Hev. rewrite <- (page_final _ _ s _ _ _ _ _ _ _ _ (pi_ids _ Hw4) (pi_ids _ Hw6) Hs Hset HFb Hl6 Hev Hsel p Hp). done.
Qed.
End Reading.
