(* ===== verification/PgLog.v ===== *)
(** * The content of the PostgreSQL log

    Rows are the stored forms of envelopes; the committed rows of a stream, and
    the committed rows followed by those of any one open transaction, are
    numbered from 1, chained and ordered by the time they were recorded.  Every
    step of a session keeps this, because of the two unique constraints. *)
From S2P Require Import Prelude Sha256 Es Hash Chain Anchor Timestamp Effect Store Sql Sqlite SqliteCorrect.
From S2P Require Import PgServer PgServerCorrect PgStore PgFence.

Section Content.
Context {UL : UuidLib} {EV : Env} {PE : PgEnv}.

Definition pg_stored (e : Envelope) : PgEvent := pg_row e (GlobalPosition e).

Record pg_wf (e : Envelope) : Prop := {
  pw_sid : Validate (env_StreamID e) = Ok tt;
  pw_version : (Version e <= max_int64)%N;
  pw_occurred : TruncateMicros (OccurredAt e) = OccurredAt e;
  pw_recorded : TruncateMicros (RecordedAt e) = RecordedAt e
}.

Lemma pg_scan_stored e : pg_wf e -> pg_scanEnvelope (pg_stored e) = Ok e.
Proof.
  intros [Hv _ Ho Hr]. unfold pg_scanEnvelope, pg_stored. simpl. rewrite Parse_Canonical by done. simpl.
  rewrite !uuid_Parse_String, Ho, Hr. by destruct e as [? ? ? ? ? ? ? ? ? ? ? ? []].
Qed.

(** The envelope a row stands for. *)
Definition no_envelope : Envelope :=
  MkEnvelope uuid_Nil (MkStreamID "" "") 0 0 EmptyString EmptyString 0 zero_time zero_time uuid_Nil uuid_Nil uuid_Nil (MkActor "" "") [] None None.
Definition row_env (r : PgEvent) : Envelope := match pg_scanEnvelope r with Ok e => e | Err _ => no_envelope end.

Lemma row_env_stored e : pg_wf e -> row_env (pg_stored e) = e.
Proof. intros Hw. unfold row_env. by rewrite pg_scan_stored. Qed.

(** A row of the log at time [now]. *)
Definition good_row (now : time) (r : PgEvent) : Prop :=
  exists e, pg_wf e /\ r = pg_stored e /\ (RecordedAt e <= now)%Z.

Lemma scan_good now rows : (forall r, r ∈ rows -> good_row now r) -> result_map pg_scanEnvelope rows = Ok (map row_env rows).
Proof.
  intros Hg. apply result_map_Ok. induction rows as [|r rows IH]; simpl; constructor.
  - destruct (Hg r ltac:(by left)) as (e & Hw & -> & _). by rewrite row_env_stored, pg_scan_stored.
  - apply IH. intros x Hx. apply Hg. by right.
Qed.

(** ** Lines *)

(** The envelopes of one stream of one workspace, in list order. *)
Definition line (ws : string) (sid : StreamID) (rows : list PgEvent) : list Envelope :=
  map row_env (stream_part ws (Canonical sid) rows).

Lemma line_app ws sid l1 l2 : line ws sid (l1 ++ l2) = line ws sid l1 ++ line ws sid l2.
Proof. unfold line, stream_part. by rewrite filter_app, map_app. Qed.

Record good_line (sid : StreamID) (l : list Envelope) : Prop := {
  gl_versions : numbered Version 1%N l;
  gl_chain : chain_ok zero_time sid None l;
  gl_times : StronglySorted (fun a b => RecordedAt a <= RecordedAt b)%Z l
}.

Lemma good_line_nil sid : good_line sid [].
Proof. split; [done|done|constructor]. Qed.

Lemma good_line_prefix sid l1 l2 : good_line sid (l1 ++ l2) -> good_line sid l1.
Proof.
  intros [H1 H2 H3]. apply numbered_app in H1 as [H1 _]. apply chain_ok_app in H2 as [H2 _].
  apply StronglySorted_app in H3 as (_ & H3 & _). by split.
Qed.

(** What the next event of a line must be. *)
Record next_of (l : list Envelope) (e : Envelope) : Prop := {
  nx_version : Version e = (N.of_nat (length l) + 1)%N;
  nx_prev : PrevHash e = Some (line_prev (env_StreamID e) l);
  nx_hash : Hash e = Some (EnvelopeHash e);
  nx_time : forall a, a ∈ l -> (RecordedAt a <= RecordedAt e)%Z
}.

Lemma good_line_snoc l e :
  good_line (env_StreamID e) l -> next_of l e -> (Version e <= max_int64)%N -> good_line (env_StreamID e) (l ++ [e]).
Proof.
  intros [H1 H2 H3] [N1 N2 N3 N4] Hm. split.
  - apply numbered_app. split; [done|]. simpl. split; [lia|done].
  - apply chain_ok_app. split; [done|]. split; [|done].
    replace (match last l with Some e => Some e | None => None end) with (last l) by (by destruct (last l)).
    apply check_next; try done. lia.
  - apply StronglySorted_app. split; [|by split; [done|repeat constructor]]. by intros x y Hx ->%list_elem_of_singleton; auto.
Qed.

(** ** The invariant *)

Record log_ok (now : time) (s : server) : Prop := {
  lo_rows : forall o r, row_at s o r -> good_row now r;
  lo_base : forall ws sid, Validate sid = Ok tt -> good_line sid (line ws sid (sv_events s));
  lo_run : forall x t ws sid, sv_running s !! x = Some t -> Validate sid = Ok tt -> good_line sid (line ws sid (sv_events s ++ t_rows t));
  lo_cross : forall x y t u ws sid, Validate sid = Ok tt -> x <> y -> sv_running s !! x = Some t -> sv_running s !! y = Some u ->
    line ws sid (t_rows t) = [] \/ line ws sid (t_rows u) = []
}.

Lemma good_row_mono now now' r : (now <= now')%Z -> good_row now r -> good_row now' r.
Proof. intros Hn (e & Hw & -> & Ht). exists e. split; [done|]. split; [done|lia]. Qed.

Lemma log_ok_mono now now' s : (now <= now')%Z -> log_ok now s -> log_ok now' s.
Proof. intros Hn [L1 L2 L3 L4]. split; try done. intros o r Hr. eapply good_row_mono; [done|by eapply L1]. Qed.

Lemma log_ok_empty now : log_ok now empty_server.
Proof.
  split; simpl.
  - intros [x|] r Hr; unfold row_at, own_rows in Hr; simpl in Hr; rewrite ?lookup_empty in Hr; by apply not_elem_of_nil in Hr.
  - intros. apply good_line_nil.
  - intros x t ws sid Hx. by rewrite lookup_empty in Hx.
  - intros x y t u ws sid _ _ Hx. by rewrite lookup_empty in Hx.
Qed.

(** Steps that keep the rows. *)
Lemma log_ok_same now s s' :
  sv_events s' = sv_events s ->
  (forall x t', sv_running s' !! x = Some t' -> t_rows t' = [] \/ exists t, sv_running s !! x = Some t /\ t_rows t' = t_rows t) ->
  log_ok now s -> log_ok now s'.
Proof.
  intros E1 E2 [L1 L2 L3 L4]. split.
  - intros [x|] r; unfold row_at, own_rows; rewrite ?E1; [|by apply (L1 None)].
    destruct (sv_running s' !! x) as [t'|] eqn:Hx; [|by intros ?%not_elem_of_nil].
    destruct (E2 x t' Hx) as [->|(t & Ht & ->)]; [by intros ?%not_elem_of_nil|]. intros Hr. apply (L1 (Some x)).
    unfold row_at, own_rows. by rewrite Ht.
  - rewrite E1. exact L2.
  - intros x t' ws sid Hx Hv. rewrite E1. destruct (E2 x t' Hx) as [->|(t & Ht & ->)]; [rewrite app_nil_r; by apply L2|by eapply L3].
  - intros x y t' u' ws sid Hv Hne Hx Hy.
    destruct (E2 x t' Hx) as [->|(t & Ht & ->)]; [by left|]. destruct (E2 y u' Hy) as [->|(u & Hu & ->)]; [by right|by eapply L4].
Qed.

Lemma log_ok_abort now x s : log_ok now s -> log_ok now (abort_xid x s).
Proof.
  intros Hl. unfold abort_xid. destruct (sv_running s !! x); [|done]. apply (log_ok_same now s); simpl; try done.
  intros y t' [_ Ht]%lookup_delete_Some. eauto.
Qed.

Lemma log_ok_commit now x s : log_ok now s -> log_ok now (commit_xid x s).
Proof.
  intros Hl. unfold commit_xid. destruct (sv_running s !! x) as [t|] eqn:Hx; [|done]. destruct Hl as [L1 L2 L3 L4]. split; simpl.
  - intros [y|] r; unfold row_at, own_rows; simpl.
    + destruct (decide (y = x)) as [->|Hy]; [rewrite lookup_delete_eq; by intros ?%not_elem_of_nil|].
      rewrite lookup_delete_ne by done. apply (L1 (Some y)).
    + intros [Hr|Hr]%elem_of_app; [by apply (L1 None)|]. apply (L1 (Some x)). unfold row_at, own_rows. by rewrite Hx.
  - intros ws sid. by eapply L3.
  - intros y u ws sid [Hne Hu]%lookup_delete_Some Hv. rewrite !line_app.
    destruct (L4 x y t u ws sid Hv Hne Hx Hu) as [E|E]; rewrite E, app_nil_r.
    + rewrite <- line_app. by eapply L3.
    + rewrite <- line_app. by eapply L3.
  - intros y z u v ws sid Hvs Hne [_ Hu]%lookup_delete_Some [_ Hv]%lookup_delete_Some. by eapply L4.
Qed.

(** The first row of an open transaction in a stream carries the version after
    the committed ones. *)
Lemma open_line_first now s x t ws sid e l :
  log_ok now s -> sv_running s !! x = Some t -> Validate sid = Ok tt -> line ws sid (t_rows t) = e :: l ->
  Version e = (N.of_nat (length (line ws sid (sv_events s))) + 1)%N.
Proof.
  intros Hl Hx Hv E. pose proof (gl_versions _ _ (lo_run _ _ Hl x t ws sid Hx Hv)) as Hn.
  rewrite line_app, E, numbered_app in Hn. destruct Hn as [_ [Hn _]]. lia.
Qed.

Lemma line_elem now ws sid rows e :
  (forall r, r ∈ rows -> good_row now r) -> Validate sid = Ok tt -> e ∈ line ws sid rows ->
  pg_stored e ∈ rows /\ pg_wf e /\ env_StreamID e = sid /\ Workspace e = ws /\ (RecordedAt e <= now)%Z.
Proof.
  intros Hg Hv (r & -> & [[Hw Hs] Hr]%list_elem_of_filter)%list_elem_of_fmap.
  destruct (Hg r Hr) as (e & He & -> & Ht). rewrite row_env_stored by done. simpl in Hw, Hs.
  split; [done|]. split; [done|]. split; [|done]. by apply Canonical_inj in Hs; [|apply He|].
Qed.

Lemma clashes_false r rows r' : clashes r rows = false -> r' ∈ rows -> same_version r' r = false /\ same_event r' r = false.
Proof.
  intros Hc Hr. unfold clashes in Hc. apply orb_false_iff. apply not_true_iff_false. intros Ht.
  apply not_true_iff_false in Hc. apply Hc, existsb_exists. exists r'. split; [by apply list_elem_of_In|done].
Qed.

Lemma same_version_true e e' gp gp' :
  Workspace e = Workspace e' -> env_StreamID e = env_StreamID e' -> Version e = Version e' -> same_version (pg_row e gp) (pg_row e' gp') = true.
Proof.
  intros E1 E2 E3. unfold same_version. simpl. rewrite E1, E2, E3, !bool_decide_eq_true_2 by done. simpl. apply N.eqb_refl.
Qed.

Lemma elem_of_other_rows x y t r s : x <> y -> sv_running s !! y = Some t -> r ∈ t_rows t -> r ∈ other_rows x s.
Proof.
  intros Hne Hy Hr. unfold other_rows, others. apply list_elem_of_In, in_concat. exists (t_rows t).
  split; [|by apply list_elem_of_In]. apply list_elem_of_In, list_elem_of_fmap. exists t. split; [done|].
  apply list_elem_of_fmap. exists (y, t). split; [done|]. apply elem_of_map_to_list. by rewrite lookup_delete_ne.
Qed.

Lemma with_position_wf e gp : pg_wf e -> pg_wf (with_position e gp).
Proof. by intros []. Qed.

(** A new row in an open transaction. *)
Lemma store_log now x t e gp s s2 :
  log_ok now s -> sv_running s !! x = Some t -> pg_wf e -> (RecordedAt e <= now)%Z ->
  next_of (line (Workspace e) (env_StreamID e) (sv_events s ++ t_rows t)) e ->
  store_row x (pg_row e gp) s = (Ok gp, s2) ->
  log_ok now s2 /\ sv_events s2 = sv_events s /\ own_rows x s2 = t_rows t ++ [pg_stored (with_position e gp)].
Proof.
  intros Hl Hx Hw Ht Hnx. unfold store_row.
  destruct (clashes _ (sv_events s ++ _)) eqn:Hc1; [done|]. destruct (clashes _ (other_rows x s)) eqn:Hc2; [done|]. intros [= <-].
  change (pg_row e gp) with (pg_stored (with_position e gp)). set (e' := with_position e gp). set (row := pg_stored e').
  assert (pg_wf e') as Hw' by (by apply with_position_wf).
  assert (forall ws sid, Validate sid = Ok tt -> line ws sid [row] = if bool_decide (ws = Workspace e /\ sid = env_StreamID e) then [e'] else []) as Hline.
  { intros ws sid Hv. unfold line, stream_part. rewrite filter_cons. case_decide as Hd; simpl in Hd.
    - destruct Hd as [<- Hs]. apply Canonical_inj in Hs; [|apply Hw|done]. rewrite bool_decide_eq_true_2 by done.
      simpl. unfold row. by rewrite row_env_stored.
    - rewrite bool_decide_eq_false_2; [done|]. intros [-> ->]. by apply Hd. }
  assert (forall ws sid, Validate sid = Ok tt -> good_line sid (line ws sid (sv_events s ++ t_rows t ++ [row]))) as Hgood.
  { intros ws sid Hv. rewrite app_assoc, line_app, Hline by done. case_bool_decide as Hd.
    - destruct Hd as [-> ->]. apply (good_line_snoc _ e'); [by eapply lo_run|by destruct Hnx; split|apply Hw].
    - rewrite app_nil_r. by eapply lo_run. }
  assert (forall y u ws sid, Validate sid = Ok tt -> y <> x -> sv_running s !! y = Some u -> line ws sid (t_rows t ++ [row]) = [] \/ line ws sid (t_rows u) = []) as Hcross.
  { intros y u ws sid Hv Hne Hu. destruct (lo_cross _ _ Hl x y t u ws sid Hv ltac:(done) Hx Hu) as [E|]; [|by right].
    rewrite line_app, E, Hline by done. simpl. case_bool_decide as Hd; [|by left]. destruct Hd as [-> ->].
    destruct (line (Workspace e) (env_StreamID e) (t_rows u)) as [|f l] eqn:Hf; [by right|]. exfalso.
    pose proof (open_line_first _ _ _ _ _ _ _ _ Hl Hu Hv Hf) as Hver.
    assert (forall r, r ∈ t_rows u -> good_row now r) as Hgu by (intros r Hr; apply (lo_rows _ _ Hl (Some y)); unfold row_at, own_rows; by rewrite Hu).
    destruct (line_elem now (Workspace e) (env_StreamID e) (t_rows u) f Hgu Hv) as (Hin & _ & Hfs & Hfw & _); [rewrite Hf; by left|].
    pose proof (elem_of_other_rows x y u _ s ltac:(done) Hu Hin) as Hoth.
    destruct (clashes_false _ _ _ Hc2 Hoth) as [Hsv _]. unfold pg_stored in Hsv. rewrite same_version_true in Hsv; [done|done|done|].
    rewrite Hver. pose proof (nx_version _ _ Hnx) as Hv2. rewrite line_app, E, app_nil_r in Hv2. congruence. }
  split; [|split; [done|]]; [|unfold own_rows, update_txn; simpl; by rewrite lookup_alter_eq, Hx].
  split; simpl.
  - intros [y|] r; unfold row_at, own_rows; simpl; [|by apply (lo_rows _ _ Hl None)]. destruct (decide (y = x)) as [->|Hy].
    + rewrite lookup_alter_eq, Hx. simpl. intros [Hr| ->%list_elem_of_singleton]%elem_of_app.
      * apply (lo_rows _ _ Hl (Some x)). unfold row_at, own_rows. by rewrite Hx.
      * exists e'. done.
    + rewrite lookup_alter_ne by done. apply (lo_rows _ _ Hl (Some y)).
  - apply (lo_base _ _ Hl).
  - intros y u ws sid [(-> & t0 & Ht0 & ->)|[? Hu]]%lookup_alter_Some Hv; [|by eapply lo_run].
    rewrite Hx in Ht0. injection Ht0 as <-. by apply Hgood.
  - intros y z u v ws sid Hvs Hne Hy Hz. apply lookup_alter_Some in Hy, Hz.
    destruct Hy as [(<- & t0 & Ht0 & ->)|[Hyx Hu]], Hz as [(<- & t1 & Ht1 & ->)|[Hzx Hv]]; [done| | |by eapply (lo_cross _ _ Hl y z)].
    + rewrite Hx in Ht0. injection Ht0 as <-. by apply (Hcross z).
    + rewrite Hx in Ht1. injection Ht1 as <-. destruct (Hcross y u ws sid) as [E|E]; auto.
Qed.

(** ** The head an append reads *)

Lemma stream_part_line now ws sid rows :
  (forall r, r ∈ rows -> good_row now r) -> stream_part ws (Canonical sid) rows = map pg_stored (line ws sid rows).
Proof.
  intros Hg. unfold line. rewrite map_map. rewrite <- (map_id (stream_part ws (Canonical sid) rows)) at 1.
  apply map_ext_in. intros r Hr%list_elem_of_In. apply list_elem_of_filter in Hr as [_ Hr].
  destruct (Hg r Hr) as (e & He & -> & _). by rewrite row_env_stored.
Qed.

Lemma stream_head_line now ws sid rows :
  (forall r, r ∈ rows -> good_row now r) -> numbered Version 1%N (line ws sid rows) ->
  stream_head ws (Canonical sid) rows = pg_stored <$> last (line ws sid rows).
Proof.
  intros Hg Hn. unfold stream_head. rewrite (stream_part_line now) by done. rewrite order_by_sorted; [apply fmap_last|].
  eapply sorted_map; [|eapply numbered_sorted, Hn]. done.
Qed.

Lemma chain_head_line sid l :
  good_line sid l -> chain_head sid (pg_stored <$> last l) = (N.of_nat (length l), line_prev sid l).
Proof.
  intros [H1 H2 H3]. unfold chain_head, line_prev. destruct (last l) as [e|] eqn:Hl; simpl; [|by apply last_None in Hl as ->].
  pose proof (numbered_last _ _ _ _ H1 Hl) as Hv. replace (Version e) with (N.of_nat (length l)) by lia.
  destruct (Hash e) as [h|] eqn:Hh; [|done].
  by rewrite (chain_hash_length _ _ _ _ _ H2 (last_Some_elem_of _ _ Hl) Hh), Nat.eqb_refl.
Qed.

Lemma sorted_last_max l e a : StronglySorted (fun a b => RecordedAt a <= RecordedAt b)%Z l -> last l = Some e -> a ∈ l ->
  (RecordedAt a <= RecordedAt e)%Z.
Proof.
  intros Hs (l0 & ->)%last_Some Ha. apply StronglySorted_app in Hs as (Hs & _ & _).
  apply elem_of_app in Ha as [Ha| ->%list_elem_of_singleton]; [|lia]. apply (Hs a e Ha). by left.
Qed.

(** The discipline of the other sessions' appends. *)
Lemma follows_next now rows e :
  (forall r, r ∈ rows -> good_row now r) -> (Validate (env_StreamID e) = Ok tt -> good_line (env_StreamID e) (line (Workspace e) (env_StreamID e) rows)) ->
  follows rows e = true -> pg_wf e /\ next_of (line (Workspace e) (env_StreamID e) rows) e.
Proof.
  intros Hg Hl. unfold follows. destruct (Validate_cases (env_StreamID e)) as [Hv|Hv].
  2:{ destruct (chain_head _ _). rewrite Hv. done. }
  specialize (Hl Hv). rewrite (stream_head_line now) by (done || apply Hl). rewrite chain_head_line by done. rewrite !andb_true_iff.
  intros (((((((_ & HV%N.eqb_eq) & Hm%N.leb_le) & HP%bool_decide_eq_true) & HH%bool_decide_eq_true) & Ht) & Hr%Z.eqb_eq) & Ho%Z.eqb_eq).
  split; [by split|]. split; try done. intros a Ha. destruct (last (line (Workspace e) (env_StreamID e) rows)) as [b|] eqn:Hb.
  - simpl in Ht. apply Z.leb_le in Ht. pose proof (sorted_last_max _ _ _ (gl_times _ _ Hl) Hb Ha). lia.
  - apply last_None in Hb. rewrite Hb in Ha. by apply not_elem_of_nil in Ha.
Qed.

Lemma log_ok_update now x f s :
  (forall t, t_rows (f t) = t_rows t) -> log_ok now s -> log_ok now (update_txn x f s).
Proof.
  intros Hf. apply log_ok_same; [done|]. intros y t' Hy. simpl in Hy. apply lookup_alter_Some in Hy as [(-> & t & Ht & ->)|[_ Ht]]; eauto.
Qed.

Lemma log_ok_nextval now s r s' : nextval s = (r, s') -> log_ok now s -> log_ok now s'.
Proof.
  intros HN. destruct (nextval_cases _ _ _ HN) as [[-> _]|(_ & _ & _ & E1 & E2 & _)]; [done|].
  apply log_ok_same; [done|]. rewrite E2. eauto.
Qed.

Lemma log_ok_assign now s : log_ok now s -> log_ok now (assign_xid s).2.
Proof.
  apply log_ok_same; [done|]. intros y t' Hy. simpl in Hy. apply lookup_insert_Some in Hy as [[<- <-]|[_ Ht]]; [by left|eauto].
Qed.

Lemma rows_good now s x t : log_ok now s -> sv_running s !! x = Some t -> forall r, r ∈ sv_events s ++ t_rows t -> good_row now r.
Proof.
  intros Hl Hx r [Hr|Hr]%elem_of_app; [by apply (lo_rows _ _ Hl None)|]. apply (lo_rows _ _ Hl (Some x)). unfold row_at, own_rows. by rewrite Hx.
Qed.

Lemma apply_move_log now m s : log_ok now s -> log_ok now (apply_move pg_row follows now m s).
Proof.
  intros Hl. destruct m as [|x e| |x k sid|x k sid|x ps|x ps t|x|x]; simpl.
  - by apply log_ok_assign.
  - destruct (_ && _ && _) eqn:Hc; [|done]. apply andb_true_iff in Hc as [[[t Hx]%bool_decide_eq_true Ht%Z.leb_le]%andb_true_iff Hf].
    destruct (nextval s) as [[gp|er] s1] eqn:HN; [|by eapply log_ok_nextval].
    pose proof (log_ok_nextval _ _ _ _ HN Hl) as Hl1. destruct (nextval_cases _ _ _ HN) as [[_ ?]|(_ & _ & _ & E1 & E2 & _)]; [done|].
    destruct (store_row x (pg_row e gp) s1) as [res s2] eqn:HS. destruct res as [gp'|er].
    + assert (gp' = gp) as -> by (revert HS; unfold store_row; repeat (case_match; try done); by intros [= <- _]).
      unfold own_rows in Hf. rewrite Hx in Hf.
      destruct (follows_next now _ _ (rows_good _ _ _ _ Hl Hx) (lo_run _ _ Hl x t _ _ Hx) Hf) as [Hw Hnx].
      eapply (store_log now x t e gp s1); try done; [by rewrite E2|by rewrite E1].
    + revert HS. unfold store_row. repeat (case_match; try done); intros [= _ <-]; done.
  - destruct (nextval s) as [r s1] eqn:HN. by eapply log_ok_nextval.
  - destruct (bool_decide _); [|done]. unfold insert_claim_row. repeat (case_match; [done|]). by apply log_ok_update.
  - destruct (bool_decide _); [|done]. unfold delete_claim_row. repeat (case_match; [done|]). by apply log_ok_update.
  - by apply log_ok_update.
  - by apply log_ok_update.
  - by apply log_ok_commit.
  - by apply log_ok_abort.
Qed.

Lemma apply_moves_log now own ms s : log_ok now s -> log_ok now (apply_moves pg_row follows now own ms s).
Proof.
  revert s. induction ms as [|m ms IH]; intros s Hl; [done|]. unfold apply_moves. cbn [foldl].
  destruct (_ && _); [by apply IH|]. by apply IH, apply_move_log.
Qed.
End Content.
