(* ===== verification/PgAppend.v ===== *)
(** * The PostgreSQL append (src/postgres/wsstore.go)

    An append runs a dozen statements between which other sessions commit.  The
    theorems: it keeps the server's invariants whatever happens; when it returns
    a result, its events are the next ones of the stream as it is committed. *)
From S2P Require Import Prelude Sha256 Es Hash Chain Anchor Timestamp Effect Store Sql Sqlite SqliteCorrect SqliteTheorems.
From S2P Require Import PgServer PgServerCorrect PgStore PgFence PgLog.

(** ** Triples: what a computation gives back, and what it leaves when it fails *)

Section Triples.
Context {W : Type}.

Definition triple {A} (P : W -> Prop) (m : SM W A) (Q : A -> W -> Prop) (X : W -> Prop) : Prop :=
  forall w, P w -> match m w with (Ok a, w') => Q a w' | (Err _, w') => X w' end.

Lemma triple_bind {A B} (P : W -> Prop) (m : SM W A) (k : A -> SM W B) R Q X :
  triple P m R X -> (forall a, triple (R a) (k a) Q X) -> triple P (bind m k) Q X.
Proof.
  intros Hm Hk w Hw. specialize (Hm w Hw). unfold bind. destruct (m w) as [[a|e] w1]; [|done]. by apply Hk.
Qed.
Lemma triple_ret {A} (P : W -> Prop) (a : A) (Q : A -> W -> Prop) X : (forall w, P w -> Q a w) -> triple P (ret a) Q X.
Proof. intros HQ w Hw. by apply HQ. Qed.
Lemma triple_throw {A} (P : W -> Prop) e (Q : A -> W -> Prop) (X : W -> Prop) : (forall w, P w -> X w) -> triple P (throw e) Q X.
Proof. intros HX w Hw. by apply HX. Qed.
Lemma triple_lift {A} (P : W -> Prop) (r : res A) (Q : A -> W -> Prop) (X : W -> Prop) :
  (forall a w, r = Ok a -> P w -> Q a w) -> (forall w, P w -> X w) -> triple P (lift r) Q X.
Proof. intros HQ HX w Hw. unfold lift. destruct r; [by apply HQ|by apply HX]. Qed.
Lemma triple_conseq {A} (P P' : W -> Prop) (m : SM W A) (Q Q' : A -> W -> Prop) (X : W -> Prop) :
  (forall w, P w -> P' w) -> (forall a w, Q' a w -> Q a w) -> triple P' m Q' X -> triple P m Q X.
Proof.
  intros HP HQ Hm w Hw. specialize (Hm w (HP w Hw)). destruct (m w) as [[a|e] w1]; [by apply HQ|done].
Qed.
(** A handler that only renames the error. *)
Lemma triple_catch {A} (P : W -> Prop) (m : SM W A) h (Q : A -> W -> Prop) (X : W -> Prop) :
  (forall e w, exists e', h e w = (Err e', w)) -> triple P m Q X -> triple P (catch m h) Q X.
Proof.
  intros Hh Hm w Hw. specialize (Hm w Hw). unfold catch. destruct (m w) as [[a|e] w1]; [done|].
  destruct (Hh e w1) as [e' ->]. done.
Qed.
Lemma triple_wrap {A} (P : W -> Prop) (m : SM W A) c (Q : A -> W -> Prop) (X : W -> Prop) : triple P m Q X -> triple P (m wrap c) Q X.
Proof. apply triple_catch. intros e w. by eexists. Qed.
Lemma triple_catch_if {A} (P : W -> Prop) (m : SM W A) (b : error -> bool) f g (Q : A -> W -> Prop) (X : W -> Prop) :
  triple P m Q X -> triple P (catch m (fun e => if b e then throw (f e) else throw (g e))) Q X.
Proof. apply triple_catch. intros e w. destruct (b e); by eexists. Qed.
Lemma triple_forM {A} (P : W -> Prop) (f : A -> SM W unit) l (X : W -> Prop) :
  (forall a, a ∈ l -> triple P (f a) (fun _ => P) X) -> triple P (forM f l) (fun _ => P) X.
Proof.
  induction l as [|a l IH]; intros Hf; [by apply triple_ret|]. simpl.
  eapply triple_bind; [apply Hf; by left|]. intros []. apply IH. intros b Hb. apply Hf. by right.
Qed.
Lemma triple_run {A} (P : W -> Prop) (m : SM W A) Q X w r w' : triple P m Q X -> P w -> m w = (r, w') ->
  match r with Ok a => Q a w' | Err _ => X w' end.
Proof. intros Hm Hw HR. specialize (Hm w Hw). by rewrite HR in Hm. Qed.
End Triples.

#[export] Hint Resolve triple_wrap triple_catch_if : pg.

Lemma TruncateMicros_le t : (TruncateMicros t <= t)%Z.
Proof. unfold TruncateMicros, Truncate, Microsecond. pose proof (Z.mod_pos_bound (t - zero_time) 1000 ltac:(done)). lia. Qed.
Lemma TruncateMicros_idem t : TruncateMicros (TruncateMicros t) = TruncateMicros t.
Proof.
  unfold TruncateMicros, Truncate, Microsecond. pose proof (Z.div_mod (t - zero_time) 1000 ltac:(done)) as E.
  set (q := ((t - zero_time) / 1000)%Z) in E. set (r := ((t - zero_time) mod 1000)%Z) in *.
  replace (t - r - zero_time)%Z with (q * 1000)%Z by lia. rewrite Z.mod_mul by done. lia.
Qed.

Section Append.
Context {UL : UuidLib} {EV : Env} {PE : PgEnv}.
Hypothesis Hmono : clock_monotone.

(** The invariant of a world: identities and content. *)
Record pg_ok (w : pgw) : Prop := {
  po_inv : pg_inv w;
  po_log : log_ok (clock (pg_tick w)) (pg_server w)
}.

(** Only other sessions, and time, have moved. *)
Record idle (w w' : pgw) : Prop := {
  q_ok : pg_ok w';
  q_later : later w w';
  q_session : pg_session w' = pg_session w;
  q_txn : forall x, own_xid w = Some x -> sv_running (pg_server w') !! x = sv_running (pg_server w) !! x;
  q_tick : (pg_tick w <= pg_tick w')%nat
}.

Lemma interfere_quiet w : pg_ok w -> idle w (interfere w).
Proof.
  intros [Hi Hl]. destruct (interfere_inv w Hi) as (H1 & H2 & H3). split; [split; [done|]|done|done| |simpl; lia].
  - unfold interfere. simpl. eapply log_ok_mono; [apply (Hmono (pg_tick w)); lia|]. by apply apply_moves_log.
  - intros x Hx. unfold interfere. simpl. rewrite Hx. apply apply_moves_own.
    destruct (pi_own _ Hi x Hx) as [t Ht]. by destruct (ii_run _ (pi_ids _ Hi) x t Ht).
Qed.

Lemma ask_quiet {A} (f : server -> A) w r w' : pg_ok w -> ask f w = (r, w') ->
  idle w w' /\ forall a, r = Ok a -> a = f (pg_server w').
Proof.
  intros Hw. unfold ask, statement. pose proof (interfere_quiet w Hw) as Hq.
  destruct (fault _); intros [= <- <-]; [done|]. rewrite with_server_same. split; [done|]. by intros a [= <-].
Qed.

(** The lines of a log only grow. *)
Lemma line_prefix ws sid s s' : evolves s s' -> line ws sid (sv_events s) `prefix_of` line ws sid (sv_events s').
Proof. intros [K ->]%evolves_prefix. rewrite line_app. by apply prefix_app_r. Qed.

(** A list numbered past [n] holds the number [n + 1]. *)
Lemma numbered_has {A} (f : A -> N) l (n : nat) : numbered f 1%N l -> (n < length l)%nat -> exists e, e ∈ l /\ f e = (N.of_nat n + 1)%N.
Proof.
  intros Hn [e He]%lookup_lt_is_Some. exists e. split; [by eapply list_elem_of_lookup_2|].
  rewrite (numbered_lookup _ _ _ _ _ Hn He). lia.
Qed.

(** ** The state of an append in progress *)

Section One.
Variable ws : string.
Variable sid : StreamID.
Hypothesis Hsid : Validate sid = Ok tt.

(** An envelope of this append. *)
Definition mine (e : Envelope) : Prop := pg_wf e /\ Workspace e = ws /\ env_StreamID e = sid.

(** Transaction [x] read the stream [C0] and has inserted [pre]. *)
Record appending (w0 : pgw) (x : N) (C0 pre : list Envelope) (w : pgw) : Prop := {
  ag_ok : pg_ok w;
  ag_session : pg_session w = Some (MkSession (Some x) (Some ws) false);
  ag_rows : own_rows x (pg_server w) = map pg_stored pre;
  ag_mine : Forall mine pre;
  ag_later : later w0 w;
  ag_prefix : C0 `prefix_of` line ws sid (sv_events (pg_server w))
}.
#[local] Arguments ag_ok {_ _ _ _ _}.
#[local] Arguments ag_session {_ _ _ _ _}.
#[local] Arguments ag_rows {_ _ _ _ _}.
#[local] Arguments ag_mine {_ _ _ _ _}.
#[local] Arguments ag_later {_ _ _ _ _}.
#[local] Arguments ag_prefix {_ _ _ _ _}.

Lemma appending_own w0 x C0 pre w : appending w0 x C0 pre w -> own_xid w = Some x.
Proof. intros Ha. unfold own_xid. by rewrite (ag_session Ha). Qed.

Lemma appending_txn w0 x C0 pre w : appending w0 x C0 pre w ->
  exists t, sv_running (pg_server w) !! x = Some t /\ t_rows t = map pg_stored pre.
Proof.
  intros Ha. destruct (pi_own _ (po_inv _ (ag_ok Ha)) x (appending_own _ _ _ _ _ Ha)) as [t Ht].
  exists t. split; [done|]. pose proof (ag_rows Ha) as Hr. unfold own_rows in Hr. by rewrite Ht in Hr.
Qed.

Lemma appending_quiet w0 x C0 pre w w' : appending w0 x C0 pre w -> idle w w' -> appending w0 x C0 pre w'.
Proof.
  intros Ha [Q1 Q2 Q3 Q4 Q5]. pose proof (appending_own _ _ _ _ _ Ha) as Ho. destruct Ha as [A1 A2 A3 A4 A5 A6]. split; try done.
  - by rewrite Q3.
  - unfold own_rows. rewrite (Q4 x Ho). exact A3.
  - by etrans.
  - etrans; [exact A6|]. by apply line_prefix.
Qed.

Lemma line_mine pre : Forall mine pre -> line ws sid (map pg_stored pre) = pre.
Proof.
  induction 1 as [|e l (Hw & E1 & E2) Hl IH]; [done|]. unfold line, stream_part in *. simpl. rewrite filter_cons, decide_True; simpl.
  - by rewrite row_env_stored, IH.
  - by rewrite E1, E2.
Qed.

(** The stream an open append with rows in it would extend. *)
Lemma appending_line w0 x C0 pre w : appending w0 x C0 pre w ->
  good_line sid (line ws sid (sv_events (pg_server w)) ++ pre).
Proof.
  intros Ha. destruct (appending_txn _ _ _ _ _ Ha) as (t & Ht & Hr).
  pose proof (lo_run _ _ (po_log _ (ag_ok Ha)) x t ws sid Ht Hsid) as Hg.
  rewrite Hr, line_app, line_mine in Hg; [done|]. by eapply ag_mine.
Qed.

(** Once a row is in, the committed stream is still the one that was read. *)
Lemma appending_head w0 x C0 e pre w : appending w0 x C0 (e :: pre) w ->
  Version e = (N.of_nat (length C0) + 1)%N -> line ws sid (sv_events (pg_server w)) = C0.
Proof.
  intros Ha Hv. pose proof (gl_versions _ _ (appending_line _ _ _ _ _ Ha)) as Hn. apply numbered_app in Hn as [_ [Hn _]].
  symmetry. apply prefix_same_length; [by eapply ag_prefix|]. lia.
Qed.

(** An insert either adds the next event of the stream that was read, or fails
    and adds nothing. *)
Lemma appending_insert w0 x C0 pre e :
  mine e -> next_of (C0 ++ pre) e ->
  triple (fun w => appending w0 x C0 pre w /\ (RecordedAt e <= clock (pg_tick w))%Z) (insert_event_row (pg_row e))
    (fun gp w => appending w0 x C0 (pre ++ [with_position e gp]) w /\ (RecordedAt e <= clock (pg_tick w))%Z)
    (fun w => pg_ok w /\ later w0 w).
Proof.
  intros Hm Hnx w [Ha Ht]. pose proof (appending_own _ _ _ _ _ Ha) as Ho. pose proof (po_inv _ (ag_ok Ha)) as Hinv.
  destruct (insert_event_row (pg_row e) w) as [r w'] eqn:HI.
  destruct (safe_insert (pg_row e) ltac:(done) _ _ _ Hinv ltac:(rewrite Ho; by eexists) HI) as (Hinv' & Hlat & Ho').
  revert HI. unfold insert_event_row, statement. rewrite (ag_session Ha).
  pose proof (interfere_quiet w (ag_ok Ha)) as Hq. pose proof (appending_quiet _ _ _ _ _ _ Ha Hq) as Ha1.
  set (w1 := interfere w) in *. assert (later w0 w') as Hl' by (etrans; [exact (ag_later Ha)|done]).
  destruct (fault (pg_tick w)). { intros [= <- <-]. split; [exact (ag_ok Ha1)|done]. }
  destruct (nextval (pg_server w1)) as [nr s1] eqn:HN. pose proof (log_ok_nextval _ _ _ _ HN (po_log _ (ag_ok Ha1))) as Hl1.
  destruct nr as [gp|er]. 2:{ intros [= <- <-]. split; [by split|done]. }
  unfold current_xid. change (own_xid (with_server w1 s1)) with (own_xid w1). rewrite (appending_own _ _ _ _ _ Ha1). cbn [pg_server with_server].
  destruct (nextval_cases _ _ _ HN) as [[_ ?]|(_ & _ & _ & E1 & E2 & _)]; [done|].
  destruct (appending_txn _ _ _ _ _ Ha1) as (t & Htx & Hrows).
  destruct (store_row x (pg_row e gp) s1) as [sr s2] eqn:HS. intros [= <- <-]. destruct sr as [gp'|er].
  2:{ assert (s2 = s1) as -> by (revert HS; unfold store_row; repeat (case_match; try done); by intros [= _ <-]). split; [by split|done]. }
  assert (gp' = gp) as -> by (revert HS; unfold store_row; repeat (case_match; try done); by intros [= <- _]).
  assert (line ws sid (sv_events (pg_server w1) ++ t_rows t) = C0 ++ pre) as Hline.
  { rewrite line_app, Hrows, line_mine by (by eapply ag_mine). f_equal. symmetry. apply prefix_same_length; [by eapply ag_prefix|].
    pose proof (prefix_length _ _ (ag_prefix Ha1)) as Hle. apply Nat.le_antisymm; [done|]. apply Nat.nlt_ge. intros Hlt.
    destruct (numbered_has _ _ (length (C0 ++ pre)) (gl_versions _ _ (appending_line _ _ _ _ _ Ha1))) as (f & Hf & Hfv);
      [rewrite !length_app; lia|].
    assert (f ∈ line ws sid (sv_events (pg_server w1) ++ t_rows t)) as Hf' by (by rewrite line_app, Hrows, line_mine by (by eapply ag_mine)).
    destruct (line_elem _ ws sid _ f (rows_good _ _ _ _ (po_log _ (ag_ok Ha1)) Htx) Hsid Hf') as (Hin & _ & Hfs & Hfw & _).
    unfold store_row, own_rows in HS. rewrite E1, E2, Htx in HS. destruct (clashes _ (sv_events _ ++ _)) eqn:Hc; [done|].
    destruct (clashes_false _ _ _ Hc Hin) as [Hsv _]. destruct Hm as (_ & Hm1 & Hm2). unfold pg_stored in Hsv.
    rewrite same_version_true in Hsv; [done|congruence|congruence|]. rewrite Hfv. symmetry. apply Hnx. }
  destruct Hm as (Hm0 & Hm1 & Hm2).
  destruct (store_log (clock (pg_tick w1)) x t e gp s1 s2) as (Hl2 & E3 & E4); try done.
  { by rewrite E2. } { etrans; [exact Ht|]. apply Hmono. apply Hq. } { by rewrite E1, Hm1, Hm2, Hline. }
  split; [split|].
  - by split.
  - apply (ag_session Ha1).
  - cbn [pg_server with_server]. by rewrite E4, Hrows, map_app.
  - apply Forall_app. split; [by eapply ag_mine|]. constructor; [|done]. split; [by apply with_position_wf|done].
  - done.
  - cbn [pg_server with_server]. rewrite E3, E1. by eapply ag_prefix.
  - etrans; [exact Ht|]. apply Hmono, Hq.
Qed.

(** ** The insert loop *)

(** The time the append is recorded at has come. *)
Definition timed (w0 : pgw) (x : N) (C0 pre : list Envelope) (recorded : time) (w : pgw) : Prop :=
  appending w0 x C0 pre w /\ (recorded <= clock (pg_tick w))%Z.

Lemma timed_quiet w0 x C0 pre recorded w w' : timed w0 x C0 pre recorded w -> idle w w' -> timed w0 x C0 pre recorded w'.
Proof. intros [Ha Ht] Hq. split; [by eapply appending_quiet|]. etrans; [exact Ht|]. apply Hmono, Hq. Qed.

Definition failed (w0 w : pgw) : Prop := pg_ok w /\ later w0 w.

Lemma timed_failed w0 x C0 pre recorded w : timed w0 x C0 pre recorded w -> failed w0 w.
Proof. intros [Ha _]. split; [exact (ag_ok Ha)|exact (ag_later Ha)]. Qed.

Lemma event_id_triple w0 x C0 pre recorded ev :
  triple (timed w0 x C0 pre recorded) (if bool_decide (ed_EventID ev = uuid_Nil) then pg_newV7 else ret (ed_EventID ev))
    (fun id w => timed w0 x C0 pre recorded w /\ (ed_EventID ev <> uuid_Nil -> id = ed_EventID ev)) (failed w0).
Proof.
  case_bool_decide as Hn.
  - intros w Hw. simpl. split; [|done]. eapply timed_quiet; [done|]. destruct Hw as [Ha _]. apply interfere_quiet, (ag_ok Ha).
  - by apply triple_ret.
Qed.

Lemma line_prev_snoc l e h : Hash e = Some h -> line_prev sid (l ++ [e]) = h.
Proof. intros Hh. unfold line_prev. by rewrite last_snoc, Hh. Qed.

Lemma append_events_triple p w0 x C0 occurred recorded :
  ap_StreamID p = sid -> ap_ExpectedVersion p = N.of_nat (length C0) ->
  TruncateMicros occurred = occurred -> TruncateMicros recorded = recorded ->
  (forall a, a ∈ C0 -> RecordedAt a <= recorded)%Z ->
  forall evs pre prev,
  (ap_ExpectedVersion p + N.of_nat (length pre) <= max_int64)%N ->
  prev = line_prev sid (C0 ++ pre) -> (forall a, a ∈ pre -> RecordedAt a = recorded) ->
  triple (timed w0 x C0 pre recorded) (pg_append_events ws p occurred recorded (N.of_nat (length pre)) prev evs)
    (fun envs w => timed w0 x C0 (pre ++ envs) recorded w /\ Forall2 (carries p occurred recorded) evs envs
                   /\ numbered Version (ap_ExpectedVersion p + N.of_nat (length pre) + 1) envs)
    (failed w0).
Proof.
  intros Hp Hexp Ho Hr HC0. induction evs as [|ev evs IH]; intros pre prev Hmax Hprev Hpre; simpl.
  { apply triple_ret. intros w Hw. rewrite app_nil_r. done. }
  eapply triple_bind; [apply event_id_triple|]. intros id.
  set (version := u64 (ap_ExpectedVersion p + N.of_nat (length pre) + 1)). set (env := with_hash _ _).
  assert (version = ap_ExpectedVersion p + N.of_nat (length pre) + 1)%N as Hver
    by (apply u64_small; unfold max_int64, u64_mod in *; lia).
  assert (Hash env = Some (EnvelopeHash env)) as Hhash by done.
  eapply (triple_bind _ _ _ (fun gp w => timed w0 x C0 (pre ++ [with_position env gp]) recorded w
    /\ (ed_EventID ev <> uuid_Nil -> id = ed_EventID ev) /\ (version <= max_int64)%N)).
  { apply triple_catch_if. eapply (triple_bind _ _ _ (fun _ w => (timed w0 x C0 pre recorded w /\ (ed_EventID ev <> uuid_Nil -> id = ed_EventID ev))
      /\ (version <= max_int64)%N)).
    - apply triple_lift; [|intros w [Hw _]; by eapply timed_failed]. intros n w. unfold pg_bind.
      destruct (N.leb_spec version max_int64); [|done]. intros _ Hw. done.
    - intros _ w [[Hw Hid] Hmx].
      assert (mine env) as Hm by (split; [|done]; split; simpl; [by rewrite Hp|done|done|done]).
      assert (next_of (C0 ++ pre) env) as Hnx.
      { split; [simpl; rewrite length_app; lia|simpl; by rewrite Hp, Hprev|done|].
        intros a [Ha|Ha]%elem_of_app; simpl; [by apply HC0|rewrite (Hpre a Ha); lia]. }
      pose proof (appending_insert w0 x C0 pre env Hm Hnx w Hw) as HI.
      destruct (insert_event_row (pg_row env) w) as [[gp|e] w']; [|exact HI]. destruct HI as [HI1 HI2]. done. }
  intros gp. eapply (triple_bind _ _ _ (fun envs w => (timed w0 x C0 ((pre ++ [with_position env gp]) ++ envs) recorded w
    /\ Forall2 (carries p occurred recorded) evs envs
    /\ numbered Version (ap_ExpectedVersion p + N.of_nat (length (pre ++ [with_position env gp])) + 1) envs)
    /\ (ed_EventID ev <> uuid_Nil -> id = ed_EventID ev))).
  - intros w (Hw & Hid & Hmx).
    pose proof (IH (pre ++ [with_position env gp]) (EnvelopeHash env)) as IHt.
    rewrite length_app in IHt. cbn [length] in IHt.
    replace (N.of_nat (length pre + 1)) with (N.of_nat (length pre) + 1)%N in IHt by lia.
    specialize (IHt ltac:(lia) ltac:(symmetry; rewrite app_assoc; by apply line_prev_snoc)).
    specialize (IHt ltac:(intros a [Ha| ->%list_elem_of_singleton]%elem_of_app; [by apply Hpre|done]) w Hw).
    change (EnvelopeHash (pg_new_envelope ws p ev id version occurred recorded prev)) with (EnvelopeHash env).
    destruct (pg_append_events ws p occurred recorded (N.of_nat (length pre) + 1) (EnvelopeHash env) evs w) as [[envs|e] w'];
      [|done]. destruct IHt as (I1 & I2 & I3). split; [|done]. split; [done|]. split; [done|].
    rewrite length_app. cbn [length]. by replace (N.of_nat (length pre + 1)) with (N.of_nat (length pre) + 1)%N by lia.
  - intros envs. apply triple_ret. intros w [(Hw & Hc & Hn) Hid]. rewrite <- app_assoc in Hw. split; [exact Hw|]. split.
    + constructor; [|done]. by split.
    + rewrite length_app in Hn. cbn [length] in Hn. split; [simpl; lia|].
      by replace (ap_ExpectedVersion p + N.of_nat (length pre) + 1 + 1)%N with (ap_ExpectedVersion p + N.of_nat (length pre + 1) + 1)%N by lia.
Qed.

(** ** Claims *)

Lemma write_triple {A} w0 x C0 pre recorded (f : N -> server -> res A * server) :
  (forall s, (f x s).2 = s \/ exists k v, (f x s).2 = update_txn x (write_claim k v) s) ->
  triple (timed w0 x C0 pre recorded) (write f) (fun _ => timed w0 x C0 pre recorded) (failed w0).
Proof.
  intros Hf w Hw. pose proof Hw as [Ha Ht]. unfold write. rewrite (ag_session Ha).
  destruct (ask (fun _ => tt) w) as [r1 w1] eqn:HA. destruct (ask_quiet _ _ _ _ (ag_ok Ha) HA) as [Hq _].
  pose proof (timed_quiet _ _ _ _ _ _ _ Hw Hq) as Hw1. destruct r1 as [u|e]; [|by eapply timed_failed].
  destruct Hw1 as [Ha1 Ht1]. unfold current_xid. rewrite (appending_own _ _ _ _ _ Ha1).
  pose proof (ag_ok Ha1) as [Hi1 Hl1].
  destruct (f x (pg_server w1)) as [r s] eqn:Ef.
  assert (timed w0 x C0 pre recorded (with_server w1 s)) as Hend.
  { destruct (write_claim_inv x f (pg_server w1) Hf (pi_ids _ Hi1)) as [Hi He]. rewrite Ef in Hi, He. simpl in Hi, He.
    destruct (Hf (pg_server w1)) as [E|(k & v & E)]; rewrite Ef in E; simpl in E; subst s; [by rewrite with_server_same|].
    destruct (appending_txn _ _ _ _ _ Ha1) as (t & Htx & Hrows).
    split; [|done]. split; [split|apply (ag_session Ha1)|..]; simpl.
    - apply server_step; try done. intros y Hy. rewrite (appending_own _ _ _ _ _ Ha1) in Hy. injection Hy as <-. simpl.
      rewrite lookup_alter_eq, Htx. by eexists.
    - by apply log_ok_update.
    - unfold own_rows, update_txn. simpl. by rewrite lookup_alter_eq, Htx.
    - exact (ag_mine Ha1).
    - etrans; [exact (ag_later Ha1)|exact He].
    - exact (ag_prefix Ha1). }
  destruct r; [exact Hend|by eapply timed_failed].
Qed.

Lemma claims_triple w0 x C0 pre recorded id ops :
  triple (timed w0 x C0 pre recorded) (pg_applyClaims ws id ops) (fun _ => timed w0 x C0 pre recorded) (failed w0).
Proof.
  unfold pg_applyClaims. eapply triple_bind; [apply triple_forM|intros []; apply triple_forM]; intros op _; (case_match; [by apply triple_ret|]).
  - apply triple_wrap, write_triple. intros s. unfold delete_claim_row. repeat (case_match; [by left|]). right. by eexists _, _.
  - apply triple_catch_if, write_triple. intros s. unfold insert_claim_row. repeat (case_match; [by left|]). right. by eexists _, _.
Qed.

(** ** The head *)

Lemma xact_triple w0 :
  triple (fun w => pg_ok w /\ pg_session w = Some (scoped ws) /\ later w0 w) pg_current_xact_id
    (fun x w => appending w0 x [] [] w) (failed w0).
Proof.
  intros w (Hw & Hss & Hl). destruct (pg_current_xact_id w) as [r w'] eqn:HX.
  destruct (current_xact_inv _ _ _ (po_inv _ Hw) ltac:(rewrite Hss; by eexists) HX) as (Hi & Hl' & _ & _).
  revert HX. unfold pg_current_xact_id. destruct (ask (fun _ => tt) w) as [r1 w1] eqn:HA.
  destruct (ask_quiet _ _ _ _ Hw HA) as [Hq _]. destruct r1 as [u|e].
  2:{ intros [= <- <-]. split; [apply Hq|by etrans]. }
  unfold current_xid, own_xid. rewrite (q_session _ _ Hq), Hss. simpl. intros [= <- <-].
  split; simpl; try done.
  - split; [done|]. simpl. apply log_ok_assign, Hq.
  - unfold own_rows, assign_xid. simpl. by rewrite lookup_insert_eq.
  - by etrans.
  - apply prefix_nil.
Qed.

(** The head and the times of the stream [C0] that was read. *)
Definition read_at (C0 : list Envelope) (w : pgw) : Prop :=
  line ws sid (sv_events (pg_server w)) = C0 /\ good_line sid C0.

Lemma stream_part_own x s : own_rows x s = [] ->
  stream_part ws (Canonical sid) (table (MkSession (Some x) (Some ws) false) s) = stream_part ws (Canonical sid) (sv_events s).
Proof. intros Ho. rewrite <- stream_part_scoped. unfold table. simpl. by rewrite Ho. Qed.

Lemma head_triple w0 x :
  triple (appending w0 x [] []) (pg_readHead ws sid)
    (fun h w => exists C0, appending w x C0 [] w /\ read_at C0 w /\ later w0 w /\ h = (N.of_nat (length C0), line_prev sid C0)
                /\ forall a, a ∈ C0 -> (RecordedAt a <= clock (pg_tick w))%Z /\ TruncateMicros (RecordedAt a) = RecordedAt a) (failed w0).
Proof.
  intros w Ha. unfold pg_readHead, bind, catch, select. rewrite (ag_session Ha).
  destruct (ask _ w) as [r w1] eqn:HA. destruct (ask_quiet _ _ _ _ (ag_ok Ha) HA) as [Hq Hr].
  pose proof (appending_quiet _ _ _ _ _ _ Ha Hq) as Ha1. destruct r as [h|e]; [|split; [apply Hq|exact (ag_later Ha1)]].
  simpl. specialize (Hr h eq_refl). set (C0 := line ws sid (sv_events (pg_server w1))). exists C0.
  pose proof (lo_rows _ _ (po_log _ (ag_ok Ha1)) None) as Hg.
  pose proof (lo_base _ _ (po_log _ (ag_ok Ha1)) ws sid Hsid) as Hb. fold C0 in Hb.
  split; [|split; [by split|split; [exact (ag_later Ha1)|split]]].
  - destruct Ha1 as [A1 A2 A3 A4 A5 A6]. split; [done..|reflexivity|done].
  - subst h. unfold stream_head. rewrite stream_part_own by exact (ag_rows Ha1).
    pose proof (stream_head_line _ ws sid _ Hg (gl_versions _ _ Hb)) as Hh. unfold stream_head in Hh. rewrite Hh.
    by apply chain_head_line.
  - intros a Hin. destruct (line_elem _ ws sid _ a Hg Hsid Hin) as (_ & Hwf & _ & _ & Ht). split; [done|apply Hwf].
Qed.

(** ** The whole body *)

Variable cap : Z.
Variable p : AppendParams.
Hypothesis Hp : ap_StreamID p = sid.

(** What a result says, relative to the stream the append was decided on. *)
Record extends (C0 : list Envelope) (a : AppendResult) : Prop := {
  ex_expected : ap_ExpectedVersion p = N.of_nat (length C0);
  ex_from : ar_FromVersion a = ap_ExpectedVersion p;
  ex_to : ar_ToVersion a = (ap_ExpectedVersion p + N.of_nat (length (ap_Events p)))%N;
  ex_carries : exists occurred recorded, Forall2 (carries p occurred recorded) (ap_Events p) (ar_Envelopes a);
  ex_versions : numbered Version (ap_ExpectedVersion p + 1) (ar_Envelopes a)
}.

Lemma last_version_max C0 pre w0 x w : appending w0 x C0 pre w -> (N.of_nat (length C0) + N.of_nat (length pre) <= max_int64)%N.
Proof.
  intros Ha. pose proof (prefix_length _ _ (ag_prefix Ha)) as Hle. pose proof (appending_line _ _ _ _ _ Ha) as [Hn _ _].
  set (l := line ws sid (sv_events (pg_server w)) ++ pre) in *.
  assert (N.of_nat (length l) <= max_int64)%N; [|unfold l in *; rewrite length_app in *; lia].
  destruct (last l) as [e|] eqn:Hl; [|apply last_None in Hl; rewrite Hl; done].
  pose proof (numbered_last _ _ _ _ Hn Hl) as Hv. assert (pg_wf e) as He; [|pose proof (pw_version _ He); lia].
  apply last_Some_elem_of in Hl. destruct (appending_txn _ _ _ _ _ Ha) as (t & Htx & Hrows).
  apply (line_elem _ ws sid _ e (rows_good _ _ _ _ (po_log _ (ag_ok Ha)) Htx) Hsid).
  by rewrite line_app, Hrows, line_mine by exact (ag_mine Ha).
Qed.

Lemma occurred_triple w0 x C0 pre :
  triple (appending w0 x C0 pre) (if IsZero (ap_OccurredAt p) then pg_Now else ret (ap_OccurredAt p))
    (fun _ => appending w0 x C0 pre) (failed w0).
Proof.
  destruct (IsZero _); [|by apply triple_ret]. intros w Ha. simpl. eapply appending_quiet; [done|]. apply interfere_quiet, (ag_ok Ha).
Qed.

Lemma clock_triple w0 x C0 :
  triple (fun w => appending w0 x C0 [] w /\ forall a, a ∈ C0 -> (RecordedAt a <= clock (pg_tick w))%Z /\ TruncateMicros (RecordedAt a) = RecordedAt a)
    clock_timestamp
    (fun now w => timed w0 x C0 [] (TruncateMicros now) w /\ forall a, a ∈ C0 -> (RecordedAt a <= TruncateMicros now)%Z) (failed w0).
Proof.
  intros w [Ha Ht]. unfold clock_timestamp. destruct (ask (fun _ => tt) w) as [r w1] eqn:HA.
  destruct (ask_quiet _ _ _ _ (ag_ok Ha) HA) as [Hq _]. pose proof (appending_quiet _ _ _ _ _ _ Ha Hq) as Ha1.
  destruct r as [u|e]; [|split; [exact (ag_ok Ha1)|exact (ag_later Ha1)]]. split; [split; [done|]|].
  - pose proof (TruncateMicros_le (clock (pg_tick w))). pose proof (Hmono _ _ (q_tick _ _ Hq)). lia.
  - intros a [H1 <-]%Ht. by apply TruncateMicros_mono.
Qed.

Lemma tail_triple w0 x C0 occurred :
  ap_ExpectedVersion p = N.of_nat (length C0) ->
  triple (fun w => appending w0 x C0 [] w /\ forall a, a ∈ C0 -> (RecordedAt a <= clock (pg_tick w))%Z /\ TruncateMicros (RecordedAt a) = RecordedAt a)
    (let! now := clock_timestamp wrap "read commit clock" in
     let recorded := TruncateMicros now in
     let! envs := pg_append_events ws p (TruncateMicros occurred) recorded 0 (line_prev sid C0) (ap_Events p) in
     let! _ := pg_applyClaims ws (Canonical (ap_StreamID p)) (ap_Constraints p) in
     ret (MkAppendResult (ap_ExpectedVersion p) (u64 (ap_ExpectedVersion p + N.of_nat (length (ap_Events p)))) envs))
    (fun a w => appending w0 x C0 (ar_Envelopes a) w /\ extends C0 a) (failed w0).
Proof.
  intros Hexp. eapply triple_bind; [apply triple_wrap, clock_triple|]. intros now. cbv zeta. set (recorded := TruncateMicros now).
  intros w [Hw Ht]. pose proof Hw as [Ha _]. pose proof (last_version_max _ _ _ _ _ Ha) as Hmax. simpl in Hmax.
  clear Ha. revert w Hw. refine (triple_bind _ _ _ (fun envs w => timed w0 x C0 envs recorded w
    /\ Forall2 (carries p (TruncateMicros occurred) recorded) (ap_Events p) envs /\ numbered Version (ap_ExpectedVersion p + 1) envs) _ _ _ _).
  - pose proof (append_events_triple p w0 x C0 (TruncateMicros occurred) recorded Hp Hexp (TruncateMicros_idem _) (TruncateMicros_idem _)
      Ht (ap_Events p) [] (line_prev sid C0)) as HT. simpl in HT. rewrite app_nil_r, N.add_0_r in HT.
    apply HT; [lia|done|]. by intros a ?%not_elem_of_nil.
  - intros envs w (Hw & Hc & Hn).
    revert w Hw. refine (triple_bind _ _ _ _ _ _ (claims_triple _ _ _ _ _ _ _) _).
    intros []. apply triple_ret. intros w1 [Ha1 _]. split; [exact Ha1|]. split; simpl; try done; [|by eexists _, _].
    apply u64_small. pose proof (last_version_max _ _ _ _ _ Ha1). rewrite (Forall2_length _ _ _ Hc). unfold max_int64, u64_mod in *. lia.
Qed.

Lemma append_body_triple w0 :
  triple (fun w => pg_ok w /\ pg_session w = Some (scoped ws) /\ later w0 w) (append_body cap ws p)
    (fun a w => exists wh x C0, later w0 wh /\ read_at C0 wh /\ appending wh x C0 (ar_Envelopes a) w /\ extends C0 a) (failed w0).
Proof.
  unfold append_body. eapply triple_bind; [by apply triple_lift; [intros a w _ Hw; exact Hw|intros w (? & _ & ?)]|]. intros u.
  eapply triple_bind; [apply triple_wrap, xact_triple|]. intros x.
  eapply triple_bind; [apply occurred_triple|]. intros occurred. cbv zeta. rewrite Hp.
  eapply triple_bind; [apply head_triple|]. intros [current prev].
  intros w (C0 & Ha & Hat & Hl & [= -> ->] & Ht). destruct (N.eqb_spec (N.of_nat (length C0)) (ap_ExpectedVersion p)) as [Hexp|]; simpl.
  2:{ split; [exact (ag_ok Ha)|done]. }
  pose proof (tail_triple w x C0 occurred (eq_sym Hexp) w (conj Ha Ht)) as HT. rewrite Hp in HT. cbv zeta in HT.
  destruct (bind _ _ w) as [[a|e] w'].
  - destruct HT as [HT1 HT2]. by exists w, x, C0.
  - destruct HT as [HT1 HT2]. split; [done|by etrans].
Qed.
End One.

(** ** Append *)

Lemma committed_ok w : pg_ok w -> pg_ok (committed w) /\ later w (committed w).
Proof.
  intros [Hi Hl]. destruct (committed_inv w Hi) as [H1 H2]. split; [split; [done|]|done].
  unfold committed. destruct (own_xid w); simpl; [by apply log_ok_commit|done].
Qed.

Lemma Rollback_ok w : pg_ok w -> pg_ok (Rollback w) /\ later w (Rollback w).
Proof.
  intros [Hi Hl]. destruct (Rollback_inv w Hi) as [H1 H2]. split; [split; [done|]|done].
  unfold Rollback. destruct (own_xid w); simpl; [by apply log_ok_abort|done].
Qed.

Lemma with_session_ok w ss : pg_ok w -> ss_xid ss = None -> pg_ok (with_session w (Some ss)).
Proof. intros [[I1 I2 I3] Hl] Hx. split; [|done]. split; [done| |done]. unfold own_xid. simpl. by rewrite Hx. Qed.

(** The begin of a transaction and its workspace. *)
Lemma in_tx_triple {A} fail (body : PM A) w0 Q :
  triple (fun w => pg_ok w /\ pg_session w = Some (MkSession None None false) /\ later w0 w) body
    (fun a w => failed w0 w /\ Q a (Rollback w)) (failed w0) ->
  triple (fun w => pg_ok w /\ later w0 w) (in_tx fail body) (fun a w => failed w0 w /\ Q a w) (failed w0).
Proof.
  intros Hb w [Hw Hl]. unfold in_tx. destruct (ask (fun _ => tt) w) as [r w1] eqn:HA. destruct (ask_quiet _ _ _ _ Hw HA) as [Hq _].
  assert (later w0 w1) as Hl1 by (etrans; [exact Hl|apply Hq]). destruct r as [u|e]; [|split; [apply Hq|done]].
  specialize (Hb _ (conj (with_session_ok w1 (MkSession None None false) (q_ok _ _ Hq) eq_refl) (conj eq_refl Hl1))).
  destruct (body _) as [[a|e] w2].
  - destruct Hb as [[Hok Hl2] HQ]. destruct (Rollback_ok w2 Hok) as [H1 H2]. split; [|done]. split; [done|etrans; [exact Hl2|done]].
  - destruct Hb as [Hok Hl2]. destruct (Rollback_ok w2 Hok) as [H1 H2]. split; [done|etrans; [exact Hl2|done]].
Qed.

Lemma set_ws_triple ws w0 :
  triple (fun w => pg_ok w /\ pg_session w = Some (MkSession None None false) /\ later w0 w) (setWorkspace ws)
    (fun _ w => pg_ok w /\ pg_session w = Some (scoped ws) /\ later w0 w) (failed w0).
Proof.
  intros w (Hw & Hss & Hl). unfold setWorkspace, set_config. destruct (ask (fun _ => tt) w) as [r w1] eqn:HA.
  destruct (ask_quiet _ _ _ _ Hw HA) as [Hq _]. assert (later w0 w1) as Hl1 by (etrans; [exact Hl|apply Hq]).
  destruct r as [u|e]; [|split; [apply Hq|done]]. rewrite (q_session _ _ Hq), Hss. simpl. split; [|done].
  by apply with_session_ok; [apply Hq|].
Qed.

(** The server an append was committed on, seen from the world after it. *)
Definition appended_at (ws : string) (p : AppendParams) (w : pgw) (a : AppendResult) (w' : pgw) : Prop :=
  exists s1, evolves (pg_server w) s1
    /\ extends p (line ws (ap_StreamID p) (sv_events s1)) a
    /\ Forall (mine ws (ap_StreamID p)) (ar_Envelopes a)
    /\ (sv_events s1 ++ map pg_stored (ar_Envelopes a)) `prefix_of` sv_events (pg_server w').

Lemma commit_triple ws p w0 a :
  Validate (ap_StreamID p) = Ok tt ->
  triple (fun w => exists wh x C0, later w0 wh /\ read_at ws (ap_StreamID p) C0 wh /\ appending ws (ap_StreamID p) wh x C0 (ar_Envelopes a) w /\ extends p C0 a)
    Commit (fun _ w => failed w0 w /\ pg_session w = None /\ appended_at ws p w0 a w) (failed w0).
Proof.
  intros Hv w (wh & x & C0 & Hl & [Hat Hg] & Ha & Hex). unfold Commit.
  pose proof (interfere_quiet w (ag_ok _ _ _ _ _ _ _ Ha)) as Hq. pose proof (appending_quiet _ _ _ _ _ _ _ _ Ha Hq) as Ha1.
  set (w1 := interfere w) in *. destruct (committed_ok w1 (q_ok _ _ Hq)) as [Hc1 Hc2].
  assert (later w0 w1) as Hl1 by (etrans; [exact Hl|exact (ag_later _ _ _ _ _ _ _ Ha1)]).
  assert (later w0 (committed w1)) as Hl2 by (etrans; [exact Hl1|done]).
  destruct (fault (pg_tick w)); [destruct (lost_ack _); split; (done || apply Hq)|]. split; [by split|]. split; [done|].
  destruct (appending_txn _ _ _ _ _ _ _ Ha1) as (t & Htx & Hrows).
  assert (sv_events (pg_server (committed w1)) = sv_events (pg_server w1) ++ map pg_stored (ar_Envelopes a)) as Hev.
  { unfold committed. rewrite (appending_own _ _ _ _ _ _ _ Ha1). cbn [pg_server with_session with_server]. unfold commit_xid. rewrite Htx. simpl. by rewrite Hrows. }
  destruct (ar_Envelopes a) as [|e envs] eqn:Henvs.
  - exists (pg_server wh). split; [exact Hl|]. rewrite Hat. split; [done|]. rewrite Henvs. split; [done|]. rewrite Hev. simpl. rewrite !app_nil_r.
    apply evolves_prefix, (ag_later _ _ _ _ _ _ _ Ha1).
  - exists (pg_server w1). split; [exact Hl1|]. rewrite Henvs, Hev. split; [|split; [exact (ag_mine _ _ _ _ _ _ _ Ha1)|done]].
    rewrite (appending_head _ _ Hv _ _ _ _ _ _ Ha1); [done|]. pose proof (ex_versions _ _ _ Hex) as Hn. rewrite Henvs in Hn.
    destruct Hn as [Hn _]. rewrite (ex_expected _ _ _ Hex) in Hn. lia.
Qed.

(** Append, on every path: the world's invariant is kept; a result is a batch
    appended at the head of the stream as it was at one instant. *)
Lemma Append_triple cap ws p w0 :
  triple (fun w => pg_ok w /\ later w0 w) (pg_Append cap ws p)
    (fun a w => failed w0 w /\ validateAppend p = Ok tt /\ appended_at ws p w0 a w) (failed w0).
Proof.
  unfold pg_Append. destruct (validateAppend p) as [[]|e] eqn:Hv.
  2:{ intros w Hw. unfold bind, lift. exact Hw. }
  assert (Validate (ap_StreamID p) = Ok tt) as Hsid.
  { unfold validateAppend in Hv. by apply result_bind_Ok in Hv as ([] & ? & _). }
  apply (triple_conseq _ (fun w => pg_ok w /\ later w0 w) _ _ (fun a w => failed w0 w /\ appended_at ws p w0 a w)); [done|by intros a w []|].
  eapply triple_bind; [apply triple_lift; [intros u w _ Hw; exact Hw|done]|]. intros u.
  apply in_tx_triple. eapply triple_bind; [apply triple_wrap, set_ws_triple|]. intros u'.
  eapply triple_bind; [apply (append_body_triple ws (ap_StreamID p) Hsid cap p eq_refl)|]. intros a.
  eapply triple_bind; [by apply triple_wrap, commit_triple|]. intros u''. apply triple_ret.
  intros w (Hf & Hs & Hat). split; [done|]. unfold Rollback, own_xid. rewrite Hs. exact Hat.
Qed.
End Append.
