(* ===== verification/PgRuntime.v ===== *)
(** * The PostgreSQL store behind the aggregate runtime

    The store of src/postgres satisfies the contract of Store.v, so everything
    proved of the runtime holds over it too: other sessions open, write and
    commit between any two statements of a call. *)
From S2P Require Import Prelude Sha256 Es Hash Chain Anchor Timestamp Effect Store Sql Sqlite SqliteCorrect SqliteTheorems.
From S2P Require Import Runtime RuntimeCorrect RuntimeSqlite PgServer PgServerCorrect PgStore PgFence PgLog PgAppend.

(** ** Reads *)

Section Reads.
Context {UL : UuidLib} {EV : Env} {PE : PgEnv}.
Hypothesis Hmono : clock_monotone.
Variable ws : string.

(** A query inside a workspace's transaction sees one server. *)
Lemma query_triple q w0 :
  triple (fun w => pg_ok w /\ pg_session w = Some (scoped ws) /\ later w0 w) (queryDB q)
    (fun envs w => failed w0 w /\ pg_session w = Some (scoped ws) /\ result_map pg_scanEnvelope (q (table (scoped ws) (pg_server w))) = Ok envs)
    (failed w0).
Proof.
  intros w (Hw & Hss & Hl). unfold queryDB, bind, select. rewrite Hss. destruct (ask _ w) as [r w1] eqn:HA.
  destruct (ask_quiet Hmono _ _ _ _ Hw HA) as [Hq Hr]. assert (failed w0 w1) as Hf by (split; [apply Hq|etrans; [exact Hl|apply Hq]]).
  destruct r as [rows|e]; [|done]. rewrite (Hr rows eq_refl). unfold lift. destruct (result_map _ _) eqn:Hm; [|done].
  split; [done|]. split; [by rewrite (q_session _ _ Hq)|done].
Qed.

(** A read transaction: its rows are those of a server between the call and its
    return. *)
Lemma read_triple {A} fail (body : PM A) (P : A -> server -> Prop) w0 :
  triple (fun w => pg_ok w /\ pg_session w = Some (scoped ws) /\ later w0 w) body
    (fun a w => failed w0 w /\ pg_session w = Some (scoped ws) /\ P a (pg_server w)) (failed w0) ->
  triple (fun w => pg_ok w /\ later w0 w) (in_tx fail (let! _ := setWorkspace ws in body))
    (fun a w => failed w0 w /\ P a (pg_server w)) (failed w0).
Proof.
  intros Hb. apply (in_tx_triple Hmono _ _ _ (fun a w => P a (pg_server w))).
  eapply triple_bind; [apply (set_ws_triple Hmono)|]. intros u. eapply triple_conseq; [intros w Hw; exact Hw| |exact Hb].
  intros a w (Hf & Hs & HP). split; [done|]. by rewrite (Rollback_scoped ws).
Qed.

(** A workspace's log: its committed events in the order of their commits. *)
Definition pg_log (s : server) : list Envelope := map row_env (ws_part ws (sv_events s)).

Lemma pg_log_app s rows : map row_env (ws_part ws (sv_events s ++ rows)) = pg_log s ++ map row_env (ws_part ws rows).
Proof. unfold pg_log, ws_part. by rewrite filter_app, map_app. Qed.

Lemma pg_log_prefix s s' : sv_events s `prefix_of` sv_events s' -> pg_log s `prefix_of` pg_log s'.
Proof. intros [K HK]. unfold pg_log at 2. rewrite HK, pg_log_app. by apply prefix_app_r. Qed.

Definition all_good (now : time) (s : server) : Prop := forall r, r ∈ sv_events s -> good_row now r.

Lemma ok_good w : pg_ok w -> all_good (clock (pg_tick w)) (pg_server w).
Proof. intros [_ Hl] r Hr. by apply (lo_rows _ _ Hl None). Qed.

Lemma stream_of_line now s sid : all_good now s -> Validate sid = Ok tt -> stream_of sid (pg_log s) = line ws sid (sv_events s).
Proof.
  intros Hg Hv. unfold stream_of, pg_log, line, stream_part, ws_part. rewrite (filter_map_comm row_env _ (fun r => p_stream_id r = Canonical sid)).
  - rewrite list_filter_filter. f_equal. apply list_filter_iff. intros r. tauto.
  - intros r [_ Hr]%list_elem_of_filter. destruct (Hg r Hr) as (e & He & -> & _). rewrite row_env_stored by done. simpl.
    split; [by intros ->|]. by apply Canonical_inj; [apply He|].
Qed.

Lemma stream_of_invalid now s sid : all_good now s -> Validate sid <> Ok tt -> stream_of sid (pg_log s) = [].
Proof.
  intros Hg Hv. unfold stream_of. apply filter_false. intros e (r & -> & [_ Hr]%list_elem_of_filter)%list_elem_of_fmap <-.
  destruct (Hg r Hr) as (e & He & -> & _). rewrite row_env_stored in Hv by done. by apply Hv, He.
Qed.

Lemma pg_log_versions w sid : pg_ok w -> numbered Version 1%N (stream_of sid (pg_log (pg_server w))).
Proof.
  intros Hw. destruct (Validate_cases sid) as [Hv|Hv].
  - rewrite (stream_of_line _ _ _ (ok_good w Hw)) by done. apply (lo_base _ _ (po_log _ Hw) ws sid Hv).
  - rewrite (stream_of_invalid _ _ _ (ok_good w Hw)); [done|]. by rewrite Hv.
Qed.

(** The rows of a stream that satisfy a condition, in version order. *)
Lemma stream_query w sid (P : PgEvent -> Prop) (Q : Envelope -> Prop)
    `{!forall r, Decision (P r)} `{!forall e, Decision (Q e)} envs :
  pg_ok w -> Validate sid = Ok tt -> (forall e, P (pg_stored e) <-> Q e) ->
  result_map pg_scanEnvelope (order_by p_version (filter P (stream_part ws (Canonical sid) (table (scoped ws) (pg_server w))))) = Ok envs ->
  envs = filter Q (stream_of sid (pg_log (pg_server w))).
Proof.
  intros Hw Hv HPQ. pose proof (ok_good w Hw) as Hg. rewrite (stream_of_line _ _ _ Hg) by done.
  rewrite stream_part_scoped, (stream_part_line _ ws sid _ Hg). set (l := line ws sid _).
  assert (Forall pg_wf l) as Hwf.
  { apply Forall_forall. intros e He. by destruct (line_elem _ ws sid _ e Hg Hv He) as (_ & ? & _). }
  rewrite (filter_map_comm pg_stored P Q) by (intros; apply HPQ). rewrite order_by_sorted.
  - intros HS%result_map_Ok. assert (Forall pg_wf (filter Q l)) as Hw' by (rewrite Forall_forall in *; intros e [_ He]%list_elem_of_filter; by apply Hwf).
    clear -HS Hw'. revert envs HS. induction Hw' as [|e k He Hk IH]; intros envs HS; simpl in HS; inversion HS as [|? e' ? k' He' Hk']; subst; [done|].
    rewrite pg_scan_stored in He' by done. injection He' as ->. f_equal. by apply IH.
  - eapply sorted_map; [|apply sorted_filter, (numbered_sorted Version 1%N), (lo_base _ _ (po_log _ Hw) ws sid Hv)]. done.
Qed.

(** *** Errors of a read are never "stream not found" *)

Hypothesis Hfaults : driver_faults.

Definition clean {A} (m : PM A) : Prop := forall w e w', m w = (Err e, w') -> Is e ErrStreamNotFound = false.

Lemma clean_bind {A B} (m : PM A) (k : A -> PM B) : clean m -> (forall a, clean (k a)) -> clean (bind m k).
Proof. intros Hm Hk w e w' [HE|(a & w1 & _ & HE)]%bind_Err; [by eapply Hm|by eapply Hk]. Qed.
Lemma clean_lift {A} (r : res A) : (forall e, r = Err e -> Is e ErrStreamNotFound = false) -> clean (lift r).
Proof. intros Hr w e w' [= -> _]. by apply Hr. Qed.
Lemma clean_ask {A} (f : server -> A) : clean (ask f).
Proof. intros w e w'. unfold ask, statement. destruct (fault _) eqn:Hf; [|done]. intros [= <- _]. by eapply Hfaults. Qed.
Lemma clean_select {A} (f : list PgEvent -> A) : clean (select f).
Proof. intros w e w'. unfold select. destruct (pg_session w); [apply clean_ask|by intros [= <- _]]. Qed.
Lemma clean_setWorkspace : clean (setWorkspace ws).
Proof.
  intros w e w'. unfold setWorkspace, set_config. destruct (ask (fun _ => tt) w) as [[u|e1] w1] eqn:HA; [done|].
  intros [= <- _]. by eapply clean_ask.
Qed.
Lemma clean_in_tx {A} (body : PM A) : clean body -> clean (in_tx id body).
Proof.
  intros Hb w e w'. unfold in_tx. destruct (ask (fun _ => tt) w) as [[u|e1] w1] eqn:HA.
  - destruct (body _) as [r w2] eqn:HB. intros [= -> _]. by eapply Hb.
  - intros [= <- _]. by eapply clean_ask.
Qed.

Lemma ParseCanonical_Err s e : ParseCanonical s = Err e -> e = Sentinel ErrInvalidStreamID.
Proof.
  unfold ParseCanonical. destruct (IndexByte _ _); [|by intros [= <-]]. destruct (_ || _); [by intros [= <-]|].
  unfold NewStreamID. match goal with |- context [Validate ?x] => destruct (Validate_cases x) as [-> | ->] end; [done|by intros [= <-]].
Qed.

Lemma clean_scan rows e : result_map pg_scanEnvelope rows = Err e -> Is e ErrStreamNotFound = false.
Proof.
  induction rows as [|r rows IH]; [done|]. cbn [result_map]. destruct (pg_scanEnvelope r) as [a|e1] eqn:Hr; simpl.
  - destruct (result_map pg_scanEnvelope rows); [done|]. intros [= ->]. by apply IH.
  - intros [= <-]. revert Hr. unfold pg_scanEnvelope. destruct (ParseCanonical (p_stream_id r)) as [sid|e2] eqn:HP; [done|].
    intros [= <-]. simpl. by rewrite (ParseCanonical_Err _ _ HP).
Qed.
Lemma clean_queryDB q : clean (queryDB q).
Proof. apply clean_bind; [apply clean_select|]. intros rows. apply clean_lift, clean_scan. Qed.
Lemma clean_Validate sid : clean (lift (Validate sid)).
Proof. apply clean_lift. intros e He. destruct (Validate_cases sid) as [Hv|Hv]; rewrite Hv in He; [done|by injection He as <-]. Qed.
Lemma clean_bind_arg n : forall e, pg_bind n = Err e -> Is e ErrStreamNotFound = false.
Proof. unfold pg_bind. destruct (n <=? max_int64)%N; [done|]. by intros e [= <-]. Qed.

Lemma clean_ReadStream sid from to : clean (pg_ReadStream ws sid from to).
Proof.
  apply clean_bind; [apply clean_Validate|]. intros _. apply clean_in_tx, clean_bind; [apply clean_setWorkspace|]. intros _.
  apply clean_bind; [apply clean_lift, clean_bind_arg|]. intros _. apply clean_bind; [|intros _; apply clean_queryDB].
  destruct (0 <? to)%N; [apply clean_lift, clean_bind_arg|by apply clean_lift].
Qed.

Lemma clean_ReadStreamAsOf sid t : clean (pg_ReadStreamAsOf ws sid t).
Proof.
  apply clean_bind; [apply clean_Validate|]. intros _. apply clean_in_tx, clean_bind; [apply clean_setWorkspace|]. intros _. apply clean_queryDB.
Qed.
End Reads.

(** ** The runtime's world *)

Record pgrt := MkPgrt {
  pr_world : pgw;
  pr_cache : gmap string Snapshot
}.

Section Instance.
Context {UL : UuidLib} {EV : Env} {PE : PgEnv}.
Variable cap : Z.
Variable ws : string.

Definition on_pg {A} (m : PM A) : SM pgrt A := fun w =>
  let '(x, w1) := m (pr_world w) in (x, MkPgrt w1 (pr_cache w)).

#[global] Instance pg_store : StoreOps pgrt := {
  st_Append p := on_pg (pg_Append cap ws p);
  st_ReadStream sid from to := on_pg (pg_ReadStream ws sid from to);
  st_ReadStreamAsOf sid t := on_pg (pg_ReadStreamAsOf ws sid t)
}.

(** Time passes, and other sessions move, at every service call too. *)
Definition pass (w : pgrt) : pgrt := MkPgrt (interfere (pr_world w)) (pr_cache w).

#[global] Instance pg_runtime_ops : RuntimeOps pgrt := {
  rw_Now w := (clock (pg_tick (pr_world w)), pass w);
  rw_newV7 w := (fresh_id (pg_tick (pr_world w)), pass w);
  rw_ctxErr := ret tt;
  rw_timer d := fun w => (Ok tt, pass w);
  rw_cacheLoad id := fun w => (Ok (pr_cache w !! id), w);
  rw_cacheSave id s := fun w => (Ok tt, MkPgrt (pr_world w) (<[id := s]> (pr_cache w)))
}.

Section Laws.
Context {S C E : Type}.
Variable r : Runtime S C E.
Hypothesis Hclk : clock_ok.
Hypothesis Hmono : clock_monotone.
Hypothesis Hfaults : driver_faults.

Record pg_rep (w : pgrt) (L : list Envelope) : Prop := {
  pr_ok : pg_ok (pr_world w);
  pr_log : L = pg_log ws (pg_server (pr_world w));
  pr_snaps : forall id s, pr_cache w !! id = Some s -> snap_ok r L id s
}.

(** A later world stands for a longer log. *)
Lemma pg_rep_later w L w1 : pg_rep w L -> failed (pr_world w) w1 ->
  exists L', L' = pg_log ws (pg_server w1) /\ L `prefix_of` L' /\ pg_rep (MkPgrt w1 (pr_cache w)) L'.
Proof.
  intros [Hok -> Hc] [H1 H2]. pose proof (pg_log_prefix ws _ _ (evolves_prefix _ _ H2)) as HP. eexists. split; [reflexivity|].
  split; [exact HP|]. split; [done|done|]. intros id s Hs. eapply snap_ok_mono; [exact HP|by apply Hc].
Qed.

Lemma pass_rep w L : pg_rep w L -> exists L', L `prefix_of` L' /\ pg_rep (pass w) L'.
Proof.
  intros Hr. pose proof (interfere_quiet Hmono _ (pr_ok _ _ Hr)) as Hq.
  destruct (pg_rep_later w L (interfere (pr_world w)) Hr) as (L' & _ & HP & Hr'); [split; apply Hq|]. eauto.
Qed.

Lemma pg_append_law p w L x w' :
  pg_rep w L -> st_Append p w = (x, w') ->
  exists L1 L', L `prefix_of` L1 /\ pg_rep w' L'
    /\ match x with
       | Ok a => batch p L1 a /\ (L1 ++ ar_Envelopes a) `prefix_of` L'
       | Err _ => L1 `prefix_of` L'
       end.
Proof.
  intros Hr. simpl. unfold on_pg. destruct (pg_Append cap ws p (pr_world w)) as [y w1] eqn:HA. intros [= <- <-].
  pose proof (triple_run _ _ _ _ _ _ _ (Append_triple Hmono cap ws p (pr_world w)) (conj (pr_ok _ _ Hr) (reflexivity _)) HA) as HT.
  destruct y as [a|e].
  2:{ destruct (pg_rep_later _ _ _ Hr HT) as (L' & _ & HP & Hr'). exists L, L'. done. }
  destruct HT as (Hf & Hv & s1 & He & Hex & Hmine & HP1). destruct (pg_rep_later _ _ _ Hr Hf) as (L' & HL' & HP & Hr').
  exists (pg_log ws s1), L'. rewrite (pr_log _ _ Hr). split; [by apply pg_log_prefix, evolves_prefix|]. split; [done|].
  assert (Validate (ap_StreamID p) = Ok tt) as Hsid by (unfold validateAppend in Hv; by apply result_bind_Ok in Hv as ([] & ? & _)).
  assert (all_good (clock (pg_tick w1)) s1) as Hg.
  { intros row Hrow. apply (ok_good w1 (proj1 Hf)). destruct HP1 as [K ->]. rewrite !elem_of_app. auto. }
  assert (map row_env (ws_part ws (map pg_stored (ar_Envelopes a))) = ar_Envelopes a) as Hnews.
  { clear -Hmine. induction Hmine as [|e l (Hw & E1 & E2) Hl IH]; [done|]. unfold ws_part in *. simpl. rewrite filter_cons, decide_True by done.
    simpl. by rewrite row_env_stored, IH. }
  split.
  - destruct Hex as [X1 X2 X3 (o & t & X4) X5]. split; try done.
    + by rewrite (stream_of_line ws _ _ _ Hg).
    + by eapply carries_sid.
    + clear -X4. induction X4 as [|ev e evs es Hc Hcs IH]; [done|]. simpl. f_equal; [|done]. destruct Hc. unfold wire, wire_data. congruence.
  - rewrite HL'. destruct HP1 as [K HK]. unfold pg_log at 2. rewrite HK, <- app_assoc, pg_log_app. unfold ws_part at 1.
    rewrite filter_app, map_app. fold (ws_part ws (map pg_stored (ar_Envelopes a))). rewrite Hnews, app_assoc. by apply prefix_app_r.
Qed.

(** The reads, in the shape of the contract. *)
Lemma pg_read_law {A} (m : PM A) (P : A -> server -> Prop) w L x w' :
  (forall w0, triple (fun w => pg_ok w /\ later w0 w) m (fun a w => failed w0 w /\ P a (pg_server w)) (failed w0)) ->
  pg_rep w L -> on_pg m w = (x, w') ->
  exists L', L `prefix_of` L' /\ pg_rep w' L' /\ L' = pg_log ws (pg_server (pr_world w'))
    /\ forall a, x = Ok a -> P a (pg_server (pr_world w')).
Proof.
  intros Hm Hr. unfold on_pg. destruct (m (pr_world w)) as [y w1] eqn:HM. intros [= <- <-].
  pose proof (triple_run _ _ _ _ _ _ _ (Hm (pr_world w)) (conj (pr_ok _ _ Hr) (reflexivity _)) HM) as HT. destruct y as [a|e].
  - destruct HT as [Hf HP]. destruct (pg_rep_later _ _ _ Hr Hf) as (L' & HL & Hpre & Hr'). exists L'. split; [done|]. split; [done|].
    split; [done|]. by intros b [= <-].
  - destruct (pg_rep_later _ _ _ Hr HT) as (L' & HL & Hpre & Hr'). by exists L'.
Qed.

Lemma ReadStream_triple sid from to w0 :
  triple (fun w => pg_ok w /\ later w0 w) (pg_ReadStream ws sid from to)
    (fun envs w => failed w0 w /\ Validate sid = Ok tt /\ envs = filter (in_version_range from to) (stream_of sid (pg_log ws (pg_server w))))
    (failed w0).
Proof.
  unfold pg_ReadStream. destruct (Validate_cases sid) as [Hv|Hv]; [|intros w Hw; unfold bind, lift; rewrite Hv; exact Hw].
  eapply triple_bind; [apply triple_lift; [intros u w _ Hw; exact Hw|done]|]. intros u.
  apply (read_triple Hmono ws id _ (fun envs s => Validate sid = Ok tt /\ envs = filter (in_version_range from to) (stream_of sid (pg_log ws s)))).
  unfold readStream.
  eapply triple_bind; [apply triple_lift; [intros u1 w _ Hw; exact Hw|intros w (? & _ & ?); done]|]. intros u1.
  eapply triple_bind; [apply triple_lift; [intros u2 w _ Hw; exact Hw|intros w (? & _ & ?); done]|]. intros u2.
  eapply triple_conseq; [intros w Hw; exact Hw| |apply (query_triple Hmono ws)].
  intros envs w ([Hok Hl] & Hs & HR). split; [done|]. split; [done|]. split; [done|]. cbv beta in HR.
  apply (stream_query ws w sid _ (in_version_range from to) envs) in HR; try done. intros e. simpl. unfold in_version_range.
  rewrite Is_true_true, andb_true_iff, orb_true_iff, N.ltb_lt, N.eqb_eq, N.leb_le.
  split; intros [H1 H2]; split; try done; [destruct (decide (to = 0%N)); [by left|right; lia]|lia].
Qed.

Lemma ReadStreamAsOf_triple sid t w0 :
  triple (fun w => pg_ok w /\ later w0 w) (pg_ReadStreamAsOf ws sid t)
    (fun envs w => failed w0 w /\ envs = filter (fun e => RecordedAt e <= t)%Z (stream_of sid (pg_log ws (pg_server w)))
                   /\ exists k, envs = take k (stream_of sid (pg_log ws (pg_server w)))) (failed w0).
Proof.
  unfold pg_ReadStreamAsOf. destruct (Validate_cases sid) as [Hv|Hv]; [|intros w Hw; unfold bind, lift; rewrite Hv; exact Hw].
  eapply triple_bind; [apply triple_lift; [intros u w _ Hw; exact Hw|done]|]. intros u.
  apply (read_triple Hmono ws id _ (fun envs s => envs = filter (fun e => RecordedAt e <= t)%Z (stream_of sid (pg_log ws s))
    /\ exists k, envs = take k (stream_of sid (pg_log ws s)))).
  eapply triple_conseq; [intros w Hw; exact Hw| |apply (query_triple Hmono ws)].
  intros envs w ([Hok Hl] & Hs & HR). split; [done|]. split; [done|]. cbv beta in HR.
  apply (stream_query ws w sid _ (fun e => RecordedAt e <= t)%Z envs) in HR; try done. split; [done|].
  rewrite HR. apply (sorted_le_filter RecordedAt). rewrite (stream_of_line ws _ _ _ (ok_good w Hok)) by done.
  apply (lo_base _ _ (po_log _ Hok) ws sid Hv).
Qed.

#[global] Instance pg_store_laws : StoreLaws pgrt pg_rep.
Proof.
  split.
  - intros w L sid [Hok -> _]. by apply pg_log_versions.
  - intros w L p x w' Hr _. by apply pg_append_law.
  - intros w L sid from to x w' Hr HR.
    destruct (pg_read_law _ (fun l s => Validate sid = Ok tt /\ l = filter (in_version_range from to) (stream_of sid (pg_log ws s)))
      w L x w' (ReadStream_triple sid from to) Hr HR) as (L' & HP & Hr' & HL & HQ).
    exists L', L'. split; [done|]. split; [done|]. split; [done|]. destruct x as [l|e]; [subst L'; by apply HQ|].
    revert HR. simpl. unfold on_pg. destruct (pg_ReadStream ws sid from to (pr_world w)) as [y w1] eqn:HM. intros [= -> _].
    by rewrite (clean_ReadStream ws Hfaults _ _ _ _ _ _ HM).
  - intros w L sid t x w' Hr _ HR.
    destruct (pg_read_law _ (fun l s => l = filter (fun e => RecordedAt e <= t)%Z (stream_of sid (pg_log ws s)) /\ exists k, l = take k (stream_of sid (pg_log ws s)))
      w L x w' (ReadStreamAsOf_triple sid t) Hr HR) as (L' & HP & Hr' & HL & HQ).
    exists L', L'. split; [done|]. split; [done|]. split; [done|]. destruct x as [l|e]; [subst L'; by apply HQ|].
    revert HR. simpl. unfold on_pg. destruct (pg_ReadStreamAsOf ws sid t (pr_world w)) as [y w1] eqn:HM. intros [= -> _].
    by rewrite (clean_ReadStreamAsOf ws Hfaults _ _ _ _ _ HM).
Qed.

#[global] Instance pg_runtime_laws : RuntimeLaws pgrt pg_rep (snap_ok r).
Proof.
  split.
  - intros w L t w' Hr [= <- <-]. split; [apply Hclk|by apply pass_rep].
  - intros w L id w' Hr [= _ <-]. by apply pass_rep.
  - intros w L x w' Hr [= _ <-]. eauto.
  - intros d w L x w' Hr [= _ <-]. by apply pass_rep.
  - intros id w L x w' Hr [= <- <-]. exists L. split; [done|]. split; [done|]. intros s [= Hs]. by apply (pr_snaps _ _ Hr).
  - intros id s w L x w' [Hok HL Hc] Hs [= _ <-]. exists L. split; [done|]. split; [done|done|].
    simpl. intros id' s' [[<- <-]|[_ Hs']]%lookup_insert_Some; [done|by apply Hc].
Qed.
End Laws.
End Instance.
