(* ===== verification/PgFeed.v ===== *)
(** * The feed's PostgreSQL adapters (src/postgres/feed.go)

    Checkpoints, leases and dead letters of one workspace, each operation one
    short transaction ([runWorkspace]) of one statement on a row of the feed
    tables, with the database's own clock; and the feed log over a fresh
    workspace handle.  A row a transaction has written is locked until it ends,
    so other processes reach the feed tables only before a transaction's
    statement: the model lets them act when the transaction begins. *)
From S2P Require Import Prelude Sha256 Es Hash Chain Anchor Timestamp Effect Store Sql Sqlite Definitions FeedPorts Feed.
From S2P Require Import PgServer PgStore.

(** ** Tables *)

(** position is a signed bigint. *)
Record PgCheckpointRow := MkPgCheckpointRow {
  pc_position : Z;
  pc_definition_hash : string;
  pc_updated_at : time
}.

Record PgLeaseRow := MkPgLeaseRow {
  pl_owner : string;
  pl_consumer : string;
  pl_expires_at : time
}.

Record PgDeadLetterRow := MkPgDeadLetterRow {
  pd_type_url : string;
  pd_size_bytes : Z;
  pd_reason : string;
  pd_actor : string;
  pd_created_at : time
}.

(** (workspace_id, projection, instance). *)
Abbreviation feed_key := (string * string * string)%type.

Record feedtabs := MkFeedtabs {
  ft_checkpoints : gmap feed_key PgCheckpointRow;
  ft_leases : gmap feed_key PgLeaseRow;
  ft_dead_letters : gmap (feed_key * Z) PgDeadLetterRow
}.

Definition set_ft_checkpoints m (t : feedtabs) : feedtabs := MkFeedtabs m (ft_leases t) (ft_dead_letters t).
Definition set_ft_leases m (t : feedtabs) : feedtabs := MkFeedtabs (ft_checkpoints t) m (ft_dead_letters t).
Definition set_ft_dead_letters m (t : feedtabs) : feedtabs := MkFeedtabs (ft_checkpoints t) (ft_leases t) m.

(** The world of a feed process: the event store's world, the feed tables, the
    tables as they were when the open transaction began, what the sink and the
    observer got, what other processes will do to the feed tables, the ticker's
    firings, the end of the caller's context, and the owner sequence. *)
Record pgf := MkPgf {
  pf_pg : pgw;
  pf_tables : feedtabs;
  pf_saved : option feedtabs;
  pf_sent : list Envelope;
  pf_signals : list signal;
  pf_others : list (feedtabs -> feedtabs);
  pf_ticks : list nat;
  pf_until : option nat;
  pf_cancelled : bool;
  pf_seq : N
}.

Definition set_pg (x : pgw) (w : pgf) : pgf :=
  MkPgf x (pf_tables w) (pf_saved w) (pf_sent w) (pf_signals w) (pf_others w) (pf_ticks w) (pf_until w) (pf_cancelled w) (pf_seq w).
Definition set_tables (t : feedtabs) (saved : option feedtabs) (w : pgf) : pgf :=
  MkPgf (pf_pg w) t saved (pf_sent w) (pf_signals w) (pf_others w) (pf_ticks w) (pf_until w) (pf_cancelled w) (pf_seq w).

(** int64(position) and uint64(pos). *)
Definition int64_of (n : N) : Z := i64 (Z.of_N n).

(** A Go int bound to an int4 column. *)
Definition bind_int4 (z : Z) : res Z :=
  if ((- 2147483648 <=? z) && (z <=? 2147483647))%Z then Ok z else Err (ErrorsNew "is greater than maximum value for int4").

(** pgx scanning a bigint into a uint64. *)
Definition scan_uint64 (z : Z) : res N :=
  if (0 <=? z)%Z then Ok (Z.to_N z) else Err (ErrorsNew "is less than zero for uint64").

Section Feed.
Context {UL : UuidLib} {EV : Env} {PE : PgEnv}.
Variable maxPayloadBytes : Z.

(** ** Transactions over the feed tables *)

Definition on_pgw {A} (m : PM A) : SM pgf A := fun w =>
  let '(r, x) := m (pf_pg w) in (r, set_pg x w).

(** The next pending action of another process on the feed tables. *)
Definition others_act (w : pgf) : pgf :=
  match pf_others w with
  | [] => w
  | f :: fs => MkPgf (pf_pg w) (f (pf_tables w)) (pf_saved w) (pf_sent w) (pf_signals w) fs (pf_ticks w) (pf_until w) (pf_cancelled w) (pf_seq w)
  end.

Definition feed_Begin : SM pgf unit := fun w =>
  let w := others_act w in
  match ask (fun _ => tt) (pf_pg w) with
  | (Err e, x) => (Err e, set_pg x w)
  | (Ok _, x) => (Ok tt, set_tables (pf_tables w) (Some (pf_tables w)) (set_pg (with_session x (Some (MkSession None None false))) w))
  end.

(** A statement on the feed tables; [f] gets clock_timestamp(), which has
    microseconds. *)
Definition feed_exec {A} (f : time -> feedtabs -> A * feedtabs) : SM pgf A := fun w =>
  let now := TruncateMicros (clock (pg_tick (pf_pg w))) in
  match ask (fun _ => tt) (pf_pg w) with
  | (Err e, x) => (Err e, set_pg x w)
  | (Ok _, x) => let '(a, t) := f now (pf_tables w) in (Ok a, set_tables t (pf_saved w) (set_pg x w))
  end.

Definition feed_Commit : SM pgf unit := fun w =>
  let n := pg_tick (pf_pg w) in
  let '(r, x) := Commit (pf_pg w) in
  match r with
  | Ok _ => (Ok tt, set_tables (pf_tables w) None (set_pg x w))
  | Err e => (Err e, if lost_ack n then set_tables (pf_tables w) None (set_pg x w) else set_pg x w)
  end.

Definition feed_Rollback (w : pgf) : pgf :=
  match pf_saved w with
  | None => set_pg (Rollback (pf_pg w)) w
  | Some t => set_tables t None (set_pg (Rollback (pf_pg w)) w)
  end.

Definition runWorkspace {A} (ws : string) (fn : SM pgf A) : SM pgf A := fun w =>
  match feed_Begin w with
  | (Err e, w) => (Err (Errorf "postgres: feed: begin" e), w)
  | (Ok _, w) =>
      let '(r, w) := (let! _ := on_pgw (setWorkspace ws) wrap "postgres: feed: set workspace" in
                      let! a := fn in
                      let! _ := feed_Commit wrap "postgres: feed: commit" in
                      ret a) w in
      (r, feed_Rollback w)
  end.

(** *** Single-row reads *)

(** pgx.ErrNoRows: a read that finds nothing ends its transaction with it. *)
Definition no_rows : error := ErrorsNew "no rows in result set".
Definition is_no_rows (e : error) : bool :=
  match e with ErrorsNew m => bool_decide (m = "no rows in result set"%string) | _ => false end.

Definition query_row {A} (f : time -> feedtabs -> option A) : SM pgf A :=
  let! row := feed_exec (fun now t => (f now t, t)) in
  match row with
  | None => throw no_rows
  | Some a => ret a
  end.

(** if errors.Is(err, pgx.ErrNoRows) { not found }; if err != nil { wrap }. *)
Definition find_row {A} (ctx : string) (m : SM pgf A) : SM pgf (option A) :=
  let! r := attempt m in
  match r with
  | Ok a => ret (Some a)
  | Err e => if is_no_rows e then ret None else throw (Errorf ctx e)
  end.

(** ** Checkpoints *)

Definition pg_checkpoint_Load (scope projection instance : string) : SM pgf N :=
  let! row := find_row "postgres: checkpoints: load" (runWorkspace scope (
      query_row (fun _ t => ft_checkpoints t !! (scope, projection, instance)))) in
  match row with
  | None => ret 0%N
  | Some r => ret (u64_of_Z (pc_position r))
  end.

(** INSERT ... ON CONFLICT DO UPDATE; [merge old new] is the position kept. *)
Definition pg_upsert_checkpoint (merge : Z -> Z -> Z) (scope projection instance definition : string) (position : N)
    (now : time) (t : feedtabs) : unit * feedtabs :=
  let k := (scope, projection, instance) in
  let row := match ft_checkpoints t !! k with
             | None => MkPgCheckpointRow (int64_of position) definition now
             | Some old => MkPgCheckpointRow (merge (pc_position old) (int64_of position))
                             (if bool_decide (definition = EmptyString) then pc_definition_hash old else definition) now
             end in
  (tt, set_ft_checkpoints (<[k := row]> (ft_checkpoints t)) t).

Definition pg_checkpoint_Save (scope projection instance definition : string) (position : N) : SM pgf unit :=
  runWorkspace scope (feed_exec (pg_upsert_checkpoint Z.max scope projection instance definition position))
  wrap "postgres: checkpoints: save".

Definition pg_checkpoint_Reset (scope projection instance definition : string) (position : N) : SM pgf unit :=
  runWorkspace scope (feed_exec (pg_upsert_checkpoint (fun _ new => new) scope projection instance definition position))
  wrap "postgres: checkpoints: reset".

Definition pg_checkpoint_Delete (scope projection instance : string) : SM pgf unit :=
  runWorkspace scope (feed_exec (fun _ t => (tt, set_ft_checkpoints (delete (scope, projection, instance) (ft_checkpoints t)) t)))
  wrap "postgres: checkpoints: delete".

Definition pg_checkpoint_Checkpoint (scope projection instance : string) : SM pgf (option Checkpoint) :=
  find_row "postgres: checkpoints: read" (runWorkspace scope (
    let! r := query_row (fun _ t => ft_checkpoints t !! (scope, projection, instance)) in
    let! pos := lift (scan_uint64 (pc_position r)) in
    ret (MkCheckpoint pos (pc_definition_hash r) (pc_updated_at r)))).

(** ** Leases *)

(** clock_timestamp() + ttl.Microseconds() * interval '1 microsecond'. *)
Definition lease_expiry (now : time) (ttl : Z) : time := (now + Z.quot ttl 1000 * 1000)%Z.

(** The owner-guarded upsert; the rows affected. *)
Definition pg_upsert_lease (k : feed_key) (owner consumer : string) (ttl : Z) (now : time) (t : feedtabs) : Z * feedtabs :=
  let take := (1%Z, set_ft_leases (<[k := MkPgLeaseRow owner consumer (lease_expiry now ttl)]> (ft_leases t)) t) in
  match ft_leases t !! k with
  | None => take
  | Some r => if bool_decide (pl_owner r = owner) || (pl_expires_at r <=? now)%Z then take else (0%Z, t)
  end.

Definition pg_lease_Acquire (scope projection instance owner consumer : string) (ttl : Z) : SM pgf bool :=
  runWorkspace scope (
    let! n := feed_exec (pg_upsert_lease (scope, projection, instance) owner consumer ttl) in
    ret (n =? 1)%Z) wrap "postgres: leases: acquire".

Definition pg_lease_Renew (scope projection instance owner : string) (ttl : Z) : SM pgf bool :=
  runWorkspace scope (
    let! n := feed_exec (fun now t =>
        let k := (scope, projection, instance) in
        match ft_leases t !! k with
        | Some r => if bool_decide (pl_owner r = owner)
                    then (1%Z, set_ft_leases (<[k := MkPgLeaseRow owner (pl_consumer r) (lease_expiry now ttl)]> (ft_leases t)) t)
                    else (0%Z, t)
        | None => (0%Z, t)
        end) in
    ret (n =? 1)%Z) wrap "postgres: leases: renew".

Definition pg_lease_Release (scope projection instance owner : string) : SM pgf unit :=
  runWorkspace scope (feed_exec (fun _ t =>
    let k := (scope, projection, instance) in
    match ft_leases t !! k with
    | Some r => if bool_decide (pl_owner r = owner) then (tt, set_ft_leases (delete k (ft_leases t)) t) else (tt, t)
    | None => (tt, t)
    end)) wrap "postgres: leases: release".

Definition pg_lease_Holder (scope projection instance : string) : SM pgf (option Lease) :=
  let! row := find_row "postgres: leases: holder" (runWorkspace scope (
      query_row (fun now t =>
        match ft_leases t !! (scope, projection, instance) with
        | Some r => if (now <? pl_expires_at r)%Z then Some r else None
        | None => None
        end))) in
  ret ((fun r => MkLease (pl_owner r) (pl_consumer r) (pl_expires_at r)) <$> row).

(** ** Dead letters *)

(** SELECT type_url, octet_length(payload) ... WHERE workspace_id AND global_position. *)
Definition pg_name_event (scope : string) (position : Z) (rows : list PgEvent) : option (string * Z) :=
  (fun r => (p_type_url r, Z.of_nat (length (p_payload r))))
    <$> head (filter (fun r => p_workspace_id r = scope /\ Z.of_N (p_global_position r) = position) rows).

Definition pg_dead_letter_Record (dl : DeadLetter) : SM pgf unit :=
  runWorkspace (dlt_Scope dl) (
    let! (typeURL, size) :=
      if bool_decide (dlt_TypeURL dl = EmptyString) then
        let! row := on_pgw (select (pg_name_event (dlt_Scope dl) (int64_of (dlt_Position dl))))
                    wrap "postgres: dead letters: name the event" in
        ret (default (EmptyString, 0%Z) row)
      else ret (dlt_TypeURL dl, dlt_SizeBytes dl) in
    let! _ := lift (bind_int4 size) in
    feed_exec (fun now t => (tt, set_ft_dead_letters
      (<[(dlt_Scope dl, dlt_Projection dl, dlt_Instance dl, int64_of (dlt_Position dl)) :=
          MkPgDeadLetterRow typeURL size (dlt_Reason dl) (dlt_Actor dl) now]> (ft_dead_letters t)) t)))
  wrap "postgres: dead letters: record".

(** ** The log *)

Definition pg_Log (ws : string) : Log pgf := {|
  lg_ReadAllBounded from limit maxBytes types := on_pgw (pg_ReadAllBounded maxPayloadBytes ws from limit maxBytes types);
  lg_Head := on_pgw (pg_Head ws);
  lg_RawHead := on_pgw (pg_RawHead ws);
  lg_MatchingHead types := on_pgw (pg_MatchingHead ws types)
|}.

(** Logs.Open: a handle of its own, whose fence is unset. *)
Definition pg_Open : Logs pgf := fun scope w => (Ok (pg_Log scope), set_pg (with_fence (pf_pg w) 0 0) w).

(** ** The ports and the process around them *)

Definition pg_Checkpoints : CheckpointStore pgf := {|
  cs_Load := pg_checkpoint_Load; cs_Save := pg_checkpoint_Save; cs_Reset := pg_checkpoint_Reset;
  cs_Delete := pg_checkpoint_Delete; cs_Checkpoint := pg_checkpoint_Checkpoint
|}.

(** A failed Acquire reports false. *)
Definition pg_Leases : LeaseStore pgf := {|
  le_Acquire s p i owner consumer ttl w :=
    match pg_lease_Acquire s p i owner consumer ttl w with
    | (Ok b, w) => (b, None, w)
    | (Err e, w) => (false, Some e, w)
    end;
  le_Renew := pg_lease_Renew; le_Release := pg_lease_Release; le_Holder := pg_lease_Holder
|}.

Definition pf_ctx_err (w : pgf) : option error :=
  match pf_until w with
  | Some n => if (n <=? pg_tick (pf_pg w))%nat then Some (Sentinel Canceled) else None
  | None => None
  end.
Definition pf_run_err (w : pgf) : option error := if pf_cancelled w then Some (Sentinel Canceled) else pf_ctx_err w.

(** Time passes, and other sessions move. *)
Definition pf_pass (w : pgf) : pgf := set_pg (interfere (pf_pg w)) w.

Definition pf_set_cancelled (b : bool) (w : pgf) : pgf :=
  MkPgf (pf_pg w) (pf_tables w) (pf_saved w) (pf_sent w) (pf_signals w) (pf_others w) (pf_ticks w) (pf_until w) b (pf_seq w).

#[global] Instance pg_feed_env : FeedEnv pgf := {
  fx_Now w := (clock (pg_tick (pf_pg w)), pf_pass w);
  fx_ctxErr w := (pf_ctx_err w, w);
  fx_runErr w := (pf_run_err w, w);
  fx_withCancel := pf_set_cancelled false;
  fx_cancel := pf_set_cancelled true;
  fx_timer d w := match pf_run_err w with Some e => (Err e, w) | None => (Ok tt, pf_pass (others_act w)) end;
  fx_ticks w := match pf_ticks w with
                | [] => (O, w)
                | n :: ns => (n, MkPgf (pf_pg w) (pf_tables w) (pf_saved w) (pf_sent w) (pf_signals w) (pf_others w) ns
                                   (pf_until w) (pf_cancelled w) (pf_seq w))
                end;
  fx_seqAdd w := let n := u64 (pf_seq w + 1) in
                 (n, MkPgf (pf_pg w) (pf_tables w) (pf_saved w) (pf_sent w) (pf_signals w) (pf_others w) (pf_ticks w)
                       (pf_until w) (pf_cancelled w) n);
  fx_randRead w := (Ok (be 8 (N.of_nat (pg_tick (pf_pg w)))), pf_pass w);
  fx_jitter d w := (d, w)
}.

Definition pf_record_signal : Observer pgf := fun x w =>
  MkPgf (pf_pg w) (pf_tables w) (pf_saved w) (pf_sent w) (pf_signals w ++ [x]) (pf_others w) (pf_ticks w) (pf_until w)
    (pf_cancelled w) (pf_seq w).

Definition pf_collect (accept : Envelope -> pgf -> option error) : Sink pgf := fun env w =>
  match accept env w with
  | Some e => (Err e, w)
  | None => (Ok tt, MkPgf (pf_pg w) (pf_tables w) (pf_saved w) (pf_sent w ++ [env]) (pf_signals w) (pf_others w) (pf_ticks w)
                      (pf_until w) (pf_cancelled w) (pf_seq w))
  end.
End Feed.
