(* ===== verification/PgFeedCorrect.v ===== *)
(** * The feed over PostgreSQL

    The adapters of PgFeed.v discharge the contract of FeedContract.v, with a log
    whose pages wait for transactions in flight: the log a subscription follows
    is the part of the workspace's events, in position order, that no commit can
    change any more. *)
From S2P Require Import Prelude Sha256 Es Hash Chain Anchor Timestamp Effect Store Sql Sqlite SqliteCorrect SqliteTheorems.
From S2P Require Import Definitions FeedPorts Feed FeedConfig FeedContract FeedCorrect PgServer PgServerCorrect PgStore PgFence PgLog PgAppend PgFeed.

(** ** Sorted lists *)

Lemma order_by_filter {A} (key : A -> N) (P : A -> Prop) `{!forall x, Decision (P x)} l :
  (forall x y, x ∈ l -> y ∈ l -> key x = key y -> x = y) -> order_by key (filter P l) = filter P (order_by key l).
Proof.
  intros Hinj. apply (StronglySorted_unique_strong (key_order key)).
  - intros a b Ha Hb Hab Hba. rewrite (order_by_perm key) in Ha. apply list_elem_of_filter in Ha as [_ Ha], Hb as [_ Hb].
    rewrite (order_by_perm key) in Hb. apply Hinj; [done|done|]. unfold key_order in *. lia.
  - apply StronglySorted_merge_sort; apply _.
  - apply sorted_filter, StronglySorted_merge_sort; apply _.
  - rewrite order_by_perm. by rewrite (order_by_perm key l).
Qed.

(** A threshold cuts a sorted list in two. *)
Lemma sorted_filter_prefix {A} (key : A -> N) (p : N) l :
  StronglySorted (fun a b => key a < key b)%N l -> filter (fun x => key x <= p)%N l `prefix_of` l.
Proof.
  induction 1 as [|x l Hs IH Hx]; [done|]. rewrite filter_cons. case_decide; [by apply prefix_cons|].
  rewrite filter_false; [apply prefix_nil|]. rewrite Forall_forall in Hx. intros y Hy ?. specialize (Hx y Hy). lia.
Qed.

Lemma order_by_strict {A} (key : A -> N) l :
  NoDup l -> (forall x y, x ∈ l -> y ∈ l -> key x = key y -> x = y) -> StronglySorted (fun a b => key a < key b)%N (order_by key l).
Proof.
  intros Hn Hinj. assert (NoDup (order_by key l)) as Hno by (by rewrite (order_by_perm key)).
  assert (forall x, x ∈ order_by key l -> x ∈ l) as Hin by (intros x Hx; by rewrite (order_by_perm key) in Hx).
  assert (StronglySorted (key_order key) (order_by key l)) as Hs by (apply StronglySorted_merge_sort; apply _). unfold order_by in *.
  revert Hno Hin Hs. generalize (merge_sort (key_order key) l). intros k Hno Hin Hs. induction Hs as [|x k Hs IH Hx]; [constructor|].
  apply NoDup_cons in Hno as [Hxk Hno]. constructor; [apply IH; [done|]; intros y Hy; apply Hin; by right|].
  rewrite Forall_forall in *. intros y Hy. specialize (Hx y Hy). unfold key_order in Hx.
  assert (key x <> key y); [|lia]. intros E. apply Hxk. rewrite (Hinj x y); [done|apply Hin; by left|apply Hin; by right|done].
Qed.

Section Content.
Context {UL : UuidLib} {EV : Env} {PE : PgEnv}.
Variable ws : string.

(** ** The settled log *)

Definition rows_upto (p : N) (s : server) : list PgEvent :=
  filter (fun r => p_global_position r <= p)%N (order_by p_global_position (ws_part ws (sv_events s))).

(** The events of the workspace up to a position, in position order. *)
Definition pos_log (p : N) (s : server) : list Envelope := map row_env (rows_upto p s).

Lemma upto_rows_order p s : ids_inv s ->
  rows_upto p s = order_by p_global_position (filter (fun r => p_global_position r <= p)%N (ws_part ws (sv_events s))).
Proof.
  intros Hi. symmetry. apply order_by_filter. intros x y [_ Hx]%elem_of_ws_part [_ Hy]%elem_of_ws_part. by apply (row_unique s).
Qed.

Lemma upto_rows_closed p s s' : ids_inv s -> ids_inv s' -> evolves s s' -> closed s p -> rows_upto p s' = rows_upto p s.
Proof.
  intros Hi Hi' He Hc. rewrite !upto_rows_order by done. symmetry. apply order_by_members.
  - by apply NoDup_filter, ws_part_nodup.
  - by apply NoDup_filter, ws_part_nodup.
  - intros x. rewrite !list_elem_of_filter, !elem_of_ws_part. destruct (evolves_prefix _ _ He) as [K HK]. split; intros (Hle & Hw & Hx).
    + split; [done|]. split; [done|]. rewrite HK. apply elem_of_app. by left.
    + split; [done|]. split; [done|]. by apply (Hc s').
  - intros x y [_ [_ Hx]%elem_of_ws_part]%list_elem_of_filter [_ [_ Hy]%elem_of_ws_part]%list_elem_of_filter. by apply (row_unique s).
Qed.

Lemma upto_strict p s : ids_inv s -> StronglySorted (fun a b => p_global_position a < p_global_position b)%N (rows_upto p s).
Proof.
  intros Hi. apply sorted_filter, order_by_strict; [by apply ws_part_nodup|].
  intros x y [_ Hx]%elem_of_ws_part [_ Hy]%elem_of_ws_part. by apply (row_unique s).
Qed.

Lemma pos_log_mono p q s : ids_inv s -> (p <= q)%N -> pos_log p s `prefix_of` pos_log q s.
Proof.
  intros Hi Hle. unfold pos_log. assert (rows_upto p s `prefix_of` rows_upto q s) as [K ->]; [|rewrite map_app; by apply prefix_app_r].
  replace (rows_upto p s) with (filter (fun r => p_global_position r <= p)%N (rows_upto q s)); [by apply sorted_filter_prefix, upto_strict|].
  unfold rows_upto. rewrite list_filter_filter. apply list_filter_iff. intros r. lia.
Qed.

Lemma elem_of_upto p s r : r ∈ rows_upto p s <-> (p_global_position r <= p)%N /\ p_workspace_id r = ws /\ r ∈ sv_events s.
Proof. unfold rows_upto. by rewrite list_elem_of_filter, elem_of_order_by, elem_of_ws_part. Qed.

Definition good_rows (s : server) : Prop := forall r, r ∈ sv_events s -> exists now, good_row now r.

Lemma row_env_fields s r : good_rows s -> r ∈ sv_events s -> GlobalPosition (row_env r) = p_global_position r /\ TypeURL (row_env r) = p_type_url r.
Proof. intros Hg Hr. destruct (Hg r Hr) as (now & e & He & -> & _). by rewrite row_env_stored. Qed.

Lemma pos_log_sorted p s : good_rows s -> ids_inv s -> positions_sorted (pos_log p s).
Proof.
  intros Hg Hi. unfold positions_sorted, pos_log. pose proof (upto_strict p s Hi) as Hs.
  assert (forall r, r ∈ rows_upto p s -> r ∈ sv_events s) as Hin by (intros r Hr; by apply elem_of_upto in Hr as (_ & _ & ?)).
  induction Hs as [|x l Hs IH Hx]; simpl; constructor; [apply IH; intros; apply Hin; by right|].
  rewrite Forall_map. rewrite Forall_forall in *. intros y Hy.
  destruct (row_env_fields s x Hg (Hin x ltac:(by left))) as [-> _]. destruct (row_env_fields s y Hg (Hin y ltac:(by right))) as [-> _]. auto.
Qed.

(** The backlog up to [p] is what a page ending there holds. *)
Lemma matching_consumed types from p s : good_rows s -> ids_inv s ->
  matching types from (pos_log p s) = map row_env (consumed_rows ws types from p s).
Proof.
  intros Hg Hi. unfold matching, pos_log, consumed_rows.
  rewrite order_by_filter by (intros x y [_ Hx]%elem_of_ws_part [_ Hy]%elem_of_ws_part; by apply (row_unique s)).
  rewrite (filter_map_comm row_env _ (fun r => (from < p_global_position r)%N /\ p_type_url r ∈ types)).
  - f_equal. unfold rows_upto. rewrite list_filter_filter. apply list_filter_iff. intros r. intuition lia.
  - intros r (_ & _ & Hr)%elem_of_upto. by destruct (row_env_fields s r Hg Hr) as [-> ->].
Qed.

Lemma consumed_rows_nil types from s : consumed_rows ws types from from s = [].
Proof. unfold consumed_rows. rewrite filter_false; [done|]. intros r _. lia. Qed.

Lemma delivered_consumed types from pos p s : good_rows s -> ids_inv s -> (pos <= p)%N ->
  delivered types from pos (pos_log p s) = map row_env (consumed_rows ws types from pos s).
Proof.
  intros Hg Hi Hle. rewrite <- matching_consumed by done. unfold delivered, matching.
  assert (pos_log pos s = filter (fun e => GlobalPosition e <= pos)%N (pos_log p s)) as ->.
  { unfold pos_log. rewrite (filter_map_comm row_env _ (fun r => p_global_position r <= pos)%N).
    - f_equal. unfold rows_upto. rewrite list_filter_filter. apply list_filter_iff. intros r. lia.
    - intros r (_ & _ & Hr)%elem_of_upto. by destruct (row_env_fields s r Hg Hr) as [-> _]. }
  rewrite list_filter_filter. apply list_filter_iff. intros e. intuition lia.
Qed.

(** Below a closed position the backlog is what it will always be. *)
Lemma consumed_closed types from pos s s' : ids_inv s -> ids_inv s' -> evolves s s' -> closed s pos ->
  consumed_rows ws types from pos s' = consumed_rows ws types from pos s.
Proof.
  intros Hi Hi' He Hc.
  assert (forall s, ids_inv s -> consumed_rows ws types from pos s
    = filter (fun r => (from < p_global_position r)%N /\ p_type_url r ∈ types) (rows_upto pos s)) as E.
  { intros s0 Hi0. unfold consumed_rows, rows_upto.
    rewrite order_by_filter by (intros x y [_ Hx]%elem_of_ws_part [_ Hy]%elem_of_ws_part; by apply (row_unique s0)).
    rewrite list_filter_filter. apply list_filter_iff. intros r. intuition lia. }
  by rewrite !E, (upto_rows_closed pos s s').
Qed.

(** ** Calls keep the content of the log *)

Definition logs {A} (m : PM A) : Prop := forall w,
  log_ok (clock (pg_tick w)) (pg_server w) -> log_ok (clock (pg_tick (m w).2)) (pg_server (m w).2).

Hypothesis Hmono : clock_monotone.

Lemma logs_interfere w : log_ok (clock (pg_tick w)) (pg_server w) -> log_ok (clock (pg_tick (interfere w))) (pg_server (interfere w)).
Proof.
  intros Hl. unfold interfere. simpl. eapply log_ok_mono; [apply (Hmono (pg_tick w)); lia|]. by apply apply_moves_log.
Qed.
Lemma logs_ret {A} (a : A) : logs (ret a).
Proof. by intros w. Qed.
Lemma logs_lift {A} (r : res A) : logs (lift r).
Proof. by intros w. Qed.
Lemma logs_throw {A} e : logs (throw (A:=A) e).
Proof. by intros w. Qed.
Lemma logs_bind {A B} (m : PM A) (k : A -> PM B) : logs m -> (forall a, logs (k a)) -> logs (bind m k).
Proof. intros Hm Hk w Hl. specialize (Hm w Hl). unfold bind. destruct (m w) as [[a|e] w1]; [by apply Hk|done]. Qed.
Lemma logs_wrap {A} (m : PM A) c : logs m -> logs (m wrap c).
Proof. intros Hm w Hl. specialize (Hm w Hl). unfold catch. by destruct (m w) as [[a|e] w1]. Qed.
Lemma logs_ask {A} (f : server -> A) : logs (ask f).
Proof.
  intros w Hl%logs_interfere. unfold ask, statement. destruct (fault _); [done|]. simpl. done.
Qed.
Lemma logs_select {A} (f : list PgEvent -> A) : logs (select f).
Proof. intros w. unfold select. destruct (pg_session w); [apply logs_ask|done]. Qed.
Lemma logs_setWorkspace : logs (setWorkspace ws).
Proof.
  intros w Hl. pose proof (logs_ask (fun _ => tt) w Hl) as Ha. unfold setWorkspace, set_config. by destruct (ask (fun _ => tt) w) as [[u|e] w1].
Qed.
Lemma logs_xact : logs pg_current_xact_id.
Proof.
  intros w Hl. pose proof (logs_ask (fun _ => tt) w Hl) as Ha. unfold pg_current_xact_id. destruct (ask (fun _ => tt) w) as [[u|e] w1]; [|done].
  unfold current_xid. destruct (own_xid w1); [done|]. by apply log_ok_assign.
Qed.
Lemma logs_in_tx {A} fail (body : PM A) : logs body -> logs (in_tx fail body).
Proof.
  intros Hb w Hl. pose proof (logs_ask (fun _ => tt) w Hl) as Ha. unfold in_tx. destruct (ask (fun _ => tt) w) as [[u|e] w1]; [|done].
  specialize (Hb (with_session w1 (Some (MkSession None None false))) Ha). destruct (body _) as [r w2]. simpl in *.
  unfold Rollback. destruct (own_xid w2); [by apply log_ok_abort|done].
Qed.
Lemma logs_queryDB q : logs (queryDB q).
Proof. apply logs_bind; [apply logs_select|]. intros. apply logs_lift. Qed.
Lemma logs_fenceBound from : logs (fenceBound from).
Proof.
  assert (forall R, logs (fenceCleared R)) as Hc by (intros R; apply logs_wrap, logs_ask).
  intros w. unfold fenceBound. generalize (pg_fenceR w). intros R. destruct (negb _); revert w.
  - apply logs_bind; [apply Hc|]. intros c. destruct (negb c); [apply logs_ret|by intros w].
  - apply logs_bind; [apply logs_wrap, logs_ask|]. intros l. destruct (l <=? from)%N; [apply logs_ret|].
    apply logs_bind; [apply logs_in_tx, logs_wrap, logs_xact|]. intros R'. apply logs_bind; [apply Hc|]. intros c.
    destruct c; [apply logs_ret|by intros w].
Qed.

(** A call that keeps the whole invariant. *)
Definition sound {A} (m : PM A) : Prop := safe m /\ logs m.

Lemma sound_ok {A} (m : PM A) w r w' : sound m -> pg_ok w -> m w = (r, w') -> pg_ok w' /\ later w w'.
Proof.
  intros [Hs Hl] [Hi Ho] HM. destruct (Hs _ _ _ Hi HM) as [H1 H2]. split; [|done]. split; [done|].
  specialize (Hl w Ho). by rewrite HM in Hl.
Qed.
Lemma sound_ret {A} (a : A) : sound (ret a).
Proof. split; [apply reads_safe, reads_ret|apply logs_ret]. Qed.
Lemma sound_bind {A B} (m : PM A) (k : A -> PM B) : sound m -> (forall a, sound (k a)) -> sound (bind m k).
Proof.
  intros [Hs Hl] Hk. split; [|apply logs_bind; [done|intros a; apply Hk]]. intros w r w' Hi. unfold bind.
  destruct (m w) as [[a|e] w1] eqn:HM; destruct (Hs _ _ _ Hi HM) as [H1 H2]; [|by intros [= <- <-]].
  intros HK. destruct (proj1 (Hk a) _ _ _ H1 HK) as [H3 H4]. split; [done|by etrans].
Qed.
Lemma sound_fenceBound from : sound (fenceBound from).
Proof. split; [|apply logs_fenceBound]. intros w r w' Hi HF. by destruct (fenceBound_spec _ _ _ _ Hi HF) as (? & ? & _). Qed.
Lemma sound_in_ws {A} (body : PM A) : reads body -> logs body -> sound (in_tx id (let! _ := setWorkspace ws in body)).
Proof.
  intros Hr Hl. split; [apply safe_in_tx_reads, reads_bind; [apply reads_setWorkspace|done]|].
  apply logs_in_tx, logs_bind; [apply logs_setWorkspace|done].
Qed.

Lemma sound_Head : sound (pg_Head ws).
Proof.
  apply sound_bind; [apply sound_fenceBound|]. intros b. destruct (b =? 0)%N; [apply sound_ret|].
  apply sound_in_ws; [apply reads_select|apply logs_select].
Qed.
Lemma sound_RawHead : sound (pg_RawHead ws).
Proof. apply sound_in_ws; [apply reads_select|apply logs_select]. Qed.
Lemma sound_ReadAllBounded cap from limit mb types : sound (pg_ReadAllBounded cap ws from limit mb types).
Proof.
  unfold pg_ReadAllBounded. case_bool_decide; [apply sound_ret|]. apply sound_bind; [apply sound_fenceBound|]. intros b.
  destruct (b <=? from)%N; [apply sound_ret|]. apply sound_in_ws.
  - apply reads_bind; [apply reads_lift|intros _]. apply reads_bind; [apply reads_select|intros rows].
    apply reads_bind; [apply reads_lift|intros [ps tr]]. case_bool_decide; [apply reads_ret|].
    apply reads_bind; [apply reads_queryDB|intros]. apply reads_ret.
  - apply logs_bind; [apply logs_lift|intros _]. apply logs_bind; [apply logs_select|intros rows].
    apply logs_bind; [apply logs_lift|intros [ps tr]]. case_bool_decide; [apply logs_ret|].
    apply logs_bind; [apply logs_queryDB|intros]. apply logs_ret.
Qed.

Lemma ok_good_rows w : pg_ok w -> good_rows (pg_server w).
Proof. intros [_ Hl] r Hr. exists (clock (pg_tick w)). by apply (lo_rows _ _ Hl None). Qed.

(** The raw head is at or above everything committed before the call. *)
Lemma RawHead_ge w h w' r : pg_ok w -> pg_RawHead ws w = (Ok h, w') -> r ∈ sv_events (pg_server w) -> p_workspace_id r = ws ->
  (p_global_position r <= h)%N.
Proof.
  intros [Hi _] HR Hr Hw. apply in_ws_Ok in HR as (w2 & w3 & Hw2 & Hl2 & Hss & HR & _); [|done].
  destruct (reads_select _ _ _ _ Hw2 HR) as (_ & Hl3 & _). destruct (select_Ok _ _ _ _ _ Hss HR) as (_ & _ & ->).
  rewrite table_scoped. assert (r ∈ ws_part ws (sv_events (pg_server w3))) as Hin.
  { apply elem_of_ws_part. split; [done|]. destruct (evolves_prefix _ _ (transitivity Hl2 Hl3)) as [K ->]. apply elem_of_app. by left. }
  revert Hin. generalize (ws_part ws (sv_events (pg_server w3))). intros l. unfold max_of.
  induction l as [|x l IH]; [by intros ?%not_elem_of_nil|]. intros [->|Hl]%elem_of_cons; simpl; [lia|]. specialize (IH Hl). lia.
Qed.

(** A page of the fenced log. *)
Lemma page_settled cap from limit mb types w page tr w' p :
  pg_ok w -> closed (pg_server w) p -> pg_ReadAllBounded cap ws from limit mb types w = (Ok (page, tr), w') ->
  exists q, (p <= q)%N /\ closed (pg_server w') q /\ page `prefix_of` matching types from (pos_log q (pg_server w')).
Proof.
  intros Hw Hc HR. destruct (sound_ok _ _ _ _ (sound_ReadAllBounded _ _ _ _ _) Hw HR) as [Hw' Hl].
  pose proof (closed_evolves _ _ _ Hl Hc) as Hc'. pose proof (ok_good_rows _ Hw') as Hg. pose proof (pi_ids _ (po_inv _ Hw')) as Hi.
  destruct (last page) as [e|] eqn:He.
  2:{ apply last_None in He as ->. exists p. split; [done|]. split; [done|]. apply prefix_nil. }
  destruct (ReadAllBounded_final _ _ _ _ _ _ _ _ _ _ (po_inv _ Hw) HR e He) as [Hce Hfin].
  specialize (Hfin _ Hi (evolves_refl _)).
  assert (page = map row_env (consumed_rows ws types from (GlobalPosition e) (pg_server w'))) as Hpage.
  { rewrite (scan_good (clock (pg_tick w'))) in Hfin; [by injection Hfin|]. intros r Hr. unfold consumed_rows in Hr. rewrite elem_of_order_by in Hr.
    apply list_elem_of_filter in Hr as [_ [_ Hr]%elem_of_ws_part]. by apply (lo_rows _ _ (po_log _ Hw') None). }
  exists (N.max p (GlobalPosition e)). split; [lia|]. split.
  - intros s' r Hs' He' Hr Hle. destruct (N.max_spec p (GlobalPosition e)) as [[_ E]|[_ E]]; rewrite E in Hle; [by apply (Hce s')|by apply (Hc' s')].
  - rewrite Hpage, <- matching_consumed by done. assert (pos_log (GlobalPosition e) (pg_server w') `prefix_of`
      pos_log (N.max p (GlobalPosition e)) (pg_server w')) as [K ->] by (apply pos_log_mono; [done|lia]).
    rewrite matching_app. by apply prefix_app_r.
Qed.
End Content.

(** ** The contract *)

Section Contract.
Context {UL : UuidLib} {EV : Env} {PE : PgEnv}.
Hypothesis Hmono : clock_monotone.
Variable cap : Z.
Variable ws : string.

(** What is assumed to hold of the cursors while a subscription runs. *)
Variable Stable : gmap feed_key PgCheckpointRow -> Prop.

Record pgf_rep (w : pgf) (L S : list Envelope) : Prop := {
  fp_ok : pg_ok (pf_pg w);
  fp_stable : Stable (ft_checkpoints (pf_tables w));
  fp_saved : forall t, pf_saved w = Some t -> Stable (ft_checkpoints t);
  fp_sent : pf_sent w = S;
  fp_others : Forall (fun f => forall t, Stable (ft_checkpoints t) -> Stable (ft_checkpoints (f t))) (pf_others w);
  fp_log : exists p, closed (pg_server (pf_pg w)) p /\ L = pos_log ws p (pg_server (pf_pg w))
}.

(** A computation that delivers nothing and touches no cursor. *)
Definition steady {A} (m : SM pgf A) : Prop := forall w L S, pgf_rep w L S -> pgf_rep (m w).2 L S.

Lemma steady_quiet {A} (m : SM pgf A) : steady m -> quiet pgf_rep m.
Proof. intros Hm w L S HR. exists L. split; [done|]. by apply Hm. Qed.

Lemma steady_ret {A} (a : A) : steady (ret a).
Proof. by intros w L S. Qed.
Lemma steady_throw {A} e : steady (throw (A:=A) e).
Proof. by intros w L S. Qed.
Lemma steady_lift {A} (r : res A) : steady (lift r).
Proof. by intros w L S. Qed.
Lemma steady_bind {A B} (m : SM pgf A) (k : A -> SM pgf B) : steady m -> (forall a, steady (k a)) -> steady (bind m k).
Proof. intros Hm Hk w L S HR. specialize (Hm w L S HR). unfold bind. destruct (m w) as [[a|e] w1]; [by apply Hk|done]. Qed.
Lemma steady_catch {A} (m : SM pgf A) h : steady m -> (forall e, steady (h e)) -> steady (catch m h).
Proof. intros Hm Hk w L S HR. specialize (Hm w L S HR). unfold catch. destruct (m w) as [[a|e] w1]; [done|by apply Hk]. Qed.
Lemma steady_attempt {A} (m : SM pgf A) : steady m -> steady (attempt m).
Proof. intros Hm w L S HR. specialize (Hm w L S HR). unfold attempt. by destruct (m w). Qed.

(** The log does not change under calls that keep the server's invariant. *)
Lemma set_pg_rep w L S x : pgf_rep w L S -> pg_ok x -> later (pf_pg w) x -> pgf_rep (set_pg x w) L S.
Proof.
  intros [H1 H2 H3 H4 H5 (p & Hc & ->)] Hx Hl. split; try done. exists p. split; [by eapply closed_evolves|].
  unfold pos_log. f_equal. symmetry. by apply upto_rows_closed; [apply H1|apply Hx|..].
Qed.

Lemma set_tables_rep w L S t saved : pgf_rep w L S -> Stable (ft_checkpoints t) -> (forall u, saved = Some u -> Stable (ft_checkpoints u)) ->
  pgf_rep (set_tables t saved w) L S.
Proof. intros [H1 H2 H3 H4 H5 H6] Ht Hs. by split. Qed.

Lemma steady_on_store {A} (m : PM A) : sound m -> steady (on_pgw m).
Proof.
  intros Hm w L S HR. unfold on_pgw. destruct (m (pf_pg w)) as [r x] eqn:HM.
  destruct (sound_ok _ _ _ _ Hm (fp_ok _ _ _ HR) HM) as [H1 H2]. by apply set_pg_rep.
Qed.

Lemma others_act_rep w L S : pgf_rep w L S -> pgf_rep (others_act w) L S.
Proof.
  intros HR. unfold others_act. destruct (pf_others w) as [|f fs] eqn:E; [done|]. destruct HR as [H1 H2 H3 H4 H5 H6].
  rewrite E in H5. apply Forall_cons in H5 as [Hf Hfs]. split; try done. by apply Hf.
Qed.

Lemma sound_ask {A} (f : server -> A) : sound (ask f).
Proof. split; [apply reads_safe, reads_ask|by apply logs_ask]. Qed.

Lemma steady_Begin : steady feed_Begin.
Proof.
  intros w L S HR%others_act_rep. unfold feed_Begin. set (w1 := others_act w) in *. destruct (ask (fun _ => tt) (pf_pg w1)) as [r x] eqn:HA.
  destruct (sound_ok _ _ _ _ (sound_ask (fun _ => tt)) (fp_ok _ _ _ HR) HA) as [H1 H2]. destruct r as [u|e]; [|by apply set_pg_rep].
  apply set_tables_rep; [|exact (fp_stable _ _ _ HR)|intros t [= <-]; exact (fp_stable _ _ _ HR)].
  apply set_pg_rep; [done|by apply with_session_ok|exact H2].
Qed.

Lemma steady_exec {A} (f : time -> feedtabs -> A * feedtabs) :
  (forall now t, ft_checkpoints (f now t).2 = ft_checkpoints t) -> steady (feed_exec f).
Proof.
  intros Hf w L S HR. unfold feed_exec. destruct (ask (fun _ => tt) (pf_pg w)) as [r x] eqn:HA.
  destruct (sound_ok _ _ _ _ (sound_ask (fun _ => tt)) (fp_ok _ _ _ HR) HA) as [H1 H2]. destruct r as [u|e]; [|by apply set_pg_rep].
  specialize (Hf (TruncateMicros (clock (pg_tick (pf_pg w)))) (pf_tables w)). destruct (f _ _) as [a t]. simpl in *.
  apply set_tables_rep; [by apply set_pg_rep|rewrite Hf; exact (fp_stable _ _ _ HR)|exact (fp_saved _ _ _ HR)].
Qed.

Lemma sound_Commit : sound Commit.
Proof.
  split; [apply safe_Commit|]. intros w Hl%(logs_interfere Hmono). unfold Commit.
  assert (log_ok (clock (pg_tick (committed (interfere w)))) (pg_server (committed (interfere w)))) as Hc
    by (unfold committed; destruct (own_xid _); [by apply log_ok_commit|done]).
  destruct (fault _); [by destruct (lost_ack _)|done].
Qed.

Lemma steady_Commit : steady feed_Commit.
Proof.
  intros w L S HR. unfold feed_Commit. destruct (Commit (pf_pg w)) as [r x] eqn:HC.
  destruct (sound_ok _ _ _ _ sound_Commit (fp_ok _ _ _ HR) HC) as [H1 H2]. pose proof (set_pg_rep _ _ _ x HR H1 H2) as HR'.
  assert (pgf_rep (set_tables (pf_tables w) None (set_pg x w)) L S) as HR2 by (apply set_tables_rep; [done|exact (fp_stable _ _ _ HR)|done]).
  destruct r; [done|]. by destruct (lost_ack _).
Qed.

Lemma Rollback_rep w L S : pgf_rep w L S -> pgf_rep (feed_Rollback w) L S.
Proof.
  intros HR. unfold feed_Rollback. destruct (Rollback_ok _ (fp_ok _ _ _ HR)) as [H1 H2]. pose proof (set_pg_rep _ _ _ _ HR H1 H2) as HR'.
  destruct (pf_saved w) as [t|] eqn:E; [|done]. apply set_tables_rep; [done|by apply (fp_saved _ _ _ HR)|done].
Qed.

Lemma steady_setWorkspace scope : steady (on_pgw (setWorkspace scope)).
Proof. apply steady_on_store. split; [apply reads_safe, reads_setWorkspace|by apply logs_setWorkspace]. Qed.

Lemma steady_runWorkspace {A} scope (fn : SM pgf A) : steady fn -> steady (runWorkspace scope fn).
Proof.
  intros Hf w L S HR. unfold runWorkspace. pose proof (steady_Begin w L S HR) as HB. destruct (feed_Begin w) as [[u|e] w1]; [|done].
  match goal with |- context [bind ?a ?b w1] => assert (steady (bind a b)) as Hc end.
  { apply steady_bind; [apply steady_catch; [apply steady_setWorkspace|intros; apply steady_throw]|intros _].
    apply steady_bind; [done|intros a]. apply steady_bind; [apply steady_catch; [apply steady_Commit|intros; apply steady_throw]|intros _]. apply steady_ret. }
  specialize (Hc w1 L S HB). destruct (bind _ _ w1) as [r w2]. by apply Rollback_rep.
Qed.

Lemma steady_query_row {A} (f : time -> feedtabs -> option A) : steady (query_row f).
Proof. apply steady_bind; [by apply steady_exec|]. intros [a|]; [apply steady_ret|apply steady_throw]. Qed.

Lemma steady_find_row {A} ctx (m : SM pgf A) : steady m -> steady (find_row ctx m).
Proof.
  intros Hm. apply steady_bind; [by apply steady_attempt|]. intros [a|e]; [apply steady_ret|]. destruct (is_no_rows e); [apply steady_ret|apply steady_throw].
Qed.

Hint Resolve steady_ret steady_throw steady_lift steady_query_row steady_find_row steady_runWorkspace : feed.
Hint Extern 1 (steady (bind _ _)) => (apply steady_bind; [|intros]) : feed.
Hint Extern 1 (steady (catch _ _)) => (apply steady_catch; [|intros]) : feed.
Hint Extern 2 (steady (feed_exec _)) => (apply steady_exec; intros; repeat case_match; done) : feed.

Lemma steady_Checkpoint s p i : steady (pg_checkpoint_Checkpoint s p i).
Proof. unfold pg_checkpoint_Checkpoint. auto 12 with feed. Qed.
Lemma steady_Acquire s p i o c ttl : steady (pg_lease_Acquire s p i o c ttl).
Proof.
  unfold pg_lease_Acquire. assert (steady (feed_exec (pg_upsert_lease (s, p, i) o c ttl))).
  { apply steady_exec. intros now t. unfold pg_upsert_lease. repeat case_match; done. }
  auto 12 with feed.
Qed.
Lemma steady_Renew s p i o ttl : steady (pg_lease_Renew s p i o ttl).
Proof. unfold pg_lease_Renew. auto 12 with feed. Qed.
Lemma steady_Release s p i o : steady (pg_lease_Release s p i o).
Proof. unfold pg_lease_Release. auto 12 with feed. Qed.
Lemma steady_Holder s p i : steady (pg_lease_Holder s p i).
Proof. unfold pg_lease_Holder. auto 12 with feed. Qed.

(** ** The laws *)

Lemma pgf_rep_sorted w L S : pgf_rep w L S -> positions_sorted L.
Proof.
  intros [H1 _ _ _ _ (p & _ & ->)]. apply pos_log_sorted; [by apply ok_good_rows|apply (po_inv _ H1)].
Qed.

Lemma pg_LogLaws : LogLaws pgf_rep False (pg_Log cap ws).
Proof.
  split.
  - intros w L S from limit mb types r w' HR _ _. simpl. unfold on_pgw.
    destruct (pg_ReadAllBounded cap ws from limit mb types (pf_pg w)) as [x pg'] eqn:HM. intros [= <- <-].
    destruct (sound_ok _ _ _ _ (sound_ReadAllBounded ws Hmono cap from limit mb types) (fp_ok _ _ _ HR) HM) as [H1 H2].
    destruct x as [[page tr]|e].
    2:{ exists L, L. split; [done|]. split; [done|]. split; [by apply set_pg_rep|done]. }
    destruct HR as [R1 R2 R3 R4 R5 (p & Hc & ->)]. pose proof (pi_ids _ (po_inv _ R1)) as Hi. pose proof (pi_ids _ (po_inv _ H1)) as Hi'.
    destruct (page_settled ws Hmono _ _ _ _ _ _ _ _ _ _ R1 Hc HM) as (q & Hpq & Hcq & Hpage).
    exists (pos_log ws q (pg_server pg')), (pos_log ws q (pg_server pg')). split; [|split; [done|split]].
    + unfold pos_log at 1. rewrite <- (upto_rows_closed ws p _ _ Hi Hi' H2 Hc). by apply pos_log_mono.
    + split; try done. by exists q.
    + intros page' tr' [= <- <-]. done.
  - apply steady_quiet, steady_on_store, sound_Head, Hmono.
  - intros w L S r w' HR. simpl. unfold on_pgw. destruct (pg_RawHead ws (pf_pg w)) as [x pg'] eqn:HM. intros [= <- <-].
    destruct (sound_ok _ _ _ _ (sound_RawHead ws Hmono) (fp_ok _ _ _ HR) HM) as [H1 H2].
    exists L. split; [done|]. split; [by apply set_pg_rep|]. intros h ->. destruct HR as [R1 _ _ _ _ (p & _ & ->)].
    unfold log_head, pos_log. rewrite fmap_last. destruct (last (rows_upto ws p _)) as [row|] eqn:Hl; simpl; [|lia].
    apply last_Some_elem_of, elem_of_upto in Hl as (_ & Hw & Hin). destruct (row_env_fields _ _ (ok_good_rows _ R1) Hin) as [-> _].
    by apply (RawHead_ge ws (pf_pg w) h pg' row).
Qed.

(** A server assembled from these ports. *)
Record pg_assembled (s : Server pgf) : Prop := {
  pa_Checkpoints : Checkpoints s = pg_Checkpoints;
  pa_Leases : Leases s = pg_Leases;
  pa_Logs : sv_Logs s = pg_Open cap;
  pa_Waiter : sv_Waiter s = None;
  pa_Clock : sv_Clock s = fx_Now;
  pa_Observer : sv_Observer s = pf_record_signal;
  pa_jitter : jitter s = Some fx_jitter
}.

Lemma pf_pass_rep w L S : pgf_rep w L S -> pgf_rep (pf_pass w) L S.
Proof. intros HR. pose proof (interfere_quiet Hmono _ (fp_ok _ _ _ HR)) as Hq. apply set_pg_rep; [done|apply Hq..]. Qed.

Lemma pg_FeedLaws accept s : pg_assembled s -> FeedLaws s (pf_collect accept) pgf_rep False ws.
Proof.
  intros [HC HL HO HW HK HB HJ]. split.
  - apply pgf_rep_sorted.
  - intros w L S r w' HR. rewrite HO. intros [= <- <-]. exists L. split; [done|]. split; [|intros log [= <-]; apply pg_LogLaws].
    pose proof (fp_ok _ _ _ HR) as [[I1 I2 I3] Hlg]. apply set_pg_rep; [done| |exact (evolves_refl _)]. split; [|done]. by split.
  - intros env w L S r w' [R1 R2 R3 R4 R5 R6]. unfold pf_collect. destruct (accept env w); intros [= <- <-]; [exists L, []|exists L, [env]]; (split; [done|]); (split; [|by auto]).
    + rewrite app_nil_r. by split.
    + split; try done. simpl. by rewrite R4.
  - intros. rewrite HC. apply steady_quiet, steady_Checkpoint.
  - intros. rewrite HL. apply steady_quiet, steady_Renew.
  - intros x w. rewrite HB. intros L S []. exists L. split; [done|]. by split.
  - intros wt d. by rewrite HW.
  - intros j d w. rewrite HJ. intros [= <-]. by intros L S HR; exists L.
  - intros w L S HR. exists L. split; [done|]. by apply pf_pass_rep.
  - intros w L S HR. by exists L.
  - intros w L S []. exists L. split; [done|]. by split.
  - intros d w L S HR. cbn. destruct (pf_run_err w); exists L; (split; [done|]); [done|]. by apply pf_pass_rep, others_act_rep.
  - intros w L S []. cbn. destruct (pf_ticks w) eqn:E; exists L; (split; [done|]); by split.
  - intros sc p i owner consumer ttl w. rewrite HL. intros L S HR. cbn. exists L. split; [done|].
    pose proof (steady_Acquire sc p i owner consumer ttl w L S HR) as HR'. by destruct (pg_lease_Acquire _ _ _ _ _ _ w) as [[b|e] w1].
  - intros. rewrite HL. apply steady_quiet, steady_Release.
  - intros. rewrite HL. apply steady_quiet, steady_Holder.
  - intros w. rewrite HK. intros L S HR. exists L. split; [done|]. by apply pf_pass_rep.
  - intros w L S []. exists L. split; [done|]. by split.
  - intros w L S HR. by exists L.
  - intros w L S []. exists L. split; [done|]. by split.
Qed.

(** ** The stored cursor *)

(** A driver failure is not pgx.ErrNoRows. *)
Hypothesis Hrows : forall n e, fault n = Some e -> is_no_rows e = false.

(** A transaction that returned its body's outcome ran it in a world of the
    representation. *)
Lemma runWorkspace_found {A} scope (fn : SM pgf A) w L S r w' :
  pgf_rep w L S -> runWorkspace scope fn w = (r, w') ->
  (exists a, r = Ok a) \/ (exists e, r = Err e /\ is_no_rows e = true) ->
  exists w2 w3, pgf_rep w2 L S /\ fn w2 = (r, w3).
Proof.
  intros HR. unfold runWorkspace. pose proof (steady_Begin w L S HR) as HB. destruct (feed_Begin w) as [[u|e] w1].
  2:{ intros [= <- _] [[a ?]|(e' & [= <-] & ?)]; done. }
  simpl in HB. unfold bind at 1, catch at 1. pose proof (steady_setWorkspace scope w1 L S HB) as HW.
  destruct (on_pgw (setWorkspace scope) w1) as [[u'|e] w2].
  2:{ unfold throw. intros [= <- _] [[a ?]|(e' & [= <-] & ?)]; done. }
  simpl in HW. unfold bind at 1. destruct (fn w2) as [[a|e] w3] eqn:Hf.
  2:{ intros [= <- _] _. by exists w2, w3. }
  unfold bind, catch. destruct (feed_Commit w3) as [[[]|e] w4]; unfold throw, ret; intros [= <- _].
  - intros _. by exists w2, w3.
  - intros [[b ?]|(e' & [= <-] & ?)]; done.
Qed.

Lemma Checkpoint_reads sc p i w L S found w' :
  pgf_rep w L S -> pg_checkpoint_Checkpoint sc p i w = (Ok found, w') ->
  exists w2, pgf_rep w2 L S
    /\ match ft_checkpoints (pf_tables w2) !! (sc, p, i) with
       | Some row => (0 <= pc_position row)%Z
           /\ found = Some (MkCheckpoint (Z.to_N (pc_position row)) (pc_definition_hash row) (pc_updated_at row))
       | None => found = None
       end.
Proof.
  intros HR. unfold pg_checkpoint_Checkpoint, find_row, bind at 1, attempt.
  destruct (runWorkspace sc _ w) as [r w1] eqn:HRun. intros HF.
  assert ((exists a, r = Ok a) \/ (exists e, r = Err e /\ is_no_rows e = true)) as Hr.
  { destruct r as [a|e]; [by left; exists a|]. right. exists e. split; [done|]. by destruct (is_no_rows e). }
  destruct (runWorkspace_found _ _ _ _ _ _ _ HR HRun Hr) as (w2 & w3 & HR2 & Hfn). exists w2. split; [done|].
  revert Hfn. unfold query_row, bind, feed_exec. unfold ask, statement. destruct (fault _) as [e|] eqn:Hft.
  - intros [= <- _]. rewrite (Hrows _ _ Hft) in HF. done.
  - destruct (ft_checkpoints (pf_tables w2) !! (sc, p, i)) as [row|].
    + unfold lift, scan_uint64, ret. destruct (Z.leb_spec 0 (pc_position row)).
      * intros [= <- _]. split; [done|]. by injection HF as <-.
      * intros [= <- _]. done.
    + intros [= <- _]. by injection HF as <-.
Qed.

(** ** What was delivered is final *)

Lemma delivered_final types from pos w L S now ms :
  pgf_rep w L S -> advanced from pos L ->
  delivered types from pos L = map row_env (consumed_rows ws types from pos (apply_moves pg_row follows now None ms (pg_server (pf_pg w)))).
Proof.
  intros [H1 _ _ _ _ (p & Hc & ->)] Hadv. destruct Hadv as [->|(_ & e & He & <-)]; [by rewrite delivered_nil, consumed_rows_nil|].
  pose proof (pi_ids _ (po_inv _ H1)) as Hi. pose proof (ok_good_rows _ H1) as Hg.
  apply list_elem_of_fmap in He as (row & -> & (Hp & _ & Hrow)%elem_of_upto). destruct (row_env_fields _ _ Hg Hrow) as [-> _].
  destruct (apply_moves_inv pg_row follows ltac:(done) now None ms _ Hi) as [Hi' Hev].
  rewrite (delivered_consumed ws types from _ p) by done. f_equal. symmetry. apply consumed_closed; try done.
  intros s' r Hs' He' Hr Hle. apply (Hc s'); try done. lia.
Qed.
End Contract.
