(* ===== verification/PgClaims.v ===== *)
(** * The PostgreSQL backend's promises

    Appends that interleave with other sessions, pages that wait for them, the
    feed and the aggregate runtime over both. *)
From S2P Require Import Prelude Sha256 Es Hash Chain Anchor Timestamp Effect Store Sql Sqlite SqliteCorrect SqliteTheorems HexUuid SqliteClaims.
From S2P Require Import Runtime RuntimeCorrect RuntimeSqlite Counter RuntimeClaims Definitions FeedPorts Feed FeedConfig FeedContract FeedCorrect FeedClaims.
From S2P Require Import PgServer PgServerCorrect PgStore PgFence PgLog PgAppend PgRuntime PgFeed PgFeedCorrect.

(** ** A concrete server *)

#[local] Instance calm_pg : PgEnv := { relay_member := true; lost_ack := fun _ => false }.
#[local] Existing Instance calm_env.
#[local] Existing Instance HexUuid.

(** The first event of a counter stream of workspace t1. *)
Definition first_event (id : string) (n : nat) (ev : EventData) : Envelope :=
  let p := MkAppendParams (MkStreamID "counter" id) 0 [] [] uuid_Nil uuid_Nil uuid_Nil (MkActor "user" "alice") zero_time in
  let e := pg_new_envelope "t1" p ev (id_of n) 1 (TruncateMicros (clock 0)) (TruncateMicros (clock 0)) ZeroHash in
  with_hash e (EnvelopeHash e).

(** Transaction 3 has drawn position 1 and is still open; transaction 4 drew
    position 2 after it and has committed. *)
Definition busy_server : server :=
  apply_moves pg_row follows (clock 0) None
    [MStart; MStart; MInsert 3 (first_event "a" 100 (sample_event 100)); MInsert 4 (first_event "b" 101 (sample_event 101)); MCommit 4]
    empty_server.

(** The open transaction commits after [n] more statements. *)
Definition busy_pgw (n : nat) : pgw := MkPgw busy_server None 0 0 1 (replicate n [] ++ [[MCommit 3]]).

Lemma moved_ok ms n others : pg_ok (MkPgw (apply_moves pg_row follows (clock 0) None ms empty_server) None 0 0 n others).
Proof.
  destruct (apply_moves_inv pg_row follows ltac:(done) (clock 0) None ms empty_server ids_inv_empty) as [Hi _].
  split; [by split|]. cbn [pg_tick pg_server]. eapply log_ok_mono; [|apply apply_moves_log, (log_ok_empty (clock 0))].
  apply calm_clock_mono. lia.
Qed.

Lemma busy_ok n : pg_ok (busy_pgw n).
Proof. apply moved_ok. Qed.

(** ** Pages *)

(** C13: a page of the PostgreSQL log is final.  Positions are drawn before a
    transaction commits, so a lower position can commit after a higher one; the
    horizon fence makes pages wait for it.  Whatever the server did before and
    whatever sessions do later (start, append, publish, commit, abort, in any
    order), a page that ends at position [GlobalPosition e] holds, in position
    order, every consumed event of the workspace after [from] up to there: no
    event can appear inside a page that was delivered. *)
Theorem pg_page_final `{UuidLib} `{Env} `{PgEnv} cap ws from limit maxBytes types w page tr w' e now ms :
  pg_inv w -> pg_ReadAllBounded cap ws from limit maxBytes types w = (Ok (page, tr), w') -> last page = Some e ->
  result_map pg_scanEnvelope
    (consumed_rows ws types from (GlobalPosition e) (apply_moves pg_row follows now None ms (pg_server w'))) = Ok page.
Proof.
  intros Hw HR He. destruct (ReadAllBounded_final _ _ _ _ _ _ _ _ _ _ Hw HR e He) as [_ Hfin].
  assert (pg_inv w') as Hw'.
  { unfold pg_ReadAllBounded in HR. revert HR. case_bool_decide; [by intros [= _ _ <-]|]. intros HR.
    apply bind_Ok in HR as (b & w1 & HF & HR). destruct (fenceBound_spec _ _ _ _ Hw HF) as (Hw1 & _ & _).
    destruct (b <=? from)%N; [by injection HR as _ _ <-|]. eapply (safe_in_tx_reads id); [|exact Hw1|exact HR].
    apply reads_bind; [apply reads_setWorkspace|intros _]. apply reads_bind; [apply reads_lift|intros _].
    apply reads_bind; [apply reads_select|intros rows]. apply reads_bind; [apply reads_lift|intros [ps t]].
    case_bool_decide; [apply reads_ret|]. apply reads_bind; [apply reads_queryDB|intros]. apply reads_ret. }
  destruct (apply_moves_inv pg_row follows ltac:(done) now None ms (pg_server w') (pi_ids _ Hw')) as [Hi Hev]. by apply Hfin.
Qed.

Definition read_page : PM (list Envelope * bool) := pg_ReadAllBounded 0 "t1" 0 10 0 ["counter.v1.Incremented"%string].

Lemma read_page_sound : sound read_page.
Proof. exact (sound_ReadAllBounded "t1" calm_clock_mono 0 0 10 0 _). Qed.

(** While transaction 3 is open the page is empty although position 2 is
    committed; once it has ended, both come, in position order. *)
Lemma pg_page_final_witness :
  fst (read_page (busy_pgw 40)) = Ok ([], false)
  /\ exists page e, fst (read_page (read_page (busy_pgw 4)).2) = Ok (page, false) /\ map GlobalPosition page = [1; 2]%N
    /\ last page = Some e
    /\ result_map pg_scanEnvelope (consumed_rows "t1" ["counter.v1.Incremented"%string] 0 (GlobalPosition e)
         (apply_moves pg_row follows (clock 9) None [MStart; MWaste] (pg_server (read_page (read_page (busy_pgw 4)).2).2))) = Ok page.
Proof.
  split; [by vm_compute|]. set (w := (read_page (busy_pgw 4)).2).
  assert (pg_inv w) as Hw.
  { exact (po_inv _ (proj1 (sound_ok _ _ _ _ read_page_sound (busy_ok 4) (surjective_pairing _)))). }
  destruct (read_page w) as [[[page tr]|er] w'] eqn:HR.
  2:{ exfalso. assert (is_ok (fst (read_page w)) = true) as HC by (by vm_compute). rewrite HR in HC. discriminate. }
  assert (match fst (read_page w) with Ok (pg, t) => (map GlobalPosition pg, t) | Err _ => ([], true) end = ([1; 2]%N, false)) as HP by (by vm_compute).
  rewrite HR in HP. simpl in HP. injection HP as HP ->.
  destruct (last page) as [e|] eqn:He; [|apply last_None in He; by rewrite He in HP].
  clearbody w. exists page, e. split; [reflexivity|]. split; [exact HP|]. split; [exact He|]. unfold read_page in HR. simpl snd.
  exact (pg_page_final 0 "t1" 0 10 0 ["counter.v1.Incremented"%string] w page false w' e (clock 9) [MStart; MWaste] Hw HR He).
Defined.

(** ** The feed *)

(** Where a stored cursor resumes. *)
Definition pg_start_of (orow : option PgCheckpointRow) : N :=
  match orow with Some row => Z.to_N (pc_position row) | None => 0%N end.

(** The subscription's cursor is [orow] and other processes do not touch it. *)
Definition pg_cursor_is (req : Request) (orow : option PgCheckpointRow) (m : gmap feed_key PgCheckpointRow) : Prop :=
  m !! (rq_Scope req, rq_Projection req, rq_Instance req) = orow.

(** C1: a subscription over PostgreSQL never skips and never repeats, although
    positions commit out of order.  Whatever other sessions do between any two
    statements, however the lease renewer is scheduled, whatever fails and
    whenever the subscription ends: the sink has received, in position order,
    exactly the consumed events of the workspace after the stored cursor up to
    some position, and no later commit adds an event to that range. *)
Theorem pg_feed_no_gap `{UuidLib} `{Env} `{PgEnv} cap accept s req orow fuel w L r w' :
  clock_monotone -> (forall n e, fault n = Some e -> is_no_rows e = false) -> pg_assembled cap s ->
  pgf_rep (rq_Scope req) (pg_cursor_is req orow) w L (pf_sent w) -> (pg_start_of orow <= log_head L)%N ->
  Subscribe s fuel req (Some (pf_collect accept)) w = (r, w') ->
  exists pos, (pg_start_of orow <= pos)%N
    /\ forall now ms, pf_sent w' = pf_sent w ++ map row_env
         (consumed_rows (rq_Scope req) (df_Consumes (rq_Definition req)) (pg_start_of orow) pos
            (apply_moves pg_row follows now None ms (pg_server (pf_pg w')))).
Proof.
  intros Hmono Hrows Has HR Hle Hrun.
  pose proof (pg_FeedLaws Hmono cap (rq_Scope req) (pg_cursor_is req orow) accept s Has) as HFL.
  destruct (Subscribe_spec s (pf_collect accept) _ False req fuel w L (pf_sent w) r w' HR Hrun)
    as [(L' & HL & HR' & Hne)|(from & pos & L' & S' & Hres & HR' & Hsb & Hok)].
  - exists (pg_start_of orow). split; [lia|]. intros now ms. rewrite consumed_rows_nil, app_nil_r. apply HR'.
  - destruct Hres as (wa & wb & La & found & HRa & Hcp & _ & _ & Heq).
    rewrite (pa_Checkpoints _ _ Has) in Hcp. destruct (Checkpoint_reads Hmono _ _ Hrows _ _ _ _ _ _ _ _ HRa Hcp) as (w2 & HR2 & Hf).
    assert (cp_Position (default zero_Checkpoint found) = pg_start_of orow) as Hpos.
    { pose proof (fp_stable _ _ _ _ _ HR2) as Hst. unfold pg_cursor_is in Hst. rewrite Hst in Hf.
      destruct orow; [destruct Hf as [_ ->]; done|by subst]. }
    rewrite Hpos in Heq. specialize (Heq Hle). subst from. destruct Hsb as [_ Hadv Hsent]. exists pos. split; [by eapply advanced_le|].
    intros now ms. rewrite (fp_sent _ _ _ _ _ HR'), Hsent. f_equal.
    by eapply delivered_final.
Qed.

Definition pg_demo_server : Feed.Server pgf :=
  Feed.MkServer pg_Checkpoints pg_Leases (pg_Open 0) None fx_Now (Some pg_dead_letter_Record) pf_record_signal
    500 1000 (Z.shiftl 8 20) (Z.shiftl 16 20) (250 * Millisecond) (30 * Second) (10 * Second) "0000000000000000" (Some fx_jitter).

Definition pg_demo_world (n : nat) : pgf :=
  MkPgf (busy_pgw n) (MkFeedtabs ∅ ∅ ∅) None [] [] [] [] None false 0.

Lemma pg_demo_assembled : pg_assembled 0 pg_demo_server.
Proof. by split. Qed.

Lemma pg_demo_rep n : pgf_rep (rq_Scope demo_req) (pg_cursor_is demo_req None) (pg_demo_world n) [] [].
Proof.
  split; [apply busy_ok|apply lookup_empty|done|done|constructor|]. exists 0%N. split; [apply closed_0|].
  unfold pos_log, rows_upto. rewrite filter_false; [done|]. intros r Hr Hle.
  rewrite elem_of_order_by in Hr. apply elem_of_ws_part in Hr as [_ Hr]. pose proof (ii_pos _ (pi_ids _ (po_inv _ (busy_ok n))) None r Hr). lia.
Qed.

Definition pg_demo_run (n : nat) : res (option stream_state) * pgf :=
  Subscribe pg_demo_server 4 demo_req (Some (pf_collect (fun _ _ => None))) (pg_demo_world n).

(** Position 2 is committed all along; it is delivered only after position 1,
    whose transaction commits during the run. *)
Lemma pg_feed_no_gap_witness :
  pf_sent (pg_demo_run 40).2 = []
  /\ map GlobalPosition (pf_sent (pg_demo_run 25).2) = [1; 2]%N
  /\ exists pos, forall now ms, pf_sent (pg_demo_run 25).2 = map row_env
       (consumed_rows "t1" ["counter.v1.Incremented"%string] 0 pos
          (apply_moves pg_row follows now None ms (pg_server (pf_pg (pg_demo_run 25).2)))).
Proof.
  split; [by vm_compute|]. split; [by vm_compute|].
  destruct (pg_feed_no_gap 0 (fun _ _ => None) pg_demo_server demo_req None 4 (pg_demo_world 25) [] _ _
    calm_clock_mono ltac:(done) pg_demo_assembled (pg_demo_rep 25) (N.le_0_l _) (surjective_pairing _)) as (pos & _ & HS).
  exists pos. exact HS.
Defined.

(** ** Appends *)

(** C5: Append on PostgreSQL, between other sessions.  From any server in which
    the log invariant holds (unique positions, streams numbered and chained,
    positions drawn after transaction ids) it leaves one in which it holds,
    whatever the call returns and whatever other sessions did between its
    statements; committed events are never removed or changed.  A result means
    that at one instant the stream had exactly ExpectedVersion events and that
    the events of the request, with its metadata, were appended right behind
    them, chained, and are in the log as returned. *)
Theorem pg_append_contract `{UuidLib} `{Env} `{PgEnv} cap ws p w r w' :
  clock_monotone -> pg_ok w -> pg_Append cap ws p w = (r, w') ->
  pg_ok w' /\ evolves (pg_server w) (pg_server w')
  /\ forall a, r = Ok a -> validateAppend p = Ok tt
       /\ exists s1, evolves (pg_server w) s1
            /\ extends p (line ws (ap_StreamID p) (sv_events s1)) a
            /\ (sv_events s1 ++ map pg_stored (ar_Envelopes a)) `prefix_of` sv_events (pg_server w').
Proof.
  intros Hmono Hw HA. pose proof (triple_run _ _ _ _ _ _ _ (Append_triple Hmono cap ws p w) (conj Hw (reflexivity _)) HA) as HT.
  destruct r as [a|e].
  - destruct HT as ([Hok Hl] & Hv & s1 & He & Hex & _ & Hp). split; [done|]. split; [exact Hl|]. intros b [= <-]. split; [done|]. by exists s1.
  - destruct HT as [Hok Hl]. split; [done|]. split; [exact Hl|done].
Qed.

(** Stream counter/b, whose first event is committed, is extended while
    transaction 3 commits between two statements of the append. *)
Definition append_b : AppendParams :=
  MkAppendParams (MkStreamID "counter" "b") 1 [sample_event 102; sample_event 103] [] uuid_Nil uuid_Nil uuid_Nil (MkActor "user" "alice") zero_time.

Lemma pg_append_contract_witness :
  map p_global_position (sv_events (pg_server (pg_Append 0 "t1" append_b (busy_pgw 7)).2)) = [2; 1; 3; 4]%N
  /\ exists a s1, fst (pg_Append 0 "t1" append_b (busy_pgw 7)) = Ok a
    /\ extends append_b (line "t1" (MkStreamID "counter" "b") (sv_events s1)) a.
Proof.
  split; [by vm_compute|]. destruct (pg_Append 0 "t1" append_b (busy_pgw 7)) as [[a|er] w'] eqn:HA.
  - destruct (pg_append_contract 0 "t1" append_b (busy_pgw 7) (Ok a) w' calm_clock_mono (busy_ok 7) HA) as (_ & _ & HR).
    destruct (HR a eq_refl) as (_ & s1 & _ & Hex & _). exists a, s1. split; [reflexivity|exact Hex].
  - exfalso. assert (is_ok (fst (pg_Append 0 "t1" append_b (busy_pgw 7))) = true) as HC by (by vm_compute). rewrite HA in HC. discriminate.
Defined.

(** ** Commands *)

(** C14: no lost updates on PostgreSQL.  A command handled over the PostgreSQL
    store, while other sessions start, append, commit and abort between any two
    statements, was decided on the fold of the whole stream; the stream was
    still exactly that when the events were appended right behind it, and they
    are in the committed log of the workspace from then on. *)
Theorem pg_no_lost_update `{UuidLib} `{Env} `{PgEnv} {S C E} (DecisionTime : C -> option time)
    (StampDecisionTime : C -> time -> C) (r : Runtime S C E) cap ws sid cmd meta expected w x w' :
  clock_ok -> clock_monotone -> driver_faults -> codec_ok r -> state_codec_ok r -> pg_rep ws r w (pg_log ws (pg_server (pr_world w))) ->
  @HandleAt S C E pgrt (pg_store cap ws) pg_runtime_ops DecisionTime StampDecisionTime r sid cmd meta expected [] w = (Ok x, w') ->
  exists now cmd' L1 L2, check_decided_at DecisionTime StampDecisionTime cmd now = Ok cmd'
    /\ pg_log ws (pg_server (pr_world w)) `prefix_of` L1 /\ L1 `prefix_of` L2
    /\ (L2 ++ rs_Envelopes x) `prefix_of` pg_log ws (pg_server (pr_world w'))
    /\ handled r sid cmd' expected L1 L2 x.
Proof.
  intros Hclk Hmono Hf Hc Hs Hrep HH.
  destruct (@HandleAt_Ok S C E pgrt (pg_store cap ws) pg_runtime_ops DecisionTime StampDecisionTime r (pg_rep ws r)
    (pg_store_laws cap ws r Hmono Hf) (pg_runtime_laws ws r Hclk Hmono) Hc Hs sid cmd meta expected w _ x w' Hrep HH)
    as (now & cmd' & L1 & L2 & L' & Hd & HP1 & HP2 & HP3 & Hr & Hh).
  exists now, cmd', L1, L2. rewrite <- (pr_log _ _ _ _ Hr). done.
Qed.

Definition counter_data (n : nat) (ev : Event) : EventData :=
  match encode_counter ev with
  | Ok enc => MkEventData (id_of n) (ee_TypeURL enc) (ee_SchemaVersion enc) (ee_Payload enc)
  | Err _ => sample_event n
  end.

Definition main_first : Envelope := first_event "main" 200 (counter_data 200 (Initialized 0 100 5)).
Definition main_second : Envelope :=
  let p := MkAppendParams (MkStreamID "counter" "main") 1 [] [] uuid_Nil uuid_Nil uuid_Nil (MkActor "user" "bob") zero_time in
  let e := pg_new_envelope "t1" p (counter_data 201 (Incremented 1)) (id_of 201) 2 (TruncateMicros (clock 1)) (TruncateMicros (clock 1)) (EnvelopeHash main_first) in
  with_hash e (EnvelopeHash e).

(** The counter exists; after [n] statements another session increments it. *)
Definition racing (n : nat) : pgrt :=
  MkPgrt (MkPgw (apply_moves pg_row follows (clock 0) None [MStart; MInsert 3 main_first; MCommit 3] empty_server) None 0 0 1
            (replicate n [] ++ [[MStart; MInsert 4 main_second; MInsert 5 main_second; MCommit 4; MCommit 5]])) ∅.

Definition racing_handle (n : nat) : res (Result Counter Event) * pgrt :=
  @HandleAt Counter Command Event pgrt (pg_store 0 "t1") pg_runtime_ops
    (fun _ => None) (fun c _ => c) counter_runtime main_sid (Increment 2) no_meta 0 [] (racing n).

Lemma racing_rep n : pg_rep "t1" counter_runtime (racing n) (pg_log "t1" (pg_server (pr_world (racing n)))).
Proof. split; [apply moved_ok|done|]. intros id s Hs. simpl in Hs. by rewrite lookup_empty in Hs. Qed.

(** The other session's increment commits after this append has read the head:
    the insert violates the version's uniqueness, the command is decided again. *)
Lemma pg_no_lost_update_witness :
  exists x w' cmd' L1 L2,
    racing_handle 10 = (Ok x, w') /\ rs_FromVersion x = 2%N /\ ct_Count (rs_State x) = 8%Z
    /\ (L2 ++ rs_Envelopes x) `prefix_of` pg_log "t1" (pg_server (pr_world w'))
    /\ handled counter_runtime main_sid cmd' 0 L1 L2 x.
Proof.
  assert (match fst (racing_handle 10) with Ok x => (rs_FromVersion x, ct_Count (rs_State x)) | Err _ => (0%N, 0%Z) end
    = (2%N, 8%Z)) as HC by (by vm_compute).
  destruct (racing_handle 10) as [[x|e] w'] eqn:HH; [|discriminate HC]. simpl in HC. injection HC as HF HS. unfold racing_handle in HH.
  destruct (pg_no_lost_update (fun _ => None) (fun c _ => c) counter_runtime 0 "t1" main_sid (Increment 2) no_meta 0%N (racing 10) x w'
    calm_clock_ok calm_clock_mono calm_driver_faults counter_codec_ok counter_state_codec_ok (racing_rep 10) HH)
    as (now & cmd' & L1 & L2 & _ & _ & _ & HP & Hh).
  exists x, w', cmd', L1, L2. split; [reflexivity|]. split; [exact HF|]. split; [exact HS|]. split; [exact HP|exact Hh].
Defined.
