(* ===== verification/PgDrain.v ===== *)
(** * The delivery relay of PostgreSQL (src/postgres/drain.go)

    Drain claims unpublished rows of every workspace under row locks, publishes
    them and marks them, in one transaction; any number of other relays may do
    the same beside it.  The theorem: an event is never marked before it was
    published, and when a Drain returns 0, every event committed when it looked
    is marked as published or locked by a relay that is still at work on it,
    whatever the order in which positions were committed. *)
From S2P Require Import Prelude Sha256 Es Hash Chain Anchor Timestamp Effect Store Sql Sqlite SqliteCorrect SqliteTheorems HexUuid SqliteClaims.
From S2P Require Import PgServer PgServerCorrect PgStore PgFence PgLog PgAppend PgRuntime PgClaims.

(** The relay process: the store's world, the verdict of the once-per-Store role
    check ([Some None]: passed), and what publish has accepted. *)
Record relay := MkRelay {
  rl_pg : pgw;
  rl_once : option (option error);
  rl_published : list Envelope
}.

Section Drain.
Context {UL : UuidLib} {EV : Env} {PE : PgEnv}.

Definition set_rl_pg (x : pgw) (w : relay) : relay := MkRelay x (rl_once w) (rl_published w).

Definition on_relay {A} (m : PM A) : SM relay A := fun w => let '(r, x) := m (rl_pg w) in (r, set_rl_pg x w).

Definition checkRelayRole : SM relay unit := fun w =>
  match rl_once w with
  | Some None => (Ok tt, w)
  | Some (Some e) => (Err e, w)
  | None =>
      let '(r, x) := ask (fun _ => relay_member) (rl_pg w) in
      let verdict := match r with
                     | Err e => Some (Errorf "postgres: drain: es_relay membership check" e)
                     | Ok member => if member then None else Some (Errorf "postgres: drain" (Sentinel ErrRelayRoleMissing))
                     end in
      (match verdict with None => Ok tt | Some e => Err e end, MkRelay x (Some verdict) (rl_published w))
  end.

Definition set_bypass : PM unit := set_config (fun ss => MkSession (ss_xid ss) (ss_ws ss) true).

(** SELECT ... WHERE published_at IS NULL ORDER BY global_position LIMIT $1
    FOR UPDATE SKIP LOCKED: the rows, locked. *)
Definition claimable (ss : session) (x : N) (limit : Z) (s : server) : list PgEvent :=
  take (Z.to_nat limit) (order_by p_global_position
    (filter (fun r => sv_published s !! p_global_position r = None /\ locked_elsewhere (Some x) (p_global_position r) s = false)
       (table ss s))).

Definition claim_rows (limit : Z) : PM (list PgEvent) := fun w =>
  match pg_session w with
  | None => (Err (ErrorsNew "tx is closed"), w)
  | Some ss =>
      match ask (fun _ => tt) w with
      | (Err e, w) => (Err e, w)
      | (Ok _, w) =>
          let '(x, w) := current_xid w in
          let rows := claimable ss x limit (pg_server w) in
          (Ok rows, with_server w (update_txn x (lock_rows (map p_global_position rows)) (pg_server w)))
      end
  end.

(** UPDATE events SET published_at = $1 WHERE global_position = ANY($2). *)
Definition mark_published (positions : list N) (now : time) : PM unit :=
  write (fun x s => (Ok tt, update_txn x (publish_rows positions now) s)).

(** The callback: it accepts the batch or returns an error. *)
Variable accept : list Envelope -> nat -> option error.

Definition publish (batch : list Envelope) : SM relay unit := fun w =>
  match accept batch (pg_tick (rl_pg w)) with
  | Some e => (Err e, set_rl_pg (interfere (rl_pg w)) w)
  | None => (Ok tt, MkRelay (interfere (rl_pg w)) (rl_once w) (rl_published w ++ batch))
  end.

(** The transaction of a Drain. *)
Definition drain_tx (limit : Z) : SM relay N :=
  let! _ := on_relay set_bypass wrap "set bypass" in
  let! rows := on_relay (claim_rows limit) wrap "claim" in
  let! batch := lift (result_map pg_scanEnvelope rows) wrap "scan" in
  let claimed := N.of_nat (length batch) in
  let positions := map GlobalPosition batch in
  if (claimed =? 0)%N then ret 0%N else
  let! _ := if bool_decide (batch = []) then ret tt else publish batch wrap "publish" in
  let! now := on_relay pg_Now in
  let! _ := on_relay (mark_published positions now) wrap "mark published" in
  let! _ := on_relay Commit wrap "commit" in
  ret claimed.

Definition Drain (limit : Z) : SM relay N :=
  let limit := if (limit <=? 0)%Z then 100%Z else limit in
  let! _ := checkRelayRole in
  fun w =>
    match on_relay (ask (fun _ => tt)) w with
    | (Err e, w) => (Err (Errorf "begin" e), w)
    | (Ok _, w) =>
        let '(r, w) := drain_tx limit (set_rl_pg (with_session (rl_pg w) (Some (MkSession None None false))) w) in
        (r, set_rl_pg (Rollback (rl_pg w)) w)
    end.

(** ** What has been marked *)

(** What the other relays have published or will have when they mark it. *)
Variable P : N -> Prop.

(** Another session marks only what it has published: what this theorem shows of
    a relay, asked of the others. *)
Definition disciplined (m : move) : Prop := match m with MPublish _ ps _ => forall p, p ∈ ps -> P p | _ => True end.

(** Marks, also those of open transactions, name published positions ([D]). *)
Record marks_ok (D : N -> Prop) (s : server) : Prop := {
  mk_table : forall p, is_Some (sv_published s !! p) -> D p;
  mk_open : forall x t p, sv_running s !! x = Some t -> is_Some (t_published t !! p) -> D p
}.

Lemma marks_more (D D' : N -> Prop) s : (forall p, D p -> D' p) -> marks_ok D s -> marks_ok D' s.
Proof. intros HD [M1 M2]. split; eauto. Qed.

(** Steps that keep marks. *)
Lemma marks_same D s s' :
  sv_published s' = sv_published s ->
  (forall x t', sv_running s' !! x = Some t' -> t_published t' = ∅
     \/ exists t, sv_running s !! x = Some t /\ t_published t' = t_published t) ->
  marks_ok D s -> marks_ok D s'.
Proof.
  intros E1 E2 [M1 M2]. split; rewrite ?E1; [done|].
  intros x t' p Hx Hp. destruct (E2 x t' Hx) as [E|(t & Ht & E)]; rewrite E in Hp; [rewrite lookup_empty in Hp; by destruct Hp|eauto].
Qed.

(** A transaction's own marks, of published positions. *)
Lemma marks_update (D : N -> Prop) x f s :
  (forall t p, is_Some (t_published (f t) !! p) -> is_Some (t_published t !! p) \/ D p) -> marks_ok D s -> marks_ok D (update_txn x f s).
Proof.
  intros Hf [M1 M2]. split; simpl; [done|]. intros y t' p Hy Hp.
  apply lookup_alter_Some in Hy as [(-> & t & Ht & ->)|[_ Ht]]; [destruct (Hf t p Hp); eauto|eauto].
Qed.

Lemma published_rows ps now t p : is_Some (t_published (publish_rows ps now t) !! p) -> is_Some (t_published t !! p) \/ p ∈ ps.
Proof.
  intros [v Hp]. simpl in Hp. apply lookup_union_Some_raw in Hp as [Hp|[_ Hp]]; [right|left; by eexists].
  by apply elem_of_list_to_map_2, list_elem_of_fmap in Hp as (q & [= -> _] & Hq).
Qed.

Lemma marks_nextval D s r s' : nextval s = (r, s') -> marks_ok D s -> marks_ok D s'.
Proof.
  intros HN. destruct (nextval_cases _ _ _ HN) as [[-> _]|(_ & _ & _ & _ & E2 & _ & _ & _ & E3)]; [done|].
  apply marks_same; [done|]. rewrite E2. eauto.
Qed.

Lemma marks_assign D s : marks_ok D s -> marks_ok D (assign_xid s).2.
Proof. apply marks_same; [done|]. intros y t' Hy. simpl in Hy. apply lookup_insert_Some in Hy as [[<- <-]|[_ Ht]]; [by left|eauto]. Qed.

Lemma marks_commit D x s : marks_ok D s -> marks_ok D (commit_xid x s).
Proof.
  intros HM. unfold commit_xid. destruct (sv_running s !! x) as [t|] eqn:Hx; [|done]. destruct HM as [M1 M2]. split; simpl.
  - intros p [v Hp]. apply lookup_union_Some_raw in Hp as [Hp|[_ Hp]]; [eapply M2; [exact Hx|by eexists]|apply M1; by eexists].
  - intros y t' p [_ Ht]%lookup_delete_Some. eauto.
Qed.

Lemma marks_abort D x s : marks_ok D s -> marks_ok D (abort_xid x s).
Proof.
  intros HM. unfold abort_xid. destruct (sv_running s !! x) as [t|] eqn:Hx; [|done]. destruct HM as [M1 M2]. split; simpl; [done|].
  intros y t' p [_ Ht]%lookup_delete_Some. eauto.
Qed.

Lemma marks_move (D : N -> Prop) now m s :
  (forall p, P p -> D p) -> disciplined m -> marks_ok D s -> marks_ok D (apply_move pg_row follows now m s).
Proof.
  intros HP Hm HM. destruct m as [|x e| |x k sid|x k sid|x ps|x ps t|x|x]; simpl in *;
    [by apply marks_assign| | | | | | |by apply marks_commit|by apply marks_abort].
  - destruct (_ && _ && _); [|done]. destruct (nextval s) as [[gp|er] s1] eqn:HN; [|by eapply marks_nextval].
    unfold store_row. repeat (case_match; [by eapply marks_nextval|]). simpl. apply marks_update; [by left|by eapply marks_nextval].
  - destruct (nextval s) as [r s1] eqn:HN. by eapply marks_nextval.
  - destruct (bool_decide _); [|done]. unfold insert_claim_row. repeat (case_match; [done|]). apply marks_update; [by left|done].
  - destruct (bool_decide _); [|done]. unfold delete_claim_row. repeat (case_match; [done|]). apply marks_update; [by left|done].
  - apply marks_update; [by left|done].
  - apply marks_update; [|done]. intros t0 p Hp. apply published_rows in Hp as [Hp|[_ Hp]%list_elem_of_filter]; [by left|right; auto].
Qed.

Lemma marks_moves (D : N -> Prop) own now ms s :
  (forall p, P p -> D p) -> Forall disciplined ms -> marks_ok D s -> marks_ok D (apply_moves pg_row follows now own ms s).
Proof.
  intros HP. revert s. induction ms as [|m ms IH]; intros s Hms HM; [done|]. apply Forall_cons in Hms as [Hm Hms]. unfold apply_moves. cbn [foldl].
  destruct (_ && _); [by apply IH|]. apply IH; [done|]. by apply marks_move.
Qed.

(** ** The relay's invariant *)

Hypothesis Hmono : clock_monotone.

(** The positions this relay or another one has published. *)
Definition by_relays (published : list Envelope) (p : N) : Prop := p ∈ map GlobalPosition published \/ P p.

Record relay_ok (w : relay) : Prop := {
  ro_ok : pg_ok (rl_pg w);
  ro_once : rl_once w = Some None -> relay_member = true;
  ro_marks : marks_ok (by_relays (rl_published w)) (pg_server (rl_pg w));
  ro_others : Forall (Forall disciplined) (pg_others (rl_pg w))
}.

(** A later world of the relay: the server has evolved, publish has accepted
    more, the role check stands. *)
Definition onward (w0 w : relay) : Prop :=
  relay_ok w /\ later (rl_pg w0) (rl_pg w) /\ rl_published w0 `prefix_of` rl_published w.

Lemma onward_pg w0 w x : onward w0 w -> pg_ok x -> later (rl_pg w) x ->
  marks_ok (by_relays (rl_published w)) (pg_server x) -> Forall (Forall disciplined) (pg_others x) ->
  onward w0 (set_rl_pg x w).
Proof. intros ([R1 R2 R3 R4] & Hl & Hp) Hx Hlx HM Ho. split; [by split|]. split; [by etrans|done]. Qed.

Lemma interfere_marks (D : N -> Prop) w :
  (forall p, P p -> D p) -> marks_ok D (pg_server w) -> Forall (Forall disciplined) (pg_others w) ->
  marks_ok D (pg_server (interfere w)) /\ Forall (Forall disciplined) (pg_others (interfere w)).
Proof.
  intros HP HM Ho. split.
  - apply marks_moves; [done| |done]. destruct (pg_others w) as [|ms mss]; simpl; [constructor|by apply Forall_cons in Ho as [? _]].
  - unfold interfere. simpl. destruct (pg_others w) as [|ms mss]; simpl; [constructor|by apply Forall_cons in Ho as [_ ?]].
Qed.

Lemma onward_interfere w0 w : onward w0 w -> onward w0 (set_rl_pg (interfere (rl_pg w)) w).
Proof.
  intros Hw. pose proof Hw as ([R1 R2 R3 R4] & _ & _). pose proof (interfere_quiet Hmono _ R1) as Hq.
  destruct (interfere_marks _ _ (fun p Hp => or_intror Hp) R3 R4) as [H1 H2]. apply onward_pg; [done|apply Hq|apply Hq|done|done].
Qed.

(** A read of the server. *)
Lemma onward_ask {A} (f : server -> A) w0 w r x : onward w0 w -> ask f (rl_pg w) = (r, x) -> onward w0 (set_rl_pg x w) /\ x = interfere (rl_pg w)
  /\ forall a, r = Ok a -> a = f (pg_server x).
Proof.
  intros Hw%onward_interfere. unfold ask, statement. destruct (fault _); intros [= <- <-]; [done|]. rewrite with_server_same.
  split; [done|]. split; [done|]. by intros a [= <-].
Qed.

(** The transaction of a Drain: [x] is its id once it has one. *)
Definition in_drain (w0 : relay) (ss : session) (w : relay) : Prop := onward w0 w /\ pg_session (rl_pg w) = Some ss.

Lemma in_drain_own w0 ss w : in_drain w0 ss w -> own_xid (rl_pg w) = ss_xid ss.
Proof. intros [_ Hs]. unfold own_xid. by rewrite Hs. Qed.

Lemma in_drain_ask w0 ss w r x : in_drain w0 ss w -> ask (fun _ => tt) (rl_pg w) = (r, x) -> in_drain w0 ss (set_rl_pg x w).
Proof. intros [Hw Hs] HA. destruct (onward_ask _ _ _ _ _ Hw HA) as (H1 & -> & _). by split. Qed.

(** Changing the session's settings keeps everything. *)
Lemma in_drain_session w0 w ss ss' : in_drain w0 ss w -> ss_xid ss' = ss_xid ss -> in_drain w0 ss' (set_rl_pg (with_session (rl_pg w) (Some ss')) w).
Proof.
  intros Hw E. pose proof (in_drain_own _ _ _ Hw) as Ho. destruct Hw as [Hw Hs].
  assert (own_xid (with_session (rl_pg w) (Some ss')) = own_xid (rl_pg w)) as Eo by (unfold own_xid at 1; simpl; congruence).
  split; [|done]. pose proof Hw as ([[[I1 I2 I3] Hlg] R2 R3 R4] & _ & _).
  apply onward_pg; try done; [|exact (evolves_refl _)]. split; [|done]. split; [done| |done]. intros x Hx. apply I2. by rewrite <- Eo.
Qed.

Lemma bypass_triple w0 :
  triple (in_drain w0 (MkSession None None false)) (on_relay set_bypass) (fun _ => in_drain w0 (MkSession None None true)) (onward w0).
Proof.
  intros w Hw. unfold on_relay, set_bypass, set_config. destruct (ask (fun _ => tt) (rl_pg w)) as [r x] eqn:HA.
  pose proof (in_drain_ask _ _ _ _ _ Hw HA) as Hw1. destruct r as [u|e]; [|apply Hw1].
  pose proof (proj2 Hw1) as Hs. simpl in Hs. rewrite Hs. simpl.
  apply (in_drain_session w0 (set_rl_pg x w) _ (MkSession None None true) Hw1 eq_refl).
Qed.

(** Locks and marks of the relay's own transaction. *)
Lemma onward_update w0 w x f :
  onward w0 w -> own_xid (rl_pg w) = Some x -> (forall t, t_from (f t) = t_from t /\ t_rows (f t) = t_rows t) ->
  (forall t p, is_Some (t_published (f t) !! p) -> is_Some (t_published t !! p) \/ by_relays (rl_published w) p) ->
  onward w0 (set_rl_pg (with_server (rl_pg w) (update_txn x f (pg_server (rl_pg w)))) w).
Proof.
  intros Hw Hx Hf Hp. pose proof Hw as ([[Hi Hlg] R2 R3 R4] & _ & _). destruct (update_inv x f _ Hf (pi_ids _ Hi)) as [Hi' He].
  apply onward_pg; try done; [|by apply marks_update].
  split; [|by apply log_ok_update; [intros t; apply Hf|]]. apply server_step; try done. intros y Hy. destruct (pi_own _ Hi y Hy) as [t Ht].
  simpl. destruct (decide (y = x)) as [->|Hne]; [rewrite lookup_alter_eq, Ht; by eexists|rewrite lookup_alter_ne, Ht by done; by eexists].
Qed.

(** The id of the relay's transaction. *)
Lemma drain_xid w0 w : in_drain w0 (MkSession None None true) w ->
  exists x w1, current_xid (rl_pg w) = (x, w1) /\ in_drain w0 (MkSession (Some x) None true) (set_rl_pg w1 w).
Proof.
  intros Hw. pose proof (in_drain_own _ _ _ Hw) as Ho. destruct Hw as [Hw Hs]. simpl in Ho.
  pose proof Hw as ([[Hi Hlg] R2 R3 R4] & _ & _).
  destruct (current_xid (rl_pg w)) as [x w1] eqn:HX. exists x, w1. split; [done|].
  destruct (current_xid_inv _ _ _ Hi ltac:(rewrite Hs; by eexists) HX) as (Hi' & Hl & Ho1 & _).
  revert HX. unfold current_xid. rewrite Ho. unfold assign_xid. intros [= <- <-]. rewrite Hs in *. simpl in *.
  split; [|done].
  apply onward_pg; [done|split; [exact Hi'|exact (log_ok_assign _ _ Hlg)]|exact Hl|by apply marks_assign|done].
Qed.

(** Everything committed is marked, or locked by another transaction than [own]. *)
Definition exhausted (own : option N) (s : server) : Prop :=
  forall r, r ∈ sv_events s -> is_Some (sv_published s !! p_global_position r) \/ locked_elsewhere own (p_global_position r) s = true.

(** A transaction's own locks are not another's. *)
Lemma locked_elsewhere_own x f p s : locked_elsewhere (Some x) p (update_txn x f s) = locked_elsewhere (Some x) p s.
Proof. unfold locked_elsewhere, others, update_txn. simpl. by rewrite delete_alter_eq. Qed.

(** When it ends, what others hold is all that is held. *)
Lemma exhausted_abort x s : exhausted (Some x) s -> exhausted None (abort_xid x s).
Proof.
  intros HE r Hr. unfold abort_xid in *. destruct (sv_running s !! x) as [t|] eqn:Hx.
  - simpl in *. exact (HE r Hr).
  - destruct (HE r Hr) as [?|HL]; [by left|right]. rewrite <- HL. unfold locked_elsewhere, others. by rewrite delete_id.
Qed.

Lemma claim_triple w0 limit : (0 < limit)%Z -> relay_member = true ->
  triple (in_drain w0 (MkSession None None true)) (on_relay (claim_rows limit))
    (fun rows w => exists x, in_drain w0 (MkSession (Some x) None true) w /\ (rows = [] -> exhausted (Some x) (pg_server (rl_pg w)))) (onward w0).
Proof.
  intros Hlim Hmem w Hw. unfold on_relay, claim_rows. rewrite (proj2 Hw). destruct (ask (fun _ => tt) (rl_pg w)) as [r x0] eqn:HA.
  pose proof (in_drain_ask _ _ _ _ _ Hw HA) as Hw1. destruct r as [u|e]; [|apply Hw1].
  destruct (drain_xid _ _ Hw1) as (x & w2 & HX & Hw2). simpl in HX. rewrite HX.
  set (rows := claimable _ _ _ _). pose proof (in_drain_own _ _ _ Hw2) as Ho2. simpl in Ho2.
  assert (onward w0 (set_rl_pg (with_server w2 (update_txn x (lock_rows (map p_global_position rows)) (pg_server w2))) w)) as Hon.
  { apply (onward_update w0 (set_rl_pg w2 w) x); [apply Hw2|done|done|by left]. }
  exists x. split; [split; [exact Hon|apply Hw2]|]. intros Hnil r Hr. simpl in Hr |- *.
  rewrite (locked_elsewhere_own x). destruct (sv_published (pg_server w2) !! p_global_position r) as [v|] eqn:Hp; [left; by eexists|right].
  apply not_false_iff_true. intros Hf.
  assert (r ∈ filter (fun r => sv_published (pg_server w2) !! p_global_position r = None /\ locked_elsewhere (Some x) (p_global_position r) (pg_server w2) = false)
    (table (MkSession None None true) (pg_server w2))) as Hin.
  { apply list_elem_of_filter. split; [done|].
    apply list_elem_of_filter. split; [unfold visible; cbn [ss_bypass]; rewrite Hmem; apply orb_true_r|]. apply elem_of_app. by left. }
  unfold rows, claimable in Hnil. rewrite <- (elem_of_order_by p_global_position) in Hin. destruct (order_by _ _) as [|y l]; [by apply not_elem_of_nil in Hin|].
  destruct (Z.to_nat limit) eqn:E; [lia|discriminate].
Qed.

Lemma publish_triple w0 ss batch :
  triple (in_drain w0 ss) (publish batch)
    (fun _ w => in_drain w0 ss w /\ forall p, p ∈ map GlobalPosition batch -> p ∈ map GlobalPosition (rl_published w)) (onward w0).
Proof.
  intros w [Hw Hs]. unfold publish. destruct (accept batch _); [by apply onward_interfere|].
  pose proof (onward_interfere _ _ Hw) as ([R1 R2 R3 R4] & Hl & Hp). split; [split; [|done]|].
  - split; [|split; [done|simpl; by apply prefix_app_r]]. split; [done|done| |done]. simpl.
    eapply marks_more; [|exact R3]. intros q [Hq|Hq]; [left; rewrite map_app; apply elem_of_app; by left|by right].
  - intros p Hin. simpl. rewrite map_app. apply elem_of_app. by right.
Qed.

Lemma mark_triple w0 x ps now :
  triple (fun w => in_drain w0 (MkSession (Some x) None true) w /\ forall p, p ∈ ps -> p ∈ map GlobalPosition (rl_published w))
    (on_relay (mark_published ps now)) (fun _ => in_drain w0 (MkSession (Some x) None true)) (onward w0).
Proof.
  intros w [Hw Hps]. unfold on_relay, mark_published, write. rewrite (proj2 Hw). destruct (ask (fun _ => tt) (rl_pg w)) as [r x0] eqn:HA.
  pose proof (in_drain_ask _ _ _ _ _ Hw HA) as Hw1. destruct r as [u|e]; [|apply Hw1].
  pose proof (in_drain_own _ _ _ Hw1) as Ho. simpl in Ho. unfold current_xid. rewrite Ho.
  split; [|apply Hw1]. apply (onward_update w0 (set_rl_pg x0 w) x); [apply Hw1|done|done|].
  intros t p [Hp|Hp]%published_rows; [by left|right; left; by apply Hps].
Qed.

(** The end of the transaction, either way. *)
Lemma onward_end w0 w w1 (f : N -> server -> server) :
  onward w0 w -> pg_ok w1 /\ later (rl_pg w) w1 ->
  w1 = with_session (match own_xid (rl_pg w) with Some x => with_server (rl_pg w) (f x (pg_server (rl_pg w))) | None => rl_pg w end) None ->
  (forall D x s, marks_ok D s -> marks_ok D (f x s)) ->
  onward w0 (set_rl_pg w1 w).
Proof.
  intros Hw [H1 H2] -> Hf. pose proof Hw as ([R1 R2 R3 R4] & _ & _). apply onward_pg; [done|done|done| |by destruct (own_xid (rl_pg w))].
  destruct (own_xid (rl_pg w)) as [x|]; [by apply Hf|done].
Qed.

Lemma drain_commit_triple w0 ss : triple (in_drain w0 ss) (on_relay Commit) (fun _ => onward w0) (onward w0).
Proof.
  intros w [Hw Hs]. unfold on_relay, Commit. pose proof (onward_interfere _ _ Hw) as Hw1.
  assert (onward w0 (set_rl_pg (committed (interfere (rl_pg w))) w)) as Hc.
  { pose proof Hw1 as ([R1 _ _ _] & _ & _). pose proof (committed_ok _ R1) as Hok.
    exact (onward_end _ _ _ commit_xid Hw1 Hok eq_refl marks_commit). }
  destruct (fault _); [destruct (lost_ack _)|]; done.
Qed.

Lemma drain_tx_triple w0 limit : (0 < limit)%Z -> relay_member = true ->
  triple (in_drain w0 (MkSession None None false)) (drain_tx limit) (fun n w => onward w0 w /\ (n = 0%N -> exhausted None (pg_server (Rollback (rl_pg w))))) (onward w0).
Proof.
  intros Hlim Hmem. unfold drain_tx. eapply triple_bind; [apply triple_wrap, bypass_triple|]. intros u.
  eapply triple_bind; [by apply triple_wrap, claim_triple|]. intros rows.
  eapply (triple_bind _ _ _ (fun batch w => exists x, in_drain w0 (MkSession (Some x) None true) w /\ (batch = [] -> exhausted (Some x) (pg_server (rl_pg w))))).
  { apply triple_wrap, triple_lift; [|by intros w (x & (Hw & _) & _)]. intros batch w Hb (x & Hx & Hex). exists x. split; [done|]. intros ->. apply Hex.
    by apply result_map_Ok, Forall2_nil_inv_r in Hb. }
  intros batch. cbv zeta. destruct (N.eqb_spec (N.of_nat (length batch)) 0) as [Hz|Hz].
  { apply triple_ret. intros w (x & Hw & Hex). split; [apply Hw|]. intros _. unfold Rollback. rewrite (in_drain_own _ _ _ Hw). simpl.
    apply exhausted_abort, Hex. by destruct batch. }
  intros w (x & Hw & _). revert w Hw.
  refine (triple_bind _ _ _ (fun _ w => in_drain w0 (MkSession (Some x) None true) w /\ forall p, p ∈ map GlobalPosition batch -> p ∈ map GlobalPosition (rl_published w)) _ _ _ _).
  { case_bool_decide; [by subst|]. apply triple_wrap, publish_triple. }
  intros u1. eapply (triple_bind _ _ _ (fun _ w => in_drain w0 (MkSession (Some x) None true) w /\ forall p, p ∈ map GlobalPosition batch -> p ∈ map GlobalPosition (rl_published w))).
  { intros w [[Hw Hs] Hp]. unfold on_relay, pg_Now. split; [|done]. split; [by apply onward_interfere|done]. }
  intros now. eapply triple_bind; [apply triple_wrap, mark_triple|]. intros u2.
  eapply triple_bind; [apply triple_wrap, drain_commit_triple|]. intros u3. apply triple_ret. intros w Hw. split; [done|]. intros E. by rewrite E in Hz.
Qed.

Lemma check_triple w0 :
  triple (fun w => onward w0 w /\ pg_session (rl_pg w) = None) checkRelayRole
    (fun _ w => onward w0 w /\ pg_session (rl_pg w) = None /\ relay_member = true) (fun w => onward w0 w /\ pg_session (rl_pg w) = None).
Proof.
  intros w [Hw Hs]. unfold checkRelayRole. destruct (rl_once w) as [[e|]|] eqn:Ho; [done| |].
  { split; [done|]. split; [done|]. pose proof Hw as ([_ R2 _ _] & _ & _). by apply R2. }
  destruct (ask _ (rl_pg w)) as [r x] eqn:HA. destruct (onward_ask _ _ _ _ _ Hw HA) as (([R1 _ R3 R4] & Hl & Hp) & -> & Hr).
  assert (forall v, (v = None -> relay_member = true) -> onward w0 (MkRelay (interfere (rl_pg w)) (Some v) (rl_published w))) as Hon.
  { intros v Hv. split; [|done]. split; [done| |done|done]. intros [= ->]. by apply Hv. }
  destruct r as [m|e]; [|by split; [apply Hon|]]. rewrite (Hr m eq_refl) in *. destruct relay_member; (split; [by apply Hon|done]).
Qed.

(** A Drain, on every path. *)
Lemma Drain_triple w0 limit :
  triple (fun w => onward w0 w /\ pg_session (rl_pg w) = None) (Drain limit)
    (fun n w => (onward w0 w /\ pg_session (rl_pg w) = None) /\ (n = 0%N -> exhausted None (pg_server (rl_pg w)))) (fun w => onward w0 w /\ pg_session (rl_pg w) = None).
Proof.
  unfold Drain. cbv zeta. eapply triple_bind; [apply check_triple|]. intros u w (Hw & Hs & Hmem).
  unfold on_relay. destruct (ask (fun _ => tt) (rl_pg w)) as [r x] eqn:HA. destruct (onward_ask _ _ _ _ _ Hw HA) as (Hw1 & -> & _).
  destruct r as [u'|e]; [|done].
  assert (in_drain w0 (MkSession None None false) (set_rl_pg (with_session (interfere (rl_pg w)) (Some (MkSession None None false))) w)) as Hin.
  { split; [|done]. assert (own_xid (interfere (rl_pg w)) = None) as Ho by (unfold own_xid; simpl; by rewrite Hs).
    pose proof Hw1 as ([R1 R2 R3 R4] & Hl & Hp). split; [|done]. by split; [apply with_session_ok|..]. }
  assert (0 < if (limit <=? 0)%Z then 100 else limit)%Z as Hlim by (destruct (Z.leb_spec limit 0); lia).
  pose proof (drain_tx_triple w0 _ Hlim Hmem _ Hin) as HT.
  assert (forall w2, onward w0 w2 -> onward w0 (set_rl_pg (Rollback (rl_pg w2)) w2)) as Hrb.
  { intros w2 Hw2. pose proof Hw2 as ([R1 _ _ _] & _ & _). exact (onward_end _ _ _ abort_xid Hw2 (Rollback_ok _ R1) eq_refl marks_abort). }
  simpl in HT |- *. destruct (drain_tx _ _) as [[n|e] w2].
  - destruct HT as [HT1 HT2]. by split; [split; [apply Hrb|]|].
  - split; [by apply Hrb|done].
Qed.
End Drain.

(** ** The claim *)

(** C6: relays lose nothing and mark nothing early, however many there are.  While
    other sessions append and commit in any order, other relays claim, publish
    and mark rows (marking only what they have published: [P]), and any
    statement, the publish callback or the commit may fail: a row is marked
    only after this relay's publish accepted its event or another relay
    published it; what this relay published stays recorded; and when a Drain
    returns 0, every event committed by then in any workspace, whatever its
    position, is marked as published or is locked by the open transaction of
    another relay. *)
Theorem drain_gap_safe `{UuidLib} `{Env} `{PgEnv} (P : N -> Prop) accept limit w r w' :
  clock_monotone -> relay_ok P w -> pg_session (rl_pg w) = None -> Drain accept limit w = (r, w') ->
  relay_ok P w' /\ rl_published w `prefix_of` rl_published w'
  /\ (forall p, is_Some (sv_published (pg_server (rl_pg w')) !! p) -> p ∈ map GlobalPosition (rl_published w') \/ P p)
  /\ (r = Ok 0%N -> forall row, row ∈ sv_events (pg_server (rl_pg w')) ->
        is_Some (sv_published (pg_server (rl_pg w')) !! p_global_position row)
        \/ locked_elsewhere None (p_global_position row) (pg_server (rl_pg w')) = true).
Proof.
  intros Hmono Hw Hs HD. assert (onward P w w) as Hon by (split; [done|]; split; [exact (evolves_refl _)|done]).
  pose proof (triple_run _ _ _ _ _ _ _ (Drain_triple accept P Hmono w limit) (conj Hon Hs) HD) as HT.
  assert (onward P w w') as (Hok & _ & Hp) by (destruct r; apply HT). split; [done|]. split; [done|].
  split; [apply (ro_marks _ _ Hok)|]. intros ->. by apply HT.
Qed.

#[local] Instance drain_pg : PgEnv := { relay_member := true; lost_ack := fun _ => false }.
#[local] Existing Instance calm_env.
#[local] Existing Instance HexUuid.

(** Two workers' transactions, and another relay that claims position 2 with its
    transaction 5 and, after [k] more statements, marks and commits it. *)
Definition rival (k : nat) : list (list move) := [MStart; MLock 5 [2%N]] :: replicate k [] ++ [[MPublish 5 [2%N] (clock 0); MCommit 5]].

Definition busy_relay (others : list (list move)) : relay :=
  MkRelay (MkPgw (pg_server (busy_pgw 0)) None 0 0 1 others) None [].

Lemma busy_relay_ok (P : N -> Prop) others : Forall (Forall (disciplined P)) others -> relay_ok P (busy_relay others).
Proof.
  intros Ho. split; [apply moved_ok|done| |done].
  apply (marks_moves P _ None (clock 0)); [by right|repeat constructor|]. split; simpl.
  - intros p Hp. rewrite lookup_empty in Hp. by destruct Hp.
  - intros x t p Hx. by rewrite lookup_empty in Hx.
Qed.

Definition take_all (_ : list Envelope) (_ : nat) : option error := None.

Definition alone : relay := busy_relay (replicate 8 [] ++ [[MCommit 3]]).
Definition drained : relay := (Drain take_all 10 (Drain take_all 10 alone).2).2.
Definition beside : relay := busy_relay (rival 20).

(** Alone: the first Drain publishes position 2; position 1 commits afterwards,
    behind it, and the second Drain publishes it; the third finds nothing, and
    every event is marked.  Beside the other relay, which holds position 2, the
    first Drain returns 0 and the event is locked. *)
Lemma drain_gap_safe_witness :
  (map GlobalPosition (rl_published drained) = [2; 1]%N /\ fst (Drain take_all 10 drained) = Ok 0%N
   /\ forall row, row ∈ sv_events (pg_server (rl_pg (Drain take_all 10 drained).2)) ->
        is_Some (sv_published (pg_server (rl_pg (Drain take_all 10 drained).2)) !! p_global_position row)
        \/ locked_elsewhere None (p_global_position row) (pg_server (rl_pg (Drain take_all 10 drained).2)) = true)
  /\ (fst (Drain take_all 10 beside) = Ok 0%N /\ locked_elsewhere None 2 (pg_server (rl_pg (Drain take_all 10 beside).2)) = true
      /\ forall p, is_Some (sv_published (pg_server (rl_pg (Drain take_all 10 beside).2)) !! p) ->
           p ∈ map GlobalPosition (rl_published (Drain take_all 10 beside).2) \/ p = 2%N).
Proof.
  split.
  - split; [by vm_compute|]. assert (fst (Drain take_all 10 drained) = Ok 0%N) as H0 by (by vm_compute). split; [exact H0|].
    assert (relay_ok (fun _ => False) alone) as Ha.
    { apply busy_relay_ok, Forall_app. split; [apply Forall_replicate; constructor|repeat constructor]. }
    destruct (drain_gap_safe (fun _ => False) take_all 10 alone _ _ calm_clock_mono Ha eq_refl (surjective_pairing _)) as (H1 & _).
    destruct (drain_gap_safe (fun _ => False) take_all 10 _ _ _ calm_clock_mono H1 ltac:(by vm_compute) (surjective_pairing _)) as (H2 & _).
    destruct (drain_gap_safe (fun _ => False) take_all 10 drained _ _ calm_clock_mono H2 ltac:(by vm_compute) (surjective_pairing _)) as (_ & _ & _ & H3).
    exact (H3 H0).
  - split; [by vm_compute|]. split; [by vm_compute|].
    assert (relay_ok (fun p => p = 2%N) beside) as Hb.
    { apply busy_relay_ok. unfold rival. constructor; [repeat constructor|]. apply Forall_app.
      split; [apply Forall_replicate; constructor|]. constructor; [|done]. constructor; [by intros p ->%list_elem_of_singleton|by constructor]. }
    destruct (drain_gap_safe (fun p => p = 2%N) take_all 10 beside _ _ calm_clock_mono Hb eq_refl (surjective_pairing _)) as (_ & _ & H3 & _).
    exact H3.
Defined.
