(* ===== verification/PgAnchors.v ===== *)
(** * Anchors of a PostgreSQL store (src/postgres/anchor.go)

    Taking, listing and checking anchors across all workspaces, under the
    bypass of row-level security, and the list of streams.  An anchor of a
    settled position keeps checking out whatever is committed later; an anchor
    of the log head may cover a position whose transaction is still open, and
    does not. *)
From S2P Require Import Prelude Sha256 Es Hash Chain Anchor Timestamp Effect Store Sql Sqlite SqliteCorrect SqliteTheorems HexUuid SqliteClaims.
From S2P Require Import Definitions FeedContract PgServer PgServerCorrect PgStore PgFence PgLog PgAppend PgRuntime PgFeed PgFeedCorrect PgClaims PgDrain.

(** The anchors table, the row an open transaction has inserted, and applied_at
    of migration 2. *)
Record pga := MkPga {
  ga_relay : relay;
  ga_anchors : list Anchor;
  ga_pending : option Anchor;
  ga_chained : option time
}.

(** ORDER BY two text columns. *)
Definition text_pair_le (a b : string * string) : Prop :=
  String.ltb a.1 b.1 = true \/ a.1 = b.1 /\ String.le a.2 b.2.
#[global] Instance text_pair_le_dec : RelDecision text_pair_le.
Proof. intros a b. unfold text_pair_le. apply _. Defined.

Definition row_key (r : PgEvent) : string * string := (p_workspace_id r, p_stream_id r).
Definition row_key_le (a b : PgEvent) : Prop := text_pair_le (row_key a) (row_key b).
#[global] Instance row_key_le_dec : RelDecision row_key_le.
Proof. intros a b. unfold row_key_le. apply _. Defined.

(** ORDER BY upto_global_position, created_at. *)
Definition pg_anchor_order (a b : Anchor) : Prop :=
  (an_UptoGlobalPosition a < an_UptoGlobalPosition b)%N
  \/ an_UptoGlobalPosition a = an_UptoGlobalPosition b /\ (an_CreatedAt a <= an_CreatedAt b)%Z.
#[global] Instance pg_anchor_order_dec : RelDecision pg_anchor_order.
Proof. intros a b. unfold pg_anchor_order. apply _. Defined.

(** ** Heads *)

(** SELECT workspace_id, stream_id, MAX(version) ... WHERE global_position <= $1
    GROUP BY workspace_id, stream_id: one group's row. *)
Definition pg_group_max (upto : N) (k : string * string) (rows : list PgEvent) : option N :=
  match filter (fun r => row_key r = k /\ (p_global_position r <= upto)%N) rows with
  | [] => None
  | l => Some (max_of p_version l)
  end.

(** The join with events, ordered. *)
Definition pg_head_rows (upto : N) (rows : list PgEvent) : list PgEvent :=
  merge_sort row_key_le (filter (fun r => pg_group_max upto (row_key r) rows = Some (p_version r)) rows).

Definition pg_scan_head (r : PgEvent) : res StreamHead :=
  let? sid := ParseCanonical (p_stream_id r) in
  Ok (MkStreamHead (p_workspace_id r) sid (p_version r) (p_hash r)).

Section Anchors.
Context {UL : UuidLib} {EV : Env} {PE : PgEnv}.

Definition on_ga {A} (m : SM relay A) : SM pga A := fun w =>
  let '(r, x) := m (ga_relay w) in (r, MkPga x (ga_anchors w) (ga_pending w) (ga_chained w)).

Definition ask_pg {A} (m : PM A) : SM pga A := on_ga (on_relay m).

Definition pg_ChainedSince : SM pga time := fun w =>
  match ask_pg (ask (fun _ => tt)) w with
  | (Err e, w) => (Err e, w)
  | (Ok _, w) => (Ok (default zero_time (ga_chained w)), w)
  end.

(** ** Transactions *)

Definition set_ga_pg (x : pgw) (w : pga) : pga := MkPga (set_rl_pg x (ga_relay w)) (ga_anchors w) (ga_pending w) (ga_chained w).
Definition ga_pg (w : pga) : pgw := rl_pg (ga_relay w).

Definition ga_Rollback (w : pga) : pga :=
  let w := set_ga_pg (Rollback (ga_pg w)) w in MkPga (ga_relay w) (ga_anchors w) None (ga_chained w).

(** COMMIT installs the inserted row. *)
Definition ga_install (w : pga) : pga :=
  MkPga (ga_relay w) (ga_anchors w ++ match ga_pending w with Some a => [a] | None => [] end) None (ga_chained w).

Definition ga_Commit : SM pga unit := fun w =>
  let n := pg_tick (ga_pg w) in
  match ask_pg Commit w with
  | (Ok _, w) => (Ok tt, ga_install w)
  | (Err e, w) => (Err e, if lost_ack n then ga_install w else w)
  end.

(** bypassTx and the deferred Rollback of its callers. *)
Definition bypassTx {A} (body : SM pga A) : SM pga A :=
  let! _ := on_ga checkRelayRole in
  fun w =>
    match ask_pg (ask (fun _ => tt)) w with
    | (Err e, w) => (Err (Errorf "begin" e), w)
    | (Ok _, w) =>
        let '(r, w) := (let! _ := ask_pg set_bypass wrap "set bypass" in body)
                         (set_ga_pg (with_session (ga_pg w) (Some (MkSession None None false))) w) in
        (r, ga_Rollback w)
    end.

(** ** Operations *)

Definition pg_heads (upto : N) : SM pga (list StreamHead) :=
  let! rows := (let! _ := lift (pg_bind upto) in ask_pg (select (pg_head_rows upto))) wrap "read stream heads" in
  lift (result_map pg_scan_head rows).

(** INSERT INTO anchors: the transaction gets its id, the key is checked. *)
Definition pg_insert_anchor (a : Anchor) : SM pga unit :=
  let! _ := lift (pg_bind (an_UptoGlobalPosition a)) in
  let! _ := lift (pg_bind (an_StreamCount a)) in
  let! _ := ask_pg pg_current_xact_id in
  fun w => if existsb (fun b => bool_decide (an_ID b = an_ID a)) (ga_anchors w) then (Err unique_violation, w)
           else (Ok tt, MkPga (ga_relay w) (ga_anchors w) (Some a) (ga_chained w)).

Definition pg_Anchor (upto : N) : SM pga Anchor :=
  bypassTx (
    let! upto := if (upto =? 0)%N then ask_pg (select (max_of p_global_position)) wrap "read log head" else ret upto in
    let! hs := pg_heads upto in
    let root := AnchorRoot hs in
    let! id := ask_pg pg_newV7 in
    let! now := ask_pg pg_Now in
    let a := MkAnchor (uuid_String id) (TruncateMicros now) upto (u64 (N.of_nat (length hs))) root in
    let! _ := pg_insert_anchor a wrap "insert anchor" in
    let! _ := ga_Commit wrap "commit" in
    ret a).

Definition pg_ListAnchors : SM pga (list Anchor) :=
  bypassTx (fun w =>
    match ask_pg (ask (fun _ => tt)) w with
    | (Err e, w) => (Err e, w)
    | (Ok _, w) => (Ok (merge_sort pg_anchor_order (ga_anchors w)), w)
    end).

Definition pg_CheckAnchor (a : Anchor) : SM pga unit :=
  bypassTx (
    let! hs := pg_heads (an_UptoGlobalPosition a) in
    let root := AnchorRoot hs in
    if negb (u64 (N.of_nat (length hs)) =? an_StreamCount a)%N || negb (bool_decide (root = an_RootHash a))
    then throw (Errorf "anchor" (Sentinel ErrAnchorMismatch))
    else ret tt).

(** SELECT DISTINCT workspace_id, stream_id ... ORDER BY workspace_id, stream_id. *)
Definition pg_ListStreams : SM pga (list StreamRef) :=
  bypassTx (
    let! keys := ask_pg (select (fun rows => merge_sort text_pair_le (remove_dups (map row_key rows)))) in
    lift (result_map (fun k => let? sid := ParseCanonical k.2 in Ok (MkStreamRef k.1 sid)) keys)).

(** ** The heads of a settled position *)

Lemma version_unique now s r1 r2 : log_ok now s -> r1 ∈ sv_events s -> r2 ∈ sv_events s ->
  row_key r1 = row_key r2 -> p_version r1 = p_version r2 -> r1 = r2.
Proof.
  intros Hl H1 H2 Hk Hv. destruct (lo_rows _ _ Hl None r1 H1) as (e1 & W1 & -> & _), (lo_rows _ _ Hl None r2 H2) as (e2 & W2 & -> & _).
  injection Hk as Hws Hsid. simpl in Hws, Hsid, Hv. apply Canonical_inj in Hsid; [|apply W1|apply W2].
  assert (forall e, pg_wf e -> pg_stored e ∈ sv_events s -> e ∈ line (Workspace e) (env_StreamID e) (sv_events s)) as Hin.
  { intros e We He. apply list_elem_of_fmap. exists (pg_stored e). split; [by rewrite row_env_stored|]. by apply list_elem_of_filter. }
  pose proof (gl_versions _ _ (lo_base _ _ Hl (Workspace e1) (env_StreamID e1) (pw_sid _ W1))) as Hn.
  pose proof (Hin e1 W1 H1) as I1. pose proof (Hin e2 W2 H2) as I2. rewrite <- Hws, <- Hsid in I2. f_equal. by apply (numbered_inj _ _ _ e1 e2 Hn).
Qed.

Lemma max_of_attained {A} (key : A -> N) l : l <> [] -> exists x, x ∈ l /\ key x = max_of key l.
Proof.
  induction l as [|x l IH]; [done|]. intros _. simpl. destruct l as [|y l]; [exists x; split; [by left|simpl; lia]|].
  destruct IH as (z & Hz & E); [done|]. destruct (N.max_spec (key x) (max_of key (y :: l))) as [[_ ->]|[_ ->]]; [exists z; split; [by right|done]|exists x; split; [by left|done]].
Qed.

(** Commits above a closed position do not change the heads below it. *)
Lemma head_rows_closed now upto s s' :
  ids_inv s' -> log_ok now s' -> evolves s s' -> closed s upto -> pg_head_rows upto (sv_events s') = pg_head_rows upto (sv_events s).
Proof.
  intros Hi Hl He Hc. destruct (evolves_prefix _ _ He) as [K HK]. pose proof (proj1 (ii_nodup _ Hi)) as Hnd. rewrite HK in Hnd.
  apply NoDup_app in Hnd as (_ & Hdis & _).
  assert (forall r, r ∈ K -> (upto < p_global_position r)%N) as Hnew.
  { intros r Hr. apply N.nle_gt. intros Hle. apply (Hdis r); [|done]. apply (Hc s'); try done. rewrite HK. apply elem_of_app. by right. }
  assert (forall k, pg_group_max upto k (sv_events s') = pg_group_max upto k (sv_events s)) as Hg.
  { intros k. unfold pg_group_max. rewrite HK, filter_app, (filter_false _ K), app_nil_r; [done|]. intros r Hr [_ Hle]. specialize (Hnew r Hr). lia. }
  unfold pg_head_rows. f_equal. rewrite (filter_iff_in _ (fun r => pg_group_max upto (row_key r) (sv_events s) = Some (p_version r))) by (intros r _; by rewrite Hg).
  rewrite HK, filter_app, (filter_false _ K), app_nil_r; [done|]. intros r Hr Hm. unfold pg_group_max in Hm.
  destruct (filter _ (sv_events s)) as [|x l] eqn:Hf; [done|]. destruct (max_of_attained p_version (x :: l)) as (r0 & H0 & Ev); [done|].
  rewrite <- Hf in H0. apply list_elem_of_filter in H0 as [[Hk _] H0]. apply (inj Some) in Hm. apply (Hdis r0); [done|].
  rewrite (version_unique now s' r0 r); [done|done|rewrite HK; apply elem_of_app; by left|rewrite HK; apply elem_of_app; by right|done|congruence].
Qed.

(** ** Calls of the anchor path *)

Hypothesis Hmono : clock_monotone.

Definition went (w0 w : pga) : Prop := failed (ga_pg w0) (ga_pg w).

(** Inside the bypass transaction before it has an id. *)
Definition bypassed (w0 w : pga) : Prop := went w0 w /\ pg_session (ga_pg w) = Some (MkSession None None true).

(** From here on no statement fails and the session may bypass. *)
Hypothesis Hnf : no_fault.
Hypothesis Hmem : relay_member = true.

Lemma ask_total {A} (f : server -> A) w : ask f w = (Ok (f (pg_server (interfere w))), interfere w).
Proof. unfold ask, statement. rewrite Hnf. by rewrite with_server_same. Qed.

Lemma went_interfere w0 w x : went w0 w -> pg_ok x -> later (ga_pg w) x -> went w0 (set_ga_pg x w).
Proof. intros [H1 H2] Hx Hl. split; [done|]. etrans; [exact H2|exact Hl]. Qed.

Lemma select_triple {A} (f : list PgEvent -> A) w0 X :
  triple (bypassed w0) (ask_pg (select f)) (fun a w => bypassed w0 w /\ a = f (sv_events (pg_server (ga_pg w)))) X.
Proof.
  intros w [Hw Hs]. unfold ask_pg, on_ga, on_relay, select. pose proof Hs as Hs'. unfold ga_pg in Hs'. rewrite Hs', ask_total.
  pose proof (interfere_quiet Hmono _ (proj1 Hw)) as Hq. split; [split; [by apply (went_interfere w0 w); [|apply Hq..]|exact Hs]|].
  f_equal. change (table (MkSession None None true) (pg_server (interfere (ga_pg w))) = sv_events (pg_server (interfere (ga_pg w)))).
  unfold table. cbn [ss_xid]. rewrite app_nil_r. apply filter_true. intros r _. unfold visible. cbn [ss_bypass]. rewrite Hmem. apply orb_true_r.
Qed.

(** What the heads read at some later instant are. *)
Definition heads_at (upto : N) (w0 : pga) (hs : list StreamHead) : Prop :=
  exists w, went w0 w /\ result_map pg_scan_head (pg_head_rows upto (sv_events (pg_server (ga_pg w)))) = Ok hs.

Lemma heads_triple upto w0 :
  triple (bypassed w0) (pg_heads upto) (fun hs _ => heads_at upto w0 hs /\ (upto <= max_int64)%N) (fun _ => True).
Proof.
  eapply (triple_bind _ _ _ (fun rows w => (bypassed w0 w /\ rows = pg_head_rows upto (sv_events (pg_server (ga_pg w)))) /\ (upto <= max_int64)%N)).
  - apply triple_wrap. unfold pg_bind. destruct (N.leb_spec upto max_int64) as [Hle|]; [|by intros w Hw].
    eapply triple_bind; [apply triple_lift; [intros n w _ Hw; exact Hw|done]|]. intros n.
    eapply triple_conseq; [intros w Hw; exact Hw| |apply select_triple]. intros rows w Hw. done.
  - intros rows. apply triple_lift; [|done]. intros hs w Hh [[[Hw _] ->] Hle]. split; [by exists w|done].
Qed.

Lemma heads_total upto w0 hs : (upto <= max_int64)%N ->
  (forall w, went w0 w -> result_map pg_scan_head (pg_head_rows upto (sv_events (pg_server (ga_pg w)))) = Ok hs) ->
  triple (bypassed w0) (pg_heads upto) (fun hs' _ => hs' = hs) (fun _ => False).
Proof.
  intros Hle Hh. eapply (triple_bind _ _ _ (fun rows w => bypassed w0 w /\ rows = pg_head_rows upto (sv_events (pg_server (ga_pg w))))).
  - apply triple_wrap. unfold pg_bind. rewrite (proj2 (N.leb_le _ _) Hle).
    eapply triple_bind; [apply (triple_ret _ upto (fun _ => bypassed w0)); done|]. intros n. apply select_triple.
  - intros rows w [[Hw _] ->]. unfold lift. by rewrite (Hh w Hw).
Qed.

(** The transaction around a body. *)
Definition role_ok (w : pga) : Prop := rl_once (ga_relay w) = None \/ rl_once (ga_relay w) = Some None.

Lemma bypassTx_triple {A} (body : SM pga A) w0 (Q : A -> Prop) (X : Prop) :
  triple (bypassed w0) body (fun a _ => Q a) (fun _ => X) ->
  triple (fun w => went w0 w /\ role_ok w) (bypassTx body) (fun a _ => Q a) (fun _ => X).
Proof.
  intros Hb. unfold bypassTx. eapply (triple_bind _ _ _ (fun _ => went w0)).
  - intros w [Hw Ho]. unfold on_ga, checkRelayRole. pose proof (interfere_quiet Hmono _ (proj1 Hw)) as Hq.
    destruct Ho as [-> | ->]; [|destruct w; exact Hw]. rewrite ask_total, Hmem. apply (went_interfere w0 w); [done|apply Hq..].
  - intros u w Hw. pose proof (interfere_quiet Hmono _ (proj1 Hw)) as Hq. unfold ask_pg at 1, on_ga, on_relay. rewrite ask_total.
    set (w1 := set_ga_pg _ _).
    assert (went w0 w1) as Hw1.
    { split; [|exact (transitivity (proj2 Hw) (q_later _ _ Hq))]. apply with_session_ok; [apply Hq|done]. }
    unfold bind, catch, ask_pg, on_ga, on_relay, set_bypass, set_config. rewrite ask_total. cbn [fst snd].
    set (w2 := MkPga _ _ _ _).
    assert (bypassed w0 w2) as Hw2.
    { pose proof (interfere_quiet Hmono _ (proj1 Hw1)) as Hq1. split; [|done]. split; [|exact (transitivity (proj2 Hw1) (q_later _ _ Hq1))].
      apply (with_session_ok _ (MkSession None None true)); [apply Hq1|done]. }
    specialize (Hb w2 Hw2). destruct (body w2) as [[a|e] w3]; exact Hb.
Qed.

Lemma went_refl w : pg_ok (ga_pg w) -> went w w.
Proof. intros Hw. split; [done|reflexivity]. Qed.

Lemma Anchor_heads upto w a w1 : (upto <> 0)%N -> pg_ok (ga_pg w) -> role_ok w -> pg_Anchor upto w = (Ok a, w1) ->
  an_UptoGlobalPosition a = upto /\ (upto <= max_int64)%N
  /\ exists hs, heads_at upto w hs /\ an_StreamCount a = u64 (N.of_nat (length hs)) /\ an_RootHash a = AnchorRoot hs.
Proof.
  intros Hu Hw Hro HA. refine (triple_run _ _ _ _ _ _ _ (bypassTx_triple _ w (fun a => an_UptoGlobalPosition a = upto /\ (upto <= max_int64)%N
    /\ exists hs, heads_at upto w hs /\ an_StreamCount a = u64 (N.of_nat (length hs)) /\ an_RootHash a = AnchorRoot hs) True _)
    (conj (went_refl w Hw) Hro) HA).
  rewrite (proj2 (N.eqb_neq _ _) Hu). eapply triple_bind; [apply (triple_ret _ upto (fun n w' => bypassed w w' /\ n = upto)); done|].
  intros n w2 [Hb ->]. revert w2 Hb. refine (triple_bind _ _ _ _ _ _ (heads_triple upto w) _). intros hs w3 [Hh Hle]. cbv zeta.
  destruct (bind _ _ w3) as [[b|e] w4] eqn:HB; [|done]. run_ok HB. injection HB as <- _. split; [done|]. split; [done|]. by exists hs.
Qed.

Lemma CheckAnchor_total a w hs : pg_ok (ga_pg w) -> role_ok w -> (an_UptoGlobalPosition a <= max_int64)%N ->
  (forall w', went w w' -> result_map pg_scan_head (pg_head_rows (an_UptoGlobalPosition a) (sv_events (pg_server (ga_pg w')))) = Ok hs) ->
  an_StreamCount a = u64 (N.of_nat (length hs)) -> an_RootHash a = AnchorRoot hs -> fst (pg_CheckAnchor a w) = Ok tt.
Proof.
  intros Hw Hro Hle Hh Hc Hr.
  assert (triple (fun w' => went w w' /\ role_ok w') (pg_CheckAnchor a) (fun r _ => r = tt) (fun _ => False)) as HT.
  { apply (bypassTx_triple _ w (fun r => r = tt) False). refine (triple_bind _ _ _ _ _ _ (heads_total _ w hs Hle Hh) _). intros hs' w' ->.
    cbv zeta. by rewrite Hc, Hr, N.eqb_refl, bool_decide_eq_true_2. }
  specialize (HT w (conj (went_refl w Hw) Hro)). destruct (pg_CheckAnchor a w) as [[[]|e] w']; done.
Qed.
End Anchors.

(** ** Properties *)

(** C35: an anchor of a settled position is permanent.  When nothing at or below
    the position can be committed any more (a page or a head of the feed ended
    there), the anchor recorded for it checks out in every later state of the
    store, whatever other sessions commit. *)
Theorem pg_anchor_stable `{UuidLib} `{Env} `{PgEnv} upto w a w1 w2 :
  clock_monotone -> no_fault -> relay_member = true -> pg_ok (ga_pg w) -> role_ok w -> (upto <> 0)%N -> closed (pg_server (ga_pg w)) upto ->
  pg_Anchor upto w = (Ok a, w1) ->
  pg_ok (ga_pg w2) -> role_ok w2 -> evolves (pg_server (ga_pg w)) (pg_server (ga_pg w2)) ->
  fst (pg_CheckAnchor a w2) = Ok tt.
Proof.
  intros Hmono Hnf Hmem Hw Hro Hu Hc HA Hw2 Hro2 Hev.
  destruct (Anchor_heads Hmono Hnf Hmem _ _ _ _ Hu Hw Hro HA) as (Eu & Hle & hs & (wh & [Hokh Hlh] & Hh) & Hcnt & Hroot).
  apply (CheckAnchor_total Hmono Hnf Hmem a w2 hs); rewrite ?Eu; try done. intros w' [Hok' Hl'].
  rewrite (head_rows_closed _ upto (pg_server (ga_pg w)) _ (pi_ids _ (po_inv _ Hokh)) (po_log _ Hokh) Hlh Hc) in Hh.
  by rewrite (head_rows_closed _ upto (pg_server (ga_pg w)) _ (pi_ids _ (po_inv _ Hok')) (po_log _ Hok') (transitivity Hev Hl') Hc).
Qed.

(** ** A run *)

#[local] Instance anchor_pg : PgEnv := { relay_member := true; lost_ack := fun _ => false }.
#[local] Existing Instance calm_env.
#[local] Existing Instance HexUuid.

Definition anchors_on (x : pgw) : pga := MkPga (MkRelay x None []) [] None None.
Definition paged : res (list Envelope * bool) * pgw := read_page (busy_pgw 0).
Definition extended : pgw := (pg_Append 0 "t1" append_b paged.2).2.

Lemma paged_ok : pg_ok paged.2.
Proof. exact (proj1 (sound_ok _ _ _ _ read_page_sound (busy_ok 0) (surjective_pairing _))). Qed.

Lemma paged_closed : closed (pg_server paged.2) 2.
Proof.
  assert (match fst paged with Ok (page, _) => GlobalPosition <$> last page | Err _ => None end = Some 2%N) as HP by (by vm_compute).
  unfold paged in *. destruct (read_page (busy_pgw 0)) as [[[page tr]|e] w'] eqn:HR; [|discriminate HP]. simpl fst in HP. cbv iota beta in HP.
  destruct (last page) as [e|] eqn:He; [|discriminate HP]. injection HP as HP.
  destruct (ReadAllBounded_final _ _ _ _ _ _ _ _ _ _ (po_inv _ (busy_ok 0)) HR e He) as [Hc _]. rewrite HP in Hc. exact Hc.
Qed.

Lemma extended_ok : pg_ok extended /\ evolves (pg_server paged.2) (pg_server extended).
Proof.
  pose proof (triple_run _ _ _ _ _ _ _ (Append_triple calm_clock_mono 0 "t1" append_b paged.2) (conj paged_ok (reflexivity _)) (surjective_pairing _)) as HT.
  unfold extended. assert (failed paged.2 (pg_Append 0 "t1" append_b paged.2).2) as HF by (destruct (fst (pg_Append 0 "t1" append_b paged.2)); apply HT).
  exact HF.
Qed.

(** A page has been delivered up to position 2; the anchor taken there checks
    out after a later append. *)
Lemma pg_anchor_stable_witness :
  exists a w1, pg_Anchor 2 (anchors_on paged.2) = (Ok a, w1) /\ an_StreamCount a = 2%N
    /\ map p_global_position (sv_events (pg_server extended)) = [2; 1; 3; 4]%N
    /\ fst (pg_CheckAnchor a (anchors_on extended)) = Ok tt.
Proof.
  assert (forall x y a w1, pg_ok x -> closed (pg_server x) 2 -> pg_ok y /\ evolves (pg_server x) (pg_server y) ->
    pg_Anchor 2 (anchors_on x) = (Ok a, w1) -> fst (pg_CheckAnchor a (anchors_on y)) = Ok tt) as HG.
  { intros x y a w1 Hx Hc [Hy He] HA.
    exact (pg_anchor_stable 2 (anchors_on x) a w1 (anchors_on y) calm_clock_mono calm_no_fault eq_refl Hx (or_introl eq_refl)
      ltac:(done) Hc HA Hy (or_introl eq_refl) He). }
  assert (match fst (pg_Anchor 2 (anchors_on paged.2)) with Ok a => an_StreamCount a | Err _ => 0%N end = 2%N) as HC by (by vm_compute).
  assert (map p_global_position (sv_events (pg_server extended)) = [2; 1; 3; 4]%N) as HE by (by vm_compute).
  pose proof (fun a w1 => HG _ _ a w1 paged_ok paged_closed extended_ok) as HG'.
  destruct (pg_Anchor 2 (anchors_on paged.2)) as [[a|e] w1]; [|discriminate HC].
  exists a, w1. split; [reflexivity|]. split; [exact HC|]. split; [exact HE|]. exact (HG' a w1 eq_refl).
Defined.

(** An anchor of the log head can be broken without tampering.  The head is the
    highest committed position, which an open transaction's position may lie
    below: here position 2 is committed and position 1 is not when the anchor
    of the head is taken; position 1 commits, the log has only grown, and
    checking the anchor reports a mismatch. *)
Example pg_head_anchor_breaks :
  exists a w1 w2, pg_Anchor 0 (anchors_on (busy_pgw 9)) = (Ok a, w1) /\ an_UptoGlobalPosition a = 2%N
    /\ pg_CheckAnchor a w1 = (Err (Errorf "anchor" (Sentinel ErrAnchorMismatch)), w2)
    /\ map p_global_position (sv_events (pg_server (ga_pg w1))) = [2]%N
    /\ map p_global_position (sv_events (pg_server (ga_pg w2))) = [2; 1]%N
    /\ map p_event_id (take 1 (sv_events (pg_server (ga_pg w2)))) = map p_event_id (sv_events (pg_server (ga_pg w1))).
Proof.
  assert (match pg_Anchor 0 (anchors_on (busy_pgw 9)) with
          | (Ok a, w1) =>
              match pg_CheckAnchor a w1 with
              | (r, w2) => an_UptoGlobalPosition a = 2%N /\ r = Err (Errorf "anchor" (Sentinel ErrAnchorMismatch))
                  /\ map p_global_position (sv_events (pg_server (ga_pg w1))) = [2]%N
                  /\ map p_global_position (sv_events (pg_server (ga_pg w2))) = [2; 1]%N
                  /\ map p_event_id (take 1 (sv_events (pg_server (ga_pg w2)))) = map p_event_id (sv_events (pg_server (ga_pg w1)))
              end
          | (Err e, _) => False
          end) as HC by (vm_compute; repeat split).
  destruct (pg_Anchor 0 (anchors_on (busy_pgw 9))) as [[a|e] w1]; [|destruct HC].
  destruct (pg_CheckAnchor a w1) as [r w2] eqn:Hk. destruct HC as (H1 & -> & H2 & H3 & H4).
  exists a, w1, w2. by repeat split.
Qed.
