(* ===== verification/Eventfeed.v ===== *)
(** * The feed consumer (src/eventfeed/eventfeed.go)

    A subscription over a feed server as a projection feed: attempts under one
    owner token, an acknowledgement window flushed when it is full, on a tick
    and when the caller's context ends.

    An attempt runs two goroutines: the stream (Server.Subscribe, which calls
    Send) and the ack loop.  The loop is a state machine of its own; before
    every port call of the stream the scheduler lets it take any number of
    steps, an acknowledgement of the loop being two of them (the holder check
    and the save), so that the two interleave at every port call.  The ticks
    and the branch a select takes are an input of the model ([script]). *)
From S2P Require Import Prelude Es Effect Delivery Projection Definitions FeedPorts Feed.

Definition defaultBatchSize : Z := 500.
Definition defaultAckInterval : Z := 250 * Millisecond.

Section Eventfeed.
Context {X : Type} {FE : FeedEnv X}.

(** ** Configuration *)

Record EventConfig := MkEventConfig {
  ec_Server : option (Server X);
  ec_Definition : Definition_;
  ec_Scope : string;
  ec_Instance : string;
  ec_Consumer : string;
  ec_BatchSize : Z;
  ec_AckInterval : Z;
  ec_Observer : option (Observer X)
}.

(** A Feed: its configuration with the defaults filled in. *)
Record EventFeed := MkEventFeed {
  ef_Server : Server X;
  ef_Definition : Definition_;
  ef_Scope : string;
  ef_Instance : string;
  ef_Consumer : string;
  ef_Observer : Observer X;
  ef_token : string;
  ef_batch : Z;
  ef_tick : Z
}.

(** A failure to read entropy is a panic. *)
Definition newToken : SM X string :=
  let! b := fx_randRead wrap "eventfeed: generate owner token" in
  ret (EncodeToString b).

(** Errors are panics. *)
Definition New (cfg : EventConfig) : SM X EventFeed :=
  match ec_Server cfg with
  | None => throw (ErrorsNew "eventfeed: Config.Server is required")
  | Some server =>
      if bool_decide (ec_Scope cfg = EmptyString) then throw (ErrorsNew "eventfeed: Config.Scope is required")
      else if bool_decide (df_Name (ec_Definition cfg) = EmptyString)
      then throw (ErrorsNew "eventfeed: Config.Definition.Name is required")
      else if bool_decide (df_Consumes (ec_Definition cfg) = [])
      then throw (ErrorsNew "eventfeed: Config.Definition.Consumes is required")
      else
        let batch := if (ec_BatchSize cfg <=? 0)%Z then defaultBatchSize else ec_BatchSize cfg in
        let tick := if (ec_AckInterval cfg <=? 0)%Z then defaultAckInterval else ec_AckInterval cfg in
        let observer := match ec_Observer cfg with None => NoopObserver | Some o => o end in
        let! token := newToken in
        ret (MkEventFeed server (ec_Definition cfg) (ec_Scope cfg) (ec_Instance cfg) (ec_Consumer cfg) observer token batch tick)
  end.

(** ** An attempt *)

(** Where the ack loop is: at its select, about to check the holder or to save
    for an acknowledgement of a position (on the tick, or the last one when the
    context ended), or returned. *)
Inductive loop_pc :=
| LSelect
| LHolder (flush : bool) (pos : N)
| LSave (flush : bool) (pos : N)
| LDone.

(** The branch of the select a step takes, when it is at one. *)
Inductive loop_event := LCtxDone | LTick | LRunDone.

Record attempt_state := MkAttempt {
  at_pending : N;
  at_count : Z;
  at_cancelled : bool;                (** the attempt's runCtx *)
  at_stream : bool;                   (** the context Subscribe derives from it *)
  at_stuck : bool;                    (** the fuel of Send's retry loop ended *)
  at_loop : loop_pc;
  at_script : list (list loop_event)
}.

Definition new_attempt (script : list (list loop_event)) : attempt_state :=
  MkAttempt 0 0 false false false LSelect script.

Definition set_window (pending : N) (count : Z) (a : attempt_state) : attempt_state :=
  MkAttempt pending count (at_cancelled a) (at_stream a) (at_stuck a) (at_loop a) (at_script a).
Definition set_cancelled (b : bool) (a : attempt_state) : attempt_state :=
  MkAttempt (at_pending a) (at_count a) b (at_stream a) (at_stuck a) (at_loop a) (at_script a).
Definition set_stream (b : bool) (a : attempt_state) : attempt_state :=
  MkAttempt (at_pending a) (at_count a) (at_cancelled a) b (at_stuck a) (at_loop a) (at_script a).
Definition set_stuck (a : attempt_state) : attempt_state :=
  MkAttempt (at_pending a) (at_count a) (at_cancelled a) (at_stream a) true (at_loop a) (at_script a).
Definition set_loop (pc : loop_pc) (a : attempt_state) : attempt_state :=
  MkAttempt (at_pending a) (at_count a) (at_cancelled a) (at_stream a) (at_stuck a) pc (at_script a).
Definition set_script (script : list (list loop_event)) (a : attempt_state) : attempt_state :=
  MkAttempt (at_pending a) (at_count a) (at_cancelled a) (at_stream a) (at_stuck a) (at_loop a) script.

Abbreviation AW := (X * attempt_state)%type.

Section Attempt.
Variable f : EventFeed.

Definition request : Request :=
  MkRequest (ef_Scope f) (df_Name (ef_Definition f)) (ef_Instance f) (ef_Consumer f) (ef_token f) (ef_Definition f) (ef_batch f).

Definition ack_of (pos : N) : Ack :=
  MkAck (ef_Scope f) (df_Name (ef_Definition f)) (ef_Instance f) (ef_token f) pos (definition_Hash (ef_Definition f)).

(** The claim of the window under the mutex. *)
Definition claim_window (a : attempt_state) : option N * attempt_state :=
  if (at_count a =? 0)%Z then (None, a) else (Some (at_pending a), set_window (at_pending a) 0 a).

(** *** The loop *)

(** Server.Checkpoint as the two port calls it makes. *)
Definition checkpoint_fence (s : Server X) (ack : Ack) : SM X unit :=
  let! _ := lift (validateKey (ak_Scope ack) (ak_Projection ack) (ak_Instance ack)) in
  let key := key_string (ak_Scope ack) (ak_Projection ack) (ak_Instance ack) in
  let! holder := le_Holder (Leases s) (ak_Scope ack) (ak_Projection ack) (ak_Instance ack) wrap "feed: holder" in
  match holder with
  | None => throw (LeaseLostError key (ak_Owner ack) (Sentinel errLeaseExpired))
  | Some lease => if negb (bool_decide (ls_Owner lease = ak_Owner ack)) then throw (LeaseHeldError key lease true) else ret tt
  end.

Definition checkpoint_save (s : Server X) (ack : Ack) : SM X unit :=
  let! _ := cs_Save (Checkpoints s) (ak_Scope ack) (ak_Projection ack) (ak_Instance ack)
              (ak_Definition ack) (ak_Position ack) wrap "feed: save checkpoint" in
  observe s (OnCheckpoint (ak_Position ack)).

(** What follows an acknowledgement: the last one ends the loop, a rejected one
    ends the attempt. *)
Definition loop_acked (flush ok : bool) (a : attempt_state) : attempt_state :=
  if flush || negb ok then set_loop LDone (set_cancelled true a) else set_loop LSelect a.

Definition loop_step (ev : loop_event) (v : AW) : AW :=
  let '(x, a) := v in
  match at_loop a with
  | LDone => v
  | LHolder flush pos =>
      match checkpoint_fence (ef_Server f) (ack_of pos) x with
      | (Ok _, x) => (x, set_loop (LSave flush pos) a)
      | (Err _, x) => (x, loop_acked flush false a)
      end
  | LSave flush pos =>
      match checkpoint_save (ef_Server f) (ack_of pos) x with
      | (Ok _, x) => (x, loop_acked flush true a)
      | (Err _, x) => (x, loop_acked flush false a)
      end
  | LSelect =>
      match ev with
      | LTick =>
          match claim_window a with
          | (None, a) => (x, loop_acked false true a)
          | (Some pos, a) => (x, set_loop (LHolder false pos) a)
          end
      | LCtxDone =>
          match fx_ctxErr x with
          | (None, x) => (x, a)
          | (Some _, x) =>
              match claim_window a with
              | (None, a) => (x, loop_acked true true a)
              | (Some pos, a) => (x, set_loop (LHolder true pos) a)
              end
          end
      | LRunDone => if at_cancelled a then (x, set_loop LDone a) else v
      end
  end.

(** The scheduler lets the loop take its steps. *)
Definition loop_run (v : AW) : AW :=
  foldl (fun v ev => loop_step ev v) (v.1, set_script (tail (at_script v.2)) v.2) (default [] (head (at_script v.2))).

(** A port call of the stream. *)
Definition on_base {A} (m : SM X A) : SM AW A := fun v =>
  let v := loop_run v in let '(r, x) := m v.1 in (r, (x, v.2)).

(** *** The server as the stream sees it *)

Definition loop_Checkpoints (cs : CheckpointStore X) : CheckpointStore AW := {|
  cs_Load s p i := on_base (cs_Load cs s p i);
  cs_Save s p i d pos := on_base (cs_Save cs s p i d pos);
  cs_Reset s p i d pos := on_base (cs_Reset cs s p i d pos);
  cs_Delete s p i := on_base (cs_Delete cs s p i);
  cs_Checkpoint s p i := on_base (cs_Checkpoint cs s p i) |}.

Definition loop_Leases (ls : LeaseStore X) : LeaseStore AW := {|
  le_Acquire s p i owner consumer ttl v :=
    let v := loop_run v in let '(r, x) := le_Acquire ls s p i owner consumer ttl v.1 in (r, (x, v.2));
  le_Renew s p i owner ttl := on_base (le_Renew ls s p i owner ttl);
  le_Release s p i owner := on_base (le_Release ls s p i owner);
  le_Holder s p i := on_base (le_Holder ls s p i) |}.

Definition loop_Log (log : Log X) : Log AW := {|
  lg_ReadAllBounded from limit maxBytes types := on_base (lg_ReadAllBounded log from limit maxBytes types);
  lg_Head := on_base (lg_Head log);
  lg_RawHead := on_base (lg_RawHead log);
  lg_MatchingHead types := on_base (lg_MatchingHead log types) |}.

Definition beside {A} (m : X -> A * X) : AW -> A * AW := fun v => let '(r, x) := m v.1 in (r, (x, v.2)).

Definition loop_server (s : Server X) : Server AW := {|
  Checkpoints := loop_Checkpoints (Checkpoints s);
  Leases := loop_Leases (Leases s);
  sv_Logs scope := let! log := on_base (sv_Logs s scope) in ret (loop_Log log);
  sv_Waiter := (fun wt d => on_base (wt d)) <$> sv_Waiter s;
  sv_Clock := beside (sv_Clock s);
  DeadLetters := (fun rc dl => on_base (rc dl)) <$> DeadLetters s;
  sv_Observer x v := (sv_Observer s x v.1, v.2);
  Batch := Batch s;
  MaxBatch := MaxBatch s;
  MaxPayloadBytes := MaxPayloadBytes s;
  MaxBatchBytes := MaxBatchBytes s;
  Poll := Poll s;
  LeaseTTL := LeaseTTL s;
  RenewEvery := RenewEvery s;
  prefix := prefix s;
  jitter := (fun j d => beside (j d)) <$> jitter s |}.

Definition stream_err (a : attempt_state) : option error :=
  if at_cancelled a || at_stream a then Some (Sentinel Canceled) else None.

(** The contexts of the stream are the attempt's: its runCtx is not derived
    from the caller's.  Of the timer of the outer world only the time passes. *)
#[local] Instance attempt_env : FeedEnv AW := {
  fx_Now := beside fx_Now;
  fx_ctxErr v := (if at_cancelled v.2 then Some (Sentinel Canceled) else None, v);
  fx_runErr v := (stream_err v.2, v);
  fx_withCancel v := (v.1, set_stream false v.2);
  fx_cancel v := (v.1, set_stream true v.2);
  fx_timer d v :=
    let v := loop_run v in
    match stream_err v.2 with
    | Some e => (Err e, v)
    | None => let '(_, x) := fx_timer d v.1 in (Ok tt, (x, v.2))
    end;
  fx_ticks := beside fx_ticks;
  fx_seqAdd := beside fx_seqAdd;
  fx_randRead := on_base fx_randRead;
  fx_jitter d := beside (fx_jitter d)
}.

(** *** Send *)

Definition ack : SM AW unit := fun v =>
  match claim_window v.2 with
  | (None, a) => (Ok tt, (v.1, a))
  | (Some pos, a) => server_Checkpoint (loop_server (ef_Server f)) (ack_of pos) (v.1, a)
  end.

(** The retry loop; when the fuel ends it is still retrying. *)
Fixpoint retry_handle (handle : Envelope -> SM X unit) (env : Envelope) (fuel : nat) : SM AW unit :=
  match fuel with
  | O => fun v => (Err (ErrorsNew "still retrying"), (v.1, set_stuck v.2))
  | S fuel' =>
      let! r := attempt (on_base (handle env)) in
      match r with
      | Ok _ => ret tt
      | Err _ => let! _ := fx_timer (ef_tick f) in retry_handle handle env fuel'
      end
  end.

Definition Send (handle : Envelope -> SM X unit) (fuel : nat) : Sink AW := fun env =>
  let! _ := retry_handle handle env fuel in
  let! full := fun v =>
    let a := set_window (GlobalPosition env) (i64 (at_count v.2 + 1)) v.2 in
    (Ok (ef_batch f <=? at_count a)%Z, (v.1, a)) in
  if full then ack wrap "eventfeed: ack" else ret tt.

(** *** Feed *)

(** [<-loopDone] after cancel(): the loop takes the steps of the script, ends an
    acknowledgement that is under way and returns. *)
Definition loop_join (v : AW) : AW :=
  let v := loop_run (v.1, set_cancelled true v.2) in
  let '(x, a) := loop_step LRunDone (loop_step LRunDone (loop_step LRunDone v)) in (x, set_loop LDone a).

(** attempt.Feed: [Ok None] is an attempt that is still running. *)
Definition attempt_Feed (script : X -> list (list loop_event)) (fuel : nat) : Projection.Feed X := fun handle x =>
  let '(r, v) := Subscribe (loop_server (ef_Server f)) fuel request (Some (Send handle fuel)) (x, new_attempt (script x)) in
  match r with
  | Ok _ => (Ok None, v.1)
  | Err err =>
      if at_stuck v.2 then (Ok None, v.1) else
      let '(x, _) := loop_join v in
      let x := match AsTooLarge err with Some poison => ef_Observer f (OnPoison poison) x | None => x end in
      let '(cerr, x) := fx_ctxErr x in
      (match cerr with Some ce => Err ce | None => Err err end, x)
  end.
End Attempt.

(** ** The feed *)

(** The reconnecting feed New builds. *)
Definition inner (f : EventFeed) (script : X -> list (list loop_event)) (fuel : nat) : ReconnectingFeed X :=
  MkReconnectingFeed (ret (Some (attempt_Feed f script fuel))) 0 0 None.

Definition event_Feed `{ProjectionEnv X} (f : EventFeed) (script : X -> list (list loop_event)) (fuel n : nat) : Projection.Feed X :=
  reconnecting_Feed (inner f script fuel) n.
End Eventfeed.
Arguments EventConfig : clear implicits.
Arguments EventFeed : clear implicits.
