(* ===== verification/EventfeedCorrect.v ===== *)
(** * At-least-once consumption

    The cursor of a subscription never runs ahead of what its handler has
    accepted: over ports that keep the feed's contract and a bound on the stored
    cursor, every attempt of the consumer, however its two goroutines
    interleave and however it ends, leaves each consumed event at or below the
    cursor handled. *)
From S2P Require Import Prelude Es Effect Delivery Projection Definitions FeedPorts Feed FeedContract FeedCorrect Eventfeed.

(** The highest of [c] and the positions of [S]. *)
Definition bound (c : N) (S : list Envelope) : N := foldr (fun e n => N.max (GlobalPosition e) n) c S.

Lemma bound_le c S e : e ∈ S -> (GlobalPosition e <= bound c S)%N.
Proof. induction 1; simpl; lia. Qed.

Lemma bound_app c S T : bound c (S ++ T) = N.max (bound c S) (bound c T).
Proof. induction S as [|e S IH]; simpl; [|rewrite IH; lia]. induction T; simpl; lia. Qed.

Lemma bound_base c S : (c <= bound c S)%N.
Proof. induction S; simpl; lia. Qed.

Lemma bound_attained c S : bound c S = c \/ (c < bound c S)%N /\ exists e, e ∈ S /\ GlobalPosition e = bound c S.
Proof.
  induction S as [|e S IH]; simpl; [by left|]. pose proof (bound_base c S) as Hb.
  destruct (N.max_spec (GlobalPosition e) (bound c S)) as [[Hlt ->]|[Hle ->]].
  - destruct IH as [?|(? & e' & ? & ?)]; [by left|]. right. split; [done|]. exists e'. split; [by right|done].
  - destruct (N.eq_dec (GlobalPosition e) c); [by left|]. right. split; [lia|]. exists e. split; [by left|done].
Qed.

Lemma bound_max c S n : (c <= n)%N -> (forall e, e ∈ S -> GlobalPosition e <= n)%N -> (bound c S <= n)%N.
Proof.
  intros Hc. induction S as [|e S IH]; intros HS; simpl; [done|]. apply N.max_lub; [apply HS; by left|]. apply IH. intros e' He. apply HS. by right.
Qed.

(** ** Calls that deliver nothing *)

Section Quiet.
Context {W : Type} (rep : W -> list Envelope -> list Envelope -> Prop).

Lemma quiet_ret {A} (a : A) : quiet rep (ret a).
Proof. intros w L S HR. by exists L. Qed.
Lemma quiet_throw {A} e : quiet rep (throw (A:=A) e).
Proof. intros w L S HR. by exists L. Qed.
Lemma quiet_lift {A} (r : res A) : quiet rep (lift r).
Proof. intros w L S HR. by exists L. Qed.
Lemma quiet_bind {A B} (m : SM W A) (k : A -> SM W B) : quiet rep m -> (forall a, quiet rep (k a)) -> quiet rep (bind m k).
Proof.
  intros Hm Hk w L S HR. unfold bind. specialize (Hm w L S HR) as (L1 & HL1 & HR1). destruct (m w) as [[a|e] w1]; simpl in *; [|by exists L1].
  destruct (Hk a w1 L1 S HR1) as (L2 & HL2 & HR2). exists L2. split; [by etrans|done].
Qed.
Lemma quiet_catch {A} (m : SM W A) h : quiet rep m -> (forall e, quiet rep (h e)) -> quiet rep (catch m h).
Proof.
  intros Hm Hh w L S HR. unfold catch. specialize (Hm w L S HR) as (L1 & HL1 & HR1). destruct (m w) as [[a|e] w1]; simpl in *; [by exists L1|].
  destruct (Hh e w1 L1 S HR1) as (L2 & HL2 & HR2). exists L2. split; [by etrans|done].
Qed.
Lemma quiet_wrap {A} (m : SM W A) ctx : quiet rep m -> quiet rep (m wrap ctx).
Proof. intros Hm. apply quiet_catch; [done|]. intros e. apply quiet_throw. Qed.
End Quiet.

#[export] Hint Resolve quiet_ret quiet_throw quiet_lift quiet_wrap : feed.
#[export] Hint Extern 1 (quiet _ (bind _ _)) => (apply quiet_bind; [|intros]) : feed.
#[export] Hint Extern 2 (quiet _ (match _ with _ => _ end)) => case_goal : feed.

(** ** What the ports promise *)

Section Laws.
Context {X : Type} {FE : FeedEnv X}.
Variable s : Server X.
Variable handle : Envelope -> SM X unit.

(** [rep n x L S]: the log is [L], the handler has accepted [S] and the stored
    cursor of the subscription is at most [n]. *)
Variable rep : N -> X -> list Envelope -> list Envelope -> Prop.
Variable prompt : Prop.
Variables scope proj inst : string.

Class CursorLaws : Prop := {
  cu_feed : forall n, FeedLaws s handle (rep n) prompt scope;
  cu_open : forall n m x L S log x', rep n x L S -> sv_Logs s scope x = (Ok log, x') -> LogLaws (rep m) prompt log;
  cu_unique : forall n m x L L' S S', rep n x L S -> rep m x L' S' -> L = L';
  cu_handle : forall n env x L S r x', rep n x L S -> handle env x = (r, x') ->
    exists L', L `prefix_of` L' /\ rep n x' L' (S ++ match r with Ok _ => [env] | Err _ => [] end);
  cu_save : forall n d pos, (pos <= n)%N -> quiet (rep n) (cs_Save (Checkpoints s) scope proj inst d pos);
  cu_read : forall n x L S found x', rep n x L S ->
    cs_Checkpoint (Checkpoints s) scope proj inst x = (Ok found, x') -> (cp_Position (default zero_Checkpoint found) <= n)%N
}.
End Laws.

(** ** Attempts *)

Section Attempts.
Context {X : Type} {FE : FeedEnv X}.
Variable f : EventFeed X.
Variable handle : Envelope -> SM X unit.
Variable rep : N -> X -> list Envelope -> list Envelope -> Prop.
Variable prompt : Prop.
Abbreviation s := (ef_Server f).
Context {CL : CursorLaws s handle rep prompt (ef_Scope f) (df_Name (ef_Definition f)) (ef_Instance f)}.

(** The cursor is at most [n]. *)
Definition held (n : N) (x : X) (L S : list Envelope) : Prop := forall m, (n <= m)%N -> rep m x L S.

Lemma held_le n m x L S : (n <= m)%N -> held n x L S -> held m x L S.
Proof. intros Hle Hh k Hk. apply Hh. lia. Qed.

Lemma held_step n x x' : (forall m, (n <= m)%N -> quiet_step (rep m) x x') -> quiet_step (held n) x x'.
Proof.
  intros Hq L S HR. destruct (Hq n (N.le_refl _) L S (HR n (N.le_refl _))) as (L' & HL & HR'). exists L'. split; [done|].
  intros m Hm. destruct (Hq m Hm L S (HR m Hm)) as (L2 & _ & HR2).
  by rewrite (cu_unique s handle rep prompt _ _ _ _ _ _ _ _ _ _ HR' HR2).
Qed.

Lemma held_call {A} n (m : SM X A) : (forall k, quiet (rep k) m) -> quiet (held n) m.
Proof. intros Hm x. apply held_step. intros k _. apply Hm. Qed.

Variable c0 : N.

(** The position an acknowledgement of the loop under way carries. *)
Definition loop_pos (pc : loop_pc) : N :=
  match pc with LHolder _ pos | LSave _ pos => pos | _ => 0%N end.

Record attempt_rep (v : X * attempt_state) (L S : list Envelope) : Prop := {
  ar_base : held (bound c0 S) v.1 L S;
  ar_pending : (at_pending v.2 <= bound c0 S)%N;
  ar_loop : (loop_pos (at_loop v.2) <= bound c0 S)%N
}.

(** The part of the state that matters. *)
Definition same_window (a a' : attempt_state) : Prop := at_pending a' = at_pending a /\ at_loop a' = at_loop a.

Lemma rep_same x a a' L S : same_window a a' -> attempt_rep (x, a) L S -> attempt_rep (x, a') L S.
Proof. intros [E1 E2] [H1 H2 H3]. split; simpl in *; [done|by rewrite E1|by rewrite E2]. Qed.

Lemma rep_base x x' a L S : quiet_step (held (bound c0 S)) x x' -> attempt_rep (x, a) L S ->
  exists L', L `prefix_of` L' /\ attempt_rep (x', a) L' S.
Proof. intros Hq [H1 H2 H3]. destruct (Hq L S H1) as (L' & HL & H1'). exists L'. split; [done|]. by split. Qed.

(** *** The loop *)

Lemma fence_quiet n pos : quiet (held n) (checkpoint_fence s (ack_of f pos)).
Proof.
  apply held_call. intros k. unfold checkpoint_fence.
  pose proof (@fl_holder _ _ s handle (rep k) prompt (ef_Scope f) (cu_feed s handle rep prompt _ _ _ k)). auto 10 with feed.
Qed.

Lemma save_quiet n pos : (pos <= n)%N -> quiet (held n) (checkpoint_save s (ack_of f pos)).
Proof.
  intros Hle x. apply held_step. intros k Hk. unfold checkpoint_save. apply quiet_bind.
  - apply quiet_wrap, (@cu_save _ _ s handle rep prompt _ _ _ CL). exact (N.le_trans _ _ _ Hle Hk).
  - intros u x'. apply (@fl_observe _ _ s handle (rep k) prompt (ef_Scope f) (cu_feed s handle rep prompt _ _ _ k)).
Qed.

Lemma claim_spec a : let '(o, a') := claim_window a in
  same_window a a' /\ forall pos, o = Some pos -> pos = at_pending a.
Proof. unfold claim_window. by destruct (at_count a =? 0)%Z; repeat split; intros ? [= <-]. Qed.

Lemma acked_rep x a flush ok L S : attempt_rep (x, a) L S -> attempt_rep (x, loop_acked flush ok a) L S.
Proof. intros [H1 H2 H3]. unfold loop_acked. destruct (flush || negb ok); (split; [exact H1|exact H2|apply N.le_0_l]). Qed.

Lemma loop_step_quiet ev v : quiet_step attempt_rep v (loop_step f ev v).
Proof.
  destruct v as [x a]. intros L S HR. pose proof HR as [H1 H2 H3]. simpl in H1, H2, H3. unfold loop_step.
  destruct (at_loop a) as [|flush pos|flush pos|] eqn:Hpc; simpl in H3.
  - destruct ev.
    + pose proof (held_step (bound c0 S) x (fx_ctxErr x).2 (fun k _ =>
        @fl_ctxErr _ _ s handle (rep k) prompt (ef_Scope f) (cu_feed s handle rep prompt _ _ _ k) x)) as Q.
      destruct (fx_ctxErr x) as [[e|] x']; destruct (rep_base x x' a L S Q HR) as (L' & HL & HR'); [|by exists L'].
      exists L'. split; [done|]. pose proof (claim_spec a) as Hc. destruct (claim_window a) as [[pos|] a'], Hc as [Hsame Hpos].
      * apply (rep_same _ _ _ _ _ Hsame) in HR' as [K1 K2 K3]. split; [done|done|]. simpl. rewrite (Hpos _ eq_refl). lia.
      * apply acked_rep. by apply (rep_same _ a).
    + exists L. split; [done|]. pose proof (claim_spec a) as Hc. destruct (claim_window a) as [[pos|] a'], Hc as [Hsame Hpos].
      * apply (rep_same _ _ _ _ _ Hsame) in HR as [K1 K2 K3]. split; [done|done|]. simpl. rewrite (Hpos _ eq_refl). lia.
      * apply acked_rep. by apply (rep_same _ a).
    + exists L. split; [done|]. destruct (at_cancelled a); [|done]. split; [done|done|]. simpl. lia.
  - pose proof (fence_quiet (bound c0 S) pos x) as Q. destruct (checkpoint_fence _ _ x) as [[u|e] x'];
      destruct (rep_base x x' a L S Q HR) as (L' & HL & HR'); exists L'; (split; [done|]); [|by apply acked_rep].
    destruct HR' as [K1 K2 _]. by split.
  - pose proof (save_quiet (bound c0 S) pos H3 x) as Q. destruct (checkpoint_save _ _ x) as [[u|e] x'];
      destruct (rep_base x x' a L S Q HR) as (L' & HL & HR'); exists L'; (split; [done|]); by apply acked_rep.
  - by exists L.
Qed.

Lemma loop_steps_quiet evs : forall v, quiet_step attempt_rep v (foldl (fun v ev => loop_step f ev v) v evs).
Proof.
  induction evs as [|ev evs IH]; intros v; simpl; [by intros L S HR; exists L|]. intros L S HR.
  destruct (loop_step_quiet ev v L S HR) as (L1 & HL1 & HR1). destruct (IH _ _ _ HR1) as (L2 & HL2 & HR2). exists L2. split; [by etrans|done].
Qed.

Lemma loop_run_quiet v : quiet_step attempt_rep v (loop_run f v).
Proof. intros L S HR. destruct v as [x a]. apply loop_steps_quiet. by apply (rep_same x a). Qed.

(** *** The calls of the stream *)

Lemma beside_quiet {A} (m : X -> A * X) : (forall k x, quiet_step (rep k) x (m x).2) -> forall v, quiet_step attempt_rep v (beside m v).2.
Proof.
  intros Hm [x a] L S HR. unfold beside. simpl. pose proof (held_step (bound c0 S) x (m x).2 (fun k _ => Hm k x)) as Q.
  destruct (m x) as [r x']. by apply (rep_base x).
Qed.

Lemma on_base_at {A} (m : SM X A) v L S r v' : attempt_rep v L S -> on_base f m v = (r, v') ->
  exists x a L1 x', L `prefix_of` L1 /\ attempt_rep (x, a) L1 S /\ m x = (r, x') /\ v' = (x', a).
Proof.
  intros HR. unfold on_base. destruct (loop_run_quiet v L S HR) as (L1 & HL1 & HR1). destruct (loop_run f v) as [x a]. simpl.
  destruct (m x) as [r' x'] eqn:Hm. intros [= <- <-]. by exists x, a, L1, x'.
Qed.

Lemma on_base_quiet {A} (m : SM X A) : (forall k, quiet (rep k) m) -> quiet attempt_rep (on_base f m).
Proof.
  intros Hm v L S HR. destruct (on_base f m v) as [r v'] eqn:Hr. destruct (on_base_at _ _ _ _ _ _ HR Hr) as (x & a & L1 & x' & HL1 & HR1 & Hx & ->).
  pose proof (held_call (bound c0 S) m Hm x) as Q. rewrite Hx in Q. destruct (rep_base x x' a L1 S Q HR1) as (L2 & HL2 & HR2).
  exists L2. split; [by etrans|done].
Qed.

Lemma loop_LogLaws log : (forall k, LogLaws (rep k) prompt log) -> LogLaws attempt_rep prompt (loop_Log f log).
Proof.
  intros Hlog. split.
  - intros v L S from limit maxBytes types r v' HR Hl Ht Hr. simpl in Hr.
    destruct (on_base_at _ _ _ _ _ _ HR Hr) as (x & a & L0 & x' & HL0 & [K1 K2 K3] & Hx & ->).
    destruct (ll_read _ _ _ (Hlog (bound c0 S)) _ _ _ _ _ _ _ _ _ (K1 _ (N.le_refl _)) Hl Ht Hx) as (L1 & L2 & HL1 & HL2 & HR2 & Hpage).
    exists L1, L2. split; [by etrans|]. split; [done|]. split; [|done]. split; [|done|done]. simpl. intros k Hk.
    destruct (ll_read _ _ _ (Hlog k) _ _ _ _ _ _ _ _ _ (K1 k Hk) Hl Ht Hx) as (_ & L3 & _ & _ & HR3 & _).
    by rewrite (cu_unique s handle rep prompt _ _ _ _ _ _ _ _ _ _ HR2 HR3).
  - apply on_base_quiet. intros k. apply (ll_head _ _ _ (Hlog k)).
  - intros v L S r v' HR Hr. destruct (on_base_at _ _ _ _ _ _ HR Hr) as (x & a & L0 & x' & HL0 & HR0 & Hx & ->).
    pose proof HR0 as [K1 _ _]. destruct (ll_rawhead _ _ _ (Hlog (bound c0 S)) _ _ _ _ _ (K1 _ (N.le_refl _)) Hx) as (L1 & HL1 & HR1 & Hge).
    pose proof (held_call (bound c0 S) (lg_RawHead log) (fun k => quiet_rawhead _ _ log (Hlog k)) x) as Q. rewrite Hx in Q.
    destruct (rep_base x x' a L0 S Q HR0) as (L2 & HL2 & HR2). exists L2. split; [by etrans|]. split; [done|]. intros h ->.
    specialize (Hge _ eq_refl).
    pose proof (@fl_sorted _ _ s handle (rep (bound c0 S)) prompt (ef_Scope f) (cu_feed s handle rep prompt _ _ _ _) _ _ _ (K1 _ (N.le_refl _))) as Hs.
    pose proof (log_head_mono _ _ Hs HL0). lia.
Qed.

(** *** Send *)

Lemma timer_quiet d : quiet attempt_rep (@fx_timer _ (attempt_env f) d).
Proof.
  intros v L S HR. cbn. destruct (loop_run_quiet v L S HR) as (L1 & HL1 & HR1). destruct (loop_run f v) as [x a]. simpl.
  destruct (stream_err a); [by exists L1|].
  pose proof (held_call (bound c0 S) (fx_timer d) (fun k => @fl_timer _ _ s handle (rep k) prompt (ef_Scope f) (cu_feed s handle rep prompt _ _ _ k) d) x) as Q.
  destruct (fx_timer d x) as [r x']. destruct (rep_base x x' a L1 S Q HR1) as (L2 & HL2 & HR2). exists L2. split; [by etrans|done].
Qed.

(** Another event handled. *)
Lemma rep_more x a L S env : held (bound c0 (S ++ [env])) x L (S ++ [env]) -> attempt_rep (x, a) L S -> attempt_rep (x, a) L (S ++ [env]).
Proof. intros Hh [K1 K2 K3]. pose proof (bound_app c0 S [env]). split; simpl in *; [done|lia|lia]. Qed.

Lemma handled_once env v L S r v' : attempt_rep v L S -> on_base f (handle env) v = (r, v') ->
  exists L', L `prefix_of` L' /\ attempt_rep v' L' (S ++ match r with Ok _ => [env] | Err _ => [] end).
Proof.
  intros HR Hr. destruct (on_base_at _ _ _ _ _ _ HR Hr) as (x & a & L1 & x' & HL1 & [K1 K2 K3] & Hx & ->).
  set (T := match r with Ok _ => [env] | Err _ => [] end). pose proof (bound_app c0 S T) as Hb.
  destruct (cu_handle s handle rep prompt _ _ _ _ _ _ _ _ _ _ (K1 (bound c0 (S ++ T)) ltac:(lia)) Hx) as (L2 & HL2 & HR2). fold T in HR2.
  exists L2. split; [by etrans|]. split; simpl in *; [|lia|lia]. intros k Hk.
  destruct (cu_handle s handle rep prompt _ _ _ _ _ _ _ _ _ _ (K1 k ltac:(lia)) Hx) as (L3 & _ & HR3). fold T in HR3.
  by rewrite (cu_unique s handle rep prompt _ _ _ _ _ _ _ _ _ _ HR2 HR3).
Qed.

Lemma retry_spec env fuel : forall v L S r v', attempt_rep v L S -> retry_handle f handle env fuel v = (r, v') ->
  exists L', L `prefix_of` L' /\ attempt_rep v' L' (S ++ match r with Ok _ => [env] | Err _ => [] end).
Proof.
  induction fuel as [|fuel IH]; intros v L S r v' HR; cbn [retry_handle].
  { intros [= <- <-]. exists L. rewrite app_nil_r. split; [done|]. destruct v as [x a]. by apply (rep_same x a). }
  unfold bind, attempt. destruct (on_base f (handle env) v) as [[[]|e] v1] eqn:Hh; destruct (handled_once _ _ _ _ _ _ HR Hh) as (L1 & HL1 & HR1).
  - intros [= <- <-]. by exists L1.
  - rewrite app_nil_r in HR1. destruct (timer_quiet (ef_tick f) v1 L1 S HR1) as (L2 & HL2 & HR2).
    destruct (@fx_timer _ (attempt_env f) (ef_tick f) v1) as [[[]|e'] v2]; simpl in HR2.
    + intros Hr. destruct (IH _ _ _ _ _ HR2 Hr) as (L3 & HL3 & HR3). exists L3. split; [by do 2 (etrans; [eassumption|])|done].
    + intros [= <- <-]. rewrite app_nil_r. exists L2. split; [by etrans|done].
Qed.

(** An acknowledgement by the stream of a handled position. *)
Lemma checkpoint_held S pos v L : (pos <= bound c0 S)%N -> attempt_rep v L S ->
  exists L', L `prefix_of` L' /\ attempt_rep (server_Checkpoint (loop_server f s) (ack_of f pos) v).2 L' S.
Proof.
  intros Hp HR. unfold server_Checkpoint. unfold bind at 1, lift. destruct (validateKey _ _ _) as [[]|e]; [|by exists L].
  unfold bind at 1. destruct ((le_Holder (Leases (loop_server f s)) _ _ _ wrap "feed: holder") v) as [rh v1] eqn:Hh.
  assert (exists L1, L `prefix_of` L1 /\ attempt_rep v1 L1 S) as (L1 & HL1 & HR1).
  { pose proof (quiet_wrap attempt_rep _ "feed: holder" (on_base_quiet _ (fun k => @fl_holder _ _ s handle (rep k) prompt (ef_Scope f)
      (cu_feed s handle rep prompt _ _ _ k) (ef_Scope f) (df_Name (ef_Definition f)) (ef_Instance f))) v L S HR) as Q.
    simpl in Hh. by rewrite Hh in Q. }
  destruct rh as [[lease|]|e]; [|by exists L1..]. destruct (negb _); [by exists L1|].
  unfold bind, catch. simpl. destruct (on_base f _ v1) as [rs v2] eqn:Hs.
  destruct (on_base_at _ _ _ _ _ _ HR1 Hs) as (x & a & L2 & x' & HL2 & HR2 & Hx & ->).
  assert (quiet_step (held (bound c0 S)) x x') as Q.
  { apply held_step. intros k Hk. pose proof (@cu_save _ _ s handle rep prompt _ _ _ CL k (definition_Hash (ef_Definition f)) pos ltac:(lia) x) as Q.
    by rewrite Hx in Q. }
  destruct (rep_base x x' a L2 S Q HR2) as (L3 & HL3 & HR3). assert (L `prefix_of` L3) as HL by (by do 2 (etrans; [eassumption|])).
  destruct rs as [[]|e]; [|by exists L3]. unfold observe. simpl.
  destruct (rep_base x' (sv_Observer s (OnCheckpoint pos) x') a L3 S) as (L4 & HL4 & HR4); [|done|exists L4; split; [by etrans|done]].
  apply held_step. intros k _. apply (@fl_observe _ _ s handle (rep k) prompt (ef_Scope f) (cu_feed s handle rep prompt _ _ _ k)).
Qed.

Lemma ack_quiet : quiet attempt_rep (ack f).
Proof.
  intros [x a] L S HR. unfold ack. pose proof (claim_spec a) as Hc. simpl. destruct (claim_window a) as [[pos|] a'], Hc as [Hsame Hpos];
    [|exists L; split; [done|by apply (rep_same x a)]].
  pose proof (ar_pending _ _ _ HR) as Hp. simpl in Hp. rewrite <- (Hpos _ eq_refl) in Hp. apply (rep_same x a a' L S Hsame) in HR.
  by apply checkpoint_held.
Qed.

Lemma Send_spec fuel env v L S r v' : attempt_rep v L S -> Send f handle fuel env v = (r, v') ->
  exists L' taken, L `prefix_of` L' /\ attempt_rep v' L' (S ++ taken)
    /\ match r with Ok _ => taken = [env] | Err _ => taken = [] \/ taken = [env] end.
Proof.
  intros HR. unfold Send. unfold bind at 1. destruct (retry_handle f handle env fuel v) as [[[]|e] v1] eqn:Hh;
    destruct (retry_spec _ _ _ _ _ _ _ HR Hh) as (L1 & HL1 & HR1); [|intros [= <- <-]; exists L1, []; auto].
  unfold bind at 1. destruct v1 as [x a]. simpl. set (a1 := set_window _ _ a).
  assert (attempt_rep (x, a1) L1 (S ++ [env])) as HR2.
  { destruct HR1 as [K1 K2 K3]. split; [done| |done]. simpl. apply bound_le. set_solver. }
  destruct (ef_batch f <=? _)%Z; [|intros [= <- <-]; by exists L1, [env]].
  destruct (quiet_wrap attempt_rep _ "eventfeed: ack" ack_quiet (x, a1) L1 _ HR2) as (L2 & HL2 & HR3).
  destruct ((ack f wrap "eventfeed: ack") (x, a1)) as [ra v2]. intros [= <- <-]. exists L2, [env]. split; [by etrans|]. split; [done|].
  destruct ra; auto.
Qed.

(** The server as the stream of an attempt sees it keeps the feed's contract,
    with the events the handler accepted as what the sink took. *)
Lemma attempt_FeedLaws fuel : @FeedLaws _ (attempt_env f) (loop_server f s) (Send f handle fuel) attempt_rep prompt (ef_Scope f).
Proof.
  pose proof (fun k => @cu_feed _ _ s handle rep prompt _ _ _ CL k) as HF.
  assert (forall x a a', same_window a a' -> quiet_step attempt_rep (x, a) (x, a')) as Hsame.
  { intros x a a' Ha L S HR. exists L. split; [done|]. by apply (rep_same x a). }
  split; cbn.
  - intros v L S [K1 _ _]. apply (@fl_sorted _ _ s handle _ prompt _ (HF (bound c0 S)) _ _ _ (K1 _ (N.le_refl _))).
  - intros v L S r v' HR. unfold bind. destruct (on_base f (sv_Logs s (ef_Scope f)) v) as [ro v1] eqn:Ho.
    assert (exists L', L `prefix_of` L' /\ attempt_rep v1 L' S) as (L1 & HL1 & HR1).
    { pose proof (on_base_quiet _ (fun k => @quiet_open _ _ s handle (rep k) prompt (request f) (HF k)) v L S HR) as Q.
      simpl in Q. by rewrite Ho in Q. }
    destruct ro as [log|e]; intros [= <- <-]; exists L1; (split; [done|]); (split; [done|]); [|done].
    intros lg [= <-]. apply loop_LogLaws. intros k. destruct (on_base_at _ _ _ _ _ _ HR Ho) as (x & a & L2 & x' & _ & [K1 _ _] & Hx & _).
    by apply (@cu_open _ _ s handle rep prompt _ _ _ CL _ k _ _ _ _ _ (K1 _ (N.le_refl _)) Hx).
  - intros. by eapply Send_spec.
  - intros. apply on_base_quiet. intros k. apply (@fl_checkpoint _ _ s handle _ prompt _ (HF k)).
  - intros. apply on_base_quiet. intros k. apply (@fl_renew _ _ s handle _ prompt _ (HF k)).
  - intros y [x a] L S HR. apply (rep_base x); [|done]. apply held_step. intros k _. apply (@fl_observe _ _ s handle _ prompt _ (HF k)).
  - intros wt d Hw. destruct (sv_Waiter s) as [wt0|] eqn:E; [|done]. injection Hw as <-. apply on_base_quiet. intros k.
    by apply (@fl_waiter _ _ s handle _ prompt _ (HF k)).
  - intros j d v Hj. destruct (jitter s) as [j0|] eqn:E; [|done]. injection Hj as <-. apply beside_quiet. intros k x.
    by apply (@fl_jitter _ _ s handle _ prompt _ (HF k)).
  - apply beside_quiet. intros k. apply (@fl_now _ _ s handle _ prompt _ (HF k)).
  - intros v L S HR. by exists L.
  - intros [x a]. by apply Hsame.
  - apply timer_quiet.
  - apply beside_quiet. intros k. apply (@fl_ticks _ _ s handle _ prompt _ (HF k)).
  - intros sc p i owner consumer ttl v L S HR. destruct (loop_run_quiet v L S HR) as (L1 & HL1 & HR1). destruct (loop_run f v) as [x a]. simpl.
    pose proof (held_step (bound c0 S) x (le_Acquire (Leases s) sc p i owner consumer ttl x).2
      (fun k _ => @fl_acquire _ _ s handle _ prompt _ (HF k) sc p i owner consumer ttl x)) as Q.
    destruct (le_Acquire _ _ _ _ _ _ _ x) as [r x']. destruct (rep_base x x' a L1 S Q HR1) as (L2 & HL2 & HR2). exists L2. split; [by etrans|done].
  - intros. apply on_base_quiet. intros k. apply (@fl_release _ _ s handle _ prompt _ (HF k)).
  - intros. apply on_base_quiet. intros k. apply (@fl_holder _ _ s handle _ prompt _ (HF k)).
  - apply beside_quiet. intros k. apply (@fl_clock _ _ s handle _ prompt _ (HF k)).
  - apply beside_quiet. intros k. apply (@fl_seq _ _ s handle _ prompt _ (HF k)).
  - intros v L S HR. by exists L.
  - intros [x a]. by apply Hsame.
Qed.

(** ** Coverage *)

Abbreviation types := (df_Consumes (ef_Definition f)).

(** Every consumed event of the log above [c0], up to the highest position the
    handler has accepted and the cursor can have, is one it has accepted. *)
Record covered (x : X) (L S : list Envelope) : Prop := {
  cv_held : held (bound c0 S) x L S;
  cv_at : advanced c0 (bound c0 S) L;
  cv_all : forall e, e ∈ delivered types c0 (bound c0 S) L -> e ∈ S
}.

Lemma held_sorted n x L S : held n x L S -> positions_sorted L.
Proof. intros Hh. apply (@fl_sorted _ _ s handle _ prompt _ (@cu_feed _ _ s handle rep prompt _ _ _ CL n) _ _ _ (Hh n (N.le_refl _))). Qed.

Lemma covered_grow x x' L L' S : covered x L S -> L `prefix_of` L' -> held (bound c0 S) x' L' S -> covered x' L' S.
Proof.
  intros [K1 K2 K3] HL K1'. split; [done|exact (advanced_grow _ _ _ _ HL K2)|]. intros e. pose proof (held_sorted _ _ _ _ K1') as Hs.
  pose proof (delivered_stable (request f) c0 _ L L' Hs HL K2) as Hd. simpl in Hd. rewrite Hd. apply K3.
Qed.

(** What a stream adds from a resume position within the covered part. *)
Lemma covered_more x L S L' from pos :
  covered x L S -> L `prefix_of` L' -> (from <= bound c0 S)%N -> forall x' S', S' = S ++ delivered types from pos L' ->
  held (bound c0 S') x' L' S' -> covered x' L' S'.
Proof.
  intros [K1 K2 K3] HL Hf x' S' -> Hh. set (T := delivered types from pos L') in *. pose proof (held_sorted _ _ _ _ Hh) as Hs.
  assert (forall e, e ∈ T -> e ∈ L' /\ GlobalPosition e <= pos)%N as HT by (intros e [[[_ ?] _] ?]%list_elem_of_filter; done).
  split; [done| |].
  - destruct (bound_attained c0 (S ++ T)) as [->|(Hlt & e & He & Hp)]; [by left|]. right. split; [done|].
    apply elem_of_app in He as [He|He]; [|exists e; split; [by apply HT|done]].
    destruct (advanced_grow c0 (bound c0 S) L L' HL K2) as [Eq|(_ & e' & He' & Hp')].
    + pose proof (bound_le c0 S e He). lia.
    + exists e'. split; [done|]. pose proof (bound_le c0 S e He). rewrite bound_app in *. lia.
  - intros e [[[Hlo Hhi] Hty] He]%list_elem_of_filter. apply elem_of_app.
    destruct (N.le_gt_cases (GlobalPosition e) (bound c0 S)) as [Hle|Hgt].
    + left. apply K3. pose proof (delivered_stable (request f) c0 _ L L' Hs HL K2) as Hd. simpl in Hd. rewrite <- Hd. by apply list_elem_of_filter.
    + right. apply list_elem_of_filter. split; [|done]. split; [|done]. split; [lia|].
      rewrite bound_app in Hhi. destruct (bound_attained c0 T) as [Eq|(_ & e1 & He1 & Hp1)]; [pose proof (bound_base c0 S); lia|].
      destruct (HT e1 He1) as [_ Hle1]. lia.
Qed.

(** The resume position lies in the covered part. *)
Lemma resumed_covered L S from : @resumed _ (loop_server f s) attempt_rep (request f) L S from -> (from <= bound c0 S)%N.
Proof.
  intros (va & vb & La & found & HR & Hcp & _ & Hle & _). simpl in Hcp.
  destruct (on_base_at _ _ _ _ _ _ HR Hcp) as (x & a & L1 & x' & _ & [K1 _ _] & Hx & _).
  pose proof (@cu_read _ _ s handle rep prompt _ _ _ CL _ _ _ _ _ _ (K1 _ (N.le_refl _)) Hx). lia.
Qed.

Lemma Subscribe_covers script fuel x L S r v : covered x L S ->
  @Subscribe _ (attempt_env f) (loop_server f s) fuel (request f) (Some (Send f handle fuel)) (x, new_attempt script) = (r, v) ->
  exists L' S', L `prefix_of` L' /\ S `prefix_of` S' /\ covered v.1 L' S' /\ attempt_rep v L' S'.
Proof.
  intros HC Hr. pose proof (attempt_FeedLaws fuel) as HF.
  assert (attempt_rep (x, new_attempt script) L S) as HR by (split; [apply HC|apply N.le_0_l..]).
  destruct (@Subscribe_spec _ (attempt_env f) (loop_server f s) (Send f handle fuel) attempt_rep prompt (request f) HF fuel _ L S r v HR Hr)
    as [(L' & HL & HR' & _)|(from & pos & L' & S' & Hres & HR' & [HL _ HS] & _)].
  - exists L', S. repeat (split; [done|]). split; [|done]. by apply (covered_grow x _ L); [| |apply HR'].
  - exists L', S'. split; [done|]. split; [rewrite HS; by apply prefix_app_r|]. split; [|done].
    apply (covered_more x L S L' from pos HC HL (resumed_covered _ _ _ Hres) _ _ HS), HR'.
Qed.

Lemma loop_join_quiet v : quiet_step attempt_rep v (loop_join f v).
Proof.
  intros L S HR. unfold loop_join. destruct v as [x a]. apply (rep_same x a (set_cancelled true a)) in HR; [|done].
  destruct (loop_run_quiet _ L S HR) as (L1 & HL1 & HR1). simpl fst in *. simpl snd in *.
  destruct (loop_steps_quiet [LRunDone; LRunDone; LRunDone] _ _ _ HR1) as (L2 & HL2 & HR2). cbn [foldl] in HR2.
  destruct (loop_step f LRunDone _) as [x' a']. exists L2. split; [by etrans|].
  destruct HR2 as [K1 K2 _]. split; [done|done|apply N.le_0_l].
Qed.

(** The consumer's observer. *)
Hypothesis Hobs : forall n y x, quiet_step (rep n) x (ef_Observer f y x).

(** An attempt keeps what is below the cursor handled. *)
Lemma attempt_covers script fuel x L S r x' : covered x L S -> attempt_Feed f script fuel handle x = (r, x') ->
  exists L' S', L `prefix_of` L' /\ S `prefix_of` S' /\ covered x' L' S'.
Proof.
  intros HC. unfold attempt_Feed. destruct (Subscribe _ _ _ _ _) as [rs v] eqn:Hs.
  destruct (Subscribe_covers _ _ _ _ _ _ _ HC Hs) as (L1 & S1 & HL1 & HS1 & HC1 & HR1).
  destruct rs as [st|err]; [intros [= _ <-]; by exists L1, S1|]. destruct (at_stuck v.2); [intros [= _ <-]; by exists L1, S1|].
  destruct (loop_join_quiet v L1 S1 HR1) as (L2 & HL2 & [K2 _ _]). destruct (loop_join f v) as [x2 a2]. simpl in K2.
  set (x3 := match AsTooLarge err with Some _ => _ | None => _ end).
  assert (quiet_step (held (bound c0 S1)) x2 x3) as Q3.
  { unfold x3. destruct (AsTooLarge err); [apply held_step; intros k _; apply Hobs|intros ? ? ?; eauto]. }
  destruct (Q3 _ _ K2) as (L3 & HL3 & K3).
  pose proof (held_step (bound c0 S1) x3 (fx_ctxErr x3).2 (fun k _ => @fl_ctxErr _ _ s handle _ prompt _ (@cu_feed _ _ s handle rep prompt _ _ _ CL k) x3)) as Q4.
  destruct (fx_ctxErr x3) as [cerr x4]. destruct (Q4 _ _ K3) as (L4 & HL4 & K4). intros [= _ <-]. simpl in K4.
  assert (L1 `prefix_of` L4) as HL14 by (by do 2 (etrans; [eassumption|])).
  exists L4, S1. split; [by etrans|]. split; [done|]. by apply (covered_grow v.1 _ L1).
Qed.

End Attempts.

(** ** Reconnecting *)

Section Reconnecting.
Context {X : Type} {FE : FeedEnv X} {PX : ProjectionEnv X}.
Variable f : EventFeed X.
Variable handle : Envelope -> SM X unit.
Variable rep : N -> X -> list Envelope -> list Envelope -> Prop.
Variable prompt : Prop.

(** The handler as an attempt gets it from the reconnecting feed. *)
Definition counted : Envelope -> SM X unit := fun e w => handle e (put px_delivered true w).

Context {CL : CursorLaws (ef_Server f) counted rep prompt (ef_Scope f) (df_Name (ef_Definition f)) (ef_Instance f)}.
Hypothesis Hobs : forall n y x, quiet_step (rep n) x (ef_Observer f y x).
Hypothesis Hput : forall n b x, quiet_step (rep n) x (put px_delivered b x).
Hypothesis Hctx : forall n x, quiet_step (rep n) x (px_ctxErr x).2.
Hypothesis Htimer : forall n d, quiet (rep n) (px_timer d).
Hypothesis Hrand : forall n d x, quiet_step (rep n) x (px_rand d x).2.
Variable c0 : N.

Definition covers (x x' : X) : Prop := forall L S, covered f rep c0 x L S ->
  exists L' S', L `prefix_of` L' /\ S `prefix_of` S' /\ covered f rep c0 x' L' S'.

#[local] Instance covers_refl : Reflexive covers.
Proof. intros x L S HC. by exists L, S. Qed.

#[local] Instance covers_trans : Transitive covers.
Proof.
  intros x y z Hxy Hyz L S HC. destruct (Hxy _ _ HC) as (L1 & S1 & ? & ? & HC1). destruct (Hyz _ _ HC1) as (L2 & S2 & ? & ? & HC2).
  exists L2, S2. split; [by etrans|]. split; [by etrans|done].
Qed.

Lemma covers_quiet x x' : (forall k, quiet_step (rep k) x x') -> covers x x'.
Proof.
  intros Hq L S HC. destruct (held_step f counted rep prompt (bound c0 S) x x' (fun k _ => Hq k) L S (cv_held _ _ _ _ _ _ HC)) as (L' & HL & HK).
  exists L', S. split; [done|]. split; [done|]. by apply (covered_grow f counted rep prompt c0 x x' L).
Qed.

Lemma attempt_reconnects script fuel min delay x r x' :
  reconnect_attempt (inner f script fuel) min handle delay x = (r, x') -> covers x x'.
Proof.
  unfold reconnect_attempt. pose proof (covers_quiet x _ (fun k => Hctx k x)) as Q1. destruct (px_ctxErr x) as [[e|] x1]; [by intros [= _ <-]|].
  cbn [rf_Open inner ret]. set (x2 := put px_delivered false x1). pose proof (covers_quiet x1 x2 (fun k => Hput k false x1)) as Q2.
  change (fun e w => handle e (put px_delivered true w)) with counted. destruct (attempt_Feed f script fuel counted x2) as [ra x3] eqn:HA.
  assert (covers x x3) as Q.
  { etrans; [exact Q1|]. etrans; [exact Q2|]. intros L S HC. by apply (attempt_covers f counted rep prompt c0 Hobs _ _ _ _ _ _ _ HC HA). }
  pose proof (covers_quiet x3 _ (fun k => Hctx k x3)) as Q4.
  destruct ra as [[[]|]|e]; [|by intros [= _ <-]|]; cbv zeta; destruct (px_ctxErr x3) as [[e'|] x4]; intros [= _ <-]; by etrans.
Qed.

(** The whole feed, over any number of reconnects. *)
Lemma Feed_covers script fuel n x r x' : event_Feed f script fuel n handle x = (r, x') -> covers x x'.
Proof.
  unfold event_Feed, reconnecting_Feed. destruct (reconnect_bounds _) as [min max]. generalize min at 2 as delay.
  revert x. induction n as [|n IH]; intros x delay; simpl; [by intros [= _ <-]|]. unfold bind at 1.
  destruct (reconnect_attempt _ _ _ _ x) as [ra x1] eqn:HA. pose proof (attempt_reconnects _ _ _ _ _ _ _ HA) as Q1.
  destruct ra as [[d|]|e]; [|by intros [= _ <-]..]. unfold bind at 1.
  assert (covers x1 (backoff (inner f script fuel) d x1).2) as Q2.
  { apply covers_quiet. intros k. unfold backoff. simpl. destruct (d <=? 0)%Z; [intros L S HR; by exists L|apply Hrand]. }
  destruct (backoff _ d x1) as [b x2]. unfold bind. pose proof (covers_quiet x2 _ (fun k => Htimer k b x2)) as Q3.
  destruct (px_timer b x2) as [[[]|e] x3]; simpl in *; [|intros [= _ <-]; by do 2 (etrans; [eassumption|])].
  intros Hr. apply IH in Hr. by do 3 (etrans; [eassumption|]).
Qed.
End Reconnecting.
