(* ===== verification/EventfeedSqlite.v ===== *)
(** * The feed consumer over SQLite

    The consumer of Eventfeed.v on the server and adapters of FeedSqlite.v: the
    adapters discharge the cursor contract of EventfeedCorrect.v, and the
    consumer is at-least-once. *)
From S2P Require Import Prelude Sha256 Es Hash Chain Anchor Timestamp Effect Store Sql Sqlite SqliteCorrect SqliteTheorems HexUuid SqliteClaims.
From S2P Require Import Delivery Projection Definitions FeedPorts Feed FeedConfig FeedContract FeedCorrect SqliteFeed SqliteFeedCorrect FeedSqlite.
From S2P Require Import SqliteLeases FeedHealthy FeedClaims Eventfeed EventfeedCorrect.

Definition set_delivered (b : bool) (w : fworld) : fworld :=
  MkFworld (fw_world w) (fw_sent w) (fw_signals w) (fw_others w) (fw_ticks w) (fw_until w) (fw_cancelled w) (fw_seq w) b.

Section Consumer.
Context {UL : UuidLib} {EV : Env}.
Variable cap : Z.

(** The caller's side of the loops: its context, and a jitter from the clock. *)
#[global] Instance sqlite_projection_env : ProjectionEnv fworld := {
  px_Now := fx_Now;
  px_ctxErr := fx_ctxErr;
  px_timer d w := match ctx_err w with Some e => (Err e, w) | None => (Ok tt, tick_world (others_step w)) end;
  px_rand d w := (Z.of_nat (w_tick (fw_world w)) mod d, tick_world w)%Z;
  px_delivered := MkLens fw_delivered set_delivered
}.

Variables scope proj inst : string.

(** The stored cursor is at most [n]. *)
Definition cursor_le (n : N) (m : gmap (string * string * string) FeedCheckpointRow) : Prop :=
  (start_of (m !! (scope, proj, inst)) <= n)%N.

(** An action of another process that does not move the cursor forward. *)
Definition never_advances (m : M DB unit) : Prop := forall n, well_behaved cap (cursor_le n) m.

Abbreviation bounded n := (feed_rep cap (cursor_le n)).

Lemma keep_rep n w w' L S :
  fw_world w' = fw_world w -> fw_sent w' = fw_sent w -> fw_others w' = fw_others w -> bounded n w L S -> bounded n w' L S.
Proof. intros E1 E2 E3 [R1 R2 R3 R4]. split; [by rewrite E1|by rewrite E1|by rewrite E2|by rewrite E3]. Qed.

Lemma Save_feed_tables s p i d pos x : let x' := (checkpoint_Save s p i d pos x).2 in
  d_events (w_db x') = d_events (w_db x) /\ d_sequence (w_db x') = d_sequence (w_db x) /\ (w_tick x <= w_tick x')%nat.
Proof.
  unfold checkpoint_Save, bind, Now, catch, lift, throw. destruct (bind_uint64 pos) as [v|e]; simpl; [|repeat split; lia].
  unfold exec. cbn. destruct (fault _); cbn; [repeat split; lia|]. unfold upsert_checkpoint. cbn. repeat split; lia.
Qed.

Lemma Save_bounded n d pos : (pos <= n)%N -> quiet (bounded n) (on_db (checkpoint_Save scope proj inst d pos)).
Proof.
  intros Hle w L S HR. destruct (others_step_rep _ _ _ _ _ HR) as (L' & HL & [R1 R2 R3 R4]). exists L'. split; [done|].
  unfold on_db. pose proof (Save_feed_tables scope proj inst d pos (fw_world (others_step w))) as (H1 & H2 & H3).
  destruct (checkpoint_Save _ _ _ _ _ _) as [r x] eqn:Hs. simpl in *. apply Save_effect in Hs as He. split; simpl; [|..|done|done].
  - destruct x as [db t]. by apply (reach_other cap (fw_world (others_step w)) L' db t).
  - unfold cursor_le in *. unfold cursor in He. destruct r as [u|e]; [|by rewrite He].
    destruct He as (He & _). unfold start_of in *. rewrite He. lia.
Qed.

Hypothesis Hclk : clock_ok.

Lemma sqlite_CursorLaws s accept :
  assembled cap s -> CursorLaws s (counted (collect accept)) (fun n => bounded n) True scope proj inst.
Proof.
  intros Has.
  assert (forall n env x L S r x', bounded n x L S -> counted (collect accept) env x = (r, x') ->
    exists L', L `prefix_of` L' /\ bounded n x' L' (S ++ match r with Ok _ => [env] | Err _ => [] end)) as Hh.
  { intros n env x L S r x' HR. unfold counted, collect. cbn [put px_delivered sqlite_projection_env]. destruct (accept env _); intros [= <- <-];
      exists L; (split; [done|]); [rewrite app_nil_r; by apply (keep_rep n x)|]. destruct HR as [R1 R2 R3 R4]. split; simpl; [done|done|by rewrite R3|done]. }
  split.
  - intros n. apply (FeedLaws_sink s (collect accept)); [by apply sqlite_FeedLaws|]. intros env w L S r w' HR Hr.
    destruct (Hh n env w L S r w' HR Hr) as (L' & HL & HR'). eexists L', _. split; [done|]. split; [exact HR'|]. destruct r; auto.
  - intros n m x L S log x' _. rewrite (as_Logs _ _ Has). intros [= <- _]. by apply sqlite_LogLaws.
  - intros n m x L L' S S' [R1 _ _ _] [R1' _ _ _].
    eapply log_inv_unique; [apply (reachable_inv _ _ _ Hclk R1)|apply (reachable_inv _ _ _ Hclk R1')].
  - exact Hh.
  - intros n d pos Hle. rewrite (as_Checkpoints _ _ Has). by apply Save_bounded.
  - intros n x L S found x' HR. rewrite (as_Checkpoints _ _ Has). cbn. unfold on_db.
    destruct (others_step_rep cap _ _ _ _ HR) as (L' & _ & [_ Hst _ _]).
    destruct (checkpoint_Checkpoint _ _ _ _) as [r y] eqn:Hc. intros [= -> _]. apply Checkpoint_position in Hc. rewrite Hc. exact Hst.
Qed.

End Consumer.

(** The consumer's cursor. *)
Definition stored_cursor {X} (f : EventFeed X) (w : fworld) : N :=
  cursor (w_db (fw_world w)) (ef_Scope f) (df_Name (ef_Definition f)) (ef_Instance f).

(** C4: the consumer is at-least-once.  Over any number of attempts, with appends
    of other processes at every port call, any interleaving of the stream, the
    ack loop and the lease renewer, handlers that refuse events, database
    faults and whenever the caller's context ends, every consumed event between
    the cursor the consumer started from and the cursor it leaves has been
    accepted by the handler. *)
Theorem event_feed_at_least_once `{UL : UuidLib} `{EV : Env} cap (f : EventFeed fworld) accept script fuel n w L r w' :
  clock_ok -> assembled cap (ef_Server f) -> ef_Observer f = record_signal ->
  reachable cap (fw_world w) L -> fw_sent w = [] ->
  Forall (never_advances cap (ef_Scope f) (df_Name (ef_Definition f)) (ef_Instance f)) (fw_others w) ->
  event_Feed f script fuel n (collect accept) w = (r, w') ->
  exists L', L `prefix_of` L' /\ reachable cap (fw_world w') L'
    /\ forall e, e ∈ L' -> TypeURL e ∈ df_Consumes (ef_Definition f) ->
         (stored_cursor f w < GlobalPosition e <= stored_cursor f w')%N -> e ∈ fw_sent w'.
Proof.
  intros Hclk Has Hobs Hre Hs Ho Hr. set (c0 := stored_cursor f w). pose proof (sqlite_CursorLaws cap (ef_Scope f) (df_Name (ef_Definition f)) (ef_Instance f) Hclk (ef_Server f) accept Has) as HCL.
  assert (covers f (fun k => feed_rep cap (cursor_le (ef_Scope f) (df_Name (ef_Definition f)) (ef_Instance f) k)) c0 w w') as HC.
  { apply (Feed_covers f (collect accept) _ True) with (script := script) (fuel := fuel) (n := n) (r := r); [|..|done].
    - intros k y x L0 S HR. exists L0. split; [done|]. rewrite Hobs. by apply (keep_rep cap _ _ _ k x).
    - intros k b x L0 S HR. exists L0. split; [done|]. by apply (keep_rep cap _ _ _ k x).
    - intros k x L0 S HR. by exists L0.
    - intros k d x L0 S HR. cbn. destruct (ctx_err x); [by exists L0|].
      destruct (others_step_rep _ _ _ _ _ HR) as (L1 & HL1 & HR1). exists L1. split; [done|]. by apply tick_world_rep.
    - intros k d x L0 S HR. exists L0. split; [done|]. by apply tick_world_rep. }
  destruct (HC L []) as (L' & S' & HL & _ & [K1 _ K3]).
  { split; [|by left|intros e; by rewrite delivered_nil]. intros k Hk. split; [done| |done|].
    - exact Hk.
    - eapply Forall_impl; [exact Ho|]. intros m Hm. apply Hm. }
  exists L'. destruct (K1 _ (N.le_refl _)) as [R1 R2 R3 _]. split; [done|]. split; [done|]. intros e He Hty [Hlo Hhi]. rewrite R3. apply K3.
  apply list_elem_of_filter. split; [|done]. split; [|done]. split; [done|]. exact (N.le_trans _ _ _ Hhi R2).
Qed.

(** ** A run *)

Definition demo_consumer : EventFeed fworld :=
  MkEventFeed demo_server (MkDefinition "totals" ["counter.v1.Incremented"%string]) "t1" "" "worker-a" record_signal
    "0011223344556677" 9 (250 * Millisecond).

(** Before every port call the ack loop serves a tick, then looks at its context. *)
Definition ticking (_ : fworld) : list (list loop_event) := repeat [LTick; LCtxDone] 40.

(** Two events are stored, a third is appended meanwhile, and the caller's
    context ends at tick 40. *)
Definition ending : fworld :=
  MkFworld world1 [] [] [let! _ := @Append HexUuid calm_env 0 (sample_append 2 [102]%nat []) in ret tt] [1; 0; 2]%nat (Some 40%nat) false 0 false.

Definition consumed : res (option unit) * fworld :=
  @event_Feed fworld (@sqlite_feed_env calm_env) (@sqlite_projection_env calm_env) demo_consumer ticking 4 2 (collect accept_all) ending.

#[local] Opaque world1 envs1.

(** The consumer ends with the context, three events handled and the cursor at
    the third. *)
Lemma event_feed_at_least_once_witness :
  fst consumed = Err (Sentinel Canceled) /\ map GlobalPosition (fw_sent consumed.2) = [1; 2; 3]%N /\ stored_cursor demo_consumer consumed.2 = 3%N
  /\ exists L', envs1 `prefix_of` L'
       /\ forall e, e ∈ L' -> TypeURL e ∈ ["counter.v1.Incremented"%string] -> (0 < GlobalPosition e <= 3)%N -> e ∈ fw_sent consumed.2.
Proof.
  assert (fst consumed = Err (Sentinel Canceled)) as H1 by (by vm_compute).
  assert (map GlobalPosition (fw_sent consumed.2) = [1; 2; 3]%N) as H2 by (by vm_compute).
  assert (stored_cursor demo_consumer consumed.2 = 3%N) as H3 by (by vm_compute).
  assert (stored_cursor demo_consumer ending = 0%N) as H0 by (by vm_compute).
  split; [exact H1|]. split; [exact H2|]. split; [exact H3|].
  destruct (@event_feed_at_least_once HexUuid calm_env 0 demo_consumer accept_all ticking 4 2 ending envs1 (fst consumed) (snd consumed)
    calm_clock_ok demo_assembled eq_refl reach1 eq_refl) as (L' & HL & _ & Hall).
  - constructor; [|constructor]. intros k. apply (@append_well_behaved HexUuid calm_env 0), sample_occurred.
  - exact (surjective_pairing consumed).
  - exists L'. split; [exact HL|]. rewrite H0, H3 in Hall. exact Hall.
Defined.
