(* ===== verification/EsVerify.v ===== *)
(** * The audit command (src/cmd/es-verify/main.go)

    Exit codes and output of es-verify over either store: flag parsing (the
    flag package's FlagSet.Parse and strconv.ParseUint as the command uses
    them), one stream, every stream, and anchors.  Output is a list of
    structured lines.  The store is live: every page of every stream is read in
    the world the calls before it have left. *)
From S2P Require Import Prelude Sha256 Es Hash Chain Anchor Timestamp Effect Store Sql Sqlite SqliteCorrect SqliteTheorems HexUuid SqliteClaims.
From S2P Require Import SqliteFeed SqliteFeedCorrect FeedContract FeedSqlite SqliteLeases FeedHealthy FeedClaims SqliteAnchors.

Definition exitIntact : Z := 0.
Definition exitBroken : Z := 1.
Definition exitUsage : Z := 2.

(** ** strconv *)

Definition ParseBool (s : string) : option bool :=
  if bool_decide (s ∈ ["1"; "t"; "T"; "TRUE"; "true"; "True"]%string) then Some true
  else if bool_decide (s ∈ ["0"; "f"; "F"; "FALSE"; "false"; "False"]%string) then Some false
  else None.

Definition lower (c : ascii) : ascii := Ascii.ascii_of_N (N.lor (Ascii.N_of_ascii c) 32).

Definition digit_value (c : ascii) : option N :=
  let n := Ascii.N_of_ascii c in let l := Ascii.N_of_ascii (lower c) in
  if (48 <=? n)%N && (n <=? 57)%N then Some (n - 48)%N
  else if (97 <=? l)%N && (l <=? 122)%N then Some (l - 97 + 10)%N else None.

Definition max_uint64 : N := 18446744073709551615.

(** The digit loop at base [base]; an underscore is skipped. *)
Fixpoint uint_digits (base : N) (s : string) (n : N) : option N :=
  match s with
  | EmptyString => Some n
  | String c s' =>
      if bool_decide (c = "_"%char) then uint_digits base s' n else
      match digit_value c with
      | None => None
      | Some d =>
          if (base <=? d)%N then None else
          let n := (n * base + d)%N in
          if (max_uint64 <? n)%N then None else uint_digits base s' n
      end
  end.

(** underscoreOK: an underscore stands between digits, or after the prefix. *)
Fixpoint underscores_ok (hex digit under : bool) (s : string) : bool :=
  match s with
  | EmptyString => negb under
  | String c s' =>
      let n := Ascii.N_of_ascii c in let l := Ascii.N_of_ascii (lower c) in
      if ((48 <=? n)%N && (n <=? 57)%N) || (hex && (97 <=? l)%N && (l <=? 102)%N) then underscores_ok hex true false s'
      else if bool_decide (c = "_"%char) then digit && underscores_ok hex false true s'
      else negb under && underscores_ok hex false false s'
  end.

Fixpoint has_underscore (s : string) : bool :=
  match s with EmptyString => false | String c s' => bool_decide (c = "_"%char) || has_underscore s' end.

(** ParseUint(s, 0, 64). *)
Definition ParseUint (s : string) : option N :=
  match s with
  | EmptyString => None
  | String c0 rest =>
      let '(base, digits, prefixed) :=
        if bool_decide (c0 = "0"%char) then
          match rest with
          | String c1 (String _ _ as body) =>
              if bool_decide (lower c1 = "b"%char) then (2%N, body, true)
              else if bool_decide (lower c1 = "o"%char) then (8%N, body, true)
              else if bool_decide (lower c1 = "x"%char) then (16%N, body, true)
              else (8%N, rest, false)
          | _ => (8%N, rest, false)
          end
        else (10%N, s, false) in
      match uint_digits base digits 0 with
      | None => None
      | Some n =>
          if has_underscore s && negb (if prefixed : bool then underscores_ok (base =? 16)%N true false digits else underscores_ok false false false s)
          then None else Some n
      end
  end.

(** ** flag *)

Inductive flag_kind := BoolFlag | Uint64Flag | StringFlag.

Definition flag_valid (k : flag_kind) (value : string) : bool :=
  match k with
  | BoolFlag => bool_decide (is_Some (ParseBool value))
  | Uint64Flag => bool_decide (is_Some (ParseUint value))
  | StringFlag => true
  end.

(** name=value, split at the first '=' after the first character. *)
Fixpoint cut_value (s : string) : string * option string :=
  match s with
  | EmptyString => (EmptyString, None)
  | String c s' =>
      if bool_decide (c = "="%char) then (EmptyString, Some s')
      else let '(n, v) := cut_value s' in (String c n, v)
  end.

(** A flag argument: its name and value. *)
Inductive flag_arg := NotFlag | Terminator | BadFlag | FlagArg (name : string) (value : option string).

Definition flag_name (name : string) : flag_arg :=
  match name with
  | EmptyString => BadFlag
  | String c s' =>
      if bool_decide (c = "-"%char) || bool_decide (c = "="%char) then BadFlag
      else let '(n, v) := cut_value s' in FlagArg (String c n) v
  end.

Definition classify (arg : string) : flag_arg :=
  match arg with
  | String d (String c s' as rest) =>
      if negb (bool_decide (d = "-"%char)) then NotFlag
      else if bool_decide (c = "-"%char) then
        if bool_decide (s' = EmptyString) then Terminator else flag_name s'
      else flag_name rest
  | _ => NotFlag
  end.

(** FlagSet.Parse: the values set, in order; [None] is an error. *)
Fixpoint flag_Parse (kinds : list (string * flag_kind)) (args : list string) : option (list (string * string)) :=
  match args with
  | [] => Some []
  | arg :: args1 =>
      match classify arg with
      | NotFlag | Terminator => Some []
      | BadFlag => None
      | FlagArg name value =>
          match list_find (fun k => k.1 = name) kinds with
          | None => None
          | Some (_, (_, kind)) =>
              match kind, value with
              | BoolFlag, None => cons (name, "true"%string) <$> flag_Parse kinds args1
              | _, Some v => if flag_valid kind v then cons (name, v) <$> flag_Parse kinds args1 else None
              | _, None =>
                  match args1 with
                  | [] => None
                  | v :: args2 => if flag_valid kind v then cons (name, v) <$> flag_Parse kinds args2 else None
                  end
              end
          end
      end
  end.

(** The last value a flag was set to. *)
Definition flag_value (name : string) (set : list (string * string)) : option string :=
  snd <$> last (filter (fun nv => nv.1 = name) set).

(** ** Verification of a live store *)

(** es.VerifyStreamWith (src/es/verify.go) with the world threaded through its
    reads; [VerifyStreamWith] of [Chain] is the case of a store that stands
    still ([VerifyStreamIn_still]). *)
Section Live.
Context {W : Type}.
Variable ReadStream : StreamID -> N -> N -> SM W (list Envelope).

Fixpoint verify_loop_in (fuel : nat) (sid : StreamID) (page : nat) (from : N) (c : ChainChecker) (w : W)
  : option (ChainChecker * option error * W) :=
  match fuel with
  | O => None
  | S fuel' =>
      let '(rd, w) := ReadStream sid from (u64 (from + N.of_nat page)) w in
      match rd with
      | Err err => if Is err ErrStreamNotFound then Some (c, None, w) else Some (c, Some err, w)
      | Ok envs =>
          match Next_all c envs with
          | (c', Some err) => Some (c', Some err, w)
          | (c', None) =>
              if (length envs <? page)%nat then Some (c', None, w)
              else verify_loop_in fuel' sid page (default 0%N (Version <$> last envs)) c' w
          end
      end
  end.

(** The report and the error when the loop has ended. *)
Definition concluded (opts : VerifyOptions) (r : ChainChecker * option error) : ChainReport * option error :=
  match r with
  | (c, Some err) => (Report c, Some err)
  | (c, None) =>
      let rep := Report c in
      if vo_Strict opts && (0 <? rep_Head rep)%N && negb (rep_ChainedFrom rep =? 1)%N
      then
        let err := Errorf "strict mode requires 1" (Sentinel ErrChainBroken) in
        (MkChainReport (rep_StreamID rep) (rep_ChainedFrom rep) (rep_Head rep) (rep_HeadHash rep) 1 (Some err), Some err)
      else (rep, None)
  end.

Definition VerifyStreamIn (fuel : nat) (sid : StreamID) (opts : VerifyOptions) (w : W)
  : option (ChainReport * option error * W) :=
  match Validate sid with
  | Err err => Some (MkChainReport sid 0 0 None 0 None, Some err, w)
  | Ok _ =>
      let c0 := NewChainChecker sid in
      let c := MkChainChecker (vo_ChainedSince opts) (cc_sid c0) (cc_last c0) (cc_rep c0) in
      '(r, w) ← verify_loop_in fuel sid (verify_page opts) 0 c w;
      Some (concluded opts r, w)
  end.

(** While [still] worlds answer every read as [rs] does and stay so, the live
    verification is the one of [Chain]. *)
Variable still : W -> Prop.
Variable rs : StreamID -> N -> N -> res (list Envelope).
Hypothesis Hstill : forall w sid from to, still w -> exists w', ReadStream sid from to w = (rs sid from to, w') /\ still w'.

Lemma verify_loop_still fuel sid page : forall from c w r,
  still w -> verify_loop rs fuel sid page from c = Some r ->
  exists w', verify_loop_in fuel sid page from c w = Some (r, w') /\ still w'.
Proof.
  induction fuel as [|fuel IH]; intros from c w r Hw; [done|]. simpl.
  destruct (Hstill w sid from (u64 (from + N.of_nat page)) Hw) as (w' & -> & Hw').
  destruct (rs _ _ _) as [envs|err].
  - destruct (Next_all c envs) as [c' [err|]]; [intros [= <-]; eauto|].
    destruct (length envs <? page)%nat; [intros [= <-]; eauto|by apply IH].
  - destruct (Is err ErrStreamNotFound); intros [= <-]; eauto.
Qed.

Lemma VerifyStreamIn_still fuel sid opts w r :
  still w -> VerifyStreamWith rs fuel sid opts = Some r -> exists w', VerifyStreamIn fuel sid opts w = Some (r, w') /\ still w'.
Proof.
  intros Hw. unfold VerifyStreamWith, VerifyStreamIn. destruct (Validate sid) as [u|err]; [|intros [= <-]; eauto].
  cbv zeta. destruct (verify_loop rs _ _ _ _ _) as [x|] eqn:HL; [|done].
  destruct (verify_loop_still _ _ _ _ _ w _ Hw HL) as (w' & -> & Hw'). intros HR. exists w'. split; [|done]. simpl.
  revert HR. unfold concluded. destruct x as [c' [err|]]; [by intros [= <-]|].
  destruct (_ && _ && _); by intros [= <-].
Qed.
End Live.

(** ** The command *)

(** What is printed, on either stream. *)
Inductive out_line :=
| Usage
| Complaint (context : string) (err : error)
| Broken (label : string) (at_version : N) (err : error)
| Verified (label : string) (head chained_from : N) (head_hash : option (list byte))
| StreamsChecked (n : nat)
| AnchorLine (a : Anchor)
| Mismatch (err : error)
| AnchorMatches (a : Anchor).

Section Command.
Context {W : Type}.

(** The backend: an Anchorer, a store per workspace, ... *)
Record backend := MkBackend {
  bk_Anchor : N -> SM W Anchor;
  bk_ListAnchors : SM W (list Anchor);
  bk_CheckAnchor : Anchor -> SM W unit;
  bk_ListStreams : SM W (list StreamRef);
  bk_scope : string -> StreamID -> N -> N -> SM W (list Envelope);     (** ReadStream of scope(ws) *)
  bk_chainedSince : SM W time;
  bk_multiWS : bool
}.

Definition outcome : Type := Z * list out_line * W.

Variable b : backend.

Definition verifyOne (fuel : nat) (ws : string) (sid : StreamID) (opts : VerifyOptions) (w : W) : option outcome :=
  let label := if bool_decide (ws = EmptyString) then Canonical sid else (ws ++ " " ++ Canonical sid)%string in
  match VerifyStreamIn (bk_scope b ws) fuel sid opts w with
  | None => None
  | Some (rep, Some err, w) =>
      if Is err ErrChainBroken then Some (exitBroken, [Broken label (rep_BrokenAt rep) err], w)
      else Some (exitUsage, [Complaint label err], w)
  | Some (rep, None, w) => Some (exitIntact, [Verified label (rep_Head rep) (rep_ChainedFrom rep) (rep_HeadHash rep)], w)
  end.

Definition cmdStream (fuel : nat) (args : list string) (w : W) : option outcome :=
  let target := match args with
                | [ws; canonical] => if bk_multiWS b then Some (ws, canonical) else Some (EmptyString, canonical)
                | [] => None
                | _ => if bk_multiWS b then None else Some (EmptyString, default EmptyString (last args))
                end in
  match target with
  | None => Some (exitUsage, [Usage], w)
  | Some (ws, canonical) =>
      match ParseCanonical canonical with
      | Err err => Some (exitUsage, [Complaint EmptyString err], w)
      | Ok sid =>
          match bk_chainedSince b w with
          | (Err err, w) => Some (exitUsage, [Complaint EmptyString err], w)
          | (Ok since, w) =>
              verifyOne fuel ws sid (MkVerifyOptions since false 0) w
          end
      end
  end.

(** The loop over the streams; [code] is the last that was not intact. *)
Fixpoint verify_each (fuel : nat) (opts : VerifyOptions) (refs : list StreamRef) (code : Z) (w : W) : option outcome :=
  match refs with
  | [] => Some (code, [], w)
  | ref :: refs' =>
      '(c, lines, w) ← verifyOne fuel (sr_Workspace ref) (sr_StreamID ref) opts w;
      '(code', lines', w) ← verify_each fuel opts refs' (if negb (c =? exitIntact)%Z then c else code) w;
      Some (code', lines ++ lines', w)
  end.

Definition all_flags : list (string * flag_kind) := [("strict"%string, BoolFlag)].

Definition cmdAll (fuel : nat) (args : list string) (w : W) : option outcome :=
  match flag_Parse all_flags args with
  | None => Some (exitUsage, [], w)
  | Some set =>
      let strict := default false (flag_value "strict" set ≫= ParseBool) in
      match bk_chainedSince b w with
      | (Err err, w) => Some (exitUsage, [Complaint EmptyString err], w)
      | (Ok since, w) =>
          match bk_ListStreams b w with
          | (Err err, w) => Some (exitUsage, [Complaint "list streams" err], w)
          | (Ok refs, w) =>
              '(code, lines, w) ← verify_each fuel (MkVerifyOptions since strict 0) refs exitIntact w;
              Some (code, lines ++ [StreamsChecked (length refs)], w)
          end
      end
  end.

Definition anchor_flags : list (string * flag_kind) := [("upto"%string, Uint64Flag); ("check"%string, StringFlag)].

(** os.ReadFile and json.Unmarshal of an exported anchor. *)
Variable ReadFile : string -> res (list byte).
Variable Unmarshal : list byte -> res Anchor.

Definition check_exported (path : string) (w : W) : outcome :=
  match ReadFile path with
  | Err err => (exitUsage, [Complaint EmptyString err], w)
  | Ok raw =>
      match Unmarshal raw with
      | Err err => (exitUsage, [Complaint "parse anchor" err], w)
      | Ok a =>
          match bk_CheckAnchor b a w with
          | (Err err, w) =>
              if Is err ErrAnchorMismatch then (exitBroken, [Mismatch err], w)
              else (exitUsage, [Complaint EmptyString err], w)
          | (Ok _, w) => (exitIntact, [AnchorMatches a], w)
          end
      end
  end.

Definition cmdAnchor (args : list string) (w : W) : outcome :=
  if bool_decide (head args = Some "list"%string) then
    match bk_ListAnchors b w with
    | (Err err, w) => (exitUsage, [Complaint EmptyString err], w)
    | (Ok anchors, w) => (exitIntact, map AnchorLine anchors, w)
    end
  else
    match flag_Parse anchor_flags args with
    | None => (exitUsage, [], w)
    | Some set =>
        let upto := default 0%N (flag_value "upto" set ≫= ParseUint) in
        let check := default EmptyString (flag_value "check" set) in
        if negb (bool_decide (check = EmptyString)) then check_exported check w
        else
          match bk_Anchor b upto w with
          | (Err err, w) => (exitUsage, [Complaint "anchor" err], w)
          | (Ok a, w) => (exitIntact, [AnchorLine a], w)
          end
    end.

(** run after the backend is open. *)
Definition run_with (fuel : nat) (args : list string) (w : W) : option outcome :=
  match args with
  | "stream"%string :: args' => cmdStream fuel args' w
  | "all"%string :: args' => cmdAll fuel args' w
  | "anchor"%string :: args' => Some (cmdAnchor args' w)
  | _ => Some (exitUsage, [Usage], w)
  end.
End Command.
Arguments backend : clear implicits.

(** openBackend: the two Opens are given; run reports a failure to open. *)
Definition openBackend {B} (Getenv : string -> string) (open_postgres open_sqlite : string -> res B) : res B :=
  let kind := if bool_decide (Getenv "BACKEND" = EmptyString) then "postgres"%string else Getenv "BACKEND" in
  if bool_decide (kind = "postgres"%string) then
    let dsn := Getenv "PG_DSN" in
    if bool_decide (dsn = EmptyString) then Err (ErrorsNew "PG_DSN is required for BACKEND=postgres")
    else match open_postgres dsn with Err e => Err (Errorf "open postgres" e) | Ok x => Ok x end
  else if bool_decide (kind = "sqlite"%string) then
    let dsn := if bool_decide (Getenv "SQLITE_DSN" = EmptyString) then "file:eslite.db"%string else Getenv "SQLITE_DSN" in
    match open_sqlite dsn with Err e => Err (Errorf "open sqlite" e) | Ok x => Ok x end
  else Err (ErrorsNew "unknown BACKEND").

Definition run {W} (open : res (backend W)) (ReadFile : string -> res (list byte)) (Unmarshal : list byte -> res Anchor)
    (fuel : nat) (args : list string) (w : W) : option (outcome (W := W)) :=
  match args with
  | [] => Some (exitUsage, [Usage], w)
  | _ =>
      match open with
      | Err err => Some (exitUsage, [Complaint EmptyString err], w)
      | Ok b => run_with b ReadFile Unmarshal fuel args w
      end
  end.

(** The SQLite backend: one scope. *)
Definition sqlite_backend `{UuidLib} `{Env} : backend (world DB) := {|
  bk_Anchor := store_Anchor;
  bk_ListAnchors := ListAnchors;
  bk_CheckAnchor := CheckAnchor;
  bk_ListStreams := ListStreams;
  bk_scope := fun _ => ReadStream;
  bk_chainedSince := ChainedSince;
  bk_multiWS := false |}.

(** ** What the exit status says *)

Section Status.
Context {W : Type} (b : backend W).

(** The verdicts on the listed streams, each verified in the world the ones
    before it have left. *)
Fixpoint stream_verdicts (fuel : nat) (opts : VerifyOptions) (refs : list StreamRef) (w : W)
  : option (list (ChainReport * option error) * W) :=
  match refs with
  | [] => Some ([], w)
  | ref :: refs' =>
      '(v, w) ← VerifyStreamIn (bk_scope b (sr_Workspace ref)) fuel (sr_StreamID ref) opts w;
      '(vs, w) ← stream_verdicts fuel opts refs' w;
      Some (v :: vs, w)
  end.

Definition passes (v : ChainReport * option error) : Prop := v.2 = None.

Definition is_broken (v : ChainReport * option error) : Prop := exists err, v.2 = Some err /\ Is err ErrChainBroken = true.

Lemma verifyOne_code fuel opts w ref c lines w' :
  verifyOne b fuel (sr_Workspace ref) (sr_StreamID ref) opts w = Some (c, lines, w') ->
  exists v, VerifyStreamIn (bk_scope b (sr_Workspace ref)) fuel (sr_StreamID ref) opts w = Some (v, w')
    /\ (c = exitIntact /\ passes v \/ c = exitBroken /\ is_broken v \/ c = exitUsage /\ ~ passes v /\ ~ is_broken v).
Proof.
  unfold verifyOne, passes, is_broken. destruct (VerifyStreamIn _ _ _ _ _) as [[[rep [err|]] w1]|]; [|intros [= <- _ <-]; eauto|done].
  destruct (Is err ErrChainBroken) eqn:E; intros [= <- _ <-]; (eexists; split; [reflexivity|]); [right; left; eauto|].
  right; right. split; [done|]. split; [done|]. intros (? & [= <-] & ?). congruence.
Qed.

Lemma verify_each_code fuel opts refs : forall w code0 code lines w',
  verify_each b fuel opts refs code0 w = Some (code, lines, w') ->
  exists vs, stream_verdicts fuel opts refs w = Some (vs, w')
    /\ (code = exitIntact <-> code0 = exitIntact /\ Forall passes vs)
    /\ (code = exitBroken -> code0 = exitBroken \/ Exists is_broken vs).
Proof.
  induction refs as [|ref refs IH]; intros w code0 code lines w'; simpl.
  { intros [= <- _ <-]. exists []. split; [done|]. split; [|by left]. split; [by split|by intros [? _]]. }
  destruct (verifyOne b _ _ _ _ w) as [[[c l] w1]|] eqn:Hv; simpl; [|done].
  destruct (verify_each b _ _ _ _ w1) as [[[c' l'] w2]|] eqn:He; simpl; [|done]. intros [= <- _ <-].
  apply IH in He as (vs & Hvs & Hi & Hb). destruct (verifyOne_code _ _ _ _ _ _ _ Hv) as (v & -> & Hc).
  exists (v :: vs). split; [simpl; by rewrite Hvs|]. rewrite Hi, Forall_cons.
  assert (is_broken v -> passes v -> False) as Hx by (intros (? & E & _) E'; unfold passes in E'; rewrite E in E'; discriminate).
  destruct Hc as [[-> Hp]|[[-> Hp]|(-> & Hp & Hq)]]; simpl in Hb |- *.
  - split; [tauto|]. intros Hc. destruct (Hb Hc); [by left|right; by right].
  - split; [|intros _; right; by left]. split; [intros [? _]; discriminate|]. intros (_ & Hp' & _). by destruct (Hx Hp Hp').
  - split; [|intros Hc; destruct (Hb Hc); [discriminate|right; by right]]. split; [intros [? _]; discriminate|]. intros (_ & Hp' & _). by destruct (Hp Hp').
Qed.
End Status.

(** C36: the exit status of es-verify all is the audit's verdict, over any backend
    and however its store changes between the reads.  When the flags parse and
    the streams can be listed, a command that returns exits 0 exactly when
    every listed stream passed verification with the requested strictness, in
    the state of the store the reads before it had left, and exits 1 only when
    some stream's chain is broken. *)
Theorem audit_exit_status {W} (b : backend W) fuel args set w since w1 refs w2 code lines w' :
  flag_Parse all_flags args = Some set -> bk_chainedSince b w = (Ok since, w1) -> bk_ListStreams b w1 = (Ok refs, w2) ->
  cmdAll b fuel args w = Some (code, lines, w') ->
  let opts := MkVerifyOptions since (default false (flag_value "strict" set ≫= ParseBool)) 0 in
  exists verdicts, stream_verdicts b fuel opts refs w2 = Some (verdicts, w')
    /\ (code = exitIntact <-> Forall passes verdicts)
    /\ (code = exitBroken -> Exists is_broken verdicts)
    /\ last lines = Some (StreamsChecked (length refs)).
Proof.
  intros Hf Hs Hl Hr opts. unfold cmdAll in Hr. rewrite Hf, Hs, Hl in Hr. fold opts in Hr.
  destruct (verify_each b fuel opts refs exitIntact w2) as [[[c l] w3]|] eqn:He; [|done]. injection Hr as <- <- <-.
  apply verify_each_code in He as (vs & Hvs & Hi & Hb). exists vs. split; [done|]. rewrite Hi. split; [tauto|]. split; [|by rewrite last_snoc].
  intros Hc. by destruct (Hb Hc).
Qed.

(** ** The audit of a SQLite store *)

Section Sqlite.
Context {UL : UuidLib} {EV : Env}.
Variable cap : Z.

Lemma stream_ids_elem db envs c : log_inv db envs -> c ∈ stream_ids db <-> exists e, e ∈ envs /\ Canonical (env_StreamID e) = c.
Proof.
  intros Hi. unfold stream_ids. rewrite (merge_sort_Permutation String.le), elem_of_remove_dups, (li_rows _ _ Hi), map_map. split.
  - intros (e & -> & He)%list_elem_of_fmap. by exists e.
  - intros (e & He & <-). apply list_elem_of_fmap. by exists e.
Qed.

(** The streams of the log, each once as its canonical id. *)
Lemma ListStreams_run w envs : no_fault -> log_inv (w_db w) envs ->
  exists refs, ListStreams w = (Ok refs, tick w)
    /\ (forall e, e ∈ envs -> MkStreamRef EmptyString (env_StreamID e) ∈ refs)
    /\ (forall ref, ref ∈ refs -> sr_Workspace ref = EmptyString /\ exists e, e ∈ envs /\ sr_StreamID ref = env_StreamID e).
Proof.
  intros Hnf Hi. pose proof (li_wf _ _ Hi) as Hw. rewrite Forall_forall in Hw.
  assert (forall e, e ∈ envs -> ParseCanonical (Canonical (env_StreamID e)) = Ok (env_StreamID e)) as HP by (intros e He; apply Parse_Canonical, Hw, He).
  set (h := fun c => MkStreamRef EmptyString (match ParseCanonical c with Ok sid => sid | Err _ => MkStreamID EmptyString EmptyString end)).
  exists (map h (stream_ids (w_db w))). split; [|split].
  - unfold ListStreams, query, exec. rewrite Hnf, (result_map_total _ h); [done|].
    intros c (e & He & <-)%(stream_ids_elem _ _ _ Hi). unfold h. by rewrite HP.
  - intros e He. apply list_elem_of_fmap. exists (Canonical (env_StreamID e)). unfold h. rewrite HP by done. split; [done|].
    apply (stream_ids_elem _ _ _ Hi). by exists e.
  - intros ref (c & -> & (e & He & <-)%(stream_ids_elem _ _ _ Hi))%list_elem_of_fmap. unfold h. rewrite HP by done. split; [done|]. by exists e.
Qed.

(** Without failures a read depends on the tables only, and leaves them. *)
Lemma ReadStream_still sid from to w1 w2 : no_fault -> w_db w2 = w_db w1 ->
  exists w', ReadStream sid from to w2 = ((ReadStream sid from to w1).1, w') /\ w_db w' = w_db w1.
Proof.
  intros Hnf Hdb. unfold ReadStream, bind, lift, queryEnvelopes, bind, query, exec. rewrite !Hnf, Hdb.
  destruct (Validate sid); [|by exists w2]. destruct (bind_uint64 from); [|by exists w2].
  destruct (if (0 <? to)%N then bind_uint64 to else Ok 0%N); [|by exists w2].
  cbn [result_bind]. destruct (result_map _ _); simpl; eexists; (split; [reflexivity|done]).
Qed.

Lemma verify_each_intact (b : backend (world DB)) (still : world DB -> Prop) fuel opts refs line : forall w,
  still w ->
  (forall ref w, ref ∈ refs -> still w ->
     exists w', verifyOne b fuel (sr_Workspace ref) (sr_StreamID ref) opts w = Some (exitIntact, [line ref], w') /\ still w') ->
  exists w', verify_each b fuel opts refs exitIntact w = Some (exitIntact, map line refs, w') /\ still w'.
Proof.
  induction refs as [|ref refs IH]; intros w Hw Hall; simpl; [by exists w|].
  destruct (Hall ref w ltac:(by left) Hw) as (w1 & -> & Hw1). simpl.
  destruct (IH w1 Hw1) as (w2 & -> & Hw2); [intros r w' Hr; apply Hall; by right|]. by exists w2.
Qed.
End Sqlite.

(** The audit of every store that was only ever appended to is clean.  On a
    reachable SQLite database whose calls do not fail, es-verify all, strict or
    not, exits 0 and prints for every stream of the log that it is intact, with
    its length as head and the hash of its last event. *)
Theorem audit_sqlite_clean `{UL : UuidLib} `{EV : Env} cap w envs since strict fuel :
  no_fault -> clock_ok -> reachable cap w envs -> fst (ChainedSince w) = Ok since ->
  (N.of_nat (length envs + 500) <= max_int64)%N -> (length envs < fuel)%nat ->
  exists lines n w', cmdAll sqlite_backend fuel (if strict : bool then ["--strict"%string] else []) w
      = Some (exitIntact, lines ++ [StreamsChecked n], w')
    /\ w_db w' = w_db w
    /\ forall e, e ∈ envs -> exists from,
         Verified (Canonical (env_StreamID e)) (N.of_nat (length (stream_of (env_StreamID e) envs))) from
           (EnvelopeHash <$> last (stream_of (env_StreamID e) envs)) ∈ lines.
Proof.
  intros Hnf Hclk Hre Hsince Hmax Hfuel. destruct (reachable_inv _ _ _ Hclk Hre) as [Hi _].
  assert (ChainedSince w = (Ok since, tick w)) as HS.
  { revert Hsince. unfold ChainedSince, bind, query, exec. rewrite Hnf. simpl. destruct (d_schema_migrations _ !! 2%Z) as [applied|]; simpl;
      [|by intros [= <-]]. unfold catch, lift, throw. destruct (parse_layout 3 applied); simpl; [by intros [= <-]|done]. }
  destruct (ListStreams_run (tick w) envs Hnf Hi) as (refs & HL & Hin & Hout). set (w2 := tick (tick w)) in *.
  assert (reachable cap w2 envs) as Hre2 by (apply (reach_other cap w envs (w_db w) (w_tick w2)); [done|done|done|simpl; lia]).
  set (opts := MkVerifyOptions since strict 0).
  assert (forall ref, ref ∈ refs -> exists rep, VerifyStreamWith (fun s f t => (ReadStream s f t w2).1) fuel (sr_StreamID ref) opts = Some (rep, None)
    /\ rep_Head rep = N.of_nat (length (stream_of (sr_StreamID ref) envs))
    /\ rep_HeadHash rep = (EnvelopeHash <$> last (stream_of (sr_StreamID ref) envs))) as Hver.
  { intros ref Hr. destruct (Hout ref Hr) as (_ & e & He & ->). pose proof (length_filter (fun x => env_StreamID x = env_StreamID e) envs) as Hlen.
    destruct (reachable_stream_verifies cap w2 envs (env_StreamID e) opts fuel Hclk Hre2) as (rep & H1 & _ & H2 & H3);
      [pose proof (li_wf _ _ Hi) as Hw; rewrite Forall_forall in Hw; by apply Hw|by rewrite Hnf|change (verify_page opts) with 500%nat; unfold stream_of; lia|unfold stream_of; lia|by exists rep]. }
  set (line := fun ref => let sid := sr_StreamID ref in match VerifyStreamWith (fun s f t => (ReadStream s f t w2).1) fuel sid opts with
    | Some (rep, None) => Verified (Canonical sid) (rep_Head rep) (rep_ChainedFrom rep) (rep_HeadHash rep) | _ => Usage end).
  assert (exists w3, verify_each sqlite_backend fuel opts refs exitIntact w2 = Some (exitIntact, map line refs, w3) /\ w_db w3 = w_db w2)
    as (w3 & HE & Hw3).
  { apply (verify_each_intact _ (fun w => w_db w = w_db w2)); [done|]. intros ref wr Hr Hwr. destruct (Hver ref Hr) as (rep & HV & _).
    destruct (VerifyStreamIn_still ReadStream (fun w => w_db w = w_db w2) _
      (fun w sid from to Hw => ReadStream_still sid from to w2 w Hnf Hw) _ _ _ wr _ Hwr HV) as (w' & HI & Hw').
    exists w'. split; [|done]. unfold verifyOne, line. cbn [bk_scope sqlite_backend]. rewrite HI, HV.
    destruct (Hout ref Hr) as [-> _]. by rewrite bool_decide_eq_true_2. }
  exists (map line refs), (length refs), w3. split; [|split; [done|]].
  - unfold cmdAll. replace (flag_Parse all_flags _) with (Some (if strict then [("strict", "true")%string] else [])) by (by destruct strict).
    cbn [bk_chainedSince sqlite_backend]. rewrite HS. cbn [bk_ListStreams sqlite_backend]. rewrite HL.
    replace (default false _) with strict by (by destruct strict). fold opts. by rewrite HE.
  - intros e He. specialize (Hin e He). destruct (Hver _ Hin) as (rep & HV & Hh & Hx). exists (rep_ChainedFrom rep).
    apply list_elem_of_fmap. exists (MkStreamRef EmptyString (env_StreamID e)). split; [|done]. unfold line. rewrite HV. simpl in Hh, Hx. by rewrite Hh, Hx.
Qed.

(** ** Runs *)

(** Two workspaces hold the golden stream; the second one has lost its first row. *)
Definition two_tenants (second : StreamID -> N -> N -> res (list Envelope)) : backend unit := {|
  bk_Anchor := fun _ => throw (ErrorsNew "read-only");
  bk_ListAnchors := ret [];
  bk_CheckAnchor := fun _ => ret tt;
  bk_ListStreams := ret [MkStreamRef "t1" golden_sid; MkStreamRef "t2" golden_sid];
  bk_scope := fun ws sid from to => lift (if bool_decide (ws = "t2"%string) then second sid from to else serve golden_stream sid from to);
  bk_chainedSince := ret zero_time;
  bk_multiWS := true |}.

Definition truncated : backend unit := two_tenants (serve (tail golden_stream)).

(** Strict verification finds the broken stream. *)
Lemma audit_exit_status_witness : exists lines verdicts,
  cmdAll truncated 4 ["--strict"%string] tt = Some (exitBroken, lines, tt)
  /\ stream_verdicts truncated 4 (MkVerifyOptions zero_time true 0) [MkStreamRef "t1" golden_sid; MkStreamRef "t2" golden_sid] tt = Some (verdicts, tt)
  /\ Exists is_broken verdicts.
Proof.
  assert (match cmdAll truncated 4 ["--strict"%string] tt with Some (c, _, _) => c | None => 9%Z end = exitBroken) as HC by (by vm_compute).
  destruct (cmdAll truncated 4 ["--strict"%string] tt) as [[[c lines] []]|] eqn:HA; [|discriminate HC]. subst c.
  destruct (audit_exit_status truncated 4 ["--strict"%string] [("strict", "true")%string] tt zero_time tt
    [MkStreamRef "t1" golden_sid; MkStreamRef "t2" golden_sid] tt exitBroken lines tt eq_refl eq_refl eq_refl HA) as (vs & HV & _ & HB & _).
  exists lines, vs. split; [reflexivity|]. split; [exact HV|exact (HB eq_refl)].
Defined.

Lemma world1_since : fst (@ChainedSince calm_env world1) = Ok zero_time.
Proof. by vm_compute. Qed.

#[local] Opaque world1 envs1.

Lemma envs1_length : length envs1 = 2%nat.
Proof. pose proof envs1_events as E. apply (f_equal (@length _)) in E. rewrite length_map in E. exact E. Qed.

Lemma audit_sqlite_clean_witness :
  exists lines n w', cmdAll (@sqlite_backend HexUuid calm_env) 3 ["--strict"%string] world1 = Some (exitIntact, lines ++ [StreamsChecked n], w').
Proof.
  destruct (@audit_sqlite_clean HexUuid calm_env 0 world1 envs1 zero_time true 3 calm_no_fault calm_clock_ok reach1 world1_since)
    as (lines & n & w' & HC & _); [rewrite envs1_length; done|rewrite envs1_length; lia|].
  exists lines, n, w'. exact HC.
Defined.

(** A broken stream, then one whose rows cannot be read. *)
Definition unreadable : backend unit := {|
  bk_Anchor := bk_Anchor truncated; bk_ListAnchors := bk_ListAnchors truncated; bk_CheckAnchor := bk_CheckAnchor truncated;
  bk_ListStreams := ret [MkStreamRef "t2" golden_sid; MkStreamRef "t3" golden_sid];
  bk_scope := fun ws sid from to =>
    lift (if bool_decide (ws = "t2"%string) then serve (tail golden_stream) sid from to else Err (ErrorsNew "connection reset"));
  bk_chainedSince := ret zero_time; bk_multiWS := true |}.

(** The status is the last bad stream's: a stream that cannot be read after a
    broken one turns the status of the audit into that of a connection error,
    although the broken stream was reported. *)
Lemma audit_error_masks_broken :
  match cmdAll unreadable 4 ["--strict"%string] tt with
  | Some (code, Broken label _ _ :: _, _) => code = exitUsage /\ label = "t2 counter:main"%string
  | _ => False
  end.
Proof. by vm_compute. Qed.
