(* ===== verification/Migrate.v ===== *)
(** * Schema migrations (src/migrate/migrate.go, src/sqlite/store.go, src/postgres/store.go, src/cmd/es-migrate/main.go)

    Loading the numbered scripts of a directory, and Store.Migrate of the two
    stores as a state machine with one state per statement, so that any number
    of migrators can be interleaved on one database, fail at any statement and
    lose their connection at any point. *)
From S2P Require Import Prelude Es.

(** ** Loading *)

Record Migration := MkMigration { mg_Version : Z; mg_Name : string; mg_SQL : string }.

(** strconv.Atoi on a 64-bit int. *)
Fixpoint digits_value (s : string) (n : N) : option N :=
  match s with
  | EmptyString => Some n
  | String c s' =>
      let d := Ascii.N_of_ascii c in
      if (48 <=? d)%N && (d <=? 57)%N then digits_value s' (n * 10 + (d - 48))%N else None
  end.

Definition Atoi (s : string) : option Z :=
  let '(neg, digits) := match s with
                        | String c s' => if bool_decide (c = "-"%char) then (true, s')
                                         else if bool_decide (c = "+"%char) then (false, s') else (false, s)
                        | EmptyString => (false, s)
                        end in
  if bool_decide (digits = EmptyString) then None else
  n ← digits_value digits 0;
  let z := if neg : bool then (- Z.of_N n)%Z else Z.of_N n in
  if (- 2 ^ 63 <=? z)%Z && (z <? 2 ^ 63)%Z then Some z else None.

(** strings.TrimSuffix and strings.HasSuffix. *)
Fixpoint cut_suffix (suffix s : string) : option string :=
  if bool_decide (s = suffix) then Some EmptyString else
  match s with
  | EmptyString => None
  | String c s' => String c <$> cut_suffix suffix s'
  end.

(** The parts of a string around its first '_'. *)
Fixpoint cut_underscore (s : string) : option (string * string) :=
  match s with
  | EmptyString => None
  | String c s' =>
      if bool_decide (c = "_"%char) then Some (EmptyString, s')
      else '(a, b) ← cut_underscore s'; Some (String c a, b)
  end.

Definition parseName (name : string) : res (Z * string) :=
  let base := default name (cut_suffix ".sql" name) in
  match cut_underscore base with
  | None | Some (EmptyString, _) => Err (ErrorsNew "migrate: must be <version>_<name>.sql")
  | Some (prefix, short) =>
      match Atoi prefix with
      | None => Err (ErrorsNew "migrate: has a non-numeric version prefix")
      | Some version => Ok (version, short)
      end
  end.

(** A directory entry and what reading it gives. *)
Record entry := MkEntry { en_Name : string; en_IsDir : bool; en_Body : res string }.

Fixpoint load_entries (seen : gset Z) (entries : list entry) : res (list Migration) :=
  match entries with
  | [] => Ok []
  | e :: entries' =>
      if en_IsDir e || bool_decide (cut_suffix ".sql" (en_Name e) = None) then load_entries seen entries' else
      let? (version, short) := parseName (en_Name e) in
      if bool_decide (version ∈ seen) then Err (ErrorsNew "migrate: duplicate version") else
      match en_Body e with
      | Err err => Err (Errorf "migrate: read" err)
      | Ok body =>
          let? migs := load_entries ({[version]} ∪ seen) entries' in
          Ok (MkMigration version short body :: migs)
      end
  end.

Definition version_le (a b : Migration) : Prop := (mg_Version a <= mg_Version b)%Z.
#[global] Instance version_le_dec : RelDecision version_le.
Proof. intros a b. unfold version_le. apply _. Defined.

(** [dir]: what fs.ReadDir returns. *)
Definition Load (dir : res (list entry)) : res (list Migration) :=
  match dir with
  | Err err => Err (Errorf "migrate: read" err)
  | Ok entries => let? migs := load_entries ∅ entries in Ok (merge_sort version_le migs)
  end.

(** Versions ascend strictly. *)
Definition ordered (migs : list Migration) : Prop := StronglySorted (fun a b => mg_Version a < mg_Version b)%Z migs.

Lemma load_entries_fresh entries : forall seen migs, load_entries seen entries = Ok migs ->
  NoDup (map mg_Version migs) /\ forall m, m ∈ migs -> mg_Version m ∉ seen.
Proof.
  induction entries as [|e entries IH]; intros seen migs; simpl; [intros [= <-]; split; [constructor|by intros ? ?%not_elem_of_nil]|].
  destruct (_ || _); [apply IH|]. destruct (parseName (en_Name e)) as [[version short]|err]; simpl; [|done].
  case_bool_decide as Hs; [done|]. destruct (en_Body e) as [body|err]; [|done].
  destruct (load_entries ({[version]} ∪ seen) entries) as [ms|err] eqn:Hl; simpl; [|done]. intros [= <-].
  destruct (IH _ _ Hl) as [Hnd Hfr]. split.
  - simpl. constructor; [|done]. intros (m & E & Hm)%list_elem_of_fmap. apply (Hfr m Hm). rewrite <- E. apply elem_of_union_l, elem_of_singleton_2, eq_refl.
  - intros m [->|Hm]%elem_of_cons; [done|]. intros Hin. apply (Hfr m Hm). by apply elem_of_union_r.
Qed.

Lemma sorted_strict migs : NoDup (map mg_Version migs) -> StronglySorted version_le migs -> ordered migs.
Proof.
  intros Hnd. induction 1 as [|m ms Hs IH Hm]; [constructor|]. apply NoDup_cons in Hnd as [Hni Hnd]. constructor; [by apply IH|].
  rewrite Forall_forall in *. intros m' Hm'. specialize (Hm m' Hm'). unfold version_le in Hm.
  assert (mg_Version m <> mg_Version m'); [|lia]. intros E. apply Hni. rewrite E. by apply list_elem_of_fmap_2.
Qed.

#[global] Instance version_le_total : Total version_le.
Proof. intros a b. unfold version_le. lia. Qed.
#[global] Instance version_le_trans : Transitive version_le.
Proof. intros a b c. unfold version_le. lia. Qed.

Lemma Load_ordered dir migs : Load dir = Ok migs -> ordered migs.
Proof.
  unfold Load. destruct dir as [entries|e]; [|done]. destruct (load_entries ∅ entries) as [ms|e] eqn:Hl; simpl; [|done]. intros [= <-].
  apply load_entries_fresh in Hl as [Hnd _]. apply sorted_strict.
  - by rewrite (merge_sort_Permutation version_le ms).
  - apply (StronglySorted_merge_sort version_le).
Qed.

(** ** Applying *)

(** The database: whether schema_migrations exists, its versions, the scripts
    whose effects are committed, the holder of the advisory lock, and the
    transaction that has written. *)
Record schema := MkSchema {
  sc_table : bool;
  sc_rows : list Z;
  sc_ran : list string;
  sc_lock : option nat;
  sc_writer : option nat
}.

Definition empty_schema : schema := MkSchema false [] [] None None.

(** Where a migrator is: the statement it sends next. *)
Inductive mig_pc :=
| MigLock                                           (** SELECT pg_advisory_lock *)
| MigTable                                          (** CREATE TABLE IF NOT EXISTS schema_migrations *)
| MigCheck (todo : list Migration)                  (** SELECT ... FROM schema_migrations WHERE version = *)
| MigBegin (m : Migration) (todo : list Migration)
| MigExec (m : Migration) (todo : list Migration)   (** the script *)
| MigRecord (m : Migration) (todo : list Migration) (** INSERT INTO schema_migrations *)
| MigCommit (m : Migration) (todo : list Migration)
| MigUnlock (r : res unit)                          (** the deferred pg_advisory_unlock *)
| MigReturned (r : res unit).

Section Migrate.
(** PostgreSQL serializes migrators with an advisory lock; SQLite does not. *)
Variable advisory : bool.
Variable migs : list Migration.

Definition mig_start : mig_pc := if advisory then MigLock else MigTable.

Definition mig_return (r : res unit) : mig_pc := if advisory then MigUnlock r else MigReturned r.

Definition release_writer (p : nat) (sc : schema) : schema :=
  MkSchema (sc_table sc) (sc_rows sc) (sc_ran sc) (sc_lock sc)
    (if bool_decide (sc_writer sc = Some p) then None else sc_writer sc).

Definition set_lock (l : option nat) (sc : schema) : schema :=
  MkSchema (sc_table sc) (sc_rows sc) (sc_ran sc) l (sc_writer sc).

Definition duplicate_version : error := if advisory then PgError "23505" else SqliteError 1555.
Definition database_locked : error := if advisory then PgError "55P03" else SqliteError 5.

(** One statement of migrator [p]; [fault] is its failure, if it fails.  A call
    that waits for the advisory lock makes no progress. *)
Definition mig_step (p : nat) (fault : option error) (pc : mig_pc) (sc : schema) : mig_pc * schema :=
  match pc, fault with
  | MigLock, Some e => (MigReturned (Err (Errorf "advisory lock" e)), sc)
  | MigLock, None =>
      match sc_lock sc with
      | Some q => if bool_decide (q = p) then (MigTable, sc) else (MigLock, sc)
      | None => (MigTable, set_lock (Some p) sc)
      end
  | MigTable, Some e => (mig_return (Err (Errorf "schema_migrations" e)), sc)
  | MigTable, None => (MigCheck migs, MkSchema true (sc_rows sc) (sc_ran sc) (sc_lock sc) (sc_writer sc))
  | MigCheck [], _ => (mig_return (Ok tt), sc)
  | MigCheck (m :: todo), Some e => (mig_return (Err (Errorf "check migration" e)), sc)
  | MigCheck (m :: todo), None =>
      if bool_decide (mg_Version m ∈ sc_rows sc) then (MigCheck todo, sc) else (MigBegin m todo, sc)
  | MigBegin m todo, Some e => (mig_return (Err e), sc)
  | MigBegin m todo, None => (MigExec m todo, sc)
  | MigExec m todo, Some e => (mig_return (Err (Errorf "migration" e)), sc)
  | MigExec m todo, None =>
      match sc_writer sc with
      | Some _ => (mig_return (Err (Errorf "migration" database_locked)), sc)
      | None => (MigRecord m todo, MkSchema (sc_table sc) (sc_rows sc) (sc_ran sc) (sc_lock sc) (Some p))
      end
  | MigRecord m todo, Some e => (mig_return (Err (Errorf "record migration" e)), release_writer p sc)
  | MigRecord m todo, None =>
      if bool_decide (mg_Version m ∈ sc_rows sc)
      then (mig_return (Err (Errorf "record migration" duplicate_version)), release_writer p sc)
      else (MigCommit m todo, sc)
  | MigCommit m todo, Some e => (mig_return (Err (Errorf "commit migration" e)), release_writer p sc)
  | MigCommit m todo, None =>
      (MigCheck todo, release_writer p (MkSchema (sc_table sc) (sc_rows sc ++ [mg_Version m]) (sc_ran sc ++ [mg_SQL m]) (sc_lock sc) (sc_writer sc)))
  | MigUnlock r, Some _ => (MigReturned r, sc)
  | MigUnlock r, None => (MigReturned r, if bool_decide (sc_lock sc = Some p) then set_lock None sc else sc)
  | MigReturned r, _ => (MigReturned r, sc)
  end.

(** Store.Migrate by one migrator nobody interferes with; the fuel is the
    number of statements. *)
Fixpoint mig_run (faults : nat -> option error) (p fuel : nat) (pc : mig_pc) (sc : schema) : mig_pc * schema :=
  match fuel with
  | O => (pc, sc)
  | S fuel' => let '(pc, sc) := mig_step p (faults fuel) pc sc in mig_run faults p fuel' pc sc
  end.

(** ** Concurrent migrators *)

Abbreviation system := (gmap nat mig_pc * schema)%type.

(** The end of a session: its transaction is rolled back, its lock released. *)
Definition drop_session (p : nat) (sc : schema) : schema :=
  let sc := release_writer p sc in if bool_decide (sc_lock sc = Some p) then set_lock None sc else sc.

Inductive mig_system : system -> system -> Prop :=
| sys_start p procs sc :
    procs !! p = None -> mig_system (procs, sc) (<[p := mig_start]> procs, sc)
| sys_run p fault pc pc' procs sc sc' :
    procs !! p = Some pc -> mig_step p fault pc sc = (pc', sc') ->
    mig_system (procs, sc) (<[p := pc']> procs, sc')
| sys_lost p pc e procs sc :
    procs !! p = Some pc -> mig_system (procs, sc) (<[p := MigReturned (Err e)]> procs, drop_session p sc).

(** What is still to do at a state of the loop, and the script under way. *)
Definition mig_todo (pc : mig_pc) : option (list Migration) :=
  match pc with
  | MigCheck todo => Some todo
  | MigBegin m todo | MigExec m todo | MigRecord m todo | MigCommit m todo => Some (m :: todo)
  | _ => None
  end.

(** The number of migrations a migrator has got past. *)
Definition got_past (pc : mig_pc) (n : nat) : Prop :=
  match pc with
  | MigUnlock (Ok _) | MigReturned (Ok _) => n = length migs
  | _ => match mig_todo pc with Some todo => todo = drop n migs | None => n = 0%nat end
  end.

(** A migrator's state fits the database. *)
Record mig_ok (p : nat) (pc : mig_pc) (sc : schema) : Prop := {
  mo_past : exists n, (n <= length (sc_rows sc))%nat /\ got_past pc n;
  mo_writer : match pc with MigRecord _ _ | MigCommit _ _ => sc_writer sc = Some p | _ => sc_writer sc <> Some p end;
  mo_fresh : match pc with MigCommit m _ => mg_Version m ∉ sc_rows sc | _ => True end
}.

Record sys_ok (s : system) : Prop := {
  so_rows : exists k, (k <= length migs)%nat /\ sc_rows s.2 = take k (map mg_Version migs) /\ sc_ran s.2 = take k (map mg_SQL migs);
  so_procs : forall p pc, s.1 !! p = Some pc -> mig_ok p pc s.2;
  so_writer : forall p, sc_writer s.2 = Some p -> is_Some (s.1 !! p)
}.

(** What a step of [p] leaves to the others. *)
Record mig_frame (p : nat) (sc sc' : schema) : Prop := {
  mf_rows : sc_rows sc' = sc_rows sc \/ sc_writer sc = Some p /\ exists l, sc_rows sc' = sc_rows sc ++ l;
  mf_writer : forall q, q <> p -> sc_writer sc' = Some q <-> sc_writer sc = Some q
}.

Lemma mig_frame_ok p q pc sc sc' : q <> p -> mig_frame p sc sc' -> mig_ok q pc sc -> mig_ok q pc sc'.
Proof.
  intros Hq [Hr Hw] [(n & Hn & Hp) Hwr Hf]. specialize (Hw q Hq). split.
  - exists n. split; [|done]. destruct Hr as [->|(_ & l & ->)]; [done|]. rewrite length_app. lia.
  - destruct pc; (try by apply Hw); intros E; by apply Hwr, Hw.
  - destruct pc; try done. destruct Hr as [->|(E & _)]; [done|]. congruence.
Qed.

Lemma release_frame p sc : mig_frame p sc (release_writer p sc).
Proof. split; [by left|]. intros q Hq. simpl. case_bool_decide as E; [rewrite E; split; congruence|done]. Qed.

Lemma release_free p sc : sc_writer (release_writer p sc) <> Some p.
Proof. simpl. by case_bool_decide. Qed.

Lemma step_frame p fault pc sc pc' sc' : mig_step p fault pc sc = (pc', sc') -> mig_ok p pc sc -> mig_frame p sc sc'.
Proof.
  intros Hs [_ Hw _]. assert (mig_frame p sc sc) as Hrefl by (split; [by left|done]).
  destruct pc as [| |[|m todo]|m todo|m todo|m todo|m todo|r|r], fault as [e|]; simpl in Hs, Hw;
    repeat case_match; simplify_eq; try done; try apply release_frame; try (split; [by left|done]).
  - split; [by left|]. intros q Hq. simpl. split; congruence.
  - destruct (release_frame p (MkSchema (sc_table sc) (sc_rows sc ++ [mg_Version m]) (sc_ran sc ++ [mg_SQL m]) (sc_lock sc) (sc_writer sc))) as [_ H2].
    split; [|done]. right. split; [done|]. by exists [mg_Version m].
Qed.

Hypothesis Hordered : ordered migs.

Lemma versions_nodup : NoDup (map mg_Version migs).
Proof.
  pose proof Hordered as Ho. clear Hordered. induction Ho as [|m ms _ IH Hm]; simpl; [constructor|]. constructor; [|exact IH].
  intros (m' & E & Hm')%list_elem_of_fmap. rewrite Forall_forall in Hm. specialize (Hm m' Hm'). lia.
Qed.

Lemma versions_inj i j m m' : migs !! i = Some m -> migs !! j = Some m' -> mg_Version m = mg_Version m' -> i = j.
Proof.
  intros Hi Hj E. apply (NoDup_lookup (mg_Version <$> migs) i j (mg_Version m) versions_nodup); [|rewrite E];
    by rewrite list_lookup_fmap, ?Hi, ?Hj.
Qed.

Lemma version_in_prefix n k m todo : m :: todo = drop n migs -> mg_Version m ∈ take k (map mg_Version migs) <-> (n < k)%nat.
Proof.
  intros Hd. assert (migs !! n = Some m) as Hm by (pose proof (lookup_drop migs n 0) as E; rewrite <- Hd, Nat.add_0_r in E; by rewrite <- E).
  change (map mg_Version migs) with (mg_Version <$> migs). rewrite <- fmap_take. split.
  - intros (m' & E & (i & Hi)%list_elem_of_lookup)%list_elem_of_fmap. apply lookup_take_Some in Hi as [Hi Hlt].
    by rewrite (versions_inj n i m m' Hm Hi E).
  - intros Hlt. apply list_elem_of_fmap. exists m. split; [done|]. apply list_elem_of_lookup. exists n. by apply lookup_take_Some.
Qed.

Lemma drop_next n m todo : m :: todo = drop n migs -> todo = drop (S n) migs.
Proof. intros Hd. replace (S n) with (n + 1)%nat by lia. by rewrite <- drop_drop, <- Hd. Qed.

(** A migrator's own step. *)
Lemma step_own p fault pc sc pc' sc' k : mig_step p fault pc sc = (pc', sc') -> mig_ok p pc sc -> (k <= length migs)%nat ->
  sc_rows sc = take k (map mg_Version migs) -> sc_ran sc = take k (map mg_SQL migs) ->
  mig_ok p pc' sc' /\ exists k', (k' <= length migs)%nat /\ sc_rows sc' = take k' (map mg_Version migs) /\ sc_ran sc' = take k' (map mg_SQL migs).
Proof.
  intros Hs [(n & Hn & Hp) Hw Hf] Hk Hr Hran.
  assert (length (sc_rows sc) = k) as Hlen by (rewrite Hr, length_take, length_map; lia).
  assert (forall x y, exists k', (k' <= length migs)%nat /\ sc_rows (MkSchema x (sc_rows sc) (sc_ran sc) y None) = take k' (map mg_Version migs)
    /\ sc_ran (MkSchema x (sc_rows sc) (sc_ran sc) y None) = take k' (map mg_SQL migs)) as Hsame by (intros; by exists k).
  assert (forall e sc1, sc_writer sc1 <> Some p -> mig_ok p (mig_return (Err e)) sc1) as Herr.
  { intros e sc1 H1. unfold mig_return. destruct advisory; (split; [exists 0%nat; split; [lia|done]|done|done]). }
  assert (forall e sc1, sc_writer sc1 <> Some p -> mig_ok p (MigReturned (Err e)) sc1) as Hret.
  { intros e sc1 H1. split; [exists 0%nat; split; [lia|done]|done|done]. }
  destruct pc as [| |[|m todo]|m todo|m todo|m todo|m todo|r|r], fault as [e|]; simpl in Hs, Hp, Hw, Hf;
    try (pose proof (version_in_prefix n k m todo Hp) as Hin; rewrite <- Hr in Hin).
  - injection Hs as <- <-. split; [by apply Hret|by exists k].
  - destruct (sc_lock sc) as [q|] eqn:El; [case_bool_decide|]; injection Hs as <- <-;
      (split; [split; [exists 0%nat; split; [simpl; lia|done]|done|done]|by exists k]).
  - injection Hs as <- <-. split; [by apply Herr|by exists k].
  - injection Hs as <- <-. split; [split; [exists 0%nat; split; [simpl; lia|done]|done|done]|by exists k].
  - injection Hs as <- <-. split; [|by exists k]. symmetry in Hp. apply drop_nil_inv in Hp. unfold mig_return.
    destruct advisory; (split; [exists (length migs); split; [lia|done]|done|done]).
  - injection Hs as <- <-. split; [|by exists k]. symmetry in Hp. apply drop_nil_inv in Hp. unfold mig_return.
    destruct advisory; (split; [exists (length migs); split; [lia|done]|done|done]).
  - injection Hs as <- <-. split; [by apply Herr|by exists k].
  - case_bool_decide as Hv; injection Hs as <- <-; (split; [|by exists k]).
    + split; [|done|done]. exists (S n). apply Hin in Hv. split; [lia|]. by apply (drop_next _ m).
    + split; [|done|done]. by exists n.
  - injection Hs as <- <-. split; [by apply Herr|by exists k].
  - injection Hs as <- <-. split; [|by exists k]. split; [by exists n|done|done].
  - injection Hs as <- <-. split; [by apply Herr|by exists k].
  - destruct (sc_writer sc) as [q|] eqn:Eq; injection Hs as <- <-; (split; [|by exists k]); [apply Herr; by rewrite Eq|].
    split; [by exists n|done|done].
  - injection Hs as <- <-. split; [apply Herr, release_free|by exists k].
  - case_bool_decide as Hv; injection Hs as <- <-; [split; [apply Herr, release_free|by exists k]|]. split; [|by exists k].
    split; [by exists n|done|done].
  - injection Hs as <- <-. split; [apply Herr, release_free|by exists k].
  - injection Hs as <- <-. assert (n = k) as -> by (destruct (Nat.lt_trichotomy n k) as [?|[?|?]]; [exfalso; tauto|done|lia]).
    assert (migs !! k = Some m) as Hm by (pose proof (lookup_drop migs k 0) as E; rewrite <- Hp, Nat.add_0_r in E; by rewrite <- E).
    pose proof (lookup_lt_Some _ _ _ Hm) as Hlt. split.
    + split; [|apply release_free|done]. exists (S k). split; [simpl; rewrite length_app; simpl; lia|]. by apply (drop_next _ m).
    + exists (S k). split; [lia|]. simpl. rewrite Hr, Hran.
      change (map mg_Version migs) with (mg_Version <$> migs). change (map mg_SQL migs) with (mg_SQL <$> migs). split; symmetry; apply take_S_r; by rewrite list_lookup_fmap, Hm.
  - injection Hs as <- <-. split; [|by exists k]. split; [|done|done]. by exists n.
  - injection Hs as <- <-. split; [|case_bool_decide; by exists k]. split; [|by case_bool_decide|done]. exists n. by case_bool_decide.
  - injection Hs as <- <-. split; [|by exists k]. split; [by exists n|done|done].
  - injection Hs as <- <-. split; [|by exists k]. split; [by exists n|done|done].
Qed.

Lemma drop_session_frame p sc : mig_frame p sc (drop_session p sc).
Proof.
  destruct (release_frame p sc) as [H1 H2]. unfold drop_session. case_bool_decide; (split; [by left|]); [exact H2|exact H2].
Qed.

Lemma drop_session_same p sc : sc_rows (drop_session p sc) = sc_rows sc /\ sc_ran (drop_session p sc) = sc_ran sc
  /\ sc_writer (drop_session p sc) <> Some p.
Proof. unfold drop_session. pose proof (release_free p sc). by case_bool_decide. Qed.

(** The others, and the one that moved. *)
Lemma sys_ok_move p procs sc pc' sc' :
  sys_ok (procs, sc) -> mig_frame p sc sc' -> mig_ok p pc' sc' ->
  (exists k, (k <= length migs)%nat /\ sc_rows sc' = take k (map mg_Version migs) /\ sc_ran sc' = take k (map mg_SQL migs)) ->
  sys_ok (<[p := pc']> procs, sc').
Proof.
  intros [_ Hp Hw] Hf Hown Hrows. split; [done| |]; simpl.
  - intros q pc Hq. destruct (decide (q = p)) as [->|Hne]; [rewrite lookup_insert_eq in Hq; by injection Hq as <-|].
    rewrite lookup_insert_ne in Hq by done. eapply mig_frame_ok; [done|done|by apply Hp].
  - intros q Hq. destruct (decide (q = p)) as [->|Hne]; [rewrite lookup_insert_eq; by eexists|].
    rewrite lookup_insert_ne by done. apply Hw. by apply (mf_writer _ _ _ Hf).
Qed.

Lemma sys_step_ok s s' : mig_system s s' -> sys_ok s -> sys_ok s'.
Proof.
  intros Hs HI. destruct Hs as [p procs sc Hn|p fault pc pc' procs sc sc' Hp Hs|p pc e procs sc Hp]; pose proof HI as [(k & Hk & Hr & Hran) Hpr Hw]; simpl in *.
  - apply (sys_ok_move p procs sc); [done|split; [by left|done]| |by exists k]. split; [exists 0%nat; split; [lia|]| |].
    + unfold mig_start. by destruct advisory.
    + assert (sc_writer sc <> Some p) as Hne by (intros E; destruct (Hw p E) as [x Hx]; congruence). unfold mig_start. by destruct advisory.
    + unfold mig_start. by destruct advisory.
  - destruct (step_own p fault pc sc pc' sc' k Hs (Hpr p pc Hp) Hk Hr Hran) as [Hown Hrows].
    apply (sys_ok_move p procs sc); [done|by eapply step_frame; [exact Hs|apply Hpr]|done|done].
  - destruct (drop_session_same p sc) as (E1 & E2 & E3). apply (sys_ok_move p procs sc); [done|apply drop_session_frame| |exists k; by rewrite E1, E2].
    split; [exists 0%nat; split; [lia|done]|done|done].
Qed.

(** A database earlier releases have migrated. *)
Definition migrated_to (k : nat) (sc : schema) : Prop :=
  (k <= length migs)%nat /\ sc_rows sc = take k (map mg_Version migs) /\ sc_ran sc = take k (map mg_SQL migs) /\ sc_writer sc = None.

Lemma reachable_sys_ok k sc s : migrated_to k sc -> rtc mig_system (∅, sc) s -> sys_ok s.
Proof.
  intros (Hk & Hr & Hran & Hw) Hsteps.
  assert (sys_ok (∅, sc)) as HI by (split; [by exists k|simpl; intros p pc; by rewrite lookup_empty|simpl; intros p; by rewrite Hw]).
  revert HI. induction Hsteps as [x|x y z Hxy _ IH]; [done|]. intros HI. by apply IH, (sys_step_ok x).
Qed.
End Migrate.

(** ** Migrators on a healthy database *)

(** Steps in which no statement fails and no connection is lost. *)
Inductive healthy_system (advisory : bool) (migs : list Migration) : gmap nat mig_pc * schema -> gmap nat mig_pc * schema -> Prop :=
| healthy_start p procs sc :
    procs !! p = None -> healthy_system advisory migs (procs, sc) (<[p := mig_start advisory]> procs, sc)
| healthy_run p pc pc' procs sc sc' :
    procs !! p = Some pc -> mig_step advisory migs p None pc sc = (pc', sc') ->
    healthy_system advisory migs (procs, sc) (<[p := pc']> procs, sc').

Lemma healthy_is_step advisory migs s s' : healthy_system advisory migs s s' -> mig_system advisory migs s s'.
Proof. intros [p procs sc Hn|p pc pc' procs sc sc' Hp Hs]; [by constructor|by eapply sys_run]. Qed.

(** Under the advisory lock: who is past it holds it, and finds its migration
    still missing and nobody else writing. *)
Record locked_ok (p : nat) (pc : mig_pc) (sc : schema) : Prop := {
  lk_lock : match pc with MigLock | MigReturned _ => True | _ => sc_lock sc = Some p end;
  lk_fresh : match pc with MigBegin m _ | MigExec m _ | MigRecord m _ | MigCommit m _ => mg_Version m ∉ sc_rows sc | _ => True end;
  lk_result : match pc with MigUnlock (Err _) | MigReturned (Err _) => False | _ => True end
}.

Definition serial_ok (s : gmap nat mig_pc * schema) : Prop := forall p pc, s.1 !! p = Some pc -> locked_ok p pc s.2.

(** A step of one migrator, with the others where they are. *)
Lemma locked_own migs p pc pc' procs sc sc' :
  sys_ok migs (procs, sc) -> serial_ok (procs, sc) -> procs !! p = Some pc ->
  mig_step true migs p None pc sc = (pc', sc') -> locked_ok p pc' sc'.
Proof.
  intros HI HS Hp Hs. pose proof (HS p pc Hp) as [Hl Hf Hr]. pose proof (mo_writer _ _ _ _ (so_procs _ _ HI p pc Hp)) as Hw. simpl in *.
  destruct pc as [| |[|m todo]|m todo|m todo|m todo|m todo|r|r]; simpl in *; try (injection Hs as <- <-; by split).
  - destruct (sc_lock sc) as [q|] eqn:El; [case_bool_decide; [subst q|]|]; injection Hs as <- <-; by split.
  - case_bool_decide; injection Hs as <- <-; by split.
  - destruct (sc_writer sc) as [q|] eqn:Eq; [|injection Hs as <- <-; by split]. exfalso.
    destruct (so_writer _ _ HI q Eq) as [pcq Hq]. pose proof (mo_writer _ _ _ _ (so_procs _ _ HI q pcq Hq)) as Hwq.
    pose proof (lk_lock _ _ _ (HS q pcq Hq)) as Hlq. simpl in *. rewrite Eq in Hwq. destruct pcq; congruence.
  - rewrite bool_decide_eq_false_2 in Hs by done. injection Hs as <- <-. by split.
Qed.

Lemma locked_others migs p q pc pc' pcq sc sc' :
  q <> p -> mig_step true migs p None pc sc = (pc', sc') -> locked_ok p pc sc -> locked_ok q pcq sc -> locked_ok q pcq sc'.
Proof.
  intros Hne Hs [Hl _ _] Hq. pose proof Hq as [Hlq Hfq Hrq].
  destruct (decide (sc_lock sc = Some q)) as [E|E].
  - assert (sc' = sc) as ->; [|done]. destruct pc; simpl in *; try congruence. rewrite E, bool_decide_eq_false_2 in Hs by done. congruence.
  - destruct pcq; try (exfalso; by apply E); by split.
Qed.

Lemma serial_step migs s s' : healthy_system true migs s s' -> sys_ok migs s -> serial_ok s -> serial_ok s'.
Proof.
  intros Hs HI HS. destruct Hs as [p procs sc Hn|p pc pc' procs sc sc' Hp Hs]; intros q pcq; simpl;
    (destruct (decide (q = p)) as [->|Hne]; [rewrite lookup_insert_eq; intros [= <-]|rewrite lookup_insert_ne by done; intros Hq]).
  - by split.
  - by apply HS.
  - by eapply locked_own.
  - eapply locked_others; [done|exact Hs|by apply (HS p pc)|by apply HS].
Qed.

(** C37: migrations run once, in order, whoever runs them.  Over any number of
    concurrent migrators of one database, with or without the advisory lock,
    starting on a database an earlier release has migrated to any point, with
    statements failing and connections lost anywhere, the committed scripts are
    at every instant an initial part of the sorted list, each applied once and
    recorded, and a migrator that returns without an error leaves them all
    applied. *)
Theorem migrations_once advisory dir migs k sc s :
  Load dir = Ok migs -> migrated_to migs k sc -> rtc (mig_system advisory migs) (∅, sc) s ->
  (exists n, (n <= length migs)%nat /\ sc_rows s.2 = take n (map mg_Version migs) /\ sc_ran s.2 = take n (map mg_SQL migs))
  /\ NoDup (sc_rows s.2)
  /\ forall p, s.1 !! p = Some (MigReturned (Ok tt)) -> sc_rows s.2 = map mg_Version migs /\ sc_ran s.2 = map mg_SQL migs.
Proof.
  intros Hl Hm Hr. apply Load_ordered in Hl as Ho. destruct (reachable_sys_ok advisory migs Ho k sc s Hm Hr) as [(n & Hn & E1 & E2) Hp _].
  split; [by exists n|]. split; [rewrite E1; eapply sublist_NoDup; [apply (versions_nodup migs Ho)|apply sublist_take]|].
  intros p Hret. destruct (mo_past _ _ _ _ (Hp p _ Hret)) as (n' & Hle & Hg). simpl in Hg. subst n'.
  rewrite E1, length_take, length_map in Hle. assert (n = length migs) as -> by lia.
  by rewrite E1, E2, !take_ge by (rewrite length_map; lia).
Qed.

(** On PostgreSQL concurrent migrators all succeed.  The advisory lock
    serializes them: when no statement fails and no connection is lost, no
    migrator ever returns an error, however many run at once. *)
Theorem postgres_migrators_succeed dir migs k sc s p r :
  Load dir = Ok migs -> migrated_to migs k sc -> rtc (healthy_system true migs) (∅, sc) s ->
  s.1 !! p = Some (MigReturned r) -> r = Ok tt.
Proof.
  intros Hl (Hk & Hr & Hran & Hw) Hsteps. apply Load_ordered in Hl as Ho.
  assert (sys_ok migs s /\ serial_ok s) as [_ HS].
  { assert (sys_ok migs (∅, sc)) as HI by (split; [by exists k|simpl; intros q pc; by rewrite lookup_empty|simpl; intros q; by rewrite Hw]).
    assert (serial_ok (∅, sc)) as HS by (intros q pc; simpl; by rewrite lookup_empty).
    revert HI HS. induction Hsteps as [x|x y z Hxy _ IH]; [done|]. intros HI HS.
    apply IH; [apply (sys_step_ok true migs Ho x y); [by apply healthy_is_step|done]|by apply (serial_step migs x)]. }
  intros Hret. pose proof (lk_result _ _ _ (HS p _ Hret)) as Hres. by destruct r as [[]|].
Qed.

(** ** A migrator alone *)

Abbreviation no_faults := (fun _ : nat => @None error).

Lemma run_returned advisory migs p fuel r sc : mig_run advisory migs no_faults p fuel (MigReturned r) sc = (MigReturned r, sc).
Proof. by induction fuel. Qed.

Lemma run_check advisory migs p todo : forall sc fuel, sc_writer sc = None -> (5 * length todo + 2 <= fuel)%nat ->
  exists sc', mig_run advisory migs no_faults p fuel (MigCheck todo) sc = (MigReturned (Ok tt), sc').
Proof.
  induction todo as [|m todo IH]; intros sc fuel Hw Hf; simpl length in Hf.
  - destruct fuel as [|[|fuel]]; [lia|lia|]. cbn [mig_run mig_step]. unfold mig_return. destruct advisory; cbn [mig_step]; rewrite run_returned; by eexists.
  - destruct fuel as [|fuel]; [lia|]. cbn [mig_run mig_step]. case_bool_decide as Hv; [apply IH; [done|lia]|].
    destruct fuel as [|[|[|[|fuel]]]]; try lia. cbn [mig_run mig_step]. rewrite Hw. cbn [mig_run mig_step sc_rows].
    rewrite bool_decide_eq_false_2 by done. cbn [mig_run mig_step]. apply IH; [|lia]. simpl. by rewrite bool_decide_eq_true_2.
Qed.

(** Store.Migrate terminates: alone on a healthy database, it returns without an
    error after at most five statements per migration and four more. *)
Lemma migrate_returns advisory migs p sc : sc_writer sc = None -> sc_lock sc = None ->
  exists sc', mig_run advisory migs no_faults p (5 * length migs + 4) (mig_start advisory) sc = (MigReturned (Ok tt), sc').
Proof.
  intros Hw Hl. replace (5 * length migs + 4)%nat with (S (S (5 * length migs + 2))) by lia. unfold mig_start.
  destruct advisory; cbn [mig_run mig_step]; [rewrite Hl; cbn [mig_run mig_step]; by apply run_check|].
  apply (run_check false migs p migs _ (S (5 * length migs + 2))); [done|lia].
Qed.

(** ** Runs *)

(** Migrators take statements in the order of a schedule; one that is not there
    yet starts. *)
Fixpoint run_schedule (advisory : bool) (migs : list Migration) (ps : list nat) (s : gmap nat mig_pc * schema) : gmap nat mig_pc * schema :=
  match ps with
  | [] => s
  | p :: ps' =>
      let s' := match s.1 !! p with
                | None => (<[p := mig_start advisory]> s.1, s.2)
                | Some pc => let '(pc', sc') := mig_step advisory migs p None pc s.2 in (<[p := pc']> s.1, sc')
                end in
      run_schedule advisory migs ps' s'
  end.

Lemma run_schedule_steps advisory migs ps : forall s, rtc (healthy_system advisory migs) s (run_schedule advisory migs ps s).
Proof.
  induction ps as [|p ps IH]; intros [procs sc]; simpl; [done|]. eapply rtc_l; [|apply IH].
  destruct (procs !! p) as [pc|] eqn:Hp; [|by constructor].
  destruct (mig_step advisory migs p None pc sc) as [pc' sc'] eqn:Hs. by eapply healthy_run.
Qed.

Definition two_files : res (list entry) := Ok
  [MkEntry "0002_hash_chain.sql" false (Ok "ALTER TABLE events"%string); MkEntry "README.md" false (Ok EmptyString);
   MkEntry "0001_initial_schema.sql" false (Ok "CREATE TABLE events"%string)].

Definition two_migs : list Migration :=
  [MkMigration 1 "initial_schema" "CREATE TABLE events"; MkMigration 2 "hash_chain" "ALTER TABLE events"].

Lemma two_files_load : Load two_files = Ok two_migs.
Proof. by vm_compute. Qed.

Lemma empty_migrated migs : migrated_to migs 0 empty_schema.
Proof. split; [lia|]. done. Qed.

(** Two migrators, alternating. *)
Definition alternating (n : nat) : list nat := concat (repeat [0; 1]%nat n).

Lemma migrations_once_witness :
  sc_ran (run_schedule true two_migs (alternating 40) (∅, empty_schema)).2 = ["CREATE TABLE events"; "ALTER TABLE events"]%string.
Proof.
  assert ((run_schedule true two_migs (alternating 40) (∅, empty_schema)).1 !! 1%nat = Some (MigReturned (Ok tt))) as Hret by (by vm_compute).
  pose proof (run_schedule_steps true two_migs (alternating 40) (∅, empty_schema)) as Hsteps.
  destruct (migrations_once true two_files two_migs 0 empty_schema _ two_files_load (empty_migrated two_migs)
    (rtc_subrel _ _ _ _ (healthy_is_step true two_migs) Hsteps)) as (_ & _ & Hall).
  exact (proj2 (Hall 1%nat Hret)).
Defined.

Lemma postgres_migrators_succeed_witness : exists r,
  (run_schedule true two_migs (alternating 40) (∅, empty_schema)).1 !! 0%nat = Some (MigReturned r) /\ r = Ok tt.
Proof.
  assert ((run_schedule true two_migs (alternating 40) (∅, empty_schema)).1 !! 0%nat = Some (MigReturned (Ok tt))) as Hret by (by vm_compute).
  exists (Ok tt). split; [exact Hret|].
  exact (postgres_migrators_succeed two_files two_migs 0 empty_schema _ 0%nat (Ok tt) two_files_load (empty_migrated two_migs)
    (run_schedule_steps true two_migs (alternating 40) (∅, empty_schema)) Hret).
Defined.

(** On SQLite the check and the insert are not one step: of two migrators that
    start together on an empty database one is told that it failed, although
    no statement did. *)
Lemma sqlite_migrators_race : exists e,
  (run_schedule false two_migs [0; 1; 0; 1; 0; 1; 0; 0; 0; 0; 1; 1; 1]%nat (∅, empty_schema)).1 !! 1%nat = Some (MigReturned (Err e)).
Proof. eexists. vm_compute. reflexivity. Qed.
