(* ===== verification/PgOpen.v ===== *)
(** * Opening a PostgreSQL store (src/postgres/store.go, src/cmd/es-migrate/main.go)

    The options, the two constructors and Close, over the connection pools that
    are open, and the migration command. *)
From S2P Require Import Prelude Es Effect.

(** ** Options *)

Definition pg_defaultMaxPayloadBytes : Z := Z.shiftl 8 20.

Record pg_openConfig := MkPgOpenConfig { oc_autoMigrate : bool; oc_maxPayloadBytes : Z }.

Definition PgOption : Type := pg_openConfig -> pg_openConfig.

Definition pg_WithoutAutoMigrate : PgOption := fun c => MkPgOpenConfig false (oc_maxPayloadBytes c).
Definition pg_WithMaxPayloadBytes (n : Z) : PgOption := fun c => MkPgOpenConfig (oc_autoMigrate c) n.

Definition pg_newOpenConfig (opts : list PgOption) : pg_openConfig :=
  let c := foldl (fun c o => o c) (MkPgOpenConfig true pg_defaultMaxPayloadBytes) opts in
  if (oc_maxPayloadBytes c =? 0)%Z then MkPgOpenConfig (oc_autoMigrate c) pg_defaultMaxPayloadBytes else c.

(** The effective cap is never 0. *)
Lemma pg_cap_effective opts : oc_maxPayloadBytes (pg_newOpenConfig opts) <> 0%Z.
Proof. unfold pg_newOpenConfig. destruct (Z.eqb_spec (oc_maxPayloadBytes (foldl (fun c o => o c) (MkPgOpenConfig true pg_defaultMaxPayloadBytes) opts)) 0); done. Qed.

(** ** Pools *)

Section Open.
Context {W : Type}.

(** The pools that are open beside the rest of the world, and the next handle. *)
Record pools := MkPools { pl_world : W; pl_open : gset nat; pl_next : nat }.

Record PgStore := MkPgStore { ps_pool : nat; ps_ownsPool : bool; ps_maxPayloadBytes : Z }.

(** pgxpool.New on a data source, and Store.Migrate on a pool. *)
Variable connect : string -> SM W unit.
Variable Migrate_ : nat -> SM W unit.

Definition on_world {A} (m : SM W A) : SM pools A := fun x =>
  let '(r, w) := m (pl_world x) in (r, MkPools w (pl_open x) (pl_next x)).

Definition pgxpool_New (dsn : string) : SM pools nat :=
  let! _ := on_world (connect dsn) in
  fun x => (Ok (pl_next x), MkPools (pl_world x) ({[pl_next x]} ∪ pl_open x) (S (pl_next x))).

Definition pool_Close (pool : nat) (x : pools) : pools := MkPools (pl_world x) (pl_open x ∖ {[pool]}) (pl_next x).

Definition migrateIfConfigured (s : PgStore) (cfg : pg_openConfig) : SM pools unit :=
  if negb (oc_autoMigrate cfg) then ret tt else on_world (Migrate_ (ps_pool s)).

Definition pg_store_Open (dsn : string) (opts : list PgOption) : SM pools PgStore :=
  let! pool := pgxpool_New dsn wrap "postgres: connect" in
  let cfg := pg_newOpenConfig opts in
  let s := MkPgStore pool true (oc_maxPayloadBytes cfg) in
  fun x =>
    match migrateIfConfigured s cfg x with
    | (Err err, x) => (Err err, pool_Close pool x)
    | (Ok _, x) => (Ok s, x)
    end.

(** [None] is a nil pool. *)
Definition OpenWithPool (pool : option nat) (opts : list PgOption) : SM pools PgStore :=
  match pool with
  | None => throw (ErrorsNew "postgres: open with pool: pool is nil")
  | Some pool =>
      let cfg := pg_newOpenConfig opts in
      let s := MkPgStore pool false (oc_maxPayloadBytes cfg) in
      let! _ := migrateIfConfigured s cfg in
      ret s
  end.

Definition pg_store_Close (s : PgStore) (x : pools) : pools := if ps_ownsPool s then pool_Close (ps_pool s) x else x.

(** ** Ownership *)

(** Handles below the next one are the only ones open. *)
Definition pools_ok (x : pools) : Prop := forall n, n ∈ pl_open x -> (n < pl_next x)%nat.

Lemma migrateIfConfigured_pools s cfg x r x' : migrateIfConfigured s cfg x = (r, x') -> pl_open x' = pl_open x /\ pl_next x' = pl_next x.
Proof.
  unfold migrateIfConfigured. destruct (oc_autoMigrate cfg); simpl; [|by intros [= _ <-]].
  unfold on_world. destruct (Migrate_ _ _). by intros [= _ <-].
Qed.

(** Open leaves no pool behind when it fails, and the one it creates is released
    by Close; a store over a borrowed pool never closes it. *)
Lemma pool_ownership dsn opts x r x' :
  pools_ok x -> pg_store_Open dsn opts x = (r, x') ->
  pools_ok x' /\ (match r with
  | Ok s => (ps_pool s ∈ pl_open x') /\ (ps_pool s ∉ pl_open x) /\ pl_open (pg_store_Close s x') = pl_open x
  | Err _ => pl_open x' = pl_open x
  end).
Proof.
  intros Hx. unfold pg_store_Open, bind, catch, throw, pgxpool_New, bind, on_world. destruct (connect dsn (pl_world x)) as [[[]|e] w]; simpl; [|by intros [= <- <-]].
  set (x1 := MkPools w ({[pl_next x]} ∪ pl_open x) (S (pl_next x))). set (s := MkPgStore _ _ _).
  assert (pools_ok x1) as Hx1.
  { intros n Hn. simpl in *. apply elem_of_union in Hn as [->%elem_of_singleton|Hn]; [lia|]. specialize (Hx n Hn). lia. }
  assert (pl_next x ∉ pl_open x) as Hfresh by (intros Hn; specialize (Hx _ Hn); lia).
  assert (pl_open x1 ∖ {[pl_next x]} = pl_open x) as Hdrop by (simpl; set_solver).
  destruct (migrateIfConfigured s (pg_newOpenConfig opts) x1) as [rm x2] eqn:Hm. apply migrateIfConfigured_pools in Hm as [Ho Hn].
  destruct rm as [u|e]; intros [= <- <-]; simpl.
  - split; [unfold pools_ok; rewrite Ho, Hn; exact Hx1|]. rewrite Ho. split; [simpl; set_solver|]. split; [done|exact Hdrop].
  - split; [|by rewrite Ho]. intros n Hin. simpl in *. rewrite Ho in Hin. apply elem_of_difference in Hin as [Hin _]. rewrite Hn. by apply Hx1.
Qed.

Lemma borrowed_pool_kept pool opts x r x' : OpenWithPool pool opts x = (r, x') ->
  pl_open x' = pl_open x /\ forall s, r = Ok s -> pl_open (pg_store_Close s x') = pl_open x.
Proof.
  unfold OpenWithPool. destruct pool as [pool|]; [|by intros [= <- <-]]. unfold bind.
  destruct (migrateIfConfigured _ _ x) as [rm x2] eqn:Hm. apply migrateIfConfigured_pools in Hm as [Ho _].
  destruct rm as [u|e]; intros [= <- <-]; (split; [done|]); [by intros s [= <-]|done].
Qed.
End Open.

(** ** The migration command *)

(** main of es-migrate: the message it ends with; an error is a log.Fatal.  The
    two Opens return the store's Migrate. *)
Definition es_migrate {W} (Getenv : string -> string) (open_postgres open_sqlite : string -> SM W (SM W unit)) : SM W string :=
  let backend := if bool_decide (Getenv "BACKEND" = EmptyString) then "postgres"%string else Getenv "BACKEND" in
  let finish := ret ("es-migrate: " ++ backend ++ " schema up to date")%string in
  if bool_decide (backend = "postgres"%string) then
    let dsn := Getenv "PG_DSN" in
    if bool_decide (dsn = EmptyString) then throw (ErrorsNew "es-migrate: PG_DSN is required for BACKEND=postgres") else
    let! migrate := open_postgres dsn wrap "es-migrate: open postgres" in
    let! _ := migrate wrap "es-migrate" in finish
  else if bool_decide (backend = "sqlite"%string) then
    let dsn := if bool_decide (Getenv "SQLITE_DSN" = EmptyString) then "file:eslite.db"%string else Getenv "SQLITE_DSN" in
    let! migrate := open_sqlite dsn wrap "es-migrate: open sqlite" in
    let! _ := migrate wrap "es-migrate" in finish
  else throw (ErrorsNew "es-migrate: unknown BACKEND").
