(* ===== verification/SqliteOpen.v ===== *)
(** * Opening a SQLite store (src/sqlite/store.go)

    Open, NewWithDB and Close over the database handles of the process; the
    driver's Open and the store's Migrate are arguments. *)
From S2P Require Import Prelude Sha256 Es Hash Chain Timestamp Effect Sql Sqlite.

Definition pragmas : string := "_pragma=busy_timeout(5000)&_pragma=journal_mode(WAL)&_pragma=foreign_keys(on)".

Fixpoint contains_char (c : ascii) (s : string) : bool :=
  match s with EmptyString => false | String a s' => bool_decide (a = c) || contains_char c s' end.

Definition withPragmas (dsn : string) : string :=
  if contains_char "?" dsn then (dsn ++ "&" ++ pragmas)%string else (dsn ++ "?" ++ pragmas)%string.

Section Open.
Context {W : Type}.

(** The handles that are open, and the connection limits that were set. *)
Record handles := MkHandles { hd_world : W; hd_open : gset nat; hd_max : gmap nat Z; hd_next : nat }.

Record SqliteStore := MkSqliteStore { sq_db : nat; sq_maxPayloadBytes : Z }.

Variable driver_Open : string -> SM W unit.
Variable Migrate_ : nat -> SM W unit.

Definition with_handles {A} (m : SM W A) : SM handles A := fun x =>
  let '(r, w) := m (hd_world x) in (r, MkHandles w (hd_open x) (hd_max x) (hd_next x)).

Definition sql_Open (dsn : string) : SM handles nat :=
  let! _ := with_handles (driver_Open dsn) in
  fun x => (Ok (hd_next x), MkHandles (hd_world x) ({[hd_next x]} ∪ hd_open x) (hd_max x) (S (hd_next x))).

Definition SetMaxOpenConns (db : nat) (n : Z) (x : handles) : handles := MkHandles (hd_world x) (hd_open x) (<[db := n]> (hd_max x)) (hd_next x).
Definition db_Close (db : nat) (x : handles) : handles := MkHandles (hd_world x) (hd_open x ∖ {[db]}) (hd_max x) (hd_next x).

Definition store_Open (dsn : string) (opts : list Option) : SM handles SqliteStore :=
  let! db := sql_Open (withPragmas dsn) wrap "open sqlite" in
  fun x =>
    let x := SetMaxOpenConns db 1 x in
    let cfg := newOpenConfig opts in
    let s := MkSqliteStore db (oc_maxPayloadBytes cfg) in
    if oc_autoMigrate cfg then
      match with_handles (Migrate_ db) x with
      | (Err err, x) => (Err err, db_Close db x)
      | (Ok _, x) => (Ok s, x)
      end
    else (Ok s, x).

Definition NewWithDB (db : nat) (opts : list Option) : SM handles SqliteStore :=
  let cfg := newOpenConfig opts in
  let s := MkSqliteStore db (oc_maxPayloadBytes cfg) in
  if oc_autoMigrate cfg then let! _ := with_handles (Migrate_ db) in ret s else ret s.

Definition store_Close (s : SqliteStore) (x : handles) : handles := db_Close (sq_db s) x.

Definition handles_ok (x : handles) : Prop := forall n, n ∈ hd_open x -> (n < hd_next x)%nat.

(** An opened store has a handle of its own with one connection, so that writers
    are serialized; a failed Open leaves none behind, and Close returns to the
    handles there were. *)
Lemma store_Open_handle dsn opts x r x' : handles_ok x -> store_Open dsn opts x = (r, x') ->
  handles_ok x' /\ (match r with
  | Ok s => (sq_db s ∈ hd_open x') /\ (sq_db s ∉ hd_open x) /\ hd_max x' !! sq_db s = Some 1%Z /\ hd_open (store_Close s x') = hd_open x
  | Err _ => hd_open x' = hd_open x
  end).
Proof.
  intros Hx. unfold store_Open, bind, catch, throw, sql_Open, bind, with_handles, store_Close, db_Close, SetMaxOpenConns.
  destruct (driver_Open (withPragmas dsn) (hd_world x)) as [[[]|e] w]; simpl; [|by intros [= <- <-]].
  assert (hd_next x ∉ hd_open x) as Hfresh by (intros Hn; specialize (Hx _ Hn); lia).
  assert (({[hd_next x]} ∪ hd_open x) ∖ {[hd_next x]} = hd_open x) as Hdrop by set_solver.
  assert (forall n, n ∈ {[hd_next x]} ∪ hd_open x -> (n < S (hd_next x))%nat) as Hok.
  { intros n [->%elem_of_singleton|Hn]%elem_of_union; [lia|]. specialize (Hx n Hn). lia. }
  destruct (oc_autoMigrate (newOpenConfig opts)); [destruct (Migrate_ (hd_next x) w) as [[[]|e] w1]|]; intros [= <- <-]; simpl;
    (split; [intros n; simpl; intros Hn; apply Hok; set_solver|]); rewrite ?lookup_insert_eq; set_solver.
Qed.

(** A handle the caller owns stays as it was. *)
Lemma NewWithDB_handle db opts x r x' : NewWithDB db opts x = (r, x') -> hd_open x' = hd_open x /\ hd_max x' = hd_max x.
Proof.
  unfold NewWithDB, bind, with_handles. destruct (oc_autoMigrate _); [destruct (Migrate_ db (hd_world x)) as [[[]|e] w]|]; by intros [= _ <-].
Qed.
End Open.
