(* ===== verification/Cmdsvc.v ===== *)
(** * The command service runtime (src/cmdsvc/cmdsvc.go)

    Audit metadata from request headers, the mapping of a command's error to a
    Connect error with its VersionConflict detail and the client's reading of
    it, and the write result.  connect-go, protobuf and protovalidate are
    parameters: encoding and decoding an error detail, packing a message into an
    Any, and the validator's error. *)
From S2P Require Import Prelude Es Effect Sqlite.

(** connect.Code *)
Definition CodeCanceled : N := 1.
Definition CodeInvalidArgument : N := 3.
Definition CodeDeadlineExceeded : N := 4.
Definition CodeAlreadyExists : N := 6.
Definition CodePermissionDenied : N := 7.
Definition CodeFailedPrecondition : N := 9.
Definition CodeInternal : N := 13.
Definition CodeUnauthenticated : N := 16.

(** connect.NewError, and AddDetail on a Connect error. *)
Definition NewError (code : N) (err : error) : error := ConnectError code [] err.

Definition AddDetail (ce : error) (d : string * list byte) : error :=
  match ce with ConnectError code ds e => ConnectError code (ds ++ [d]) e | _ => ce end.

(** errors.As with a *connect.Error target. *)
Fixpoint AsConnect (e : error) : option error :=
  match e with
  | ConnectError _ _ _ => Some e
  | Errorf _ e' => AsConnect e'
  | LeaseLostError _ _ e' => AsConnect e'
  | Join e1 e2 => match AsConnect e1 with Some r => Some r | None => AsConnect e2 end
  | _ => None
  end.

(** esv1.VersionConflict; the state is an Any. *)
Record VersionConflict := MkVersionConflict {
  vc_ExpectedVersion : N;
  vc_CurrentVersion : N;
  vc_CurrentState : option (string * list byte)
}.

(** What the handlers use of connect-go, protobuf and protovalidate: a detail
    that was encoded decodes to the same message. *)
Class ConnectLib := {
  message : Type;                                            (** proto.Message *)
  anypb_New : message -> res (string * list byte);
  NewErrorDetail : VersionConflict -> res (string * list byte);
  detail_Value : string * list byte -> res (option VersionConflict);   (** [None]: another message *)
  ValidationDetail : error -> option (res (string * list byte));       (** of a *protovalidate.ValidationError *)
  detail_round_trip : forall vc d, NewErrorDetail vc = Ok d -> detail_Value d = Ok (Some vc)
}.

(** ** Metadata *)

Section Meta.
Context `{UuidLib}.

(** uuid.NewSHA1: the version 5 UUID of a name in a namespace. *)
Variable NewSHA1 : UUID -> list byte -> UUID.

Definition idempotencyNamespace : UUID := (uuid_Parse "3b5a0c2e-7f5d-4b1a-9c3e-2d6f8a1b4c7e"%string).1.

(** [h]: http.Header.Get, the empty string when the header is not set. *)
Definition MetaFrom (h : string -> string) (actor : Actor) : Meta :=
  let v := h "Correlation-Id"%string in
  let correlation := if bool_decide (v = EmptyString) then uuid_Nil else
                     match uuid_Parse v with (id, None) => id | (_, Some _) => uuid_Nil end in
  let k := h "Idempotency-Key"%string in
  let command := if bool_decide (k = EmptyString) then uuid_Nil else
                 match uuid_Parse k with (id, None) => id | (_, Some _) => NewSHA1 idempotencyNamespace (bytes_of k) end in
  MkMeta command correlation uuid_Nil actor zero_time.

(** A UUID key is the command's id; any other key gives one id per key. *)
Lemma MetaFrom_command h actor u : h "Idempotency-Key"%string = uuid_String u -> uuid_String u <> EmptyString ->
  m_CommandID (MetaFrom h actor) = u.
Proof. intros Hk Hne. simpl. rewrite Hk, bool_decide_eq_false_2 by done. by rewrite uuid_Parse_String. Qed.

Lemma MetaFrom_retry h h' actor actor' : h "Idempotency-Key"%string = h' "Idempotency-Key"%string ->
  m_CommandID (MetaFrom h actor) = m_CommandID (MetaFrom h' actor').
Proof. intros E. simpl. by rewrite E. Qed.
End Meta.

(** ** Errors *)

Section Errors.
Context {W : Type} `{ConnectLib}.

Definition InvalidArgument (err : error) : error :=
  let ce := NewError CodeInvalidArgument err in
  match ValidationDetail err with
  | Some (Ok d) => AddDetail ce d
  | _ => ce
  end.

Definition MissingCommand (field : string) : error :=
  NewError CodeInvalidArgument (ErrorsNew ("cmdsvc: " ++ field ++ " is required")).

Definition passOr (code : N) (err : error) : error :=
  match AsConnect err with Some ce => ce | None => NewError code err end.

Definition Unauthenticated (err : error) : error := passOr CodeUnauthenticated err.
Definition PermissionDenied (err : error) : error := passOr CodePermissionDenied err.
Definition Internal (err : error) : error := NewError CodeInternal err.

(** ErrorMapper and Reload; [None] is nil. *)
Definition ErrorMapper : Type := error -> option error.
Definition Reload : Type := SM W (N * option message).

(** The detail of a conflict, after a reload. *)
Definition conflict_detail (err : error) (reload : option Reload) (expected : N) (w : W) : VersionConflict * W :=
  let detail := match AsConflict err with
                | Some (_, e, c) => MkVersionConflict e c None
                | None => MkVersionConflict expected 0 None
                end in
  match reload with
  | None => (detail, w)
  | Some rl =>
      match rl w with
      | (Err _, w) => (detail, w)
      | (Ok (version, state), w) =>
          let any := match state with
                     | None => vc_CurrentState detail
                     | Some m => match anypb_New m with Ok a => Some a | Err _ => vc_CurrentState detail end
                     end in
          (MkVersionConflict (vc_ExpectedVersion detail) version any, w)
      end
  end.

Definition MapError (err : error) (mapper : option ErrorMapper) (reload : option Reload) (expected : N) (w : W) : error * W :=
  match AsConnect err with
  | Some ce => (ce, w)
  | None =>
      if Is err ErrConflict then
        let out := NewError CodeFailedPrecondition err in
        let '(detail, w) := conflict_detail err reload expected w in
        (match NewErrorDetail detail with Ok d => AddDetail out d | Err _ => out end, w)
      else if Is err ErrTerminal then (NewError CodeFailedPrecondition err, w)
      else if Is err ErrConstraintViolated then (NewError CodeAlreadyExists err, w)
      else if Is err ErrInvalidStreamID || Is err ErrDecidedAtMissing || Is err ErrDecidedAtSkew || Is err ErrDecidedAtMismatch
      then (NewError CodeInvalidArgument err, w)
      else if Is err Canceled then (NewError CodeCanceled err, w)
      else if Is err DeadlineExceeded then (NewError CodeDeadlineExceeded err, w)
      else
        match mapper with
        | Some f => match f err with Some ce => (ce, w) | None => (NewError CodeFailedPrecondition err, w) end
        | None => (NewError CodeFailedPrecondition err, w)
        end
  end.

(** The client's side. *)
Fixpoint first_conflict (ds : list (string * list byte)) : option VersionConflict :=
  match ds with
  | [] => None
  | d :: ds' =>
      match detail_Value d with
      | Ok (Some vc) => Some vc
      | _ => first_conflict ds'
      end
  end.

Definition VersionConflictDetail (err : error) : option VersionConflict :=
  match AsConnect err with
  | Some (ConnectError _ ds _) => first_conflict ds
  | _ => None
  end.

(** ** What a client learns *)

(** The code of a Connect error. *)
Definition code_of (e : error) : option N := match e with ConnectError c _ _ => Some c | _ => None end.

(** The table of MapError's documentation: the code of an error's class; [None]
    for an error that is the application's own. *)
Definition class_code (err : error) : option N :=
  if Is err ErrConflict || Is err ErrTerminal then Some CodeFailedPrecondition
  else if Is err ErrConstraintViolated then Some CodeAlreadyExists
  else if existsb (Is err) [ErrInvalidStreamID; ErrDecidedAtMissing; ErrDecidedAtSkew; ErrDecidedAtMismatch] then Some CodeInvalidArgument
  else if Is err Canceled then Some CodeCanceled
  else if Is err DeadlineExceeded then Some CodeDeadlineExceeded
  else None.

Lemma AsConnect_shape e ce : AsConnect e = Some ce -> exists code ds e', ce = ConnectError code ds e'.
Proof.
  induction e as [| | | | | | | | | |? ? ? _|? ? IH|e1 IH1 e2 IH2]; simpl; try done; eauto.
  - intros [= <-]. eauto.
  - destruct (AsConnect e1); [intros [= ->]|]; eauto.
Qed.

(** A conflict's detail is the only one of its error. *)
Lemma MapError_conflict err mapper reload expected w : AsConnect err = None -> Is err ErrConflict = true ->
  MapError err mapper reload expected w =
  (ConnectError CodeFailedPrecondition
     (match NewErrorDetail (conflict_detail err reload expected w).1 with Ok d => [d] | Err _ => [] end) err,
   (conflict_detail err reload expected w).2).
Proof.
  intros Hc Hi. unfold MapError. rewrite Hc, Hi. destruct (conflict_detail err reload expected w) as [vc w']. simpl.
  by destruct (NewErrorDetail vc).
Qed.

Lemma MapError_classified err mapper reload expected w code : AsConnect err = None -> class_code err = Some code ->
  exists ds, (MapError err mapper reload expected w).1 = ConnectError code ds err.
Proof.
  intros Hc. unfold class_code. destruct (Is err ErrConflict) eqn:E0.
  { intros [= <-]. rewrite MapError_conflict by done. eauto. }
  unfold MapError. rewrite Hc, E0. simpl. rewrite orb_false_r, !orb_assoc.
  repeat case_match; intros [= <-]; eexists; reflexivity.
Qed.

Lemma MapError_own err mapper reload expected w : AsConnect err = None -> class_code err = None ->
  MapError err mapper reload expected w = (default (NewError CodeFailedPrecondition err) (mapper ≫= (fun f => f err)), w).
Proof.
  intros Hc. unfold class_code, MapError. rewrite Hc. simpl. rewrite orb_false_r, !orb_assoc.
  destruct (Is err ErrConflict); [done|]. simpl.
  repeat (match goal with |- (if ?b then _ else _) = None -> _ => destruct b; [done|] end).
  intros _. destruct mapper as [f|]; simpl; [by destruct (f err)|done].
Qed.
End Errors.

(** ** Write results *)

(** protoreflect: the singular and repeated fields of a message by name, and the
    values set. *)
Inductive pkind := StringKind | Uint64Kind | OtherKind.
Inductive pvalue := PString (s : string) | PUint64 (n : N).

Record pmessage := MkPmessage { pm_fields : gmap string (pkind * bool); pm_values : gmap string pvalue }.

#[global] Instance pkind_eq_dec : EqDecision pkind.
Proof. solve_decision. Defined.

Definition set_field (name : string) (kind : pkind) (v : pvalue) (m : pmessage) : res unit * pmessage :=
  match pm_fields m !! name with
  | Some (k, is_list) =>
      if bool_decide (k = kind) && negb is_list then (Ok tt, MkPmessage (pm_fields m) (<[name := v]> (pm_values m)))
      else (Err (ErrorsNew "cmdsvc: has no singular field"), m)
  | None => (Err (ErrorsNew "cmdsvc: has no singular field"), m)
  end.

Definition SetWriteResult (sid : StreamID) (version globalPosition : N) : SM pmessage unit :=
  let! _ := set_field "stream_id" StringKind (PString (Canonical sid)) in
  let! _ := set_field "version" Uint64Kind (PUint64 version) in
  set_field "global_position" Uint64Kind (PUint64 globalPosition).

Definition LastGlobalPosition (envs : list Envelope) : N :=
  match last envs with None => 0%N | Some e => GlobalPosition e end.

(** A write result is filled exactly when the message has the three fields. *)
Lemma SetWriteResult_spec sid version gp m r m' : SetWriteResult sid version gp m = (r, m') ->
  (r = Ok tt <-> pm_fields m !! "stream_id"%string = Some (StringKind, false) /\ pm_fields m !! "version"%string = Some (Uint64Kind, false)
                 /\ pm_fields m !! "global_position"%string = Some (Uint64Kind, false))
  /\ (r = Ok tt -> pm_values m' = <["global_position"%string := PUint64 gp]> (<["version"%string := PUint64 version]>
        (<["stream_id"%string := PString (Canonical sid)]> (pm_values m)))).
Proof.
  unfold SetWriteResult, bind, set_field.
  destruct (pm_fields m !! "stream_id"%string) as [[[] []]|] eqn:E1; simpl; try (intros [= <- <-]; split; [split; [done|intros (? & _); congruence]|done]).
  destruct (pm_fields m !! "version"%string) as [[[] []]|] eqn:E2; simpl; try (intros [= <- <-]; split; [split; [done|intros (_ & ? & _); congruence]|done]).
  destruct (pm_fields m !! "global_position"%string) as [[[] []]|] eqn:E3; simpl; intros [= <- <-]; (split; [split; [done|intros (_ & _ & ?); done]|done]).
Qed.

(** ** Properties *)

(** A version conflict reaches the client.  However deep the conflict is
    wrapped, MapError answers failed_precondition with one detail, and the
    client's VersionConflictDetail reads from it, also through further
    wrapping: the version the store's own error says was asserted (the
    request's where the error names none), and the version and state the
    reload returned, or the store's version when there is no reload or it
    fails.  The hypothesis on NewErrorDetail is that the detail serializes. *)
Theorem conflict_reaches_client {W} `{CL : ConnectLib} (err : error) mapper (reload : option (@Reload W CL)) expected w vc d ctx :
  AsConnect err = None -> Is err ErrConflict = true ->
  vc = match AsConflict err, (fun rl => rl w) <$> reload with
       | Some (_, e, _), Some (Ok (v, st), _) => MkVersionConflict e v (st ≫= (fun m => match anypb_New m with Ok a => Some a | Err _ => None end))
       | None, Some (Ok (v, st), _) => MkVersionConflict expected v (st ≫= (fun m => match anypb_New m with Ok a => Some a | Err _ => None end))
       | Some (_, e, c), _ => MkVersionConflict e c None
       | None, _ => MkVersionConflict expected 0 None
       end ->
  NewErrorDetail vc = Ok d ->
  let out := (MapError err mapper reload expected w).1 in
  code_of out = Some CodeFailedPrecondition
  /\ VersionConflictDetail (Errorf ctx out) = Some vc
  /\ Is out ErrConflict = true.
Proof.
  intros Hc Hi Hvc Hd out. subst out. rewrite MapError_conflict by done.
  assert ((conflict_detail err reload expected w).1 = vc) as ->.
  { rewrite Hvc. unfold conflict_detail. destruct (AsConflict err) as [[[? ?] ?]|], reload as [rl|]; simpl; try done;
      destruct (rl w) as [[[? [?|]]|?] ?]; simpl; try done; by case_match. }
  rewrite Hd. simpl. split_and!; [done| |done].
  unfold VersionConflictDetail. simpl. by rewrite (detail_round_trip _ _ Hd).
Qed.

(** A wire form for the details. *)
Definition wire_detail (vc : VersionConflict) : res (string * list byte) :=
  match Byte.of_N (vc_ExpectedVersion vc), Byte.of_N (vc_CurrentVersion vc), vc_CurrentState vc with
  | Some e, Some c, None => Ok ("es.v1.VersionConflict"%string, [e; c])
  | Some e, Some c, Some (url, bs) =>
      match Byte.of_N (N.of_nat (length (bytes_of url))) with
      | Some n => Ok ("es.v1.VersionConflict"%string, e :: c :: n :: bytes_of url ++ bs)
      | None => Err (ErrorsNew "too long")
      end
  | _, _, _ => Err (ErrorsNew "too large")
  end.

Definition wire_value (d : string * list byte) : res (option VersionConflict) :=
  match d.2 with
  | [e; c] => Ok (Some (MkVersionConflict (Byte.to_N e) (Byte.to_N c) None))
  | e :: c :: n :: l =>
      let k := N.to_nat (Byte.to_N n) in
      Ok (Some (MkVersionConflict (Byte.to_N e) (Byte.to_N c) (Some (string_of_list_byte (take k l), drop k l))))
  | _ => Ok None
  end.

Lemma wire_round_trip vc d : wire_detail vc = Ok d -> wire_value d = Ok (Some vc).
Proof.
  destruct vc as [e c [[url bs]|]]; unfold wire_detail; simpl;
    destruct (Byte.of_N e) as [be|] eqn:Ee; try done; destruct (Byte.of_N c) as [bc|] eqn:Ec; try done;
    apply Byte.to_of_N in Ee; apply Byte.to_of_N in Ec.
  - destruct (Byte.of_N (N.of_nat (length (bytes_of url)))) as [n|] eqn:En; [|done]. apply Byte.to_of_N in En.
    intros [= <-]. unfold wire_value. simpl. rewrite En, Nat2N.id, take_app_length, drop_app_length. unfold bytes_of.
    by rewrite string_of_list_byte_of_string, Ee, Ec.
  - intros [= <-]. unfold wire_value. simpl. by rewrite Ee, Ec.
Qed.

#[local] Instance wire_lib : ConnectLib := {
  message := list byte;
  anypb_New := fun m => Ok ("es.counter.v1.State"%string, m);
  NewErrorDetail := wire_detail;
  detail_Value := wire_value;
  ValidationDetail := fun _ => None;
  detail_round_trip := wire_round_trip
}.

(** A handler's wrapped conflict: version 3 was asserted, the store is at 5,
    and the reload finds 6. *)
Lemma conflict_reaches_client_witness :
  let err := Errorf "handle" (ConflictError (MkStreamID "counter" "c1") 3 5) in
  let reload : Reload := fun w : nat => (Ok (6%N, Some [Byte.x2a]), S w) in
  VersionConflictDetail (Errorf "rpc" (MapError err None (Some reload) 0 7).1)
  = Some (MkVersionConflict 3 6 (Some ("es.counter.v1.State"%string, [Byte.x2a]))).
Proof.
  intros err reload.
  refine (proj1 (proj2 (conflict_reaches_client err None (Some reload) 0 7 _ _ "rpc" _ _ _ _))); reflexivity.
Defined.
