(* ===== verification/CommandHandler.v ===== *)
(** * The generated command handlers (src/cmd/protoc-gen-es-lite/service.go)

    What the code emitted for an RPC of a command service does: validate, name
    the stream, take the identity from the request's context, authorize, handle
    the command, answer.  The three RPCs of the counter service
    (src/cmdsvc/example/gen/countersvc/v1/countersvcv1es) are instances.  The
    application's hooks are arguments. *)
From S2P Require Import Prelude Sha256 Es Hash Chain Anchor Timestamp Effect Store Sql Sqlite SqliteCorrect SqliteTheorems HexUuid.
From S2P Require Import Runtime RuntimeCorrect RuntimeSqlite Counter RuntimeClaims Cmdsvc.

(** One RPC: what the emitted method reads from the request, and the hooks of
    Deps at its types.  [Q] is the request message, [K] the command variant,
    [P] the principal message. *)
Record svcMethod (Q K P C W : Type) := MkSvcMethod {
  sm_streamType : string;
  sm_streamID : Q -> string;
  sm_command : Q -> option K;                  (** [None]: the field is unset *)
  sm_commandField : string;
  sm_principal : option (P -> K -> K);         (** the (es.v1.acting_principal) field, if the variant has one *)
  sm_expected : option (K -> N);               (** the (es.v1.expected_version) field *)
  sm_asCommand : K -> C;
  sm_Validate : Q -> option error;
  sm_Authorize : StreamID -> K -> SM W unit
}.
Arguments sm_streamType {Q K P C W} _.
Arguments sm_streamID {Q K P C W} _ _.
Arguments sm_command {Q K P C W} _ _.
Arguments sm_commandField {Q K P C W} _.
Arguments sm_principal {Q K P C W} _.
Arguments sm_expected {Q K P C W} _.
Arguments sm_asCommand {Q K P C W} _ _.
Arguments sm_Validate {Q K P C W} _ _.
Arguments sm_Authorize {Q K P C W} _ _ _.

(** The response message: its result field and its state field. *)
Record Response (S : Type) := MkResponse { rp_Result : pmessage; rp_State : S }.
Arguments rp_Result {S} _.
Arguments rp_State {S} _.

Section Service.
Context {S C E W P : Type} `{SO : StoreOps W} `{RO : RuntimeOps W} `{UL : UuidLib} `{CL : ConnectLib}.
Variable DecisionTime : C -> option time.
Variable StampDecisionTime : C -> time -> C.
Variable NewSHA1 : UUID -> list byte -> UUID.
Variable asMessage : S -> message.                 (** the State as a proto.Message *)
Variable new_result : pmessage.                    (** an empty result message *)

(** Deps: the runtime and the hooks all RPCs share. *)
Record svcDeps := MkSvcDeps {
  sd_Runtime : Runtime S C E;
  sd_Identity : SM W (P * Actor);
  sd_Filter : option (S -> S);
  sd_Errors : option ErrorMapper
}.

Variable d : svcDeps.

Definition svc_filter (state : S) : S := match sd_Filter d with None => state | Some f => f state end.

Definition svc_reload (sid : StreamID) : Reload :=
  let! (state, version) := Load (sd_Runtime d) sid in
  ret (version, Some (asMessage (svc_filter state))).

(** The request's header is [h]. *)
Definition svc_serve {Q K} (m : svcMethod Q K P C W) (h : string -> string) (req : Q) : SM W (Response S) := fun w =>
  match sm_Validate m req with
  | Some err => (Err (InvalidArgument err), w)
  | None =>
  match NewStreamID (sm_streamType m) (sm_streamID m req) with
  | Err err => (Err (InvalidArgument err), w)
  | Ok sid =>
  match sm_command m req with
  | None => (Err (MissingCommand (sm_commandField m)), w)
  | Some cmd =>
  match sd_Identity d w with
  | (Err err, w) => (Err (Unauthenticated err), w)
  | (Ok (principal, actor), w) =>
  let cmd := match sm_principal m with Some set => set principal cmd | None => cmd end in
  match sm_Authorize m sid cmd w with
  | (Err err, w) => (Err (PermissionDenied err), w)
  | (Ok _, w) =>
  let meta := MetaFrom NewSHA1 h actor in
  let expected := match sm_expected m with Some get => get cmd | None => 0%N end in
  match HandleAt DecisionTime StampDecisionTime (sd_Runtime d) sid (sm_asCommand m cmd) meta expected [] w with
  | (Err err, w) => let '(ce, w) := MapError err (sd_Errors d) (Some (svc_reload sid)) expected w in (Err ce, w)
  | (Ok res, w) =>
  match SetWriteResult sid (rs_ToVersion res) (LastGlobalPosition (rs_Envelopes res)) new_result with
  | (Err err, _) => (Err (Internal err), w)
  | (Ok _, result) => (Ok (MkResponse S result (svc_filter (rs_State res))), w)
  end end end end end end end.

(** ** Correctness *)

Section Correct.
Variable rep : W -> list Envelope -> Prop.
Context `{!StoreLaws W rep} `{!RuntimeLaws W rep (snap_ok (sd_Runtime d))}.

(** The hooks leave the log to others. *)
Definition hooks_ok {Q K} (m : svcMethod Q K P C W) : Prop :=
  keeps rep (sd_Identity d) /\ forall sid cmd, keeps rep (sm_Authorize m sid cmd).

(** The command a request stands for, after the identity has been put in. *)
Definition injected {Q K} (m : svcMethod Q K P C W) (principal : P) (cmd : K) : K :=
  match sm_principal m with Some set => set principal cmd | None => cmd end.

Definition asserted {Q K} (m : svcMethod Q K P C W) (cmd : K) : N :=
  match sm_expected m with Some get => get cmd | None => 0%N end.

(** A request reaches the runtime only when it validates, names a valid stream,
    carries a command, and its caller is known and allowed. *)
Definition let_through {Q K} (m : svcMethod Q K P C W) (req : Q) (w : W) (sid : StreamID) (principal : P) (actor : Actor) (cmd : K) (w2 : W) : Prop :=
  sm_Validate m req = None
  /\ NewStreamID (sm_streamType m) (sm_streamID m req) = Ok sid
  /\ (exists sent, sm_command m req = Some sent /\ cmd = injected m principal sent)
  /\ exists w1, sd_Identity d w = (Ok (principal, actor), w1) /\ sm_Authorize m sid cmd w1 = (Ok tt, w2).

Lemma svc_serve_through {Q K} (m : svcMethod Q K P C W) h req w sid principal actor cmd w2 :
  let_through m req w sid principal actor cmd w2 ->
  svc_serve m h req w =
  match HandleAt DecisionTime StampDecisionTime (sd_Runtime d) sid (sm_asCommand m cmd) (MetaFrom NewSHA1 h actor) (asserted m cmd) [] w2 with
  | (Err err, w3) => let '(ce, w4) := MapError err (sd_Errors d) (Some (svc_reload sid)) (asserted m cmd) w3 in (Err ce, w4)
  | (Ok res, w3) =>
      match SetWriteResult sid (rs_ToVersion res) (LastGlobalPosition (rs_Envelopes res)) new_result with
      | (Err err, _) => (Err (Internal err), w3)
      | (Ok _, result) => (Ok (MkResponse S result (svc_filter (rs_State res))), w3)
      end
  end.
Proof.
  intros (Hv & Hs & (sent & Hc & ->) & w1 & Hi & Ha). unfold svc_serve. by rewrite Hv, Hs, Hc, Hi; fold (injected m principal sent); rewrite Ha.
Qed.

(** Everything else is refused before the runtime is called: the log is as the
    hooks left it, and the error is a Connect error. *)
Lemma svc_serve_cases {Q K} (m : svcMethod Q K P C W) h req w r w' L :
  hooks_ok m -> rep w L -> svc_serve m h req w = (r, w') ->
  (exists sid principal actor cmd w2, let_through m req w sid principal actor cmd w2)
  \/ exists code ds e, r = Err (ConnectError code ds e) /\ exists L', L `prefix_of` L' /\ rep w' L'.
Proof.
  intros [Hid Hau] Hrep Hr. unfold svc_serve in Hr.
  assert (forall e, exists ds, InvalidArgument e = ConnectError CodeInvalidArgument ds e) as Hinv.
  { intros e. unfold InvalidArgument. destruct (ValidationDetail e) as [[]|]; simpl; eauto. }
  assert (forall code e, exists c ds e', passOr code e = ConnectError c ds e') as Hpass.
  { intros code e. unfold passOr. destruct (AsConnect e) as [ce|] eqn:Hce; [by apply AsConnect_shape in Hce|]. unfold NewError. eauto. }
  destruct (sm_Validate m req) as [e|] eqn:Hv.
  { injection Hr as <- <-. right. destruct (Hinv e) as [ds ->]. eauto 10. }
  destruct (NewStreamID _ _) as [sid|e] eqn:Hs.
  2:{ injection Hr as <- <-. right. destruct (Hinv e) as [ds ->]. eauto 10. }
  destruct (sm_command m req) as [sent|] eqn:Hc.
  2:{ injection Hr as <- <-. right. unfold MissingCommand, NewError. eauto 10. }
  destruct (sd_Identity d w) as [[[principal actor]|e] w1] eqn:Hi.
  2:{ injection Hr as <- <-. right. destruct (Hpass CodeUnauthenticated e) as (c & ds & e' & Ep).
      exists c, ds, e'. split; [by rewrite <- Ep|by eapply Hid]. }
  fold (injected m principal sent) in Hr. destruct (Hid _ _ _ _ Hrep Hi) as (L1 & HP1 & Hrep1).
  destruct (sm_Authorize m sid (injected m principal sent) w1) as [[[]|e] w2] eqn:Ha.
  - left. exists sid, principal, actor, (injected m principal sent), w2. split_and!; [done..|eauto|eauto].
  - injection Hr as <- <-. right. destruct (Hpass CodePermissionDenied e) as (c & ds & e' & Ep).
    destruct (Hau _ _ _ _ _ _ Hrep1 Ha) as (L2 & HP2 & Hrep2). exists c, ds, e'. split; [by rewrite <- Ep|].
    exists L2. split; [by etransitivity|done].
Qed.
End Correct.
End Service.
Arguments svcDeps : clear implicits.

(** ** The counter service *)

(** counter.v1.Increment with its service fields; counter.v1.Principal is [P]. *)
Record IncrementMsg (P : Type) := MkIncrementMsg { im_By : Z; im_Actor : option P; im_ExpectedVersion : N }.
Arguments MkIncrementMsg {P} _ _ _.
Arguments im_By {P} _.
Arguments im_ExpectedVersion {P} _.

(** InitRequest, IncrementRequest and CloseRequest: counter_id and command. *)
Record CounterRequest (K : Type) := MkCounterRequest { cq_CounterId : string; cq_Command : option K }.
Arguments MkCounterRequest {K} _ _.
Arguments cq_CounterId {K} _.
Arguments cq_Command {K} _.

Section CounterService.
Context {P W : Type}.

Definition rpc_Init (validate : CounterRequest (Z * Z * Z) -> option error) (authorize : StreamID -> Z * Z * Z -> SM W unit) :
    svcMethod (CounterRequest (Z * Z * Z)) (Z * Z * Z) P Command W :=
  MkSvcMethod _ _ _ _ _ "counter" cq_CounterId cq_Command "command" None None (fun '(mn, mx, i) => Init mn mx i) validate authorize.

Definition rpc_Increment (validate : CounterRequest (IncrementMsg P) -> option error) (authorize : StreamID -> IncrementMsg P -> SM W unit) :
    svcMethod (CounterRequest (IncrementMsg P)) (IncrementMsg P) P Command W :=
  MkSvcMethod _ _ _ _ _ "counter" cq_CounterId cq_Command "command"
    (Some (fun principal cmd => MkIncrementMsg (im_By cmd) (Some principal) (im_ExpectedVersion cmd))) (Some im_ExpectedVersion)
    (fun cmd => Increment (im_By cmd)) validate authorize.

Definition rpc_Close (validate : CounterRequest (option time) -> option error) (authorize : StreamID -> option time -> SM W unit) :
    svcMethod (CounterRequest (option time)) (option time) P Command W :=
  MkSvcMethod _ _ _ _ _ "counter" cq_CounterId cq_Command "command" None None Close validate authorize.
End CounterService.

(** WriteResult. *)
Definition new_WriteResult : pmessage :=
  MkPmessage {["stream_id"%string := (StringKind, false); "version"%string := (Uint64Kind, false); "global_position"%string := (Uint64Kind, false)]} ∅.

(** ** Properties *)

(** C8: what a response means.  A request answered without an error passed
    validation, named a valid stream and carried a command; the principal the
    runtime saw in the command is the identity's, whatever the client sent,
    and the authorizer had allowed exactly that command; the command was
    decided on the whole stream, which was still the same when its events were
    appended; the response holds the filtered resulting state, the stream, its
    version and the position of the last event. *)
Theorem served_command {S C E W P Q K} `{SO : StoreOps W} `{RO : RuntimeOps W} `{UL : UuidLib} `{CL : ConnectLib}
    (DecisionTime : C -> option time) (StampDecisionTime : C -> time -> C) NewSHA1 asMessage (d : svcDeps S C E W P)
    (rep : W -> list Envelope -> Prop) `{!StoreLaws W rep} `{!RuntimeLaws W rep (snap_ok (sd_Runtime d))}
    (m : svcMethod Q K P C W) h req w L resp w' :
  codec_ok (sd_Runtime d) -> state_codec_ok (sd_Runtime d) -> hooks_ok d rep m -> rep w L ->
  svc_serve DecisionTime StampDecisionTime NewSHA1 asMessage new_WriteResult d m h req w = (Ok resp, w') ->
  exists sid principal actor sent w1 w2 now cmd' L1 L2 L' x,
    sm_Validate m req = None /\ NewStreamID (sm_streamType m) (sm_streamID m req) = Ok sid /\ sm_command m req = Some sent
    /\ sd_Identity d w = (Ok (principal, actor), w1) /\ sm_Authorize m sid (injected m principal sent) w1 = (Ok tt, w2)
    /\ check_decided_at DecisionTime StampDecisionTime (sm_asCommand m (injected m principal sent)) now = Ok cmd'
    /\ L `prefix_of` L1 /\ L1 `prefix_of` L2 /\ (L2 ++ rs_Envelopes x) `prefix_of` L' /\ rep w' L'
    /\ handled (sd_Runtime d) sid cmd' (asserted m (injected m principal sent)) L1 L2 x
    /\ rp_State resp = svc_filter d (rs_State x)
    /\ pm_values (rp_Result resp) !! "stream_id"%string = Some (PString (Canonical sid))
    /\ pm_values (rp_Result resp) !! "version"%string = Some (PUint64 (N.of_nat (length (stream_of sid L2 ++ rs_Envelopes x))))
    /\ pm_values (rp_Result resp) !! "global_position"%string = Some (PUint64 (LastGlobalPosition (rs_Envelopes x))).
Proof.
  intros Hc Hs Hh Hrep HS.
  destruct (svc_serve_cases DecisionTime StampDecisionTime NewSHA1 asMessage new_WriteResult d rep m h req w (Ok resp) w' L Hh Hrep HS)
    as [(sid & principal & actor & cmd & w2 & Ha)|(? & ? & ? & ? & _)]; [|done].
  rewrite (svc_serve_through _ _ _ _ _ _ _ _ _ _ _ _ _ _ _ Ha) in HS. destruct Ha as (Hv & Hsid & (sent & Hcmd & ->) & w1 & Hi & Hau).
  destruct Hh as [Hid Hauth]. destruct (Hid _ _ _ _ Hrep Hi) as (La & HPa & Hrepa). destruct (Hauth _ _ _ _ _ _ Hrepa Hau) as (Lb & HPb & Hrepb).
  destruct (HandleAt _ _ _ _ _ _ _ _ w2) as [[x|err] w3] eqn:HH; [|by destruct (MapError _ _ _ _ _)].
  destruct (HandleAt_Ok DecisionTime StampDecisionTime (sd_Runtime d) rep Hc Hs _ _ _ _ _ _ _ _ Hrepb HH)
    as (now & cmd' & L1 & L2 & L' & Hd & HP1 & HP2 & HP3 & Hr & Hhd).
  destruct (SetWriteResult _ _ _ _) as [rr result] eqn:HW. destruct (SetWriteResult_spec _ _ _ _ _ _ HW) as [_ Hvals].
  destruct rr as [[]|]; [|done]. injection HS as <- <-. specialize (Hvals (eq_refl _)).
  assert (rs_ToVersion x = N.of_nat (length (stream_of sid L2 ++ rs_Envelopes x))) as Hto by (by destruct Hhd as (? & ? & ? & ? & ? & ? & ? & ? & ? & _)).
  exists sid, principal, actor, sent, w1, w2, now, cmd', L1, L2, L', x. split_and!; try done.
  - by do 2 (etransitivity; [eassumption|]).
  - simpl. rewrite Hvals. by simplify_map_eq.
  - simpl. rewrite Hvals, <- Hto. by simplify_map_eq.
  - simpl. rewrite Hvals. by simplify_map_eq.
Qed.

(** ** A run: the counter service over SQLite with a concurrent writer *)

#[local] Existing Instance calm_env.
#[local] Existing Instance HexUuid.
#[local] Existing Instance wire_lib.
#[local] Existing Instance sqlite_runtime_ops.

Definition counter_message (s : Counter) : list byte := match encode_state s with Ok b => b | Err _ => [] end.

(** The caller is alice; her commands may only increment by less than ten. *)
Definition alice_deps : svcDeps Counter Command Event shared string :=
  MkSvcDeps counter_runtime (ret ("alice"%string, MkActor "user" "alice")) None None.

Definition small_steps : svcMethod (CounterRequest (IncrementMsg string)) (IncrementMsg string) string Command shared :=
  rpc_Increment (fun _ => None) (fun _ cmd => if (im_By cmd <? 10)%Z then ret tt else throw (ErrorsNew "too much")).

Definition serve_increment (req : CounterRequest (IncrementMsg string)) : SM shared (Response Counter) :=
  @svc_serve Counter Command Event shared string (sqlite_store 0) sqlite_runtime_ops HexUuid wire_lib
    (fun _ => None) (fun c _ => c) (fun ns _ => ns) counter_message new_WriteResult alice_deps _ _ small_steps (fun _ => EmptyString) req.

Lemma small_steps_ok : hooks_ok alice_deps (shared_rep 0 counter_runtime) small_steps.
Proof. split; [apply keeps_ret|]. intros sid cmd. simpl. case_match; [apply keeps_ret|apply keeps_throw]. Qed.

Definition increment_by_two : CounterRequest (IncrementMsg string) := MkCounterRequest "main" (Some (MkIncrementMsg 2 (Some "mallory"%string) 0)).

Lemma served_command_witness :
  exists resp, fst (serve_increment increment_by_two start) = Ok resp
    /\ ct_Count (rp_State resp) = 8%Z
    /\ exists L1 L2 x, handled counter_runtime main_sid (Increment 2) 0 L1 L2 x /\ rp_State resp = rs_State x.
Proof.
  destruct (serve_increment increment_by_two start) as [[resp|e] w'] eqn:HS.
  - exists resp. split; [done|]. split.
    { assert (match fst (serve_increment increment_by_two start) with Ok r => ct_Count (rp_State r) | Err _ => 0%Z end = 8%Z) as HC by (by vm_compute).
      rewrite HS in HC. exact HC. }
    unfold serve_increment in HS.
    destruct (@served_command Counter Command Event shared string _ _ (sqlite_store 0) sqlite_runtime_ops HexUuid wire_lib (fun _ => None) (fun c _ => c)
      (fun ns _ => ns) counter_message alice_deps
      (shared_rep 0 counter_runtime) (sqlite_store_laws 0 counter_runtime calm_clock_ok calm_clock_mono calm_driver_faults)
      (sqlite_runtime_laws 0 counter_runtime calm_clock_ok) small_steps (fun _ => EmptyString) increment_by_two start [] resp w'
      counter_codec_ok counter_state_codec_ok small_steps_ok (start_rep counter_runtime) HS)
      as (sid & principal & actor & sent & w1 & w2 & now & cmd' & L1 & L2 & L' & x & _ & Hsid & Hsent & Hid & _ & Hd & _ & _ & _ & _ & Hh & Hst & _).
    injection Hsent as <-. injection Hd as <-. change (NewStreamID "counter" "main" = Ok sid) in Hsid.
    assert (sid = main_sid) as -> by (apply Ok_inj; rewrite <- Hsid; by vm_compute).
    exists L1, L2, x. split; [exact Hh|exact Hst].
  - exfalso. assert (is_ok (fst (serve_increment increment_by_two start)) = true) as HC by (by vm_compute). rewrite HS in HC. discriminate.
Defined.

(** C38: a stale client learns where the stream is.  Let an admitted request
    assert a nonzero version, and let the runtime's load (at one instant) find
    the stream at another one.  Then, when the reload for the error succeeds and
    the detail can be packed, the call fails with FailedPrecondition and the
    client's VersionConflictDetail holds the version the request asserted and
    the number of events and the filtered fold of the stream at one later
    instant; nothing is decided or appended. *)
Theorem conflict_reports_current {S C E W P Q K} `{SO : StoreOps W} `{RO : RuntimeOps W} `{UL : UuidLib} `{CL : ConnectLib}
    (DecisionTime : C -> option time) (StampDecisionTime : C -> time -> C) NewSHA1 asMessage (d : svcDeps S C E W P)
    (rep : W -> list Envelope -> Prop) `{!StoreLaws W rep} `{!RuntimeLaws W rep (snap_ok (sd_Runtime d))}
    (m : svcMethod Q K P C W) h req w L sid principal actor cmd w2 wi s0 v0 w3 s v w4 detail :
  hooks_ok d rep m -> rep w L -> let_through d m req w sid principal actor cmd w2 ->
  handle_entry DecisionTime StampDecisionTime (sm_asCommand m cmd) (MetaFrom NewSHA1 h actor) w2 = Some wi ->
  load (sd_Runtime d) sid 0 None wi = (Ok (s0, v0), w3) -> asserted m cmd <> 0%N -> v0 <> asserted m cmd ->
  Load (sd_Runtime d) sid w3 = (Ok (s, v), w4) ->
  let vc := MkVersionConflict (asserted m cmd) v
              (match anypb_New (asMessage (svc_filter d s)) with Ok a => Some a | Err _ => None end) in
  NewErrorDetail vc = Ok detail ->
  exists out L3 L4, svc_serve DecisionTime StampDecisionTime NewSHA1 asMessage new_WriteResult d m h req w = (Err out, w4)
    /\ code_of out = Some CodeFailedPrecondition /\ VersionConflictDetail out = Some vc
    /\ L `prefix_of` L3 /\ v0 = N.of_nat (length (stream_of sid L3))
    /\ L3 `prefix_of` L4 /\ v = N.of_nat (length (stream_of sid L4)) /\ replay_all (sd_Runtime d) (stream_of sid L4) = Ok s.
Proof.
  intros [Hid Hauth] Hrep Ha Hent HL0 Hz Hne HL vc Hdt.
  pose proof Ha as (_ & _ & _ & w1 & Hi & Hau).
  destruct (Hid _ _ _ _ Hrep Hi) as (La & HPa & Hrepa). destruct (Hauth _ _ _ _ _ _ Hrepa Hau) as (Lb & HPb & Hrepb).
  destruct (handle_entry_keeps DecisionTime StampDecisionTime (sd_Runtime d) rep _ _ _ _ _ Hrepb Hent) as (Lc & HPc & Hrepc).
  destruct (load_spec (sd_Runtime d) rep _ _ _ _ _ _ Hrepc HL0) as (L3 & Ld & HP3 & HPd & Hrepd & _ & Hv0 & _).
  destruct (load_spec (sd_Runtime d) rep _ _ _ _ _ _ Hrepd HL) as (L4 & Le & HP4 & _ & _ & _ & Hlen & Hrp).
  rewrite (svc_serve_through _ _ _ _ _ _ _ _ _ _ _ _ _ _ _ Ha),
    (HandleAt_stale DecisionTime StampDecisionTime (sd_Runtime d) sid _ _ _ _ _ _ _ _ _ Hent HL0 Hz Hne), MapError_conflict by done.
  assert (conflict_detail (ConflictError sid (asserted m cmd) v0) (Some (svc_reload asMessage d sid)) (asserted m cmd) w3 = (vc, w4)) as ->.
  { unfold conflict_detail, svc_reload, bind, vc. rewrite HL. simpl. by destruct (anypb_New _). }
  simpl. rewrite Hdt. eexists _, L3, L4. split_and!; try done.
  - unfold VersionConflictDetail. simpl. by rewrite (detail_round_trip _ _ Hdt).
  - do 3 (etrans; [eassumption|]). done.
  - by etrans.
Qed.

(** Version 9 is asserted; the load finds 1 event, the reload 2. *)
Definition stale_increment : CounterRequest (IncrementMsg string) := MkCounterRequest "main" (Some (MkIncrementMsg 2 None 9)).

Definition alice_meta : Meta := @MetaFrom HexUuid (fun ns _ => ns) (fun _ => EmptyString) (MkActor "user" "alice").

Definition entered_stale : option shared :=
  @handle_entry Command shared sqlite_runtime_ops (fun _ => None) (fun c _ => c) (Increment 2) alice_meta start.

Definition load_stale : res (Counter * N) * shared :=
  @load Counter Command Event shared (sqlite_store 0) sqlite_runtime_ops counter_runtime main_sid 0 None (default start entered_stale).

Definition reload_stale : res (Counter * N) * shared :=
  @Load Counter Command Event shared (sqlite_store 0) sqlite_runtime_ops counter_runtime main_sid load_stale.2.

Definition version_of (r : res (Counter * N)) : option N := match r with Ok (_, v) => Some v | Err _ => None end.

Lemma stale_through :
  let_through alice_deps small_steps stale_increment start main_sid "alice"%string (MkActor "user" "alice") (MkIncrementMsg 2 (Some "alice"%string) 9) start.
Proof. split; [done|]. split; [by vm_compute|]. split; [by eexists|]. by exists start. Qed.

Lemma conflict_reports_current_witness :
  exists out vc L4, fst (serve_increment stale_increment start) = Err out /\ VersionConflictDetail out = Some vc
    /\ vc_ExpectedVersion vc = 9%N /\ vc_CurrentVersion vc = 2%N /\ length (stream_of main_sid L4) = 2%nat.
Proof.
  assert (version_of load_stale.1 = Some 1%N /\ version_of reload_stale.1 = Some 2%N
    /\ match entered_stale with Some _ => true | None => false end = true) as (V0 & V & VE) by (vm_compute; repeat split).
  unfold reload_stale in V. unfold load_stale in V0, V.
  destruct entered_stale as [wi|] eqn:Hent; [|discriminate VE]. clear VE.
  unfold default, id in V0, V.
  destruct (@load Counter Command Event shared (sqlite_store 0) sqlite_runtime_ops counter_runtime main_sid 0 None wi)
    as [[[s0 v0]|e] w3] eqn:HL0; [|discriminate V0].
  unfold snd in V.
  destruct (@Load Counter Command Event shared (sqlite_store 0) sqlite_runtime_ops counter_runtime main_sid w3) as [[[s v]|e] w4] eqn:HL;
    [|discriminate V].
  unfold fst, version_of in V0, V. injection V0 as ->. injection V as ->.
  destruct (@conflict_reports_current Counter Command Event shared string _ _ (sqlite_store 0) sqlite_runtime_ops HexUuid wire_lib (fun _ => None) (fun c _ => c)
    (fun ns _ => ns) counter_message alice_deps (shared_rep 0 counter_runtime)
    (sqlite_store_laws 0 counter_runtime calm_clock_ok calm_clock_mono calm_driver_faults) (sqlite_runtime_laws 0 counter_runtime calm_clock_ok)
    small_steps (fun _ => EmptyString) stale_increment start [] main_sid _ _ _ start wi s0 1%N w3 s 2%N w4
    ("es.v1.VersionConflict"%string, Byte.x09 :: Byte.x02 :: Byte.x13 :: bytes_of "es.counter.v1.State" ++ counter_message s)
    small_steps_ok (start_rep counter_runtime) stale_through Hent HL0 ltac:(done) ltac:(done) HL (eq_refl _))
    as (out & L3 & L4 & HS & _ & Hd & _ & _ & _ & Hlen & _).
  eexists out, _, L4. split; [exact (f_equal fst HS)|]. split; [exact Hd|]. split; [done|]. split; [done|]. lia.
Defined.
