(* ===== verification/CounterConnect.v ===== *)
(** * The counter service over HTTP

    src/cmdsvc/example/gen/countersvc/v1/countersvcv1connect/counter_service.connect.go:
    the procedure names, the client, the HTTP handler and its switch on the
    request's path, and the unimplemented service.  connect-go and the HTTP
    server are a parameter ([ConnectRuntime]) with what the code relies on: a
    client whose requests reach a unary handler gets what the handler's function
    returns, errors as connect sends them. *)
From S2P Require Import Prelude Es Effect Cmdsvc.

(** proto.Marshal and proto.Unmarshal of a message type. *)
Class ProtoMessage (A : Type) := {
  proto_Marshal : A -> list byte;
  proto_Unmarshal : list byte -> option A;
  proto_round_trip : forall x, proto_Unmarshal (proto_Marshal x) = Some x
}.

Section Connect.
Context {W : Type}.

(** A function's error, as [over_wire] makes it arrive at the client. *)
Definition through {R} (over_wire : error -> error) (m : SM W R) : SM W R := fun w =>
  match m w with (Ok x, w') => (Ok x, w') | (Err e, w') => (Err (over_wire e), w') end.

Class ConnectRuntime := {
  HttpBody : Type;
  HttpReply : Type;
  http_NotFound : HttpBody -> SM W HttpReply;
  NewUnaryHandler : forall Q R `{ProtoMessage Q} `{ProtoMessage R}, string -> (Q -> SM W R) -> HttpBody -> SM W HttpReply;
  (** connect.NewClient's CallUnary, over an HTTP client that posts to a URL *)
  NewClient : forall Q R `{ProtoMessage Q} `{ProtoMessage R}, (string -> HttpBody -> SM W HttpReply) -> string -> Q -> SM W R;
  over_wire : error -> error;
  unary_round_trip : forall Q R `{ProtoMessage Q} `{ProtoMessage R} httpClient url procedure (f : Q -> SM W R) q w,
    (forall b, httpClient url b = NewUnaryHandler Q R procedure f b) ->
    NewClient Q R httpClient url q w = through over_wire (f q) w
}.
End Connect.
Arguments ConnectRuntime : clear implicits.

(** ** The service *)

Definition CounterCommandServiceName : string := "countersvc.v1.CounterCommandService".
Definition CounterCommandServiceInitProcedure : string := "/countersvc.v1.CounterCommandService/Init".
Definition CounterCommandServiceIncrementProcedure : string := "/countersvc.v1.CounterCommandService/Increment".
Definition CounterCommandServiceCloseProcedure : string := "/countersvc.v1.CounterCommandService/Close".

Definition CodeUnimplemented : N := 12.

(** strings.TrimRight(s, "/"). *)
Fixpoint TrimRight (s : string) : string :=
  match s with
  | EmptyString => EmptyString
  | String c s' =>
      let t := TrimRight s' in
      if bool_decide (c = "/"%char) && bool_decide (t = EmptyString) then EmptyString else String c t
  end.

Section Service.
Context {W : Type} `{CR : ConnectRuntime W}.
Context {InitRequest InitResponse IncrementRequest IncrementResponse CloseRequest CloseResponse : Type}.
Context `{ProtoMessage InitRequest} `{ProtoMessage InitResponse} `{ProtoMessage IncrementRequest} `{ProtoMessage IncrementResponse}.
Context `{ProtoMessage CloseRequest} `{ProtoMessage CloseResponse}.

(** The interface of the service, which its clients and handlers have. *)
Record CounterCommandService := MkCounterCommandService {
  svc_Init : InitRequest -> SM W InitResponse;
  svc_Increment : IncrementRequest -> SM W IncrementResponse;
  svc_Close : CloseRequest -> SM W CloseResponse
}.

Definition NewCounterCommandServiceClient (httpClient : string -> HttpBody -> SM W HttpReply) (baseURL : string) : CounterCommandService :=
  let baseURL := TrimRight baseURL in
  MkCounterCommandService
    (NewClient _ _ httpClient (baseURL ++ CounterCommandServiceInitProcedure)%string)
    (NewClient _ _ httpClient (baseURL ++ CounterCommandServiceIncrementProcedure)%string)
    (NewClient _ _ httpClient (baseURL ++ CounterCommandServiceCloseProcedure)%string).

(** The path to mount the handler on, and the handler on a request's path. *)
Definition NewCounterCommandServiceHandler (svc : CounterCommandService) : string * (string -> HttpBody -> SM W HttpReply) :=
  ("/countersvc.v1.CounterCommandService/"%string, fun path b =>
     if bool_decide (path = CounterCommandServiceInitProcedure)
     then NewUnaryHandler _ _ CounterCommandServiceInitProcedure (svc_Init svc) b
     else if bool_decide (path = CounterCommandServiceIncrementProcedure)
     then NewUnaryHandler _ _ CounterCommandServiceIncrementProcedure (svc_Increment svc) b
     else if bool_decide (path = CounterCommandServiceCloseProcedure)
     then NewUnaryHandler _ _ CounterCommandServiceCloseProcedure (svc_Close svc) b
     else http_NotFound b).

(** UnimplementedCounterCommandServiceHandler. *)
Definition unimplemented {A} (rpc : string) : SM W A :=
  throw (ConnectError CodeUnimplemented [] (ErrorsNew ("countersvc.v1.CounterCommandService." ++ rpc ++ " is not implemented"))).

Definition UnimplementedCounterCommandServiceHandler : CounterCommandService :=
  MkCounterCommandService (fun _ => unimplemented "Init") (fun _ => unimplemented "Increment") (fun _ => unimplemented "Close").

(** A service mounted at [base]: what an HTTP client posts to a URL under it goes
    to the handler with the rest of the URL as its path. *)
Definition mounted (httpClient : string -> HttpBody -> SM W HttpReply) (base : string) (svc : CounterCommandService) : Prop :=
  forall path b, httpClient (TrimRight base ++ path)%string b = (NewCounterCommandServiceHandler svc).2 path b.

(** The generated client reaches the implementation: each RPC runs the method of
    its name, whatever slashes the base URL ends in. *)
Lemma client_reaches_service httpClient base svc : mounted httpClient base svc ->
  let client := NewCounterCommandServiceClient httpClient base in
  (forall q w, svc_Init client q w = through over_wire (svc_Init svc q) w)
  /\ (forall q w, svc_Increment client q w = through over_wire (svc_Increment svc q) w)
  /\ (forall q w, svc_Close client q w = through over_wire (svc_Close svc q) w).
Proof.
  intros HM. split; [|split]; intros q w; eapply unary_round_trip; intros b; rewrite HM; cbn [snd NewCounterCommandServiceHandler];
    repeat (rewrite bool_decide_eq_true_2 by done || rewrite bool_decide_eq_false_2 by done); done.
Qed.

(** Any other path is not found, and every procedure is under the mount path. *)
Lemma handler_paths svc path b :
  path ∉ [CounterCommandServiceInitProcedure; CounterCommandServiceIncrementProcedure; CounterCommandServiceCloseProcedure] ->
  (NewCounterCommandServiceHandler svc).2 path b = http_NotFound b.
Proof. intros Hp. cbn [snd NewCounterCommandServiceHandler]. rewrite !bool_decide_eq_false_2 by set_solver. done. Qed.
End Service.

(** ** A runtime in one process *)

Section Local.
Context {W : Type}.

(** Requests and replies as bytes; a failed call carries its error. *)
Definition local_handler Q R `{ProtoMessage Q} `{ProtoMessage R} (_ : string) (f : Q -> SM W R) (b : list byte) : SM W (list byte) :=
  match proto_Unmarshal b with
  | Some q => let! x := f q in ret (proto_Marshal x)
  | None => throw (ErrorsNew "malformed request")
  end.

Definition local_client Q R `{ProtoMessage Q} `{ProtoMessage R} (httpClient : string -> list byte -> SM W (list byte)) (url : string) (q : Q) : SM W R :=
  let! b := httpClient url (proto_Marshal q) in
  match proto_Unmarshal b with Some x => ret x | None => throw (ErrorsNew "malformed reply") end.

#[local] Program Instance local_runtime : ConnectRuntime W := {
  HttpBody := list byte; HttpReply := list byte; http_NotFound := fun _ => throw (ErrorsNew "404 page not found");
  NewUnaryHandler := fun Q R HQ HR => @local_handler Q R HQ HR; NewClient := fun Q R HQ HR => @local_client Q R HQ HR; over_wire := id }.
Next Obligation.
  intros Q R HQ HR httpClient url procedure f q w Hb. cbn. unfold local_client, local_handler in *. unfold bind at 1. rewrite Hb.
  rewrite proto_round_trip. unfold through, bind, ret. destruct (f q w) as [[x|e] w']; [|done]. cbn. by rewrite proto_round_trip.
Qed.
End Local.
