(* ===== verification/GoText.v ===== *)
(** * Text the program prints (fmt, strconv) and the texts of the feed's errors

    fmt's %q and %d as the program uses them, a reader that inverts %q, and the
    Error methods of src/feed/errors.go.  Strings are sequences of bytes; a byte
    from 0x80 on is taken as part of a printable rune, which %q leaves alone. *)
From stdpp Require Import pretty.
From S2P Require Import Prelude Es.

(** ** strconv.Quote *)

Definition DQUOTE : ascii := "034".
Definition BACKSLASH : ascii := "\".

Definition dquote : string := String DQUOTE EmptyString.

(** What follows the backslash, for a control character with an escape of its own. *)
Definition short_escape (c : ascii) : option ascii :=
  match Ascii.N_of_ascii c with
  | 7 => Some "a"%char | 8 => Some "b"%char | 9 => Some "t"%char | 10 => Some "n"%char
  | 11 => Some "v"%char | 12 => Some "f"%char | 13 => Some "r"%char
  | _ => None
  end%N.

Definition is_control (c : ascii) : bool := (Ascii.N_of_ascii c <? 32)%N || (Ascii.N_of_ascii c =? 127)%N.

(** One rune, before [r]. *)
Definition quote_char (c : ascii) (r : string) : string :=
  if bool_decide (c = DQUOTE) || bool_decide (c = BACKSLASH) then String BACKSLASH (String c r) else
  match short_escape c with
  | Some e => String BACKSLASH (String e r)
  | None =>
      if is_control c then String BACKSLASH (String "x" (hex_byte (byte_of_ascii c) r))
      else String c r
  end.

Fixpoint quote_body (s : string) (r : string) : string :=
  match s with EmptyString => r | String c s' => quote_char c (quote_body s' r) end.

(** fmt.Sprintf("%q", s). *)
Definition Quote (s : string) : string := String DQUOTE (quote_body s dquote).

(** ** Reading it back *)

Definition long_escape (e : ascii) : option ascii :=
  match e with
  | "a" => Some "007" | "b" => Some "008" | "t" => Some "009" | "n" => Some "010"
  | "v" => Some "011" | "f" => Some "012" | "r" => Some "013"
  | _ => if bool_decide (e = DQUOTE) || bool_decide (e = BACKSLASH) then Some e else None
  end%char.

(** The text up to the closing quote, and what follows it. *)
Fixpoint unquote_body (s : string) : option (string * string) :=
  match s with
  | EmptyString => None
  | String c s' =>
      if bool_decide (c = DQUOTE) then Some (EmptyString, s') else
      if bool_decide (c = BACKSLASH) then
        match s' with
        | String "x" (String h (String l s'')) =>
            match unquote_body s'' with
            | Some (t, r) => Some (String (Ascii.ascii_of_N (16 * hex_value h + hex_value l)) t, r)
            | None => None
            end
        | String e s'' =>
            match long_escape e, unquote_body s'' with
            | Some c, Some (t, r) => Some (String c t, r)
            | _, _ => None
            end
        | EmptyString => None
        end
      else match unquote_body s' with Some (t, r) => Some (String c t, r) | None => None end
  end.

(** A quoted string at the beginning of a text. *)
Definition Unquote (s : string) : option (string * string) :=
  match s with
  | String c s' => if bool_decide (c = DQUOTE) then unquote_body s' else None
  | EmptyString => None
  end.

(** One quoted rune reads back, whatever follows: by cases on the byte. *)
Lemma unquote_char c r t u : unquote_body r = Some (t, u) -> unquote_body (quote_char c r) = Some (String c t, u).
Proof.
  intros H. destruct c as [[] [] [] [] [] [] [] []];
    (match goal with |- context [quote_char ?c r] => let x := eval lazy in (quote_char c r) in change (quote_char c r) with x end); cbn; by rewrite H.
Qed.

Lemma quote_char_app c r u : (quote_char c r ++ u)%string = quote_char c (r ++ u).
Proof. unfold quote_char. by repeat case_match. Qed.

Lemma quote_body_app s : forall r u, (quote_body s r ++ u)%string = quote_body s (r ++ u).
Proof. induction s as [|c s IH]; intros r u; [done|]. cbn. by rewrite quote_char_app, IH. Qed.

Lemma unquote_quote_body s : forall u, unquote_body (quote_body s (dquote ++ u)) = Some (s, u).
Proof. induction s as [|c s IH]; intros u; [done|]. cbn [quote_body]. by apply unquote_char. Qed.

(** A quoted string can be read off the front of any text. *)
Lemma Unquote_Quote s u : Unquote (Quote s ++ u) = Some (s, u).
Proof. change (unquote_body (quote_body s dquote ++ u) = Some (s, u)). by rewrite quote_body_app, unquote_quote_body. Qed.

(** No two texts start with quoted strings that differ. *)
Lemma Quote_app_inj s1 s2 u1 u2 : (Quote s1 ++ u1)%string = (Quote s2 ++ u2)%string -> s1 = s2 /\ u1 = u2.
Proof. intros H%(f_equal Unquote). rewrite !Unquote_Quote in H. by injection H. Qed.

(** ** feed/errors.go *)

(** The sentinels' texts. *)
Definition sentinel_text (s : sentinel) : option string :=
  match s with
  | ErrInvalidRequest => Some "feed: invalid request"
  | ErrLeaseHeld => Some "feed: subscription is held"
  | ErrLeaseLost => Some "feed: lease lost"
  | ErrDefinitionChanged => Some "feed: projection definition changed"
  | errLeaseExpired => Some "lease expired or was taken over"
  | _ => None
  end%string.

Definition LeaseHeldError_Error (Key : string) (lease : Lease) (Held : bool) : string :=
  if Held && negb (bool_decide (ls_Consumer lease = EmptyString))
  then ("feed: subscription " ++ Quote Key ++ " is held by consumer " ++ Quote (ls_Consumer lease))%string
  else ("feed: subscription " ++ Quote Key ++ " is held")%string.

Definition LeaseHeldError_Is (target : sentinel) : bool := bool_decide (target = ErrLeaseHeld).

(** The cause by its own text; [None] is a nil Err. *)
Definition LeaseLostError_Error (Key Owner : string) (cause : option string) : string :=
  match cause with
  | None => ("feed: lease " ++ Quote Key ++ " for owner " ++ Quote Owner ++ " lost")%string
  | Some text => ("feed: lease " ++ Quote Key ++ " for owner " ++ Quote Owner ++ " lost: " ++ text)%string
  end.

Definition LeaseLostError_Unwrap (cause : option error) : option error := cause.

Definition LeaseLostError_Is (cause : option error) (target : sentinel) : bool :=
  bool_decide (target = ErrLeaseLost) || match cause with Some e => Is e target | None => false end.

Definition EventTooLargeError_Error (Position : N) (TypeURL : string) (Size Limit : Z) : string :=
  ("feed: event at position " ++ pretty Position ++ " of type " ++ Quote TypeURL ++ " is " ++ pretty Size
   ++ " bytes, exceeding the " ++ pretty Limit ++ "-byte limit")%string.

Definition DefinitionChangedError_Error (Projection StoredHash RequestHash : string) : string :=
  ("feed: projection " ++ Quote Projection ++ " changed definition (checkpoint " ++ StoredHash ++ ", request " ++ RequestHash
   ++ "): resume would skip the new types' history below the checkpoint; call ResetCheckpoint with the new definition to re-subscribe")%string.

Definition DefinitionChangedError_Is (target : sentinel) : bool := bool_decide (target = ErrDefinitionChanged).

Definition feed_error_text (e : error) : option string :=
  match e with
  | Sentinel s => sentinel_text s
  | LeaseHeldError k l h => Some (LeaseHeldError_Error k l h)
  | LeaseLostError k o c =>
      match c with Sentinel s => LeaseLostError_Error k o ∘ Some <$> sentinel_text s | _ => None end
  | EventTooLargeError p t s l => Some (EventTooLargeError_Error p t s l)
  | DefinitionChangedError p s r => Some (DefinitionChangedError_Error p s r)
  | _ => None
  end.

(** errors.Is over the typed errors is what their own Is methods (and the
    identity of the value) decide. *)
Lemma feed_Is_methods k o l h c p t s z1 z2 :
  Is (LeaseHeldError k l h) = LeaseHeldError_Is /\ Is (LeaseLostError k o c) = LeaseLostError_Is (LeaseLostError_Unwrap (Some c))
  /\ Is (DefinitionChangedError k o t) = DefinitionChangedError_Is /\ Is (EventTooLargeError p t z1 z2) s = false.
Proof. done. Qed.

(** What a held subscription's message tells a reader: the key always, and the
    consumer when the store still named one. *)
Lemma lease_held_text_inj k1 l1 h1 k2 l2 h2 : LeaseHeldError_Error k1 l1 h1 = LeaseHeldError_Error k2 l2 h2 ->
  k1 = k2 /\ (h1 = true -> ls_Consumer l1 <> EmptyString -> h2 = true /\ ls_Consumer l1 = ls_Consumer l2).
Proof.
  unfold LeaseHeldError_Error. intros H.
  destruct h1, h2; cbn [andb] in H; repeat (case_bool_decide; cbn [negb] in H);
    apply (inj (String.append _)), Quote_app_inj in H as [-> H]; try discriminate H; split; try done.
  intros _ _. split; [done|]. apply (inj (String.append _)) in H.
  apply (Quote_app_inj _ _ EmptyString EmptyString). by rewrite H.
Qed.
