(* ===== verification/Generator.v ===== *)
(** * The code generator's front end (src/cmd/protoc-gen-es-lite)

    protoc-gen-es-lite reads protobuf descriptors, checks the es.v1 options and
    resolves what they name, before it prints anything.  This file models the
    descriptors as the plugin sees them, the resolver (resolve.go), the
    collection of sum types (sumtype.go), projections (projection.go), reactions
    (reaction.go) and command services (service.go), and the names the emitted
    code is built from; [Printer] prints from them.
    Strings are ASCII, as protobuf identifiers are; a reference of one message
    to another is its full name. *)
From S2P Require Import Prelude Es Definitions Cmdsvc.

(** ** Descriptors and options *)

Inductive ProjectionKind := KIND_UNSPECIFIED | KIND_READ_MODEL | KIND_REACTION | KIND_INDEX.
Inductive FetchMode := FETCH_UNSPECIFIED | FETCH_METADATA_ONLY | FETCH_STATE_AS_OF_EVENT_VERSION.
Inductive RebuildMode := REBUILD_UNSPECIFIED | REBUILD_FROM_LOG.

#[global] Instance FetchMode_eq_dec : EqDecision FetchMode.
Proof. solve_decision. Defined.
#[global] Instance RebuildMode_eq_dec : EqDecision RebuildMode.
Proof. solve_decision. Defined.
#[global] Instance ProjectionKind_eq_dec : EqDecision ProjectionKind.
Proof. solve_decision. Defined.

Record ProjectionSpec := MkProjectionSpec {
  pj_Name : string; pj_Kind : ProjectionKind; pj_Consumes : list string; pj_Fetch : FetchMode;
  pj_Rebuild : RebuildMode; pj_OwnerContext : string }.

Record ReactionSpec := MkReactionSpec {
  rc_Name : string; rc_Consumes : list string; rc_Issues : list string; rc_Fetch : FetchMode; rc_OwnerContext : string }.

(** The options of a field that are set to true. *)
Record FieldOptions := MkFieldOptions {
  fo_stream_id : bool; fo_acting_principal : bool; fo_decided_at : bool; fo_expected_version : bool }.

Record Field := MkField {
  fd_Name : string; fd_GoName : string; fd_Kind : pkind; fd_IsList : bool; fd_IsMap : bool;
  fd_Message : option string; fd_Options : FieldOptions }.

(** The (es.v1) extensions of a message; [None] where HasExtension is false. *)
Record MessageOptions := MkMessageOptions {
  mo_sum_type : option string; mo_schema_version : option N; mo_aggregate : option string;
  mo_projection : option ProjectionSpec; mo_reaction : option ReactionSpec }.

(** A Go identifier and the package it is declared in, as protogen assigns them. *)
Record GoIdent := MkGoIdent { gi_GoName : string; gi_GoImportPath : string }.

Record MessageDesc := MkMessageDesc {
  md_FullName : string; md_Package : string; md_GoIdent : GoIdent; md_Options : MessageOptions;
  md_Fields : list Field; md_Oneofs : list (list Field); md_Comment : string }.

Inductive Message := MkMessage (desc : MessageDesc) (nested : list Message).

Definition desc (m : Message) : MessageDesc := match m with MkMessage d _ => d end.
Definition FullName (m : Message) : string := md_FullName (desc m).
Definition GoName (m : Message) : string := gi_GoName (md_GoIdent (desc m)).
Definition Package (m : Message) : string := md_Package (desc m).
Definition Options (m : Message) : MessageOptions := md_Options (desc m).

Record Method := MkMethod {
  me_GoName : string; me_Streaming : bool;
  me_InputIdent : GoIdent; me_Input : list Field; me_OutputIdent : GoIdent; me_Output : list Field }.

Record Service := MkService { sv_FullName : string; sv_GoName : string; sv_CommandService : option string; sv_Methods : list Method }.

Record File := MkFile {
  fi_Path : string; fi_Package : string;
  fi_GoPackageName : string; fi_GoImportPath : string; fi_GeneratedFilenamePrefix : string;
  fi_Generate : bool; fi_Messages : list Message; fi_Services : list Service }.

(** allMessages: nested messages included, in declaration order. *)
Fixpoint flatten (m : Message) : list Message :=
  match m with MkMessage _ nested => m :: flat_map flatten nested end.

Definition allMessages (msgs : list Message) : list Message := flat_map flatten msgs.

(** ** sumtype.go: reading options *)

Definition eventSumType : string := "Event".
Definition commandSumType : string := "Command".
Definition timestampFullName : string := "google.protobuf.Timestamp".

(** The extension has the type string, so reading it cannot fail. *)
Definition sumTypeName (m : Message) : string := default EmptyString (mo_sum_type (Options m)).

Definition schemaVersionOf (m : Message) : N :=
  match mo_schema_version (Options m) with
  | None => 1
  | Some v => if (v =? 0)%N then 1 else v
  end.

Definition hasAggregate (m : Message) : bool := match mo_aggregate (Options m) with Some _ => true | None => false end.

Definition option_error (msg : string) : error := ErrorsNew msg.

(** The fields of decidedAtField, from the one found so far. *)
Fixpoint decided_at_loop (fields : list Field) (found : option Field) : res (option Field) :=
  match fields with
  | [] => Ok found
  | field :: fields' =>
      if negb (fo_decided_at (fd_Options field)) then decided_at_loop fields' found else
      if negb (bool_decide (fd_Message field = Some timestampFullName)) then Err (option_error "(es.v1.decided_at) requires a Timestamp field") else
      if fd_IsList field || fd_IsMap field then Err (option_error "(es.v1.decided_at) must be a singular field") else
      match found with
      | Some _ => Err (option_error "(es.v1.decided_at) set on two fields")
      | None => decided_at_loop fields' (Some field)
      end
  end.

Definition decidedAtField (m : Message) : res (option Field) := decided_at_loop (md_Fields (desc m)) None.

(** ** resolve.go *)

Record sumInfo := MkSumInfo { si_file : File; si_iface : string; si_variants : gset string }.

Record resolver := MkResolver {
  rv_msgs : gmap string Message;
  rv_sums : gmap string sumInfo;
  rv_aggregates : gmap string (list Message);
  rv_commands : gset string }.

Definition empty_resolver : resolver := MkResolver ∅ ∅ ∅ ∅.

Definition sum_key (pkg iface : string) : string := (pkg ++ "/" ++ iface)%string.

Definition index_message (pkg : string) (r : resolver) (m : Message) : resolver :=
  MkResolver (<[FullName m := m]> (rv_msgs r)) (rv_sums r)
    (if hasAggregate m then <[pkg := default [] (rv_aggregates r !! pkg) ++ [m]]> (rv_aggregates r) else rv_aggregates r)
    (rv_commands r).

(** The messages a oneof's fields hold. *)
Definition field_messages (fields : list Field) : list string := omap fd_Message fields.

Definition index_sum (f : File) (r : resolver) (m : Message) : res resolver :=
  let name := sumTypeName m in
  match md_Oneofs (desc m) with
  | [fields] =>
      if bool_decide (name = EmptyString) then Ok r else
      let key := sum_key (fi_Package f) name in
      match rv_sums r !! key with
      | Some _ => Err (option_error "a second (es.v1.sum_type) container")
      | None =>
          let variants := list_to_set (field_messages fields) in
          Ok (MkResolver (rv_msgs r) (<[key := MkSumInfo f name variants]> (rv_sums r)) (rv_aggregates r)
                (if bool_decide (name = commandSumType) then rv_commands r ∪ variants else rv_commands r))
      end
  | _ => Ok r
  end.

Fixpoint index_sums (f : File) (r : resolver) (msgs : list Message) : res resolver :=
  match msgs with
  | [] => Ok r
  | m :: msgs' => let? r := index_sum f r m in index_sums f r msgs'
  end.

Fixpoint index_files (r : resolver) (files : list File) : res resolver :=
  match files with
  | [] => Ok r
  | f :: files' =>
      let r := foldl (index_message (fi_Package f)) r (allMessages (fi_Messages f)) in
      let? r := index_sums f r (fi_Messages f) in
      index_files r files'
  end.

Definition newResolver (files : list File) : res resolver := index_files empty_resolver files.

Record aggregateInfo := MkAggregateInfo { ag_pkg : string; ag_state : Message; ag_streamType : string; ag_sum : sumInfo }.

Definition variant (r : resolver) (fullName iface : string) : res (Message * aggregateInfo) :=
  match rv_msgs r !! fullName with
  | None => Err (option_error "does not resolve to a message in this generation run")
  | Some m =>
      let pkg := Package m in
      match rv_sums r !! sum_key pkg iface with
      | None => Err (option_error "is not a variant")
      | Some sum =>
          if negb (bool_decide (fullName ∈ si_variants sum)) then Err (option_error "is not a variant") else
          match default [] (rv_aggregates r !! pkg) with
          | [agg] =>
              let streamType := default EmptyString (mo_aggregate (Options agg)) in
              if bool_decide (streamType = EmptyString) then Err (option_error "stream_type is empty")
              else Ok (m, MkAggregateInfo pkg agg streamType sum)
          | _ => Err (option_error "package must have exactly one (es.v1.aggregate) message")
          end
      end
  end.

(** aggregateSet. *)
Abbreviation aggregateSet := (gmap string aggregateInfo).

Definition set_add (s : aggregateSet) (a : aggregateInfo) : aggregateSet := <[ag_pkg a := a]> s.

(** The aggregates in package order. *)
Definition set_sorted (s : aggregateSet) : list aggregateInfo :=
  omap (fun pkg => s !! pkg) (sort_strings (map fst (map_to_list s))).

Definition depName (a : aggregateInfo) : string := GoName (ag_state a).

(** commandVariants of main.go, which nothing calls: the same set without the
    rest of the index. *)
Definition container_commands (m : Message) : gset string :=
  match md_Oneofs (desc m) with
  | [fields] => if bool_decide (sumTypeName m = commandSumType) then list_to_set (field_messages fields) else ∅
  | _ => ∅
  end.

Definition commandVariants (files : list File) : gset string :=
  foldl (fun out f => foldl (fun out m => out ∪ container_commands m) out (fi_Messages f)) ∅ files.

(** ** Names *)

Definition is_lower (c : ascii) : bool := (Ascii.leb "a" c && Ascii.leb c "z")%char.
Definition is_upper (c : ascii) : bool := (Ascii.leb "A" c && Ascii.leb c "Z")%char.
Definition is_digit (c : ascii) : bool := (Ascii.leb "0" c && Ascii.leb c "9")%char.

(** unicode.ToUpper and ToLower on ASCII. *)
Definition to_upper (c : ascii) : ascii := if is_lower c then Ascii.ascii_of_N (Ascii.N_of_ascii c - 32) else c.
Definition to_lower (c : ascii) : ascii := if is_upper c then Ascii.ascii_of_N (Ascii.N_of_ascii c + 32) else c.

Fixpoint str_map (f : ascii -> ascii) (s : string) : string :=
  match s with EmptyString => EmptyString | String c s' => String (f c) (str_map f s') end.

Definition subject_char (c : ascii) : bool := is_lower c || is_upper c || is_digit c || bool_decide (c = "-"%char) || bool_decide (c = "_"%char).

Definition subjectToken (s : string) : string := str_map (fun c => if subject_char c then c else "_"%char) s.

(** What follows the last '.', the whole string without one. *)
Fixpoint after_last_dot (s : string) : string :=
  match s with
  | EmptyString => EmptyString
  | String c s' => if bool_decide (c = "."%char) then after_last_dot s'
                   else let t := after_last_dot s' in
                        if existsb (fun c => bool_decide (c = "."%char)) (list_ascii_of_string s') then t else s
  end.

Definition eventSubjectSuffix (a : aggregateInfo) (typeURL : string) : string :=
  ("." ++ subjectToken (ag_streamType a) ++ "." ++ subjectToken (str_map to_lower (after_last_dot typeURL)))%string.

Fixpoint export_loop (up : bool) (s : string) : string :=
  match s with
  | EmptyString => EmptyString
  | String c s' =>
      if bool_decide (c = "_"%char) || bool_decide (c = "-"%char) then export_loop true s'
      else String (if up then to_upper c else c) (export_loop false s')
  end.

Definition exportSnake (s : string) : string := export_loop true s.

Definition goKeywords : list string :=
  ["break"; "case"; "chan"; "const"; "continue"; "default"; "defer"; "else"; "fallthrough"; "for"; "func"; "go"; "goto"; "if";
   "import"; "interface"; "map"; "package"; "range"; "return"; "select"; "struct"; "switch"; "type"; "var"]%string.

Definition lowerFirst (s : string) : string :=
  match s with
  | EmptyString => EmptyString
  | String c s' =>
      let out := String (to_lower c) s' in
      if bool_decide (out ∈ goKeywords) then (out ++ "_")%string else out
  end.

(** ** sumtype.go: collecting sum types *)

Record sumType := MkSumType {
  st_iface : string;
  st_variants : list string;
  st_nonDefault : gmap string N;
  st_decidedAt : gmap string Field }.

(** A decided_at tag on anything but a Command variant is an error. *)
Fixpoint check_decided_tags (cmds : gset string) (msgs : list Message) : res unit :=
  match msgs with
  | [] => Ok tt
  | m :: msgs' =>
      let? field := decidedAtField m in
      match field with
      | Some _ => if negb (bool_decide (FullName m ∈ cmds)) then Err (option_error "(es.v1.decided_at) is only allowed on a Command variant")
                  else check_decided_tags cmds msgs'
      | None => check_decided_tags cmds msgs'
      end
  end.

(** specNames: which spec uses a name, over the whole run. *)
Abbreviation specNames := (gmap string string).

Section Collect.
Variable r : resolver.

(** One variant of a container. *)
Definition add_variant (st : sumType) (field : Field) : res sumType :=
  match fd_Message field with
  | None => Err (option_error "sum-type variant must be a message")
  | Some name =>
      let msg := rv_msgs r !! name in
      let v := match msg with Some m => schemaVersionOf m | None => 1%N end in
      let da := match msg with Some m => match decidedAtField m with Ok da => da | Err _ => None end | None => None end in
      Ok (MkSumType (st_iface st) (st_variants st ++ [name])
            (if (v =? 1)%N then st_nonDefault st else <[name := v]> (st_nonDefault st))
            (match da with
             | Some field => if bool_decide (st_iface st = commandSumType) then <[name := field]> (st_decidedAt st) else st_decidedAt st
             | None => st_decidedAt st
             end))
  end.

Fixpoint add_variants (st : sumType) (fields : list Field) : res sumType :=
  match fields with
  | [] => Ok st
  | field :: fields' => let? st := add_variant st field in add_variants st fields'
  end.

Fixpoint collect_sums (msgs : list Message) : res (list sumType) :=
  match msgs with
  | [] => Ok []
  | m :: msgs' =>
      if bool_decide (sumTypeName m = EmptyString) then collect_sums msgs' else
      match md_Oneofs (desc m) with
      | [fields] =>
          let? st := add_variants (MkSumType (sumTypeName m) [] ∅ ∅) fields in
          let? rest := collect_sums msgs' in Ok (st :: rest)
      | _ => Err (option_error "(es.v1.sum_type) requires exactly one oneof")
      end
  end.

Definition collectSumTypes (f : File) : res (list sumType) :=
  let? _ := check_decided_tags (rv_commands r) (allMessages (fi_Messages f)) in
  collect_sums (fi_Messages f).

(** ** projection.go: collecting projections *)

Record consumed := MkConsumed { co_method : string; co_typeURL : string; co_msg : Message; co_agg : aggregateInfo }.

Fixpoint resolve_all (iface : string) (types : list string) (aggs : aggregateSet) : res (list (string * Message * aggregateInfo) * aggregateSet) :=
  match types with
  | [] => Ok ([], aggs)
  | c :: types' =>
      let? (m, agg) := variant r c iface in
      let? (out, aggs) := resolve_all iface types' (set_add aggs agg) in
      Ok ((c, m, agg) :: out, aggs)
  end.

(** Method names: qualified by the stream type when the spec spans aggregates. *)
Definition method_name (prefix : string) (qualify : bool) (x : string * Message * aggregateInfo) : string :=
  (prefix ++ (if qualify then exportSnake (ag_streamType x.2) else "") ++ GoName x.1.2)%string.

Fixpoint name_methods (prefix : string) (qualify : bool) (seen : gset string) (xs : list (string * Message * aggregateInfo)) : res (list consumed) :=
  match xs with
  | [] => Ok []
  | x :: xs' =>
      let name := method_name prefix qualify x in
      if bool_decide (name ∈ seen) then Err (option_error "two types would generate one method") else
      let? rest := name_methods prefix qualify ({[name]} ∪ seen) xs' in
      Ok (MkConsumed name x.1.1 x.1.2 x.2 :: rest)
  end.

Definition resolveConsumes (wh name : string) (consumes : list string) (fetch : FetchMode) (names : specNames) :
    res (list consumed * aggregateSet) * specNames :=
  if bool_decide (name = EmptyString) then (Err (option_error "name is required"), names) else
  let dup := match names !! name with Some prev => negb (bool_decide (prev = wh)) | None => false end in
  if dup : bool then (Err (option_error "name is already used"), names) else
  let names := <[name := wh]> names in
  (if bool_decide (fetch = FETCH_UNSPECIFIED) then Err (option_error "fetch must be set") else
   if bool_decide (consumes = []) then Err (option_error "consumes must list at least one event type") else
   let? (out, aggs) := resolve_all eventSumType consumes ∅ in
   let? cs := name_methods "On" (1 <? size aggs)%nat ∅ out in
   Ok (cs, aggs), names).

Record projSpec := MkProjSpec { pr_msg : Message; pr_spec : ProjectionSpec; pr_consumes : list consumed; pr_aggs : aggregateSet }.

Definition projection_where (m : Message) : string := (FullName m ++ ": (es.v1.projection)")%string.
Definition reaction_where (m : Message) : string := (FullName m ++ ": (es.v1.reaction)")%string.

Definition check_kind (spec : ProjectionSpec) : res unit :=
  match pj_Kind spec with
  | KIND_READ_MODEL | KIND_INDEX =>
      if bool_decide (pj_Rebuild spec = REBUILD_FROM_LOG) then Ok tt else Err (option_error "kind requires rebuild = REBUILD_MODE_FROM_LOG")
  | KIND_REACTION => Err (option_error "kind REACTION must be declared with (es.v1.reaction)")
  | KIND_UNSPECIFIED => Err (option_error "kind must be set")
  end.

Fixpoint collect_projections (msgs : list Message) (names : specNames) : res (list projSpec) * specNames :=
  match msgs with
  | [] => (Ok [], names)
  | m :: msgs' =>
      match mo_projection (Options m) with
      | None => collect_projections msgs' names
      | Some spec =>
          match check_kind spec with
          | Err e => (Err e, names)
          | Ok _ =>
              match resolveConsumes (projection_where m) (pj_Name spec) (pj_Consumes spec) (pj_Fetch spec) names with
              | (Err e, names) => (Err e, names)
              | (Ok (cs, aggs), names) =>
                  match collect_projections msgs' names with
                  | (Err e, names) => (Err e, names)
                  | (Ok rest, names) => (Ok (MkProjSpec m spec cs aggs :: rest), names)
                  end
              end
          end
      end
  end.

Definition collectProjections (f : File) : specNames -> res (list projSpec) * specNames :=
  collect_projections (allMessages (fi_Messages f)).

(** ** reaction.go: collecting reactions *)

Record reactSpec := MkReactSpec {
  re_msg : Message; re_spec : ReactionSpec; re_consumes : list consumed; re_aggs : aggregateSet;
  re_issues : list consumed; re_routers : aggregateSet }.

Definition resolveIssues (issues : list string) : res (list consumed * aggregateSet) :=
  let? (out, routers) := resolve_all commandSumType issues ∅ in
  let? is_ := name_methods "" (1 <? size routers)%nat ∅ out in
  Ok (is_, routers).

Fixpoint collect_reactions (msgs : list Message) (names : specNames) : res (list reactSpec) * specNames :=
  match msgs with
  | [] => (Ok [], names)
  | m :: msgs' =>
      match mo_reaction (Options m) with
      | None => collect_reactions msgs' names
      | Some spec =>
          if match mo_projection (Options m) with Some _ => true | None => false end
          then (Err (option_error "carries both (es.v1.projection) and (es.v1.reaction)"), names) else
          match resolveConsumes (reaction_where m) (rc_Name spec) (rc_Consumes spec) (rc_Fetch spec) names with
          | (Err e, names) => (Err e, names)
          | (Ok (cs, aggs), names) =>
              match resolveIssues (rc_Issues spec) with
              | Err e => (Err e, names)
              | Ok (is_, routers) =>
                  match collect_reactions msgs' names with
                  | (Err e, names) => (Err e, names)
                  | (Ok rest, names) => (Ok (MkReactSpec m spec cs aggs is_ routers :: rest), names)
                  end
              end
          end
      end
  end.

Definition collectReactions (f : File) : specNames -> res (list reactSpec) * specNames :=
  collect_reactions (allMessages (fi_Messages f)).
End Collect.

(** ** service.go: collecting command services *)

Record svcRpc := MkSvcRpc {
  sr_method : Method;
  sr_streamID : Field;
  sr_command : Field;
  sr_variant : string;
  sr_principal : option Field;
  sr_expected : option Field;
  sr_result : Field;
  sr_state : Field }.

Record svcSpec := MkSvcSpec {
  ss_svc : Service; ss_agg : aggregateInfo; ss_events : sumInfo; ss_methods : list svcRpc; ss_principal : option string }.

(** The request's fields: the stream id and the command found so far. *)
Fixpoint scan_input (variants : gset string) (fields : list Field) (streamID command : option Field) : res (option Field * option Field) :=
  match fields with
  | [] => Ok (streamID, command)
  | fld :: fields' =>
      if fo_stream_id (fd_Options fld) then
        if negb (bool_decide (fd_Kind fld = StringKind)) || fd_IsList fld then Err (option_error "(es.v1.stream_id) must be a singular string field") else
        match streamID with
        | Some _ => Err (option_error "two (es.v1.stream_id) fields")
        | None => scan_input variants fields' (Some fld) command
        end
      else if match fd_Message fld with Some name => bool_decide (name ∈ variants) | None => false end then
        match command with
        | Some _ => Err (option_error "request carries two command fields")
        | None => scan_input variants fields' streamID (Some fld)
        end
      else scan_input variants fields' streamID command
  end.

(** The variant's fields: the acting principal and the expected version. *)
Fixpoint scan_variant (fields : list Field) (principal expected : option Field) : res (option Field * option Field) :=
  match fields with
  | [] => Ok (principal, expected)
  | fld :: fields' =>
      let? principal :=
        if fo_acting_principal (fd_Options fld) then
          if match fd_Message fld with None => true | Some _ => false end || fd_IsList fld || fd_IsMap fld
          then Err (option_error "(es.v1.acting_principal) must be a singular message field") else
          match principal with
          | Some _ => Err (option_error "two (es.v1.acting_principal) fields")
          | None => Ok (Some fld)
          end
        else Ok principal in
      let? expected :=
        if fo_expected_version (fd_Options fld) then
          if negb (bool_decide (fd_Kind fld = Uint64Kind)) || fd_IsList fld then Err (option_error "(es.v1.expected_version) must be a singular uint64 field") else
          match expected with
          | Some _ => Err (option_error "two (es.v1.expected_version) fields")
          | None => Ok (Some fld)
          end
        else Ok expected in
      scan_variant fields' principal expected
  end.

(** The response's fields: the write result and the state. *)
Fixpoint scan_output (state_type : string) (fields : list Field) (result state : option Field) : res (option Field * option Field) :=
  match fields with
  | [] => Ok (result, state)
  | fld :: fields' =>
      if bool_decide (fd_Name fld = "result"%string) then
        match fd_Message fld with
        | None => Err (option_error "response field result must be a message")
        | Some _ => scan_output state_type fields' (Some fld) state
        end
      else if bool_decide (fd_Message fld = Some state_type) then
        match state with
        | Some _ => Err (option_error "response carries two state fields")
        | None => scan_output state_type fields' result (Some fld)
        end
      else scan_output state_type fields' result state
  end.

Definition resolveMethod (r : resolver) (m : Method) (agg : aggregateInfo) : res svcRpc :=
  let? (streamID, command) := scan_input (si_variants (ag_sum agg)) (me_Input m) None None in
  match streamID, command with
  | None, _ => Err (option_error "request needs exactly one string field tagged (es.v1.stream_id)")
  | Some _, None => Err (option_error "request needs exactly one command field")
  | Some streamID, Some command =>
      let variant := default EmptyString (fd_Message command) in
      let? (principal, expected) :=
        scan_variant (match rv_msgs r !! variant with Some v => md_Fields (desc v) | None => [] end) None None in
      let? (result, state) := scan_output (FullName (ag_state agg)) (me_Output m) None None in
      match result, state with
      | None, _ => Err (option_error "response needs a message field named result")
      | Some _, None => Err (option_error "response needs exactly one state field")
      | Some result, Some state => Ok (MkSvcRpc m streamID command variant principal expected result state)
      end
  end.

(** One principal type per service. *)
Definition join_principal (principal : option string) (sm : svcRpc) : res (option string) :=
  match sr_principal sm with
  | None => Ok principal
  | Some fld =>
      match principal with
      | Some p => if negb (bool_decide (fd_Message fld = Some p)) then Err (option_error "acting principal type differs") else Ok (fd_Message fld)
      | None => Ok (fd_Message fld)
      end
  end.

Fixpoint resolve_methods (r : resolver) (agg : aggregateInfo) (principal : option string) (ms : list Method) : res (list svcRpc * option string) :=
  match ms with
  | [] => Ok ([], principal)
  | m :: ms' =>
      if me_Streaming m then Err (option_error "command RPCs must be unary") else
      let? sm := resolveMethod r m agg in
      let? principal := join_principal principal sm in
      let? (rest, principal) := resolve_methods r agg principal ms' in
      Ok (sm :: rest, principal)
  end.

Definition resolveService (r : resolver) (svc : Service) (aggregate : string) : res svcSpec :=
  match rv_msgs r !! aggregate with
  | None => Err (option_error "aggregate is not a message carrying (es.v1.aggregate)")
  | Some state =>
      if negb (hasAggregate state) then Err (option_error "aggregate is not a message carrying (es.v1.aggregate)") else
      let pkg := Package state in
      match rv_sums r !! sum_key pkg commandSumType, rv_sums r !! sum_key pkg eventSumType with
      | None, _ => Err (option_error "package has no Command container")
      | Some _, None => Err (option_error "package has no Event container")
      | Some cmds, Some events =>
          let streamType := default EmptyString (mo_aggregate (Options state)) in
          if bool_decide (streamType = EmptyString) then Err (option_error "stream_type is empty") else
          let agg := MkAggregateInfo pkg state streamType cmds in
          let? (methods, principal) := resolve_methods r agg None (sv_Methods svc) in
          Ok (MkSvcSpec svc agg events methods principal)
      end
  end.

Fixpoint collect_services (r : resolver) (svcs : list Service) : res (list svcSpec) :=
  match svcs with
  | [] => Ok []
  | svc :: svcs' =>
      match sv_CommandService svc with
      | None => collect_services r svcs'
      | Some aggregate =>
          let? spec := resolveService r svc aggregate in
          let? rest := collect_services r svcs' in Ok (spec :: rest)
      end
  end.

Definition collectServices (r : resolver) (f : File) : res (list svcSpec) := collect_services r (fi_Services f).

(** ** main.go *)

Record fileSpecs := MkFileSpecs { fs_sums : list sumType; fs_projs : list projSpec; fs_reacts : list reactSpec; fs_svcs : list svcSpec }.

(** What generateFile prints from. *)
Definition generateFile (r : resolver) (f : File) (names : specNames) : res fileSpecs * specNames :=
  match collectSumTypes r f with
  | Err e => (Err e, names)
  | Ok sums =>
      match collectProjections r f names with
      | (Err e, names) => (Err e, names)
      | (Ok projs, names) =>
          match collectReactions r f names with
          | (Err e, names) => (Err e, names)
          | (Ok reacts, names) =>
              (let? svcs := collectServices r f in Ok (MkFileSpecs sums projs reacts svcs), names)
          end
      end
  end.

Fixpoint generate_files (r : resolver) (files : list File) (names : specNames) : res (list fileSpecs) :=
  match files with
  | [] => Ok []
  | f :: files' =>
      if negb (fi_Generate f) then generate_files r files' names else
      match generateFile r f names with
      | (Err e, _) => Err e
      | (Ok specs, names) => let? rest := generate_files r files' names in Ok (specs :: rest)
      end
  end.

(** run: one generation run in a fresh process. *)
Definition plugin_run (files : list File) : res (list fileSpecs) :=
  let? r := newResolver files in
  generate_files r files ∅.

(** ** What is printed *)

(** writeDeps: the fields of a Deps struct. *)
Definition deps_fields (withState : bool) (aggs : aggregateSet) (routers : option aggregateSet) : list string :=
  (if withState then flat_map (fun a => [depName a; (depName a ++ "Codec")%string]) (set_sorted aggs) else [])
  ++ match routers with
     | Some rs => map (fun a => (depName a ++ "Router")%string) (set_sorted rs) ++ ["Actor"%string]
     | None => []
     end
  ++ ["Marker"%string].

Definition fetchesState (fetch : FetchMode) : bool := bool_decide (fetch = FETCH_STATE_AS_OF_EVENT_VERSION).

(** The fields of the Deps struct of a projection and of a reaction. *)
Definition projection_deps (p : projSpec) : list string := deps_fields (fetchesState (pj_Fetch (pr_spec p))) (pr_aggs p) None.
Definition reaction_deps (p : reactSpec) : list string := deps_fields (fetchesState (rc_Fetch (re_spec p))) (re_aggs p) (Some (re_routers p)).

(** writeSumType: the marker methods, one per variant. *)
Definition marker_methods (st : sumType) : list (string * string) := map (fun v => (v, ("is" ++ st_iface st)%string)) (st_variants st).

(** writeSpecHeader: the subjects of a spec in a workspace. *)
Definition spec_subjects (workspace : string) (cs : list consumed) : list string :=
  let workspace := if bool_decide (workspace = EmptyString) then "default"%string else workspace in
  map (fun c => ("evt." ++ workspace ++ eventSubjectSuffix (co_agg c) (co_typeURL c))%string) cs.
