(* ===== verification/GeneratorCorrect.v ===== *)
(** * What the generator accepts

    A run of the plugin that reports no error prints from specs whose every
    name resolves: consumed and issued types are variants of their package's
    container with exactly one aggregate, method names do not collide, spec
    names are unique, decision times are singular timestamps of commands and
    the RPCs of a service are complete. *)
From S2P Require Import Prelude Es Definitions Cmdsvc Generator.

Lemma Forall2_in_l {A B} (P : A -> B -> Prop) l k x : Forall2 P l k -> x ∈ l -> exists y, y ∈ k /\ P x y.
Proof.
  intros HF. induction HF as [|a b l k HP HF IH]; [by intros []%not_elem_of_nil|].
  intros [-> | Hx]%elem_of_cons; [exists b; split; [by left|done]|]. destruct (IH Hx) as (y & Hy & ?). exists y. split; [by right|done].
Qed.

Lemma Forall2_in_r {A B} (P : A -> B -> Prop) l k y : Forall2 P l k -> y ∈ k -> exists x, x ∈ l /\ P x y.
Proof. intros HF Hy. apply Forall2_flip in HF. by apply (Forall2_in_l _ _ _ y HF). Qed.

(** ** Resolution *)

(** What resolving a type of a spec establishes. *)
Record resolved (r : resolver) (iface : string) (typeURL : string) (m : Message) (agg : aggregateInfo) : Prop := {
  rs_msg : rv_msgs r !! typeURL = Some m;
  rs_sum : rv_sums r !! sum_key (Package m) iface = Some (ag_sum agg);
  rs_variant : typeURL ∈ si_variants (ag_sum agg);
  rs_pkg : ag_pkg agg = Package m;
  rs_state : rv_aggregates r !! Package m = Some [ag_state agg];
  rs_streamType : mo_aggregate (Options (ag_state agg)) = Some (ag_streamType agg) /\ ag_streamType agg <> EmptyString
}.

Section Resolve.
Variable r : resolver.

Lemma variant_Ok typeURL iface m agg : variant r typeURL iface = Ok (m, agg) <-> resolved r iface typeURL m agg.
Proof.
  unfold variant. split.
  - destruct (rv_msgs r !! typeURL) as [m'|] eqn:Hm; [|done]. destruct (rv_sums r !! sum_key (Package m') iface) as [sum|] eqn:Hs; [|done].
    destruct (decide (typeURL ∈ si_variants sum)) as [Hv|Hv]; [rewrite bool_decide_eq_true_2 by done|by rewrite bool_decide_eq_false_2].
    simpl. destruct (rv_aggregates r !! Package m') as [[|a [|]]|] eqn:Ha; try done. simpl. case_bool_decide as Hst; [done|].
    intros [= <- <-]. split; simpl; try done. by destruct (mo_aggregate (Options a)).
  - intros [H1 H2 H3 H4 H5 [H6 H7]]. rewrite H1, H2, bool_decide_eq_true_2 by done. simpl. rewrite H5. simpl. rewrite H6. simpl.
    rewrite bool_decide_eq_false_2 by done. destruct agg; simpl in *. by subst.
Qed.

(** One aggregate per package, so a set holds every aggregate that was added. *)
Lemma resolved_agg iface t1 m1 a1 t2 m2 a2 :
  resolved r iface t1 m1 a1 -> resolved r iface t2 m2 a2 -> ag_pkg a1 = ag_pkg a2 -> a1 = a2.
Proof.
  intros [_ S1 _ P1 A1 [T1 _]] [_ S2 _ P2 A2 [T2 _]] HP. rewrite P1, P2 in HP. rewrite HP in *. destruct a1, a2; simpl in *. congruence.
Qed.

Definition holds_all (iface : string) (aggs : aggregateSet) (xs : list (string * Message * aggregateInfo)) : Prop :=
  forall pkg a, aggs !! pkg = Some a <-> exists x, x ∈ xs /\ x.2 = a /\ ag_pkg a = pkg.

Lemma resolve_all_spec iface types : forall done_ aggs out aggs',
  Forall (fun x => resolved r iface x.1.1 x.1.2 x.2) done_ -> holds_all iface aggs done_ ->
  resolve_all r iface types aggs = Ok (out, aggs') ->
  map (fun x => x.1.1) out = types /\ Forall (fun x => resolved r iface x.1.1 x.1.2 x.2) out /\ holds_all iface aggs' (done_ ++ out).
Proof.
  induction types as [|c types IH]; intros done_ aggs out aggs' Hd Ha; simpl.
  { intros [= <- <-]. by rewrite app_nil_r. }
  intros HR. apply result_bind_Ok in HR as ([m agg] & Hv & HR). apply result_bind_Ok in HR as ([out' aggs2] & Hr & HR).
  injection HR as <- <-. apply variant_Ok in Hv.
  destruct (IH (done_ ++ [(c, m, agg)]) (set_add aggs agg) out' aggs2) as (Hm & Hf & Hh); [|..|done|].
  - apply Forall_app. split; [done|]. by constructor.
  - intros pkg a. unfold set_add. rewrite lookup_insert_Some. split.
    + intros [[<- <-]|[Hne Hl]].
      * exists (c, m, agg). split; [apply elem_of_app; right; by left|done].
      * apply Ha in Hl as (x & Hx & ? & ?). exists x. split; [apply elem_of_app; by left|done].
    + intros (x & Hx & <- & <-). apply elem_of_app in Hx as [Hx|Hx].
      * destruct (decide (ag_pkg agg = ag_pkg x.2)) as [He|He].
        -- left. split; [done|]. rewrite Forall_forall in Hd. by apply (resolved_agg iface c m agg x.1.1 x.1.2 x.2 Hv (Hd x Hx)).
        -- right. split; [done|]. apply Ha. eauto.
      * apply list_elem_of_singleton in Hx as ->. by left.
  - split; [simpl; by rewrite Hm|]. split; [by constructor|]. by rewrite <- app_assoc in Hh.
Qed.

Lemma name_methods_spec prefix qualify xs : forall seen cs, name_methods prefix qualify seen xs = Ok cs ->
  map co_typeURL cs = map (fun x => x.1.1) xs
  /\ Forall2 (fun c x => co_typeURL c = x.1.1 /\ co_msg c = x.1.2 /\ co_agg c = x.2 /\ co_method c = method_name prefix qualify x) cs xs
  /\ NoDup (map co_method cs) /\ Forall (fun c => co_method c ∉ seen) cs.
Proof.
  induction xs as [|x xs IH]; intros seen cs; simpl.
  { intros [= <-]. repeat constructor. }
  case_bool_decide as Hs; [done|]. intros HR. apply result_bind_Ok in HR as (rest & Hr & HR). injection HR as <-.
  destruct (IH _ _ Hr) as (H1 & H2 & H3 & H4). split; [simpl; by rewrite H1|]. split; [by constructor|]. simpl. split.
  - constructor; [|done]. intros Hin. apply list_elem_of_fmap in Hin as (c & Hc & Hin). rewrite Forall_forall in H4.
    specialize (H4 c Hin). set_solver.
  - constructor; [done|]. eapply Forall_impl; [exact H4|]. intros c. set_solver.
Qed.

(** What an accepted list of types means. *)
Record well_resolved (iface : string) (types : list string) (cs : list consumed) (aggs : aggregateSet) : Prop := {
  wr_types : map co_typeURL cs = types;
  wr_resolved : Forall (fun c => resolved r iface (co_typeURL c) (co_msg c) (co_agg c)) cs;
  wr_methods : NoDup (map co_method cs);
  wr_aggs : forall a, a ∈ set_sorted aggs <-> exists c, c ∈ cs /\ co_agg c = a
}.

Lemma elem_of_set_sorted (s : aggregateSet) a : a ∈ set_sorted s <-> exists pkg, s !! pkg = Some a.
Proof.
  unfold set_sorted. rewrite list_elem_of_omap. split.
  - intros (pkg & _ & Hl). eauto.
  - intros (pkg & Hl). exists pkg. split; [|done]. rewrite sort_strings_perm. apply list_elem_of_fmap.
    exists (pkg, a). split; [done|]. by apply elem_of_map_to_list.
Qed.

Lemma resolved_list iface prefix types out aggs cs :
  resolve_all r iface types ∅ = Ok (out, aggs) -> name_methods prefix (1 <? size aggs)%nat ∅ out = Ok cs ->
  well_resolved iface types cs aggs.
Proof.
  intros HR HN. destruct (resolve_all_spec iface types [] ∅ out aggs) as (H1 & H2 & H3); [done| |done|].
  { intros pkg a. rewrite lookup_empty. split; [done|]. intros (x & Hx & _). by apply not_elem_of_nil in Hx. }
  destruct (name_methods_spec _ _ _ _ _ HN) as (N1 & N2 & N3 & _). split; [congruence| |done|].
  - apply Forall_forall. intros c Hc. destruct (Forall2_in_l _ _ _ _ N2 Hc) as (x & Hx & E1 & E2 & E3 & _).
    rewrite E1, E2, E3. rewrite Forall_forall in H2. by apply H2.
  - intros a. rewrite elem_of_set_sorted. split.
    + intros (pkg & Hl). apply H3 in Hl as (x & Hx & <- & _). destruct (Forall2_in_r _ _ _ _ N2 Hx) as (c & Hc & _ & _ & E3 & _). eauto.
    + intros (c & Hc & <-). destruct (Forall2_in_l _ _ _ _ N2 Hc) as (x & Hx & _ & _ & E3 & _). exists (ag_pkg x.2).
      rewrite E3. apply H3. eauto.
Qed.
End Resolve.

Lemma index_message_commands pkg msgs : forall r, rv_commands (foldl (index_message pkg) r msgs) = rv_commands r.
Proof. induction msgs as [|m msgs IH]; intros r; [done|]. simpl. by rewrite IH. Qed.

Lemma index_sums_commands f msgs : forall r r', index_sums f r msgs = Ok r' ->
  rv_commands r' = foldl (fun out m => out ∪ container_commands m) (rv_commands r) msgs.
Proof.
  induction msgs as [|m msgs IH]; intros r r'; simpl; [by intros [= <-]|]. intros HR. apply result_bind_Ok in HR as (r1 & H1 & HR).
  rewrite (IH _ _ HR). f_equal. unfold index_sum in H1. unfold container_commands.
  destruct (md_Oneofs (desc m)) as [|fields [|]]; [injection H1 as <-; set_solver| |injection H1 as <-; set_solver].
  case_bool_decide as Hn.
  - injection H1 as <-. rewrite Hn, bool_decide_eq_false_2 by done. set_solver.
  - destruct (rv_sums r !! _); [done|]. injection H1 as <-. simpl. case_bool_decide; [done|set_solver].
Qed.

(** The resolver's command index is what the unused commandVariants computes. *)
Lemma resolver_commands files r : newResolver files = Ok r -> rv_commands r = commandVariants files.
Proof.
  unfold newResolver, commandVariants. change (∅ : gset string) with (rv_commands empty_resolver) at 1. generalize empty_resolver as r0.
  induction files as [|f files IH]; intros r0; simpl; [by intros [= <-]|]. intros HR. apply result_bind_Ok in HR as (r1 & H1 & HR).
  rewrite (IH _ HR). f_equal. apply index_sums_commands in H1. rewrite H1. by rewrite index_message_commands.
Qed.

(** ** Specs *)

Section Specs.
Variable r : resolver.

Record proj_ok (p : projSpec) : Prop := {
  pk_option : mo_projection (Options (pr_msg p)) = Some (pr_spec p);
  pk_kind : check_kind (pr_spec p) = Ok tt;
  pk_name : pj_Name (pr_spec p) <> EmptyString;
  pk_fetch : pj_Fetch (pr_spec p) <> FETCH_UNSPECIFIED;
  pk_consumes : pj_Consumes (pr_spec p) <> [];
  pk_types : well_resolved r eventSumType (pj_Consumes (pr_spec p)) (pr_consumes p) (pr_aggs p)
}.

Record react_ok (p : reactSpec) : Prop := {
  rk_option : mo_reaction (Options (re_msg p)) = Some (re_spec p) /\ mo_projection (Options (re_msg p)) = None;
  rk_name : rc_Name (re_spec p) <> EmptyString;
  rk_fetch : rc_Fetch (re_spec p) <> FETCH_UNSPECIFIED;
  rk_consumes : rc_Consumes (re_spec p) <> [];
  rk_types : well_resolved r eventSumType (rc_Consumes (re_spec p)) (re_consumes p) (re_aggs p);
  rk_issues : well_resolved r commandSumType (rc_Issues (re_spec p)) (re_issues p) (re_routers p)
}.

Lemma resolveConsumes_Ok wh name consumes fetch names cs aggs names' :
  resolveConsumes r wh name consumes fetch names = (Ok (cs, aggs), names') ->
  (name <> EmptyString /\ fetch <> FETCH_UNSPECIFIED /\ consumes <> [] /\ well_resolved r eventSumType consumes cs aggs)
  /\ names ⊆ names' /\ names' !! name = Some wh.
Proof.
  unfold resolveConsumes. case_bool_decide as Hn; [done|].
  destruct (match names !! name with Some prev => negb (bool_decide (prev = wh)) | None => false end) eqn:Hd; [done|].
  case_bool_decide as Hf; [done|]. case_bool_decide as Hc; [done|]. intros HR. injection HR as HR <-.
  apply result_bind_Ok in HR as ([out aggs'] & Hr & HR). apply result_bind_Ok in HR as (cs' & Hm & HR). injection HR as <- <-.
  split_and!; try done; [by eapply resolved_list| |by rewrite lookup_insert_eq].
  apply map_subseteq_spec. intros k v Hk. rewrite lookup_insert_Some. destruct (decide (name = k)) as [<-|Hne]; [|by right].
  left. split; [done|]. rewrite Hk in Hd. case_bool_decide; [done|done].
Qed.

(** What names the specs collected so far are registered under. *)
Definition proj_entry (p : projSpec) : string * string := (pj_Name (pr_spec p), projection_where (pr_msg p)).
Definition react_entry (p : reactSpec) : string * string := (rc_Name (re_spec p), reaction_where (re_msg p)).

Definition registered (names : specNames) (e : string * string) : Prop := names !! e.1 = Some e.2.

Lemma registered_mono names names' e : names ⊆ names' -> registered names e -> registered names' e.
Proof. intros Hs Hr. by eapply lookup_weaken. Qed.

Lemma collect_projections_Ok msgs : forall names ps names', collect_projections r msgs names = (Ok ps, names') ->
  names ⊆ names' /\ Forall proj_ok ps /\ Forall (registered names') (map proj_entry ps).
Proof.
  induction msgs as [|m msgs IH]; intros names ps names'; simpl.
  { intros [= <- <-]. repeat constructor. done. }
  destruct (mo_projection (Options m)) as [spec|] eqn:Hs; [|by apply IH]. destruct (check_kind spec) as [[]|] eqn:Hk; [|done].
  destruct (resolveConsumes _ _ _ _ _ _) as [[[cs aggs]|] names1] eqn:Hr; [|done].
  destruct (collect_projections r msgs names1) as [[rest|] names2] eqn:Hc; [|done]. intros [= <- <-].
  apply resolveConsumes_Ok in Hr as ((H1 & H2 & H3 & H4) & Hsub & Hreg). destruct (IH _ _ _ Hc) as (Hsub2 & Hok & Hregs).
  split; [by etransitivity|]. split; [constructor; [by split|done]|]. simpl. constructor; [|done].
  by apply (registered_mono names1).
Qed.

Lemma collect_reactions_Ok msgs : forall names ps names', collect_reactions r msgs names = (Ok ps, names') ->
  names ⊆ names' /\ Forall react_ok ps /\ Forall (registered names') (map react_entry ps).
Proof.
  induction msgs as [|m msgs IH]; intros names ps names'; simpl.
  { intros [= <- <-]. repeat constructor. done. }
  destruct (mo_reaction (Options m)) as [spec|] eqn:Hs; [|by apply IH]. destruct (mo_projection (Options m)) as [|] eqn:Hp; [done|].
  destruct (resolveConsumes _ _ _ _ _ _) as [[[cs aggs]|] names1] eqn:Hr; [|done].
  destruct (resolveIssues r (rc_Issues spec)) as [[is_ routers]|] eqn:Hi; [|done].
  destruct (collect_reactions r msgs names1) as [[rest|] names2] eqn:Hc; [|done]. intros [= <- <-].
  apply resolveConsumes_Ok in Hr as ((H1 & H2 & H3 & H4) & Hsub & Hreg). destruct (IH _ _ _ Hc) as (Hsub2 & Hok & Hregs).
  unfold resolveIssues in Hi. apply result_bind_Ok in Hi as ([out rt] & Hra & Hi). apply result_bind_Ok in Hi as (is' & Hm & Hi).
  injection Hi as <- <-.
  split; [by etransitivity|]. split; [constructor; [split; simpl; try done; by eapply resolved_list|done]|]. simpl. constructor; [|done].
  by apply (registered_mono names1).
Qed.

(** *** Decision times *)

Definition tagged (m : Message) : list Field := filter (fun f => fo_decided_at (fd_Options f) = true) (md_Fields (desc m)).

Lemma decided_at_loop_Ok fields : forall found da, decided_at_loop fields found = Ok da ->
  let tags := filter (fun f => fo_decided_at (fd_Options f) = true) fields in
  (da = found /\ tags = []
   \/ exists f, found = None /\ da = Some f /\ tags = [f] /\ fd_Message f = Some timestampFullName /\ fd_IsList f = false /\ fd_IsMap f = false).
Proof.
  induction fields as [|f fields IH]; intros found da; simpl; [intros [= <-]; by left|].
  destruct (fo_decided_at (fd_Options f)) eqn:Ht; simpl.
  2:{ intros HR. rewrite filter_cons_False by congruence. by apply IH. }
  rewrite filter_cons_True by done. case_bool_decide as Hm; [|done]. simpl. destruct (fd_IsList f) eqn:El; [done|]. destruct (fd_IsMap f) eqn:Em; [done|].
  simpl. destruct found as [|]; [done|]. intros HR. right. destruct (IH _ _ HR) as [[-> ->]|(? & ? & _)]; [|done]. by exists f.
Qed.

Lemma check_decided_tags_Ok cmds msgs : check_decided_tags cmds msgs = Ok tt ->
  Forall (fun m => tagged m = [] \/ FullName m ∈ cmds /\ exists f, tagged m = [f] /\ fd_Message f = Some timestampFullName
                   /\ fd_IsList f = false /\ fd_IsMap f = false) msgs.
Proof.
  induction msgs as [|m msgs IH]; simpl; [constructor|]. intros HR. apply result_bind_Ok in HR as (field & Hd & HR).
  apply decided_at_loop_Ok in Hd as [[-> Ht]|(f & _ & -> & Ht & Hf)].
  - constructor; [by left|by apply IH].
  - case_bool_decide as Hc; [|done]. constructor; [|by apply IH]. right. split; [done|]. exists f. split; [done|]. exact Hf.
Qed.
End Specs.

(** ** Services *)

Definition holds_variant (variants : gset string) (f : Field) : Prop :=
  fo_stream_id (fd_Options f) = false /\ exists name, fd_Message f = Some name /\ name ∈ variants.

#[global] Instance holds_variant_dec variants f : Decision (holds_variant variants f).
Proof.
  unfold holds_variant. destruct (fo_stream_id (fd_Options f)); [right; by intros [? _]|].
  destruct (fd_Message f) as [name|]; [|right; by intros [_ (? & ? & _)]].
  destruct (decide (name ∈ variants)) as [Hv|Hv]; [left; eauto|right]. by intros [_ (? & [= <-] & ?)].
Defined.

Definition is_result (f : Field) : Prop := fd_Name f = "result"%string.
Definition is_state (state_type : string) (f : Field) : Prop := fd_Name f <> "result"%string /\ fd_Message f = Some state_type.

(** [found] is the accumulator of a scan for the fields that satisfy [P]. *)
Definition scanned (P : Field -> Prop) `{!forall f, Decision (P f)} (fields : list Field) (found res_ : option Field) : Prop :=
  option_list found ++ filter P fields = option_list res_.

Lemma scan_input_Ok variants fields : forall sid cmd sid' cmd', scan_input variants fields sid cmd = Ok (sid', cmd') ->
  scanned (fun f => fo_stream_id (fd_Options f) = true) fields sid sid'
  /\ scanned (holds_variant variants) fields cmd cmd'
  /\ (forall f, f ∈ fields -> fo_stream_id (fd_Options f) = true -> fd_Kind f = StringKind /\ fd_IsList f = false).
Proof.
  unfold scanned. induction fields as [|f fields IH]; intros sid cmd sid' cmd'; simpl.
  { intros [= <- <-]. rewrite !app_nil_r. split_and!; try done. by intros ? []%not_elem_of_nil. }
  destruct (fo_stream_id (fd_Options f)) eqn:Es.
  - rewrite filter_cons_True, (filter_cons_False (holds_variant variants)) by (done || (intros [? _]; congruence)).
    case_bool_decide as Hk; [|done]. destruct (fd_IsList f) eqn:El; [done|]. simpl. destruct sid; [done|]. intros HR.
    destruct (IH _ _ _ _ HR) as (H1 & H2 & H3). split_and!; [done..|]. intros g [-> | Hg]%elem_of_cons; [done|by apply H3].
  - rewrite filter_cons_False by congruence. destruct (fd_Message f) as [name|] eqn:Em.
    2:{ rewrite filter_cons_False by (intros [_ (? & ? & _)]; congruence). intros HR. destruct (IH _ _ _ _ HR) as (H1 & H2 & H3).
        split_and!; [done..|]. intros g [-> | Hg]%elem_of_cons; [congruence|by apply H3]. }
    case_bool_decide as Hv.
    + rewrite filter_cons_True by (split; [done|eauto]). destruct cmd; [done|]. intros HR. destruct (IH _ _ _ _ HR) as (H1 & H2 & H3).
      split_and!; [done..|]. intros g [-> | Hg]%elem_of_cons; [congruence|by apply H3].
    + rewrite filter_cons_False by (intros [_ (? & ? & ?)]; congruence). intros HR. destruct (IH _ _ _ _ HR) as (H1 & H2 & H3).
      split_and!; [done..|]. intros g [-> | Hg]%elem_of_cons; [congruence|by apply H3].
Qed.

Lemma scan_variant_Ok fields : forall p e p' e', scan_variant fields p e = Ok (p', e') ->
  scanned (fun f => fo_acting_principal (fd_Options f) = true) fields p p'
  /\ scanned (fun f => fo_expected_version (fd_Options f) = true) fields e e'
  /\ (forall f, p' = Some f -> p = Some f \/ is_Some (fd_Message f)).
Proof.
  unfold scanned. induction fields as [|f fields IH]; intros p e p' e'; simpl.
  { intros [= <- <-]. rewrite !app_nil_r. split_and!; try done. intros f ->. by left. }
  intros HR. apply result_bind_Ok in HR as (p1 & Hp & HR). apply result_bind_Ok in HR as (e1 & He & HR). destruct (IH _ _ _ _ HR) as (H1 & H2 & H3).
  split_and!.
  - destruct (fo_acting_principal (fd_Options f)) eqn:Ep; [rewrite filter_cons_True by done|rewrite filter_cons_False by congruence; by injection Hp as <-].
    destruct (_ || fd_IsMap f); [done|]. destruct p; [done|]. by injection Hp as <-.
  - destruct (fo_expected_version (fd_Options f)) eqn:Ee; [rewrite filter_cons_True by done|rewrite filter_cons_False by congruence; by injection He as <-].
    clear Hp. destruct (_ || fd_IsList f); [done|]. destruct e; [done|]. by injection He as <-.
  - intros g Hg. destruct (H3 g Hg) as [-> | ?]; [|by right]. destruct (fo_acting_principal (fd_Options f)); [|injection Hp as ->; by left].
    destruct (fd_Message f) eqn:Em; [|done]. destruct (_ || fd_IsMap f); [done|]. destruct p; [done|]. injection Hp as <-. right. by rewrite Em.
Qed.

Lemma scan_output_Ok state_type fields : forall res_ st res' st', scan_output state_type fields res_ st = Ok (res', st') ->
  scanned (is_state state_type) fields st st' /\ (forall f, res' = Some f -> res_ = Some f \/ is_result f /\ is_Some (fd_Message f) /\ f ∈ fields).
Proof.
  unfold scanned. induction fields as [|f fields IH]; intros res_ st res' st'; simpl.
  { intros [= <- <-]. rewrite app_nil_r. split; [done|]. intros f ->. by left. }
  case_bool_decide as Hn.
  - rewrite filter_cons_False by (intros [? _]; done). destruct (fd_Message f) as [name|] eqn:Em; [|done]. intros HR.
    destruct (IH _ _ _ _ HR) as [H1 H2]. split; [done|]. intros g Hg. destruct (H2 g Hg) as [[= <-]|(? & ? & ?)].
    + right. split; [done|]. split; [by rewrite Em|by left].
    + right. split_and!; [done..|by right].
  - case_bool_decide as Hs.
    + rewrite filter_cons_True by done. destruct st; [done|]. intros HR. destruct (IH _ _ _ _ HR) as [H1 H2]. split; [done|].
      intros g Hg. destruct (H2 g Hg) as [?|(? & ? & ?)]; [by left|right]. split_and!; [done..|by right].
    + rewrite filter_cons_False by (intros [_ ?]; done). intros HR. destruct (IH _ _ _ _ HR) as [H1 H2]. split; [done|].
      intros g Hg. destruct (H2 g Hg) as [?|(? & ? & ?)]; [by left|right]. split_and!; [done..|by right].
Qed.

(** An RPC the handler of which can be printed. *)
Record rpc_complete (r : resolver) (agg : aggregateInfo) (sm : svcRpc) : Prop := {
  rq_unary : me_Streaming (sr_method sm) = false;
  rq_streamID : filter (fun f => fo_stream_id (fd_Options f) = true) (me_Input (sr_method sm)) = [sr_streamID sm]
    /\ fd_Kind (sr_streamID sm) = StringKind /\ fd_IsList (sr_streamID sm) = false;
  rq_command : filter (holds_variant (si_variants (ag_sum agg))) (me_Input (sr_method sm)) = [sr_command sm]
    /\ fd_Message (sr_command sm) = Some (sr_variant sm) /\ sr_variant sm ∈ si_variants (ag_sum agg);
  rq_fields : forall v, rv_msgs r !! sr_variant sm = Some v ->
    filter (fun f => fo_acting_principal (fd_Options f) = true) (md_Fields (desc v)) = option_list (sr_principal sm)
    /\ filter (fun f => fo_expected_version (fd_Options f) = true) (md_Fields (desc v)) = option_list (sr_expected sm);
  rq_principal : forall f, sr_principal sm = Some f -> is_Some (fd_Message f);
  rq_state : filter (is_state (FullName (ag_state agg))) (me_Output (sr_method sm)) = [sr_state sm];
  rq_result : sr_result sm ∈ me_Output (sr_method sm) /\ is_result (sr_result sm) /\ is_Some (fd_Message (sr_result sm))
}.

Lemma resolveMethod_Ok r m agg sm : me_Streaming m = false -> resolveMethod r m agg = Ok sm -> sr_method sm = m /\ rpc_complete r agg sm.
Proof.
  intros Hu HR. unfold resolveMethod in HR. apply result_bind_Ok in HR as ([sid cmd] & Hin & HR).
  destruct sid as [sid|]; [|done]. destruct cmd as [cmd|]; [|done]. apply result_bind_Ok in HR as ([p e] & Hva & HR).
  apply result_bind_Ok in HR as ([res_ st] & Hout & HR). destruct res_ as [res_|]; [|done]. destruct st as [st|]; [|done]. injection HR as <-.
  apply scan_input_Ok in Hin as (H1 & H2 & H3). apply scan_variant_Ok in Hva as (H4 & H5 & H8). apply scan_output_Ok in Hout as [H6 H7].
  unfold scanned in *. simpl in *. split; [done|].
  assert (cmd ∈ filter (holds_variant (si_variants (ag_sum agg))) (me_Input m)) as Hc by (rewrite H2; by left).
  apply list_elem_of_filter in Hc as [[_ (name & Hn & Hv)] _].
  assert (sid ∈ filter (fun f => fo_stream_id (fd_Options f) = true) (me_Input m)) as Hi by (rewrite H1; by left).
  apply list_elem_of_filter in Hi as [Hs Hi].
  split; simpl; try done.
  - split; [done|]. by apply H3.
  - split; [done|]. by rewrite Hn.
  - intros v Hl. rewrite Hl in H4, H5. done.
  - intros f Hf. by destruct (H8 f Hf).
  - destruct (H7 res_ (eq_refl _)) as [?|(? & ? & ?)]; done.
Qed.

Lemma resolve_methods_Ok r agg ms : forall principal sms principal', resolve_methods r agg principal ms = Ok (sms, principal') ->
  map sr_method sms = ms /\ Forall (rpc_complete r agg) sms
  /\ (forall p, principal = Some p -> principal' = Some p)
  /\ Forall (fun sm => forall f, sr_principal sm = Some f -> fd_Message f = principal') sms.
Proof.
  induction ms as [|m ms IH]; intros principal sms principal'; simpl; [intros [= <- <-]; repeat constructor; done|].
  destruct (me_Streaming m) eqn:Hu; [done|]. intros HR. apply result_bind_Ok in HR as (sm & Hm & HR).
  apply result_bind_Ok in HR as (p1 & Hj & HR). apply result_bind_Ok in HR as ([rest p2] & Hrest & HR). injection HR as <- <-.
  destruct (IH _ _ _ Hrest) as (H1 & H2 & H3 & H4). destruct (resolveMethod_Ok _ _ _ _ Hu Hm) as [E Hc].
  unfold join_principal in Hj. split_and!; [simpl; congruence|by constructor| |].
  - intros p ->. apply H3. destruct (sr_principal sm) as [f|]; [|by injection Hj as <-].
    case_bool_decide as Hf; [|done]. injection Hj as <-. done.
  - constructor; [|done]. intros f Hf. rewrite Hf in Hj. destruct (fd_Message f) as [p|] eqn:Em.
    + assert (p1 = Some p) as -> by (destruct principal; [case_bool_decide; [|done]|]; by injection Hj as <-). symmetry. by apply H3.
    + destruct (rq_principal _ _ _ Hc f Hf). congruence.
Qed.

(** ** A run *)

(** An RPC's principal, if it has one, is the service's. *)
Record svc_ok (r : resolver) (s : svcSpec) : Prop := {
  sk_state : (sv_CommandService (ss_svc s) ≫= (fun a => rv_msgs r !! a)) = Some (ag_state (ss_agg s)) /\ hasAggregate (ag_state (ss_agg s)) = true;
  sk_methods : map sr_method (ss_methods s) = sv_Methods (ss_svc s);
  sk_complete : Forall (rpc_complete r (ss_agg s)) (ss_methods s);
  sk_principal : Forall (fun sm => forall f, sr_principal sm = Some f -> fd_Message f = ss_principal s) (ss_methods s)
}.

Definition decided_ok (r : resolver) (m : Message) : Prop :=
  tagged m = [] \/ FullName m ∈ rv_commands r /\ exists f, tagged m = [f] /\ fd_Message f = Some timestampFullName /\ fd_IsList f = false /\ fd_IsMap f = false.

Record specs_ok (r : resolver) (f : File) (fs : fileSpecs) : Prop := {
  so_decided : Forall (decided_ok r) (allMessages (fi_Messages f));
  so_projs : Forall (proj_ok r) (fs_projs fs);
  so_reacts : Forall (react_ok r) (fs_reacts fs);
  so_svcs : Forall (svc_ok r) (fs_svcs fs)
}.

Definition spec_entries (fs : fileSpecs) : list (string * string) := map proj_entry (fs_projs fs) ++ map react_entry (fs_reacts fs).

Lemma collect_services_Ok r svcs : forall specs, collect_services r svcs = Ok specs -> Forall (svc_ok r) specs.
Proof.
  induction svcs as [|svc svcs IH]; intros specs; simpl; [intros [= <-]; constructor|].
  destruct (sv_CommandService svc) as [aggregate|] eqn:Hcs; [|by apply IH]. intros HR. apply result_bind_Ok in HR as (spec & Hs & HR).
  apply result_bind_Ok in HR as (rest & Hr & HR). injection HR as <-. constructor; [|by apply IH].
  unfold resolveService in Hs. destruct (rv_msgs r !! aggregate) as [state|] eqn:Hm; [|done]. destruct (hasAggregate state) eqn:Ha; [simpl in Hs|done].
  destruct (rv_sums r !! sum_key (Package state) commandSumType) as [cmds|]; [|done].
  destruct (rv_sums r !! sum_key (Package state) eventSumType) as [events|]; [|done]. case_bool_decide; [done|].
  apply result_bind_Ok in Hs as ([sms principal] & Hms & Hs). injection Hs as <-.
  destruct (resolve_methods_Ok _ _ _ _ _ _ Hms) as (H1 & H2 & _ & H4). split; simpl; try done. rewrite Hcs. done.
Qed.

Lemma generateFile_Ok r f names fs names' : generateFile r f names = (Ok fs, names') ->
  specs_ok r f fs /\ names ⊆ names' /\ Forall (registered names') (spec_entries fs).
Proof.
  unfold generateFile. destruct (collectSumTypes r f) as [sums|] eqn:Hs; [|done].
  destruct (collectProjections r f names) as [[projs|] names1] eqn:Hp; [|done].
  destruct (collectReactions r f names1) as [[reacts|] names2] eqn:Hr; [|done].
  intros HR. injection HR as HR <-. apply result_bind_Ok in HR as (svcs & Hv & HR). injection HR as <-.
  apply collect_projections_Ok in Hp as (S1 & P1 & R1). apply collect_reactions_Ok in Hr as (S2 & P2 & R2). apply collect_services_Ok in Hv.
  apply result_bind_Ok in Hs as ([] & Hd & _). apply check_decided_tags_Ok in Hd.
  split; [by split|]. split; [by etransitivity|]. apply Forall_app. split; [|done].
  eapply Forall_impl; [exact R1|]. intros e. by apply registered_mono.
Qed.

Lemma generate_files_Ok r files : forall names out, generate_files r files names = Ok out ->
  Forall2 (specs_ok r) (filter (fun f => fi_Generate f = true) files) out
  /\ exists names', names ⊆ names' /\ Forall (registered names') (flat_map spec_entries out).
Proof.
  induction files as [|f files IH]; intros names out; simpl.
  { intros [= <-]. split; [constructor|]. exists names. by split. }
  destruct (fi_Generate f) eqn:Hg; simpl.
  2:{ rewrite filter_cons_False by congruence. apply IH. }
  rewrite filter_cons_True by done. destruct (generateFile r f names) as [[fs|] names1] eqn:Hf; [|done].
  intros HR. apply result_bind_Ok in HR as (rest & Hr & HR). injection HR as <-.
  apply generateFile_Ok in Hf as (H1 & H2 & H3). destruct (IH _ _ Hr) as (H4 & names2 & H5 & H6). split; [by constructor|].
  exists names2. split; [by etransitivity|]. simpl. apply Forall_app. split; [|done].
  eapply Forall_impl; [exact H3|]. intros e. by apply registered_mono.
Qed.

(** C39: a generation run that reports no error prints only from specs that
    resolve.  In every generated file: each type a projection or a reaction
    consumes (issues) is a variant of its package's Event (Command) container,
    that package has exactly one aggregate with a stream type, the dependency
    set is exactly the aggregates of the consumed types, and the handler and
    issuer methods have distinct names; decision times are single singular
    timestamps of commands; each RPC of a command service has exactly one
    stream id, one command and one state field, a result message, and the
    service's one principal type.  No two specs of the run share a name. *)
Theorem specs_resolve files out : plugin_run files = Ok out ->
  exists r, newResolver files = Ok r
    /\ Forall2 (specs_ok r) (filter (fun f => fi_Generate f = true) files) out
    /\ forall name w1 w2, (name, w1) ∈ flat_map spec_entries out -> (name, w2) ∈ flat_map spec_entries out -> w1 = w2.
Proof.
  intros HR. apply result_bind_Ok in HR as (r & Hn & HR). destruct (generate_files_Ok r files _ _ HR) as (HF & names & _ & Hreg).
  exists r. split; [done|]. split; [done|]. intros name w1 w2 H1 H2. rewrite Forall_forall in Hreg.
  pose proof (Hreg _ H1) as E1. pose proof (Hreg _ H2) as E2. unfold registered in *. simpl in *. congruence.
Qed.

(** ** Runs *)

Definition no_options : MessageOptions := MkMessageOptions None None None None None.
Definition no_field_options : FieldOptions := MkFieldOptions false false false false.

Definition plain (pkg name : string) : Message :=
  MkMessage (MkMessageDesc (pkg ++ "." ++ name) pkg (MkGoIdent name pkg) no_options [] [] EmptyString) [].

Definition ref_field (name : string) (type : string) : Field := MkField name name OtherKind false false (Some type) no_field_options.

Definition container (pkg name : string) (variants : list string) : Message :=
  MkMessage (MkMessageDesc (pkg ++ "." ++ name ++ "s") pkg (MkGoIdent (name ++ "s") pkg) (MkMessageOptions (Some name) None None None None) []
    [map (fun v => ref_field v (pkg ++ "." ++ v)) variants] EmptyString) [].

Definition aggregate_state (pkg name streamType : string) : Message :=
  MkMessage (MkMessageDesc (pkg ++ "." ++ name) pkg (MkGoIdent name pkg) (MkMessageOptions None None (Some streamType) None None) [] [] EmptyString) [].

Definition read_model (pkg name : string) (types : list string) : Message :=
  MkMessage (MkMessageDesc (pkg ++ "." ++ name) pkg (MkGoIdent name pkg)
    (MkMessageOptions None None None (Some (MkProjectionSpec (pkg ++ "." ++ name) KIND_READ_MODEL types FETCH_STATE_AS_OF_EVENT_VERSION REBUILD_FROM_LOG "")) None)
    [] [] EmptyString) [].

Definition state_as (pkg state streamType : string) (events : list string) : File :=
  MkFile (pkg ++ ".proto") pkg "v1" pkg pkg true (aggregate_state pkg state streamType :: container pkg "Event" events :: map (plain pkg) events) [].

(** A read model over two aggregates that share an event name. *)
Definition two_aggregates (s1 s2 : string) : list File :=
  [state_as "a.v1" s1 "case" ["Granted"; "Closed"]; state_as "b.v1" s2 "unit_review" ["Granted"];
   MkFile "view.proto" "v.v1" "v1" "v.v1" "view" true [read_model "v.v1" "View" ["a.v1.Granted"; "b.v1.Granted"; "a.v1.Closed"]] []].

Lemma specs_resolve_witness :
  exists out r, plugin_run (two_aggregates "Case" "Review") = Ok out
    /\ Forall2 (specs_ok r) (filter (fun f => fi_Generate f = true) (two_aggregates "Case" "Review")) out
    /\ map (fun p => map co_method (pr_consumes p)) (flat_map fs_projs out) = [["OnCaseGranted"; "OnUnitReviewGranted"; "OnCaseClosed"]]%string.
Proof.
  destruct (plugin_run (two_aggregates "Case" "Review")) as [out|e] eqn:HR.
  - destruct (specs_resolve (two_aggregates "Case" "Review") out HR) as (r & _ & HF & _). exists out, r. split; [done|]. split; [exact HF|].
    assert (match plugin_run (two_aggregates "Case" "Review") with
            | Ok out => map (fun p => map co_method (pr_consumes p)) (flat_map fs_projs out) | Err _ => [] end
            = [["OnCaseGranted"; "OnUnitReviewGranted"; "OnCaseClosed"]]%string) as HC by (by vm_compute).
    rewrite HR in HC. exact HC.
  - exfalso. assert (is_ok (plugin_run (two_aggregates "Case" "Review")) = true) as HC by (by vm_compute). rewrite HR in HC. discriminate.
Defined.

(** The names of the dependencies are not checked: a read model over two
    aggregates whose state messages have one Go name is accepted, and the
    struct printed for it declares each of its fields twice. *)
Lemma deps_collide : exists out p, plugin_run (two_aggregates "State" "State") = Ok out /\ p ∈ flat_map fs_projs out
  /\ projection_deps p = ["State"; "StateCodec"; "State"; "StateCodec"; "Marker"]%string.
Proof.
  destruct (plugin_run (two_aggregates "State" "State")) as [out|e] eqn:HR.
  - assert (match plugin_run (two_aggregates "State" "State") with
            | Ok out => map projection_deps (flat_map fs_projs out) | Err _ => [] end
            = [["State"; "StateCodec"; "State"; "StateCodec"; "Marker"]]%string) as HC by (by vm_compute).
    rewrite HR in HC. destruct (flat_map fs_projs out) as [|p [|]] eqn:Hp; [done| |done]. injection HC as HC.
    exists out, p. split; [done|]. split; [rewrite Hp; by left|done].
  - exfalso. assert (is_ok (plugin_run (two_aggregates "State" "State")) = true) as HC by (by vm_compute). rewrite HR in HC. discriminate.
Qed.
