(* ===== verification/Catalogue.v ===== *)
(** * The generated catalogue (src/cmd/protoc-gen-es-lite/docs.go)

    With the parameter docs the plugin renders every projection and reaction of
    a run as a markdown page: sorted, one section per owner and per kind. *)
From S2P Require Import Prelude Es Definitions Cmdsvc Generator.

Record catalogueEntry := MkEntry {
  ce_kind : string; ce_name : string; ce_owner : string; ce_fetch : string; ce_rebuild : string; ce_message : string; ce_comment : string;
  ce_consumes : list string; ce_issues : list string }.

(** The section of a kind and its place; a kind that is none has no title. *)
Definition kindSection (kind : string) : string * N :=
  if bool_decide (kind = "REACTION"%string) then ("Reactions"%string, 0%N)
  else if bool_decide (kind = "PROJECTION_KIND_READ_MODEL"%string) then ("Read models"%string, 1%N)
  else if bool_decide (kind = "PROJECTION_KIND_INDEX"%string) then ("Indexes"%string, 2%N)
  else (EmptyString, 0%N).

(** ** Text *)

(** strings.Split on one character. *)
Fixpoint split_on (c : ascii) (s : string) : list string :=
  match s with
  | EmptyString => [EmptyString]
  | String a s' =>
      let parts := split_on c s' in
      if bool_decide (a = c) then EmptyString :: parts
      else match parts with [] => [String a EmptyString] | p :: ps => String a p :: ps end
  end.

(** strings.Join. *)
Fixpoint join (sep : string) (l : list string) : string :=
  match l with
  | [] => EmptyString
  | [s] => s
  | s :: l' => (s ++ sep ++ join sep l')%string
  end.

Definition is_space (c : ascii) : bool := bool_decide (c = " "%char) || (Ascii.leb "009" c && Ascii.leb c "013")%char.

Fixpoint trim_left (s : string) : string :=
  match s with String c s' => if is_space c then trim_left s' else s | EmptyString => EmptyString end.

Fixpoint trim_right (s : string) : string :=
  match s with
  | EmptyString => EmptyString
  | String c s' => match trim_right s' with
                   | EmptyString => if is_space c then EmptyString else String c EmptyString
                   | t => String c t
                   end
  end.

Definition TrimSpace (s : string) : string := trim_right (trim_left s).

Definition TrimPrefix (prefix s : string) : string := if String.prefix prefix s then String.substring (String.length prefix) (String.length s) s else s.

(** The domain or api prefix and the version segment are dropped. *)
Definition isVersion (s : string) : bool :=
  match s with
  | String c (String d _) => bool_decide (c = "v"%char) && is_digit d
  | _ => false
  end.

Definition shortPackage (fullName : string) : string * string :=
  let parts := split_on "." fullName in
  let name := default EmptyString (last parts) in
  let pkg := take (length parts - 1) parts in
  let pkg := match pkg with
             | p :: pkg' => if bool_decide (p = "domain"%string) || bool_decide (p = "api"%string) then pkg' else pkg
             | [] => pkg
             end in
  let pkg := match last pkg with
             | Some p => if isVersion p then take (length pkg - 1) pkg else pkg
             | None => pkg
             end in
  (join "." pkg, name).

Definition quoted (name : string) : string := ("`" ++ name ++ "`")%string.

(** The names grouped by package, packages in order of appearance. *)
Fixpoint group_types (types : list string) (groups : list (string * list string)) : list (string * list string) :=
  match types with
  | [] => groups
  | t :: types' =>
      let '(pkg, name) := shortPackage t in
      let groups := if existsb (fun g => bool_decide (g.1 = pkg)) groups
                    then map (fun g => if bool_decide (g.1 = pkg) then (g.1, g.2 ++ [quoted name]) else g) groups
                    else groups ++ [(pkg, [quoted name])] in
      group_types types' groups
  end.

Definition groupedTypes (types : list string) : string :=
  if bool_decide (types = []) then "—"%string
  else join "; " (map (fun g => (g.1 ++ " → " ++ join ", " g.2)%string) (group_types types [])).

Definition humanise (v : string) : string :=
  if bool_decide (v = "FETCH_MODE_STATE_AS_OF_EVENT_VERSION"%string) then "state as of the event's version"%string
  else if bool_decide (v = "FETCH_MODE_METADATA_ONLY"%string) then "metadata and payload only (no state)"%string
  else if bool_decide (v = "REBUILD_MODE_FROM_LOG"%string) then "from the log"%string
  else if bool_decide (v ∈ ["";  "FETCH_MODE_UNSPECIFIED"; "REBUILD_MODE_UNSPECIFIED"]%string) then "—"%string
  else str_map to_lower (str_map (fun c => if bool_decide (c = "_"%char) then " "%char else c)
         (foldl (fun v prefix => TrimPrefix prefix v) v ["FETCH_MODE_"; "REBUILD_MODE_"; "PROJECTION_KIND_"]%string)).

Fixpoint paragraph (lines : list string) : list string :=
  match lines with
  | [] => []
  | l :: lines' =>
      let l := TrimSpace (TrimPrefix "//" (TrimSpace l)) in
      if bool_decide (l = EmptyString) then [] else l :: paragraph lines'
  end.

(** [c] is the comment as printed, with its markers. *)
Definition firstParagraph (c : string) : string := join " " (paragraph (split_on "010" (TrimSpace c))).

(** ** Entries *)

Definition kind_string (k : ProjectionKind) : string :=
  match k with
  | KIND_UNSPECIFIED => "PROJECTION_KIND_UNSPECIFIED" | KIND_READ_MODEL => "PROJECTION_KIND_READ_MODEL"
  | KIND_REACTION => "PROJECTION_KIND_REACTION" | KIND_INDEX => "PROJECTION_KIND_INDEX"
  end%string.

Definition fetch_string (f : FetchMode) : string :=
  match f with
  | FETCH_UNSPECIFIED => "FETCH_MODE_UNSPECIFIED" | FETCH_METADATA_ONLY => "FETCH_MODE_METADATA_ONLY"
  | FETCH_STATE_AS_OF_EVENT_VERSION => "FETCH_MODE_STATE_AS_OF_EVENT_VERSION"
  end%string.

Definition rebuild_string (m : RebuildMode) : string :=
  match m with REBUILD_UNSPECIFIED => "REBUILD_MODE_UNSPECIFIED" | REBUILD_FROM_LOG => "REBUILD_MODE_FROM_LOG" end%string.

Definition projection_catalogue (p : projSpec) : catalogueEntry :=
  MkEntry (kind_string (pj_Kind (pr_spec p))) (pj_Name (pr_spec p)) (pj_OwnerContext (pr_spec p)) (fetch_string (pj_Fetch (pr_spec p)))
    (rebuild_string (pj_Rebuild (pr_spec p))) (FullName (pr_msg p)) (firstParagraph (md_Comment (desc (pr_msg p))))
    (map co_typeURL (pr_consumes p)) [].

Definition reaction_catalogue (p : reactSpec) : catalogueEntry :=
  MkEntry "REACTION" (rc_Name (re_spec p)) (rc_OwnerContext (re_spec p)) (fetch_string (rc_Fetch (re_spec p)))
    EmptyString (FullName (re_msg p)) (firstParagraph (md_Comment (desc (re_msg p))))
    (map co_typeURL (re_consumes p)) (map co_typeURL (re_issues p)).

Definition file_entries (fs : fileSpecs) : list catalogueEntry :=
  map projection_catalogue (fs_projs fs) ++ map reaction_catalogue (fs_reacts fs).

(** ** The page *)

(** Not after: by owner, then by section, then by name. *)
Definition entry_key (e : catalogueEntry) : string * N * string := (ce_owner e, (kindSection (ce_kind e)).2, ce_name e).

Definition key_leb (a b : string * N * string) : bool :=
  if negb (bool_decide (a.1.1 = b.1.1)) then String.leb a.1.1 b.1.1
  else if negb (a.1.2 =? b.1.2)%N then (a.1.2 <=? b.1.2)%N
  else String.leb a.2 b.2.

Definition entry_le (a b : catalogueEntry) : Prop := key_leb (entry_key a) (entry_key b) = true.

#[global] Instance entry_le_dec : RelDecision entry_le.
Proof. intros a b. unfold entry_le. apply _. Defined.

Definition entry_lines (e : catalogueEntry) : list string :=
  [""; "#### " ++ quoted (ce_name e) ++ " (" ++ quoted (ce_message e) ++ ")"]%string
  ++ (if bool_decide (ce_comment e = EmptyString) then [] else [EmptyString; ce_comment e])
  ++ [EmptyString; ("- consumes: " ++ groupedTypes (ce_consumes e))%string]
  ++ (if bool_decide (ce_kind e = "REACTION"%string) then [("- issues: " ++ groupedTypes (ce_issues e))%string] else [])
  ++ [("- fetch: " ++ humanise (ce_fetch e))%string]
  ++ (if bool_decide (ce_kind e = "REACTION"%string) then [] else [("- rebuild: " ++ humanise (ce_rebuild e))%string]).

Inductive page_line := SectionLine (owner : string) | KindLine (kind : string) | EntryLines (e : catalogueEntry).

(** The owner no entry is expected to have, before the first section. *)
Definition no_owner : string := String "000" EmptyString.

(** The loop over the sorted entries. *)
Fixpoint sections (owner kind : string) (entries : list catalogueEntry) : list page_line :=
  match entries with
  | [] => []
  | e :: entries' =>
      let new_owner := negb (bool_decide (ce_owner e = owner)) in
      let kind := if new_owner then EmptyString else kind in
      (if new_owner then [SectionLine (ce_owner e)] else [])
      ++ (if bool_decide (ce_kind e = kind) then [] else [KindLine (ce_kind e)])
      ++ EntryLines e :: sections (ce_owner e) (ce_kind e) entries'
  end.

Definition line_text (l : page_line) : list string :=
  match l with
  | SectionLine owner => [EmptyString; ("## " ++ owner)%string]
  | KindLine kind => [EmptyString; ("### " ++ (kindSection kind).1)%string]
  | EntryLines e => entry_lines e
  end.

Definition count_kind (kind : string) (entries : list catalogueEntry) : nat := length (filter (fun e => ce_kind e = kind) entries).

Definition sorted_entries (entries : list catalogueEntry) : list catalogueEntry := merge_sort entry_le entries.

(** The summary line is given by its four counts. *)
Definition writeCatalogue (path : string) (summary : nat -> nat -> nat -> nat -> string) (entries : list catalogueEntry) : list string :=
  let entries := sorted_entries entries in
  [("<!-- Code generated by protoc-gen-es-lite (docs=" ++ path ++ "). DO NOT EDIT. -->")%string; EmptyString;
   "# Projections and reactions"%string; EmptyString;
   summary (count_kind "REACTION" entries) (count_kind "PROJECTION_KIND_READ_MODEL" entries) (count_kind "PROJECTION_KIND_INDEX" entries)
     (size (list_to_set (C := gset string) (map ce_owner entries)))]
  ++ flat_map line_text (sections no_owner EmptyString entries).

(** run with the docs parameter: the page, when a path is given. *)
Definition run_docs (files : list File) (docs : string) (summary : nat -> nat -> nat -> nat -> string) : res (option (list string)) :=
  let? out := plugin_run files in
  Ok (if bool_decide (docs = EmptyString) then None else Some (writeCatalogue docs summary (flat_map file_entries out))).

(** ** The page is an index *)

Lemma leb_trans a b c : String.leb a b = true -> String.leb b c = true -> String.leb a c = true.
Proof.
  unfold String.leb. revert b c. induction a as [|x a IH]; intros [|y b] [|z c]; simpl; try done.
  unfold Ascii.compare. destruct (N.compare_spec (Ascii.N_of_ascii x) (Ascii.N_of_ascii y)) as [E1|E1|E1]; try done;
    destruct (N.compare_spec (Ascii.N_of_ascii y) (Ascii.N_of_ascii z)) as [E2|E2|E2]; try done; intros H1 H2.
  - rewrite E1, E2, N.compare_refl. by apply (IH b c).
  - rewrite E1, (proj2 (N.compare_lt_iff _ _) E2). done.
  - rewrite <- E2, (proj2 (N.compare_lt_iff _ _) E1). done.
  - by rewrite (proj2 (N.compare_lt_iff _ _) (N.lt_trans _ _ _ E1 E2)).
Qed.

Lemma leb_refl a : String.leb a a = true.
Proof. destruct (String.leb_total a a); done. Qed.

Lemma entry_le_owner a b : entry_le a b -> String.leb (ce_owner a) (ce_owner b) = true.
Proof. unfold entry_le, key_leb. simpl. case_bool_decide as E; simpl; [|done]. intros _. rewrite E. apply leb_refl. Qed.

#[global] Instance entry_le_trans : Transitive entry_le.
Proof.
  intros a b c Hab Hbc. pose proof (entry_le_owner _ _ Hab) as O1. pose proof (entry_le_owner _ _ Hbc) as O2.
  unfold entry_le, key_leb in *. simpl in *.
  destruct (decide (ce_owner a = ce_owner c)) as [Eac|Eac]; [rewrite bool_decide_eq_true_2 by done|by rewrite bool_decide_eq_false_2 by done; apply (leb_trans _ _ _ O1 O2)].
  assert (ce_owner a = ce_owner b) as Eab by (apply String.leb_antisym; [done|by rewrite Eac]).
  rewrite (bool_decide_eq_true_2 _ Eab) in Hab. rewrite (bool_decide_eq_true_2 (ce_owner b = ce_owner c)) in Hbc by congruence. simpl in *.
  destruct (N.eqb_spec (kindSection (ce_kind a)).2 (kindSection (ce_kind b)).2) as [K1|K1];
    destruct (N.eqb_spec (kindSection (ce_kind b)).2 (kindSection (ce_kind c)).2) as [K2|K2];
    destruct (N.eqb_spec (kindSection (ce_kind a)).2 (kindSection (ce_kind c)).2) as [K3|K3]; simpl in *; rewrite ?N.leb_le in *; try lia.
  by apply (leb_trans _ (ce_name b)).
Qed.

#[global] Instance entry_le_total : Total entry_le.
Proof.
  intros a b. unfold entry_le, key_leb. simpl. destruct (decide (ce_owner a = ce_owner b)) as [E|E].
  - rewrite !bool_decide_eq_true_2 by congruence. simpl.
    destruct (N.eqb_spec (kindSection (ce_kind a)).2 (kindSection (ce_kind b)).2) as [K|K]; simpl.
    + rewrite K, N.eqb_refl. simpl. apply String.leb_total.
    + rewrite (proj2 (N.eqb_neq _ _) (not_eq_sym K)). simpl. rewrite !N.leb_le. lia.
  - rewrite !bool_decide_eq_false_2 by congruence. simpl. apply String.leb_total.
Qed.

Definition section_owners (ls : list page_line) : list string :=
  omap (fun l => match l with SectionLine o => Some o | _ => None end) ls.

Definition listed_entries (ls : list page_line) : list catalogueEntry :=
  omap (fun l => match l with EntryLines e => Some e | _ => None end) ls.

Lemma sections_entries l : forall owner kind, listed_entries (sections owner kind l) = l.
Proof.
  induction l as [|e l IH]; intros owner kind; [done|]. simpl. unfold listed_entries in *. rewrite !omap_app. simpl. rewrite IH.
  destruct (negb _); simpl; by case_bool_decide.
Qed.

Lemma sections_owners l : forall owner kind, StronglySorted entry_le l -> Forall (fun e => String.leb owner (ce_owner e) = true) l ->
  NoDup (section_owners (sections owner kind l))
  /\ forall o, o ∈ section_owners (sections owner kind l) <-> o ∈ map ce_owner l /\ o <> owner.
Proof.
  induction l as [|e l IH]; intros owner kind Hs Hl.
  { split; [constructor|]. intros o. simpl. split; [by intros ?%not_elem_of_nil|by intros [?%not_elem_of_nil _]]. }
  apply StronglySorted_inv in Hs as [Hs He]. apply Forall_cons in Hl as [Hle Hl].
  assert (Forall (fun e' => String.leb (ce_owner e) (ce_owner e') = true) l) as Hl' by (eapply Forall_impl; [exact He|apply entry_le_owner]).
  destruct (IH (ce_owner e) (ce_kind e) Hs Hl') as [Hn Hin]. simpl. unfold section_owners in *. rewrite !omap_app. cbn [omap list_omap].
  assert (omap (fun l => match l with SectionLine o => Some o | _ => None end)
            (if bool_decide (ce_kind e = (if negb (bool_decide (ce_owner e = owner)) then EmptyString else kind)) then [] else [KindLine (ce_kind e)]) = []) as ->
    by (by case_bool_decide).
  simpl. case_bool_decide as Ho; simpl.
  - subst owner. split; [done|]. intros o. rewrite Hin, elem_of_cons. split; [tauto|]. intros [[-> | ?] ?]; [done|tauto].
  - split.
    + constructor; [|done]. rewrite Hin. tauto.
    + intros o. rewrite !elem_of_cons, Hin. split.
      * intros [-> | [Hm Hne]]; [tauto|]. split; [tauto|]. intros ->. apply list_elem_of_fmap in Hm as (e' & -> & He').
        apply Ho, String.leb_antisym; [|done]. rewrite Forall_forall in Hl'. by apply Hl'.
      * intros [[-> | Hm] Hne]; [by left|]. destruct (decide (o = ce_owner e)); [by left|by right].
Qed.

(** The page lists every entry once, in order, and opens one section per owner. *)
Lemma catalogue_index entries : Forall (fun e => ce_owner e <> no_owner) entries ->
  let page := sections no_owner EmptyString (sorted_entries entries) in
  listed_entries page ≡ₚ entries /\ StronglySorted entry_le (listed_entries page)
  /\ NoDup (section_owners page) /\ forall o, o ∈ section_owners page <-> o ∈ map ce_owner entries.
Proof.
  intros Hno page. subst page. unfold sorted_entries. rewrite sections_entries.
  assert (merge_sort entry_le entries ≡ₚ entries) as HP by apply merge_sort_Permutation.
  assert (StronglySorted entry_le (merge_sort entry_le entries)) as HS by apply (StronglySorted_merge_sort entry_le).
  split; [done|]. split; [done|]. rewrite <- HP in Hno.
  assert (forall o, o ∈ map ce_owner entries <-> o ∈ map ce_owner (merge_sort entry_le entries)) as Hel by (intros o; by rewrite HP).
  setoid_rewrite Hel. clear HP Hel. destruct (merge_sort entry_le entries) as [|e l].
  { split; [constructor|done]. }
  apply StronglySorted_inv in HS as [HS He]. apply Forall_cons in Hno as [Hn _]. simpl.
  rewrite (bool_decide_eq_false_2 (ce_owner e = no_owner)) by done. simpl.
  assert (Forall (fun e' => String.leb (ce_owner e) (ce_owner e') = true) l) as Hl' by (eapply Forall_impl; [exact He|apply entry_le_owner]).
  destruct (sections_owners l (ce_owner e) (ce_kind e) HS Hl') as [HN Hin]. unfold section_owners in *.
  assert (omap (fun l => match l with SectionLine o => Some o | _ => None end)
    ((if bool_decide (ce_kind e = EmptyString) then [] else [KindLine (ce_kind e)]) ++ EntryLines e :: sections (ce_owner e) (ce_kind e) l)
    = omap (fun l => match l with SectionLine o => Some o | _ => None end) (sections (ce_owner e) (ce_kind e) l)) as -> by (by case_bool_decide).
  split.
  - constructor; [|done]. rewrite Hin. tauto.
  - intros o. rewrite !elem_of_cons, Hin. destruct (decide (o = ce_owner e)); tauto.
Qed.
