(* ===== verification/Generated.v ===== *)
(** * Generated projectors and the example read models

    What the code printed for projections and reactions does
    (src/cmd/protoc-gen-es-lite/projection.go, reaction.go, sumtype.go), its
    instances for the counter (src/gen/counter/v1/counter_es.pb.go,
    src/gen/counterview/v1/view_es.pb.go) and the handlers of the worked
    example (src/examples/projection/doc.go).  proto.Marshal and
    proto.Unmarshal are arguments. *)
From S2P Require Import Prelude Es Hash Chain Timestamp Effect Store Runtime RuntimeCorrect Counter Definitions Delivery Projection Reaction Cmdsvc Generator.

(** ** Sum types *)

Section SumType.
Context {V : Type}.
Variable st : sumType.
Variable fullName : V -> string.                             (** the full name of a variant's message *)
Variable marshal : V -> res (list byte).
Variable unmarshal : string -> list byte -> res V.           (** into an empty message of the named type *)

Definition sum_schemaVersion (typeURL : string) : N := default 1%N (st_nonDefault st !! typeURL).

Definition sum_Encode (v : V) : res EncodedEvent :=
  let? b := marshal v in
  let typeURL := fullName v in
  Ok (MkEncodedEvent typeURL (if bool_decide (st_nonDefault st = ∅) then 1%N else sum_schemaVersion typeURL) b).

Definition sum_Decode (enc : EncodedEvent) : res V :=
  if bool_decide (ee_TypeURL enc ∈ st_variants st) then unmarshal (ee_TypeURL enc) (ee_Payload enc)
  else Err (Errorf "unknown" (Sentinel ErrUnknownEventType)).

Definition sum_Codec : Codec V := MkCodec V sum_Encode sum_Decode.

(** DecisionTime of a variant with a decided_at field, which [ts] reads: the zero
    time when the field is unset. *)
Definition sum_DecisionTime (ts : V -> option time) (v : V) : option time :=
  match st_decidedAt st !! fullName v with
  | Some _ => Some (default zero_time (ts v))
  | None => None
  end.

Lemma sum_round_trip v enc : fullName v ∈ st_variants st -> (forall b, marshal v = Ok b -> unmarshal (fullName v) b = Ok v) ->
  sum_Encode v = Ok enc -> sum_Decode enc = Ok v /\ ee_TypeURL enc = fullName v /\ ee_SchemaVersion enc = sum_schemaVersion (fullName v).
Proof.
  intros Hv Hm He. apply result_bind_Ok in He as (b & Hb & He). injection He as <-. unfold sum_Decode. simpl.
  rewrite bool_decide_eq_true_2 by done. split; [by apply Hm|]. split; [done|]. case_bool_decide as Hn; [|done].
  unfold sum_schemaVersion. by rewrite Hn, lookup_empty.
Qed.
End SumType.

(** The counter's events. *)
Definition event_name (v : Event) : string :=
  match v with
  | Initialized _ _ _ => "counter.v1.Initialized"
  | Incremented _ => "counter.v1.Incremented"
  | Decremented _ => "counter.v1.Decremented"
  | Closed => "counter.v1.Closed"
  end%string.

Definition event_types : list string :=
  ["counter.v1.Initialized"; "counter.v1.Incremented"; "counter.v1.Decremented"; "counter.v1.Closed"]%string.

Definition event_sum : sumType := MkSumType "Event" event_types {["counter.v1.Incremented"%string := 2%N]} ∅.

Definition EventCodec (marshal : Event -> res (list byte)) (unmarshal : string -> list byte -> res Event) : Codec Event :=
  sum_Codec event_sum event_name marshal unmarshal.

(** ** Dispatch *)

Section Dispatch.
Context {W : Type}.

(** One case of the switch, with state fetching: decode with the codec of Deps or
    the generated one, assert the event's type, load the state as of the event. *)
Definition state_case {E S T R} (given : option (Codec E)) (generated : Codec E) (loader : StreamID -> N -> SM W S)
    (as_type : E -> option T) (method : Envelope -> T -> S -> SM W R) (env : Envelope) : SM W R :=
  let codec := default generated given in
  let! decoded := lift (Decode codec (wire env)) wrap "decode" in
  match as_type decoded with
  | None => throw (ErrorsNew "decoded as another type")
  | Some ev =>
      let! state := loader (env_StreamID env) (Version env) wrap "load" in
      method env ev state
  end.

(** The switch of a projection; the default is not consumed. *)
Definition spec_dispatch (cases : list (string * (Envelope -> SM W unit))) (env : Envelope) : SM W unit :=
  match find (fun c => bool_decide (c.1 = TypeURL env)) cases with
  | Some c => c.2 env
  | None => ret tt
  end.

(** The switch of a reaction: the handler fills the issuer, whose commands the
    routers deliver afterwards, in package order. *)
Definition reaction_dispatch {I} (cases : list (string * (Envelope -> SM W I))) (routers : list (I -> Meta -> SM W unit)) (actor : Actor)
    (env : Envelope) : SM W unit :=
  match find (fun c => bool_decide (c.1 = TypeURL env)) cases with
  | Some c =>
      let! issue := c.2 env in
      forM (fun router => router issue (MetaFor env actor)) routers
  | None => ret tt
  end.

(** The filter of a spec. *)
Definition spec_filter (types : list string) (env : Envelope) : bool := bool_decide (TypeURL env ∈ types).

(** *** CounterView, CounterActivity, ResetOnClosed *)

Definition as_Initialized (e : Event) : option (Z * Z * Z) := match e with Initialized a b c => Some (a, b, c) | _ => None end.
Definition as_Incremented (e : Event) : option Z := match e with Incremented by_ => Some by_ | _ => None end.
Definition as_Decremented (e : Event) : option Z := match e with Decremented by_ => Some by_ | _ => None end.
Definition as_Closed (e : Event) : option unit := match e with Closed => Some tt | _ => None end.

Record CounterViewHandler := MkCounterViewHandler {
  OnInitialized : Envelope -> Z * Z * Z -> Counter -> SM W unit;
  OnIncremented : Envelope -> Z -> Counter -> SM W unit;
  OnDecremented : Envelope -> Z -> Counter -> SM W unit;
  OnClosed : Envelope -> unit -> Counter -> SM W unit
}.

Record CounterViewDeps := MkCounterViewDeps {
  cv_Counter : StreamID -> N -> SM W Counter;
  cv_CounterCodec : option (Codec Event);
  cv_Marker : option (Marker W)
}.

Section Counters.
Variable generated : Codec Event.

Definition CounterView_dispatch (h : CounterViewHandler) (deps : CounterViewDeps) : Envelope -> SM W unit :=
  spec_dispatch
    [("counter.v1.Initialized"%string, state_case (cv_CounterCodec deps) generated (cv_Counter deps) as_Initialized (OnInitialized h));
     ("counter.v1.Incremented"%string, state_case (cv_CounterCodec deps) generated (cv_Counter deps) as_Incremented (OnIncremented h));
     ("counter.v1.Decremented"%string, state_case (cv_CounterCodec deps) generated (cv_Counter deps) as_Decremented (OnDecremented h));
     ("counter.v1.Closed"%string, state_case (cv_CounterCodec deps) generated (cv_Counter deps) as_Closed (OnClosed h))].

Definition CounterViewDefinition : Definition_ := MkDefinition "counter.view" event_types.

Definition NewCounterViewRunner (h : CounterViewHandler) (deps : CounterViewDeps) : Runner W :=
  MkRunner "counter.view" (cv_Marker deps) (CounterView_dispatch h deps) (Some (spec_filter event_types)).

Definition activity_types : list string := ["counter.v1.Incremented"; "counter.v1.Decremented"]%string.

Definition NewCounterActivityRunner (OnInc OnDec : Envelope -> SM W unit) (marker : option (Marker W)) : Runner W :=
  MkRunner "counter.activity" marker (spec_dispatch [("counter.v1.Incremented"%string, OnInc); ("counter.v1.Decremented"%string, OnDec)])
    (Some (spec_filter activity_types)).

Record ResetOnClosedDeps := MkResetOnClosedDeps {
  rd_Counter : StreamID -> N -> SM W Counter;
  rd_CounterCodec : option (Codec Event);
  rd_CounterRouter : Dispatcher Command W;
  rd_Actor : Actor;
  rd_Marker : option (Marker W)
}.

(** The handler's result is what it issued. *)
Definition NewResetOnClosedRunner (OnClosed_ : Envelope -> unit -> Counter -> SM W (list (Issue Command))) (deps : ResetOnClosedDeps) : ReactionRunner W :=
  NewRunner "counter.reset_on_closed" (rd_Marker deps)
    (reaction_dispatch
       [("counter.v1.Closed"%string, state_case (rd_CounterCodec deps) generated (rd_Counter deps) as_Closed OnClosed_)]
       [fun issue meta => Execute (rd_CounterRouter deps) issue meta] (rd_Actor deps))
    (Some (spec_filter ["counter.v1.Closed"%string])).
End Counters.
End Dispatch.
Arguments CounterViewHandler : clear implicits.
Arguments CounterViewDeps : clear implicits.
Arguments ResetOnClosedDeps : clear implicits.

(** ** The example handlers *)

Record Row := MkRow { row_CounterID : string; row_Count : Z; row_Closed : bool; row_Version : N }.

Section Handlers.
Context {W : Type}.

Abbreviation VW := (W * gmap string Row)%type.

Definition NewView : gmap string Row := ∅.

Definition view_put (env : Envelope) (state : Counter) : SM VW unit := fun v =>
  (Ok tt, (v.1, <[sid_ID (env_StreamID env) := MkRow (sid_ID (env_StreamID env)) (ct_Count state) (ct_Closed state) (Version env)]> v.2)).

Definition View : CounterViewHandler VW :=
  MkCounterViewHandler (fun env _ state => view_put env state) (fun env _ state => view_put env state)
    (fun env _ state => view_put env state) (fun env _ state => view_put env state).

Definition view_Get (id : string) (v : VW) : Row * bool :=
  match v.2 !! id with Some r => (r, true) | None => (MkRow EmptyString 0 false 0, false) end.

Definition bump (env : Envelope) : SM (W * gmap string N) unit := fun v =>
  (Ok tt, (v.1, <[sid_ID (env_StreamID env) := u64 (default 0%N (v.2 !! sid_ID (env_StreamID env)) + 1)]> v.2)).

Definition activity_Events (id : string) (v : W * gmap string N) : N := default 0%N (v.2 !! id).

Definition Reset_OnClosed (env : Envelope) (_ : unit) (state : Counter) : SM W (list (Issue Command)) :=
  let! next := lift (NewStreamID (sid_Type (env_StreamID env)) (sid_ID (env_StreamID env) ++ "-next")) in
  ret [MkIssue next (Init (ct_Min state) (ct_Max state) (ct_Min state))].

(** A load beside the read model. *)
Definition beside_view {A B} (m : SM W A) : SM (W * B) A := fun v => let '(r, w) := m v.1 in (r, (w, v.2)).
End Handlers.

(** ** A rebuild is the live read model *)

Section Rebuild.
Context {W : Type} `{SO : StoreOps W} `{RO : RuntimeOps W}.
Variable r : Runtime Counter Command Event.
Variable rep : W -> list Envelope -> Prop.
Context `{SL : !StoreLaws W rep} `{RL : !RuntimeLaws W rep (snap_ok r)}.

(** The state right after an event of the log. *)
Definition as_of (L : list Envelope) (env : Envelope) : res Counter :=
  replay_all r (take (N.to_nat (Version env)) (stream_of (env_StreamID env) L)).

(** Appends do not change it. *)
Lemma as_of_grows w L L' env : rep w L -> L `prefix_of` L' -> env ∈ L -> as_of L' env = as_of L env.
Proof.
  intros Hrep HP He. unfold as_of. f_equal. destruct (stream_of_prefix (env_StreamID env) _ _ HP) as [k ->]. apply take_app_le.
  assert (env ∈ stream_of (env_StreamID env) L) as Hin by (by apply list_elem_of_filter).
  pose proof (numbered_elem _ _ _ _ (sl_versions w L (env_StreamID env) Hrep) Hin). lia.
Qed.

Lemma keeps_LoadAsOfVersion sid v : keeps rep (LoadAsOfVersion r sid v).
Proof.
  unfold LoadAsOfVersion. apply keepsW_bind; [apply keeps_lift|intros _]. case_match; [apply keeps_ret|].
  apply keepsW_bind; [by apply (keeps_load r rep)|intros []]. apply keeps_ret.
Qed.

Variable given : option (Codec Event).
Variable generated : Codec Event.
Variable marker : option (Marker (W * gmap string Row)).

Definition view_deps : CounterViewDeps (W * gmap string Row) :=
  MkCounterViewDeps (fun sid v => beside_view (LoadAsOfVersion r sid v)) given marker.

Definition row_of (L : list Envelope) (env : Envelope) : option Row :=
  match as_of L env with
  | Ok s => Some (MkRow (sid_ID (env_StreamID env)) (ct_Count s) (ct_Closed s) (Version env))
  | Err _ => None
  end.

(** The rows after some events have been recorded. *)
Definition record (L : list Envelope) (rows : gmap string Row) (env : Envelope) : gmap string Row :=
  match row_of L env with Some row => <[sid_ID (env_StreamID env) := row]> rows | None => rows end.

Lemma state_case_view {T} (as_type : Event -> option T) env w rows L x w' rows' :
  rep w L -> env ∈ L ->
  state_case given generated (fun sid v => beside_view (LoadAsOfVersion r sid v)) as_type (fun env _ state => view_put env state) env (w, rows) = (x, (w', rows')) ->
  exists L', L `prefix_of` L' /\ rep w' L'
    /\ match x with Ok _ => row_of L env <> None /\ rows' = record L rows env | Err _ => rows' = rows end.
Proof.
  intros Hrep He. unfold state_case, bind, catch, lift, throw. destruct (Decode _ (wire env)) as [ev|e]; [|intros [= <- <- <-]; eauto].
  destruct (as_type ev) as [t|]; [|intros [= <- <- <-]; eauto]. unfold beside_view. simpl.
  destruct (LoadAsOfVersion r (env_StreamID env) (Version env) w) as [[s|e] w1] eqn:HL.
  - unfold view_put. intros [= <- <- <-]. destruct (LoadAsOfVersion_spec r rep _ _ _ _ _ _ Hrep HL) as (L1 & L' & HP1 & HP2 & Hrep' & _ & Hs).
    exists L'. split; [by etransitivity|]. split; [done|]. assert (as_of L env = Ok s) as Ha by (by rewrite <- (as_of_grows w L L1 env)).
    unfold record, row_of. rewrite Ha. done.
  - intros [= <- <- <-]. destruct (keeps_LoadAsOfVersion _ _ _ _ _ _ Hrep HL) as (L' & HP & Hrep'). eauto.
Qed.

Lemma view_dispatch env w rows L x w' rows' : rep w L -> env ∈ L -> TypeURL env ∈ event_types ->
  CounterView_dispatch generated View view_deps env (w, rows) = (x, (w', rows')) ->
  exists L', L `prefix_of` L' /\ rep w' L'
    /\ match x with Ok _ => row_of L env <> None /\ rows' = record L rows env | Err _ => rows' = rows end.
Proof.
  intros Hrep He Ht. unfold CounterView_dispatch, spec_dispatch, event_types in *. simpl.
  repeat (case_bool_decide; [by apply state_case_view|]). exfalso. set_solver.
Qed.

(** Delivering events of the log one after the other. *)
Lemma deliver_all es : forall w rows L w' rows', rep w L -> Forall (fun e => e ∈ L /\ TypeURL e ∈ event_types) es ->
  forM (CounterView_dispatch generated View view_deps) es (w, rows) = (Ok tt, (w', rows')) ->
  (exists L', L `prefix_of` L' /\ rep w' L') /\ rows' = foldl (record L) rows es /\ Forall (fun e => row_of L e <> None) es.
Proof.
  induction es as [|e es IH]; intros w rows L w' rows' Hrep Hes HF.
  { injection HF as <- <-. split; [eauto|]. by split. }
  apply Forall_cons in Hes as [[He Ht] Hes]. apply bind_Ok in HF as ([] & [w1 rows1] & H1 & HF).
  destruct (view_dispatch _ _ _ _ _ _ _ Hrep He Ht H1) as (L1 & HP1 & Hrep1 & Hrow & ->).
  assert (Forall (fun e => e ∈ L1 /\ TypeURL e ∈ event_types) es) as Hes1.
  { eapply Forall_impl; [exact Hes|]. intros x [Hx ?]. split; [|done]. destruct HP1 as [k ->]. apply elem_of_app. by left. }
  destruct (IH _ _ _ _ _ Hrep1 Hes1 HF) as ((L2 & HP2 & Hrep2) & -> & Hrows). split; [exists L2; split; [by etransitivity|done]|].
  assert (forall x, x ∈ es -> row_of L1 x = row_of L x) as Hsame.
  { intros x Hx. unfold row_of. rewrite (as_of_grows w L L1); [done..|]. rewrite Forall_forall in Hes. by apply Hes. }
  split.
  - simpl. clear - Hsame. revert Hsame. generalize (record L rows e). induction es as [|x es IH]; intros R Hs; [done|]. simpl.
    rewrite IH by (intros y Hy; apply Hs; by right). f_equal. unfold record. by rewrite Hs by left.
  - constructor; [done|]. apply Forall_forall. intros x Hx. rewrite <- Hsame by done. rewrite Forall_forall in Hrows. by apply Hrows.
Qed.

Definition of_counter (id : string) (e : Envelope) : Prop := sid_ID (env_StreamID e) = id.

#[local] Instance of_counter_dec id e : Decision (of_counter id e).
Proof. unfold of_counter. apply _. Defined.

Lemma recorded_last L id es : forall rows, Forall (fun e => row_of L e <> None) es ->
  foldl (record L) rows es !! id = match last (filter (of_counter id) es) with Some e => row_of L e | None => rows !! id end.
Proof.
  induction es as [|e es IH] using rev_ind; intros rows Hf; [done|]. apply Forall_app in Hf as [Hf He]. apply Forall_cons in He as [He _].
  rewrite foldl_app, filter_app. simpl. unfold record at 1. simpl. destruct (row_of L e) as [row|] eqn:Hr; [|congruence].
  destruct (decide (of_counter id e)) as [Hid|Hid].
  - rewrite filter_cons_True, filter_nil, last_snoc by done. rewrite Hid, lookup_insert_eq. by rewrite Hr.
  - rewrite filter_cons_False, filter_nil, app_nil_r by done. rewrite lookup_insert_ne by done. by apply IH.
Qed.
End Rebuild.
#[global] Existing Instance of_counter_dec.

(** ** The example over SQLite *)
