(* ===== verification/GeneratedClaims.v ===== *)
(** * The counter's read models, end to end

    The generated projector with the example's handlers over the runtime and the
    SQLite store. *)
From S2P Require Import Prelude Sha256 Es Hash Chain Anchor Timestamp Effect Store Sql Sqlite SqliteCorrect SqliteTheorems HexUuid.
From S2P Require Import Runtime RuntimeCorrect RuntimeSqlite Counter RuntimeClaims Definitions Delivery Projection Reaction Generated.

(** C9: a rebuild cannot drift from the live read model.  Let the generated
    CounterView projector, with the example's handlers, take the same events of
    the log at two times, live and in a later rebuild, while other writers
    append freely (and whatever schema an unsealing codec accepts).  When no
    delivery is refused, both leave the same rows: for each counter the row of
    its last delivered event, with the state the stream had right after that
    event; other rows are untouched. *)
Theorem view_rebuild_is_live {W} `{SO : StoreOps W} `{RO : RuntimeOps W} (r : Runtime Counter Command Event)
    (rep : W -> list Envelope -> Prop) `{!StoreLaws W rep} `{!RuntimeLaws W rep (snap_ok r)}
    given generated marker rows es w1 L1 w1' rows1 w2 L2 w2' rows2 :
  Forall (fun e => e ∈ L1 /\ TypeURL e ∈ event_types) es -> L1 `prefix_of` L2 ->
  rep w1 L1 -> forM (CounterView_dispatch generated View (view_deps r given marker)) es (w1, rows) = (Ok tt, (w1', rows1)) ->
  rep w2 L2 -> forM (CounterView_dispatch generated View (view_deps r given marker)) es (w2, rows) = (Ok tt, (w2', rows2)) ->
  rows1 = rows2
  /\ forall id, match last (filter (of_counter id) es) with
                | Some e => exists s, replay_all r (take (N.to_nat (Version e)) (stream_of (env_StreamID e) L1)) = Ok s
                              /\ rows1 !! id = Some (MkRow id (ct_Count s) (ct_Closed s) (Version e))
                | None => rows1 !! id = rows !! id
                end.
Proof.
  intros Hes HP Hr1 H1 Hr2 H2.
  destruct (deliver_all r rep given generated marker es _ _ _ _ _ Hr1 Hes H1) as (_ & -> & Hrows).
  assert (Forall (fun e => e ∈ L2 /\ TypeURL e ∈ event_types) es) as Hes2.
  { eapply Forall_impl; [exact Hes|]. intros x [Hx ?]. split; [|done]. destruct HP as [k ->]. apply elem_of_app. by left. }
  destruct (deliver_all r rep given generated marker es _ _ _ _ _ Hr2 Hes2 H2) as (_ & -> & Hrows2).
  assert (forall id, foldl (record r L1) rows es !! id = foldl (record r L2) rows es !! id) as Hsame.
  { intros id. rewrite !recorded_last by done. destruct (last (filter (of_counter id) es)) as [e|] eqn:Hl; [|done].
    unfold row_of. rewrite (as_of_grows r rep w1 L1 L2 e Hr1 HP); [done|].
    apply last_Some_elem_of, list_elem_of_filter in Hl as [_ He]. rewrite Forall_forall in Hes. by apply Hes. }
  split; [by apply map_eq|]. intros id. rewrite recorded_last by done. destruct (last (filter (of_counter id) es)) as [e|] eqn:Hl; [|done].
  apply last_Some_elem_of, list_elem_of_filter in Hl as [Hid He]. rewrite Forall_forall in Hrows. specialize (Hrows e He).
  unfold row_of, as_of in *. destruct (replay_all r _) as [s|]; [|done]. exists s. split; [done|]. by rewrite Hid.
Qed.

#[local] Existing Instance calm_env.
#[local] Existing Instance HexUuid.

(** The event a handled command appended, delivered to the view. *)
Definition handled_events : list Envelope := match after_handle.1 with Ok x => rs_Envelopes x | Err _ => [] end.

Definition deliver_handled : res unit * (shared * gmap string Row) :=
  forM (@CounterView_dispatch (shared * gmap string Row) (rt_codec counter_runtime) View
    (@view_deps shared (sqlite_store 0) sqlite_runtime_ops counter_runtime None None)) handled_events (after_handle.2, ∅).

Lemma deliver_handled_ok : deliver_handled.1 = Ok tt.
Proof. by vm_compute. Qed.

Lemma handled_in_log : exists L, shared_rep 0 counter_runtime after_handle.2 L /\ Forall (fun e => e ∈ L /\ TypeURL e ∈ event_types) handled_events.
Proof.
  assert (forallb (fun e => bool_decide (TypeURL e ∈ event_types)) handled_events = true) as HT by (by vm_compute).
  assert (is_ok after_handle.1 = true) as HO by (by vm_compute). unfold handled_events in *. destruct after_handle as [[x|e] w'] eqn:HH; [|done].
  unfold after_handle in HH. simpl in HT.
  destruct (@HandleAt_Ok Counter Command Event shared (sqlite_store 0) sqlite_runtime_ops (fun _ => None) (fun c _ => c) counter_runtime
    (shared_rep 0 counter_runtime) (sqlite_store_laws 0 counter_runtime calm_clock_ok calm_clock_mono calm_driver_faults)
    (sqlite_runtime_laws 0 counter_runtime calm_clock_ok) counter_codec_ok counter_state_codec_ok _ _ _ _ _ _ _ _ (start_rep counter_runtime) HH)
    as (_ & _ & L1 & L2 & L' & _ & _ & _ & [k ->] & Hrep & _).
  exists (L2 ++ rs_Envelopes x ++ k). rewrite app_assoc. split; [exact Hrep|]. simpl. apply Forall_forall. intros e He. split.
  - apply elem_of_app. left. apply elem_of_app. by right.
  - apply list_elem_of_In in He. rewrite forallb_forall in HT. specialize (HT e He). by apply bool_decide_eq_true in HT.
Qed.

Lemma view_rebuild_is_live_witness : exists rows s, deliver_handled = (Ok tt, rows)
  /\ rows.2 !! "main"%string = Some (MkRow "main" (ct_Count s) (ct_Closed s) 3) /\ ct_Count s = 8%Z.
Proof.
  destruct handled_in_log as (L & Hrep & Hes). pose proof deliver_handled_ok as Hok.
  assert (match deliver_handled.2.2 !! "main"%string with Some row => row_Count row | None => 0%Z end = 8%Z) as Hc by (by vm_compute).
  assert (map Version (filter (of_counter "main") handled_events) = [3]%N) as Hv by (by vm_compute).
  destruct deliver_handled as [x [w' rows]] eqn:HD. simpl in Hok, Hc. subst x. unfold deliver_handled in HD.
  destruct (@view_rebuild_is_live shared (sqlite_store 0) sqlite_runtime_ops counter_runtime (shared_rep 0 counter_runtime)
    (sqlite_store_laws 0 counter_runtime calm_clock_ok calm_clock_mono calm_driver_faults) (sqlite_runtime_laws 0 counter_runtime calm_clock_ok)
    None (rt_codec counter_runtime) None ∅ handled_events after_handle.2 L w' rows after_handle.2 L w' rows
    Hes (reflexivity L) Hrep HD Hrep HD) as [_ Hrow].
  specialize (Hrow "main"%string). destruct (filter (of_counter "main") handled_events) as [|e [|]]; [done| |done]. injection Hv as Hv.
  simpl in Hrow. rewrite Hv in Hrow. destruct Hrow as (s & _ & Hr). exists (w', rows), s. split; [done|]. split; [exact Hr|].
  rewrite Hr in Hc. exact Hc.
Defined.
