(* ===== verification/DecidedAt.v ===== *)
(** * Decision times of generated commands (src/es/decided_at.go)

    StampDecisionTime writes the server's time into the field of a command that
    is tagged (es.v1.decided_at), found by reflection over the command's
    descriptor; the generated DecisionTime reads the field the generator chose.
    This file models the stamp over descriptors and shows that the two agree on
    what the generator accepts.  A timestamp is kept as the time it stands for;
    message fields are length-delimited (a group has another kind). *)
From S2P Require Import Prelude Es Hash Timestamp Effect Store Runtime Cmdsvc Generator Generated.

(** A message value as the stamp sees it: its descriptor's fields and the
    Timestamp fields that are set. *)
Record ProtoCommand := MkProtoCommand { pc_fields : list Field; pc_times : gmap string time }.

(** protoreflect's Set of a singular Timestamp field. *)
Definition set_time (fd : Field) (at_ : time) (m : ProtoCommand) : ProtoCommand :=
  MkProtoCommand (pc_fields m) (<[fd_Name fd := at_]> (pc_times m)).

(** The loop over the descriptor's fields; [None]: Set panics, the tagged field is
    a list. *)
Fixpoint stamp_fields (fields : list Field) (at_ : time) (m : ProtoCommand) : option (ProtoCommand * bool) :=
  match fields with
  | [] => Some (m, false)
  | fd :: fields' =>
      if negb (bool_decide (fd_Message fd = Some timestampFullName)) then stamp_fields fields' at_ m else
      if negb (fo_decided_at (fd_Options fd)) then stamp_fields fields' at_ m else
      if fd_IsList fd then None else Some (set_time fd at_ m, true)
  end.

Section Stamp.
Context {C : Type}.
Variable as_setter : C -> option (time -> C).           (** the DecisionTimeSetter of a command, if it is one *)
Variable as_message : C -> option ProtoCommand.         (** the proto.Message, if it is one *)
Variable with_message : C -> ProtoCommand -> C.         (** the command after its message changed *)

Definition StampDecisionTime (cmd : C) (at_ : time) : option (C * bool) :=
  match as_setter cmd with
  | Some set => Some (set at_, true)
  | None =>
      match as_message cmd with
      | None => Some (cmd, false)
      | Some m =>
          match stamp_fields (pc_fields m) at_ m with
          | Some (m', ok) => Some (with_message cmd m', ok)
          | None => None
          end
      end
  end.
End Stamp.

(** ** The stamp finds the field the generator chose *)

(** A field the generator's scan passes over is passed over by the stamp. *)
Lemma decided_loop_spec fields found field : decided_at_loop fields found = Ok (Some field) ->
  found = Some field /\ (forall at_ m, stamp_fields fields at_ m = Some (m, false))
  \/ found = None /\ forall at_ m, stamp_fields fields at_ m = Some (set_time field at_ m, true).
Proof.
  revert found. induction fields as [|fd fields IH]; intros found; cbn; [intros [= ->]; by left|].
  destruct (fo_decided_at (fd_Options fd)) eqn:Ht; cbn.
  - case_bool_decide as Hm; cbn; [|done]. destruct (fd_IsList fd || fd_IsMap fd) eqn:Hl; [done|]. apply orb_false_iff in Hl as [-> _].
    destruct found as [fd'|]; [done|]. intros H. destruct (IH _ H) as [[[= ->] Hs]|[? _]]; [|done]. right. done.
  - intros H. destruct (IH _ H) as [[-> Hs]|[-> Hs]]; [left|right]; split; try done; intros at_ m; case_bool_decide; cbn; apply Hs.
Qed.

Lemma untagged_loop fields : decided_at_loop fields None = Ok None -> forall at_ m, stamp_fields fields at_ m = Some (m, false).
Proof.
  enough (forall found, decided_at_loop fields found = Ok None -> found = None /\ forall at_ m, stamp_fields fields at_ m = Some (m, false)) as H.
  { intros Hf. by apply (H None). }
  induction fields as [|fd fields IH]; intros found; cbn; [intros [= ->]; done|].
  destruct (fo_decided_at (fd_Options fd)); cbn.
  - case_bool_decide; cbn; [|done]. destruct (fd_IsList fd || fd_IsMap fd); [done|]. destruct found; [done|]. intros HL. by destruct (IH _ HL).
  - intros H. destruct (IH _ H) as [-> Hs]. split; [done|]. intros at_ m. case_bool_decide; cbn; apply Hs.
Qed.

(** What the generator accepts is stamped: exactly the field DecisionTime reads is
    set, the others keep their values; a command without a tag is left alone. *)
Lemma stamp_generated m at_ v : pc_fields v = md_Fields (desc m) ->
  match decidedAtField m with
  | Ok (Some field) =>
      exists v', stamp_fields (pc_fields v) at_ v = Some (v', true) /\ pc_fields v' = pc_fields v
        /\ pc_times v' !! fd_Name field = Some at_
        /\ forall name, name <> fd_Name field -> pc_times v' !! name = pc_times v !! name
  | Ok None => stamp_fields (pc_fields v) at_ v = Some (v, false)
  | Err _ => True
  end.
Proof.
  intros Hv. destruct (decidedAtField m) as [[field|]|] eqn:Hd; [|rewrite Hv; by apply untagged_loop|done].
  destruct (decided_loop_spec _ _ _ Hd) as [[? _]|[_ Hs]]; [done|]. eexists. split; [by rewrite Hv, Hs|]. split; [done|].
  split; [apply lookup_insert_eq|]. intros name Hn. by apply lookup_insert_ne.
Qed.

(** ** Server time *)

Section ServerTime.
Context {C : Type}.
Variable message_of : C -> Message.                      (** the descriptor of a command's message *)
Variable as_message : C -> ProtoCommand.
Variable with_message : C -> ProtoCommand -> C.
Hypothesis with_as : forall c m, as_message (with_message c m) = m.
Hypothesis with_of : forall c m, message_of (with_message c m) = message_of c.
Hypothesis described : forall c, pc_fields (as_message c) = md_Fields (desc (message_of c)).

(** The generated accessor: the chosen field, the zero time when it is unset. *)
Definition generated_DecisionTime (c : C) : option time :=
  match decidedAtField (message_of c) with
  | Ok (Some field) => Some (default zero_time (pc_times (as_message c) !! fd_Name field))
  | _ => None
  end.

Definition stamped (c : C) (at_ : time) : C :=
  match StampDecisionTime (fun _ => None) (fun c => Some (as_message c)) with_message c at_ with Some (c', _) => c' | None => c end.

(** A generated command that passes the trust-boundary check carries the server's
    time when it is decided on, whatever the client sent; a command without a
    decision time keeps none. *)
Lemma decided_on_server_time c now c' : check_decided_at generated_DecisionTime stamped c now = Ok c' ->
  generated_DecisionTime c' = (fun _ => now) <$> generated_DecisionTime c.
Proof.
  unfold check_decided_at. destruct (generated_DecisionTime c) as [decided|] eqn:Hd; [|by intros [= <-]].
  destruct (IsZero decided); [done|]. cbv zeta. match goal with |- context [if (MaxDecisionSkew <? ?s)%Z then _ else _] => destruct (MaxDecisionSkew <? s)%Z; [done|] end.
  intros [= <-]. unfold generated_DecisionTime in Hd. pose proof (stamp_generated (message_of c) now (as_message c) (described c)) as HS.
  destruct (decidedAtField (message_of c)) as [[field|]|] eqn:Hf; [|done..]. destruct HS as (v' & Hv & _ & Ht & _).
  unfold stamped, StampDecisionTime. rewrite Hv. unfold generated_DecisionTime. by rewrite with_of, with_as, Hf, Ht.
Qed.
End ServerTime.
