(* ===== verification/Printer.v ===== *)
(** * The code generator's printers (src/cmd/protoc-gen-es-lite)

    The Go text the plugin prints from what the front end ([Generator])
    resolved: sum types (sumtype.go), projections (projection.go), reactions
    (reaction.go) and command services (service.go), line by line, and the files
    they go to (main.go).  [QualifiedGoIdent] is protogen's: the name a generated
    file refers to an identifier by, qualified with the alias of an import when
    the identifier is of another package.  The import block protogen adds, and
    the formatting it applies, are not modelled. *)
From stdpp Require Import pretty.
From S2P Require Import Prelude Es GoText Definitions Cmdsvc Generator.

(** g.P: the parts of one line, behind its tabs. *)
Fixpoint tabs (n : nat) : string := match n with O => EmptyString | S n' => String "009" (tabs n') end.

Definition ln (indent : nat) (parts : list string) : string := (tabs indent ++ String.concat EmptyString parts)%string.
Arguments ln _%_nat _%_string.

(** Import paths referenced by generated code. *)
Definition protoPkgPath : string := "google.golang.org/protobuf/proto".
Definition esPkgPath : string := "github.com/laenenai/es-lite/es".
Definition fmtPkgPath : string := "fmt".
Definition timePkgPath : string := "time".
Definition contextPkgPath : string := "context".
Definition projectionPkgPath : string := "github.com/laenenai/es-lite/projection".
Definition reactionPkgPath : string := "github.com/laenenai/es-lite/reaction".
Definition connectPkgPath : string := "connectrpc.com/connect".
Definition cmdsvcPkgPath : string := "github.com/laenenai/es-lite/cmdsvc".
Definition aggregatePkgPath : string := "github.com/laenenai/es-lite/aggregate".
Definition protoMsgPkgPath : string := "google.golang.org/protobuf/proto".

(** What a container's generated identifiers are called, and where. *)
Definition sum_ident (s : sumInfo) (suffix : string) : GoIdent := MkGoIdent (si_iface s ++ suffix) (fi_GoImportPath (si_file s)).
Definition codecIdent (a : aggregateInfo) : GoIdent := sum_ident (ag_sum a) "Codec".
Definition ifaceIdent (a : aggregateInfo) : GoIdent := sum_ident (ag_sum a) "".

Section Printer.
Variable r : resolver.
Variable QualifiedGoIdent : GoIdent -> string.

Abbreviation Q := QualifiedGoIdent.

(** An identifier of a package, a message by its full name, a resolved message. *)
Definition Qin (path name : string) : string := Q (MkGoIdent name path).
Definition Qmsg (m : Message) : string := Q (md_GoIdent (desc m)).
Definition Qname (name : string) : string := match rv_msgs r !! name with Some m => Qmsg m | None => Q (MkGoIdent EmptyString EmptyString) end.

(** ** sumtype.go *)

(** The sealed interface and its marker methods. *)
Definition write_interface (st : sumType) : list string :=
  let iface := st_iface st in
  let marker := ("is" ++ iface)%string in
  [ln 0 ["// "; iface; " is the sealed sum type over the annotated oneof's variants."];
   ln 0 ["type "; iface; " interface{ "; marker; "() }"];
   ln 0 []]
  ++ map (fun v => ln 0 ["func ("; "*"; Qname v; ") "; marker; "() {}"]) (st_variants st)
  ++ [ln 0 []].

(** The accessors of the variants that tag a decision time. *)
Definition write_decision_time (st : sumType) (v : string) : list string :=
  match st_decidedAt st !! v with
  | None => []
  | Some field =>
      let timeType := Qin timePkgPath "Time" in
      [ln 0 ["// DecisionTime returns the command's decision time from its (es.v1.decided_at)"];
       ln 0 ["// field, or the zero time when the field is unset."];
       ln 0 ["func (x *"; Qname v; ") DecisionTime() "; timeType; " {"];
       ln 1 ["if ts := x.Get"; fd_GoName field; "(); ts != nil {"];
       ln 2 ["return ts.AsTime()"];
       ln 1 ["}"];
       ln 1 ["return "; timeType; "{}"];
       ln 0 ["}"];
       ln 0 [];
       ln 0 ["var _ "; Qin esPkgPath "DecidedAt"; " = ("; "*"; Qname v; ")(nil)"];
       ln 0 []]
  end.

Definition write_encode (st : sumType) : list string :=
  let iface := st_iface st in
  let codecType := (iface ++ "Codec")%string in
  let schemaFn := (lowerFirst iface ++ "SchemaVersion")%string in
  let encodedEvent := Qin esPkgPath "EncodedEvent" in
  [ln 0 ["func ("; codecType; ") Encode(v "; iface; ") ("; encodedEvent; ", error) {"];
   ln 1 ["m, ok := v.("; Qin protoPkgPath "Message"; ")"];
   ln 1 ["if !ok {"];
   ln 2 ["return "; encodedEvent; "{}, "; Qin fmtPkgPath "Errorf"; "("; dquote; iface; "Codec: %T is not a proto.Message"; dquote; ", v)"];
   ln 1 ["}"];
   ln 1 ["b, err := "; Qin protoPkgPath "Marshal"; "(m)"];
   ln 1 ["if err != nil {"];
   ln 2 ["return "; encodedEvent; "{}, err"];
   ln 1 ["}"];
   ln 1 ["typeURL := string(m.ProtoReflect().Descriptor().FullName())"];
   if bool_decide (st_nonDefault st = ∅)
   then ln 1 ["return "; encodedEvent; "{TypeURL: typeURL, SchemaVersion: 1, Payload: b}, nil"]
   else ln 1 ["return "; encodedEvent; "{TypeURL: typeURL, SchemaVersion: "; schemaFn; "(typeURL), Payload: b}, nil"];
   ln 0 ["}"];
   ln 0 []].

(** A case of the version switch, for a variant that is not at version 1. *)
Definition write_version_case (st : sumType) (v : string) : list string :=
  match st_nonDefault st !! v with
  | Some ver => [ln 1 ["case "; Quote v; ":"]; ln 2 ["return "; pretty ver]]
  | None => []
  end.

Definition write_versions (st : sumType) : list string :=
  if bool_decide (st_nonDefault st = ∅) then [] else
  [ln 0 ["func "; (lowerFirst (st_iface st) ++ "SchemaVersion")%string; "(typeURL string) uint32 {"];
   ln 1 ["switch typeURL {"]]
  ++ flat_map (write_version_case st) (st_variants st)
  ++ [ln 1 ["default:"];
      ln 2 ["return 1"];
      ln 1 ["}"];
      ln 0 ["}"];
      ln 0 []].

Definition write_decode (st : sumType) : list string :=
  let iface := st_iface st in
  [ln 0 ["func ("; (iface ++ "Codec")%string; ") Decode(enc "; Qin esPkgPath "EncodedEvent"; ") ("; iface; ", error) {"];
   ln 1 ["var msg "; Qin protoPkgPath "Message"];
   ln 1 ["switch enc.TypeURL {"]]
  ++ flat_map (fun v => [ln 1 ["case "; Quote v; ":"]; ln 2 ["msg = &"; Qname v; "{}"]]) (st_variants st)
  ++ [ln 1 ["default:"];
      ln 2 ["return nil, "; Qin fmtPkgPath "Errorf"; "("; dquote; "%w: %q"; dquote; ", "; Qin esPkgPath "ErrUnknownEventType"; ", enc.TypeURL)"];
      ln 1 ["}"];
      ln 1 ["if err := "; Qin protoPkgPath "Unmarshal"; "(enc.Payload, msg); err != nil {"];
      ln 2 ["return nil, err"];
      ln 1 ["}"];
      ln 1 ["return msg.("; iface; "), nil"];
      ln 0 ["}"];
      ln 0 []].

Definition writeSumType (st : sumType) : list string :=
  let iface := st_iface st in
  let codecType := (iface ++ "Codec")%string in
  write_interface st
  ++ flat_map (write_decision_time st) (st_variants st)
  ++ [ln 0 ["// "; codecType; " marshals each "; iface; " variant as canonical proto"];
      ln 0 ["// bytes tagged with its full proto type name."];
      ln 0 ["type "; codecType; " struct{}"];
      ln 0 [];
      ln 0 ["var _ "; Qin esPkgPath "Codec"; "["; iface; "] = "; codecType; "{}"];
      ln 0 []]
  ++ write_encode st ++ write_versions st ++ write_decode st.

(** ** projection.go *)

(** The labels of the filter's one case: comma after each but the last. *)
Fixpoint write_filter_labels (first : bool) (types : list string) : list string :=
  match types with
  | [] => []
  | t :: types' =>
      let sep := match types' with [] => ":"%string | _ => ","%string end in
      (if first then ln 1 ["case "; Quote t; sep] else ln 2 [Quote t; sep]) :: write_filter_labels false types'
  end.

Definition write_subjects (base : string) (consumes : list consumed) : list string :=
  [ln 0 ["// "; base; "Subjects returns the evt.<workspace>.<aggregate>.<event> filter subject"];
   ln 0 ["// of every consumed event type; workspace may be "; dquote; "*"; dquote; " for all workspaces"];
   ln 0 ["// (a broker consumer filter, for example)."];
   ln 0 ["func "; base; "Subjects(workspace string) []string {"];
   ln 1 ["if workspace == "; dquote; dquote; " {"];
   ln 2 ["workspace = "; dquote; "default"; dquote];
   ln 1 ["}"];
   ln 1 ["return []string{"]]
  ++ map (fun c => ln 2 [dquote; "evt."; dquote; " + workspace + "; Quote (eventSubjectSuffix (co_agg c) (co_typeURL c)); ","]) consumes
  ++ [ln 1 ["}"];
      ln 0 ["}"];
      ln 0 []].

Definition write_consumes (base : string) (consumes : list consumed) : list string :=
  [ln 0 ["// "; base; "Consumes returns the consumed event type URLs in the spec's"];
   ln 0 ["// order — the proto consumes option verbatim. A catalogue or feed config"];
   ln 0 ["// seeds and drift-checks its server-side type filter from it."];
   ln 0 ["func "; base; "Consumes() []string {"];
   ln 1 ["return []string{"]]
  ++ map (fun c => ln 2 [Quote (co_typeURL c); ","]) consumes
  ++ [ln 1 ["}"];
      ln 0 ["}"];
      ln 0 []].

Definition write_filter (base : string) (consumes : list consumed) : list string :=
  [ln 0 ["// "; lowerFirst base; "Consumes reports whether env is one of the consumed types."];
   ln 0 ["func "; lowerFirst base; "Consumes(env "; Qin esPkgPath "Envelope"; ") bool {"];
   ln 1 ["switch env.TypeURL {"]]
  ++ write_filter_labels true (map co_typeURL consumes)
  ++ [ln 2 ["return true"];
      ln 1 ["}"];
      ln 1 ["return false"];
      ln 0 ["}"];
      ln 0 []].

Definition writeSpecHeader (base kind name : string) (consumes : list consumed) : list string :=
  [ln 0 ["// "; base; "Name is the "; kind; "'s stable name: its marker key and durable name."];
   ln 0 ["const "; base; "Name = "; Quote name];
   ln 0 []]
  ++ write_subjects base consumes ++ write_consumes base consumes ++ write_filter base consumes.

(** [issuer]: the type of a final parameter (reactions); empty for none. *)
Definition writeHandlerIface (base : string) (consumes : list consumed) (withState : bool) (issuer : string) : list string :=
  [ln 0 ["// "; base; "Handler is the application-written part: one method per consumed"];
   ln 0 ["// event, typed by the event's Go type. Delivery is at-least-once; the"];
   ln 0 ["// runner skips positions at or below the marker, so a method sees each"];
   ln 0 ["// position at most once after a clean save, but must still tolerate a"];
   ln 0 ["// redelivery after a crash between apply and save."];
   ln 0 ["type "; base; "Handler interface {"]]
  ++ map (fun c =>
       ln 1 [co_method c; "(ctx "; Qin contextPkgPath "Context"; ", env "; Qin esPkgPath "Envelope";
             if withState then (", ev *" ++ Qmsg (co_msg c) ++ ", state *" ++ Qmsg (ag_state (co_agg c)))%string else EmptyString;
             if bool_decide (issuer = EmptyString) then EmptyString else (", issue *" ++ issuer)%string; ") error"]) consumes
  ++ [ln 0 ["}"];
      ln 0 []].

(** The loader seam of an aggregate. *)
Definition write_loader (base : string) (a : aggregateInfo) : list string :=
  [ln 0 ["// "; base; depName a; "Loader fetches "; depName a; " state as of a stream version."];
   ln 0 ["// *aggregate.Runtime[*"; Qmsg (ag_state a); ", ...] satisfies it with no adapter."];
   ln 0 ["type "; base; depName a; "Loader interface {"];
   ln 1 ["LoadAsOfVersion(ctx "; Qin contextPkgPath "Context"; ", sid "; Qin esPkgPath "StreamID"; ", v uint64) ("; "*"; Qmsg (ag_state a); ", error)"];
   ln 0 ["}"];
   ln 0 []].

Definition write_state_deps (base : string) (a : aggregateInfo) : list string :=
  [ln 1 ["// "; depName a; " loads state as of the event's version (required)."];
   ln 1 [depName a; " "; base; depName a; "Loader"];
   ln 1 ["// "; depName a; "Codec decodes "; ag_pkg a; " events; nil selects the generated codec."];
   ln 1 ["// Supply an unsealing codec when payloads are sealed (ADR 0025)."];
   ln 1 [depName a; "Codec "; Qin esPkgPath "Codec"; "["; Q (ifaceIdent a); "]"]].

Definition write_router_dep (a : aggregateInfo) : list string :=
  [ln 1 ["// "; depName a; "Router delivers issued "; ag_pkg a; " commands (reaction.RuntimeDispatcher"];
   ln 1 ["// over the embedded runtime, or a command gate client)."];
   ln 1 [depName a; "Router "; Qin reactionPkgPath "Dispatcher"; "["; Q (ifaceIdent a); "]"]].

Definition writeDeps (base : string) (aggs : aggregateSet) (withState : bool) (routers : option aggregateSet) : list string :=
  (if withState then flat_map (write_loader base) (set_sorted aggs) else [])
  ++ [ln 0 ["// "; base; "Deps is what the application wires into the runner."];
      ln 0 ["type "; base; "Deps struct {"]]
  ++ (if withState then flat_map (write_state_deps base) (set_sorted aggs) else [])
  ++ match routers with
     | Some rs =>
         flat_map write_router_dep (set_sorted rs)
         ++ [ln 1 ["// Actor is the system principal issued commands are attributed to."];
             ln 1 ["Actor "; Qin esPkgPath "Actor"]]
     | None => []
     end
  ++ [ln 1 ["// Marker persists the highest applied global_position (ADR 0005); nil is"];
      ln 1 ["// an in-memory marker, for tests only."];
      ln 1 ["Marker "; Qin projectionPkgPath "Marker"];
      ln 0 ["}"];
      ln 0 []].

(** The codec of an aggregate inside a constructor. *)
Definition codec_var (a : aggregateInfo) : string := (lowerFirst (depName a) ++ "Codec")%string.

Definition write_codec_default (a : aggregateInfo) : list string :=
  [ln 1 [codec_var a; " := deps."; depName a; "Codec"];
   ln 1 ["if "; codec_var a; " == nil {"];
   ln 2 [codec_var a; " = "; Q (codecIdent a); "{}"];
   ln 1 ["}"]].

(** Decode, type assertion and load of one case. *)
Definition write_state_case (base : string) (c : consumed) : list string :=
  let errorf := Qin fmtPkgPath "Errorf" in
  [ln 3 ["decoded, err := "; codec_var (co_agg c); ".Decode("; Qin esPkgPath "EncodedEvent"; "{TypeURL: env.TypeURL, SchemaVersion: env.SchemaVersion, Payload: env.Payload})"];
   ln 3 ["if err != nil {"];
   ln 4 ["return "; errorf; "("; dquote; base; ": decode %s v%d: %w"; dquote; ", env.StreamID, env.Version, err)"];
   ln 3 ["}"];
   ln 3 ["ev, ok := decoded.("; "*"; Qmsg (co_msg c); ")"];
   ln 3 ["if !ok {"];
   ln 4 ["return "; errorf; "("; dquote; base; ": %s decoded as %T"; dquote; ", env.TypeURL, decoded)"];
   ln 3 ["}"];
   ln 3 ["state, err := deps."; depName (co_agg c); ".LoadAsOfVersion(ctx, env.StreamID, env.Version)"];
   ln 3 ["if err != nil {"];
   ln 4 ["return "; errorf; "("; dquote; base; ": load %s v%d: %w"; dquote; ", env.StreamID, env.Version, err)"];
   ln 3 ["}"]].

Definition write_case_body (base : string) (withState issuing : bool) (c : consumed) : list string :=
  let args := ("ctx, env" ++ (if withState then ", ev, state" else "") ++ (if issuing then ", issue" else ""))%string in
  (if withState then write_state_case base c else [])
  ++ (if issuing
      then [ln 3 ["if err := h."; co_method c; "("; args; "); err != nil {"];
            ln 4 ["return err"];
            ln 3 ["}"]]
      else [ln 3 ["return h."; co_method c; "("; args; ")"]]).

Definition write_case (base : string) (withState issuing : bool) (c : consumed) : list string :=
  ln 2 ["case "; Quote (co_typeURL c); ":"] :: write_case_body base withState issuing c.

Definition write_switch (base : string) (consumes : list consumed) (withState issuing : bool) : list string :=
  [ln 2 ["switch env.TypeURL {"]]
  ++ flat_map (write_case base withState issuing) consumes
  ++ [ln 2 ["default:"];
      ln 3 ["return nil // not consumed; filtered before dispatch"];
      ln 2 ["}"]].

Definition write_execute (a : aggregateInfo) : list string :=
  [ln 2 ["if err := "; Qin reactionPkgPath "Execute"; "(ctx, deps."; depName a; "Router, issue."; lowerFirst (depName a); ", ";
         Qin reactionPkgPath "MetaFor"; "(env, deps.Actor)); err != nil {"];
   ln 3 ["return err"];
   ln 2 ["}"]].

(** The aggregates of the consumed events. *)
Definition consumed_aggs (consumes : list consumed) : aggregateSet := foldl (fun s c => set_add s (co_agg c)) ∅ consumes.

Definition writeDispatch (base : string) (consumes : list consumed) (withState : bool) (issuer : option aggregateSet) : list string :=
  let issuing := match issuer with Some _ => true | None => false end in
  (if withState then flat_map write_codec_default (set_sorted (consumed_aggs consumes)) else [])
  ++ [ln 1 ["dispatch := func(ctx "; Qin contextPkgPath "Context"; ", env "; Qin esPkgPath "Envelope"; ") error {"]]
  ++ (if issuing then [ln 2 ["issue := &"; base; "Issuer{}"]] else [])
  ++ write_switch base consumes withState issuing
  ++ match issuer with
     | None => []
     | Some rs => flat_map write_execute (set_sorted rs) ++ [ln 2 ["return nil"]]
     end
  ++ [ln 1 ["}"]].

Definition writeProjection (p : projSpec) : list string :=
  let base := GoName (pr_msg p) in
  let withState := fetchesState (pj_Fetch (pr_spec p)) in
  let projDefinition := Qin projectionPkgPath "Definition" in
  let projRunner := Qin projectionPkgPath "Runner" in
  writeSpecHeader base "projection" (pj_Name (pr_spec p)) (pr_consumes p)
  ++ [ln 0 ["// "; base; "Definition returns the projection's catalogue entry: the stable"];
      ln 0 ["// name and the consumed event types, read from the same generated"];
      ln 0 ["// identifiers the handlers use so registration cannot drift."];
      ln 0 ["func "; base; "Definition() "; projDefinition; " {"];
      ln 1 ["return "; projDefinition; "{Name: "; base; "Name, Consumes: "; base; "Consumes()}"];
      ln 0 ["}"];
      ln 0 []]
  ++ writeHandlerIface base (pr_consumes p) withState EmptyString
  ++ writeDeps base (pr_aggs p) withState None
  ++ [ln 0 ["// New"; base; "Runner wires h into a projection.Runner: marker handling, live"];
      ln 0 ["// consumption (Run over any projection.Feed) and Rebuild from the log share"];
      ln 0 ["// one dispatch path (ADR 0005, ADR 0030)."];
      ln 0 ["func New"; base; "Runner(h "; base; "Handler, deps "; base; "Deps) *"; projRunner; " {"]]
  ++ writeDispatch base (pr_consumes p) withState None
  ++ [ln 1 ["return &"; projRunner; "{Name: "; base; "Name, Marker: deps.Marker, Dispatch: dispatch, Filter: "; lowerFirst base; "Consumes}"];
      ln 0 ["}"];
      ln 0 []].

(** ** reaction.go *)

Definition write_issue (issuerName : string) (i : consumed) : list string :=
  let field := lowerFirst (depName (co_agg i)) in
  [ln 0 ["// "; co_method i; " issues a "; co_typeURL i; " to sid."];
   ln 0 ["func (i *"; issuerName; ") "; co_method i; "(sid "; Qin esPkgPath "StreamID"; ", cmd *"; Qmsg (co_msg i); ") {"];
   ln 1 ["i."; field; " = append(i."; field; ", "; Qin reactionPkgPath "Issue"; "["; Q (ifaceIdent (co_agg i)); "]{StreamID: sid, Command: cmd})"];
   ln 0 ["}"];
   ln 0 []].

Definition writeReaction (rc : reactSpec) : list string :=
  let base := GoName (re_msg rc) in
  let withState := fetchesState (rc_Fetch (re_spec rc)) in
  let issuerName := (base ++ "Issuer")%string in
  writeSpecHeader base "reaction" (rc_Name (re_spec rc)) (re_consumes rc)
  ++ writeHandlerIface base (re_consumes rc) withState issuerName
  ++ [ln 0 ["// "; issuerName; " collects the commands a handler issues for one event; the"];
      ln 0 ["// runner delivers them after the handler returns (reaction.Execute: conflicts"];
      ln 0 ["// retried, a terminal target counts as done)."];
      ln 0 ["type "; issuerName; " struct {"]]
  ++ map (fun a => ln 1 [lowerFirst (depName a); " []"; Qin reactionPkgPath "Issue"; "["; Q (ifaceIdent a); "]"]) (set_sorted (re_routers rc))
  ++ [ln 0 ["}"];
      ln 0 []]
  ++ flat_map (write_issue issuerName) (re_issues rc)
  ++ writeDeps base (re_aggs rc) withState (Some (re_routers rc))
  ++ [ln 0 ["// New"; base; "Runner wires h into a reaction.Runner: marker handling and live"];
      ln 0 ["// consumption (Run over any projection.Feed). There is no Rebuild — replaying"];
      ln 0 ["// a reaction re-issues its commands (ADR 0030 §2)."];
      ln 0 ["func New"; base; "Runner(h "; base; "Handler, deps "; base; "Deps) *"; Qin reactionPkgPath "Runner"; " {"]]
  ++ writeDispatch base (re_consumes rc) withState (Some (re_routers rc))
  ++ [ln 1 ["return "; Qin reactionPkgPath "NewRunner"; "("; base; "Name, deps.Marker, dispatch, "; lowerFirst base; "Consumes)"];
      ln 0 ["}"];
      ln 0 []].

(** ** service.go *)

Definition connectPackage (f : File) : string := (fi_GoPackageName f ++ "connect")%string.
Definition esPackageName (f : File) : string := (fi_GoPackageName f ++ "es")%string.

(** path.Join, of elements without . and .. parts: the parts between slashes,
    the empty ones dropped. *)
Fixpoint path_parts (s : string) : list string :=
  match s with
  | EmptyString => [EmptyString]
  | String c s' =>
      match path_parts s' with
      | p :: ps => if bool_decide (c = "/"%char) then EmptyString :: p :: ps else String c p :: ps
      | [] => []
      end
  end.

Definition path_Join (elems : list string) : string :=
  String.concat "/" (filter (fun p => p <> EmptyString) (flat_map path_parts elems)).

(** path.Split: up to the last slash, and what follows it. *)
Definition path_Split (s : string) : string * string :=
  match reverse (path_parts s) with
  | base :: ((_ :: _) as dirs) => ((String.concat "/" (reverse dirs) ++ "/")%string, base)
  | _ => (EmptyString, s)
  end.

Definition connectIdent (f : File) (name : string) : GoIdent :=
  MkGoIdent name (path_Join [fi_GoImportPath f; connectPackage f]).

Definition write_authorizer (s : svcSpec) : list string :=
  let name := sv_GoName (ss_svc s) in
  [ln 0 ["// "; name; "Authorizer is edge authorisation (contracts §3.5), one method per RPC,"];
   ln 0 ["// called after validation and principal injection and before Handle. A nil"];
   ln 0 ["// return allows; a *connect.Error is passed through; any other error maps to"];
   ln 0 ["// permission_denied."];
   ln 0 ["type "; name; "Authorizer interface {"]]
  ++ map (fun m => ln 1 ["Authorize"; me_GoName (sr_method m); "(ctx "; Qin contextPkgPath "Context"; ", sid "; Qin esPkgPath "StreamID";
                         ", cmd *"; Qname (sr_variant m); ") error"]) (ss_methods s)
  ++ [ln 0 ["}"];
      ln 0 []].

Definition write_identity (s : svcSpec) : list string :=
  let name := sv_GoName (ss_svc s) in
  let ctx := Qin contextPkgPath "Context" in
  let actor := Qin esPkgPath "Actor" in
  [ln 0 ["// "; name; "Identity derives the caller's identity from ctx (the authenticated"];
   ln 0 ["// request). The principal is assigned to every command's (es.v1.acting_principal)"];
   ln 0 ["// field, discarding what the client sent; the Actor goes on the envelope."];
   ln 0 ["type "; name; "Identity interface {"];
   match ss_principal s with
   | Some p => ln 1 ["Principal(ctx "; ctx; ") ("; "*"; Qname p; ", "; actor; ", error)"]
   | None => ln 1 ["Actor(ctx "; ctx; ") ("; actor; ", error)"]
   end;
   ln 0 ["}"];
   ln 0 []].

Definition write_svc_deps (s : svcSpec) : list string :=
  let name := sv_GoName (ss_svc s) in
  let ctx := Qin contextPkgPath "Context" in
  let state := ("*" ++ Qmsg (ag_state (ss_agg s)))%string in
  [ln 0 ["// "; name; "Deps is what the application wires into the generated handler."];
   ln 0 ["type "; name; "Deps struct {"];
   ln 1 ["Runtime   *"; Qin aggregatePkgPath "Runtime"; "["; state; ", "; Q (ifaceIdent (ss_agg s)); ", "; Q (sum_ident (ss_events s) EmptyString); "]"];
   ln 1 ["Authorize "; name; "Authorizer"];
   ln 1 ["Identity  "; name; "Identity"];
   ln 1 ["// Validate checks every request; nil selects cmdsvc.DefaultValidator (protovalidate)."];
   ln 1 ["Validate "; Qin cmdsvcPkgPath "Validator"];
   ln 1 ["// Filter shapes the returned state (e.g. clearance); nil returns it as is."];
   ln 1 ["Filter func(ctx "; ctx; ", state "; state; ") "; state];
   ln 1 ["// Errors maps domain errors (decider rejections) to Connect errors; nil"];
   ln 1 ["// maps them to failed_precondition."];
   ln 1 ["Errors "; Qin cmdsvcPkgPath "ErrorMapper"];
   ln 0 ["}"];
   ln 0 []].

(** The struct, its constructor and its filter and reload methods. *)
Definition write_handler_struct (f : File) (s : svcSpec) : list string :=
  let name := sv_GoName (ss_svc s) in
  let impl := (lowerFirst name ++ "Handler")%string in
  let ctx := Qin contextPkgPath "Context" in
  let state := ("*" ++ Qmsg (ag_state (ss_agg s)))%string in
  [ln 0 ["type "; impl; " struct {"];
   ln 1 ["d "; name; "Deps"];
   ln 0 ["}"];
   ln 0 [];
   ln 0 ["// New"; name; "Handler returns the Connect handler for "; name; ". Mount it with"];
   ln 0 ["// "; connectPackage f; ".New"; name; "Handler."];
   ln 0 ["func New"; name; "Handler(d "; name; "Deps) "; Q (connectIdent f (name ++ "Handler")); " {"];
   ln 1 ["if d.Validate == nil {"];
   ln 2 ["d.Validate = "; Qin cmdsvcPkgPath "DefaultValidator"; "()"];
   ln 1 ["}"];
   ln 1 ["return &"; impl; "{d: d}"];
   ln 0 ["}"];
   ln 0 [];
   ln 0 ["func (h *"; impl; ") filter(ctx "; ctx; ", state "; state; ") "; state; " {"];
   ln 1 ["if h.d.Filter == nil {"];
   ln 2 ["return state"];
   ln 1 ["}"];
   ln 1 ["return h.d.Filter(ctx, state)"];
   ln 0 ["}"];
   ln 0 [];
   ln 0 ["// reload fetches the current version and (filtered) state for a VersionConflict detail."];
   ln 0 ["func (h *"; impl; ") reload(sid "; Qin esPkgPath "StreamID"; ") "; Qin cmdsvcPkgPath "Reload"; " {"];
   ln 1 ["return func(ctx "; ctx; ") (uint64, "; Qin protoMsgPkgPath "Message"; ", error) {"];
   ln 2 ["state, version, err := h.d.Runtime.Load(ctx, sid)"];
   ln 2 ["if err != nil {"];
   ln 3 ["return 0, nil, err"];
   ln 2 ["}"];
   ln 2 ["return version, h.filter(ctx, state), nil"];
   ln 1 ["}"];
   ln 0 ["}"];
   ln 0 []].

(** An early return of an RPC with an error of cmdsvc. *)
Definition write_return (cond fn args : string) : list string :=
  [ln 1 ["if "; cond; " {"];
   ln 2 ["return nil, "; Qin cmdsvcPkgPath fn; "("; args; ")"];
   ln 1 ["}"]].

Arguments write_return (_ _ _)%_string.

Definition err_set : string := "err != nil".

Definition write_rpc (f : File) (s : svcSpec) (m : svcRpc) : list string :=
  let name := sv_GoName (ss_svc s) in
  let impl := (lowerFirst name ++ "Handler")%string in
  let rpc := me_GoName (sr_method m) in
  let out := Q (me_OutputIdent (sr_method m)) in
  [ln 0 ["// "; rpc; " implements "; Q (connectIdent f (name ++ "Handler")); "."];
   ln 0 ["func (h *"; impl; ") "; rpc; "(ctx "; Qin contextPkgPath "Context"; ", req *"; Qin connectPkgPath "Request"; "[";
         Q (me_InputIdent (sr_method m)); "]) ("; "*"; Qin connectPkgPath "Response"; "["; out; "], error) {"]]
  ++ write_return ("err := h.d.Validate.Validate(req.Msg); " ++ err_set) "InvalidArgument" "err"
  ++ [ln 1 ["sid, err := "; Qin esPkgPath "NewStreamID"; "("; Quote (ag_streamType (ss_agg s)); ", req.Msg.Get"; fd_GoName (sr_streamID m); "())"]]
  ++ write_return err_set "InvalidArgument" "err"
  ++ [ln 1 ["cmd := req.Msg.Get"; fd_GoName (sr_command m); "()"]]
  ++ write_return "cmd == nil" "MissingCommand" (Quote (fd_Name (sr_command m)))
  ++ [match ss_principal s with
      | Some _ => ln 1 ["principal, actor, err := h.d.Identity.Principal(ctx)"]
      | None => ln 1 ["actor, err := h.d.Identity.Actor(ctx)"]
      end]
  ++ write_return err_set "Unauthenticated" "err"
  ++ match sr_principal m, ss_principal s with
     | Some fld, _ => [ln 1 ["cmd."; fd_GoName fld; " = principal // never from the client (§3.5)"]]
     | None, Some _ => [ln 1 ["_ = principal // this command carries no (es.v1.acting_principal) field"]]
     | None, None => []
     end
  ++ write_return ("err := h.d.Authorize.Authorize" ++ rpc ++ "(ctx, sid, cmd); " ++ err_set) "PermissionDenied" "err"
  ++ [ln 1 ["meta := "; Qin cmdsvcPkgPath "MetaFrom"; "(req.Header(), actor)"];
      match sr_expected m with
      | Some fld => ln 1 ["expected := cmd.Get"; fd_GoName fld; "()"]
      | None => ln 1 ["expected := uint64(0)"]
      end;
      ln 1 ["res, err := h.d.Runtime.HandleAt(ctx, sid, cmd, meta, expected)"]]
  ++ write_return err_set "MapError" "ctx, err, h.d.Errors, h.reload(sid), expected"
  ++ [ln 1 ["resp := &"; out; "{}"];
      ln 1 ["resp."; fd_GoName (sr_result m); " = &"; Qname (default EmptyString (fd_Message (sr_result m))); "{}"]]
  ++ write_return ("err := " ++ Qin cmdsvcPkgPath "SetWriteResult" ++ "(resp." ++ fd_GoName (sr_result m) ++ ", sid, res.ToVersion, "
                   ++ Qin cmdsvcPkgPath "LastGlobalPosition" ++ "(res.Envelopes)); " ++ err_set) "Internal" "err"
  ++ [ln 1 ["resp."; fd_GoName (sr_state m); " = h.filter(ctx, res.State)"];
      ln 1 ["return "; Qin connectPkgPath "NewResponse"; "(resp), nil"];
      ln 0 ["}"];
      ln 0 []].

Definition writeService (f : File) (s : svcSpec) : list string :=
  write_authorizer s ++ write_identity s ++ write_svc_deps s ++ write_handler_struct f s ++ flat_map (write_rpc f s) (ss_methods s).

Definition file_header (f : File) : list string :=
  [ln 0 ["// Code generated by protoc-gen-es-lite. DO NOT EDIT."];
   ln 0 ["//"];
   ln 0 ["// Source: "; fi_Path f];
   ln 0 []].

(** The file of a proto file's services, in a package of its own. *)
Definition writeServiceFile (f : File) (svcs : list svcSpec) : list string :=
  let pkg := esPackageName f in
  file_header f
  ++ [ln 0 ["// Package "; pkg; " holds the generated Connect command-service handlers"];
      ln 0 ["// (ADR 0031) for "; fi_Path f; ". Mount with the "; connectPackage f; " constructors."];
      ln 0 ["package "; pkg];
      ln 0 []]
  ++ flat_map (writeService f) svcs.

(** ** main.go *)

(** The file of a proto file's sum types, projections and reactions. *)
Definition write_message_file (f : File) (specs : fileSpecs) : list string :=
  file_header f
  ++ [ln 0 ["package "; fi_GoPackageName f];
      ln 0 []]
  ++ flat_map writeSumType (fs_sums specs) ++ flat_map writeProjection (fs_projs specs) ++ flat_map writeReaction (fs_reacts specs).
End Printer.

Section Files.
(** The names a generated file uses, by the file. *)
Variable qualify : string -> GoIdent -> string.
Variable r : resolver.

Definition service_filename (f : File) : string :=
  let '(dir, base) := path_Split (fi_GeneratedFilenamePrefix f) in path_Join [dir; esPackageName f; (base ++ "_es.pb.go")%string].

Definition message_filename (f : File) : string := (fi_GeneratedFilenamePrefix f ++ "_es.pb.go")%string.

(** The rest of generateFile: the files printed for a proto file. *)
Definition print_files (f : File) (specs : fileSpecs) : list (string * list string) :=
  (if bool_decide (length (fs_svcs specs) = 0) then []
   else [(service_filename f, writeServiceFile r (qualify (service_filename f)) f (fs_svcs specs))])
  ++ (if bool_decide (length (fs_sums specs) + length (fs_projs specs) + length (fs_reacts specs) = 0) then []
      else [(message_filename f, write_message_file r (qualify (message_filename f)) f specs)]).
End Files.

(** A generation run, printing included. *)
Definition plugin_print (qualify : string -> GoIdent -> string) (files : list File) : res (list (string * list string)) :=
  let? r := newResolver files in
  let? specs := generate_files r files ∅ in
  Ok (concat (zip_with (print_files qualify r) (filter (fun f => fi_Generate f = true) files) specs)).
