(* ===== verification/PrinterCorrect.v ===== *)
(** * The printed switches

    The generated code decides by the switch statements the plugin prints.
    [run_switch] executes a printed switch on a type name, reading the case
    labels back from the text; the lemmas say which clause each printed switch
    selects, and that it is the one the models of the generated code take. *)
From stdpp Require Import pretty.
From S2P Require Import Prelude Es GoText Hash Chain Timestamp Effect Store Runtime RuntimeCorrect Counter Definitions Delivery Projection Reaction.
From S2P Require Import Cmdsvc Generator Generated Printer.

(** ** Executing a printed switch *)

Definition TAB : ascii := "009".

Fixpoint indent_of (l : string) : nat :=
  match l with String c l' => if bool_decide (c = TAB) then S (indent_of l') else 0 | EmptyString => 0 end.

Fixpoint strip_tabs (l : string) : string :=
  match l with String c l' => if bool_decide (c = TAB) then strip_tabs l' else l | EmptyString => EmptyString end.

(** A label of a case, and what follows it on the line. *)
Definition read_label (l : string) : option (string * string) :=
  match strip_tabs l with
  | String "c" (String "a" (String "s" (String "e" (String " " l')))) => Unquote l'
  | l' => Unquote l'
  end.

(** The lines behind a matched label: the other labels of its case are passed. *)
Fixpoint after_labels (more : bool) (ls : list string) : list string :=
  match more, ls with
  | true, l :: ls' =>
      match read_label l with
      | Some (_, sep) => after_labels (bool_decide (sep = ","%string)) ls'
      | None => ls
      end
  | _, _ => ls
  end.

(** The text from the body of the selected clause on. *)
Fixpoint find_clause (n : nat) (t : string) (ls : list string) : option (list string) :=
  match ls with
  | [] => None
  | l :: ls' =>
      match read_label l with
      | Some (label, sep) => if bool_decide (label = t) then Some (after_labels (bool_decide (sep = ","%string)) ls') else find_clause n t ls'
      | None => if bool_decide (l = ln n ["default:"]) then Some ls' else find_clause n t ls'
      end
  end.

(** A clause's body is what is indented deeper than the switch. *)
Fixpoint body_of (n : nat) (ls : list string) : list string :=
  match ls with
  | l :: ls' => if bool_decide (n < indent_of l)%nat then l :: body_of n ls' else []
  | [] => []
  end.

(** The lines executed for [t]; [None] when no clause is selected. *)
Definition run_switch (n : nat) (t : string) (ls : list string) : option (list string) := body_of n <$> find_clause n t ls.

Lemma after_no_labels ls : after_labels false ls = ls.
Proof. by destruct ls. Qed.

(** ** Lines *)

Lemma indent_tabs n s : indent_of (tabs n ++ s) = (n + indent_of s)%nat.
Proof. induction n as [|n IH]; [done|]. cbn [tabs]. change (S (indent_of (tabs n ++ s)) = (S n + indent_of s)%nat). by rewrite IH. Qed.

Lemma strip_tabs_tabs n s : strip_tabs (tabs n ++ s) = strip_tabs s.
Proof. induction n as [|n IH]; [done|]. cbn [tabs]. change (strip_tabs (tabs n ++ s) = strip_tabs s). apply IH. Qed.

Lemma read_label_ln n parts : read_label (ln n parts) = read_label (ln 0 parts).
Proof. unfold read_label, ln. by rewrite !strip_tabs_tabs. Qed.

Lemma indent_ln n parts : indent_of (ln n parts) = (n + indent_of (ln 0 parts))%nat.
Proof. unfold ln. by rewrite !indent_tabs. Qed.

(** A line of a clause's body: deeper than the switch, and no label. *)
Definition inner_line (n : nat) (l : string) : Prop := (n < indent_of l)%nat /\ read_label l = None.

Lemma inner_ln n k parts : (n < k)%nat -> read_label (ln 0 parts) = None -> inner_line n (ln k parts).
Proof. intros Hk Hl. split; [rewrite indent_ln; lia|by rewrite read_label_ln]. Qed.

Lemma inner_not_default n l : inner_line n l -> l <> ln n ["default:"].
Proof. intros [Hi _] ->. rewrite indent_ln in Hi. change (indent_of (ln 0 ["default:"])) with 0%nat in Hi. lia. Qed.

Lemma find_inner n t ls rest : Forall (inner_line n) ls -> find_clause n t (ls ++ rest) = find_clause n t rest.
Proof.
  induction 1 as [|l ls Hl _ IH]; [done|]. cbn. destruct (Hl) as [_ ->]. rewrite bool_decide_eq_false_2 by (by apply inner_not_default). done.
Qed.

(** The line after a body. *)
Definition ends (n : nat) (ls : list string) : Prop := match ls with l :: _ => (indent_of l <= n)%nat | [] => True end.

Lemma body_inner n ls rest : Forall (inner_line n) ls -> ends n rest -> body_of n (ls ++ rest) = ls.
Proof.
  intros HF He. induction HF as [|l ls [Hl _] _ IH]; cbn.
  - destruct rest as [|l rest]; [done|]. cbn in *. by rewrite bool_decide_eq_false_2 by lia.
  - by rewrite bool_decide_eq_true_2, IH by lia.
Qed.

(** ** Cases with a label each *)

Section Cases.
Context {A : Type} (n : nat) (key : A -> string) (body : A -> list string).

Definition case_line (x : A) : string := ln n ["case "; Quote (key x); ":"].
Definition clause (x : A) : list string := case_line x :: body x.

Lemma read_case x : read_label (case_line x) = Some (key x, ":"%string).
Proof.
  unfold case_line. rewrite read_label_ln. change (Unquote (Quote (key x) ++ ":") = Some (key x, ":"%string)). apply Unquote_Quote.
Qed.

Lemma ends_clauses xs rest : ends n rest -> ends n (flat_map clause xs ++ rest).
Proof. destruct xs as [|x xs]; [done|]. intros _. cbn. unfold case_line. rewrite indent_ln. change (n + 0 <= n)%nat. lia. Qed.

(** The first case with the label runs; without one, what follows the cases does. *)
Lemma run_cases t xs rest : (forall x, x ∈ xs -> Forall (inner_line n) (body x)) -> ends n rest ->
  run_switch n t (flat_map clause xs ++ rest)
  = match find (fun x => bool_decide (key x = t)) xs with Some x => Some (body x) | None => run_switch n t rest end.
Proof.
  intros Hb He. unfold run_switch. induction xs as [|x xs IH]; [done|]. cbn [flat_map find clause app find_clause].
  rewrite read_case. cbn. case_bool_decide as Hx.
  - cbn. f_equal. rewrite <- app_assoc. change (bool_decide (":"%string = ","%string)) with false. rewrite after_no_labels.
    apply body_inner; [apply Hb; by left|by apply ends_clauses].
  - rewrite <- app_assoc, find_inner by (apply Hb; by left). apply IH. intros y Hy. apply Hb. by right.
Qed.
End Cases.

Lemma run_default n t body rest : Forall (inner_line n) body -> ends n rest ->
  run_switch n t (ln n ["default:"] :: body ++ rest) = Some body.
Proof.
  intros Hb He. unfold run_switch. cbn [find_clause]. rewrite read_label_ln. change (read_label (ln 0 ["default:"])) with (@None (string * string)).
  rewrite bool_decide_eq_true_2 by done. cbn. by rewrite body_inner.
Qed.

(** Lines before the first case. *)
Lemma run_skip n t l ls : read_label l = None -> l <> ln n ["default:"] -> run_switch n t (l :: ls) = run_switch n t ls.
Proof. intros Hl Hd. unfold run_switch. cbn. rewrite Hl. by rewrite bool_decide_eq_false_2. Qed.

(** ** One case with several labels *)

Lemma read_filter_label first t sep :
  read_label (if first : bool then ln 1 ["case "; Quote t; sep] else ln 2 [Quote t; sep]) = Some (t, sep).
Proof.
  destruct first; rewrite read_label_ln.
  - change (Unquote (Quote t ++ sep) = Some (t, sep)). apply Unquote_Quote.
  - change (Unquote (Quote t ++ EmptyString ++ sep) = Some (t, sep)). apply Unquote_Quote.
Qed.

Lemma after_filter_labels ts : forall rest, ts <> [] ->
  after_labels true (write_filter_labels false ts ++ rest) = rest.
Proof.
  induction ts as [|t ts IH]; intros rest Ht; [done|]. cbn [write_filter_labels app after_labels].
  rewrite (read_filter_label false). destruct ts as [|u ts]; [apply after_no_labels|]. apply (IH rest). done.
Qed.

(** A filter runs its one body exactly for its labels. *)
Lemma run_labels n t ts : forall first rest, (t ∉ ts -> run_switch n t rest = None) ->
  run_switch n t (write_filter_labels first ts ++ rest) = if bool_decide (t ∈ ts) then Some (body_of n rest) else None.
Proof.
  induction ts as [|u ts IH]; intros first rest Hr.
  { cbn. rewrite bool_decide_eq_false_2 by apply not_elem_of_nil. apply Hr, not_elem_of_nil. }
  unfold run_switch. cbn [write_filter_labels app find_clause]. rewrite read_filter_label. destruct (decide (u = t)) as [->|Hu].
  - rewrite (bool_decide_eq_true_2 (t = t)) by done. rewrite (bool_decide_eq_true_2 (t ∈ t :: ts)) by left. cbn. f_equal. destruct ts as [|v ts]; [by rewrite after_no_labels|].
    change (bool_decide (","%string = ","%string)) with true. by rewrite after_filter_labels.
  - rewrite (bool_decide_eq_false_2 (u = t)) by done. fold (run_switch n t (write_filter_labels false ts ++ rest)). rewrite IH; [|intros H; apply Hr; set_solver].
    apply (f_equal (fun b : bool => if b then Some (body_of n rest) else None)). apply bool_decide_ext. set_solver.
Qed.

(** ** The switches of the generator *)

Lemma find_label (t : string) ls : find (fun x => bool_decide (x = t)) ls = if bool_decide (t ∈ ls) then Some t else None.
Proof.
  induction ls as [|l ls IH]; [by rewrite bool_decide_eq_false_2 by apply not_elem_of_nil|]. cbn. destruct (decide (l = t)) as [->|Hl].
  - by rewrite !bool_decide_eq_true_2 by (done || left).
  - rewrite bool_decide_eq_false_2, IH by done. apply (f_equal (fun b : bool => if b then Some t else None)), bool_decide_ext. set_solver.
Qed.

(** The cases of the version switch: the variants that are not at version 1. *)
Definition versioned (st : sumType) : list (string * N) := omap (fun v => pair v <$> st_nonDefault st !! v) (st_variants st).

Lemma find_version st t : (forall v, is_Some (st_nonDefault st !! v) -> v ∈ st_variants st) ->
  find (fun x => bool_decide (x.1 = t)) (versioned st) = pair t <$> st_nonDefault st !! t.
Proof.
  intros Hv. assert (t ∈ st_variants st \/ st_nonDefault st !! t = None) as Ht.
  { destruct (st_nonDefault st !! t) eqn:E; [left; apply Hv; by eexists|by right]. }
  clear Hv. unfold versioned. induction (st_variants st) as [|v vs IH].
  { destruct Ht as [Ht| ->]; [by apply not_elem_of_nil in Ht|done]. }
  cbn. destruct (st_nonDefault st !! v) as [ver|] eqn:Ev; cbn.
  - destruct (decide (v = t)) as [->|Hn]; [by rewrite bool_decide_eq_true_2, Ev by done|].
    rewrite bool_decide_eq_false_2 by done. apply IH. set_solver.
  - apply IH. destruct (decide (v = t)) as [->|Hn]; [by right|set_solver].
Qed.

Section Switches.
Variable r : resolver.
Variable Q : GoIdent -> string.

Ltac skip_line := rewrite run_skip; [|by rewrite ?read_label_ln|discriminate].
Ltac plain_lines := repeat (apply Forall_cons; split; [apply inner_ln; [lia|reflexivity]|]); try apply Forall_nil_2.

Definition unknown_line : string :=
  ln 2 ["return nil, "; Qin Q fmtPkgPath "Errorf"; "("; dquote; "%w: %q"; dquote; ", "; Qin Q esPkgPath "ErrUnknownEventType"; ", enc.TypeURL)"].

Lemma run_decode st t :
  run_switch 1 t (write_decode r Q st)
  = Some [if bool_decide (t ∈ st_variants st) then ln 2 ["msg = &"; Qname r Q t; "{}"] else unknown_line].
Proof.
  unfold write_decode. cbn [app]. do 3 skip_line. etransitivity.
  { refine (run_cases 1 id (fun v => [ln 2 ["msg = &"; Qname r Q v; "{}"]]) t (st_variants st) (_ :: [_] ++ (_ :: _)) _ _).
    - intros x _. plain_lines.
    - by apply (le_n 1). }
  cbn [id]. rewrite find_label. case_bool_decide; [done|]. apply run_default; [plain_lines|by apply (le_n 1)].
Qed.

Lemma run_versions st t : st_nonDefault st <> ∅ -> (forall v, is_Some (st_nonDefault st !! v) -> v ∈ st_variants st) ->
  run_switch 1 t (write_versions st) = Some [ln 2 ["return "; pretty (sum_schemaVersion st t)]].
Proof.
  intros Hne Hv. unfold write_versions. rewrite bool_decide_eq_false_2 by done. cbn [app]. do 2 skip_line.
  assert (flat_map (write_version_case st) (st_variants st) = flat_map (clause 1 fst (fun x => [ln 2 ["return "; pretty x.2]])) (versioned st)) as ->.
  { clear. unfold versioned. induction (st_variants st) as [|v vs IH]; [done|]. cbn. rewrite IH. unfold write_version_case.
    by destruct (st_nonDefault st !! v). }
  rewrite run_cases; [|intros x _; plain_lines|by apply (le_n 1)]. rewrite find_version by done. unfold sum_schemaVersion.
  destruct (st_nonDefault st !! t); [done|]. apply (run_default 1 t [_]); [plain_lines|by apply (le_n 1)].
Qed.

Lemma run_filter base cs t :
  run_switch 1 t (write_filter Q base cs) = if bool_decide (t ∈ map co_typeURL cs) then Some [ln 2 ["return true"]] else None.
Proof. unfold write_filter. cbn [app]. do 3 skip_line. rewrite run_labels; [done|]. intros _. by repeat skip_line. Qed.

Lemma case_body_inner base withState issuing c : Forall (inner_line 2) (write_case_body Q base withState issuing c).
Proof. unfold write_case_body, write_state_case. apply Forall_app. split; [destruct withState|destruct issuing]; plain_lines. Qed.

Lemma run_dispatch base cs withState issuing t :
  run_switch 2 t (write_switch Q base cs withState issuing)
  = Some (match find (fun c => bool_decide (co_typeURL c = t)) cs with
          | Some c => write_case_body Q base withState issuing c
          | None => [ln 3 ["return nil // not consumed; filtered before dispatch"]]
          end).
Proof.
  unfold write_switch. cbn [app]. skip_line. etransitivity.
  { refine (run_cases 2 co_typeURL (write_case_body Q base withState issuing) t cs (_ :: [_] ++ (_ :: _)) _ _).
    - intros x _. apply case_body_inner.
    - by apply (le_n 2). }
  destruct (find _ cs); [done|]. apply run_default; [plain_lines|by apply (le_n 2)].
Qed.
End Switches.

(** ** What is collected prints so *)

Definition versions_listed (st : sumType) : Prop := forall v, is_Some (st_nonDefault st !! v) -> v ∈ st_variants st.

Lemma add_variants_listed r fields : forall st st', versions_listed st -> add_variants r st fields = Ok st' -> versions_listed st'.
Proof.
  induction fields as [|fd fields IH]; intros st st' Hst; cbn; [by intros [= <-]|].
  destruct (add_variant r st fd) as [st1|] eqn:H1; cbn; [|done]. apply IH. clear IH. unfold add_variant in H1.
  destruct (fd_Message fd) as [name|]; [|done]. injection H1 as <-. intros v. cbn. intros Hv.
  destruct (decide (v = name)) as [->|Hn]; [set_solver|]. apply elem_of_app. left. apply Hst.
  destruct (_ =? 1)%N; [done|]. by rewrite lookup_insert_ne in Hv by done.
Qed.

Lemma collected_listed r msgs : forall sums, collect_sums r msgs = Ok sums -> Forall versions_listed sums.
Proof.
  induction msgs as [|m msgs IH]; intros sums; cbn; [intros [= <-]; constructor|]. case_bool_decide; [apply IH|].
  destruct (md_Oneofs (desc m)) as [|fields []]; [done| |done].
  destruct (add_variants _ _ _) as [st|] eqn:Hst; cbn; [|done]. destruct (collect_sums r msgs) as [rest|] eqn:Hr; cbn; [|done].
  intros [= <-]. constructor; [|by apply IH]. apply add_variants_listed in Hst; [done|]. intros v. cbn. rewrite lookup_empty. by intros [? ?].
Qed.
