(* ===== verification/PrinterClaims.v ===== *)
(** * The counter's protos, and what the plugin prints for them

    The descriptors of the repository's three annotated proto files, and the
    theorem that the switches the plugin prints decide as the models of the
    generated code do, whatever names protogen gives the identifiers. *)
From stdpp Require Import pretty.
From S2P Require Import Prelude Es GoText Hash Chain Timestamp Effect Store Runtime RuntimeCorrect Counter Definitions Delivery Projection Reaction.
From S2P Require Import Cmdsvc Generator Generated Printer PrinterCorrect.

(** ** Descriptors *)

Definition no_tags : FieldOptions := MkFieldOptions false false false false.

Definition scalar (name go : string) (k : pkind) (tags : FieldOptions) : Field := MkField name go k false false None tags.
Definition held (name go type : string) (tags : FieldOptions) : Field := MkField name go OtherKind false false (Some type) tags.

(** A message of a package: its options, fields and oneofs. *)
Definition message_of (pkg path name : string) (opts : MessageOptions) (fields : list Field) (oneofs : list (list Field)) : Message :=
  MkMessage (MkMessageDesc (pkg ++ "." ++ name) pkg (MkGoIdent name path) opts fields oneofs EmptyString) [].

Definition untagged : MessageOptions := MkMessageOptions None None None None None.
Definition ints (names : list (string * string)) : list Field := map (fun x => scalar x.1 x.2 OtherKind no_tags) names.

(** *** counter/v1/counter.proto *)

Definition counter_go : string := "github.com/laenenai/es-lite/gen/counter/v1".

Definition counter_message := message_of "counter.v1" counter_go.

(** A container of variants, by field and message name. *)
Definition counter_container (name iface : string) (variants : list (string * string)) : Message :=
  let fields := map (fun x => held x.1 x.2 ("counter.v1." ++ x.2) no_tags) variants in
  counter_message name (MkMessageOptions (Some iface) None None None None) fields [fields].

Definition counter_proto : File :=
  MkFile "counter/v1/counter.proto" "counter.v1" "counterv1" counter_go "counter/v1/counter" true
    [counter_message "Counter" (MkMessageOptions None None (Some "counter") None None)
       (ints [("initialized", "Initialized"); ("count", "Count"); ("min", "Min"); ("max", "Max"); ("closed", "Closed")]) [];
     counter_message "Init" untagged (ints [("min", "Min"); ("max", "Max"); ("initial", "Initial")]) [];
     counter_message "Principal" untagged [scalar "subject" "Subject" StringKind no_tags] [];
     counter_message "Increment" untagged
       [scalar "by" "By" OtherKind no_tags; held "actor" "Actor" "counter.v1.Principal" (MkFieldOptions false true false false);
        scalar "expected_version" "ExpectedVersion" Uint64Kind (MkFieldOptions false false false true)] [];
     counter_message "Decrement" untagged (ints [("by", "By")]) [];
     counter_message "Close" untagged [held "decided_at" "DecidedAt" "google.protobuf.Timestamp" (MkFieldOptions false false true false)] [];
     counter_container "Commands" "Command" [("init", "Init"); ("increment", "Increment"); ("decrement", "Decrement"); ("close", "Close")];
     counter_message "Initialized" untagged (ints [("min", "Min"); ("max", "Max"); ("value", "Value")]) [];
     counter_message "Incremented" (MkMessageOptions None (Some 2%N) None None None) (ints [("by", "By")]) [];
     counter_message "Decremented" untagged (ints [("by", "By")]) [];
     counter_message "Closed" untagged [] [];
     counter_container "Events" "Event"
       [("initialized", "Initialized"); ("incremented", "Incremented"); ("decremented", "Decremented"); ("closed", "Closed")]]%string [].

(** *** counterview/v1/view.proto *)

Definition view_go : string := "github.com/laenenai/es-lite/gen/counterview/v1".

Definition view_proto : File :=
  MkFile "counterview/v1/view.proto" "counterview.v1" "counterviewv1" view_go "counterview/v1/view" true
    [message_of "counterview.v1" view_go "CounterView"
       (MkMessageOptions None None None (Some (MkProjectionSpec "counter.view" KIND_READ_MODEL event_types FETCH_STATE_AS_OF_EVENT_VERSION REBUILD_FROM_LOG "counter")) None)
       (scalar "counter_id" "CounterId" StringKind no_tags :: ints [("count", "Count"); ("closed", "Closed")] ++ [scalar "version" "Version" Uint64Kind no_tags]) [];
     message_of "counterview.v1" view_go "CounterActivity"
       (MkMessageOptions None None None (Some (MkProjectionSpec "counter.activity" KIND_INDEX activity_types FETCH_METADATA_ONLY REBUILD_FROM_LOG "counter")) None)
       [scalar "counter_id" "CounterId" StringKind no_tags; scalar "events" "Events" Uint64Kind no_tags] [];
     message_of "counterview.v1" view_go "ResetOnClosed"
       (MkMessageOptions None None None None
          (Some (MkReactionSpec "counter.reset_on_closed" ["counter.v1.Closed"] ["counter.v1.Init"] FETCH_STATE_AS_OF_EVENT_VERSION "counter"))) [] []]%string [].

(** *** countersvc/v1/counter_service.proto *)

Definition countersvc_go : string := "github.com/laenenai/es-lite/cmdsvc/example/gen/countersvc/v1".

Definition request_fields (command : string) : list Field :=
  [scalar "counter_id" "CounterId" StringKind (MkFieldOptions true false false false); held "command" "Command" command no_tags].

Definition response_fields : list Field :=
  [held "result" "Result" "countersvc.v1.WriteResult" no_tags; held "state" "State" "counter.v1.Counter" no_tags].

Definition counter_rpc (name : string) : Method :=
  MkMethod name false (MkGoIdent (name ++ "Request") countersvc_go) (request_fields ("counter.v1." ++ name))
    (MkGoIdent (name ++ "Response") countersvc_go) response_fields.

Definition countersvc_message (name : string) (fields : list Field) : Message := message_of "countersvc.v1" countersvc_go name untagged fields [].

Definition counter_service_proto : File :=
  MkFile "countersvc/v1/counter_service.proto" "countersvc.v1" "countersvcv1" countersvc_go "countersvc/v1/counter_service" true
    (countersvc_message "WriteResult"
       [scalar "stream_id" "StreamId" StringKind no_tags; scalar "version" "Version" Uint64Kind no_tags;
        scalar "global_position" "GlobalPosition" Uint64Kind no_tags]
     :: flat_map (fun name => [countersvc_message (name ++ "Request") (request_fields ("counter.v1." ++ name));
                               countersvc_message (name ++ "Response") response_fields])%string ["Init"; "Increment"; "Close"]%string)
    [MkService "countersvc.v1.CounterCommandService" "CounterCommandService" (Some "counter.v1.Counter"%string)
       (map counter_rpc ["Init"; "Increment"; "Close"]%string)].

Definition counter_protos : list File := [counter_proto; view_proto; counter_service_proto].

(** ** Printed code *)

(** C40: the switches the plugin prints decide as the models of the generated code
    do, whatever the qualified names are.  Executed on a type name: the Decode
    switch of a collected sum type allocates the message of that name exactly
    for its variants and reports an unknown type for every other; the version
    switch, printed when some variant is not at version 1, returns the version
    [sum_schemaVersion] has; the filter of a spec answers true exactly for the
    types [spec_filter] accepts; and the dispatch runs the case of the first
    consumed event of that type, and nothing for others. *)
Theorem printed_switches_decide r f sums st (Q : GoIdent -> string) base cs withState issuing env :
  collectSumTypes r f = Ok sums -> st ∈ sums ->
  let t := TypeURL env in
  run_switch 1 t (write_decode r Q st) = Some [if bool_decide (t ∈ st_variants st) then ln 2 ["msg = &"; Qname r Q t; "{}"] else unknown_line Q]
  /\ (write_versions st = [] /\ sum_schemaVersion st t = 1%N
      \/ run_switch 1 t (write_versions st) = Some [ln 2 ["return "; pretty (sum_schemaVersion st t)]])
  /\ run_switch 1 t (write_filter Q base cs) = (if spec_filter (map co_typeURL cs) env then Some [ln 2 ["return true"]] else None)
  /\ run_switch 2 t (write_switch Q base cs withState issuing)
     = Some (match find (fun c => bool_decide (co_typeURL c = t)) cs with
             | Some c => write_case_body Q base withState issuing c
             | None => [ln 3 ["return nil // not consumed; filtered before dispatch"]]
             end).
Proof.
  intros HS Hst t. split; [apply run_decode|]. split; [|split; [apply run_filter|apply run_dispatch]].
  destruct (decide (st_nonDefault st = ∅)) as [He|Hne].
  - left. unfold write_versions, sum_schemaVersion. by rewrite bool_decide_eq_true_2, He, lookup_empty by done.
  - right. apply run_versions; [done|]. unfold collectSumTypes in HS. apply result_bind_Ok in HS as (? & _ & HS).
    apply collected_listed in HS. rewrite Forall_forall in HS. by apply HS.
Qed.

Definition incremented : Envelope :=
  MkEnvelope uuid_Nil (MkStreamID "counter" "main") 1 1 "" "counter.v1.Incremented" 2 0 0 uuid_Nil uuid_Nil uuid_Nil (env_Actor goldenV1) [] None None.

Definition counter_resolver : resolver := match newResolver counter_protos with Ok r => r | Err _ => empty_resolver end.

Lemma printed_switches_decide_witness :
  exists sums st, collectSumTypes counter_resolver counter_proto = Ok sums /\ st ∈ sums
    /\ run_switch 1 "counter.v1.Incremented" (write_versions st) = Some [ln 2 ["return "; "2"]].
Proof.
  assert (match collectSumTypes counter_resolver counter_proto with
          | Ok [_; st] => sum_schemaVersion st "counter.v1.Incremented" = 2%N
          | _ => False end) as HC by (vm_compute; reflexivity).
  destruct (collectSumTypes counter_resolver counter_proto) as [[|c [|st [|]]]|e] eqn:HR; try done.
  exists [c; st], st. split; [done|]. split; [by right; left|].
  assert (st ∈ [c; st]) as Hst by (by right; left).
  destruct (printed_switches_decide counter_resolver counter_proto [c; st] st gi_GoName "" [] false false incremented HR Hst)
    as (_ & H1 & _).
  change (TypeURL incremented) with "counter.v1.Incremented"%string in H1. rewrite HC in H1.
  destruct H1 as [[_ H1]|H1]; [discriminate H1|exact H1].
Defined.
