(* ===== verification/Conformance.v ===== *)
(** * The feed conformance suite (src/feedtest/conformance.go)

    The tests every feed adapter must pass, over any implementation of the
    ports.  A test body is a computation that [throw]s where the Go code calls
    t.Fatal; a run of the suite is the list of its tests with their failures.
    A backend supplies the ports, the seeding and inspection hooks, and a world
    in which time passes and contexts can be cancelled. *)
From S2P Require Import Prelude Es Effect Definitions FeedPorts Feed.

Definition clockSlack : Z := Minute.

Definition typConsumed : string := "conformance.v1.Consumed".
Definition typIgnored : string := "conformance.v1.Ignored".
Definition typHappened : string := "conformance.v1.Happened".
Definition typPoison : string := "conformance.v1.Poison".

(** The audit row as the suite reads it back. *)
Record DeadLetterRow := MkDeadLetterRow {
  dr_TypeURL : string;
  dr_SizeBytes : Z;
  dr_Reason : string;
  dr_Actor : string;
  dr_CreatedAt : time
}.

(** What the tests use of the Go runtime beside the clock: time.Sleep, the
    context a subscription runs under, and the slice a test's sink appends to. *)
Class TestEnv (W : Type) := {
  te_Sleep : Z -> W -> W;
  te_WithTimeout : W -> W;                (** ctx, cancel := context.WithTimeout(ctx, ...) *)
  te_cancel : W -> W;                     (** cancel() *)
  te_newSink : W -> W;
  te_push : Envelope -> W -> W;           (** events = append(events, env) *)
  te_events : W -> list Envelope
}.

Section Suite.
Context {W : Type} `{FE : FeedEnv W} `{TE : TestEnv W}.

(** ** Fixtures *)

(** Hooks that fail call t.Fatal themselves: an error of theirs ends the test. *)
Definition AppendHook : Type := string -> StreamID -> N -> string -> list byte -> SM W Envelope.
Definition PlantHook : Type := string -> StreamID -> N -> string -> list byte -> SM W N.
Definition ReadHook : Type := string -> string -> string -> N -> SM W (option DeadLetterRow).
Definition CountHook : Type := string -> SM W Z.

(** A fixture's Store, every field possibly missing. *)
Record StoreFields := MkStoreFields {
  sf_Logs : option (Logs W);
  sf_Checkpoints : option (CheckpointStore W);
  sf_Leases : option (LeaseStore W);
  sf_DeadLetters : option (DeadLetterStore W);
  sf_Append : option AppendHook;
  sf_PlantOverCap : option PlantHook;
  sf_MaxPayloadBytes : Z;
  sf_ReadDeadLetter : option ReadHook;
  sf_CountDeadLetters : option CountHook
}.

(** A complete one. *)
Record Store := MkStore {
  ft_Logs : Logs W;
  ft_Checkpoints : CheckpointStore W;
  ft_Leases : LeaseStore W;
  ft_DeadLetters : DeadLetterStore W;
  ft_Append : AppendHook;
  ft_PlantOverCap : PlantHook;
  ft_MaxPayloadBytes : Z;
  ft_ReadDeadLetter : ReadHook;
  ft_CountDeadLetters : CountHook
}.

Definition required {A} (name : string) (o : option A) : res A :=
  match o with Some a => Ok a | None => Err (ErrorsNew ("feedtest: Store." ++ name ++ " is required")) end.

(** validate: the first missing field, in the order of the switch. *)
Definition validate (st : StoreFields) : res Store :=
  let? logs := required "Logs" (sf_Logs st) in
  let? cps := required "Checkpoints" (sf_Checkpoints st) in
  let? leases := required "Leases" (sf_Leases st) in
  let? dls := required "DeadLetters" (sf_DeadLetters st) in
  let? app := required "Append" (sf_Append st) in
  let? plant := required "PlantOverCap" (sf_PlantOverCap st) in
  let? read := required "ReadDeadLetter" (sf_ReadDeadLetter st) in
  let? count := required "CountDeadLetters" (sf_CountDeadLetters st) in
  if (sf_MaxPayloadBytes st <=? 0)%Z then Err (ErrorsNew "feedtest: Store.MaxPayloadBytes must be positive") else
  Ok (MkStore logs cps leases dls app plant (sf_MaxPayloadBytes st) read count).

(** NewStore: the opened backend and its cleanup. *)
Definition NewStore : Type := SM W (StoreFields * (W -> W)).
Definition NewCheckpointStore : Type := SM W (option (CheckpointStore W) * (W -> W)).
Definition NewLeaseStore : Type := SM W (option (LeaseStore W) * (W -> W)).

Record Fixture := MkFixture { fx_NewStore : option NewStore; fx_MultiWorkspace : bool }.

(** ** Tests *)

Definition outcome : Type := (string * option error)%type.
Definition Suite : Type := W -> list outcome * W.

(** t.Run: the rest of the suite goes on after a failed test. *)
Definition t_Run (name : string) (body : SM W unit) : Suite := fun w =>
  let '(r, w) := body w in ([(name, match r with Ok _ => None | Err e => Some e end)], w).

Fixpoint t_all (tests : list Suite) : Suite := fun w =>
  match tests with
  | [] => ([], w)
  | t :: ts => let '(os, w) := t w in let '(os', w) := t_all ts w in (os ++ os', w)
  end.

Definition passed (os : list outcome) : bool := forallb (fun o => bool_decide (o.2 = None)) os.

Definition Fatal {A} (msg : string) : SM W A := throw (ErrorsNew msg).
(** [if b { t.Fatal(msg) }]. *)
Definition fatal_if (b : bool) (msg : string) : SM W unit := if b then Fatal msg else ret tt.
(** [v, _ = m]: the error is dropped, and [zero] is what the call returns with it. *)
Definition value_or {A} (zero : A) (m : SM W A) : SM W A := fun w =>
  match m w with (Ok a, w) => (Ok a, w) | (Err _, w) => (Ok zero, w) end.

Definition time_Now : SM W time := fun w => let '(t, w) := fx_Now w in (Ok t, w).
Definition do_ (f : W -> W) : SM W unit := fun w => (Ok tt, f w).

(** open of the sections over a whole store. *)
Definition open_store (newStore : NewStore) (body : Store -> SM W unit) : SM W unit := fun w =>
  match newStore w with
  | (Err e, w) => (Err e, w)
  | (Ok (raw, cleanup), w) =>
      match validate raw with
      | Err e => (Err e, w)
      | Ok st => let '(r, w) := body st w in (r, cleanup w)
      end
  end.

(** open of the sections over one port; a method of a nil port panics. *)
Definition open_port {P} (newPort : SM W (option P * (W -> W))) (body : P -> SM W unit) : SM W unit := fun w =>
  match newPort w with
  | (Err e, w) => (Err e, w)
  | (Ok (None, cleanup), w) => (Err (ErrorsNew "invalid memory address or nil pointer dereference"), cleanup w)
  | (Ok (Some p, cleanup), w) => let '(r, w) := body p w in (r, cleanup w)
  end.

(** ** Helpers *)

Definition testStream (name : string) : SM W StreamID := lift (NewStreamID "conformance" name) wrap "feedtest: stream id".

Definition positions (envs : list Envelope) : list N := GlobalPosition <$> envs.

Definition assertRecent (what : string) (at_ before after : time) : SM W unit :=
  let! _ := fatal_if (IsZero at_) (what ++ " = the zero time") in
  let lo := (before - clockSlack)%Z in let hi := (after + clockSlack)%Z in
  fatal_if ((at_ <? lo)%Z || (hi <? at_)%Z) (what ++ ": want a recent instant").

Definition cancelSink_Send (want : nat) (ack : option (N -> SM W unit)) : Sink W := fun env =>
  let! _ := do_ (te_push env) in
  let! n := fun w => (Ok (length (te_events w)), w) in
  if (want <=? n)%nat then
    let! _ := match ack with
              | Some ack => ack (GlobalPosition env) wrap "feedtest: ack"
              | None => ret tt
              end in
    do_ te_cancel
  else ret tt.

Definition ackingSink_Send (ack : option (N -> SM W unit)) : Sink W := fun env =>
  let! _ := do_ (te_push env) in
  match ack with
  | Some ack => ack (GlobalPosition env) wrap "feedtest: ack"
  | None => ret tt
  end.

Definition sink_got : SM W (list Envelope) := fun w => (Ok (te_events w), w).

Definition newServer (st : Store) : SM W (Server W) :=
  NewServer (MkConfig (Some (ft_Checkpoints st)) (Some (ft_Leases st)) (Some (ft_Logs st)) None None
    (Some (ft_DeadLetters st)) None 10 0 0 0 (10 * Millisecond) Minute (30 * Second))
  wrap "feedtest: new server".

(** ** The log *)

Definition logScope : string := "ws_feedtest_log".

(** The position of the i-th event of a slice known to have one. *)
Definition pos_at (l : list Envelope) (i : nat) : N := default 0%N (GlobalPosition <$> l !! i).

(** A page call: a log returns no events beside an error. *)
Definition read_page (lg : Log W) (from : N) (limit maxBytes : Z) (types : list string) :
    SM W (list Envelope * bool * option error) := fun w =>
  match lg_ReadAllBounded lg from limit maxBytes types w with
  | (Ok (got, truncated), w) => (Ok (got, truncated, None), w)
  | (Err e, w) => (Ok ([], false, Some e), w)
  end.

(** The seeding loops: one event per type and payload, from version [i] on. *)
Fixpoint seed (st : Store) (scope : string) (sid : StreamID) (i : N) (evs : list (string * string)) : SM W (list Envelope) :=
  match evs with
  | [] => ret []
  | (typ, payload) :: evs' =>
      let! env := ft_Append st scope sid i typ (bytes_of payload) in
      let! envs := seed st scope sid (i + 1) evs' in
      ret (env :: envs)
  end.

Definition oversized (st : Store) : list byte := repeat Byte.x70 (Z.to_nat (ft_MaxPayloadBytes st * 64)).

(** The over-cap row's typed error: position, type, size and limit. *)
Definition assert_too_large (st : Store) (what : string) (err : option error) (gp : N) (typ : string) : SM W unit :=
  match err ≫= AsTooLarge with
  | Some (EventTooLargeError pos ty size limit) =>
      fatal_if (negb ((pos =? gp)%N && bool_decide (ty = typ) && (size =? Z.of_nat (length (oversized st)))%Z
                      && (limit =? ft_MaxPayloadBytes st)%Z)) (what ++ ": error fields")
  | _ => Fatal (what ++ ": want *feed.EventTooLargeError")
  end.

Definition log_head_is_global (lg : Log W) (st : Store) : SM W unit :=
  let! head := lg_Head lg wrap "feedtest: head empty" in
  let! _ := fatal_if (negb (head =? 0)%N) "feedtest: head on an empty log" in
  let! a := testStream "head-a" in
  let! b := testStream "head-b" in
  let! _ := ft_Append st logScope a 0%N typHappened (bytes_of "one") in
  let! _ := ft_Append st logScope b 0%N typHappened (bytes_of "two") in
  let! res := ft_Append st logScope a 1%N typHappened (bytes_of "three") in
  let! head := lg_Head lg wrap "feedtest: head" in
  let! _ := fatal_if (negb (head =? GlobalPosition res)%N) "feedtest: head, want the global position" in
  fatal_if (head =? Version res)%N "feedtest: head is the stream version".

Definition log_filter_order_limit (lg : Log W) (st : Store) : SM W unit :=
  let! sid := testStream "bounded" in
  let! appended := seed st logScope sid 0
      (map (fun typ => (typ, "x"%string)) [typConsumed; typIgnored; typConsumed; typIgnored; typConsumed]) in
  let! (got, truncated, err) := read_page lg 0 10 0 [typConsumed] in
  let! _ := match err with Some e => throw (Errorf "feedtest: read" e) | None => ret tt end in
  let! _ := fatal_if truncated "feedtest: an unbounded read reported truncated" in
  let! _ := fatal_if (negb (length got =? 3)%nat) "feedtest: want 3 (type-filtered)" in
  let! _ := forM (fun i => fatal_if (negb (pos_at got i =? pos_at appended (i * 2))%N) "feedtest: event position (global order)")
              (seq 0 (length got)) in
  let! (got, _) := lg_ReadAllBounded lg 0 2 0 [typConsumed] wrap "feedtest: read limit" in
  let! _ := fatal_if (negb (length got =? 2)%nat) "feedtest: limited read, want 2" in
  let! (got, _) := lg_ReadAllBounded lg (pos_at appended 2) 10 0 [typConsumed] wrap "feedtest: read from a position" in
  fatal_if (negb (length got =? 1)%nat || negb (pos_at got 0 =? pos_at appended 4)%N)
    "feedtest: read from position, want only the last consumed event".

Definition log_empty_types (lg : Log W) (st : Store) : SM W unit :=
  let! sid := testStream "empty-types" in
  let! _ := ft_Append st logScope sid 0%N typHappened (bytes_of "x") in
  let! (got, truncated) := lg_ReadAllBounded lg 0 10 0 [] wrap "feedtest: read" in
  fatal_if (negb (length got =? 0)%nat || truncated) "feedtest: empty types, want (nil, false)".

Definition log_budget_stops (lg : Log W) (st : Store) : SM W unit :=
  let! sid := testStream "budget" in
  let! appended := seed st logScope sid 0 (repeat (typHappened, "abcd"%string) 4) in
  let! (got, truncated) := lg_ReadAllBounded lg 0 10 10 [typHappened] wrap "feedtest: read" in
  let! _ := fatal_if (negb (length got =? 2)%nat || negb truncated) "feedtest: budget page, want 2/true" in
  let! _ := fatal_if (negb (pos_at got 0 =? pos_at appended 0)%N || negb (pos_at got 1 =? pos_at appended 1)%N)
              "feedtest: budget page positions, want the first two" in
  let! (got, _) := lg_ReadAllBounded lg (pos_at got 1) 10 10 [typHappened] wrap "feedtest: read resume" in
  let! _ := fatal_if (negb (length got =? 2)%nat || negb (pos_at got 0 =? pos_at appended 2)%N)
              "feedtest: resume page, want the next two events" in
  let! (got, truncated) := lg_ReadAllBounded lg 0 10 (-1) [typHappened] wrap "feedtest: read unbounded" in
  fatal_if (negb (length got =? 4)%nat || truncated) "feedtest: unbounded page, want 4/false".

Definition log_exact_budget (lg : Log W) (st : Store) : SM W unit :=
  let! sid := testStream "exact-budget" in
  let! _ := ft_Append st logScope sid 0%N typHappened (bytes_of "abcd") in
  let! _ := ft_Append st logScope sid 1%N typHappened (bytes_of "efgh") in
  let! (got, truncated) := lg_ReadAllBounded lg 0 10 8 [typHappened] wrap "feedtest: read" in
  fatal_if (negb (length got =? 2)%nat || truncated) "feedtest: exact fit, want 2/false".

Definition log_default_limit (lg : Log W) (st : Store) : SM W unit :=
  let! sid := testStream "default-limit" in
  let! _ := seed st logScope sid 0 (repeat (typHappened, "x"%string) 101) in
  let! (got, _) := lg_ReadAllBounded lg 0 0 0 [typHappened] wrap "feedtest: read" in
  fatal_if (negb (length got =? 100)%nat) "feedtest: default limit, want 100".

Definition log_first_row_over_budget (lg : Log W) (st : Store) : SM W unit :=
  let! sid := testStream "oversized" in
  let! _ := ft_Append st logScope sid 0%N typHappened (bytes_of "12345") in
  let! _ := ft_Append st logScope sid 1%N typHappened (bytes_of "67890") in
  let! (got, truncated) := lg_ReadAllBounded lg 0 10 3 [typHappened] wrap "feedtest: read" in
  let! _ := fatal_if (negb (length got =? 1)%nat) "feedtest: want the first oversized event only" in
  fatal_if (negb truncated) "feedtest: an oversized first event did not report truncated".

Definition log_poison_first (lg : Log W) (st : Store) : SM W unit :=
  let! sid := testStream "poison-first" in
  let! gp := ft_PlantOverCap st logScope sid 1%N typHappened (oversized st) in
  let! sid := testStream "poison-first-ok" in
  let! _ := ft_Append st logScope sid 0%N typHappened (bytes_of "ok") in
  let! (got, _, err) := read_page lg 0 10 0 [typHappened] in
  let! _ := assert_too_large st "feedtest: ReadAllBounded" err gp typHappened in
  fatal_if (negb (length got =? 0)%nat) "feedtest: the over-cap first row was materialized".

Definition log_poison_later (lg : Log W) (st : Store) : SM W unit :=
  let! sid := testStream "poison-later" in
  let! first := ft_Append st logScope sid 0%N typHappened (bytes_of "ok") in
  let! sid := testStream "poison-later-b" in
  let! gp := ft_PlantOverCap st logScope sid 1%N typHappened (oversized st) in
  let! sid := testStream "poison-later-after" in
  let! after := ft_Append st logScope sid 0%N typHappened (bytes_of "after") in
  let! _ := fatal_if (negb ((GlobalPosition first <? gp)%N && (gp <? GlobalPosition after)%N)) "feedtest: insert order" in
  let! (got, truncated) := lg_ReadAllBounded lg 0 10 0 [typHappened] wrap "feedtest: ReadAllBounded" in
  let! _ := fatal_if (negb (length got =? 1)%nat || negb (pos_at got 0 =? GlobalPosition first)%N)
              "feedtest: page, want only the event before the poison row" in
  let! _ := fatal_if (negb truncated) "feedtest: the page stopped before an over-cap row without truncated=true" in
  let! (got, _, err) := read_page lg (GlobalPosition first) 10 0 [typHappened] in
  let! _ := assert_too_large st "feedtest: next page" err gp typHappened in
  fatal_if (negb (length got =? 0)%nat) "feedtest: the over-cap first row was materialized".

(** One test of the section: a fresh store and the Log opened for logScope. *)
Definition log_test (newLog : NewStore) (name : string) (body : Log W -> Store -> SM W unit) : Suite :=
  t_Run ("log/" ++ name) (open_store newLog (fun st =>
    let! lg := ft_Logs st logScope wrap "feedtest: open log" in
    body lg st)).

Definition RunLog (newLog : NewStore) : Suite := t_all [
  log_test newLog "head is the global position, not a stream version" log_head_is_global;
  log_test newLog "type filter, global order, page limit, resume position" log_filter_order_limit;
  log_test newLog "an empty type set returns no events" log_empty_types;
  log_test newLog "the byte budget stops the page before the row that overflows" log_budget_stops;
  log_test newLog "a page that exactly meets the budget is not truncated" log_exact_budget;
  log_test newLog "limit <= 0 selects the adapter default of 100" log_default_limit;
  log_test newLog "the first row is included even alone over budget" log_first_row_over_budget;
  log_test newLog "an over-cap first row is refused, not materialized" log_poison_first;
  log_test newLog "an over-cap later row stops the page before it" log_poison_later].

(** ** Checkpoints *)

(** Two checks many tests repeat: what Load says, and what Checkpoint says. *)
Definition expect_load (cp : CheckpointStore W) (scope projection instance : string) (want : N) (msg : string) : SM W unit :=
  let! pos := value_or 0%N (cs_Load cp scope projection instance) in
  fatal_if (negb (pos =? want)%N) msg.

Definition expect_absent (cp : CheckpointStore W) (scope projection instance msg : string) : SM W unit :=
  let! c := cs_Checkpoint cp scope projection instance wrap msg in
  fatal_if (bool_decide (is_Some c)) msg.

(** [got, _, _ = cp.Checkpoint(...)] compared with a position and a hash. *)
Definition expect_checkpoint (cp : CheckpointStore W) (scope projection instance : string) (want : N) (hash msg : string) : SM W unit :=
  let! c := value_or None (cs_Checkpoint cp scope projection instance) in
  let got := default zero_Checkpoint c in
  fatal_if (negb (cp_Position got =? want)%N || negb (bool_decide (cp_DefinitionHash got = hash))) msg.

Definition cp_absent_monotonic (cp : CheckpointStore W) : SM W unit :=
  let! pos := cs_Load cp "ws" "p" "live" wrap "feedtest: load absent" in
  let! _ := fatal_if (negb (pos =? 0)%N) "feedtest: absent load, want 0" in
  let! _ := expect_absent cp "ws" "p" "live" "feedtest: absent checkpoint" in
  let! _ := cs_Save cp "ws" "p" "live" "" 5 wrap "feedtest: save" in
  let! _ := expect_load cp "ws" "p" "live" 5 "feedtest: load, want 5" in
  let! _ := cs_Save cp "ws" "p" "live" "" 3 wrap "feedtest: save lower" in
  let! _ := expect_load cp "ws" "p" "live" 5 "feedtest: load after a lower save, want 5 (monotonic)" in
  let! _ := cs_Save cp "ws" "p" "other" "" 2 wrap "feedtest: save other" in
  let! _ := expect_load cp "ws" "p" "other" 2 "feedtest: the other instance, want 2" in
  expect_load cp "ws" "p" "live" 5 "feedtest: the live instance, want 5".

Definition cp_reset_delete (cp : CheckpointStore W) : SM W unit :=
  let! before := time_Now in
  let! _ := cs_Save cp "ws" "p" "live" "" 7 wrap "feedtest: save" in
  let! after := time_Now in
  let! found := cs_Checkpoint cp "ws" "p" "live" wrap "feedtest: checkpoint" in
  let! checkpoint := match found with Some c => ret c | None => Fatal "feedtest: checkpoint, want true/nil" end in
  let! _ := fatal_if (negb (cp_Position checkpoint =? 7)%N) "feedtest: checkpoint position, want 7" in
  let! _ := assertRecent "feedtest: checkpoint updated_at" (cp_UpdatedAt checkpoint) before after in
  let! _ := cs_Reset cp "ws" "p" "live" "" 1 wrap "feedtest: reset" in
  let! _ := expect_load cp "ws" "p" "live" 1 "feedtest: load after reset, want 1 (reset rewinds)" in
  let! c := value_or None (cs_Checkpoint cp "ws" "p" "live") in
  let! _ := fatal_if (negb (cp_Position (default zero_Checkpoint c) =? 1)%N) "feedtest: checkpoint after reset, want 1" in
  let! _ := cs_Save cp "ws" "p" "other" "" 4 wrap "feedtest: save other" in
  let! _ := cs_Delete cp "ws" "p" "live" wrap "feedtest: delete" in
  let! _ := expect_absent cp "ws" "p" "live" "feedtest: checkpoint after delete" in
  let! _ := expect_load cp "ws" "p" "other" 4 "feedtest: the other instance after delete, want 4" in
  cs_Delete cp "ws" "p" "live" wrap "feedtest: delete absent".

Definition cp_definition_hash (cp : CheckpointStore W) : SM W unit :=
  let h1 := definition_Hash (MkDefinition "p" ["a.v1.A"%string]) in
  let h2 := definition_Hash (MkDefinition "p" ["a.v1.A"%string; "b.v1.B"%string]) in
  let! _ := cs_Save cp "ws" "p" "live" "" 5 wrap "feedtest: save without definition" in
  let! found := cs_Checkpoint cp "ws" "p" "live" wrap "feedtest: checkpoint" in
  let got := default zero_Checkpoint found in
  let! _ := fatal_if (negb (bool_decide (is_Some found)) || negb (cp_Position got =? 5)%N
                      || negb (bool_decide (cp_DefinitionHash got = EmptyString)))
              "feedtest: checkpoint, want position 5 and no hash" in
  let! _ := cs_Save cp "ws" "p" "live" h1 6 wrap "feedtest: save with definition" in
  let! _ := expect_checkpoint cp "ws" "p" "live" 6 h1 "feedtest: checkpoint, want position 6 under its hash" in
  let! _ := cs_Save cp "ws" "p" "live" "" 7 wrap "feedtest: save without definition" in
  let! _ := expect_checkpoint cp "ws" "p" "live" 7 h1 "feedtest: checkpoint, want position 7 with the hash preserved" in
  let! _ := cs_Reset cp "ws" "p" "live" "" 1 wrap "feedtest: reset without definition" in
  let! _ := expect_checkpoint cp "ws" "p" "live" 1 h1 "feedtest: checkpoint, want position 1 with the hash preserved" in
  let! _ := cs_Reset cp "ws" "p" "live" h2 0 wrap "feedtest: reset with definition" in
  expect_checkpoint cp "ws" "p" "live" 0 h2 "feedtest: checkpoint, want position 0 under the new hash".

Definition cp_test (newStore : NewCheckpointStore) (name : string) (body : CheckpointStore W -> SM W unit) : Suite :=
  t_Run ("checkpoints/" ++ name) (open_port newStore body).

Definition RunCheckpoints (newStore : NewCheckpointStore) : Suite := t_all [
  cp_test newStore "absent load, monotonic save, per-instance rows" cp_absent_monotonic;
  cp_test newStore "reset rewinds, delete removes exactly one row" cp_reset_delete;
  cp_test newStore "definition hash round-trips and empty definitions preserve it" cp_definition_hash].

(** ** Leases *)

(** ok, err := leases.Acquire(...), for tests that fail on the error first. *)
Definition acquire (ls : LeaseStore W) (scope projection instance owner consumer : string) (ttl : Z) : SM W bool := fun w =>
  let '(ok, err, w) := le_Acquire ls scope projection instance owner consumer ttl w in
  (match err with Some e => Err e | None => Ok ok end, w).

(** [if ok, err := leases.Acquire(...); err != nil || ok != want { t.Fatal }]. *)
Definition expect_acquire (ls : LeaseStore W) (scope projection instance owner consumer : string) (ttl : Z) (want : bool) (msg : string) : SM W unit :=
  let! ok := acquire ls scope projection instance owner consumer ttl wrap msg in
  fatal_if (negb (Bool.eqb ok want)) msg.

(** The holder, as [lease, held, err := leases.Holder(...)] with both failures fatal. *)
Definition expect_held (ls : LeaseStore W) (scope projection instance msg : string) : SM W Lease :=
  let! holder := le_Holder ls scope projection instance wrap msg in
  match holder with Some lease => ret lease | None => Fatal msg end.

Definition lease_one_winner (ls : LeaseStore W) : SM W unit :=
  let! start := time_Now in
  let! ok := acquire ls "ws" "p" "live" "owner-a" "consumer-a" Minute wrap "feedtest: acquire owner-a" in
  let! _ := fatal_if (negb ok) "feedtest: owner-a lost a free lease" in
  let! ok := acquire ls "ws" "p" "live" "owner-b" "consumer-b" Minute wrap "feedtest: acquire owner-b" in
  let! _ := fatal_if ok "feedtest: owner-b took a lease owner-a still holds" in
  let! lease := expect_held ls "ws" "p" "live" "feedtest: holder" in
  let! _ := fatal_if (negb (bool_decide (ls_Owner lease = "owner-a"%string)) || negb (bool_decide (ls_Consumer lease = "consumer-a"%string)))
              "feedtest: holder, want owner-a/consumer-a" in
  fatal_if ((ls_ExpiresAt lease <? start - clockSlack)%Z || (start + (Minute + clockSlack) <? ls_ExpiresAt lease)%Z)
    "feedtest: holder ExpiresAt, want within the 1m TTL of the acquire".

Definition lease_reacquire (ls : LeaseStore W) : SM W unit :=
  let! _ := expect_acquire ls "ws" "p" "live" "owner-a" "pod-a" Minute true "feedtest: first acquire" in
  let! _ := expect_acquire ls "ws" "p" "live" "owner-a" "pod-b" Minute true "feedtest: same-owner acquire" in
  let! lease := expect_held ls "ws" "p" "live" "feedtest: holder" in
  fatal_if (negb (bool_decide (ls_Owner lease = "owner-a"%string)) || negb (bool_decide (ls_Consumer lease = "pod-b"%string)))
    "feedtest: holder, want owner-a/pod-b".

Definition Hour : Z := 60 * Minute.

Definition lease_renew_owner (ls : LeaseStore W) : SM W unit :=
  let! _ := expect_acquire ls "ws" "p" "live" "owner-a" "consumer-a" (200 * Millisecond) true "feedtest: acquire owner-a" in
  let! ok := le_Renew ls "ws" "p" "live" "owner-b" Minute wrap "feedtest: renew owner-b" in
  let! _ := fatal_if ok "feedtest: a non-owner renewed the lease" in
  let! ok := le_Renew ls "ws" "p" "live" "owner-a" (2 * Hour) wrap "feedtest: renew owner-a" in
  let! _ := fatal_if (negb ok) "feedtest: the owner failed to renew its own lease" in
  let! lease := expect_held ls "ws" "p" "live" "feedtest: holder after renew" in
  let! now := time_Now in
  let! _ := fatal_if (negb (now + Hour <? ls_ExpiresAt lease)%Z) "feedtest: renewed ExpiresAt did not extend past the original TTL" in
  fatal_if (negb (bool_decide (ls_Owner lease = "owner-a"%string))) "feedtest: holder owner, want owner-a".

Definition lease_release_guarded (ls : LeaseStore W) : SM W unit :=
  let! _ := expect_acquire ls "ws" "p" "live" "owner-a" "consumer-a" Minute true "feedtest: acquire" in
  let! _ := le_Release ls "ws" "p" "live" "owner-b" wrap "feedtest: release owner-b" in
  let! _ := expect_held ls "ws" "p" "live" "feedtest: holder after a non-owner release, want still held" in
  let! _ := le_Release ls "ws" "p" "live" "owner-a" wrap "feedtest: release owner-a" in
  let! holder := le_Holder ls "ws" "p" "live" wrap "feedtest: holder after the owner's release" in
  let! _ := fatal_if (bool_decide (is_Some holder)) "feedtest: holder after the owner's release, want free" in
  let! _ := le_Release ls "ws" "p" "live" "owner-a" wrap "feedtest: release a free key" in
  expect_acquire ls "ws" "p" "live" "owner-b" "consumer-b" Minute true "feedtest: acquire after release".

(** The polling loop: the deadline is five seconds and each round sleeps five
    milliseconds, so a thousand rounds reach it. *)
Fixpoint poll_expiry (fuel : nat) (ls : LeaseStore W) (deadline : time) : SM W unit :=
  match fuel with
  | O => Fatal "feedtest: still polling"
  | S fuel' =>
      let! holder := le_Holder ls "ws" "p" "live" wrap "feedtest: holder" in
      match holder with
      | None => ret tt
      | Some _ =>
          let! now := time_Now in
          let! _ := fatal_if (deadline <? now)%Z "feedtest: Holder kept reporting an expired lease" in
          let! _ := do_ (te_Sleep (5 * Millisecond)) in
          poll_expiry fuel' ls deadline
      end
  end.

Definition lease_expires (ls : LeaseStore W) : SM W unit :=
  let! _ := expect_acquire ls "ws" "p" "live" "owner-a" "consumer-a" (50 * Millisecond) true "feedtest: acquire owner-a" in
  let! _ := expect_held ls "ws" "p" "live" "feedtest: holder before expiry, want held" in
  let! now := time_Now in
  let! _ := poll_expiry 1001 ls (now + 5 * Second)%Z in
  let! _ := expect_acquire ls "ws" "p" "live" "owner-b" "consumer-b" Minute true "feedtest: acquire owner-b after expiry, want takeover" in
  let! lease := expect_held ls "ws" "p" "live" "feedtest: holder after takeover" in
  fatal_if (negb (bool_decide (ls_Owner lease = "owner-b"%string)) || negb (bool_decide (ls_Consumer lease = "consumer-b"%string)))
    "feedtest: holder after takeover, want owner-b/consumer-b".

Definition lease_triples (ls : LeaseStore W) : SM W unit :=
  let! _ := expect_acquire ls "ws" "a/b" "c" "owner-a" "consumer-a" Minute true "feedtest: acquire" in
  let! _ := expect_acquire ls "ws" "a" "b/c" "owner-b" "consumer-b" Minute true "feedtest: acquire of the shifted triple" in
  expect_acquire ls "ws" "a/b" "c" "owner-b" "consumer-b" Minute false "feedtest: acquire of the held triple".

Definition lease_test (newStore : NewLeaseStore) (name : string) (body : LeaseStore W -> SM W unit) : Suite :=
  t_Run ("leases/" ++ name) (open_port newStore body).

Definition RunLeases (newStore : NewLeaseStore) : Suite := t_all [
  lease_test newStore "exactly one winner per key" lease_one_winner;
  lease_test newStore "the same owner re-acquires and refreshes the consumer" lease_reacquire;
  lease_test newStore "renew extends only for the owner" lease_renew_owner;
  lease_test newStore "release is owner-guarded and idempotent" lease_release_guarded;
  lease_test newStore "an expired lease stops fencing and is not the holder" lease_expires;
  lease_test newStore "distinct triples never collide" lease_triples].

(** ** Dead letters *)

Definition dlScope : string := "ws_feedtest_dl".
Definition dlProjection : string := "p".
Definition dlInstance : string := "live".

Definition dead_letter (typeURL : string) (size : Z) (reason actor : string) (position : N) (at_ : time) : DeadLetter :=
  MkDeadLetter dlScope dlProjection dlInstance typeURL reason actor position size at_.

(** The row read back; its absence is fatal. *)
Definition expect_row (st : Store) (scope projection instance : string) (position : N) : SM W DeadLetterRow :=
  let! row := ft_ReadDeadLetter st scope projection instance position in
  match row with Some row => ret row | None => Fatal "feedtest: no dead letter row" end.

(** The row's event and its audit fields. *)
Definition row_names (row : DeadLetterRow) (typeURL : string) (size : Z) : bool :=
  bool_decide (dr_TypeURL row = typeURL) && (dr_SizeBytes row =? size)%Z.
Definition row_audits (row : DeadLetterRow) (reason actor : string) : bool :=
  bool_decide (dr_Reason row = reason) && bool_decide (dr_Actor row = actor).

Definition dl_names_poison (st : Store) : SM W unit :=
  let! sid := testStream "dl-poison" in
  let! gp := ft_PlantOverCap st dlScope sid 1%N typPoison (oversized st) in
  let! before := time_Now in
  let! _ := ft_DeadLetters st (dead_letter "" 0 "poison: over cap" "oncall" gp before) wrap "feedtest: record" in
  let! after := time_Now in
  let! row := expect_row st dlScope dlProjection dlInstance gp in
  let! _ := fatal_if (negb (row_names row typPoison (Z.of_nat (length (oversized st))))) "feedtest: recorded row, want the poison named" in
  let! _ := fatal_if (negb (row_audits row "poison: over cap" "oncall")) "feedtest: recorded row, want the audit fields kept" in
  assertRecent "feedtest: dead letter created_at" (dr_CreatedAt row) before after.

Definition dl_replaces (st : Store) : SM W unit :=
  let! sid := testStream "dl-replace" in
  let! gp := ft_PlantOverCap st dlScope sid 1%N typPoison (oversized st) in
  let! now := time_Now in
  let! _ := ft_DeadLetters st (dead_letter "" 0 "poison: over cap" "oncall" gp now) wrap "feedtest: record" in
  let! before := time_Now in
  let! _ := ft_DeadLetters st (dead_letter "" 0 "triaged: cap raised" "oncall-2" gp before) wrap "feedtest: re-record" in
  let! after := time_Now in
  let! n := ft_CountDeadLetters st dlScope in
  let! _ := fatal_if (negb (n =? 1)%Z) "feedtest: rows after the repeat, want 1" in
  let! row := expect_row st dlScope dlProjection dlInstance gp in
  let! _ := fatal_if (negb (row_audits row "triaged: cap raised" "oncall-2")) "feedtest: replaced row, want the latest audit fields" in
  let! _ := fatal_if (negb (row_names row typPoison (Z.of_nat (length (oversized st))))) "feedtest: replaced row, want the same named event kept" in
  assertRecent "feedtest: dead letter created_at" (dr_CreatedAt row) before after.

Definition dl_passes_through (st : Store) : SM W unit :=
  let! now := time_Now in
  let! _ := ft_DeadLetters st (dead_letter "custom.v1.Typed" 99 "named by the caller" "oncall-3" 42 now) wrap "feedtest: record with a type" in
  let! row := expect_row st dlScope dlProjection dlInstance 42%N in
  fatal_if (negb (row_names row "custom.v1.Typed" 99)) "feedtest: row with a caller-supplied type, want the caller's type/size kept".

Definition dl_absent_position (st : Store) : SM W unit :=
  let absent := N.shiftl 1 40 in
  let! now := time_Now in
  let! _ := ft_DeadLetters st (dead_letter "" 0 "skipped past a restored log" "oncall" absent now) wrap "feedtest: record an absent position" in
  let! row := expect_row st dlScope dlProjection dlInstance absent in
  let! _ := fatal_if (negb (row_names row "" 0)) "feedtest: absent-position row, want the empty type and zero size" in
  let! n := ft_CountDeadLetters st dlScope in
  fatal_if (negb (n =? 1)%Z) "feedtest: rows, want 1".

Definition dl_test (newStore : NewStore) (name : string) (body : Store -> SM W unit) : Suite :=
  t_Run ("dead letters/" ++ name) (open_store newStore body).

Definition RunDeadLetters (newStore : NewStore) : Suite := t_all [
  dl_test newStore "the pointer names a poison event from the log, metadata only" dl_names_poison;
  dl_test newStore "a repeat skip replaces the row, never duplicates it" dl_replaces;
  dl_test newStore "a caller-supplied type and size pass through" dl_passes_through;
  dl_test newStore "an absent position names nothing and still records" dl_absent_position].

(** ** End to end *)

Definition e2eScope : string := "ws_feedtest_e2e".

Definition e2e_request (owner typ : string) : Request :=
  MkRequest e2eScope "p" "live" "feedtest" owner (MkDefinition "p" [typ]) 0.

(** The ack of both sinks. *)
Definition e2e_ack (srv : Server W) (req : Request) (pos : N) : SM W unit :=
  server_Checkpoint srv (MkAck (rq_Scope req) (rq_Projection req) (rq_Instance req) (rq_Owner req) pos
    (definition_Hash (rq_Definition req))).

(** The error srv.Subscribe returns.  The subscription's context times out after
    five seconds of polling every ten milliseconds: one that still runs after
    five hundred rounds ends with the deadline's error. *)
Definition subscribe (srv : Server W) (req : Request) (sink : Sink W) : SM W (option error) := fun w =>
  match Subscribe srv 500 req (Some sink) (te_WithTimeout w) with
  | (Err e, w) => (Ok (Some e), w)
  | (Ok None, w) => (Ok None, w)
  | (Ok (Some _), w) => (Ok (Some (Sentinel DeadlineExceeded)), w)
  end.

(** [if err := srv.Subscribe(...); err != nil && !errors.Is(err, context.Canceled) { t.Fatal }]. *)
Definition subscribe_until_cancelled (srv : Server W) (req : Request) (sink : Sink W) (msg : string) : SM W (list Envelope) :=
  let! _ := do_ te_newSink in
  let! err := subscribe srv req sink in
  let! _ := match err with
            | Some e => if Is e Canceled then ret tt else throw (Errorf msg e)
            | None => ret tt
            end in
  sink_got.

(** The checkpoint after an ack or a skip: its position and the acked hash. *)
Definition expect_durable (st : Store) (req : Request) (pos : N) : SM W unit :=
  let! found := cs_Checkpoint (ft_Checkpoints st) (rq_Scope req) (rq_Projection req) (rq_Instance req) wrap "feedtest: checkpoint" in
  let! cp := match found with Some c => ret c | None => Fatal "feedtest: checkpoint, want found" end in
  let! _ := fatal_if (negb (cp_Position cp =? pos)%N) "feedtest: checkpoint position" in
  fatal_if (negb (bool_decide (cp_DefinitionHash cp = definition_Hash (rq_Definition req)))) "feedtest: checkpoint hash".

Definition e2e_resume (st : Store) : SM W unit :=
  let! sid := testStream "e2e-resume" in
  let! first := ft_Append st e2eScope sid 0%N typConsumed (bytes_of "a1") in
  let! _ := ft_Append st e2eScope sid 1%N typIgnored (bytes_of "b1") in
  let! third := ft_Append st e2eScope sid 2%N typConsumed (bytes_of "a2") in
  let! srv := newServer st in
  let req := e2e_request "feedtest-e2e-owner" typConsumed in
  let! got := subscribe_until_cancelled srv req (cancelSink_Send 2 (Some (e2e_ack srv req))) "feedtest: subscribe 1" in
  let! _ := fatal_if (negb (length got =? 2)%nat) "feedtest: first subscription, want 2" in
  let! _ := fatal_if (negb (pos_at got 0 =? GlobalPosition first)%N || negb (pos_at got 1 =? GlobalPosition third)%N)
              "feedtest: first subscription positions" in
  let! _ := expect_durable st req (GlobalPosition third) in
  let! next := ft_Append st e2eScope sid 3%N typConsumed (bytes_of "a3") in
  let! second := subscribe_until_cancelled srv req (cancelSink_Send 1 None) "feedtest: subscribe 2" in
  fatal_if (negb (length second =? 1)%nat || negb (pos_at second 0 =? GlobalPosition next)%N)
    "feedtest: resumed subscription, want exactly the event after the checkpoint".

Definition e2e_skip (st : Store) : SM W unit :=
  let! sid := testStream "poison-e2e-a" in
  let! before := ft_Append st e2eScope sid 0%N typPoison (bytes_of "ok") in
  let! sid := testStream "poison-e2e" in
  let! gp := ft_PlantOverCap st e2eScope sid 1%N typPoison (oversized st) in
  let! sid := testStream "poison-e2e-b" in
  let! after1 := ft_Append st e2eScope sid 0%N typPoison (bytes_of "after-1") in
  let! after2 := ft_Append st e2eScope sid 1%N typPoison (bytes_of "after-2") in
  let! _ := fatal_if (negb ((GlobalPosition before <? gp)%N && (gp <? GlobalPosition after1)%N
                            && (GlobalPosition after1 <? GlobalPosition after2)%N)) "feedtest: insert order" in
  let! srv := newServer st in
  let req := e2e_request "feedtest-skip-owner" typPoison in
  let! _ := do_ te_newSink in
  let! err := subscribe srv req (ackingSink_Send (Some (e2e_ack srv req))) in
  let! _ := assert_too_large st "feedtest: subscribe" err gp typPoison in
  let! got := sink_got in
  let! _ := fatal_if (negb (length got =? 1)%nat || negb (pos_at got 0 =? GlobalPosition before)%N)
              "feedtest: delivered before the poison" in
  let reason := "poison: payload over the store cap"%string in
  let! beforeSkip := time_Now in
  let! _ := Skip srv (MkSkipRequest (rq_Scope req) (rq_Projection req) (rq_Instance req) gp "oncall@example.com" reason false)
            wrap "feedtest: Skip" in
  let! afterSkip := time_Now in
  let! row := expect_row st (rq_Scope req) (rq_Projection req) (rq_Instance req) gp in
  let! _ := fatal_if (negb (row_names row typPoison (Z.of_nat (length (oversized st))) && row_audits row reason "oncall@example.com"))
              "feedtest: dead letter row, want the poison named with the audit fields" in
  let! _ := assertRecent "feedtest: dead letter created_at" (dr_CreatedAt row) beforeSkip afterSkip in
  let! _ := expect_durable st req gp in
  let! got := subscribe_until_cancelled srv req (cancelSink_Send 2 None) "feedtest: resubscribe" in
  let! _ := fatal_if (negb (bool_decide (positions got = [GlobalPosition after1; GlobalPosition after2])))
              "feedtest: resumed positions, want the events after the poison" in
  fatal_if (bool_decide (gp ∈ positions got)) "feedtest: the poison event was delivered after the skip".

Definition runEndToEnd (newStore : NewStore) : Suite := t_all [
  t_Run "e2e resume from a durable checkpoint" (open_store newStore e2e_resume);
  t_Run "e2e skip past a poison event" (open_store newStore e2e_skip)].

(** ** Cross-workspace isolation *)

Definition wsA : string := "ws_feedtest_a".
Definition wsB : string := "ws_feedtest_b".

Definition ws_checkpoints (st : Store) : SM W unit :=
  let cps := ft_Checkpoints st in
  let! _ := cs_Save cps wsA "cp" "live" "" 10 wrap "feedtest: save under A" in
  let! _ := cs_Save cps wsB "cp" "live" "" 20 wrap "feedtest: save under B" in
  let! pos := cs_Load cps wsA "cp" "live" wrap "feedtest: load under A" in
  let! _ := fatal_if (negb (pos =? 10)%N) "feedtest: load under A, want 10" in
  let! pos := cs_Load cps wsB "cp" "live" wrap "feedtest: load under B" in
  fatal_if (negb (pos =? 20)%N) "feedtest: load under B, want 20".

Definition ws_leases (st : Store) : SM W unit :=
  let ls := ft_Leases st in
  let! _ := expect_acquire ls wsA "lease" "live" "owner-a" "consumer-a" Minute true "feedtest: acquire under A" in
  let! _ := expect_acquire ls wsB "lease" "live" "owner-b" "consumer-b" Minute true "feedtest: acquire under B" in
  let! leaseA := expect_held ls wsA "lease" "live" "feedtest: holder under A" in
  let! _ := fatal_if (negb (bool_decide (ls_Owner leaseA = "owner-a"%string))) "feedtest: holder under A, want owner-a" in
  let! leaseB := expect_held ls wsB "lease" "live" "feedtest: holder under B" in
  fatal_if (negb (bool_decide (ls_Owner leaseB = "owner-b"%string))) "feedtest: holder under B, want owner-b".

Definition ws_dead_letters (st : Store) : SM W unit :=
  let! sid := testStream "cross-ws" in
  let! own := ft_Append st wsA sid 0%N typHappened (bytes_of "own") in
  let! now := time_Now in
  let! _ := ft_DeadLetters st (MkDeadLetter wsB "dl" "live" "" "probe" "feedtest" (GlobalPosition own) 0 now)
            wrap "feedtest: record under B" in
  let! row := expect_row st wsB "dl" "live" (GlobalPosition own) in
  fatal_if (negb (row_names row "" 0)) "feedtest: foreign-position row, the enrichment must not see across workspaces".

(** One store for the three tests; when it cannot be opened the group fails. *)
Definition runCrossWorkspace (newStore : NewStore) : Suite := fun w =>
  let name := "cross workspace isolation"%string in
  match newStore w with
  | (Err e, w) => ([(name, Some e)], w)
  | (Ok (raw, cleanup), w) =>
      match validate raw with
      | Err e => ([(name, Some e)], w)
      | Ok st =>
          let '(os, w) := t_all [
            t_Run "cross workspace isolation/checkpoints never clobber across workspaces" (ws_checkpoints st);
            t_Run "cross workspace isolation/the same lease key is free in another workspace" (ws_leases st);
            t_Run "cross workspace isolation/dead letter enrichment never names a foreign event" (ws_dead_letters st)] w in
          (os, cleanup w)
      end
  end.

(** ** The whole suite *)

Definition RunAll (f : Fixture) : Suite :=
  match fx_NewStore f with
  | None => fun w => ([("feedtest"%string, Some (ErrorsNew "feedtest: Fixture.NewStore is required"))], w)
  | Some newStore => t_all ([
      RunLog newStore;
      RunCheckpoints (let! (st, cleanup) := newStore in ret (sf_Checkpoints st, cleanup));
      RunLeases (let! (st, cleanup) := newStore in ret (sf_Leases st, cleanup));
      RunDeadLetters newStore;
      runEndToEnd newStore]
      ++ if fx_MultiWorkspace f then [runCrossWorkspace newStore] else [])
  end.
End Suite.
Arguments StoreFields : clear implicits.
Arguments Store : clear implicits.
Arguments NewStore : clear implicits.
Arguments Fixture : clear implicits.
Arguments Suite : clear implicits.
