(* ===== verification/ConformanceLaws.v ===== *)
(** * What the suite demands of checkpoint and lease stores

    The contract of the two ports as laws over an abstract table, in a world
    whose calls do not fail and are quick; and the proof that every store that
    keeps the contract passes the suite's sections.  The backends discharge the
    laws (ConformanceSqlite.v, ConformancePg.v). *)
From S2P Require Import Prelude Es Effect Definitions FeedPorts Feed Conformance.

(** ** Times *)

(** A call is quick: at most ten milliseconds. *)
Definition quick : Z := 10 * Millisecond.
(** Stores may round times down, by less than a microsecond. *)
Definition grain : Z := 1000.
Record rounding (round : time -> time) : Prop := {
  rd_mono : forall a b, (a <= b)%Z -> (round a <= round b)%Z;
  rd_near : forall a, (a - grain < round a <= a)%Z
}.

(** Times are nanoseconds in an int64: no call starts after this one (2255). *)
Definition era_end : time := 9000000000000000000%Z.

(** ** Runs of a test *)

Section Runs.
Context {W : Type}.

(** The computation succeeds, with an answer and a world as [Q] says. *)
Definition runs {A} (m : SM W A) (w : W) (Q : A -> W -> Prop) : Prop := exists a w', m w = (Ok a, w') /\ Q a w'.

Lemma runs_mono {A} (m : SM W A) w (P Q : A -> W -> Prop) : runs m w P -> (forall a w', P a w' -> Q a w') -> runs m w Q.
Proof. intros (a & w' & E & HP) HQ. exists a, w'. auto. Qed.
Lemma runs_ret {A} (a : A) w (Q : A -> W -> Prop) : Q a w -> runs (ret a) w Q.
Proof. intros HQ. by exists a, w. Qed.
Lemma runs_bind {A B} (m : SM W A) (k : A -> SM W B) w Q : runs m w (fun a w1 => runs (k a) w1 Q) -> runs (bind m k) w Q.
Proof. intros (a & w1 & E & b & w' & E' & HQ). exists b, w'. unfold bind. by rewrite E. Qed.
Lemma runs_wrap {A} (m : SM W A) c w Q : runs m w Q -> runs (m wrap c) w Q.
Proof. intros (a & w' & E & HQ). exists a, w'. unfold catch. by rewrite E. Qed.
Lemma runs_value_or {A} (z : A) (m : SM W A) w Q : runs m w Q -> runs (value_or z m) w Q.
Proof. intros (a & w' & E & HQ). exists a, w'. unfold value_or. by rewrite E. Qed.
Lemma runs_fatal_if b msg w (Q : unit -> W -> Prop) : b = false -> Q tt w -> runs (fatal_if b msg) w Q.
Proof. intros -> HQ. by exists tt, w. Qed.

(** A run of the suite in which every test passes, from worlds in which a test
    can start to such worlds. *)
Variable now : W -> time.
Variable ready : W -> Prop.
Definition conforms (minutes : nat) (t : Suite W) : Prop := forall w, ready w -> (now w + Z.of_nat minutes * Minute <= era_end)%Z ->
  passed (t w).1 = true /\ ready (t w).2 /\ (now (t w).2 <= now w + Z.of_nat minutes * Minute)%Z.

Lemma conforms_all (tests : list (Suite W)) : Forall (conforms 1) tests -> conforms (length tests) (t_all tests).
Proof.
  induction 1 as [|t ts Ht _ IH]; intros w Hw He; [simpl; split; [done|]; split; [done|lia]|]. cbn [t_all length] in *.
  destruct (Ht w Hw) as (Hp & Hw1 & Hn1); [unfold Minute in *; lia|].
  destruct (t w) as [os w1]. cbn [fst snd] in *. destruct (IH w1 Hw1) as (Hp' & Hw2 & Hn2); [unfold Minute in *; lia|].
  destruct (t_all ts w1) as [os' w2]. cbn [fst snd] in *. split; [|split; [done|unfold Minute in *; lia]].
  unfold passed. rewrite forallb_app. by apply andb_true_intro.
Qed.

(** Opening a port that keeps its laws, for a body proved from them. *)
Lemma conforms_port {P T} (newPort : SM W (option P * (W -> W))) (Laws : P -> (W -> T -> Prop) -> Prop) (init : T) name (body : P -> SM W unit) :
  (forall w, ready w -> exists p rep cleanup w', newPort w = (Ok (Some p, cleanup), w') /\ Laws p rep /\ rep w' init
     /\ now w' = now w /\ forall w m, rep w m -> ready (cleanup w) /\ now (cleanup w) = now w) ->
  (forall p rep w, Laws p rep -> rep w init -> (now w + Minute <= era_end)%Z ->
     runs (body p) w (fun _ w' => exists m, rep w' m /\ (now w' <= now w + Minute)%Z)) ->
  conforms 1 (t_Run name (open_port newPort body)).
Proof.
  intros Hopen Hbody w Hw He. destruct (Hopen w Hw) as (p & rep & cleanup & w1 & E & HL & Hr & Hn & Hc).
  destruct (Hbody p rep w1 HL Hr ltac:(lia)) as ([] & w2 & E2 & m & Hm & Hn2). destruct (Hc w2 m Hm) as [Hready Hn3].
  unfold t_Run, open_port. rewrite E, E2. simpl. split; [done|]. split; [done|lia].
Qed.
End Runs.

(** ** The laws *)

Abbreviation feed_triple := (string * string * string)%type.

Section Laws.
Context {W : Type} `{FE : FeedEnv W} `{TE : TestEnv W}.
Variable now : W -> time.
Variable round : time -> time.

Definition brief (w w' : W) : Prop := (now w <= now w' <= now w + quick)%Z.
(** A time a store stamped during a call, and what is known of it. *)
Definition stamped (w w' : W) (t : time) : Prop := exists c, (now w <= c <= now w')%Z /\ t = round c.
Definition near (w w' : W) (t : time) : Prop := (now w - grain < t <= now w')%Z.

Lemma stamped_near w w' t : rounding round -> stamped w w' t -> near w w' t.
Proof. intros Hr (c & Hc & ->). pose proof (rd_near _ Hr c). unfold near. lia. Qed.

(** The row a Save or Reset leaves. *)
Definition merge_checkpoint (keep : N -> N -> N) (old : option Checkpoint) (definition : string) (position : N) (t : time) : Checkpoint :=
  match old with
  | None => MkCheckpoint position definition t
  | Some o => MkCheckpoint (keep (cp_Position o) position)
                (if bool_decide (definition = EmptyString) then cp_DefinitionHash o else definition) t
  end.

(** [rep w m]: the checkpoint table of [w] is [m]. *)
Record CheckpointLaws (cp : CheckpointStore W) (rep : W -> gmap feed_triple Checkpoint -> Prop) : Prop := {
  cl_round : rounding round;
  cl_era : forall w m, rep w m -> (zero_time + grain < now w)%Z;
  cl_Now : forall w m, rep w m -> exists w', fx_Now w = (now w, w') /\ rep w' m /\ brief w w';
  cl_Load : forall w m s p i, rep w m -> (now w <= era_end)%Z -> runs (cs_Load cp s p i) w (fun pos w' =>
    pos = cp_Position (default zero_Checkpoint (m !! (s, p, i))) /\ rep w' m /\ brief w w');
  cl_Checkpoint : forall w m s p i, rep w m -> (now w <= era_end)%Z -> runs (cs_Checkpoint cp s p i) w (fun c w' =>
    c = m !! (s, p, i) /\ rep w' m /\ brief w w');
  cl_Save : forall w m s p i d pos, rep w m -> (now w <= era_end)%Z -> (pos <= max_int64)%N -> runs (cs_Save cp s p i d pos) w (fun _ w' =>
    exists t, stamped w w' t /\ rep w' (<[(s, p, i) := merge_checkpoint N.max (m !! (s, p, i)) d pos t]> m) /\ brief w w');
  cl_Reset : forall w m s p i d pos, rep w m -> (now w <= era_end)%Z -> (pos <= max_int64)%N -> runs (cs_Reset cp s p i d pos) w (fun _ w' =>
    exists t, stamped w w' t /\ rep w' (<[(s, p, i) := merge_checkpoint (fun _ new => new) (m !! (s, p, i)) d pos t]> m) /\ brief w w');
  cl_Delete : forall w m s p i, rep w m -> (now w <= era_end)%Z -> runs (cs_Delete cp s p i) w (fun _ w' => rep w' (delete (s, p, i) m) /\ brief w w')
}.

(** The answer and the row of an Acquire at [t]. *)
Definition free_at (old : option Lease) (owner : string) (t : time) : bool :=
  match old with None => true | Some l => bool_decide (ls_Owner l = owner) || (ls_ExpiresAt l <=? t)%Z end.
Definition live_at (old : option Lease) (t : time) : option Lease :=
  match old with Some l => if (t <? ls_ExpiresAt l)%Z then Some l else None | None => None end.
Definition owned_by (old : option Lease) (owner : string) : bool :=
  match old with Some l => bool_decide (ls_Owner l = owner) | None => false end.
Definition expires_in (t : time) (ttl : Z) (e : time) : Prop := (t + ttl - grain < e <= t + ttl)%Z.

(** The keys and times the feed core uses: no control bytes, no more than a day. *)
Definition key_ok (s p i : string) : Prop := validateKey s p i = Ok tt.
Definition ttl_ok (ttl : Z) : Prop := (0 <= ttl <= 24 * Hour)%Z.

Record LeaseLaws (ls : LeaseStore W) (rep : W -> gmap feed_triple Lease -> Prop) : Prop := {
  ll_round : rounding round;
  ll_Now : forall w m, rep w m -> exists w', fx_Now w = (now w, w') /\ rep w' m /\ brief w w';
  ll_Sleep : forall w m d, rep w m -> (0 <= d)%Z -> rep (te_Sleep d w) m /\ (now w + d <= now (te_Sleep d w) <= now w + d + quick)%Z;
  ll_Acquire : forall w m s p i o c ttl, rep w m -> (now w <= era_end)%Z -> key_ok s p i -> ttl_ok ttl -> runs (acquire ls s p i o c ttl) w (fun ok w' =>
    exists t e, stamped w w' t /\ expires_in t ttl e /\ ok = free_at (m !! (s, p, i)) o t
      /\ rep w' (if ok then <[(s, p, i) := MkLease o c e]> m else m) /\ brief w w');
  ll_Renew : forall w m s p i o ttl, rep w m -> (now w <= era_end)%Z -> key_ok s p i -> ttl_ok ttl -> runs (le_Renew ls s p i o ttl) w (fun ok w' =>
    exists t e, stamped w w' t /\ expires_in t ttl e /\ ok = owned_by (m !! (s, p, i)) o
      /\ rep w' (match m !! (s, p, i) with Some l => if ok then <[(s, p, i) := MkLease o (ls_Consumer l) e]> m else m | None => m end)
      /\ brief w w');
  ll_Release : forall w m s p i o, rep w m -> (now w <= era_end)%Z -> key_ok s p i -> runs (le_Release ls s p i o) w (fun _ w' =>
    rep w' (if owned_by (m !! (s, p, i)) o then delete (s, p, i) m else m) /\ brief w w');
  ll_Holder : forall w m s p i, rep w m -> (now w <= era_end)%Z -> key_ok s p i -> runs (le_Holder ls s p i) w (fun l w' =>
    exists t, stamped w w' t /\ l = live_at (m !! (s, p, i)) t /\ rep w' m /\ brief w w')
}.
End Laws.

(** ** Automation *)

(** One step of a test: enter a bind or a wrapper, or discharge a check. *)
Ltac test_step :=
  match goal with
  | |- runs (bind _ _) _ _ => apply runs_bind
  | |- runs (catch _ (fun e => throw _)) _ _ => apply runs_wrap
  | |- runs (value_or _ _) _ _ => apply runs_value_or
  | |- runs (ret _) _ _ => apply runs_ret
  | |- runs (fatal_if _ _) _ _ => apply runs_fatal_if
  end; cbv beta.
Ltac test_steps := repeat test_step.

(** ** The checkpoint section *)

Section Checkpoints.
Context {W : Type} `{FE : FeedEnv W}.
Variable now : W -> time.
Variable round : time -> time.
Variable cp : CheckpointStore W.
Variable rep : W -> gmap feed_triple Checkpoint -> Prop.
Hypothesis laws : CheckpointLaws now round cp rep.

Lemma runs_now w m Q : rep w m -> (forall w', rep w' m -> brief now w w' -> Q (now w) w') -> runs time_Now w Q.
Proof.
  intros Hr HQ. destruct (cl_Now _ _ _ _ laws w m Hr) as (w' & E & Hr' & Hb). exists (now w), w'.
  unfold time_Now. rewrite E. auto.
Qed.

Lemma runs_load w m s p i Q : rep w m -> (now w <= era_end)%Z ->
  (forall w', rep w' m -> brief now w w' -> Q (cp_Position (default zero_Checkpoint (m !! (s, p, i)))) w') ->
  runs (cs_Load cp s p i) w Q.
Proof. intros Hr He HQ. eapply runs_mono; [by apply (cl_Load _ _ _ _ laws)|]. intros ? w' (-> & Hr' & Hb). auto. Qed.

Lemma runs_checkpoint w m s p i Q : rep w m -> (now w <= era_end)%Z ->
  (forall w', rep w' m -> brief now w w' -> Q (m !! (s, p, i)) w') -> runs (cs_Checkpoint cp s p i) w Q.
Proof. intros Hr He HQ. eapply runs_mono; [by apply (cl_Checkpoint _ _ _ _ laws)|]. intros ? w' (-> & Hr' & Hb). auto. Qed.

Lemma runs_save w m s p i d pos Q : rep w m -> (now w <= era_end)%Z -> (pos <= max_int64)%N ->
  (forall w' t, rep w' (<[(s, p, i) := merge_checkpoint N.max (m !! (s, p, i)) d pos t]> m) -> brief now w w' -> near now w w' t -> Q tt w') ->
  runs (cs_Save cp s p i d pos) w Q.
Proof. intros Hr He Hp HQ. eapply runs_mono; [by apply (cl_Save _ _ _ _ laws)|]. intros [] w' (t & Ht & Hr' & Hb).
  eauto using stamped_near, cl_round.
Qed.

Lemma runs_reset w m s p i d pos Q : rep w m -> (now w <= era_end)%Z -> (pos <= max_int64)%N ->
  (forall w' t, rep w' (<[(s, p, i) := merge_checkpoint (fun _ new => new) (m !! (s, p, i)) d pos t]> m) -> brief now w w' -> Q tt w') ->
  runs (cs_Reset cp s p i d pos) w Q.
Proof. intros Hr He Hp HQ. eapply runs_mono; [by apply (cl_Reset _ _ _ _ laws)|]. intros [] w' (t & Ht & Hr' & Hb). eauto. Qed.

Lemma runs_delete w m s p i Q : rep w m -> (now w <= era_end)%Z -> (forall w', rep w' (delete (s, p, i) m) -> brief now w w' -> Q tt w') -> runs (cs_Delete cp s p i) w Q.
Proof. intros Hr He HQ. eapply runs_mono; [by apply (cl_Delete _ _ _ _ laws)|]. intros [] w' (Hr' & Hb). auto. Qed.

Ltac times := unfold brief, near, quick, grain, clockSlack, Minute, Millisecond in *; lia.

(** A port call of a checkpoint test, the table simplified. *)
Ltac cp_step :=
  match goal with
  | H : rep ?w _ |- runs time_Now ?w _ => eapply (runs_now w); [exact H|intros ? ? ?; clear H]
  | H : rep ?w _ |- runs (cs_Load _ _ _ _) ?w _ => eapply (runs_load w); [exact H|times|intros ? ? ?; clear H]
  | H : rep ?w _ |- runs (cs_Checkpoint _ _ _ _) ?w _ => eapply (runs_checkpoint w); [exact H|times|intros ? ? ?; clear H]
  | H : rep ?w _ |- runs (cs_Save _ _ _ _ _ _) ?w _ => eapply (runs_save w); [exact H|times|by vm_compute|intros ? ? ? ? ?; clear H]
  | H : rep ?w _ |- runs (cs_Reset _ _ _ _ _ _) ?w _ => eapply (runs_reset w); [exact H|times|by vm_compute|intros ? ? ? ?; clear H]
  | H : rep ?w _ |- runs (cs_Delete _ _ _ _) ?w _ => eapply (runs_delete w); [exact H|times|intros ? ? ?; clear H]
  end; simplify_map_eq.

Ltac cp_test := repeat (test_step || cp_step); try done; try (by eexists; split; [eassumption|times]).

Lemma cp_absent_monotonic_ok w : rep w ∅ -> (now w + Minute <= era_end)%Z -> runs (cp_absent_monotonic cp) w (fun _ w' => exists m, rep w' m /\ (now w' <= now w + Minute)%Z).
Proof. intros Hr Hera. unfold cp_absent_monotonic, expect_absent, expect_load. cp_test. Qed.

Lemma assertRecent_ok what t w0 w1 w2 w (Q : unit -> W -> Prop) :
  (zero_time + grain < now w1)%Z -> near now w1 w2 t -> brief now w0 w1 -> Q tt w ->
  runs (assertRecent what t (now w0) (now w2)) w Q.
Proof.
  intros Hz [Ht1 Ht2] [Hb1 Hb2] HQ. unfold assertRecent. test_steps; [|  |done].
  - unfold IsZero. apply Z.eqb_neq. lia.
  - apply orb_false_iff. rewrite !Z.ltb_ge. unfold clockSlack, Minute, grain in *. lia.
Qed.

Lemma cp_reset_delete_ok w : rep w ∅ -> (now w + Minute <= era_end)%Z -> runs (cp_reset_delete cp) w (fun _ w' => exists m, rep w' m /\ (now w' <= now w + Minute)%Z).
Proof.
  intros Hr Hera. unfold cp_reset_delete, expect_absent, expect_load.
  test_step. cp_step. match goal with H : rep _ _ |- _ => pose proof (cl_era _ _ _ _ laws _ _ H) end.
  test_steps. cp_step. test_steps. cp_step. test_steps. cp_step. do 4 test_step; [done|]. test_step.
  eapply assertRecent_ok; [eassumption..|]. cp_test.
Qed.

Lemma cp_definition_hash_ok w : rep w ∅ -> (now w + Minute <= era_end)%Z -> runs (cp_definition_hash cp) w (fun _ w' => exists m, rep w' m /\ (now w' <= now w + Minute)%Z).
Proof.
  intros Hr Hera. unfold cp_definition_hash, expect_checkpoint.
  set (h1 := definition_Hash _). set (h2 := definition_Hash (MkDefinition _ [_; _])).
  assert (h1 <> EmptyString) by (by vm_compute). assert (h2 <> EmptyString) by (by vm_compute). clearbody h1 h2.
  cp_test; unfold merge_checkpoint; cbn; repeat case_bool_decide; try done; congruence.
Qed.
End Checkpoints.
