(* ===== verification/ConformanceLeases.v ===== *)
(** * Lease stores under the suite

    Every store that keeps the lease contract of ConformanceLaws.v passes the
    lease section, whatever its clock reads, as long as calls are quick. *)
From S2P Require Import Prelude Es Effect Definitions FeedPorts Feed Conformance ConformanceLaws.

Section Leases.
Context {W : Type} `{FE : FeedEnv W} `{TE : TestEnv W}.
Variable now : W -> time.
Variable round : time -> time.
Variable ls : LeaseStore W.
Variable rep : W -> gmap feed_triple Lease -> Prop.
Hypothesis laws : LeaseLaws now round ls rep.

(** The times of a test are close together. *)
Ltac times := unfold brief, near, expires_in, quick, grain, clockSlack, Hour, Minute, Second, Millisecond in *; cbn [ls_ExpiresAt] in *; lia.

Lemma runs_lnow w m Q : rep w m -> (forall w', rep w' m -> brief now w w' -> Q (now w) w') -> runs time_Now w Q.
Proof.
  intros Hr HQ. destruct (ll_Now _ _ _ _ laws w m Hr) as (w' & E & Hr' & Hb). exists (now w), w'.
  unfold time_Now. rewrite E. auto.
Qed.

(** An Acquire that must win: the key is free, the owner's, or expired. *)
Lemma runs_win w m s p i o c ttl Q : rep w m -> (now w <= era_end)%Z -> key_ok s p i -> ttl_ok ttl ->
  match m !! (s, p, i) with None => True | Some l => ls_Owner l = o \/ (ls_ExpiresAt l <= round (now w))%Z end ->
  (forall w' t e, rep w' (<[(s, p, i) := MkLease o c e]> m) -> brief now w w' -> near now w w' t -> expires_in t ttl e -> Q true w') ->
  runs (acquire ls s p i o c ttl) w Q.
Proof.
  intros Hr Hera Hk Ht Hf HQ. eapply runs_mono; [by apply (ll_Acquire _ _ _ _ laws)|].
  intros ok w' (t & e & Hs & He & Hok & Hr' & Hb). assert (ok = true) as ->; [|by eapply HQ; eauto using stamped_near, ll_round].
  rewrite Hok. unfold free_at. destruct (m !! _) as [l|]; [|done]. apply orb_true_iff. destruct Hf as [Hf|Hf].
  - left. by apply bool_decide_true.
  - right. apply Z.leb_le. destruct Hs as (ck & Hc & ->). pose proof (rd_mono _ (ll_round _ _ _ _ laws) (now w) ck). lia.
Qed.

(** One that must lose: another owner's lease runs on. *)
Lemma runs_lose w m s p i o c ttl l Q : rep w m -> (now w <= era_end)%Z -> key_ok s p i -> ttl_ok ttl ->
  m !! (s, p, i) = Some l -> ls_Owner l <> o -> (now w + quick < ls_ExpiresAt l)%Z ->
  (forall w', rep w' m -> brief now w w' -> Q false w') ->
  runs (acquire ls s p i o c ttl) w Q.
Proof.
  intros Hr Hera Hk Ht Hl Ho He HQ. eapply runs_mono; [by apply (ll_Acquire _ _ _ _ laws)|]. rewrite Hl.
  intros ok w' (t & e & Hs & _ & Hok & Hr' & Hb). assert (ok = false) as ->; [|eauto].
  rewrite Hok. unfold free_at. rewrite bool_decide_false by done. apply Z.leb_gt. pose proof (stamped_near _ _ _ _ _ (ll_round _ _ _ _ laws) Hs). times.
Qed.

Lemma runs_holder w m s p i Q : rep w m -> (now w <= era_end)%Z -> key_ok s p i ->
  (forall w' t, rep w' m -> brief now w w' -> stamped now round w w' t -> Q (live_at (m !! (s, p, i)) t) w') -> runs (le_Holder ls s p i) w Q.
Proof.
  intros Hr Hera Hk HQ. eapply runs_mono; [by apply (ll_Holder _ _ _ _ laws)|]. intros ? w' (t & Hs & -> & Hr' & Hb). eauto.
Qed.

(** The holder of a lease that runs on. *)
Lemma runs_held w m s p i l Q : rep w m -> (now w <= era_end)%Z -> key_ok s p i -> m !! (s, p, i) = Some l -> (now w + quick < ls_ExpiresAt l)%Z ->
  (forall w', rep w' m -> brief now w w' -> Q (Some l) w') -> runs (le_Holder ls s p i) w Q.
Proof.
  intros Hr Hera Hk Hl He HQ. eapply runs_holder; [done..|]. intros w' t Hr' Hb Hs. rewrite Hl. unfold live_at.
  rewrite (proj2 (Z.ltb_lt _ _)); [auto|]. pose proof (stamped_near _ _ _ _ _ (ll_round _ _ _ _ laws) Hs). times.
Qed.

Lemma runs_unheld w m s p i Q : rep w m -> (now w <= era_end)%Z -> key_ok s p i -> m !! (s, p, i) = None ->
  (forall w', rep w' m -> brief now w w' -> Q None w') -> runs (le_Holder ls s p i) w Q.
Proof. intros Hr Hera Hk Hl HQ. eapply runs_holder; [done..|]. intros w' t Hr' Hb Hs. rewrite Hl. auto. Qed.

Lemma runs_release w m s p i o Q : rep w m -> (now w <= era_end)%Z -> key_ok s p i ->
  (forall w', rep w' (if owned_by (m !! (s, p, i)) o then delete (s, p, i) m else m) -> brief now w w' -> Q tt w') -> runs (le_Release ls s p i o) w Q.
Proof. intros Hr Hera Hk HQ. eapply runs_mono; [by apply (ll_Release _ _ _ _ laws)|]. intros [] w' (Hr' & Hb). auto. Qed.

Lemma runs_renew w m s p i o ttl l Q : rep w m -> (now w <= era_end)%Z -> key_ok s p i -> ttl_ok ttl -> m !! (s, p, i) = Some l ->
  (forall w' t e, rep w' (if bool_decide (ls_Owner l = o) then <[(s, p, i) := MkLease o (ls_Consumer l) e]> m else m) ->
     brief now w w' -> near now w w' t -> expires_in t ttl e -> Q (bool_decide (ls_Owner l = o)) w') ->
  runs (le_Renew ls s p i o ttl) w Q.
Proof.
  intros Hr Hera Hk Ht Hl HQ. eapply runs_mono; [by apply (ll_Renew _ _ _ _ laws)|]. rewrite Hl.
  intros ? w' (t & e & Hs & He & -> & Hr' & Hb). by eapply HQ; eauto using stamped_near, ll_round.
Qed.

(** The next call of a test, by the lemma that fits the table. *)
Ltac side := first [times|by vm_compute|by simplify_map_eq|simplify_map_eq; by auto].
Ltac call lem := match goal with H : rep ?w _ |- runs _ ?w _ => eapply (lem w); [exact H|side..|intros; clear H]; simplify_map_eq end.
Ltac lease_step :=
  match goal with
  | |- runs time_Now _ _ => call runs_lnow
  | |- runs (acquire _ _ _ _ _ _ _) _ _ => first [call runs_win|call runs_lose]
  | |- runs (le_Holder _ _ _ _) _ _ => first [call runs_unheld|call runs_held]
  | |- runs (le_Release _ _ _ _ _) _ _ => call runs_release
  | |- runs (le_Renew _ _ _ _ _ _) _ _ => call runs_renew
  end.
Ltac lease_test := repeat (test_step || lease_step); try done; try (by eexists; split; [eassumption|times]).

Lemma lease_one_winner_ok w : rep w ∅ -> (now w + Minute <= era_end)%Z -> runs (lease_one_winner ls) w (fun _ w' => exists m, rep w' m /\ (now w' <= now w + Minute)%Z).
Proof.
  intros Hr Hera. unfold lease_one_winner, expect_held.
  lease_test. apply orb_false_iff. rewrite !Z.ltb_ge. times.
Qed.

Lemma lease_reacquire_ok w : rep w ∅ -> (now w + Minute <= era_end)%Z -> runs (lease_reacquire ls) w (fun _ w' => exists m, rep w' m /\ (now w' <= now w + Minute)%Z).
Proof. intros Hr Hera. unfold lease_reacquire, expect_acquire, expect_held. lease_test. Qed.

Lemma lease_triples_ok w : rep w ∅ -> (now w + Minute <= era_end)%Z -> runs (lease_triples ls) w (fun _ w' => exists m, rep w' m /\ (now w' <= now w + Minute)%Z).
Proof. intros Hr Hera. unfold lease_triples, expect_acquire. lease_test. Qed.

Lemma lease_renew_owner_ok w : rep w ∅ -> (now w + Minute <= era_end)%Z -> runs (lease_renew_owner ls) w (fun _ w' => exists m, rep w' m /\ (now w' <= now w + Minute)%Z).
Proof. intros Hr Hera. unfold lease_renew_owner, expect_acquire, expect_held. lease_test. apply negb_false_iff, Z.ltb_lt. times. Qed.

Lemma lease_release_guarded_ok w : rep w ∅ -> (now w + Minute <= era_end)%Z -> runs (lease_release_guarded ls) w (fun _ w' => exists m, rep w' m /\ (now w' <= now w + Minute)%Z).
Proof. intros Hr Hera. unfold lease_release_guarded, expect_acquire, expect_held. lease_test. Qed.

(** The polling loop ends when the lease has expired, long before its deadline. *)
Lemma poll_expiry_ok fuel : forall w m l deadline (Q : unit -> W -> Prop),
  rep w m -> m !! ("ws", "p", "live")%string = Some l -> (ls_ExpiresAt l + 2 * quick < deadline)%Z ->
  (now w <= ls_ExpiresAt l + 4 * quick)%Z -> (ls_ExpiresAt l + Second <= era_end)%Z ->
  (ls_ExpiresAt l - now w + grain < (Z.of_nat fuel - 1) * (5 * Millisecond))%Z -> (0 < fuel)%nat ->
  (forall w', rep w' m -> (ls_ExpiresAt l <= round (now w'))%Z -> (now w' <= ls_ExpiresAt l + 5 * quick)%Z -> Q tt w') -> runs (poll_expiry fuel ls deadline) w Q.
Proof.
  induction fuel as [|fuel IH]; intros w m l deadline Q Hr Hl Hd Hw Hera Hf Hpos HQ; [lia|]. cbn [poll_expiry].
  do 2 test_step. eapply runs_holder; [exact Hr|times|by vm_compute|]. intros w1 t Hr1 Hb1 Hs. rewrite Hl. unfold live_at.
  destruct (Z.ltb_spec t (ls_ExpiresAt l)) as [Hlive|Hdead].
  - pose proof (stamped_near _ _ _ _ _ (ll_round _ _ _ _ laws) Hs) as Hn.
    test_step. eapply runs_lnow; [exact Hr1|]. intros w2 Hr2 Hb2. do 2 test_step; [apply Z.ltb_ge; times|].
    destruct (ll_Sleep _ _ _ _ laws w2 m (5 * Millisecond) Hr2 ltac:(by vm_compute)) as [Hr3 Hsl].
    test_step. exists tt, (te_Sleep (5 * Millisecond) w2). split; [done|].
    eapply IH; [exact Hr3|exact Hl|done|times|done|times|destruct fuel; [times|lia]|]. done.
  - apply runs_ret. apply HQ; [done| |times]. destruct Hs as (c & Hc & ->). pose proof (rd_mono _ (ll_round _ _ _ _ laws) c (now w1)). lia.
Qed.

Lemma lease_expires_ok w : rep w ∅ -> (now w + Minute <= era_end)%Z -> runs (lease_expires ls) w (fun _ w' => exists m, rep w' m /\ (now w' <= now w + Minute)%Z).
Proof.
  intros Hr Hera. unfold lease_expires, expect_acquire, expect_held.
  assert (20 < 1001)%nat as Hfuel by (by apply Nat.ltb_lt; vm_compute). revert Hfuel. generalize 1001%nat as fuel. intros fuel Hfuel.
  do 3 test_step. lease_step. test_steps. lease_step. do 2 test_step. lease_step. test_step.
  match goal with H : rep ?w ?m |- _ => eapply (poll_expiry_ok fuel w m); [exact H|by simplify_map_eq|times|times|times|times|lia|] end.
  intros w1 Hr1 Hdead Hw1. lease_test.
Qed.
End Leases.

(** A fixture whose checkpoint and lease stores keep their laws; every test finds
    them empty. *)
Section Fixture.
Context {W : Type} `{FE : FeedEnv W} `{TE : TestEnv W}.
Variable now : W -> time.
Variable round : time -> time.
Variable ready : W -> Prop.

Definition opens_checkpoints (newStore : NewStore W) : Prop := forall w, ready w ->
  exists st cp rep cleanup w', newStore w = (Ok (st, cleanup), w') /\ sf_Checkpoints st = Some cp
    /\ CheckpointLaws now round cp rep /\ rep w' ∅ /\ now w' = now w /\ forall w m, rep w m -> ready (cleanup w) /\ now (cleanup w) = now w.

Definition opens_leases (newStore : NewStore W) : Prop := forall w, ready w ->
  exists st ls rep cleanup w', newStore w = (Ok (st, cleanup), w') /\ sf_Leases st = Some ls
    /\ LeaseLaws now round ls rep /\ rep w' ∅ /\ now w' = now w /\ forall w m, rep w m -> ready (cleanup w) /\ now (cleanup w) = now w.

(** The two ports RunAll takes from the fixture. *)
Definition checkpoint_port (newStore : NewStore W) : NewCheckpointStore :=
  let! (st, cleanup) := newStore in ret (sf_Checkpoints st, cleanup).
Definition lease_port (newStore : NewStore W) : NewLeaseStore :=
  let! (st, cleanup) := newStore in ret (sf_Leases st, cleanup).

Lemma checkpoints_conform newStore : opens_checkpoints newStore -> conforms now ready 3 (RunCheckpoints (checkpoint_port newStore)).
Proof.
  intros Ho.
  assert (forall w, ready w -> exists cp rep cleanup w', checkpoint_port newStore w = (Ok (Some cp, cleanup), w')
    /\ CheckpointLaws now round cp rep /\ rep w' ∅ /\ now w' = now w /\ forall w m, rep w m -> ready (cleanup w) /\ now (cleanup w) = now w) as Hp.
  { intros w Hw. destruct (Ho w Hw) as (st & cp & rep & cleanup & w' & E & Es & Hrest). exists cp, rep, cleanup, w'.
    split; [|done]. unfold checkpoint_port, bind, ret. by rewrite E, Es. }
  apply (conforms_all _ _ [_; _; _]). repeat apply Forall_cons_2; [..|by apply Forall_nil_2]; (eapply conforms_port; [exact Hp|]; intros cp rep w HL Hr Hera).
  - by eapply cp_absent_monotonic_ok.
  - by eapply cp_reset_delete_ok.
  - by eapply cp_definition_hash_ok.
Qed.

Lemma leases_conform newStore : opens_leases newStore -> conforms now ready 6 (RunLeases (lease_port newStore)).
Proof.
  intros Ho.
  assert (forall w, ready w -> exists ls rep cleanup w', lease_port newStore w = (Ok (Some ls, cleanup), w')
    /\ LeaseLaws now round ls rep /\ rep w' ∅ /\ now w' = now w /\ forall w m, rep w m -> ready (cleanup w) /\ now (cleanup w) = now w) as Hp.
  { intros w Hw. destruct (Ho w Hw) as (st & ls & rep & cleanup & w' & E & Es & Hrest). exists ls, rep, cleanup, w'.
    split; [|done]. unfold lease_port, bind, ret. by rewrite E, Es. }
  apply (conforms_all _ _ [_; _; _; _; _; _]). repeat apply Forall_cons_2; [..|by apply Forall_nil_2]; (eapply conforms_port; [exact Hp|]; intros ls rep w HL Hr Hera).
  - by eapply lease_one_winner_ok.
  - by eapply lease_reacquire_ok.
  - by eapply lease_renew_owner_ok.
  - by eapply lease_release_guarded_ok.
  - by eapply lease_expires_ok.
  - by eapply lease_triples_ok.
Qed.
End Fixture.
