(* ===== verification/ConformanceSqlite.v ===== *)
(** * The SQLite adapters under the conformance suite

    The fixture of the SQLite backend (an in-memory database capped at 64
    payload bytes, with its seeding and inspection hooks) and the suite's
    verdict on it. *)
From S2P Require Import Prelude Sha256 Es Hash Chain Anchor Timestamp Effect Store Sql Sqlite HexUuid.
From S2P Require Import Definitions FeedPorts Feed SqliteFeed FeedSqlite SqliteLeases.
From S2P Require Import Conformance ConformanceLaws ConformanceLeases.

(** ** The test process *)

Definition with_db (db : DB) (w : fworld) : fworld := set_world (MkWorld db (w_tick (fw_world w))) w.
Definition with_sent (l : list Envelope) (w : fworld) : fworld :=
  MkFworld (fw_world w) l (fw_signals w) (fw_others w) (fw_ticks w) (fw_until w) (fw_cancelled w) (fw_seq w) (fw_delivered w).
Definition with_until (u : option nat) (w : fworld) : fworld :=
  MkFworld (fw_world w) (fw_sent w) (fw_signals w) (fw_others w) (fw_ticks w) u (fw_cancelled w) (fw_seq w) (fw_delivered w).

(** The tick at which a process that goes to sleep for [d] at tick [n] runs again. *)
Class SleepEnv `{Env} := {
  wake : nat -> Z -> nat;
  wake_time : forall n d, (0 <= d)%Z -> (clock n + d <= clock (wake n d) <= clock n + d + Millisecond)%Z
}.
Arguments SleepEnv : clear implicits.
Arguments SleepEnv {_}.

Section Fixture.
Context {UL : UuidLib} {EV : Env} {SE : SleepEnv}.

#[global] Instance sqlite_test_env : TestEnv fworld := {
  te_Sleep d w := set_world (MkWorld (w_db (fw_world w)) (wake (w_tick (fw_world w)) d)) w;
  te_WithTimeout := with_until None;
  te_cancel := with_until (Some O);
  te_newSink := with_sent [];
  te_push env w := with_sent (fw_sent w ++ [env]) w;
  te_events := fw_sent
}.

(** A seeding append: one event, nothing else set. *)
Definition seed_params (sid : StreamID) (version : N) (typeURL : string) (payload : list byte) : AppendParams :=
  MkAppendParams sid version [MkEventData uuid_Nil typeURL 1 payload] [] uuid_Nil uuid_Nil uuid_Nil (MkActor "" "") zero_time.

Definition append_one {W} (append : AppendParams -> SM W AppendResult) (sid : StreamID) (version : N) (typeURL : string)
    (payload : list byte) : SM W Envelope :=
  let! res := append (seed_params sid version typeURL payload) wrap "append" in
  match ar_Envelopes res with
  | env :: _ => ret env
  | [] => throw (ErrorsNew "index out of range")
  end.

(** A row inserted with SQL, past the append-time cap. *)
Definition poison_row (sid : StreamID) (version : N) (typeURL : string) (payload : list byte) (gp : N) : EventRow :=
  MkEventRow gp "11111111-1111-7111-8111-111111111111" (sid_Type sid) (Canonical sid) version typeURL 1
    "2026-01-01T00:00:00.000000000Z" "2026-01-01T00:00:00.000000000Z" "" "" "" (sid_Type sid) "poison" "conformance:poison"
    payload None None.

Definition sqlite_read_dead_letter (scope projection instance : string) (position : N) : M DB (option Conformance.DeadLetterRow) :=
  let! row := query (fun db => Ok (d_feed_dead_letters db !! (scope, projection, instance, position))) in
  match row with
  | None => ret None
  | Some r =>
      let! at_ := lift (parseTS (dl_created_at r)) in
      ret (Some (Conformance.MkDeadLetterRow (dl_type_url r) (dl_size_bytes r) (dl_reason r) (dl_actor r) at_))
  end.

Definition sqlite_fields : StoreFields fworld := {|
  sf_Logs := Some (sqlite_Open 64);
  sf_Checkpoints := Some sqlite_Checkpoints;
  sf_Leases := Some sqlite_Leases;
  sf_DeadLetters := Some sqlite_DeadLetters;
  sf_Append := Some (fun _ sid version typeURL payload => append_one (fun p => on_db (Append 64 p)) sid version typeURL payload);
  sf_PlantOverCap := Some (fun _ sid version typeURL payload =>
    on_db (exec (insert_event (poison_row sid version typeURL payload)) wrap "direct insert"));
  sf_MaxPayloadBytes := 64;
  sf_ReadDeadLetter := Some (fun scope projection instance position => on_db (sqlite_read_dead_letter scope projection instance position));
  sf_CountDeadLetters := Some (fun _ => on_db (query (fun db => Ok (Z.of_nat (size (d_feed_dead_letters db))))))
|}.

(** A database of its own for every test. *)
Definition newSqliteFeedStore : NewStore fworld := fun w => (Ok (sqlite_fields, fun w => w), with_db empty_db w).

Definition sqlite_fixture (multi : bool) : Fixture fworld := MkFixture (Some newSqliteFeedStore) multi.
End Fixture.


(** ** The ports keep their laws on every healthy machine *)

(** Calls do not fail, and a clock reading is never far from the last. *)
Record healthy {EV : Env} : Prop := {
  he_fault : forall n, fault n = None;
  he_step : forall n, (clock n <= clock (S n) <= clock n + Millisecond)%Z;
  he_era : forall n, (0 <= clock n)%Z
}.
Arguments healthy : clear implicits.

Section Lawful.
Context {UL : UuidLib} {EV : Env} {SE : SleepEnv}.
Hypothesis Hh : healthy EV.

Definition sq_now (w : fworld) : time := clock (w_tick (fw_world w)).
(** No other process is about to act. *)
Definition sq_ready (w : fworld) : Prop := fw_others w = [].

Lemma clock_steps n k : (clock n <= clock (n + k) <= clock n + Z.of_nat k * Millisecond)%Z.
Proof.
  induction k as [|k IH]; [rewrite Nat.add_0_r; lia|]. rewrite Nat.add_succ_r. pose proof (he_step Hh (n + k)). unfold Millisecond in *. lia.
Qed.

(** A computation that succeeds, and the ticks it takes. *)
Definition takes {A} (m : M DB A) (db : DB) (n : nat) (a : A) (db' : DB) (k : nat) : Prop := m (MkWorld db n) = (Ok a, MkWorld db' (n + k)).

Lemma runs_on_db {A} (m : M DB A) w a db' k (Q : A -> fworld -> Prop) :
  sq_ready w -> (k <= 10)%nat -> takes m (w_db (fw_world w)) (w_tick (fw_world w)) a db' k ->
  (forall w', sq_ready w' -> w_db (fw_world w') = db' -> sq_now w' = clock (w_tick (fw_world w) + k) -> brief sq_now w w' -> Q a w') ->
  runs (on_db m) w Q.
Proof.
  intros Hw Hk Hm HQ. exists a, (set_world (MkWorld db' (w_tick (fw_world w) + k)) w). unfold on_db, others_step. rewrite Hw.
  destruct (fw_world w) as [db n] eqn:Ew. unfold takes in Hm. simpl in *. rewrite Hm. split; [done|].
  apply HQ; [done..|]. unfold brief, sq_now. simpl. rewrite Ew. simpl. pose proof (clock_steps n k). unfold quick, Millisecond in *. lia.
Qed.

Lemma exec_takes {A} (f : DB -> res (A * DB)) db n a db' : f db = Ok (a, db') -> takes (exec f) db n a db' 1.
Proof. intros E. unfold takes, exec. simpl. rewrite (he_fault Hh), E. by rewrite Nat.add_1_r. Qed.
Lemma query_takes {A} (f : DB -> res A) db n a : f db = Ok a -> takes (query f) db n a db 1.
Proof. intros E. apply exec_takes. by rewrite E. Qed.
Lemma wrap_takes {A} (m : M DB A) c db n a db' k : takes m db n a db' k -> takes (m wrap c) db n a db' k.
Proof. unfold takes, catch. by intros ->. Qed.
Lemma ret_takes {A} (a : A) db n : takes (ret a) db n a db 0.
Proof. unfold takes, ret. by rewrite Nat.add_0_r. Qed.
Lemma bind_takes {A B} (m : M DB A) (f : A -> M DB B) db n a db1 k1 b db2 k2 :
  takes m db n a db1 k1 -> takes (f a) db1 (n + k1) b db2 k2 -> takes (bind m f) db n b db2 (k1 + k2).
Proof. unfold takes, bind. intros -> ->. by rewrite Nat.add_assoc. Qed.
Lemma Now_takes db n : takes Now db n (clock n) db 1.
Proof. unfold takes, Now. simpl. by rewrite Nat.add_1_r. Qed.
Lemma lift_takes {A} (a : A) db n : takes (lift (Ok a)) db n a db 0.
Proof. apply ret_takes. Qed.

(** *** Checkpoints *)

Definition cp_row (c : Checkpoint) : FeedCheckpointRow := MkFeedCheckpointRow (cp_Position c) (formatTS (cp_UpdatedAt c)) (cp_DefinitionHash c).

Definition sq_checkpoints (w : fworld) (m : gmap feed_triple Checkpoint) : Prop :=
  sq_ready w /\ d_feed_checkpoints (w_db (fw_world w)) = cp_row <$> m /\ map_Forall (fun _ c => in_layout (cp_UpdatedAt c)) m.

Lemma era_layout t : (0 <= t <= era_end)%Z -> in_layout t.
Proof.
  unfold in_layout, era_end.
  assert (days_of 0 1 1 * day_ns = -62167219200000000000)%Z as -> by (by vm_compute).
  assert (days_of 10000 1 1 * day_ns = 253402300800000000000)%Z as -> by (by vm_compute). lia.
Qed.

Lemma bind_uint64_small pos : (pos <= max_int64)%N -> bind_uint64 pos = Ok pos.
Proof. intros Hp. unfold bind_uint64. by rewrite (proj2 (N.leb_le _ _) Hp). Qed.

(** Save and Reset are one upsert. *)
Lemma upsert_runs merge ctx w m s p i d pos :
  sq_checkpoints w m -> (sq_now w <= era_end)%Z -> (pos <= max_int64)%N ->
  runs (on_db (let! now := Now in
               (let! _ := lift (bind_uint64 pos) in exec (upsert_checkpoint merge s p i d pos (formatTS now))) wrap ctx)) w (fun _ w' =>
    exists t, stamped sq_now id w w' t /\ sq_checkpoints w' (<[(s, p, i) := merge_checkpoint merge (m !! (s, p, i)) d pos t]> m) /\ brief sq_now w w').
Proof.
  intros (Hw & Hm & Hl) He Hp. set (t := sq_now w). eapply (runs_on_db _ w); [done| |eapply bind_takes; [apply Now_takes|]|].
  2: { rewrite bind_uint64_small by done. apply wrap_takes. eapply bind_takes; [apply lift_takes|]. by apply exec_takes. }
  { lia. }
  intros w' Hw' Hdb Hn Hb. exists t. split; [exists t; split; [|done]; destruct Hb; unfold t; lia|]. split; [|done]. split; [done|].
  split; [|apply map_Forall_insert_2; [|done]].
  - rewrite Hdb. simpl. rewrite Hm, fmap_insert. f_equal. rewrite lookup_fmap.
    unfold merge_checkpoint, cp_row. destruct (m !! (s, p, i)); done.
  - assert (in_layout t) by (apply era_layout; pose proof (he_era Hh (w_tick (fw_world w))); done).
    unfold merge_checkpoint. by destruct (m !! (s, p, i)).
Qed.

Lemma sqlite_checkpoints_lawful : CheckpointLaws sq_now id sqlite_Checkpoints sq_checkpoints.
Proof.
  split.
  - split; [done|]. unfold grain. intros a. simpl. lia.
  - intros w m _. pose proof (he_era Hh (w_tick (fw_world w))). unfold sq_now, zero_time, grain. lia.
  - intros w m (Hw & Hm & Hl). eexists. split; [done|]. split; [done|]. unfold brief, sq_now. simpl.
    pose proof (clock_steps (w_tick (fw_world w)) 1) as Hc. rewrite Nat.add_1_r in Hc. unfold quick, Millisecond in *. lia.
  - intros w m s p i (Hw & Hm & Hl) _. eapply (runs_on_db _ w); [done| |eapply bind_takes; [apply wrap_takes; by apply query_takes|]|].
    2: { rewrite Hm, lookup_fmap. instantiate (1 := O). instantiate (1 := w_db (fw_world w)).
         instantiate (1 := cp_Position (default zero_Checkpoint (m !! (s, p, i)))). destruct (m !! (s, p, i)); apply ret_takes. }
    { lia. }
    intros w' Hw' Hdb _ Hb. split; [done|]. split; [|done]. split; [done|]. by rewrite Hdb.
  - intros w m s p i (Hw & Hm & Hl) _. eapply (runs_on_db _ w); [done| |eapply bind_takes; [apply wrap_takes; by apply query_takes|]|].
    2: { rewrite Hm, lookup_fmap. instantiate (1 := O). instantiate (1 := w_db (fw_world w)).
         instantiate (1 := m !! (s, p, i)). destruct (m !! (s, p, i)) as [c|] eqn:Ec; [|apply ret_takes]. simpl.
         rewrite parseTS_formatTS by (by apply (Hl _ c Ec)). destruct c. apply ret_takes. }
    { lia. }
    intros w' Hw' Hdb _ Hb. split; [done|]. split; [|done]. split; [done|]. by rewrite Hdb.
  - intros w m s p i d pos. apply upsert_runs.
  - intros w m s p i d pos. apply upsert_runs.
  - intros w m s p i (Hw & Hm & Hl) _. eapply (runs_on_db _ w); [done| |apply wrap_takes; by apply exec_takes|]; [lia|].
    intros w' Hw' Hdb _ Hb. split; [|done]. split; [done|]. rewrite Hdb. simpl. rewrite Hm, fmap_delete. split; [done|].
    by apply map_Forall_delete.
Qed.

(** *** Leases *)

Definition lease_row (l : Lease) : LeaseRow := MkLeaseRow (ls_Owner l) (ls_Consumer l) (ls_ExpiresAt l).

Definition sq_leases (w : fworld) (m : gmap feed_triple Lease) : Prop :=
  sq_ready w /\ forall s p i, key_ok s p i -> d_feed_leases (w_db (fw_world w)) !! leaseKey s p i = lease_row <$> m !! (s, p, i).

(** The storage key separates the triples the feed core lets through. *)
Lemma leases_insert (rows : gmap string LeaseRow) (m : gmap feed_triple Lease) s p i l :
  key_ok s p i -> (forall s p i, key_ok s p i -> rows !! leaseKey s p i = lease_row <$> m !! (s, p, i)) ->
  forall s' p' i', key_ok s' p' i' -> <[leaseKey s p i := lease_row l]> rows !! leaseKey s' p' i' = lease_row <$> <[(s, p, i) := l]> m !! (s', p', i').
Proof.
  intros Hk Hr s' p' i' Hk'. destruct (decide ((s, p, i) = (s', p', i'))) as [[= -> -> ->]|Hne]; [by rewrite !lookup_insert_eq|].
  rewrite !lookup_insert_ne; [by apply Hr|done|]. intros E. destruct (lease_key_injective _ _ _ _ _ _ Hk Hk' E) as (-> & -> & ->). done.
Qed.

Lemma leases_delete (rows : gmap string LeaseRow) (m : gmap feed_triple Lease) s p i :
  key_ok s p i -> (forall s p i, key_ok s p i -> rows !! leaseKey s p i = lease_row <$> m !! (s, p, i)) ->
  forall s' p' i', key_ok s' p' i' -> delete (leaseKey s p i) rows !! leaseKey s' p' i' = lease_row <$> delete (s, p, i) m !! (s', p', i').
Proof.
  intros Hk Hr s' p' i' Hk'. destruct (decide ((s, p, i) = (s', p', i'))) as [[= -> -> ->]|Hne]; [by rewrite !lookup_delete_eq|].
  rewrite !lookup_delete_ne; [by apply Hr|done|]. intros E. destruct (lease_key_injective _ _ _ _ _ _ Hk Hk' E) as (-> & -> & ->). done.
Qed.

Lemma era_nano t d : (0 <= t <= era_end)%Z -> ttl_ok d -> UnixNano (t + d) = (t + d)%Z.
Proof. intros Ht Hd. unfold UnixNano. apply i64_small. unfold ttl_ok, era_end, Hour, Minute, i64_max in *. lia. Qed.

Lemma era_now w : (sq_now w <= era_end)%Z -> UnixNano (sq_now w) = sq_now w.
Proof.
  intros He. pose proof (he_era Hh (w_tick (fw_world w))). rewrite <- (Z.add_0_r (sq_now w)) at 1.
  rewrite era_nano; [lia|done|by vm_compute].
Qed.

(** The first reading of a call is its stamp. *)
Lemma stamped_now w w' : brief sq_now w w' -> stamped sq_now id w w' (sq_now w).
Proof. intros [Hb _]. exists (sq_now w). split; [lia|done]. Qed.

Lemma expires_exact t ttl : expires_in t ttl (t + ttl).
Proof. unfold expires_in, grain. lia. Qed.

Lemma acquire_sqlite s p i o c ttl w : acquire sqlite_Leases s p i o c ttl w = on_db (lease_Acquire s p i o c ttl) w.
Proof. unfold acquire. simpl. by destruct (on_db _ w) as [[b|e] w']. Qed.

Lemma acquire_runs w m s p i o c ttl : sq_leases w m -> (sq_now w <= era_end)%Z -> key_ok s p i -> ttl_ok ttl ->
  runs (acquire sqlite_Leases s p i o c ttl) w (fun ok w' =>
    exists t e, stamped sq_now id w w' t /\ expires_in t ttl e /\ ok = free_at (m !! (s, p, i)) o t
      /\ sq_leases w' (if ok then <[(s, p, i) := MkLease o c e]> m else m) /\ brief sq_now w w').
Proof.
  intros (Hw & Hm) He Hk Ht. pose proof (Hm _ _ _ Hk) as Hrow. pose proof (he_era Hh (w_tick (fw_world w))) as H0.
  set (t := sq_now w). set (ok := free_at (m !! (s, p, i)) o t).
  destruct (runs_on_db (lease_Acquire s p i o c ttl) w ok
    (if ok then set_feed_leases (<[leaseKey s p i := lease_row (MkLease o c (t + ttl))]> (d_feed_leases (w_db (fw_world w)))) (w_db (fw_world w))
     else w_db (fw_world w)) 2 (fun ok' w' => ok' = ok /\ sq_leases w' (if ok then <[(s, p, i) := MkLease o c (t + ttl)]> m else m) /\ brief sq_now w w'))
    as (ok' & w' & E & -> & Hr & Hb); [done|lia| | |].
  - unfold takes, lease_Acquire, bind, catch, Now, exec, ret. simpl. rewrite (he_fault Hh). fold (sq_now w). fold t.
    rewrite (era_nano t ttl (conj H0 He) Ht). unfold t. rewrite (era_now w He). fold t. unfold upsert_lease. rewrite Hrow.
    replace (w_tick (fw_world w) + 2)%nat with (S (S (w_tick (fw_world w)))) by lia. unfold ok, free_at.
    destruct (m !! (s, p, i)) as [l|]; simpl; [|done]. by destruct (_ || _).
  - intros w' Hw' Hdb _ Hb. split; [done|]. split; [|done]. split; [done|]. rewrite Hdb. destruct ok; [|done]. by apply leases_insert.
  - exists ok, w'. rewrite acquire_sqlite. split; [done|]. exists t, (t + ttl)%Z. split; [by apply stamped_now|]. split; [apply expires_exact|done].
Qed.

Lemma renew_runs w m s p i o ttl : sq_leases w m -> (sq_now w <= era_end)%Z -> key_ok s p i -> ttl_ok ttl ->
  runs (le_Renew sqlite_Leases s p i o ttl) w (fun ok w' =>
    exists t e, stamped sq_now id w w' t /\ expires_in t ttl e /\ ok = owned_by (m !! (s, p, i)) o
      /\ sq_leases w' (match m !! (s, p, i) with Some l => if ok then <[(s, p, i) := MkLease o (ls_Consumer l) e]> m else m | None => m end)
      /\ brief sq_now w w').
Proof.
  intros (Hw & Hm) He Hk Ht. pose proof (Hm _ _ _ Hk) as Hrow. pose proof (he_era Hh (w_tick (fw_world w))) as H0.
  set (t := sq_now w). set (ok := owned_by (m !! (s, p, i)) o).
  set (row' l := MkLease o (ls_Consumer l) (t + ttl)).
  apply (runs_on_db (lease_Renew s p i o ttl) w ok
    (match m !! (s, p, i) with
     | Some l => if ok then set_feed_leases (<[leaseKey s p i := lease_row (row' l)]> (d_feed_leases (w_db (fw_world w)))) (w_db (fw_world w))
                 else w_db (fw_world w)
     | None => w_db (fw_world w) end) 2); [done|lia| |].
  - unfold takes, lease_Renew, bind, catch, Now, exec, ret. simpl. rewrite (he_fault Hh). fold (sq_now w). fold t.
    rewrite (era_nano t ttl (conj H0 He) Ht), Hrow.
    replace (w_tick (fw_world w) + 2)%nat with (S (S (w_tick (fw_world w)))) by lia. unfold ok, owned_by, row'.
    destruct (m !! (s, p, i)) as [l|]; simpl; [|done]. by case_bool_decide.
  - intros w' Hw' Hdb _ Hb. exists t, (t + ttl)%Z. split; [by apply stamped_now|]. split; [apply expires_exact|]. split; [done|].
    split; [|done]. split; [done|]. rewrite Hdb. destruct (m !! (s, p, i)) as [l|]; [|done]. destruct ok; [|done]. by apply leases_insert.
Qed.

Lemma sqlite_leases_lawful : LeaseLaws sq_now id sqlite_Leases sq_leases.
Proof.
  split.
  - split; [done|]. unfold grain. intros a. simpl. lia.
  - intros w m (Hw & Hm). eexists. split; [done|]. split; [done|]. unfold brief, sq_now. simpl.
    pose proof (clock_steps (w_tick (fw_world w)) 1) as Hc. rewrite Nat.add_1_r in Hc. unfold quick, Millisecond in *. lia.
  - intros w m d (Hw & Hm) Hd. split; [done|]. unfold sq_now. simpl. pose proof (wake_time (w_tick (fw_world w)) d Hd).
    unfold quick, Millisecond in *. lia.
  - intros w m s p i o c ttl Hm He Hk Ht. by apply acquire_runs.
  - intros w m s p i o ttl Hm He Hk Ht. by apply renew_runs.
  - intros w m s p i o (Hw & Hm) He Hk. pose proof (Hm _ _ _ Hk) as Hrow. unfold owned_by.
    eapply (runs_on_db _ w); [done| |apply wrap_takes, exec_takes; cbv beta zeta; rewrite Hrow|].
    2: { instantiate (1 := if match m !! (s, p, i) with Some l => bool_decide (ls_Owner l = o) | None => false end
           then set_feed_leases (delete (leaseKey s p i) (d_feed_leases (w_db (fw_world w)))) (w_db (fw_world w)) else w_db (fw_world w)).
         destruct (m !! (s, p, i)) as [l|]; simpl; [|done]. by case_bool_decide. }
    { lia. }
    intros w' Hw' Hdb _ Hb. split; [|done]. split; [done|]. rewrite Hdb. destruct (m !! (s, p, i)) as [l|]; [|done].
    case_bool_decide; [|done]. by apply leases_delete.
  - intros w m s p i (Hw & Hm) He Hk. pose proof (Hm _ _ _ Hk) as Hrow.
    eapply (runs_on_db _ w); [done| |eapply bind_takes; [apply Now_takes|eapply bind_takes; [apply wrap_takes; by apply query_takes|apply ret_takes]]|].
    { lia. }
    intros w' Hw' Hdb _ Hb. exists (sq_now w). split; [by apply stamped_now|]. split; [|by rewrite <- Hdb in Hm].
    fold (sq_now w). rewrite (era_now w He), Hrow. unfold live_at. destruct (m !! (s, p, i)) as [l|]; [|done]. simpl.
    destruct (_ <? _)%Z; [|done]. by destruct l.
Qed.

(** *** The fixture *)

Lemma sqlite_opens_checkpoints : opens_checkpoints sq_now id sq_ready newSqliteFeedStore.
Proof.
  intros w Hw. exists sqlite_fields, sqlite_Checkpoints, sq_checkpoints, (fun w => w). eexists. split; [done|]. split; [done|].
  split; [apply sqlite_checkpoints_lawful|]. split; [|split; [done|by intros w' m []]]. split; [done|]. split; [|apply map_Forall_empty].
  by rewrite fmap_empty.
Qed.

Lemma sqlite_opens_leases : opens_leases sq_now id sq_ready newSqliteFeedStore.
Proof.
  intros w Hw. exists sqlite_fields, sqlite_Leases, sq_leases, (fun w => w). eexists. split; [done|]. split; [done|].
  split; [apply sqlite_leases_lawful|]. split; [|split; [done|by intros w' m []]]. split; [done|]. intros s p i _. simpl.
  by rewrite !lookup_empty.
Qed.
End Lawful.
(** A machine whose calls take a millisecond and do not fail. *)
Definition brisk_env : Env := {|
  fault := fun _ => None;
  clock := fun n => (1772532000000000000 + Z.of_nat n * Millisecond)%Z;
  fresh_id := id_of
|}.

Definition start_world : fworld := MkFworld (MkWorld empty_db 0) [] [] [] [] None false 0 false.

#[export] Instance brisk_sleep : @SleepEnv brisk_env.
Proof.
  refine {| wake := fun n d => (n + Z.to_nat (Z.max 0 (d / Millisecond + 1)))%nat |}.
  intros n d Hd. cbn [clock brisk_env]. pose proof (Z.mul_div_le d Millisecond). pose proof (Z.mul_succ_div_gt d Millisecond). unfold Millisecond in *. lia.
Defined.

Lemma brisk_healthy : healthy brisk_env.
Proof. split; [done|..]; intros n; cbn [clock brisk_env]; unfold Millisecond; lia. Qed.
