(* ===== verification/ConformancePg.v ===== *)
(** * The PostgreSQL adapters under the conformance suite

    The fixture of the PostgreSQL backend: the tables are truncated for every
    test, the sequence goes on, and every scope is a workspace of its own. *)
From S2P Require Import Prelude Sha256 Es Hash Chain Anchor Timestamp Effect Store Sql Sqlite HexUuid.
From S2P Require Import Definitions FeedPorts Feed PgServer PgStore PgFeed.
From S2P Require Import Conformance ConformanceLaws ConformanceLeases ConformanceSqlite.

(** ** The test process *)

Definition pf_with_sent (l : list Envelope) (w : pgf) : pgf :=
  MkPgf (pf_pg w) (pf_tables w) (pf_saved w) l (pf_signals w) (pf_others w) (pf_ticks w) (pf_until w) (pf_cancelled w) (pf_seq w).
Definition pf_with_until (u : option nat) (w : pgf) : pgf :=
  MkPgf (pf_pg w) (pf_tables w) (pf_saved w) (pf_sent w) (pf_signals w) (pf_others w) (pf_ticks w) u (pf_cancelled w) (pf_seq w).
Definition pf_with_tick (n : nat) (w : pgf) : pgf :=
  set_pg (MkPgw (pg_server (pf_pg w)) (pg_session (pf_pg w)) (pg_boundL (pf_pg w)) (pg_fenceR (pf_pg w)) n (pg_others (pf_pg w))) w.

Definition empty_tabs : feedtabs := MkFeedtabs ∅ ∅ ∅.

(** TRUNCATE of every table; ids and positions go on. *)
Definition truncate (s : server) : server := PgServer.MkServer [] ∅ ∅ (sv_running s) (sv_next_xid s) (sv_completed s) (sv_seq s).

Section Fixture.
Context {UL : UuidLib} {EV : Env} {PE : PgEnv} {SE : SleepEnv}.

#[global] Instance pg_test_env : TestEnv pgf := {
  te_Sleep d w := pf_with_tick (wake (pg_tick (pf_pg w)) d) w;
  te_WithTimeout := pf_with_until None;
  te_cancel := pf_with_until (Some O);
  te_newSink := pf_with_sent [];
  te_push env w := pf_with_sent (pf_sent w ++ [env]) w;
  te_events := pf_sent
}.

(** A row inserted with SQL by a statement of its own. *)
Definition pg_poison_row (ws : string) (sid : StreamID) (version : N) (typeURL : string) (payload : list byte) (now : time) (gp : N) : PgEvent :=
  MkPgEvent ws gp "11111111-1111-7111-8111-111111111111" (sid_Type sid) (Canonical sid) version typeURL 1
    (TruncateMicros now) (TruncateMicros now) "" "" "" (sid_Type sid) "poison" "conformance:poison" payload None None.

Definition pg_plant (ws : string) (sid : StreamID) (version : N) (typeURL : string) (payload : list byte) : PM N :=
  let! now := pg_Now in
  in_tx (Errorf "begin") (
    let! gp := insert_event_row (pg_poison_row ws sid version typeURL payload now) in
    let! _ := Commit in
    ret gp) wrap "direct insert".

Definition pg_read_dead_letter (scope projection instance : string) (position : N) : SM pgf (option Conformance.DeadLetterRow) :=
  feed_exec (fun _ t => ((fun r => Conformance.MkDeadLetterRow (pd_type_url r) (pd_size_bytes r) (pd_reason r) (pd_actor r) (pd_created_at r))
    <$> ft_dead_letters t !! (scope, projection, instance, int64_of position), t)).

Definition pg_count_dead_letters (scope : string) : SM pgf Z :=
  feed_exec (fun _ t => (Z.of_nat (size (filter (fun kv => kv.1.1.1.1 = scope) (ft_dead_letters t))), t)).

Definition pg_fields : StoreFields pgf := {|
  sf_Logs := Some (pg_Open 64);
  sf_Checkpoints := Some pg_Checkpoints;
  sf_Leases := Some pg_Leases;
  sf_DeadLetters := Some pg_dead_letter_Record;
  sf_Append := Some (fun scope sid version typeURL payload => append_one (fun p => on_pgw (pg_Append 64 scope p)) sid version typeURL payload);
  sf_PlantOverCap := Some (fun scope sid version typeURL payload => on_pgw (pg_plant scope sid version typeURL payload));
  sf_MaxPayloadBytes := 64;
  sf_ReadDeadLetter := Some pg_read_dead_letter;
  sf_CountDeadLetters := Some pg_count_dead_letters
|}.

Definition newPostgresFeedStore : NewStore pgf := fun w =>
  (Ok (pg_fields, fun w => w), set_tables empty_tabs None (set_pg (with_server (pf_pg w) (truncate (pg_server (pf_pg w)))) w)).

Definition pg_fixture : Fixture pgf := MkFixture (Some newPostgresFeedStore) true.
End Fixture.

(** ** The ports keep their laws on every healthy server *)

Section Lawful.
Context {UL : UuidLib} {EV : Env} {PE : PgEnv} {SE : SleepEnv}.
Hypothesis Hh : healthy EV.

Definition pg_now (w : pgf) : time := clock (pg_tick (pf_pg w)).
(** No other process is about to touch the feed tables; other sessions may do
    what they like to the events. *)
Definition pg_ready (w : pgf) : Prop := pf_others w = [].

Lemma micros_rounding : rounding TruncateMicros.
Proof.
  assert (0 < Microsecond)%Z as Hm by done. split.
  - intros a b Hab. unfold TruncateMicros, Truncate.
    pose proof (Z.div_le_mono (a - zero_time) (b - zero_time) Microsecond Hm ltac:(lia)).
    pose proof (Z.div_mod (a - zero_time) Microsecond ltac:(lia)). pose proof (Z.div_mod (b - zero_time) Microsecond ltac:(lia)). nia.
  - intros a. unfold TruncateMicros, Truncate, grain. pose proof (Z.mod_pos_bound (a - zero_time) Microsecond Hm).
    unfold Microsecond in *. lia.
Qed.

Lemma tick_Rollback x : pg_tick (Rollback x) = pg_tick x.
Proof. unfold Rollback. by destruct (own_xid x). Qed.
Lemma tick_committed x : pg_tick (committed x) = pg_tick x.
Proof. unfold committed. by destruct (own_xid x). Qed.

(** A workspace transaction of one statement and what is made of its answer. *)
Definition one_shot {A B} (fn : SM pgf B) (f : time -> feedtabs -> A * feedtabs) (k : A -> res B) : Prop :=
  forall w, fn w = match feed_exec f w with (Ok a, w1) => (k a, w1) | (Err e, w1) => (Err e, w1) end.

Lemma one_shot_runs {A B} (fn : SM pgf B) (f : time -> feedtabs -> A * feedtabs) k ws w :
  one_shot fn f k -> pg_ready w ->
  let n := pg_tick (pf_pg w) in let '(a, t1) := f (TruncateMicros (clock (n + 2))) (pf_tables w) in
  exists w', runWorkspace ws fn w = (k a, w') /\ pg_ready w'
    /\ pf_tables w' = (match k a with Ok _ => t1 | Err _ => pf_tables w end)
    /\ pg_tick (pf_pg w') = (n + match k a with Ok _ => 4 | Err _ => 3 end)%nat.
Proof.
  intros H1 Hw. unfold runWorkspace, feed_Begin, others_act. rewrite Hw. unfold ask, statement. rewrite (he_fault Hh).
  cbn [pf_pg set_pg set_tables with_session pg_session pg_tick pf_tables].
  unfold bind at 1, catch at 1, on_pgw, setWorkspace, set_config, ask, statement. rewrite (he_fault Hh). simpl. unfold bind at 1. rewrite H1.
  unfold feed_exec at 1, ask, statement. rewrite (he_fault Hh). simpl. rewrite Nat.add_comm. simpl.
  destruct (f _ (pf_tables w)) as [a t1] eqn:Ef.
  match goal with |- context [set_tables t1 (Some (pf_tables w)) (set_pg ?y ?z)] =>
    assert (pg_tick y = S (S (S (pg_tick (pf_pg w)))) /\ pf_others z = []) as [Hy Hz] by done; generalize dependent y; generalize dependent z end.
  intros z Hz y Hy. destruct (k a) as [b|e].
  - unfold bind, catch, feed_Commit, Commit. simpl. rewrite (he_fault Hh). unfold ret, feed_Rollback. simpl. eexists. split; [done|].
    split; [done|]. split; [done|]. etransitivity; [apply tick_Rollback|]. etransitivity; [apply tick_committed|]. simpl. rewrite Hy. lia.
  - unfold feed_Rollback. simpl. eexists. split; [done|]. split; [done|]. split; [done|]. etransitivity; [apply tick_Rollback|]. rewrite Hy. lia.
Qed.

(** A call of at most ten ticks whose answer and tables are known. *)
Lemma runs_one_shot {A B} (fn : SM pgf B) (f : time -> feedtabs -> A * feedtabs) k ws w a t1 b (Q : B -> pgf -> Prop) :
  one_shot fn f k -> pg_ready w ->
  f (TruncateMicros (clock (pg_tick (pf_pg w) + 2))) (pf_tables w) = (a, t1) -> k a = Ok b ->
  (forall w', pg_ready w' -> pf_tables w' = t1 -> brief pg_now w w' -> (pg_now w <= clock (pg_tick (pf_pg w) + 2) <= pg_now w')%Z -> Q b w') ->
  runs (runWorkspace ws fn) w Q.
Proof.
  intros H1 Hw Ef Ek HQ. pose proof (one_shot_runs fn f k ws w H1 Hw) as Hrun. simpl in Hrun. rewrite Ef in Hrun.
  destruct Hrun as (w' & E & Hw' & Ht & Hn). rewrite Ek in *. exists b, w'. split; [done|].
  pose proof (clock_steps Hh (pg_tick (pf_pg w)) 4). pose proof (clock_steps Hh (pg_tick (pf_pg w)) 2).
  pose proof (clock_steps Hh (pg_tick (pf_pg w) + 2) 2) as H2. replace (_ + 2 + 2)%nat with (pg_tick (pf_pg w) + 4)%nat in H2 by lia.
  apply HQ; [done..| |]; unfold brief, pg_now; rewrite Hn; unfold quick, Millisecond in *; lia.
Qed.

(** A single-row read: [ob] is what is made of the row, if there is one. *)
Lemma runs_find_row {A B} (fn : SM pgf B) (f : time -> feedtabs -> option A) (k : option A -> res B) ctx ws w (ob : option B) (Q : option B -> pgf -> Prop) :
  one_shot fn (fun now t => (f now t, t)) k -> pg_ready w ->
  k (f (TruncateMicros (clock (pg_tick (pf_pg w) + 2))) (pf_tables w)) = match ob with Some b => Ok b | None => Err no_rows end ->
  (forall w', pg_ready w' -> pf_tables w' = pf_tables w -> brief pg_now w w' ->
     (pg_now w <= clock (pg_tick (pf_pg w) + 2) <= pg_now w')%Z -> Q ob w') ->
  runs (find_row ctx (runWorkspace ws fn)) w Q.
Proof.
  intros H1 Hw Hk HQ. pose proof (one_shot_runs _ _ _ ws w H1 Hw) as (w' & E & Hw' & Ht & Hn). rewrite Hk in *.
  pose proof (clock_steps Hh (pg_tick (pf_pg w)) 2) as C1.
  pose proof (clock_steps Hh (pg_tick (pf_pg w) + 2) 1) as C2. pose proof (clock_steps Hh (pg_tick (pf_pg w) + 2) 2) as C3.
  rewrite <- !Nat.add_assoc in C2, C3. unfold runs, find_row, bind, attempt. rewrite E.
  destruct ob as [b|]; simpl; eexists _, _; (split; [done|]); (apply HQ; [done..| |]); unfold brief, pg_now;
    rewrite Hn; unfold quick, Millisecond in *; simpl in *; lia.
Qed.

Lemma exec_shot {A} (f : time -> feedtabs -> A * feedtabs) : one_shot (feed_exec f) f (fun a => Ok a).
Proof. intros x. by destruct (feed_exec f x) as [[a|e] x1]. Qed.

Lemma query_row_shot {A} (f : time -> feedtabs -> option A) :
  one_shot (query_row f) (fun now t => (f now t, t)) (fun o => match o with Some a => Ok a | None => Err no_rows end).
Proof. intros x. unfold query_row, bind, throw, ret. by destruct (feed_exec _ x) as [[[a|]|e] x1]. Qed.

(** *** Checkpoints *)

Definition pg_cp_row (c : Checkpoint) : PgCheckpointRow := MkPgCheckpointRow (Z.of_N (cp_Position c)) (cp_DefinitionHash c) (cp_UpdatedAt c).

Definition pg_checkpoints (w : pgf) (m : gmap feed_triple Checkpoint) : Prop :=
  pg_ready w /\ ft_checkpoints (pf_tables w) = pg_cp_row <$> m /\ map_Forall (fun _ c => cp_Position c <= max_int64)%N m.

Lemma int64_small pos : (pos <= max_int64)%N -> int64_of pos = Z.of_N pos.
Proof. intros Hp. unfold int64_of. apply i64_small. unfold max_int64, i64_max in *. lia. Qed.

Lemma stamped_micros w w' t : (pg_now w <= t <= pg_now w')%Z -> stamped pg_now TruncateMicros w w' (TruncateMicros t).
Proof. intros Ht. by exists t. Qed.

(** Save and Reset are one upsert. *)
Lemma pg_upsert_runs (keepZ : Z -> Z -> Z) (keep : N -> N -> N) ctx w m s p i d pos :
  (forall a b, keepZ (Z.of_N a) (Z.of_N b) = Z.of_N (keep a b)) ->
  (forall a b, a <= max_int64 -> b <= max_int64 -> keep a b <= max_int64)%N ->
  pg_checkpoints w m -> (pos <= max_int64)%N ->
  runs (runWorkspace s (feed_exec (pg_upsert_checkpoint keepZ s p i d pos)) wrap ctx) w (fun _ w' =>
    exists t, stamped pg_now TruncateMicros w w' t
      /\ pg_checkpoints w' (<[(s, p, i) := merge_checkpoint keep (m !! (s, p, i)) d pos t]> m) /\ brief pg_now w w').
Proof.
  intros Hkeep Hmax (Hw & Hm & Hl) Hp. apply runs_wrap.
  eapply runs_one_shot; [apply exec_shot|exact Hw|reflexivity|reflexivity|].
  intros w' Hw' Ht Hb Hc. eexists. split; [by apply stamped_micros|]. split; [|done]. split; [done|].
  split; [|apply map_Forall_insert_2; [|done]].
  - rewrite Ht. simpl. rewrite Hm, fmap_insert, lookup_fmap, int64_small by done. f_equal.
    unfold merge_checkpoint, pg_cp_row. destruct (m !! (s, p, i)) as [c|]; simpl; [by rewrite Hkeep|done].
  - unfold merge_checkpoint. destruct (m !! (s, p, i)) as [c|] eqn:Ec; simpl; [|done]. apply Hmax; [|done]. apply (Hl _ c Ec).
Qed.

Lemma u64_of_small pos : (pos <= max_int64)%N -> u64_of_Z (Z.of_N pos) = pos.
Proof. intros Hp. unfold u64_of_Z, i64_mod. unfold max_int64 in *. rewrite Z.mod_small by lia. lia. Qed.

Lemma pg_now_law w : brief pg_now w (fx_Now w).2.
Proof.
  unfold brief, pg_now. simpl. pose proof (clock_steps Hh (pg_tick (pf_pg w)) 1) as Hc. rewrite Nat.add_1_r in Hc.
  unfold quick, Millisecond in *. lia.
Qed.

Lemma pg_checkpoints_lawful : CheckpointLaws pg_now TruncateMicros pg_Checkpoints pg_checkpoints.
Proof.
  split.
  - apply micros_rounding.
  - intros w m _. pose proof (he_era Hh (pg_tick (pf_pg w))). unfold pg_now, zero_time, grain. lia.
  - intros w m Hm. eexists. split; [done|]. split; [done|]. apply pg_now_law.
  - intros w m s p i (Hw & Hm & Hl) _. apply runs_bind. eapply runs_find_row; [apply query_row_shot|done| |].
    { instantiate (1 := pg_cp_row <$> m !! (s, p, i)). cbv beta. rewrite Hm, lookup_fmap. by destruct (m !! (s, p, i)). }
    intros w' Hw' Ht Hb _.
    destruct (m !! (s, p, i)) as [c|] eqn:Ec; apply runs_ret; (split; [|split; [|done]; split; [done|by rewrite Ht]]); [|done].
    simpl. apply u64_of_small. apply (Hl _ c Ec).
  - intros w m s p i (Hw & Hm & Hl) _. eapply (runs_find_row _ (fun _ t => ft_checkpoints t !! (s, p, i))
      (fun o => match o with Some r => let? pos := scan_uint64 (pc_position r) in Ok (MkCheckpoint pos (pc_definition_hash r) (pc_updated_at r)) | None => Err no_rows end));
      [|done| |].
    { intros x. unfold bind. rewrite (query_row_shot _ x). destruct (feed_exec _ x) as [[[r|]|e] x1]; [|done..].
      unfold lift, ret. by destruct (scan_uint64 _). }
    { instantiate (1 := m !! (s, p, i)). cbv beta. rewrite Hm, lookup_fmap. destruct (m !! (s, p, i)) as [c|]; [|done]. simpl.
      unfold scan_uint64. rewrite (proj2 (Z.leb_le _ _)) by lia. simpl. rewrite N2Z.id. by destruct c. }
    intros w' Hw' Ht Hb _. split; [done|]. split; [|done]. split; [done|by rewrite Ht].
  - intros w m s p i d pos Hm _ Hp. apply pg_upsert_runs; [|lia|done..]. intros a b. lia.
  - intros w m s p i d pos Hm _ Hp. by apply pg_upsert_runs.
  - intros w m s p i (Hw & Hm & Hl) _. apply runs_wrap. eapply runs_one_shot; [apply exec_shot|exact Hw|reflexivity|reflexivity|].
    intros w' Hw' Ht Hb Hc. split; [|done]. split; [done|]. rewrite Ht. simpl. rewrite Hm, fmap_delete. split; [done|]. by apply map_Forall_delete.
Qed.

(** *** Leases *)

Definition pg_lease_row (l : Lease) : PgLeaseRow := MkPgLeaseRow (ls_Owner l) (ls_Consumer l) (ls_ExpiresAt l).

Definition pg_leases (w : pgf) (m : gmap feed_triple Lease) : Prop := pg_ready w /\ ft_leases (pf_tables w) = pg_lease_row <$> m.

Lemma lease_expiry_in now ttl : ttl_ok ttl -> expires_in now ttl (lease_expiry now ttl).
Proof.
  intros [Ht _]. unfold expires_in, lease_expiry, grain. rewrite Z.quot_div_nonneg by lia.
  pose proof (Z.mul_div_le ttl 1000 ltac:(lia)). pose proof (Z.mul_succ_div_gt ttl 1000 ltac:(lia)). lia.
Qed.

(** An owner-guarded statement: one row affected means yes. *)
Lemma affected_shot (f : time -> feedtabs -> Z * feedtabs) :
  one_shot (let! n := feed_exec f in ret (n =? 1)%Z) f (fun n => Ok (n =? 1)%Z).
Proof. intros x. unfold bind, ret. by destruct (feed_exec f x) as [[n|e] x1]. Qed.

Lemma pg_acquire s p i o c ttl w : acquire pg_Leases s p i o c ttl w = pg_lease_Acquire s p i o c ttl w.
Proof. unfold acquire. simpl. by destruct (pg_lease_Acquire s p i o c ttl w) as [[b|e] w']. Qed.

Lemma pg_acquire_runs w m s p i o c ttl : pg_leases w m -> ttl_ok ttl ->
  runs (pg_lease_Acquire s p i o c ttl) w (fun ok w' =>
    exists t e, stamped pg_now TruncateMicros w w' t /\ expires_in t ttl e /\ ok = free_at (m !! (s, p, i)) o t
      /\ pg_leases w' (if ok then <[(s, p, i) := MkLease o c e]> m else m) /\ brief pg_now w w').
Proof.
  intros (Hw & Hm) Ht. apply runs_wrap. set (t := TruncateMicros (clock (pg_tick (pf_pg w) + 2))).
  set (ok := free_at (m !! (s, p, i)) o t).
  eapply runs_one_shot; [apply affected_shot|exact Hw| |reflexivity|].
  { fold t. instantiate (1 := if ok then set_ft_leases (<[(s, p, i) := pg_lease_row (MkLease o c (lease_expiry t ttl))]> (ft_leases (pf_tables w))) (pf_tables w) else pf_tables w).
    instantiate (1 := if ok then 1%Z else 0%Z). unfold pg_upsert_lease, ok, free_at. rewrite Hm, lookup_fmap.
    destruct (m !! (s, p, i)) as [l|]; simpl; [|done]. by destruct (_ || _). }
  intros w' Hw' Htab Hb Hc. exists t, (lease_expiry t ttl). split; [by apply stamped_micros|]. split; [by apply lease_expiry_in|].
  assert (((if ok then 1 else 0) =? 1)%Z = ok) as -> by (by destruct ok). split; [done|]. split; [|done]. split; [done|]. rewrite Htab. destruct ok; [|done]. simpl. by rewrite Hm, fmap_insert.
Qed.

Lemma pg_renew_runs w m s p i o ttl : pg_leases w m -> ttl_ok ttl ->
  runs (pg_lease_Renew s p i o ttl) w (fun ok w' =>
    exists t e, stamped pg_now TruncateMicros w w' t /\ expires_in t ttl e /\ ok = owned_by (m !! (s, p, i)) o
      /\ pg_leases w' (match m !! (s, p, i) with Some l => if ok then <[(s, p, i) := MkLease o (ls_Consumer l) e]> m else m | None => m end)
      /\ brief pg_now w w').
Proof.
  intros (Hw & Hm) Ht. apply runs_wrap. set (t := TruncateMicros (clock (pg_tick (pf_pg w) + 2))).
  set (ok := owned_by (m !! (s, p, i)) o). set (row' l := MkLease o (ls_Consumer l) (lease_expiry t ttl)).
  eapply runs_one_shot; [apply affected_shot|exact Hw| |reflexivity|].
  { fold t. instantiate (1 := match m !! (s, p, i) with
      | Some l => if ok then set_ft_leases (<[(s, p, i) := pg_lease_row (row' l)]> (ft_leases (pf_tables w))) (pf_tables w) else pf_tables w
      | None => pf_tables w end).
    instantiate (1 := if ok then 1%Z else 0%Z). cbv beta zeta. unfold ok, owned_by, row'. rewrite Hm, lookup_fmap.
    destruct (m !! (s, p, i)) as [l|]; simpl; [|done]. by case_bool_decide. }
  intros w' Hw' Htab Hb Hc. exists t, (lease_expiry t ttl). split; [by apply stamped_micros|]. split; [by apply lease_expiry_in|].
  assert (((if ok then 1 else 0) =? 1)%Z = ok) as -> by (by destruct ok). split; [done|]. split; [|done]. split; [done|]. rewrite Htab. destruct (m !! (s, p, i)) as [l|]; [|done].
  destruct ok; [|done]. simpl. by rewrite Hm, fmap_insert.
Qed.

Lemma pg_leases_lawful : LeaseLaws pg_now TruncateMicros pg_Leases pg_leases.
Proof.
  split.
  - apply micros_rounding.
  - intros w m Hm. eexists. split; [done|]. split; [done|]. apply pg_now_law.
  - intros w m d (Hw & Hm) Hd. split; [done|]. unfold pg_now. simpl. pose proof (wake_time (pg_tick (pf_pg w)) d Hd).
    unfold quick, Millisecond in *. lia.
  - intros w m s p i o c ttl Hm _ _ Ht. destruct (pg_acquire_runs w m s p i o c ttl Hm Ht) as (a & w' & E & HQ). exists a, w'. by rewrite pg_acquire.
  - intros w m s p i o ttl Hm _ _ Ht. by apply pg_renew_runs.
  - intros w m s p i o (Hw & Hm) _ _. apply runs_wrap. eapply runs_one_shot; [apply exec_shot|exact Hw| |reflexivity|].
    { instantiate (1 := if owned_by (m !! (s, p, i)) o then set_ft_leases (delete (s, p, i) (ft_leases (pf_tables w))) (pf_tables w) else pf_tables w).
      instantiate (1 := tt). cbv beta zeta. rewrite Hm, lookup_fmap. unfold owned_by. destruct (m !! (s, p, i)) as [l|]; simpl; [|done].
      by case_bool_decide. }
    intros w' Hw' Ht Hb _. split; [|done]. split; [done|]. rewrite Ht. destruct (owned_by _ _); [|done]. simpl. by rewrite Hm, fmap_delete.
  - intros w m s p i (Hw & Hm) _ _. apply runs_bind. set (t := TruncateMicros (clock (pg_tick (pf_pg w) + 2))).
    eapply runs_find_row; [apply query_row_shot|done| |].
    { fold t. instantiate (1 := pg_lease_row <$> live_at (m !! (s, p, i)) t). cbv beta. rewrite Hm, lookup_fmap.
      unfold live_at. destruct (m !! (s, p, i)) as [l|]; simpl; [|done]. by destruct (_ <? _)%Z. }
    intros w' Hw' Ht Hb Hc. apply runs_ret. exists t. split; [by apply stamped_micros|]. split; [|split; [|done]; split; [done|by rewrite Ht]].
    destruct (live_at _ _) as [l|]; [|done]. by destruct l.
Qed.

(** *** The fixture *)

Lemma pg_opens_checkpoints : opens_checkpoints pg_now TruncateMicros pg_ready newPostgresFeedStore.
Proof.
  intros w Hw. exists pg_fields, pg_Checkpoints, pg_checkpoints, (fun w => w). eexists. split; [done|]. split; [done|].
  split; [apply pg_checkpoints_lawful|]. split; [|split; [done|by intros w' m []]]. split; [done|]. split; [|apply map_Forall_empty].
  by rewrite fmap_empty.
Qed.

Lemma pg_opens_leases : opens_leases pg_now TruncateMicros pg_ready newPostgresFeedStore.
Proof.
  intros w Hw. exists pg_fields, pg_Leases, pg_leases, (fun w => w). eexists. split; [done|]. split; [done|].
  split; [apply pg_leases_lawful|]. split; [|split; [done|by intros w' m []]]. split; [done|]. by rewrite fmap_empty.
Qed.
End Lawful.

#[export] Instance plain_role : PgEnv := {| relay_member := true; lost_ack := fun _ => false |}.

(** A server nobody else uses. *)
Definition pg_start : pgf := MkPgf (MkPgw empty_server None 0 0 0 []) empty_tabs None [] [] [] [] None false 0.
