(* ===== verification/ConformanceClaims.v ===== *)
(** * The suite's verdicts *)
From S2P Require Import Prelude Sha256 Es Hash Chain Anchor Timestamp Effect Store Sql Sqlite HexUuid.
From S2P Require Import Definitions FeedPorts Feed SqliteFeed FeedSqlite PgServer PgStore PgFeed.
From S2P Require Import Conformance ConformanceLaws ConformanceLeases ConformanceSqlite ConformancePg.

(** The two sections over single ports, one after the other. *)
Definition port_sections {W} `{FE : FeedEnv W} `{TE : TestEnv W} (newStore : NewStore W) : Suite W :=
  t_all [RunCheckpoints (checkpoint_port newStore); RunLeases (lease_port newStore)].

Lemma sections_pass {W} `{FE : FeedEnv W} `{TE : TestEnv W} now round (ready : W -> Prop) newStore w :
  opens_checkpoints now round ready newStore -> opens_leases now round ready newStore ->
  ready w -> (now w + 9 * Minute <= era_end)%Z -> passed (port_sections newStore w).1 = true.
Proof.
  intros Hc Hl Hw He. unfold port_sections. cbn [t_all].
  destruct (checkpoints_conform now round ready newStore Hc w Hw) as (Hp1 & Hw1 & Hn1); [unfold Minute in *; lia|].
  destruct (RunCheckpoints _ w) as [os1 w1]. simpl in *.
  destruct (leases_conform now round ready newStore Hl w1 Hw1) as (Hp2 & _ & _); [unfold Minute in *; lia|].
  destruct (RunLeases _ w1) as [os2 w2]. simpl in *. unfold passed. rewrite app_nil_r, forallb_app. by apply andb_true_intro.
Qed.

(** C10: the suite has no false alarms for checkpoint and lease stores.  Whatever
    the backend, if every test opens an empty checkpoint table and an empty
    lease table whose operations keep the port contract (the laws
    [CheckpointLaws] and [LeaseLaws]: monotonic Save, rewinding Reset, kept
    definition hashes, owner-guarded leases that expire by the store's own
    clock, rounded or not), and calls are quick, then all nine tests of the two
    sections pass, the one that waits for a lease to expire included. *)
Theorem lawful_stores_conform {W} `{FE : FeedEnv W} `{TE : TestEnv W} now round (ready : W -> Prop) newStore w :
  opens_checkpoints now round ready newStore -> opens_leases now round ready newStore ->
  ready w -> (now w + 9 * Minute <= era_end)%Z -> passed (port_sections newStore w).1 = true.
Proof. apply sections_pass. Qed.

Lemma lawful_stores_conform_witness :
  passed (port_sections (FE := @sqlite_feed_env brisk_env) (TE := @sqlite_test_env brisk_env _) (@newSqliteFeedStore HexUuid brisk_env) start_world).1 = true
  /\ passed (port_sections (FE := @pg_feed_env HexUuid brisk_env) (TE := @pg_test_env brisk_env _) (@newPostgresFeedStore HexUuid brisk_env plain_role) pg_start).1 = true.
Proof.
  split.
  - refine (lawful_stores_conform _ _ _ _ _ (sqlite_opens_checkpoints brisk_healthy) (sqlite_opens_leases brisk_healthy) _ _); [done|by vm_compute].
  - refine (lawful_stores_conform _ _ _ _ _ (pg_opens_checkpoints brisk_healthy) (pg_opens_leases brisk_healthy) _ _); [done|by vm_compute].
Defined.

(** C12: SQLite's checkpoints and leases pass their conformance tests.  In every
    environment in which no call fails and each takes at most a millisecond (a
    clock from 1970 on that never runs backwards), from every database no other
    process is about to touch, all nine tests of the checkpoint and lease
    sections pass against the stores the SQLite fixture opens. *)
Theorem sqlite_ports_conform {UL : UuidLib} {EV : Env} {SE : SleepEnv} w :
  healthy EV -> sq_ready w -> (sq_now w + 9 * Minute <= era_end)%Z ->
  passed (port_sections newSqliteFeedStore w).1 = true.
Proof.
  intros Hh. apply (sections_pass _ _ _ _ _ (sqlite_opens_checkpoints Hh) (sqlite_opens_leases Hh)).
Qed.

Lemma sqlite_ports_conform_witness :
  passed (port_sections (FE := @sqlite_feed_env brisk_env) (TE := @sqlite_test_env brisk_env _) (@newSqliteFeedStore HexUuid brisk_env) start_world).1 = true.
Proof. apply (@sqlite_ports_conform HexUuid brisk_env _ start_world brisk_healthy); [reflexivity|by vm_compute]. Defined.

(** C11: PostgreSQL's checkpoints and leases pass the same tests, under the same
    conditions, with the server's clock and its microsecond columns. *)
Theorem pg_ports_conform {UL : UuidLib} {EV : Env} {PE : PgEnv} {SE : SleepEnv} w :
  healthy EV -> pg_ready w -> (pg_now w + 9 * Minute <= era_end)%Z ->
  passed (port_sections newPostgresFeedStore w).1 = true.
Proof.
  intros Hh. apply (sections_pass _ _ _ _ _ (pg_opens_checkpoints Hh) (pg_opens_leases Hh)).
Qed.

Lemma pg_ports_conform_witness :
  passed (port_sections (FE := @pg_feed_env HexUuid brisk_env) (TE := @pg_test_env brisk_env _) (@newPostgresFeedStore HexUuid brisk_env plain_role) pg_start).1 = true.
Proof. apply (@pg_ports_conform HexUuid brisk_env plain_role _ pg_start brisk_healthy); [done|by vm_compute]. Defined.

Section Verdicts.
#[local] Existing Instance brisk_env.

(** The names of the tests that failed. *)
Definition failures (os : list outcome) : list string := (filter (fun o => o.2 <> None) os).*1.

(** One run of the whole suite against SQLite, on an empty database with calls
    of a millisecond: no test of RunAll fails, and of the section that
    MultiWorkspace false leaves out one test does, because the enrichment of
    dead letters does not know workspaces. *)
Example sqlite_suite_run :
  failures (RunAll (sqlite_fixture false) start_world).1 = []
  /\ failures (runCrossWorkspace newSqliteFeedStore start_world).1
     = ["cross workspace isolation/dead letter enrichment never names a foreign event"%string].
Proof. split; match goal with |- _ = ?r => vm_cast_no_check (eq_refl r) end. Qed.

(** One run of the whole suite against PostgreSQL, cross-workspace isolation
    included, with the same tables and sequence used from test to test. *)
Example pg_suite_run : failures (RunAll pg_fixture pg_start).1 = [].
Proof. match goal with |- _ = ?r => vm_cast_no_check (eq_refl r) end. Qed.
End Verdicts.
